(* ===== verification/_CoqProject ===== *)
-Q . S2P
Prelude.v
StdMap.v
Types.v
OrderBook.v
OrderBookInv.v
Matching.v
OrderBookOps.v
OrderBookProps.v
ReferenceBook.v
Differential.v
Workload.v
Bytes.v
Journal.v
JournalProps.v
Posix.v
MemoryFs.v
JournalStorage.v
JournalFile.v
JournalStorageProps.v
DurableEngine.v
DurableEngineProps.v
JournalDescriptors.v
Wire.v
WireCodec.v
WireProps.v
WireParser.v
Threads.v
BoundedQueue.v
GatewayTypes.v
Connection.v
Gateway.v
Exchange.v
Pipeline.v
PipelineInv.v
WorkerLoop.v
GatewayInv.v
GatewayMoves.v
GatewayLoop.v
ExchangeInv.v
ExchangeStart.v
WorkerTermination.v
GatewayTermination.v
Scenario.v
ExchangeProps.v
GatewayProgress.v
ResponseTyping.v
GatewayDescriptors.v
TestAccess.v
Handles.v
Restart.v
