(* ===== verification/Prelude.v ===== *)
(** * A verified model of the matching engine

    The repository is a limit-order matching engine in C++ with a durable
    journal and a TCP gateway.  Its parts, from the inside out:

    - the order book ([OrderBook], src/order_book.cpp): two ordered maps from
      prices to FIFO queues, an index from order ids to list iterators, the
      history of ids and two counters;
    - the journal codec (src/journal.cpp): framed, checksummed records;
    - journal storage (src/journal_storage.cpp): files, fsync, scan and repair;
    - the durable engine (src/durable_engine.cpp): writes a command to the
      journal, then applies it to the book; recovers by replay;
    - the wire protocol (src/wire_protocol.cpp): client and server frames and
      the stream parser of a connection;
    - the gateway (src/gateway_types.cpp, src/gateway_server.cpp, src/connection.hpp,
      bounded_queue.hpp) and the exchange server (src/exchange_server.cpp):
      sockets, threads, queues and limits around the engine.

    ** What models what

    - [Prelude]: machine integers, the outcome of a call on a mutable object
      (returned, threw, crashed), tactics and hint databases.
    - [StdMap]: [std::map] with a comparator as a sorted association list.
    - [Types]: types.hpp, order.hpp, trade.hpp and the result types of
      order_book.hpp.
    - [OrderBook]: every member function of [OrderBook] and [OrderBook::Impl].
      The state is the record [Impl] with the source's members.  A node of
      [std::list] has an address, so that the iterators in the locators are
      modelled and a dangling one is undefined behaviour; [next_node] is the
      allocator.  Asserts and [std::terminate] are crashes, every allocation of
      [submit] outside the asserts can throw ([AllocSite]), the cleanup handlers are
      modelled.
      The matching loop has the fuel [match_fuel], the number of orders on the
      side plus one: every iteration but the last removes an order, and
      [match_orders_spec] shows that it is enough.
    - [OrderBookInv]: the representation invariant [Inv] and what it gives.
    - [Matching]: the specification of matching as a [sweep] over the queue of
      live orders, and that the dry run and the loop compute it.
    - [OrderBookOps]: what [insert_resting_order], [submit] and [cancel] do on
      every branch, and that they keep [Inv]; the step relation [book_step] and
      [reachable] books.
    - [OrderBookProps]: the properties of the book (C1, C2, C6, C9, C19, C32, C33,
      C35, C37, C38): functional behaviour of submit and cancel, price-time priority,
      conservation of quantity, limit prices, no crash and termination for every
      input and every allocation failure, agreement of dry run and execution,
      exactness of the index, of the aggregates and of market data, single use
      of ids, consecutive trade ids, what an allocation failure leaves.
    - [ReferenceBook], [Differential]: the oracle of the differential tests
      (tests/reference_order_book.hpp) and the theorem that the book and the
      oracle agree on every trace (C7).
    - [Workload]: benchmarks/workload.hpp and benchmarks/profile_workload.cpp,
      clients of the book that abort when a command is not carried out: they never
      do (C34), and the profiling program prints the numbers that
      docs/performance_baseline.md reports ([profile_output]).
    - [Bytes]: byte sequences, slices and big-endian numbers.
    - [Journal], [JournalProps]: the journal codec; decoding is memory safe,
      accepts exactly the encodings, tells cut frames from damaged ones and
      detects every single-byte corruption (C20, C24).
    - [Posix], [MemoryFs]: the system calls of journal storage as a class over
      an abstract world, their documented behaviour as laws (partial writes,
      interruptions, failures, what a crash can leave), and an in-memory instance
      with scripted faults that satisfies the laws.
    - [JournalStorage]: every function of src/journal_storage.cpp, with the
      fault-injection state of the tests.  Loops that retry on [EINTR] have as
      fuel the bytes still to be moved plus the interruptions that can still
      occur; the scan has the size of the file.  [write_loop_spec],
      [pread_loop_spec] and [scan_loop_spec] show that this is enough.
    - [JournalFile]: which files are journals of which commands, what a scan
      finds in any file, what an incomplete frame is, what is left of a partial append.
    - [JournalStorageProps]: scanning is exact, creation is exclusive and
      durable, reopening and repair keep exactly the complete records, an append
      is durable or fail-stop (C22, C23, C36).
    - [DurableEngine], [DurableEngineProps]: src/durable_engine.cpp.  A healthy
      engine's book is the result of the commands in its journal; recovery
      restores exactly them; through kills, power losses and faults nothing
      acknowledged is lost (C5, C10, C11).  The life of an engine is the step
      relation [sys_step]; [sys_inv] is its invariant.  [JournalDescriptors]: on
      every path of creation and recovery the descriptors that were opened are
      closed, but for the writer's (C31).
    - [Wire], [WireCodec], [WireProps]: the wire codecs.  [WireCodec] proves the
      frame theorems once against the class [MessageCodec], of which the client
      and the server messages are instances; memory safety, round trips, the
      meaning of [TruncatedInput], the correspondence of codes (C25, C26).
    - [WireParser]: [ClientStreamParser] refines a specification of the whole
      stream, whatever the chunks, in bounded memory (C21).  The loops
      have as fuel the number of bytes they can still consume plus one.
    - [Threads]: the code of a thread as a tree of events, its accesses to
      shared objects and its system calls; loops have no fuel, the step relation
      unfolds them.  [WP] is a logic for one thread among others that share an
      invariant, [halts] its counterpart for termination, and [ST] the variant for
      code that ends only when the others have stopped.
    - [BoundedQueue], [GatewayTypes], [Connection]: bounded_queue.hpp (module
      [BQ]), gateway_types.hpp and .cpp (module [Limiter]: the limiter and its
      reservations) and connection.hpp (module [Output]).
    - [Gateway]: every function of src/gateway_server.cpp, over the record [Impl]
      of the members that the gateway thread owns.  The events [SharedE] are what
      the threads share (flags, eventfd, limiter, queues), [GatewayE] adds
      the system calls.
    - [Exchange]: every function of src/exchange_server.cpp; the worker is a
      program over [WorkerE], which also has the points where it can see an
      exception.
    - [Pipeline]: the semantics: what each event does, and [server_step], one
      event of one of the three threads (the gateway, the worker, a thread that
      calls [request_stop]) of a running server.  Each thread's state keeps an
      account of what it did, on which nothing depends; [server_ok] says which
      events are allowed.
    - [PipelineInv]: the invariant [linked] between the threads, and that every
      access keeps it.  [WorkerLoop]: the worker's loop, and what it has answered
      and made durable at each moment.  [GatewayInv], [GatewayMoves],
      [GatewayLoop]: the gateway's members against what was received from and
      sent to each client, for every function of the gateway.  [ExchangeInv]:
      both together for a running server.  [ExchangeStart]: [create], and
      [launched] servers.  [WorkerTermination]: the worker returns.
      [GatewayTermination]: then the gateway finishes its turn, empties the response
      queue and returns.
      [Scenario]: a deterministic environment and scheduler that computes
      executions of a server.
    - [ExchangeProps]: the properties of the server (C3, C4, C8, C12, C14-C16,
      C27, C28): refinement of a sequential exchange, safety of every interleaving,
      order of responses per connection, no lost wakeup, graceful shutdown,
      termination of the worker and of [run], error paths of the start, bounded resources.
      They assume [histogram_fits] (no batch is larger than the request queue, whose
      capacity plus one does not wrap around), which the code does not check
      (C39, [histogram_overflow], is a run that needs it), and where they say
      so that no exception hits while a batch is collected (C40, [request_dropped]).
    - [GatewayProgress]: all connections are served on one thread; draining and
      the service of the ready clients return, whatever the clients send and the
      worker does in the meantime (C17), because the requests that are admitted and
      not yet drained are bounded and a parser keeps a bounded number of bytes.
    - [ResponseTyping]: what was admitted is in the ranges of its types, and
      every published response has an encoding that decodes to it (C18).
    - [GatewayDescriptors]: from [create] over [run] to the destructor, the sockets
      that are open are exactly those of the members (C29).
    - [TestAccess]: the four *_test_access.hpp headers: hooks, the flags that let
      the threads skip them, fault injection and observers; the statistics that
      the observers show are exact (C30).
    - [Handles]: the classes that own and can be moved, [FileDescriptor],
      [GatewayServer] and [ExchangeServer]; every descriptor has one owner.
    - [Restart]: the life of a machine on which servers run, crash and are
      started again on the same journal: what clients were told stays true (C13).

    ** What is not modelled

    Allocation failures outside [OrderBook::submit], the preparation of a batch
    and the application and replay of commands, and those of the hash set in
    [invariants_hold], which [submit] and [cancel] evaluate in an [assert] of debug
    builds; the reservation of capacity;
    the hash functions: they have no effect on values.  Sizes of byte sequences
    are [nat].  Of the threads: the C++ memory model (an access is one step and
    steps interleave, which the mutexes and the acquire and release orders of
    the flags justify for this code), how a condition variable wakes a waiter
    ([wait_pop] returns when its predicate holds), fairness of the scheduler,
    allocation failures on the gateway thread, and that the gateway gets to see a
    request to stop: it need not, as long as clients keep connecting, since
    [accept_connections] ends only when no client is waiting, and [drain_wakeup]
    only when nobody has written to the eventfd.  A test hook
    is only whether it throws; what else it does is not modelled, and the one of
    the gateway thread is taken to return.  The gateway's response hook is modelled, but the theorems are
    about servers that [ExchangeServer::create] makes, which have none.
    Of the benchmarks, the drivers for Google Benchmark and the TCP load
    generator (order_book_benchmark.cpp, durable_engine_benchmark.cpp,
    network_exchange_benchmark.cpp) are not modelled: what they produce are
    timings. *)
From stdpp Require Export base list sorting sets gmap fin_maps.
From Stdlib Require Export ZArith Lia.

(** ** Machine integers

    A [w]-bit unsigned integer is a [Z] between 0 and [2^w]; the operations
    that can wrap around write the reduction out.  The moduli are notations
    for numerals so that [lia] sees them. *)
Open Scope Z_scope.

Abbreviation U8_MOD := 256.
Abbreviation U16_MOD := 65536.
Abbreviation U32_MOD := 4294967296.
Abbreviation U64_MOD := 18446744073709551616.
Abbreviation U64_MAX := 18446744073709551615.

Declare Scope u64_scope.
Delimit Scope u64_scope with u64.

(** [a + b] and [a - b] on [std::uint64_t] (and on the 64-bit
    [std::size_t]). *)
Definition add64 (a b : Z) : Z := (a + b) mod U64_MOD.
Definition sub64 (a b : Z) : Z := (a - b) mod U64_MOD.

Infix "+" := add64 : u64_scope.
Infix "-" := sub64 : u64_scope.

Definition is_u8 (z : Z) : Prop := 0 <= z < U8_MOD.
Definition is_u16 (z : Z) : Prop := 0 <= z < U16_MOD.
Definition is_u32 (z : Z) : Prop := 0 <= z < U32_MOD.
Definition is_u64 (z : Z) : Prop := 0 <= z < U64_MOD.

#[export] Instance is_u8_dec z : Decision (is_u8 z).
Proof. unfold is_u8. apply _. Defined.
#[export] Instance is_u16_dec z : Decision (is_u16 z).
Proof. unfold is_u16. apply _. Defined.
#[export] Instance is_u64_dec z : Decision (is_u64 z).
Proof. unfold is_u64. apply _. Defined.

Lemma add64_small a b : 0 <= a + b < U64_MOD -> add64 a b = a + b.
Proof. intros. unfold add64. apply Z.mod_small. lia. Qed.

Lemma sub64_small a b : 0 <= a - b < U64_MOD -> sub64 a b = a - b.
Proof. intros. unfold sub64. apply Z.mod_small. lia. Qed.

Lemma add64_range a b : is_u64 (add64 a b).
Proof. unfold is_u64, add64. apply Z.mod_pos_bound. lia. Qed.

Lemma add64_0 a : is_u64 a -> add64 a 0 = a.
Proof. intros. unfold is_u64 in *. rewrite add64_small; lia. Qed.

Lemma add64_assoc a b c : add64 (add64 a b) c = add64 a (b + c).
Proof. unfold add64. rewrite Z.add_mod_idemp_l by lia. f_equal. lia. Qed.

(** Incrementing a counter either adds one or wraps to zero. *)
Lemma add64_succ a :
  is_u64 a -> add64 a 1 = if a =? U64_MAX then 0 else a + 1.
Proof.
  intros Ha. unfold is_u64 in Ha. destruct (Z.eqb_spec a U64_MAX) as [->|Hne].
  - reflexivity.
  - apply add64_small. lia.
Qed.

(** ** Outcomes of effectful code

    A call on a mutable object of type [S] either returns a value with the
    updated object, throws (leaving the object as it is at that point), or
    does not come back: [std::terminate] or a failed [assert], undefined
    behaviour (a dangling or past-the-end iterator is dereferenced), or a loop
    that used up the fuel of the model. *)
Inductive crash := Terminate | UndefinedBehaviour | OutOfFuel.

Inductive outcome (S A : Type) : Type :=
| Returned (s : S) (a : A)
| Threw (s : S)
| Crashed (c : crash).
Arguments Returned {S A} s a.
Arguments Threw {S A} s.
Arguments Crashed {S A} c.

Definition obind {S A B} (m : outcome S A) (k : S -> A -> outcome S B) : outcome S B :=
  match m with
  | Returned s a => k s a
  | Threw s => Threw s
  | Crashed c => Crashed c
  end.

(** [try { m } catch (...) { cleanup; throw; }]. *)
Definition rethrow_after {S A} (m : outcome S A) (cleanup : S -> S) : outcome S A :=
  match m with
  | Threw s => Threw (cleanup s)
  | _ => m
  end.

(** [assert(cond)]: a failed assertion aborts the process. *)
Definition assert_that {S A} (cond : bool) (k : outcome S A) : outcome S A :=
  if cond then k else Crashed Terminate.

Declare Scope outcome_scope.
Delimit Scope outcome_scope with outcome.
Notation "'let!' ( s , x ) := m 'in' k" := (obind m (fun s x => k))
  (at level 10, s name, x name, m at level 100, k at level 200) : outcome_scope.
Open Scope outcome_scope.

(** The object an outcome leaves behind, when the program goes on. *)
Definition final_state {S A} (m : outcome S A) : option S :=
  match m with
  | Returned s _ | Threw s => Some s
  | Crashed _ => None
  end.

(** ** Tactics and hint databases *)
Create HintDb u64.
#[export] Hint Unfold is_u8 is_u16 is_u32 is_u64 : u64.

Ltac u64 := unfold is_u8, is_u16, is_u32, is_u64 in *; lia.

(** Turn boolean tests on [Z] and on [bool] connectives into propositions. *)
Ltac reflect :=
  repeat match goal with
  | H : _ && _ = true |- _ => apply andb_true_iff in H; destruct H
  | H : _ || _ = false |- _ => apply orb_false_iff in H; destruct H
  | H : negb _ = true |- _ => apply negb_true_iff in H
  | H : negb _ = false |- _ => apply negb_false_iff in H
  | H : (_ =? _) = true |- _ => apply Z.eqb_eq in H
  | H : (_ =? _) = false |- _ => apply Z.eqb_neq in H
  | H : (_ <? _) = true |- _ => apply Z.ltb_lt in H
  | H : (_ <? _) = false |- _ => apply Z.ltb_ge in H
  | H : (_ <=? _) = true |- _ => apply Z.leb_le in H
  | H : (_ <=? _) = false |- _ => apply Z.leb_gt in H
  | H : bool_decide _ = true |- _ => apply bool_decide_eq_true in H
  | H : bool_decide _ = false |- _ => apply bool_decide_eq_false in H
  end.

(** Case analysis on the first test of the goal. *)
Ltac case_test :=
  match goal with
  | |- context [if ?c then _ else _] => destruct c eqn:?; reflect
  end.

(** Prove a closed decidable proposition by evaluation. *)
Ltac decide_now := apply (bool_decide_unpack _); vm_compute; exact I.

(** ** Lists *)

(** Distinct positive numbers below a limit: there are fewer than the limit. *)
Lemma NoDup_bounded_length (l : list Z) (k : Z) :
  NoDup l -> Forall (fun x => 0 < x < k) l -> 0 < k -> Z.of_nat (length l) < k.
Proof.
  intros Hnd Hb Hk.
  assert (l ⊆+ seqZ 1 (k - 1)) as Hs%submseteq_length.
  { apply NoDup_submseteq; [done|]. intros x Hx. apply elem_of_seqZ.
    eapply Forall_forall in Hb; [|done]. lia. }
  rewrite length_seqZ in Hs. lia.
Qed.

Lemma filter_none {A} (P : A -> Prop) `{!forall x, Decision (P x)} (l : list A) :
  Forall (fun x => ~ P x) l -> filter P l = [].
Proof. induction 1; [done|]. by rewrite filter_cons_False. Qed.

Lemma filter_all {A} (P : A -> Prop) `{!forall x, Decision (P x)} (l : list A) :
  Forall P l -> filter P l = l.
Proof. induction 1; [done|]. rewrite filter_cons_True by done. by f_equal. Qed.

(** ** Prefixes, sublists and filters *)

Lemma filter_prefix {A} (P : A -> Prop) `{!forall x, Decision (P x)} (l l' : list A) :
  l `prefix_of` l' -> filter P l `prefix_of` filter P l'.
Proof. intros [k ->]. rewrite filter_app. by apply prefix_app_r. Qed.

Lemma prefix_sublist {A} (l l' : list A) : l `prefix_of` l' -> sublist l l'.
Proof. intros [k ->]. by apply sublist_inserts_r. Qed.

Lemma filter_sublist {A} (P : A -> Prop) `{!forall x, Decision (P x)} (l l' : list A) :
  sublist l l' -> sublist (filter P l) (filter P l').
Proof.
  induction 1 as [|x l l' _ IH|x l l' _ IH]; [done|rewrite !filter_cons..];
    destruct (decide (P x)); auto using sublist_skip, sublist_cons.
Qed.
