(* ===== verification/StdMap.v ===== *)
(** * Ordered associative containers

    [std::map<Key, T, Compare>] with an integer key, as the list of its entries
    in iteration order.  [comp] is the comparator; the classes below state what
    the standard requires of it, and [std::less] and [std::greater] are the two
    instances the program uses.  Two keys are equivalent for such a comparator
    exactly when they are equal. *)
From S2P Require Import Prelude.

(** What an ordered container requires of its comparator. *)
Class StrictComp (comp : Z -> Z -> bool) : Prop := {
  comp_irrefl k : comp k k = false;
  comp_trans a b c : comp a b = true -> comp b c = true -> comp a c = true;
  comp_total a b : comp a b = false -> comp b a = false -> a = b;
}.

Definition std_less (a b : Z) : bool := a <? b.
Definition std_greater (a b : Z) : bool := b <? a.

#[export] Instance std_less_strict : StrictComp std_less.
Proof. split; unfold std_less; intros; reflect; try apply Z.ltb_lt; try apply Z.ltb_ge; lia. Qed.

#[export] Instance std_greater_strict : StrictComp std_greater.
Proof. split; unfold std_greater; intros; reflect; try apply Z.ltb_lt; try apply Z.ltb_ge; lia. Qed.

Section operations.
  Context {V : Type}.
  Implicit Types (m : list (Z * V)) (k : Z) (v : V).

(** [m.find(k)], with [None] for [m.end()]. *)
Fixpoint map_find k m : option V :=
  match m with
  | [] => None
  | (k', v) :: m' => if k =? k' then Some v else map_find k m'
  end.

(** [m.try_emplace(k, v)]: the map and whether a node was inserted. *)
Fixpoint map_try_emplace (comp : Z -> Z -> bool) k v m : list (Z * V) * bool :=
  match m with
  | [] => ([(k, v)], true)
  | (k', v') :: m' =>
      if comp k k' then ((k, v) :: m, true)
      else if comp k' k then
        let '(m'', inserted) := map_try_emplace comp k v m' in ((k', v') :: m'', inserted)
      else (m, false)
  end.

(** [m.find(k)->second = f(m.find(k)->second)]. *)
Fixpoint map_update k (f : V -> V) m : list (Z * V) :=
  match m with
  | [] => []
  | (k', v) :: m' => if k =? k' then (k', f v) :: m' else (k', v) :: map_update k f m'
  end.

(** [m.erase(m.find(k))]. *)
Fixpoint map_erase k m : list (Z * V) :=
  match m with
  | [] => []
  | (k', v) :: m' => if k =? k' then m' else (k', v) :: map_erase k m'
  end.

Definition keys m : list Z := m.*1.

(** The container invariant: the keys are in strict iteration order. *)
Definition map_sorted (comp : Z -> Z -> bool) m : Prop :=
  StronglySorted (fun a b => comp a b = true) (keys m).

End operations.

Section lemmas.
  Context {V : Type} {comp : Z -> Z -> bool} {Hcomp : StrictComp comp}.
  Implicit Types (m : list (Z * V)) (k : Z) (v : V).

Lemma keys_app m1 m2 : keys (m1 ++ m2) = keys m1 ++ keys m2.
Proof. apply fmap_app. Qed.

Lemma map_find_Some_split k v m :
  map_find k m = Some v ->
  exists m1 m2, m = m1 ++ (k, v) :: m2 /\ k ∉ keys m1.
Proof.
  induction m as [|[k' v'] m IH]; simpl; [done|].
  destruct (Z.eqb_spec k k') as [->|Hne].
  - intros [= ->]. exists [], m. split; [done|]. apply not_elem_of_nil.
  - intros (m1 & m2 & -> & Hk)%IH. exists ((k', v') :: m1), m2.
    split; [done|]. simpl. apply not_elem_of_cons. done.
Qed.

Lemma map_find_None k m : map_find k m = None <-> k ∉ keys m.
Proof.
  induction m as [|[k' v'] m IH]; simpl.
  - split; [intros _; apply not_elem_of_nil|done].
  - rewrite not_elem_of_cons. destruct (Z.eqb_spec k k'); [naive_solver|]. rewrite IH. naive_solver.
Qed.

Lemma map_find_split k v m1 m2 :
  k ∉ keys m1 -> map_find k (m1 ++ (k, v) :: m2) = Some v.
Proof.
  induction m1 as [|[k' v'] m1 IH]; simpl; intros Hk.
  - by rewrite Z.eqb_refl.
  - apply not_elem_of_cons in Hk as [Hne Hk].
    destruct (Z.eqb_spec k k'); [done|]. auto.
Qed.

Lemma map_update_split k f v m1 m2 :
  k ∉ keys m1 -> map_update k f (m1 ++ (k, v) :: m2) = m1 ++ (k, f v) :: m2.
Proof.
  induction m1 as [|[k' v'] m1 IH]; simpl; intros Hk.
  - by rewrite Z.eqb_refl.
  - apply not_elem_of_cons in Hk as [Hne Hk].
    destruct (Z.eqb_spec k k'); [done|]. by rewrite IH.
Qed.

Lemma map_erase_split k v m1 m2 :
  k ∉ keys m1 -> map_erase k (m1 ++ (k, v) :: m2) = m1 ++ m2.
Proof.
  induction m1 as [|[k' v'] m1 IH]; simpl; intros Hk.
  - by rewrite Z.eqb_refl.
  - apply not_elem_of_cons in Hk as [Hne Hk].
    destruct (Z.eqb_spec k k'); [done|]. by rewrite IH.
Qed.

Lemma map_sorted_split k v m1 m2 :
  map_sorted comp (m1 ++ (k, v) :: m2) <->
  Forall (fun a => comp a k = true) (keys m1) /\
  Forall (fun b => comp k b = true) (keys m2) /\
  map_sorted comp (m1 ++ m2).
Proof.
  unfold map_sorted. rewrite !keys_app. simpl.
  rewrite !StronglySorted_app, StronglySorted_cons, !Forall_forall.
  split.
  - intros (H1 & H2 & H3 & H4). repeat split; auto; intros; apply H1; auto; set_solver.
  - intros (H1 & H2 & H3 & H4 & H5). repeat split; auto.
    intros x1 x2 Hx1 [->|Hx2]%elem_of_cons; auto.
Qed.

Lemma comp_Forall_not_elem k l :
  Forall (fun a => comp a k = true) l \/ Forall (fun b => comp k b = true) l -> k ∉ l.
Proof.
  intros [H|H] Hin; eapply Forall_forall in H; [|done| |done];
    rewrite comp_irrefl in H; done.
Qed.

Lemma map_sorted_keys_fresh k v m1 m2 :
  map_sorted comp (m1 ++ (k, v) :: m2) -> k ∉ keys m1 /\ k ∉ keys m2.
Proof.
  intros (H1 & H2 & _)%map_sorted_split.
  split; apply comp_Forall_not_elem; auto.
Qed.

(** [try_emplace] either finds the key or inserts it at its place. *)
Lemma map_try_emplace_spec k v m :
  map_sorted comp m ->
  (exists v', map_find k m = Some v' /\ map_try_emplace comp k v m = (m, false)) \/
  (exists m1 m2, m = m1 ++ m2 /\ k ∉ keys m /\
     map_try_emplace comp k v m = (m1 ++ (k, v) :: m2, true) /\
     map_sorted comp (m1 ++ (k, v) :: m2)).
Proof.
  induction m as [|[k' v'] m IH]; intros Hs.
  - right. exists [], []. split; [done|]. split; [apply not_elem_of_nil|].
    split; [done|]. apply map_sorted_split. repeat constructor.
  - apply StronglySorted_cons in Hs as [Hk' Hs]. simpl.
    destruct (comp k k') eqn:E1.
    { right. exists [], ((k', v') :: m).
      assert (Forall (fun b => comp k b = true) (keys ((k', v') :: m))) as Hlt.
      { constructor; [done|]. eapply Forall_impl; [exact Hk'|]. eauto using comp_trans. }
      split; [done|]. split; [apply comp_Forall_not_elem; auto|].
      split; [done|]. by apply StronglySorted_cons; split; [|apply StronglySorted_cons]. }
    destruct (comp k' k) eqn:E2.
    + assert (k <> k') as Hne by (intros ->; rewrite comp_irrefl in E2; done).
      destruct (IH Hs) as [(w & Hf & He)|(m1 & m2 & -> & Hf & He & Hs')]; rewrite He.
      * left. exists w. destruct (Z.eqb_spec k k'); done.
      * right. exists ((k', v') :: m1), m2. split; [done|].
        split; [by apply not_elem_of_cons|]. split; [done|].
        apply StronglySorted_cons. split; [|done].
        simpl. change ((m1 ++ (k, v) :: m2).*1) with (keys (m1 ++ (k, v) :: m2)).
        change ((m1 ++ m2).*1) with (keys (m1 ++ m2)) in Hk'.
        rewrite keys_app in *. apply Forall_app in Hk' as [? ?].
        apply Forall_app. split; [done|]. constructor; done.
    + pose proof (comp_total _ _ E1 E2) as <-. left. exists v'. by rewrite Z.eqb_refl.
Qed.

Lemma map_sorted_replace k v v' m1 m2 :
  map_sorted comp (m1 ++ (k, v) :: m2) -> map_sorted comp (m1 ++ (k, v') :: m2).
Proof. by rewrite !map_sorted_split. Qed.

Lemma map_sorted_remove k v m1 m2 :
  map_sorted comp (m1 ++ (k, v) :: m2) -> map_sorted comp (m1 ++ m2).
Proof. rewrite map_sorted_split. naive_solver. Qed.

(** The first entry comes before every other one. *)
Lemma map_sorted_head k v m k' v' :
  map_sorted comp ((k, v) :: m) -> (k', v') ∈ m -> comp k k' = true.
Proof.
  intros [H _]%StronglySorted_cons Hin. eapply Forall_forall in H; [done|].
  by apply (list_elem_of_fmap_2 fst) in Hin.
Qed.

End lemmas.
