(* ===== verification/Types.v ===== *)
(** * Domain types

    include/matching/types.hpp, order.hpp, trade.hpp and the result types of
    order_book.hpp.  The strong types [OrderId], [TradeId], [Price] and
    [Quantity] each wrap one [std::uint64_t]; they are abbreviations of [Z].
    [Side] has the fixed underlying type [std::uint8_t], so a [Side] object can
    hold any octet, and the journal and the gateway produce such values with
    [static_cast]: it is modelled by that octet, with the two enumerators as
    constants.  The other enumerations are only ever written with one of their
    enumerators and are inductive types. *)
From S2P Require Import Prelude.

Abbreviation OrderId := Z (only parsing).
Abbreviation TradeId := Z (only parsing).
Abbreviation Price := Z (only parsing).
Abbreviation Quantity := Z (only parsing).
Abbreviation Side := Z (only parsing).

Definition Buy : Side := 0.
Definition Sell : Side := 1.

Record NewLimitOrder := mkNewLimitOrder {
  nlo_id : OrderId;
  nlo_side : Side;
  nlo_limit_price : Price;
  nlo_quantity : Quantity;
}.

Record OrderView := mkOrderView {
  ov_id : OrderId;
  ov_side : Side;
  ov_limit_price : Price;
  ov_original_quantity : Quantity;
  ov_remaining_quantity : Quantity;
}.

Record Trade := mkTrade {
  trade_id : TradeId;
  maker_order_id : OrderId;
  taker_order_id : OrderId;
  execution_price : Price;
  execution_quantity : Quantity;
}.

Inductive SubmissionStatus := Accepted | Rejected.

Inductive RejectionReason :=
| InvalidOrderId
| InvalidSide
| InvalidPrice
| InvalidQuantity
| DuplicateOrderId
| QuantityOverflow
| SequenceExhausted
| TradeIdExhausted.

Record SubmitResult := mkSubmitResult {
  sr_status : SubmissionStatus;
  sr_rejection_reason : option RejectionReason;
  sr_executed_quantity : Quantity;
  sr_resting_quantity : Quantity;
  sr_trades : list Trade;
}.

Definition accepted (r : SubmitResult) : bool :=
  match sr_status r with Accepted => true | Rejected => false end.

Inductive CancelStatus := Cancelled | NotFound.

Record CancelResult := mkCancelResult {
  cr_status : CancelStatus;
  cr_cancelled_quantity : Quantity;
}.

Record Quote := mkQuote {
  quote_price : Price;
  quote_quantity : Quantity;
}.

Record PriceLevelView := mkPriceLevelView {
  plv_price : Price;
  plv_total_quantity : Quantity;
  plv_order_count : Z;
}.

(** The values a C++ object of these types can hold. *)
Definition wf_order (o : NewLimitOrder) : Prop :=
  is_u64 (nlo_id o) /\ is_u8 (nlo_side o) /\
  is_u64 (nlo_limit_price o) /\ is_u64 (nlo_quantity o).

#[export] Instance SubmissionStatus_eq_dec : EqDecision SubmissionStatus.
Proof. solve_decision. Defined.
#[export] Instance RejectionReason_eq_dec : EqDecision RejectionReason.
Proof. solve_decision. Defined.
#[export] Instance CancelStatus_eq_dec : EqDecision CancelStatus.
Proof. solve_decision. Defined.
#[export] Instance NewLimitOrder_eq_dec : EqDecision NewLimitOrder.
Proof. solve_decision. Defined.
#[export] Instance Trade_eq_dec : EqDecision Trade.
Proof. solve_decision. Defined.
#[export] Instance wf_order_dec o : Decision (wf_order o).
Proof. unfold wf_order, is_u64, is_u8. apply _. Defined.
