(* ===== verification/OrderBook.v ===== *)
(** * The order book (definitions)

    src/order_book.cpp: [OrderBook::Impl] and the public [OrderBook]
    operations.  A [std::list] node has an identity, its address, so that the
    iterators kept in the order locators can be modelled: an iterator is the
    address of a node, dereferencing it looks the node up among the live ones,
    and an address with no live node is undefined behaviour.  [next_node] is
    the allocator: it hands out addresses no live node has. *)
From S2P Require Import Prelude StdMap Types.

Definition is_valid_side (side : Side) : bool := (side =? Buy) || (side =? Sell).

Definition would_overflow (current addition : Quantity) : bool :=
  (U64_MAX - addition)%u64 <? current.

Definition rejected (reason : RejectionReason) : SubmitResult :=
  {| sr_status := Rejected;
     sr_rejection_reason := Some reason;
     sr_executed_quantity := 0;
     sr_resting_quantity := 0;
     sr_trades := [] |}.

Record RestingOrder := mkRestingOrder {
  ro_id : OrderId;
  ro_side : Side;
  ro_limit_price : Price;
  ro_original_quantity : Quantity;
  ro_remaining_quantity : Quantity;
  ro_arrival_sequence : Z;
}.

(** A node of [std::list<RestingOrder>] with its address. *)
Record ListNode := mkListNode {
  node_addr : Z;
  node_order : RestingOrder;
}.

Record PriceLevel := mkPriceLevel {
  orders : list ListNode;
  total_quantity : Quantity;
}.

(** The default member initialisers: [PriceLevel{}]. *)
Definition empty_level : PriceLevel := {| orders := []; total_quantity := 0 |}.

Abbreviation Levels := (list (Z * PriceLevel)) (only parsing).

(** [order] is a [std::list<RestingOrder>::iterator]. *)
Record OrderLocator := mkOrderLocator {
  loc_side : Side;
  loc_price : Price;
  loc_order : Z;
}.

Record MatchPlan := mkMatchPlan {
  mp_remaining_quantity : Quantity;
  mp_trade_count : Z;
}.

Record Impl := mkImpl {
  bids : list (Z * PriceLevel);
  asks : list (Z * PriceLevel);
  active_orders : gmap Z OrderLocator;
  seen_order_ids : gset Z;
  next_arrival_sequence : Z;
  next_trade_id : Z;
  next_node : Z;
}.

(** The function templates over [Levels] take a reference to one of the two
    members: the reference, its target and the comparator of its type. *)
Inductive LevelsRef := BidLevels | AskLevels.

Definition get_levels (ref : LevelsRef) (b : Impl) : list (Z * PriceLevel) :=
  match ref with BidLevels => bids b | AskLevels => asks b end.

Definition set_levels (ref : LevelsRef) (lv : list (Z * PriceLevel)) (b : Impl) : Impl :=
  match ref with
  | BidLevels => mkImpl lv (asks b) (active_orders b) (seen_order_ids b)
                   (next_arrival_sequence b) (next_trade_id b) (next_node b)
  | AskLevels => mkImpl (bids b) lv (active_orders b) (seen_order_ids b)
                   (next_arrival_sequence b) (next_trade_id b) (next_node b)
  end.

Definition key_comp (ref : LevelsRef) : Z -> Z -> bool :=
  match ref with BidLevels => std_greater | AskLevels => std_less end.

Definition set_active (m : gmap Z OrderLocator) (b : Impl) : Impl :=
  mkImpl (bids b) (asks b) m (seen_order_ids b)
    (next_arrival_sequence b) (next_trade_id b) (next_node b).
Definition set_seen (s : gset Z) (b : Impl) : Impl :=
  mkImpl (bids b) (asks b) (active_orders b) s
    (next_arrival_sequence b) (next_trade_id b) (next_node b).
Definition set_next_arrival_sequence (n : Z) (b : Impl) : Impl :=
  mkImpl (bids b) (asks b) (active_orders b) (seen_order_ids b)
    n (next_trade_id b) (next_node b).
Definition set_next_trade_id (n : Z) (b : Impl) : Impl :=
  mkImpl (bids b) (asks b) (active_orders b) (seen_order_ids b)
    (next_arrival_sequence b) n (next_node b).
Definition set_next_node (n : Z) (b : Impl) : Impl :=
  mkImpl (bids b) (asks b) (active_orders b) (seen_order_ids b)
    (next_arrival_sequence b) (next_trade_id b) n.

(** The live nodes of a container of levels, in iteration order. *)
Definition level_nodes (lv : list (Z * PriceLevel)) : list ListNode :=
  lv ≫= fun pl => orders (pl.2).
Definition nodes (b : Impl) : list ListNode := level_nodes (bids b) ++ level_nodes (asks b).

(** [*it]. *)
Definition deref (b : Impl) (it : Z) : option RestingOrder :=
  node_order <$> List.find (fun n => node_addr n =? it) (nodes b).

(** [list.erase(it)]: [None] when [it] is not an iterator into this list. *)
Fixpoint list_erase (it : Z) (l : list ListNode) : option (list ListNode) :=
  match l with
  | [] => None
  | n :: l' => if node_addr n =? it then Some l' else cons n <$> list_erase it l'
  end.

(** The points of [submit] at which an allocation can throw
    [std::bad_alloc].  Whether a container really allocates at such a point (a
    level that exists needs no node, reserved storage may suffice) is left
    open: the failure is allowed in every case.  The hash set that
    [invariants_hold] fills inside an [assert] is not among them: that code is
    there to be shown to return true, and release builds do not have it. *)
Inductive AllocSite :=
| ReserveTrades
| InsertSeenId
| EmplaceLevel
| PushBackOrder
| EmplaceActive.

#[export] Instance AllocSite_eq_dec : EqDecision AllocSite.
Proof. solve_decision. Defined.

(** Which allocation of the call fails, if any. *)
Definition alloc_throws (fault : option AllocSite) (site : AllocSite) : bool :=
  bool_decide (fault = Some site).

Definition level_push_back (n : ListNode) (l : PriceLevel) : PriceLevel :=
  {| orders := orders l ++ [n]; total_quantity := total_quantity l |}.
Definition level_pop_back (l : PriceLevel) : PriceLevel :=
  {| orders := take (length (orders l) - 1) (orders l); total_quantity := total_quantity l |}.
Definition level_add_total (q : Quantity) (l : PriceLevel) : PriceLevel :=
  {| orders := orders l; total_quantity := (total_quantity l + q)%u64 |}.

Definition insert_resting_order (fault : option AllocSite) (ref : LevelsRef)
    (incoming : NewLimitOrder) (resting_quantity : Quantity) (arrival_sequence : Z)
    (b : Impl) : outcome Impl unit :=
  let price := nlo_limit_price incoming in
  if alloc_throws fault EmplaceLevel then Threw b else
  let '(levels1, inserted_level) :=
    map_try_emplace (key_comp ref) price empty_level (get_levels ref b) in
  let b1 := set_levels ref levels1 b in
  let erase_if_inserted (s : Impl) :=
    if inserted_level then set_levels ref (map_erase price (get_levels ref s)) s else s in
  let resting_order :=
    {| node_addr := next_node b1;
       node_order :=
         {| ro_id := nlo_id incoming;
            ro_side := nlo_side incoming;
            ro_limit_price := nlo_limit_price incoming;
            ro_original_quantity := nlo_quantity incoming;
            ro_remaining_quantity := resting_quantity;
            ro_arrival_sequence := arrival_sequence |} |} in
  let! (b2, _u) :=
    rethrow_after
      (if alloc_throws fault PushBackOrder then Threw b1
       else Returned
              (set_next_node (next_node b1 + 1)
                 (set_levels ref
                    (map_update price (level_push_back resting_order) (get_levels ref b1)) b1)) tt)
      erase_if_inserted in
  let! (b3, _u) :=
    rethrow_after
      (if alloc_throws fault EmplaceActive then Threw b2
       else
         let locator := {| loc_side := nlo_side incoming;
                           loc_price := nlo_limit_price incoming;
                           loc_order := node_addr resting_order |} in
         (* [emplace] keeps an existing entry *)
         Returned (match active_orders b2 !! nlo_id incoming with
                   | Some _ => b2
                   | None => set_active (<[nlo_id incoming := locator]> (active_orders b2)) b2
                   end) tt)
      (fun s =>
         erase_if_inserted
           (set_levels ref (map_update price level_pop_back (get_levels ref s)) s)) in
  Returned
    (set_levels ref
       (map_update price (level_add_total resting_quantity) (get_levels ref b3)) b3) tt.

(** The inner loop of [preview_match] over the orders of one level; the flag
    tells that the trade-count guard returned from the function. *)
Fixpoint preview_level (l : list ListNode) (remaining_quantity trade_count : Z)
  : Z * Z * bool :=
  match l with
  | [] => (remaining_quantity, trade_count, false)
  | maker :: l' =>
      if trade_count =? U64_MAX then (remaining_quantity, trade_count, true) else
      let executed_quantity :=
        Z.min remaining_quantity (ro_remaining_quantity (node_order maker)) in
      let remaining_quantity := (remaining_quantity - executed_quantity)%u64 in
      let trade_count := (trade_count + 1)%u64 in
      if remaining_quantity =? 0 then (remaining_quantity, trade_count, false)
      else preview_level l' remaining_quantity trade_count
  end.

Fixpoint preview_levels (levels : list (Z * PriceLevel)) (incoming_price : Price)
    (remaining_quantity trade_count : Z) (price_crosses : Price -> Price -> bool) : MatchPlan :=
  match levels with
  | [] => mkMatchPlan remaining_quantity trade_count
  | (price, level) :: levels' =>
      if (0 <? remaining_quantity) && price_crosses price incoming_price then
        let '(remaining_quantity, trade_count, returned) :=
          preview_level (orders level) remaining_quantity trade_count in
        if returned then mkMatchPlan remaining_quantity trade_count
        else preview_levels levels' incoming_price remaining_quantity trade_count price_crosses
      else mkMatchPlan remaining_quantity trade_count
  end.

Definition preview_match (levels : list (Z * PriceLevel)) (incoming_price : Price)
    (incoming_quantity : Quantity) (price_crosses : Price -> Price -> bool) : MatchPlan :=
  preview_levels levels incoming_price incoming_quantity 0 price_crosses.

(** The loop of [can_issue_trade_ids], counting [trade_count] iterations. *)
Fixpoint issue_trade_ids_loop (iterations : nat) (prospective_trade_id : Z) : bool :=
  match iterations with
  | O => true
  | S iterations' =>
      if prospective_trade_id =? 0 then false
      else issue_trade_ids_loop iterations' (prospective_trade_id + 1)%u64
  end.

Definition can_issue_trade_ids (b : Impl) (trade_count : Z) : bool :=
  issue_trade_ids_loop (Z.to_nat trade_count) (next_trade_id b).

Definition with_remaining (o : RestingOrder) (q : Quantity) : RestingOrder :=
  {| ro_id := ro_id o; ro_side := ro_side o; ro_limit_price := ro_limit_price o;
     ro_original_quantity := ro_original_quantity o; ro_remaining_quantity := q;
     ro_arrival_sequence := ro_arrival_sequence o |}.

(** One iteration of the [while] loop of [match], run with a non-empty
    container; the result is the remaining quantity and the trades so far. *)
Definition match_body (ref : LevelsRef) (incoming : NewLimitOrder)
    (remaining_quantity : Quantity) (trades : list Trade) (b : Impl)
  : outcome Impl (Quantity * list Trade) :=
  match get_levels ref b with
  | [] => Crashed UndefinedBehaviour
  | (price, level) :: levels' =>
    match orders level with
    | [] => Crashed UndefinedBehaviour
    | maker_node :: others =>
      let maker := node_order maker_node in
      let executed_quantity := Z.min remaining_quantity (ro_remaining_quantity maker) in
      if (executed_quantity =? 0) || (total_quantity level <? executed_quantity)
         || (next_trade_id b =? 0)
      then Crashed Terminate
      else
        let trades :=
          trades ++ [{| trade_id := next_trade_id b;
                        maker_order_id := ro_id maker;
                        taker_order_id := nlo_id incoming;
                        execution_price := ro_limit_price maker;
                        execution_quantity := executed_quantity |}] in
        let b1 := set_next_trade_id (next_trade_id b + 1)%u64 b in
        let remaining_quantity := (remaining_quantity - executed_quantity)%u64 in
        let maker_remaining := (ro_remaining_quantity maker - executed_quantity)%u64 in
        let total := (total_quantity level - executed_quantity)%u64 in
        if maker_remaining =? 0 then
          match active_orders b1 !! ro_id maker with
          | None => Crashed Terminate
          | Some _ =>
            let b2 := set_active (delete (ro_id maker) (active_orders b1)) b1 in
            let levels'' :=
              match others with
              | [] => levels'
              | _ => (price, mkPriceLevel others total) :: levels'
              end in
            Returned (set_levels ref levels'' b2) (remaining_quantity, trades)
          end
        else
          let maker_node' := mkListNode (node_addr maker_node)
                               (with_remaining maker maker_remaining) in
          Returned
            (set_levels ref ((price, mkPriceLevel (maker_node' :: others) total) :: levels') b1)
            (remaining_quantity, trades)
    end
  end.

(** The loop condition of [match]. *)
Definition match_guard (ref : LevelsRef) (incoming : NewLimitOrder)
    (price_crosses : Price -> Price -> bool) (remaining_quantity : Quantity) (b : Impl) : bool :=
  match get_levels ref b with
  | [] => false
  | (price, _) :: _ =>
      (0 <? remaining_quantity) && price_crosses price (nlo_limit_price incoming)
  end.

Fixpoint match_loop (fuel : nat) (ref : LevelsRef) (incoming : NewLimitOrder)
    (price_crosses : Price -> Price -> bool)
    (remaining_quantity : Quantity) (trades : list Trade) (b : Impl)
  : outcome Impl (Quantity * list Trade) :=
  match fuel with
  | O => Crashed OutOfFuel
  | S fuel' =>
    if match_guard ref incoming price_crosses remaining_quantity b then
      let! (b', r) := match_body ref incoming remaining_quantity trades b in
      match_loop fuel' ref incoming price_crosses (r.1) (r.2) b'
    else Returned b (remaining_quantity, trades)
  end.

(** Every iteration but the last removes a node, so as many iterations as
    there are nodes, and the final test of the condition, are enough. *)
Definition match_fuel (ref : LevelsRef) (b : Impl) : nat :=
  S (length (level_nodes (get_levels ref b))).

Definition match_orders (ref : LevelsRef) (incoming : NewLimitOrder)
    (price_crosses : Price -> Price -> bool)
    (remaining_quantity : Quantity) (trades : list Trade) (b : Impl)
  : outcome Impl (Quantity * list Trade) :=
  match_loop (match_fuel ref b) ref incoming price_crosses remaining_quantity trades b.

Definition cancel_resting_order (ref : LevelsRef) (locator : OrderLocator) (id : OrderId)
    (b : Impl) : outcome Impl Quantity :=
  match map_find (loc_price locator) (get_levels ref b) with
  | None => Crashed Terminate
  | Some level =>
    match deref b (loc_order locator) with
    | None => Crashed UndefinedBehaviour
    | Some order =>
      if negb (ro_id order =? id) || (ro_remaining_quantity order =? 0)
         || (total_quantity level <? ro_remaining_quantity order)
      then Crashed Terminate
      else
        let cancelled_quantity := ro_remaining_quantity order in
        let total := (total_quantity level - cancelled_quantity)%u64 in
        match list_erase (loc_order locator) (orders level) with
        | None => Crashed UndefinedBehaviour
        | Some orders' =>
          let levels' :=
            match orders' with
            | [] => map_erase (loc_price locator) (get_levels ref b)
            | _ => map_update (loc_price locator) (fun _ => mkPriceLevel orders' total)
                     (get_levels ref b)
            end in
          Returned (set_levels ref levels' b) cancelled_quantity
        end
    end
  end.

(** The loop of [depth_from]; [result_size] is [result.size()]. *)
Fixpoint depth_from (levels : list (Z * PriceLevel)) (max_levels result_size : Z)
  : list PriceLevelView :=
  match levels with
  | [] => []
  | (price, level) :: levels' =>
      if result_size =? max_levels then []
      else {| plv_price := price;
              plv_total_quantity := total_quantity level;
              plv_order_count := Z.of_nat (length (orders level)) |}
           :: depth_from levels' max_levels (result_size + 1)
  end.

(** The loop of [check_side] over the orders of a level: [None] is
    [return false], otherwise the aggregate and the captured variables. *)
Fixpoint check_orders (b : Impl) (side : Side) (price : Price) (l : list ListNode)
    (previous_sequence aggregate counted_orders : Z) (orders_in_book : gset Z)
  : option (Z * Z * gset Z) :=
  match l with
  | [] => Some (aggregate, counted_orders, orders_in_book)
  | node :: l' =>
      let order := node_order node in
      if negb (ro_side order =? side) || negb (ro_limit_price order =? price)
         || (ro_remaining_quantity order =? 0) || (ro_original_quantity order =? 0)
         || (ro_original_quantity order <? ro_remaining_quantity order)
         || (ro_arrival_sequence order =? 0)
         || (negb (previous_sequence =? 0) && (ro_arrival_sequence order <=? previous_sequence))
         || would_overflow aggregate (ro_remaining_quantity order)
      then None
      else
        match active_orders b !! ro_id order with
        | None => None
        | Some locator =>
            if negb (loc_side locator =? side) || negb (loc_price locator =? price)
               || negb (loc_order locator =? node_addr node)
               || negb (bool_decide (ro_id order ∈ seen_order_ids b))
               || bool_decide (ro_id order ∈ orders_in_book)
            then None
            else check_orders b side price l' (ro_arrival_sequence order)
                   (aggregate + ro_remaining_quantity order)%u64
                   (counted_orders + 1)%u64 ({[ro_id order]} ∪ orders_in_book)
        end
  end.

Fixpoint check_side (b : Impl) (side : Side) (levels : list (Z * PriceLevel))
    (previous_price : option Price) (counted_orders : Z) (orders_in_book : gset Z)
  : option (Z * gset Z) :=
  match levels with
  | [] => Some (counted_orders, orders_in_book)
  | (price, level) :: levels' =>
      let out_of_order :=
        match previous_price with
        | None => false
        | Some previous => ((side =? Buy) && (previous <=? price))
                           || ((side =? Sell) && (price <=? previous))
        end in
      if bool_decide (orders level = []) || out_of_order then None
      else
        match check_orders b side price (orders level) 0 0 counted_orders orders_in_book with
        | None => None
        | Some (aggregate, counted_orders, orders_in_book) =>
            if aggregate =? total_quantity level
            then check_side b side levels' (Some price) counted_orders orders_in_book
            else None
        end
  end.

#[export] Instance RestingOrder_eq_dec : EqDecision RestingOrder.
Proof. solve_decision. Defined.
#[export] Instance ListNode_eq_dec : EqDecision ListNode.
Proof. solve_decision. Defined.

Definition invariants_hold (b : Impl) : bool :=
  match bids b, asks b with
  | (best_bid, _) :: _, (best_ask, _) :: _ => best_bid <? best_ask
  | _, _ => true
  end &&
  match check_side b Buy (bids b) None 0 ∅ with
  | None => false
  | Some (counted_orders, orders_in_book) =>
      match check_side b Sell (asks b) None counted_orders orders_in_book with
      | None => false
      | Some (counted_orders, _) => counted_orders =? Z.of_nat (size (active_orders b))
      end
  end.

Definition order_ids_at (levels : list (Z * PriceLevel)) (price : Price) : list OrderId :=
  match map_find price levels with
  | None => []
  | Some level => (fun n => ro_id (node_order n)) <$> orders level
  end.

(** [OrderBook::OrderBook()]. *)
Definition new_book : Impl :=
  {| bids := []; asks := []; active_orders := ∅; seen_order_ids := ∅;
     next_arrival_sequence := 1; next_trade_id := 1; next_node := 0 |}.

(** The two lambdas passed as [price_crosses]. *)
Definition ask_crosses (ask_price incoming_price : Price) : bool := ask_price <=? incoming_price.
Definition bid_crosses (bid_price incoming_price : Price) : bool := incoming_price <=? bid_price.

(** The level-overflow test of [submit] on the side the residual would rest
    on. *)
Definition resting_overflows (ref : LevelsRef) (b : Impl) (price : Price)
    (remaining : Quantity) : bool :=
  match map_find price (get_levels ref b) with
  | None => false
  | Some existing_level => would_overflow (total_quantity existing_level) remaining
  end.

(** The block of [submit] that mutates the book: record the id, match, rest
    the residual. *)
Definition submit_execute (fault : option AllocSite) (order : NewLimitOrder)
    (match_plan : MatchPlan) (b : Impl) : outcome Impl (list Trade) :=
  if alloc_throws fault ReserveTrades then Threw b else
  if alloc_throws fault InsertSeenId then Threw b else
  assert_that (negb (bool_decide (nlo_id order ∈ seen_order_ids b)))
    (let b1 := set_seen ({[nlo_id order]} ∪ seen_order_ids b) b in
     let! (b2, r) :=
       (if nlo_side order =? Buy
        then match_orders AskLevels order ask_crosses (nlo_quantity order) [] b1
        else match_orders BidLevels order bid_crosses (nlo_quantity order) [] b1) in
     let remaining_quantity := r.1 in
     let trades := r.2 in
     assert_that (remaining_quantity =? mp_remaining_quantity match_plan)
       (assert_that (Z.of_nat (length trades) =? mp_trade_count match_plan)
          (if 0 <? remaining_quantity then
             let! (b3, _u) :=
               (if nlo_side order =? Buy
                then insert_resting_order fault BidLevels order remaining_quantity
                       (next_arrival_sequence b2) b2
                else insert_resting_order fault AskLevels order remaining_quantity
                       (next_arrival_sequence b2) b2) in
             Returned (set_next_arrival_sequence (next_arrival_sequence b3 + 1)%u64 b3) trades
           else Returned b2 trades))).

Definition submit (fault : option AllocSite) (b : Impl) (order : NewLimitOrder)
  : outcome Impl SubmitResult :=
  if nlo_id order =? 0 then Returned b (rejected InvalidOrderId) else
  if negb (is_valid_side (nlo_side order)) then Returned b (rejected InvalidSide) else
  if nlo_limit_price order =? 0 then Returned b (rejected InvalidPrice) else
  if nlo_quantity order =? 0 then Returned b (rejected InvalidQuantity) else
  if bool_decide (nlo_id order ∈ seen_order_ids b) then Returned b (rejected DuplicateOrderId) else
  let match_plan :=
    if nlo_side order =? Buy
    then preview_match (asks b) (nlo_limit_price order) (nlo_quantity order) ask_crosses
    else preview_match (bids b) (nlo_limit_price order) (nlo_quantity order) bid_crosses in
  if negb (can_issue_trade_ids b (mp_trade_count match_plan))
  then Returned b (rejected TradeIdExhausted) else
  if (0 <? mp_remaining_quantity match_plan) && (next_arrival_sequence b =? 0)
  then Returned b (rejected SequenceExhausted) else
  if (0 <? mp_remaining_quantity match_plan) &&
     (if nlo_side order =? Buy
      then resting_overflows BidLevels b (nlo_limit_price order) (mp_remaining_quantity match_plan)
      else resting_overflows AskLevels b (nlo_limit_price order) (mp_remaining_quantity match_plan))
  then Returned b (rejected QuantityOverflow) else
  let! (b', trades) := submit_execute fault order match_plan b in
  assert_that (invariants_hold b')
    (Returned b'
       {| sr_status := Accepted;
          sr_rejection_reason := None;
          sr_executed_quantity := (nlo_quantity order - mp_remaining_quantity match_plan)%u64;
          sr_resting_quantity := mp_remaining_quantity match_plan;
          sr_trades := trades |}).

Definition cancel (b : Impl) (id : OrderId) : outcome Impl CancelResult :=
  match active_orders b !! id with
  | None => Returned b {| cr_status := NotFound; cr_cancelled_quantity := 0 |}
  | Some locator =>
      let! (b1, cancelled_quantity) :=
        (if loc_side locator =? Buy
         then cancel_resting_order BidLevels locator id b
         else cancel_resting_order AskLevels locator id b) in
      let b2 := set_active (delete id (active_orders b1)) b1 in
      assert_that (invariants_hold b2)
        (Returned b2 {| cr_status := Cancelled; cr_cancelled_quantity := cancelled_quantity |})
  end.

Definition best_quote (levels : list (Z * PriceLevel)) : option Quote :=
  match levels with
  | [] => None
  | (price, level) :: _ => Some {| quote_price := price; quote_quantity := total_quantity level |}
  end.

Definition best_bid (b : Impl) : option Quote := best_quote (bids b).
Definition best_ask (b : Impl) : option Quote := best_quote (asks b).

Definition order_view (order : RestingOrder) : OrderView :=
  {| ov_id := ro_id order; ov_side := ro_side order; ov_limit_price := ro_limit_price order;
     ov_original_quantity := ro_original_quantity order;
     ov_remaining_quantity := ro_remaining_quantity order |}.

(** [find]: a locator whose iterator has no live node is undefined
    behaviour. *)
Definition find_order (b : Impl) (id : OrderId) : outcome Impl (option OrderView) :=
  match active_orders b !! id with
  | None => Returned b None
  | Some locator =>
      match deref b (loc_order locator) with
      | None => Crashed UndefinedBehaviour
      | Some order => Returned b (Some (order_view order))
      end
  end.

Definition depth (b : Impl) (side : Side) (max_levels : Z) : list PriceLevelView :=
  if (max_levels =? 0) || negb (is_valid_side side) then []
  else if side =? Buy then depth_from (bids b) max_levels 0
  else depth_from (asks b) max_levels 0.

Definition active_order_count (b : Impl) : Z := Z.of_nat (size (active_orders b)).

Definition order_ids_at_for_testing (b : Impl) (side : Side) (price : Price) : list OrderId :=
  if side =? Buy then order_ids_at (bids b) price
  else if side =? Sell then order_ids_at (asks b) price
  else [].

Definition set_next_trade_id_for_testing (b : Impl) (id : TradeId) : Impl :=
  set_next_trade_id id b.
