(* ===== verification/OrderBookInv.v ===== *)
(** * The order-book invariant

    The representation invariant of [OrderBook::Impl], split in what each
    container of levels satisfies ([levels_ok]), what the set of live nodes
    satisfies whatever their order ([pool_ok]) and that the book is not
    crossed; and the lemmas that say how removing, reducing and adding a node
    act on each part. *)
From S2P Require Import Prelude StdMap Types OrderBook.

Definition side_of (ref : LevelsRef) : Side :=
  match ref with BidLevels => Buy | AskLevels => Sell end.

Definition opposite (ref : LevelsRef) : LevelsRef :=
  match ref with BidLevels => AskLevels | AskLevels => BidLevels end.

Definition crosses (ref : LevelsRef) : Price -> Price -> bool :=
  match ref with BidLevels => bid_crosses | AskLevels => ask_crosses end.

Definition node_id (n : ListNode) : Z := ro_id (node_order n).
Definition node_price (n : ListNode) : Z := ro_limit_price (node_order n).
Definition node_rem (n : ListNode) : Z := ro_remaining_quantity (node_order n).
Definition node_seq (n : ListNode) : Z := ro_arrival_sequence (node_order n).

Definition set_rem (n : ListNode) (q : Z) : ListNode :=
  mkListNode (node_addr n) (with_remaining (node_order n) q).

Fixpoint sum_rem (l : list ListNode) : Z :=
  match l with
  | [] => 0
  | n :: l' => node_rem n + sum_rem l'
  end.

Record order_ok (side price : Z) (o : RestingOrder) : Prop := {
  ok_side : ro_side o = side;
  ok_price : ro_limit_price o = price;
  ok_id : 0 < ro_id o < U64_MOD;
  ok_rem : 0 < ro_remaining_quantity o <= ro_original_quantity o;
  ok_orig : ro_original_quantity o < U64_MOD;
  ok_seq : 0 < ro_arrival_sequence o < U64_MOD;
}.

(** One price level: a FIFO queue of orders with a cached total. *)
Record level_ok (ref : LevelsRef) (pl : Z * PriceLevel) : Prop := {
  lvl_price : 0 < pl.1 < U64_MOD;
  lvl_nonempty : orders pl.2 <> [];
  lvl_orders : Forall (fun n => order_ok (side_of ref) pl.1 (node_order n)) (orders pl.2);
  lvl_fifo : StronglySorted (fun a b => node_seq a < node_seq b) (orders pl.2);
  lvl_total : total_quantity pl.2 = sum_rem (orders pl.2);
  lvl_bound : total_quantity pl.2 < U64_MOD;
}.

Record levels_ok (ref : LevelsRef) (lv : list (Z * PriceLevel)) : Prop := {
  lv_sorted : map_sorted (key_comp ref) lv;
  lv_levels : Forall (level_ok ref) lv;
}.

Definition locator_of (n : ListNode) : OrderLocator :=
  {| loc_side := ro_side (node_order n); loc_price := node_price n; loc_order := node_addr n |}.

(** The index the locators form over a list of live nodes. *)
Definition index_entry (n : ListNode) : Z * OrderLocator := (node_id n, locator_of n).
Definition index_nodes (ns : list ListNode) : gmap Z OrderLocator :=
  list_to_map (index_entry <$> ns).

(** One past the largest arrival sequence handed out: the counter, or [2^64]
    once it has wrapped to zero. *)
Definition seq_limit (next : Z) : Z := if next =? 0 then U64_MOD else next.

Record pool_ok (ns : list ListNode) (active : gmap Z OrderLocator) (seen : gset Z)
    (limit fresh : Z) : Prop := {
  pool_ids : NoDup (node_id <$> ns);
  pool_addrs : NoDup (node_addr <$> ns);
  pool_seqs : NoDup (node_seq <$> ns);
  pool_active : active = index_nodes ns;
  pool_seen : Forall (fun n => node_id n ∈ seen) ns;
  pool_limit : Forall (fun n => 0 < node_seq n < limit) ns;
  pool_fresh : Forall (fun n => node_addr n < fresh) ns;
}.

Definition uncrossed (b : Impl) : Prop :=
  forall p q, p ∈ keys (bids b) -> q ∈ keys (asks b) -> p < q.

Record Inv (b : Impl) : Prop := {
  inv_bids : levels_ok BidLevels (bids b);
  inv_asks : levels_ok AskLevels (asks b);
  inv_uncrossed : uncrossed b;
  inv_pool : pool_ok (nodes b) (active_orders b) (seen_order_ids b)
               (seq_limit (next_arrival_sequence b)) (next_node b);
  inv_next_seq : is_u64 (next_arrival_sequence b);
  inv_next_trade : is_u64 (next_trade_id b);
}.

#[export] Instance key_comp_strict ref : StrictComp (key_comp ref).
Proof. destruct ref; apply _. Qed.

(** ** Lists of nodes *)

Lemma level_nodes_app lv1 lv2 : level_nodes (lv1 ++ lv2) = level_nodes lv1 ++ level_nodes lv2.
Proof. apply bind_app. Qed.

Lemma level_nodes_cons p l lv : level_nodes ((p, l) :: lv) = orders l ++ level_nodes lv.
Proof. reflexivity. Qed.

Lemma level_nodes_split lv1 p l lv2 :
  level_nodes (lv1 ++ (p, l) :: lv2) = level_nodes lv1 ++ orders l ++ level_nodes lv2.
Proof. by rewrite level_nodes_app, level_nodes_cons. Qed.

Lemma sum_rem_app l1 l2 : sum_rem (l1 ++ l2) = sum_rem l1 + sum_rem l2.
Proof. induction l1 as [|n l1 IH]; simpl; lia. Qed.

Lemma sum_rem_nonneg l : Forall (fun n => 0 <= node_rem n) l -> 0 <= sum_rem l.
Proof. induction 1; simpl; lia. Qed.

Lemma nodes_perm ref b :
  nodes b ≡ₚ level_nodes (get_levels ref b) ++ level_nodes (get_levels (opposite ref) b).
Proof. destruct ref; unfold nodes; simpl; [done|]. apply Permutation_app_comm. Qed.

(** ** The pool of nodes *)

Lemma index_nodes_cons n ns : index_nodes (n :: ns) = <[node_id n := locator_of n]> (index_nodes ns).
Proof. reflexivity. Qed.

Lemma fst_index_entry ns : (index_entry <$> ns).*1 = node_id <$> ns.
Proof. rewrite <- list_fmap_compose. by apply list_fmap_ext. Qed.

Lemma index_nodes_lookup_None ns id : id ∉ (node_id <$> ns) -> index_nodes ns !! id = None.
Proof. intros H. apply not_elem_of_list_to_map_1. by rewrite fst_index_entry. Qed.

Lemma index_nodes_perm ns1 ns2 :
  NoDup (node_id <$> ns1) -> ns1 ≡ₚ ns2 -> index_nodes ns1 = index_nodes ns2.
Proof.
  intros Hnd Hp. apply list_to_map_proper; [by rewrite fst_index_entry|]. by rewrite Hp.
Qed.

Section pool.
  Context (active : gmap Z OrderLocator) (seen : gset Z) (limit fresh : Z).

Lemma pool_ok_perm ns1 ns2 :
  ns1 ≡ₚ ns2 -> pool_ok ns1 active seen limit fresh -> pool_ok ns2 active seen limit fresh.
Proof.
  intros Hp [H1 H2 H3 H4 H5 H6 H7].
  split; try (rewrite <- Hp; done). by rewrite <- (index_nodes_perm ns1 ns2).
Qed.

Lemma pool_ok_remove n ns :
  pool_ok (n :: ns) active seen limit fresh ->
  pool_ok ns (delete (node_id n) active) seen limit fresh.
Proof.
  intros [H1 H2 H3 H4 H5 H6 H7]. rewrite fmap_cons, NoDup_cons in H1, H2, H3.
  destruct H1 as [Hn H1]. split; try (by destruct_and?); try (by eapply Forall_cons).
  rewrite H4, index_nodes_cons. apply delete_insert_id. by apply index_nodes_lookup_None.
Qed.

Lemma pool_ok_set_rem n q ns :
  pool_ok (n :: ns) active seen limit fresh -> pool_ok (set_rem n q :: ns) active seen limit fresh.
Proof.
  intros [H1 H2 H3 H4 H5 H6 H7].
  split; try done; try (apply Forall_cons in H5, H6, H7; by apply Forall_cons).
Qed.

Lemma pool_ok_lookup n ns :
  pool_ok ns active seen limit fresh -> n ∈ ns -> active !! node_id n = Some (locator_of n).
Proof.
  intros [H1 _ _ -> _ _ _] Hin. apply elem_of_list_to_map_1; [by rewrite fst_index_entry|].
  apply list_elem_of_fmap. by exists n.
Qed.

Lemma pool_ok_lookup_inv id loc ns :
  pool_ok ns active seen limit fresh -> active !! id = Some loc ->
  exists n, n ∈ ns /\ node_id n = id /\ locator_of n = loc.
Proof.
  intros [_ _ _ -> _ _ _] Hl. apply elem_of_list_to_map_2 in Hl.
  apply list_elem_of_fmap in Hl as (n & [= -> ->] & Hin). by exists n.
Qed.

Lemma pool_ok_size ns :
  pool_ok ns active seen limit fresh -> size active = length ns.
Proof.
  intros [H1 _ _ -> _ _ _]. clear -H1. induction ns as [|n ns IH]; [done|].
  rewrite fmap_cons, NoDup_cons in H1. destruct H1 as [Hn H1].
  rewrite index_nodes_cons, map_size_insert_None by (by apply index_nodes_lookup_None).
  by rewrite IH.
Qed.

Lemma pool_ok_weaken ns seen' limit' fresh' :
  pool_ok ns active seen limit fresh -> seen ⊆ seen' -> limit <= limit' -> fresh <= fresh' ->
  pool_ok ns active seen' limit' fresh'.
Proof.
  intros [H1 H2 H3 H4 H5 H6 H7] Hs Hl Hf.
  split; try done.
  - eapply Forall_impl; [exact H5|]. simpl. auto.
  - eapply Forall_impl; [exact H6|]. simpl. lia.
  - eapply Forall_impl; [exact H7|]. simpl. lia.
Qed.

(** A node with a new id, sequence number and address. *)
Lemma pool_ok_add n ns :
  pool_ok ns active seen limit fresh ->
  node_id n ∉ (node_id <$> ns) -> node_id n ∈ seen ->
  node_seq n = limit -> 0 < limit -> node_addr n = fresh ->
  active !! node_id n = None /\
  pool_ok (n :: ns) (<[node_id n := locator_of n]> active) seen (limit + 1) (fresh + 1).
Proof.
  intros [H1 H2 H3 H4 H5 H6 H7] Hid Hseen Hseq Hpos Haddr.
  split; [subst active; by apply index_nodes_lookup_None|].
  split.
  - rewrite fmap_cons. by constructor.
  - rewrite fmap_cons. constructor; [|done]. intros (m & Hm & Hin)%list_elem_of_fmap.
    eapply Forall_forall in H7; [|exact Hin]. lia.
  - rewrite fmap_cons. constructor; [|done]. intros (m & Hm & Hin)%list_elem_of_fmap.
    eapply Forall_forall in H6; [|exact Hin]. lia.
  - by rewrite index_nodes_cons, H4.
  - by constructor.
  - constructor; [lia|]. eapply Forall_impl; [exact H6|]. simpl. lia.
  - constructor; [lia|]. eapply Forall_impl; [exact H7|]. simpl. lia.
Qed.

End pool.

(** ** Reading the book through a reference to one side *)

Lemma get_set_levels ref lv b : get_levels ref (set_levels ref lv b) = lv.
Proof. by destruct ref. Qed.
Lemma get_set_levels_opposite ref lv b :
  get_levels (opposite ref) (set_levels ref lv b) = get_levels (opposite ref) b.
Proof. by destruct ref. Qed.
Lemma opposite_involutive ref : opposite (opposite ref) = ref.
Proof. by destruct ref. Qed.
#[export] Hint Rewrite get_set_levels get_set_levels_opposite opposite_involutive : book.

(** The projections of an updated book that the update does not touch. *)
Lemma set_levels_fields ref lv b :
  active_orders (set_levels ref lv b) = active_orders b /\
  seen_order_ids (set_levels ref lv b) = seen_order_ids b /\
  next_arrival_sequence (set_levels ref lv b) = next_arrival_sequence b /\
  next_trade_id (set_levels ref lv b) = next_trade_id b /\
  next_node (set_levels ref lv b) = next_node b.
Proof. by destruct ref. Qed.

Lemma uncrossed_by_ref ref b :
  uncrossed b <->
  forall p q, p ∈ keys (get_levels ref b) -> q ∈ keys (get_levels (opposite ref) b) ->
              key_comp (opposite ref) p q = true.
Proof.
  unfold uncrossed. destruct ref; simpl; unfold std_less, std_greater.
  - split; intros H p q Hp Hq; apply Z.ltb_lt; auto.
  - split; intros H p q Hp Hq; specialize (H q p Hq Hp); by apply Z.ltb_lt.
Qed.

Lemma Inv_by_ref ref b :
  Inv b <->
  levels_ok ref (get_levels ref b) /\
  levels_ok (opposite ref) (get_levels (opposite ref) b) /\
  (forall p q, p ∈ keys (get_levels ref b) -> q ∈ keys (get_levels (opposite ref) b) ->
               key_comp (opposite ref) p q = true) /\
  pool_ok (level_nodes (get_levels ref b) ++ level_nodes (get_levels (opposite ref) b))
    (active_orders b) (seen_order_ids b) (seq_limit (next_arrival_sequence b)) (next_node b) /\
  is_u64 (next_arrival_sequence b) /\ is_u64 (next_trade_id b).
Proof.
  rewrite <- uncrossed_by_ref. split.
  - intros [H1 H2 H3 H4 H5 H6]. apply (pool_ok_perm _ _ _ _ _ _ (nodes_perm ref b)) in H4.
    destruct ref; naive_solver.
  - intros (H1 & H2 & H3 & H4 & H5 & H6).
    apply (pool_ok_perm _ _ _ _ _ _ (symmetry (nodes_perm ref b))) in H4.
    destruct ref; by split.
Qed.

(** ** Levels *)

Lemma levels_ok_split ref lv1 p l lv2 :
  levels_ok ref (lv1 ++ (p, l) :: lv2) ->
  level_ok ref (p, l) /\ levels_ok ref (lv1 ++ lv2) /\ p ∉ keys lv1 /\ p ∉ keys lv2.
Proof.
  intros [Hs Hl]. pose proof (map_sorted_keys_fresh _ _ _ _ Hs).
  apply Forall_app in Hl as [Hl1 [Hl Hl2]%Forall_cons].
  split; [done|]. split; [|done]. split.
  - exact (map_sorted_remove _ _ _ _ Hs).
  - by apply Forall_app.
Qed.

Lemma levels_ok_replace ref lv1 p l l' lv2 :
  levels_ok ref (lv1 ++ (p, l) :: lv2) -> level_ok ref (p, l') ->
  levels_ok ref (lv1 ++ (p, l') :: lv2).
Proof.
  intros [Hs Hl] Hl'. split; [exact (map_sorted_replace _ _ _ _ _ Hs)|].
  apply Forall_app in Hl as [Hl1 [Hl Hl2]%Forall_cons].
  apply Forall_app. auto.
Qed.

Lemma levels_ok_insert ref lv1 p l lv2 :
  levels_ok ref (lv1 ++ lv2) -> map_sorted (key_comp ref) (lv1 ++ (p, l) :: lv2) ->
  level_ok ref (p, l) -> levels_ok ref (lv1 ++ (p, l) :: lv2).
Proof.
  intros [_ Hl] Hs Hl'. split; [done|].
  apply Forall_app in Hl as [Hl1 Hl2]. apply Forall_app. auto.
Qed.

Lemma level_ok_sum_nonneg ref p l l' :
  level_ok ref (p, l) -> l' ⊆ orders l -> 0 <= sum_rem l'.
Proof.
  intros Hl Hsub. apply sum_rem_nonneg, Forall_forall. intros n Hn.
  pose proof (lvl_orders _ _ Hl) as Ho. eapply Forall_forall in Ho; [|by apply Hsub].
  destruct Ho. unfold node_rem. lia.
Qed.

(** Erasing a node from a level that keeps other orders. *)
Lemma level_ok_remove ref p l l1 n l2 :
  level_ok ref (p, l) -> orders l = l1 ++ n :: l2 -> l1 ++ l2 <> [] ->
  level_ok ref (p, mkPriceLevel (l1 ++ l2) (total_quantity l - node_rem n)).
Proof.
  intros Hl Eo Hne.
  assert (0 <= sum_rem (l1 ++ l2)) by (eapply level_ok_sum_nonneg; [done|]; rewrite Eo; set_solver).
  destruct Hl as [H1 _ H3 H4 H5 H6]; simpl in *. rewrite Eo in *.
  apply Forall_app in H3 as [? [Hn ?]%Forall_cons].
  rewrite sum_rem_app in *. simpl in *. destruct Hn. unfold node_rem in *.
  split; simpl; try done; try lia.
  - by apply Forall_app.
  - rewrite StronglySorted_app, StronglySorted_cons in *. destruct_and!.
    split_and!; try done. intros x1 x2 Hx1 Hx2.
    by match goal with H : forall _ _, _ -> _ -> _ |- _ => apply H; [|apply list_elem_of_further] end.
  - rewrite sum_rem_app. lia.
Qed.

(** Reducing the first order of a level. *)
Lemma level_ok_set_rem ref p l n q l2 :
  level_ok ref (p, l) -> orders l = n :: l2 -> 0 < q <= node_rem n ->
  level_ok ref (p, mkPriceLevel (set_rem n q :: l2) (total_quantity l - (node_rem n - q))).
Proof.
  intros [H1 _ H3 H4 H5 H6] Eo Hq; simpl in *. rewrite Eo in *. simpl in *.
  apply Forall_cons in H3 as [Hn ?]. apply StronglySorted_cons in H4 as [? ?].
  split; simpl; try done; unfold node_rem in *; simpl in *; try lia.
  - constructor; [|done]. destruct Hn; split; simpl; try done; lia.
  - by apply StronglySorted_cons.
Qed.

(** Appending the newest order to a level, or creating a level for it. *)
Lemma level_ok_push ref p l n :
  level_ok ref (p, l) -> order_ok (side_of ref) p (node_order n) ->
  Forall (fun m => node_seq m < node_seq n) (orders l) ->
  total_quantity l + node_rem n < U64_MOD ->
  level_ok ref (p, mkPriceLevel (orders l ++ [n]) (total_quantity l + node_rem n)).
Proof.
  intros [H1 H2 H3 H4 H5 H6] Hn Hseq Hb; simpl in *.
  split; simpl; try done.
  - by destruct (orders l).
  - apply Forall_app. auto.
  - apply StronglySorted_app. split_and!; [|done|by repeat constructor].
    intros x1 x2 Hx1 ->%list_elem_of_singleton. by eapply Forall_forall in Hseq.
  - rewrite sum_rem_app. simpl. lia.
Qed.

Lemma level_ok_singleton ref p n :
  0 < p < U64_MOD -> order_ok (side_of ref) p (node_order n) ->
  level_ok ref (p, mkPriceLevel [n] (node_rem n)).
Proof.
  intros Hp Hn. split; simpl; try done.
  - auto.
  - by repeat constructor.
  - lia.
  - destruct Hn. unfold node_rem. lia.
Qed.

(** ** Consequences of the invariant *)

Lemma Inv_levels ref b : Inv b -> levels_ok ref (get_levels ref b).
Proof. intros H%(Inv_by_ref ref). naive_solver. Qed.

Lemma seq_limit_range next : is_u64 next -> 0 < seq_limit next <= U64_MOD.
Proof. unfold seq_limit. case_test; u64. Qed.

(** Every resting order consumed a distinct 64-bit arrival sequence, so there
    are fewer than [2^64] of them. *)
Lemma Inv_nodes_bound b : Inv b -> Z.of_nat (length (nodes b)) < U64_MOD.
Proof.
  intros HI. pose proof (seq_limit_range _ (inv_next_seq _ HI)) as Hlim.
  destruct (inv_pool _ HI) as [_ _ Hs _ _ Hb _].
  rewrite <- (length_fmap node_seq). apply Z.lt_le_trans with (2 := proj2 Hlim).
  apply NoDup_bounded_length; [done| |lia]. by apply Forall_fmap.
Qed.

Lemma level_nodes_elem_of n lv :
  n ∈ level_nodes lv <-> exists p l, (p, l) ∈ lv /\ n ∈ orders l.
Proof.
  unfold level_nodes. rewrite list_elem_of_bind. split.
  - intros ([p l] & Hn & Hl). eauto.
  - intros (p & l & Hl & Hn). by exists (p, l).
Qed.

(** A live node is well formed and carries the price of its level. *)
Lemma levels_ok_node ref lv n :
  levels_ok ref lv -> n ∈ level_nodes lv ->
  order_ok (side_of ref) (node_price n) (node_order n) /\ node_price n ∈ keys lv.
Proof.
  intros [_ Hl] (p & l & Hpl & Hn)%level_nodes_elem_of.
  eapply Forall_forall in Hl; [|exact Hpl]. destruct Hl as [_ _ Ho _ _ _]. simpl in Ho.
  eapply Forall_forall in Ho; [|exact Hn].
  assert (node_price n = p) as -> by (destruct Ho; done).
  split; [done|]. apply list_elem_of_fmap. by exists (p, l).
Qed.

(** Every key of a container is the price of some live node. *)
Lemma levels_ok_key ref lv p :
  levels_ok ref lv -> p ∈ keys lv -> exists n, n ∈ level_nodes lv /\ node_price n = p.
Proof.
  intros [_ Hl] ([p' l] & -> & Hpl)%list_elem_of_fmap.
  eapply Forall_forall in Hl; [|exact Hpl]. destruct Hl as [_ Hne Ho _ _ _]. simpl in *.
  destruct (orders l) as [|n l'] eqn:El; [done|]. apply Forall_cons in Ho as [Hn _].
  exists n. split; [|by destruct Hn].
  apply level_nodes_elem_of. exists p', l. rewrite El. split; [done|]. constructor.
Qed.

(** The locators never dangle: an indexed order is a live node. *)
Lemma find_addr ns n :
  NoDup (node_addr <$> ns) -> n ∈ ns ->
  List.find (fun m => node_addr m =? node_addr n) ns = Some n.
Proof.
  induction ns as [|m ns IH]; [by intros _ ?%not_elem_of_nil|].
  rewrite fmap_cons, NoDup_cons, elem_of_cons. intros [Hm Hnd] Hin. simpl.
  destruct (Z.eqb_spec (node_addr m) (node_addr n)) as [E|E].
  - destruct Hin as [->|Hin]; [done|]. destruct Hm. rewrite E. by apply list_elem_of_fmap_2.
  - destruct Hin as [->|Hin]; [done|]. auto.
Qed.

Lemma Inv_deref b n : Inv b -> n ∈ nodes b -> deref b (node_addr n) = Some (node_order n).
Proof.
  intros HI Hin. unfold deref. rewrite (find_addr _ n); [done| |done].
  apply (pool_addrs _ _ _ _ _ (inv_pool _ HI)).
Qed.

Lemma Inv_active_node b id loc :
  Inv b -> active_orders b !! id = Some loc ->
  exists n, n ∈ nodes b /\ node_id n = id /\ loc = locator_of n.
Proof.
  intros HI Hl. destruct (pool_ok_lookup_inv _ _ _ _ _ _ _ (inv_pool _ HI) Hl)
    as (n & ? & ? & ?). by exists n.
Qed.

(** ** The invariant is what [invariants_hold] checks *)

Definition node_indexed (b : Impl) (n : ListNode) : Prop :=
  active_orders b !! node_id n = Some (locator_of n) /\ node_id n ∈ seen_order_ids b.

Lemma Inv_indexed b : Inv b -> Forall (node_indexed b) (nodes b).
Proof.
  intros HI. apply Forall_forall. intros n Hn. split.
  - by eapply pool_ok_lookup, Hn; apply inv_pool.
  - pose proof (pool_seen _ _ _ _ _ (inv_pool _ HI)) as Hs. by eapply Forall_forall in Hs.
Qed.

Lemma would_overflow_spec a q :
  is_u64 a -> is_u64 q -> would_overflow a q = (U64_MAX <? a + q).
Proof.
  intros. unfold would_overflow. rewrite sub64_small by u64.
  destruct (Z.ltb_spec (U64_MAX - q) a), (Z.ltb_spec U64_MAX (a + q)); try done; lia.
Qed.

Definition ids_set (ns : list ListNode) : gset Z := list_to_set (node_id <$> ns).

Lemma check_orders_ok b side p l prev agg cnt ib :
  Forall (fun n => order_ok side p (node_order n)) l ->
  Forall (node_indexed b) l ->
  StronglySorted (fun x y => node_seq x < node_seq y) l ->
  Forall (fun n => prev < node_seq n) l ->
  NoDup (node_id <$> l) -> Forall (fun n => node_id n ∉ ib) l ->
  0 <= agg -> agg + sum_rem l < U64_MOD ->
  0 <= cnt -> cnt + Z.of_nat (length l) < U64_MOD ->
  check_orders b side p l prev agg cnt ib =
    Some (agg + sum_rem l, cnt + Z.of_nat (length l), ids_set l ∪ ib).
Proof.
  revert prev agg cnt ib. induction l as [|n l IH]; intros prev agg cnt ib Ho Hx Hs Hp Hnd Hib Ha Has Hc Hcs.
  { simpl. f_equal. f_equal; [f_equal; lia|]. set_solver. }
  apply Forall_cons in Ho as [On Ho], Hx as [[Xa Xs] Hx], Hp as [Pn Hp], Hib as [In Hib].
  apply StronglySorted_cons in Hs as [Sn Hs]. rewrite fmap_cons, NoDup_cons in Hnd.
  destruct Hnd as [Nn Hnd]. cbn [sum_rem length] in *.
  assert (0 <= sum_rem l).
  { apply sum_rem_nonneg. eapply Forall_impl; [exact Ho|]. intros m []. unfold node_rem. lia. }
  destruct On as [E1 E2 E3 E4 E5 E6].
  cbn [check_orders]. change (ro_id (node_order n)) with (node_id n).
  change (ro_remaining_quantity (node_order n)) with (node_rem n) in *.
  change (ro_arrival_sequence (node_order n)) with (node_seq n) in *.
  rewrite Xa, would_overflow_spec, !add64_small by u64. simpl.
  rewrite bool_decide_true, bool_decide_false by done.
  rewrite E1, E2. unfold node_price. rewrite E2, !Z.eqb_refl.
  rewrite !(proj2 (Z.eqb_neq _ _)) by lia. rewrite !(proj2 (Z.ltb_ge _ _)) by lia.
  rewrite (proj2 (Z.leb_gt _ _)) by lia. rewrite andb_false_r. simpl.
  rewrite IH; try done; try lia.
  - f_equal. f_equal; [f_equal; lia|]. unfold ids_set. rewrite fmap_cons. set_solver.
  - rewrite Forall_forall in *. intros m Hm. rewrite elem_of_union, elem_of_singleton.
    intros [E|E]; [|by eapply Hib]. apply Nn. rewrite <- E. by apply list_elem_of_fmap_2.
Qed.

Lemma ids_set_app l1 l2 : ids_set (l1 ++ l2) = ids_set l1 ∪ ids_set l2.
Proof. unfold ids_set. by rewrite fmap_app, list_to_set_app_L. Qed.

Lemma elem_of_ids_set id l : id ∈ ids_set l <-> id ∈ (node_id <$> l).
Proof. unfold ids_set. apply elem_of_list_to_set. Qed.

Lemma check_side_ok b ref lv prev cnt ib :
  levels_ok ref lv -> Forall (node_indexed b) (level_nodes lv) ->
  NoDup (node_id <$> level_nodes lv) ->
  Forall (fun n => node_id n ∉ ib) (level_nodes lv) ->
  match prev with None => True | Some q => Forall (fun k => key_comp ref q k = true) (keys lv) end ->
  0 <= cnt -> cnt + Z.of_nat (length (level_nodes lv)) < U64_MOD ->
  check_side b (side_of ref) lv prev cnt ib =
    Some (cnt + Z.of_nat (length (level_nodes lv)), ids_set (level_nodes lv) ∪ ib).
Proof.
  revert prev cnt ib. induction lv as [|[p l] lv IH]; intros prev cnt ib Hok Hx Hnd Hib Hprev Hc Hcs.
  { simpl. f_equal. f_equal; [lia|]. set_solver. }
  rewrite level_nodes_cons, ?fmap_app, ?length_app in *.
  apply Forall_app in Hx as [Hx1 Hx2], Hib as [Hib1 Hib2].
  apply NoDup_app in Hnd as (Hnd1 & Hdisj & Hnd2).
  destruct Hok as [Hsort Hlv]. apply Forall_cons in Hlv as [[Hl1 Hl2 Hl3 Hl4 Hl5 Hl6] Hlv]. simpl in *.
  pose proof Hsort as [Hhd Htl]%StronglySorted_cons.
  rewrite bool_decide_false by done.
  assert (match prev with
          | Some previous => (side_of ref =? Buy) && (previous <=? p)
                             || (side_of ref =? Sell) && (p <=? previous)
          | None => false end = false) as ->.
  { destruct prev as [q|]; [|done]. apply Forall_cons in Hprev as [Hq _].
    destruct ref; simpl in *; unfold std_less, std_greater in Hq; reflect;
      rewrite ?orb_false_r; apply Z.leb_gt; lia. }
  simpl. rewrite check_orders_ok; try done; try lia.
  2:{ eapply Forall_impl; [exact Hl3|]. intros n []. unfold node_seq. lia. }
  rewrite Z.add_0_l, Hl5, Z.eqb_refl. rewrite IH; try done; try lia.
  - f_equal. f_equal; [lia|]. rewrite ids_set_app. set_solver.
  - rewrite Forall_forall in *. intros n Hn.
    rewrite elem_of_union, elem_of_ids_set. intros [Hin|Hin]; [|by eapply Hib2].
    eapply Hdisj; [exact Hin|]. by apply list_elem_of_fmap_2.
Qed.

(** The [assert(impl_->invariants_hold())] of [submit] and [cancel] succeed
    on a book that satisfies the invariant. *)
Lemma Inv_invariants_hold b : Inv b -> invariants_hold b = true.
Proof.
  intros HI. pose proof (Inv_indexed _ HI) as Hx. pose proof (Inv_nodes_bound _ HI) as Hn.
  pose proof (pool_ids _ _ _ _ _ (inv_pool _ HI)) as Hnd.
  unfold nodes in Hx, Hn, Hnd. rewrite fmap_app in Hnd. rewrite length_app in Hn.
  apply Forall_app in Hx as [Hx1 Hx2]. apply NoDup_app in Hnd as (Hnd1 & Hdisj & Hnd2).
  unfold invariants_hold. apply andb_true_intro. split.
  - pose proof (inv_uncrossed _ HI) as Hu. unfold uncrossed in Hu.
    destruct (bids b) as [|[p l] lv], (asks b) as [|[q l'] lv']; try done.
    apply Z.ltb_lt, Hu; simpl; constructor.
  - change Buy with (side_of BidLevels).
    rewrite (check_side_ok b BidLevels); [|apply HI|done..| | | |];
      [|apply Forall_true; set_solver|done|lia|lia].
    change Sell with (side_of AskLevels).
    rewrite (check_side_ok b AskLevels); [|apply HI|done..| | | |]; [|  |done|lia|lia].
    + apply Z.eqb_eq. rewrite (pool_ok_size _ _ _ _ _ (inv_pool _ HI)).
      unfold nodes. rewrite length_app. lia.
    + apply Forall_forall. intros n Hin. rewrite elem_of_union, elem_of_ids_set.
      intros [Hin'|Hin']; [|set_solver]. eapply Hdisj; [exact Hin'|]. by apply list_elem_of_fmap_2.
Qed.

Lemma Inv_new_book : Inv new_book.
Proof.
  split; simpl; try (by repeat constructor); try u64.
  intros p q Hp. by apply not_elem_of_nil in Hp.
Qed.
