(* ===== verification/Matching.v ===== *)
(** * Matching

    The specification of matching as one walk over the live orders of the
    opposite side in priority order ([sweep]), and the proof that
    [preview_match] computes its totals and [match] performs it: the loop
    terminates, never reaches [std::terminate] or undefined behaviour, and
    keeps the book invariant. *)
From S2P Require Import Prelude StdMap Types OrderBook OrderBookInv.

(** The fills of an incoming quantity against a priority queue: take from each
    order in turn, as long as its price crosses and quantity remains. *)
Fixpoint sweep (xs : Price -> bool) (rem : Z) (ns : list ListNode) : list (ListNode * Z) :=
  match ns with
  | [] => []
  | n :: ns' =>
      if (0 <? rem) && xs (node_price n) then
        let q := Z.min rem (node_rem n) in (n, q) :: sweep xs (rem - q) ns'
      else []
  end.

(** The queue those fills leave. *)
Fixpoint sweep_rest (xs : Price -> bool) (rem : Z) (ns : list ListNode) : list ListNode :=
  match ns with
  | [] => []
  | n :: ns' =>
      if (0 <? rem) && xs (node_price n) then
        if node_rem n <=? rem then sweep_rest xs (rem - node_rem n) ns'
        else set_rem n (node_rem n - rem) :: ns'
      else ns
  end.

Fixpoint filled (fs : list (ListNode * Z)) : Z :=
  match fs with
  | [] => 0
  | (_, q) :: fs' => q + filled fs'
  end.

(** The trades reported for the fills, with consecutive identifiers. *)
Fixpoint trades_of (tid : Z) (taker : OrderId) (fs : list (ListNode * Z)) : list Trade :=
  match fs with
  | [] => []
  | (n, q) :: fs' =>
      {| trade_id := tid; maker_order_id := node_id n; taker_order_id := taker;
         execution_price := node_price n; execution_quantity := q |}
      :: trades_of (tid + 1) taker fs'
  end.

(** [k] identifiers can be handed out from [tid] without wrapping to zero
    before the last one is used. *)
Definition ids_available (tid : Z) (k : nat) : Prop :=
  k = O \/ (tid <> 0 /\ tid + Z.of_nat k <= U64_MOD).

Definition positive_nodes (ns : list ListNode) : Prop :=
  Forall (fun n => 0 < node_rem n < U64_MOD) ns.

Lemma levels_ok_positive ref lv : levels_ok ref lv -> positive_nodes (level_nodes lv).
Proof.
  intros Hok. apply Forall_forall. intros n Hn.
  destruct (levels_ok_node _ _ _ Hok Hn) as [[] _]. unfold node_rem. lia.
Qed.

(** ** Facts about sweeps *)

Lemma sweep_zero xs rem ns : rem <= 0 -> sweep xs rem ns = [].
Proof. intros. destruct ns; [done|]. simpl. by rewrite (proj2 (Z.ltb_ge _ _)). Qed.

Lemma sweep_rest_zero xs rem ns : rem <= 0 -> sweep_rest xs rem ns = ns.
Proof. intros. destruct ns; [done|]. simpl. by rewrite (proj2 (Z.ltb_ge _ _)). Qed.

Lemma sweep_app xs rem l1 l2 :
  Forall (fun n => xs (node_price n) = true) l1 ->
  sweep xs rem (l1 ++ l2) = sweep xs rem l1 ++ sweep xs (rem - filled (sweep xs rem l1)) l2.
Proof.
  intros Hx. revert rem. induction Hx as [|n l1 Hn _ IH]; intros rem; simpl.
  - f_equal. lia.
  - rewrite Hn, andb_true_r. case_test; simpl.
    + rewrite IH. by rewrite Z.sub_add_distr.
    + rewrite sweep_zero; [done|]. lia.
Qed.

Lemma filled_range xs rem ns :
  positive_nodes ns -> 0 <= rem -> 0 <= filled (sweep xs rem ns) <= rem.
Proof.
  intros Hp. revert rem. induction Hp as [|n ns Hn _ IH]; intros rem Hr; simpl; [lia|].
  case_test; simpl; [|lia]. specialize (IH (rem - Z.min rem (node_rem n))). lia.
Qed.

Lemma filled_app fs1 fs2 : filled (fs1 ++ fs2) = filled fs1 + filled fs2.
Proof. induction fs1 as [|[n q] fs1 IH]; simpl; lia. Qed.

Lemma sweep_length xs rem ns : (length (sweep xs rem ns) <= length ns)%nat.
Proof.
  revert rem. induction ns as [|n ns IH]; intros rem; simpl; [lia|].
  case_test; simpl; [|lia]. specialize (IH (rem - Z.min rem (node_rem n))). lia.
Qed.

Lemma trades_of_length tid taker fs : length (trades_of tid taker fs) = length fs.
Proof. revert tid. induction fs as [|[n q] fs IH]; intros; simpl; auto. Qed.

(** ** The dry run *)

Lemma preview_level_spec xs l rem cnt :
  Forall (fun n => xs (node_price n) = true) l -> positive_nodes l ->
  0 < rem < U64_MOD -> 0 <= cnt -> cnt + Z.of_nat (length l) < U64_MOD ->
  preview_level l rem cnt =
    (rem - filled (sweep xs rem l), cnt + Z.of_nat (length (sweep xs rem l)), false).
Proof.
  intros Hx. revert rem cnt. induction Hx as [|n l Hn _ IH]; intros rem cnt Hp Hr Hc Hb.
  { simpl. f_equal. f_equal; lia. }
  apply Forall_cons in Hp as [Pn Hp]. cbn [length preview_level sweep] in *.
  change (ro_remaining_quantity (node_order n)) with (node_rem n).
  rewrite (proj2 (Z.eqb_neq _ _)) by lia. rewrite sub64_small, add64_small by lia.
  rewrite Hn, (proj2 (Z.ltb_lt _ _)) by lia. cbn [andb filled length].
  case_test.
  - rewrite sweep_zero by lia. cbn [filled length]. f_equal. f_equal; lia.
  - rewrite IH by (done || lia). f_equal. f_equal; lia.
Qed.

(** [preview_match] returns the totals of the sweep; the guard on the trade
    count never fires. *)
Lemma preview_levels_spec ref lv price rem cnt :
  levels_ok ref lv -> 0 <= rem < U64_MOD ->
  0 <= cnt -> cnt + Z.of_nat (length (level_nodes lv)) < U64_MOD ->
  let fs := sweep (fun p => crosses ref p price) rem (level_nodes lv) in
  preview_levels lv price rem cnt (crosses ref) =
    mkMatchPlan (rem - filled fs) (cnt + Z.of_nat (length fs)).
Proof.
  revert rem cnt. induction lv as [|[p l] lv IH]; intros rem cnt Hok Hr Hc Hb.
  { simpl. f_equal; lia. }
  pose proof (levels_ok_split ref [] p l lv Hok) as (Hl & Hok' & _).
  pose proof (levels_ok_positive _ _ Hok) as Hpos. cbn [preview_levels].
  rewrite level_nodes_cons, length_app in *. apply Forall_app in Hpos as [Hp1 Hp2].
  destruct Hl as [_ Hne Ho _ _ _]; cbn [fst snd] in *.
  assert (Forall (fun n => crosses ref (node_price n) price = crosses ref p price) (orders l)) as Hx.
  { eapply Forall_impl; [exact Ho|]. intros n []. unfold node_price. by f_equal. }
  destruct ((0 <? rem) && crosses ref p price) eqn:E; reflect.
  - assert (Forall (fun n => crosses ref (node_price n) price = true) (orders l)) as Hx'.
    { eapply Forall_impl; [exact Hx|]. simpl. congruence. }
    rewrite (preview_level_spec (fun p => crosses ref p price)) by (done || lia).
    pose proof (filled_range (fun p => crosses ref p price) rem _ Hp1) as Hf.
    pose proof (sweep_length (fun p => crosses ref p price) rem (orders l)) as Hlen.
    rewrite IH by (done || lia). rewrite sweep_app by done.
    rewrite filled_app, length_app. f_equal; lia.
  - destruct (orders l) as [|n l'] eqn:El; [done|]. apply Forall_cons in Hx as [Hx _].
    simpl. rewrite Hx, E. simpl. f_equal; lia.
Qed.

Lemma preview_match_spec ref b price q :
  Inv b -> is_u64 q ->
  let fs := sweep (fun p => crosses ref p price) q (level_nodes (get_levels ref b)) in
  preview_match (get_levels ref b) price q (crosses ref) =
    mkMatchPlan (q - filled fs) (Z.of_nat (length fs)).
Proof.
  intros HI Hq. pose proof (Inv_nodes_bound _ HI) as Hn.
  rewrite (nodes_perm ref), length_app in Hn.
  unfold preview_match. apply preview_levels_spec; [by apply Inv_levels|u64|lia|lia].
Qed.

Lemma can_issue_trade_ids_spec b k :
  is_u64 (next_trade_id b) ->
  can_issue_trade_ids b (Z.of_nat k) = true <-> ids_available (next_trade_id b) k.
Proof.
  unfold can_issue_trade_ids, ids_available. rewrite Nat2Z.id. generalize (next_trade_id b).
  induction k as [|k IH]; intros tid Ht; [naive_solver|]. cbn [issue_trade_ids_loop].
  case_test; [split; [done|lia]|].
  rewrite IH by apply add64_range. rewrite add64_succ by done.
  destruct (Z.eqb_spec tid U64_MAX); u64.
Qed.

(** ** One iteration of the loop *)

(** What matching on the side [ref] leaves alone. *)
Record match_frame (ref : LevelsRef) (b b' : Impl) : Prop := {
  mf_opposite : get_levels (opposite ref) b' = get_levels (opposite ref) b;
  mf_seen : seen_order_ids b' = seen_order_ids b;
  mf_next_seq : next_arrival_sequence b' = next_arrival_sequence b;
  mf_next_node : next_node b' = next_node b;
}.

#[export] Instance match_frame_preorder ref : PreOrder (match_frame ref).
Proof.
  split.
  - by intros b.
  - intros b1 b2 b3 [] []. split; congruence.
Qed.

(** A container whose first order is fully filled and erased. *)
Definition drop_head (p : Z) (l : PriceLevel) (n : ListNode) (others : list ListNode)
    (lv : list (Z * PriceLevel)) : list (Z * PriceLevel) :=
  match others with
  | [] => lv
  | _ => (p, mkPriceLevel others (total_quantity l - node_rem n)) :: lv
  end.

(** A container whose first order keeps quantity [q]. *)
Definition reduce_head (p : Z) (l : PriceLevel) (n : ListNode) (others : list ListNode) (q : Z)
    (lv : list (Z * PriceLevel)) : list (Z * PriceLevel) :=
  (p, mkPriceLevel (set_rem n q :: others) (total_quantity l - (node_rem n - q))) :: lv.

Section head.
  Context (ref : LevelsRef) (p : Z) (l : PriceLevel) (n : ListNode) (others : list ListNode)
          (lv : list (Z * PriceLevel)).
  Hypothesis Hok : levels_ok ref ((p, l) :: lv).
  Hypothesis Ho : orders l = n :: others.

Lemma drop_head_ok :
  levels_ok ref (drop_head p l n others lv) /\
  level_nodes (drop_head p l n others lv) = others ++ level_nodes lv /\
  keys (drop_head p l n others lv) ⊆ keys ((p, l) :: lv).
Proof.
  pose proof (levels_ok_split ref [] p l lv Hok) as (Hl & Hok' & _).
  destruct others as [|m others'] eqn:E; simpl.
  - split_and!; [done..|]. unfold keys. set_solver.
  - split_and!; [|done|done].
    apply (levels_ok_replace ref [] p l); [done|].
    by apply (level_ok_remove ref p l [] n).
Qed.

Lemma reduce_head_ok q :
  0 < q <= node_rem n ->
  levels_ok ref (reduce_head p l n others q lv) /\
  level_nodes (reduce_head p l n others q lv) = set_rem n q :: others ++ level_nodes lv /\
  keys (reduce_head p l n others q lv) = keys ((p, l) :: lv).
Proof.
  intros Hq. split_and!; [|done|done].
  pose proof (levels_ok_split ref [] p l lv Hok) as (Hl & _).
  apply (levels_ok_replace ref [] p l); [done|]. by apply level_ok_set_rem.
Qed.

Lemma head_bounds :
  0 < node_rem n < U64_MOD /\ node_rem n <= total_quantity l < U64_MOD.
Proof.
  pose proof (levels_ok_split ref [] p l lv Hok) as (Hl & _).
  assert (0 <= sum_rem others) by (eapply level_ok_sum_nonneg; [done|]; rewrite Ho; set_solver).
  destruct Hl as [_ _ Hos _ Ht Hb]. simpl in *. rewrite Ho in *. simpl in Ht.
  apply Forall_cons in Hos as [[] _]. unfold node_rem in *. lia.
Qed.

End head.

(** Replacing the container of one side by one with fewer or smaller orders
    keeps the book invariant. *)
Lemma Inv_replace_levels ref b lv active tid :
  Inv b -> levels_ok ref lv -> keys lv ⊆ keys (get_levels ref b) -> is_u64 tid ->
  pool_ok (level_nodes lv ++ level_nodes (get_levels (opposite ref) b)) active
    (seen_order_ids b) (seq_limit (next_arrival_sequence b)) (next_node b) ->
  Inv (set_levels ref lv (set_active active (set_next_trade_id tid b))).
Proof.
  intros HI Hlv Hk Ht Hp. apply (Inv_by_ref ref) in HI as (H1 & H2 & H3 & _ & H5 & _).
  apply (Inv_by_ref ref).
  destruct ref; simpl in *; split_and!; try done; intros; apply H3; auto.
Qed.

Lemma match_body_spec ref incoming rem trades b n ns :
  Inv b -> level_nodes (get_levels ref b) = n :: ns ->
  0 < rem < U64_MOD -> next_trade_id b <> 0 ->
  let q := Z.min rem (node_rem n) in
  exists b',
    match_body ref incoming rem trades b =
      Returned b' (rem - q, trades ++ trades_of (next_trade_id b) (nlo_id incoming) [(n, q)]) /\
    Inv b' /\ match_frame ref b b' /\
    next_trade_id b' = add64 (next_trade_id b) 1 /\
    level_nodes (get_levels ref b') =
      (if node_rem n <=? rem then ns else set_rem n (node_rem n - rem) :: ns).
Proof.
  intros HI Hns Hrem Htid q. pose proof (Inv_levels ref b HI) as Hok.
  destruct (get_levels ref b) as [|[p l] lv] eqn:Eg; [done|].
  rewrite level_nodes_cons in Hns.
  destruct (orders l) as [|n' others] eqn:Eo.
  { destruct Hok as [_ [[_ Hne _ _ _ _] _]%Forall_cons]. done. }
  injection Hns as -> Hns.
  pose proof (head_bounds ref p l n others lv Hok Eo) as [Hn Ht].
  pose proof (pool_ok_perm _ _ _ _ _ _ (nodes_perm ref b) (inv_pool _ HI)) as Hpool.
  rewrite Eg, level_nodes_cons, Eo, <- !app_comm_cons in Hpool.
  assert (active_orders b !! node_id n = Some (locator_of n)) as Hact.
  { eapply pool_ok_lookup; [exact Hpool|]. constructor. }
  unfold match_body. rewrite Eg, Eo.
  change (ro_remaining_quantity (node_order n)) with (node_rem n). fold q.
  assert (0 < q <= node_rem n /\ q <= rem) as Hq by lia.
  rewrite (proj2 (Z.eqb_neq q 0)) by lia. rewrite (proj2 (Z.ltb_ge _ q)) by lia.
  rewrite (proj2 (Z.eqb_neq (next_trade_id b) 0)) by done. cbn [orb].
  rewrite !(sub64_small _ q) by lia.
  destruct (Z.leb_spec (node_rem n) rem) as [Hle|Hgt].
  - assert (q = node_rem n) as Eq by lia. rewrite (proj2 (Z.eqb_eq _ _)) by lia.
    cbn [active_orders set_next_trade_id]. unfold node_id in Hact. rewrite Hact. rewrite Eq.
    fold (drop_head p l n others lv).
    destruct (drop_head_ok ref p l n others lv Hok Eo) as (D1 & D2 & D3).
    eexists. split; [reflexivity|]. split; [|split; [by destruct ref|]].
    + apply (Inv_replace_levels ref b _ _ (add64 (next_trade_id b) 1)); try done.
      * by rewrite Eg.
      * apply add64_range.
      * rewrite D2. by apply pool_ok_remove.
    + split; [by destruct ref|]. rewrite get_set_levels, D2. done.
  - assert (q = rem) as Eq by lia. rewrite (proj2 (Z.eqb_neq _ _)) by lia.
    assert (total_quantity l - q = total_quantity l - (node_rem n - (node_rem n - q))) as -> by lia.
    destruct (reduce_head_ok ref p l n others lv Hok Eo (node_rem n - q)) as (D1 & D2 & D3); [lia|].
    eexists. split; [reflexivity|]. split; [|split; [by destruct ref|]].
    + change (set_next_trade_id (add64 (next_trade_id b) 1) b) with
        (set_active (active_orders b) (set_next_trade_id (add64 (next_trade_id b) 1) b)).
      apply (Inv_replace_levels ref b _ _ (add64 (next_trade_id b) 1)); try done.
      * rewrite Eg. reflexivity.
      * apply add64_range.
      * exact (pool_ok_set_rem _ _ _ _ _ (node_rem n - q) _ Hpool).
    + split; [by destruct ref|]. rewrite get_set_levels, <- Eq. rewrite <- Hns. exact D2.
Qed.

(** ** The whole loop *)

Lemma match_guard_spec ref incoming rem b :
  Inv b ->
  match_guard ref incoming (crosses ref) rem b =
    match level_nodes (get_levels ref b) with
    | [] => false
    | n :: _ => (0 <? rem) && crosses ref (node_price n) (nlo_limit_price incoming)
    end.
Proof.
  intros HI. pose proof (Inv_levels ref b HI) as Hok. unfold match_guard.
  destruct (get_levels ref b) as [|[p l] lv]; [done|].
  destruct Hok as [_ [[_ Hne Ho _ _ _] _]%Forall_cons].
  rewrite level_nodes_cons. cbn [fst snd] in *. destruct (orders l) as [|n others]; [done|]. apply Forall_cons in Ho as [[_ Hp _ _ _ _] _].
  simpl. unfold node_price. by rewrite Hp.
Qed.

Lemma ids_available_step tid k :
  is_u64 tid -> ids_available tid (S k) ->
  tid <> 0 /\ ids_available (add64 tid 1) k /\ (k = O \/ add64 tid 1 = tid + 1).
Proof.
  unfold ids_available. intros Ht [|[Hne Hb]]; [done|]. rewrite add64_succ by done.
  destruct (Z.eqb_spec tid U64_MAX); split_and!; u64.
Qed.

Lemma trades_of_tid tid tid' taker fs :
  fs = [] \/ tid = tid' -> trades_of tid taker fs = trades_of tid' taker fs.
Proof. by intros [-> | ->]. Qed.

Lemma match_loop_stop fuel ref incoming trades b :
  (0 < fuel)%nat -> match_loop fuel ref incoming (crosses ref) 0 trades b = Returned b (0, trades).
Proof.
  intros Hf. destruct fuel; [lia|]. simpl.
  assert (match_guard ref incoming (crosses ref) 0 b = false) as ->; [|done].
  unfold match_guard. by destruct (get_levels ref b) as [|[? ?] ?].
Qed.

Lemma match_loop_spec fuel ref incoming rem trades b :
  Inv b -> 0 <= rem < U64_MOD ->
  let ns := level_nodes (get_levels ref b) in
  let xs := fun p => crosses ref p (nlo_limit_price incoming) in
  let fs := sweep xs rem ns in
  ids_available (next_trade_id b) (length fs) -> (length ns < fuel)%nat ->
  exists b',
    match_loop fuel ref incoming (crosses ref) rem trades b =
      Returned b' (rem - filled fs, trades ++ trades_of (next_trade_id b) (nlo_id incoming) fs) /\
    Inv b' /\ match_frame ref b b' /\
    level_nodes (get_levels ref b') = sweep_rest xs rem ns /\
    next_trade_id b' = add64 (next_trade_id b) (Z.of_nat (length fs)).
Proof.
  revert rem trades b. induction fuel as [|fuel IH]; intros rem trades b HI Hr ns xs fs Hids Hfuel; [lia|].
  cbn [match_loop]. rewrite match_guard_spec by done.
  pose proof (levels_ok_positive _ _ (Inv_levels ref b HI)) as Hpos.
  subst ns. destruct (level_nodes (get_levels ref b)) as [|n ns] eqn:Ens.
  { exists b. subst fs; simpl. rewrite app_nil_r, Z.sub_0_r, add64_0 by apply HI. done. }
  apply Forall_cons in Hpos as [Pn Hpos].
  subst fs. cbn [sweep sweep_rest] in *. fold (xs (node_price n)).
  destruct ((0 <? rem) && xs (node_price n)) eqn:Eg; reflect.
  2:{ exists b. simpl. rewrite app_nil_r, Z.sub_0_r, add64_0 by apply HI. done. }
  destruct (ids_available_step _ _ (inv_next_trade _ HI) Hids) as (Htid & Hids' & Hk).
  destruct (match_body_spec ref incoming rem trades b n ns HI Ens ltac:(lia) Htid)
    as (b1 & -> & HI1 & Hf1 & Ht1 & Hn1).
  cbn [obind fst snd filled]. set (q := Z.min rem (node_rem n)) in *.
  destruct (Z.leb_spec (node_rem n) rem).
  - assert (q = node_rem n) as Eq by lia. rewrite <- Eq.
    destruct (IH (rem - q) (trades ++ trades_of (next_trade_id b) (nlo_id incoming) [(n, q)]) b1)
      as (b2 & -> & HI2 & Hf2 & Hn2 & Ht2); [done|lia|rewrite Hn1, Ht1; done|rewrite Hn1; simpl in Hfuel; lia|].
    exists b2. rewrite Hn1, Ht1 in *. split_and!; [|done|by etrans|done|].
    2:{ rewrite Ht2, add64_assoc. cbn [length]. by rewrite Nat2Z.inj_succ, <- Z.add_1_l. }
    rewrite <- app_assoc. f_equal. f_equal; [by rewrite Z.sub_add_distr|]. simpl. f_equal. f_equal.
    apply trades_of_tid. destruct Hk as [Hk%nil_length_inv|]; auto.
  - assert (q = rem) as Eq by lia. rewrite Eq, Z.sub_diag in *.
    rewrite match_loop_stop by (simpl in Hfuel; lia).
    exists b1. rewrite sweep_zero by lia. split_and!; try done.
    simpl. f_equal. f_equal. lia.
Qed.

(** [match] performs the sweep, whatever the book, as long as the trade
    identifiers suffice. *)
Lemma match_orders_spec ref incoming rem trades b :
  Inv b -> is_u64 rem ->
  let ns := level_nodes (get_levels ref b) in
  let xs := fun p => crosses ref p (nlo_limit_price incoming) in
  let fs := sweep xs rem ns in
  ids_available (next_trade_id b) (length fs) ->
  exists b',
    match_orders ref incoming (crosses ref) rem trades b =
      Returned b' (rem - filled fs, trades ++ trades_of (next_trade_id b) (nlo_id incoming) fs) /\
    Inv b' /\ match_frame ref b b' /\
    level_nodes (get_levels ref b') = sweep_rest xs rem ns /\
    next_trade_id b' = add64 (next_trade_id b) (Z.of_nat (length fs)).
Proof.
  intros HI Hr ns xs fs Hids. unfold match_orders, match_fuel.
  apply match_loop_spec; [done|u64|done|lia].
Qed.

(** ** Price-time priority *)

(** [a] is served before [b]: a better price, or the same price and an
    earlier arrival. *)
Definition priority (ref : LevelsRef) (a b : ListNode) : Prop :=
  key_comp ref (node_price a) (node_price b) = true \/
  (node_price a = node_price b /\ node_seq a < node_seq b).

(** Iterating over the levels and their queues visits the orders in priority
    order. *)
Lemma level_nodes_sorted ref lv :
  levels_ok ref lv -> StronglySorted (priority ref) (level_nodes lv).
Proof.
  induction lv as [|[p l] lv IH]; intros Hok; [constructor|].
  pose proof (levels_ok_split ref [] p l lv Hok) as (Hl & Hok' & _).
  rewrite level_nodes_cons. apply StronglySorted_app. split_and!; [|  |by apply IH].
  - intros a b Ha Hb. left.
    assert (node_price a = p) as ->.
    { destruct Hl as [_ _ Ho _ _ _]. eapply Forall_forall in Ho; [|exact Ha]. by destruct Ho. }
    destruct (levels_ok_node ref lv b Hok' Hb) as [_ ([q l'] & -> & Hin)%list_elem_of_fmap].
    by eapply map_sorted_head; [apply Hok|].
  - destruct Hl as [_ _ Ho Hf _ _]. simpl in *. clear Hok IH Hok'. induction Hf as [|n ns Hns IH Hn]; [constructor|].
    apply Forall_cons in Ho as [Hon Ho]. constructor; [auto|].
    rewrite Forall_forall in *. intros m Hm. right. split; [|auto].
    specialize (Ho m Hm). destruct Hon, Ho. unfold node_price. congruence.
Qed.

(** Prices at or behind one that does not cross do not cross either. *)
Lemma crosses_antimono ref a b p :
  priority ref a b -> crosses ref (node_price a) p = false -> crosses ref (node_price b) p = false.
Proof.
  unfold priority. intros [H|[-> _]]; [|done].
  destruct ref; simpl in *; unfold std_greater, std_less, bid_crosses, ask_crosses in *;
    reflect; intros; reflect; apply Z.leb_gt; lia.
Qed.

(** A quantity that is not used up stops at an order that does not cross. *)
Lemma sweep_rest_head xs rem ns :
  positive_nodes ns -> 0 < rem - filled (sweep xs rem ns) ->
  match sweep_rest xs rem ns with [] => True | n :: _ => xs (node_price n) = false end.
Proof.
  intros Hp. revert rem. induction Hp as [|n ns Hn Hp IH]; intros rem; simpl; [done|].
  destruct (0 <? rem) eqn:E; simpl; reflect; [|simpl; lia].
  destruct (xs (node_price n)) eqn:Ex; simpl; [|done].
  destruct (Z.leb_spec (node_rem n) rem).
  - rewrite Z.min_r by lia. intros Hr. apply IH. lia.
  - rewrite Z.min_l, Z.sub_diag, sweep_zero by lia. simpl. lia.
Qed.

(** Nothing on the opposite side crosses a residual. *)
Lemma residual_uncrossed ref b p xs rem ns :
  Inv b -> positive_nodes ns -> level_nodes (get_levels ref b) = sweep_rest xs rem ns ->
  xs = (fun k => crosses ref k p) -> 0 < rem - filled (sweep xs rem ns) ->
  forall k, k ∈ keys (get_levels ref b) -> key_comp ref p k = true.
Proof.
  intros HI Hpos Hns -> Hr k Hk. pose proof (Inv_levels ref b HI) as Hok.
  destruct (levels_ok_key _ _ _ Hok Hk) as (m & Hm & <-).
  pose proof (level_nodes_sorted _ _ Hok) as Hs.
  pose proof (sweep_rest_head _ _ _ Hpos Hr) as Hh. rewrite <- Hns in Hh.
  destruct (level_nodes (get_levels ref b)) as [|n ns']; [by apply not_elem_of_nil in Hm|].
  assert (crosses ref (node_price m) p = false) as Hc.
  { apply elem_of_cons in Hm as [->|Hm]; [done|].
    apply StronglySorted_cons in Hs as [Hs _]. eapply Forall_forall in Hs; [|done].
    by eapply crosses_antimono. }
  destruct ref; simpl in *; unfold bid_crosses, ask_crosses, std_greater, std_less in *;
    reflect; apply Z.ltb_lt; lia.
Qed.

Lemma sweep_rest_ids xs rem ns : (node_id <$> sweep_rest xs rem ns) ⊆ (node_id <$> ns).
Proof.
  revert rem. induction ns as [|n ns IH]; intros rem; simpl; [done|].
  repeat case_test; simpl; try done. specialize (IH (rem - node_rem n)). set_solver.
Qed.
