(* ===== verification/OrderBookOps.v ===== *)
(** * The operations of the order book keep its invariant

    Each public operation, on every path: rejection, acceptance, cancellation
    and an allocation failure at any of the points where one can occur. *)
From S2P Require Import Prelude StdMap Types OrderBook OrderBookInv Matching.

(** ** Resting the residual of an order *)

(** The node [insert_resting_order] creates. *)
Definition resting_node (b : Impl) (incoming : NewLimitOrder) (q seq : Z) : ListNode :=
  {| node_addr := next_node b;
     node_order :=
       {| ro_id := nlo_id incoming; ro_side := nlo_side incoming;
          ro_limit_price := nlo_limit_price incoming;
          ro_original_quantity := nlo_quantity incoming;
          ro_remaining_quantity := q; ro_arrival_sequence := seq |} |}.

Lemma set_get_levels ref b : set_levels ref (get_levels ref b) b = b.
Proof. by destruct ref, b. Qed.
Lemma set_set_levels ref lv lv' b : set_levels ref lv (set_levels ref lv' b) = set_levels ref lv b.
Proof. by destruct ref. Qed.
Lemma get_levels_set_next_node ref k b : get_levels ref (set_next_node k b) = get_levels ref b.
Proof. by destruct ref. Qed.
Lemma get_levels_set_active ref m b : get_levels ref (set_active m b) = get_levels ref b.
Proof. by destruct ref. Qed.
Lemma set_levels_next_node ref lv k b :
  set_levels ref lv (set_next_node k b) = set_next_node k (set_levels ref lv b).
Proof. by destruct ref. Qed.
Lemma set_levels_active ref lv m b :
  set_levels ref lv (set_active m b) = set_active m (set_levels ref lv b).
Proof. by destruct ref. Qed.
#[export] Hint Rewrite set_get_levels set_set_levels get_levels_set_next_node
  get_levels_set_active set_levels_next_node set_levels_active : book.

Lemma level_pop_push n l : level_pop_back (level_push_back n l) = l.
Proof.
  destruct l as [os t]. unfold level_pop_back, level_push_back. simpl. f_equal.
  rewrite length_app. simpl. rewrite Nat.add_sub. by rewrite take_app_length.
Qed.

(** Where the level of a price is, or is created. *)
Lemma try_emplace_place ref p lv :
  map_sorted (key_comp ref) lv ->
  exists lv1 l0 lv2 inserted,
    map_try_emplace (key_comp ref) p empty_level lv = (lv1 ++ (p, l0) :: lv2, inserted) /\
    p ∉ keys lv1 /\ map_sorted (key_comp ref) (lv1 ++ (p, l0) :: lv2) /\
    (if inserted : bool then lv = lv1 ++ lv2 /\ l0 = empty_level /\ p ∉ keys lv
     else lv = lv1 ++ (p, l0) :: lv2).
Proof.
  intros Hs. destruct (map_try_emplace_spec p empty_level lv Hs)
    as [(l0 & Hf & He)|(lv1 & lv2 & -> & Hk & He & Hs')].
  - destruct (map_find_Some_split _ _ _ Hf) as (lv1 & lv2 & -> & Hk).
    exists lv1, l0, lv2, false. by split_and!.
  - exists lv1, empty_level, lv2, true. split_and!; try done.
    by destruct (map_sorted_keys_fresh _ _ _ _ Hs').
Qed.

(** The whole of [insert_resting_order]: on an allocation failure the book is
    as before (the allocator may have moved on), otherwise the new node is at
    the end of its level and indexed. *)
Lemma insert_resting_order_effect fault ref incoming q seq b :
  map_sorted (key_comp ref) (get_levels ref b) ->
  active_orders b !! nlo_id incoming = None ->
  let n := resting_node b incoming q seq in
  let p := nlo_limit_price incoming in
  if alloc_throws fault EmplaceLevel || alloc_throws fault PushBackOrder
     || alloc_throws fault EmplaceActive
  then exists k, next_node b <= k /\
         insert_resting_order fault ref incoming q seq b = Threw (set_next_node k b)
  else exists lv1 l0 lv2,
         (get_levels ref b = lv1 ++ (p, l0) :: lv2 \/
          get_levels ref b = lv1 ++ lv2 /\ l0 = empty_level /\ p ∉ keys (get_levels ref b)) /\
         map_sorted (key_comp ref) (lv1 ++ (p, l0) :: lv2) /\
         (map_try_emplace (key_comp ref) p empty_level (get_levels ref b)).1 =
           lv1 ++ (p, l0) :: lv2 /\
         p ∉ keys lv1 /\
         insert_resting_order fault ref incoming q seq b =
           Returned
             (set_levels ref (lv1 ++ (p, level_add_total q (level_push_back n l0)) :: lv2)
                (set_active (<[nlo_id incoming := locator_of n]> (active_orders b))
                   (set_next_node (next_node b + 1) b))) tt.
Proof.
  intros Hs Hact n p.
  destruct (try_emplace_place ref p _ Hs) as (lv1 & l0 & lv2 & ins & He & Hk & Hs' & Hlv).
  unfold insert_resting_order. fold p. rewrite He.
  destruct (alloc_throws fault EmplaceLevel) eqn:F1.
  { exists (next_node b). split; [lia|]. by destruct b. }
  assert (map_erase p (lv1 ++ (p, l0) :: lv2) = lv1 ++ lv2) as Her by (by apply map_erase_split).
  assert (forall k, set_next_node k
      (set_levels ref (if ins then lv1 ++ lv2 else lv1 ++ (p, l0) :: lv2) b) = set_next_node k b) as Hback.
  { intros k. f_equal. destruct ins; destruct_and?; simplify_eq;
      rewrite <- (set_get_levels ref b) at 2; congruence. }
  destruct (alloc_throws fault PushBackOrder) eqn:F2; simpl.
  { exists (next_node b). split; [lia|]. rewrite <- Hback.
    destruct ins; rewrite ?get_set_levels, ?Her, ?set_set_levels; f_equal; by destruct ref. }
  rewrite !get_set_levels, map_update_split by done.
  assert (next_node (set_levels ref (lv1 ++ (p, l0) :: lv2) b) = next_node b) as -> by (by destruct ref).
  fold (resting_node b incoming q seq). fold n.
  destruct (alloc_throws fault EmplaceActive) eqn:F3; simpl.
  { exists (next_node b + 1). split; [lia|]. rewrite <- Hback.
    destruct ins; autorewrite with book; rewrite ?map_update_split by done;
      rewrite level_pop_push; autorewrite with book; rewrite ?Her; reflexivity. }
  exists lv1, l0, lv2. split; [destruct ins; naive_solver|]. split; [done|].
  split; [done|]. split; [done|].
  autorewrite with book.
  rewrite !(proj1 (set_levels_fields ref _ b)), Hact. f_equal. autorewrite with book.
  by rewrite map_update_split.
Qed.

Lemma seq_limit_succ next :
  is_u64 next -> next <> 0 -> seq_limit (add64 next 1) = seq_limit next + 1.
Proof.
  intros Hn Hz. rewrite add64_succ by done. unfold seq_limit.
  rewrite (proj2 (Z.eqb_neq next 0)) by done.
  destruct (Z.eqb_spec next U64_MAX) as [->|]; [done|]. rewrite (proj2 (Z.eqb_neq _ _)); u64.
Qed.

Section rest.
  Context (ref : LevelsRef) (b : Impl) (incoming : NewLimitOrder) (q : Z).
Let seq := next_arrival_sequence b.
Let p := nlo_limit_price incoming.
Let n := resting_node b incoming q seq.
  Hypothesis HI : Inv b.
  Hypothesis Hwf : wf_order incoming.
  Hypothesis Hside : nlo_side incoming = side_of ref.
  Hypothesis Hid : 0 < nlo_id incoming.
  Hypothesis Hp : 0 < p.
  Hypothesis Hq : 0 < q <= nlo_quantity incoming.
  Hypothesis Hseq : seq <> 0.
  Hypothesis Hnew : nlo_id incoming ∉ (node_id <$> nodes b).
  Hypothesis Hseen : nlo_id incoming ∈ seen_order_ids b.
  Hypothesis Hover : resting_overflows ref b p q = false.
  Hypothesis Hcross : forall k, k ∈ keys (get_levels (opposite ref) b) ->
    key_comp (opposite ref) p k = true.

Lemma resting_node_ok : order_ok (side_of ref) p (node_order n).
Proof.
  pose proof (inv_next_seq _ HI). destruct Hwf as (? & ? & ? & ?).
  split; simpl; try done; subst seq; u64.
Qed.

(** The level of the residual, extended or new, is well formed. *)
Lemma rest_level_ok lv1 l0 lv2 :
  get_levels ref b = lv1 ++ (p, l0) :: lv2 \/
  get_levels ref b = lv1 ++ lv2 /\ l0 = empty_level /\ p ∉ keys (get_levels ref b) ->
  map_sorted (key_comp ref) (lv1 ++ (p, l0) :: lv2) ->
  let lv' := lv1 ++ (p, level_add_total q (level_push_back n l0)) :: lv2 in
  levels_ok ref lv' /\
  (exists ns1 ns2, level_nodes (get_levels ref b) = ns1 ++ ns2 /\ level_nodes lv' = ns1 ++ n :: ns2) /\
  (forall k, k ∈ keys lv' -> k = p \/ k ∈ keys (get_levels ref b)).
Proof.
  intros Hlv Hs lv'. pose proof (Inv_levels ref b HI) as Hok. pose proof resting_node_ok as Hn.
  unfold lv', level_add_total, level_push_back; cbn [orders total_quantity].
  destruct Hlv as [Hg|(Hg & -> & Hk)]; rewrite Hg in *.
  - destruct (levels_ok_split _ _ _ _ _ Hok) as (Hl & _ & Hk1 & _).
    assert (total_quantity l0 + q < U64_MOD /\ 0 <= total_quantity l0) as [Hb Ht].
    { pose proof (level_ok_sum_nonneg _ _ _ _ Hl (reflexivity _)) as Hnn.
      destruct Hl as [_ _ _ _ Et Eb]; simpl in Et, Eb.
      unfold resting_overflows in Hover; rewrite Hg, map_find_split in Hover by done.
      destruct Hwf as (_ & _ & _ & ?).
      rewrite would_overflow_spec in Hover by u64; reflect; lia. }
    rewrite add64_small by lia. split_and!.
    + eapply levels_ok_replace; [exact Hok|]. apply (level_ok_push ref p l0 n); try done.
      pose proof (pool_limit _ _ _ _ _ (inv_pool _ HI)) as Hlim.
      rewrite (nodes_perm ref), Hg, level_nodes_split in Hlim.
      apply Forall_app in Hlim as [[_ [Hlim _]%Forall_app]%Forall_app _].
      eapply Forall_impl; [exact Hlim|]. intros m [_ Hm]. unfold seq_limit in Hm.
      rewrite (proj2 (Z.eqb_neq _ 0)) in Hm by done. exact Hm.
    + exists (level_nodes lv1 ++ orders l0), (level_nodes lv2).
      rewrite !level_nodes_split. cbn [orders]. by rewrite <- !app_assoc.
    + intros k. rewrite keys_app. simpl. rewrite elem_of_app, elem_of_cons.
      change ((lv2).*1) with (keys lv2). rewrite keys_app. set_solver.
  - cbn [orders total_quantity empty_level]. rewrite app_nil_l, add64_small by (destruct Hwf; u64).
    rewrite Z.add_0_l. split_and!.
    + apply levels_ok_insert; [done| |].
      * by eapply map_sorted_replace.
      * apply (level_ok_singleton ref p n); [destruct Hwf as (_ & _ & ? & _); subst p; u64|done].
    + exists (level_nodes lv1), (level_nodes lv2). rewrite level_nodes_app, level_nodes_split. done.
    + intros k. rewrite !keys_app. simpl. change ((lv2).*1) with (keys lv2). set_solver.
Qed.

(** The book with the residual resting satisfies the invariant. *)
Lemma rest_Inv lv' :
  levels_ok ref lv' ->
  (exists ns1 ns2, level_nodes (get_levels ref b) = ns1 ++ ns2 /\ level_nodes lv' = ns1 ++ n :: ns2) ->
  (forall k, k ∈ keys lv' -> k = p \/ k ∈ keys (get_levels ref b)) ->
  Inv (set_next_arrival_sequence (add64 seq 1)
         (set_levels ref lv'
            (set_active (<[nlo_id incoming := locator_of n]> (active_orders b))
               (set_next_node (next_node b + 1) b)))).
Proof.
  intros Hlv' (ns1 & ns2 & E1 & E2) Hk.
  pose proof HI as HI'. apply (Inv_by_ref ref) in HI' as (H1 & H2 & H3 & H4 & H5 & H6).
  assert (pool_ok (level_nodes lv' ++ level_nodes (get_levels (opposite ref) b))
            (<[nlo_id incoming := locator_of n]> (active_orders b)) (seen_order_ids b)
            (seq_limit (add64 seq 1)) (next_node b + 1)) as Hpool.
  { rewrite E2. eapply pool_ok_perm; [|].
    { rewrite <- app_assoc, <- app_comm_cons. by rewrite <- Permutation_middle. }
    subst seq. rewrite seq_limit_succ by done.
    rewrite (nodes_perm ref) in Hnew. rewrite E1, <- app_assoc in *.
    apply (pool_ok_add _ _ _ _ n); try done.
    - unfold seq_limit. by rewrite (proj2 (Z.eqb_neq _ 0)).
    - apply seq_limit_range. done. }
  apply (Inv_by_ref ref).
  assert (forall p' k, p' ∈ keys lv' -> k ∈ keys (get_levels (opposite ref) b) ->
            key_comp (opposite ref) p' k = true) as Hun.
  { intros p' k [->|Hp']%Hk Hk'; auto. }
  pose proof (add64_range seq 1).
  destruct ref; simpl in *; split_and!; done.
Qed.

Lemma insert_resting_order_spec fault :
  if alloc_throws fault EmplaceLevel || alloc_throws fault PushBackOrder
     || alloc_throws fault EmplaceActive
  then exists k, next_node b <= k /\
         insert_resting_order fault ref incoming q seq b = Threw (set_next_node k b)
  else exists b',
         insert_resting_order fault ref incoming q seq b = Returned b' tt /\
         next_arrival_sequence b' = seq /\
         Inv (set_next_arrival_sequence (add64 seq 1) b') /\
         next_trade_id b' = next_trade_id b /\ seen_order_ids b' = seen_order_ids b /\
         get_levels (opposite ref) b' = get_levels (opposite ref) b /\
         (exists ns1 ns2, level_nodes (get_levels ref b) = ns1 ++ ns2 /\
            level_nodes (get_levels ref b') = ns1 ++ n :: ns2).
Proof.
  assert (active_orders b !! nlo_id incoming = None) as Hact.
  { rewrite (pool_active _ _ _ _ _ (inv_pool _ HI)). by apply index_nodes_lookup_None. }
  pose proof (insert_resting_order_effect fault ref incoming q seq b
                (lv_sorted _ _ (Inv_levels ref b HI)) Hact) as He. simpl in He.
  destruct (alloc_throws fault EmplaceLevel || _ || _); [done|].
  destruct He as (lv1 & l0 & lv2 & Hlv & Hs & _ & _ & He).
  destruct (rest_level_ok lv1 l0 lv2 Hlv Hs) as (R1 & R2 & R3).
  eexists. split; [exact He|]. split; [by destruct ref|]. split; [by apply rest_Inv|].
  split; [by destruct ref|]. split; [by destruct ref|]. split; [by destruct ref|].
  by rewrite get_set_levels.
Qed.

End rest.

(** ** Executing an accepted order *)

(** The container an order is matched against. *)
Definition match_ref (o : NewLimitOrder) : LevelsRef :=
  if nlo_side o =? Buy then AskLevels else BidLevels.

(** The fills and the residual of an order. *)
Definition submit_fills (b : Impl) (o : NewLimitOrder) : list (ListNode * Z) :=
  sweep (fun k => crosses (match_ref o) k (nlo_limit_price o)) (nlo_quantity o)
    (level_nodes (get_levels (match_ref o) b)).

Definition submit_residual (b : Impl) (o : NewLimitOrder) : Z :=
  nlo_quantity o - filled (submit_fills b o).

(** The conditions under which an order is accepted. *)
Record accept (b : Impl) (o : NewLimitOrder) : Prop := {
  acc_id : 0 < nlo_id o;
  acc_side : nlo_side o = side_of (opposite (match_ref o));
  acc_price : 0 < nlo_limit_price o;
  acc_quantity : 0 < nlo_quantity o;
  acc_new : nlo_id o ∉ seen_order_ids b;
  acc_trade_ids : ids_available (next_trade_id b) (length (submit_fills b o));
  acc_sequence : 0 < submit_residual b o -> next_arrival_sequence b <> 0;
  acc_overflow : 0 < submit_residual b o ->
    resting_overflows (opposite (match_ref o)) b (nlo_limit_price o) (submit_residual b o) = false;
}.

(** The two sides of the book after an order was executed: the opposite side
    is what the sweep leaves, and a residual is inserted on its own side. *)
Definition matched (b : Impl) (o : NewLimitOrder) (b' : Impl) : Prop :=
  level_nodes (get_levels (match_ref o) b') =
    sweep_rest (fun k => crosses (match_ref o) k (nlo_limit_price o)) (nlo_quantity o)
      (level_nodes (get_levels (match_ref o) b)) /\
  seen_order_ids b' = {[nlo_id o]} ∪ seen_order_ids b /\
  next_trade_id b' = add64 (next_trade_id b) (Z.of_nat (length (submit_fills b o))).

Definition rested (b : Impl) (o : NewLimitOrder) (b' : Impl) : Prop :=
  let own := opposite (match_ref o) in
  if 0 <? submit_residual b o then
    next_arrival_sequence b' = add64 (next_arrival_sequence b) 1 /\
    exists ns1 ns2,
      level_nodes (get_levels own b) = ns1 ++ ns2 /\
      level_nodes (get_levels own b') =
        ns1 ++ resting_node b o (submit_residual b o) (next_arrival_sequence b) :: ns2
  else next_arrival_sequence b' = next_arrival_sequence b /\
       get_levels own b' = get_levels own b.

(** The own side when the residual could not be rested: exactly as before. *)
Definition not_rested (b : Impl) (o : NewLimitOrder) (b' : Impl) : Prop :=
  get_levels (opposite (match_ref o)) b' = get_levels (opposite (match_ref o)) b /\
  next_arrival_sequence b' = next_arrival_sequence b.

Lemma Inv_set_seen b id : Inv b -> Inv (set_seen ({[id]} ∪ seen_order_ids b) b).
Proof.
  intros [H1 H2 H3 H4 H5 H6]. split; try done. simpl.
  eapply pool_ok_weaken; [exact H4|set_solver|lia|lia].
Qed.

Lemma Inv_set_next_node b k : Inv b -> next_node b <= k -> Inv (set_next_node k b).
Proof.
  intros [H1 H2 H3 H4 H5 H6] Hk. split; try done. simpl.
  eapply pool_ok_weaken; [exact H4|done|lia|lia].
Qed.

Lemma Inv_set_next_trade_id b k : Inv b -> is_u64 k -> Inv (set_next_trade_id k b).
Proof. intros [H1 H2 H3 H4 H5 H6] Hk. by split. Qed.

(** An id that was never seen does not rest in the book. *)
Lemma Inv_unseen b id : Inv b -> id ∉ seen_order_ids b -> id ∉ (node_id <$> nodes b).
Proof.
  intros HI Hid (n & -> & Hin)%list_elem_of_fmap.
  pose proof (pool_seen _ _ _ _ _ (inv_pool _ HI)) as Hs.
  by eapply Forall_forall in Hs.
Qed.

Lemma match_side o rem trades b :
  (if nlo_side o =? Buy
   then match_orders AskLevels o ask_crosses rem trades b
   else match_orders BidLevels o bid_crosses rem trades b) =
  match_orders (match_ref o) o (crosses (match_ref o)) rem trades b.
Proof. unfold match_ref. by destruct (nlo_side o =? Buy). Qed.

Lemma rest_side fault o q seq b :
  (if nlo_side o =? Buy
   then insert_resting_order fault BidLevels o q seq b
   else insert_resting_order fault AskLevels o q seq b) =
  insert_resting_order fault (opposite (match_ref o)) o q seq b.
Proof. unfold match_ref. by destruct (nlo_side o =? Buy). Qed.

(** The matching phase of [submit], up to the asserts that compare it with the
    plan. *)
Lemma submit_match_spec b o :
  Inv b -> wf_order o -> accept b o ->
  let b1 := set_seen ({[nlo_id o]} ∪ seen_order_ids b) b in
  exists b2,
    match_orders (match_ref o) o (crosses (match_ref o)) (nlo_quantity o) [] b1 =
      Returned b2 (submit_residual b o,
                   trades_of (next_trade_id b) (nlo_id o) (submit_fills b o)) /\
    Inv b2 /\ matched b o b2 /\
    next_arrival_sequence b2 = next_arrival_sequence b /\ next_node b2 = next_node b /\
    get_levels (opposite (match_ref o)) b2 = get_levels (opposite (match_ref o)) b.
Proof.
  intros HI Hwf Hacc b1.
  assert (forall ref, get_levels ref b1 = get_levels ref b) as Eg by (by intros []).
  destruct (match_orders_spec (match_ref o) o (nlo_quantity o) [] b1)
    as (b2 & E & HI2 & [F1 F2 F3 F4] & Hns & Ht); [by apply Inv_set_seen|by destruct Hwf as (_&_&_&?)| |].
  { rewrite Eg. apply Hacc. }
  rewrite Eg in *. exists b2. by split_and!.
Qed.

(** The residual of an accepted order can rest in the matched book. *)
Lemma submit_rest_spec fault b o b2 :
  Inv b -> wf_order o -> accept b o -> 0 < submit_residual b o ->
  Inv b2 -> matched b o b2 ->
  next_arrival_sequence b2 = next_arrival_sequence b -> next_node b2 = next_node b ->
  get_levels (opposite (match_ref o)) b2 = get_levels (opposite (match_ref o)) b ->
  let own := opposite (match_ref o) in
  let r := insert_resting_order fault own o (submit_residual b o) (next_arrival_sequence b2) b2 in
  if alloc_throws fault EmplaceLevel || alloc_throws fault PushBackOrder
     || alloc_throws fault EmplaceActive
  then exists b', r = Threw b' /\ Inv b' /\ matched b o b' /\ not_rested b o b'
  else exists b3, r = Returned b3 tt /\
    let b' := set_next_arrival_sequence (add64 (next_arrival_sequence b3) 1) b3 in
    Inv b' /\ matched b o b' /\ rested b o b'.
Proof.
  intros HI Hwf Hacc Hres HI2 (Hm & Hsn & Htid) Hseq Hnode Hown own r.
  pose proof (levels_ok_positive _ _ (Inv_levels (match_ref o) b HI)) as Hpos.
  assert (nlo_id o ∉ (node_id <$> nodes b2)) as Hnew.
  { pose proof (Inv_unseen _ _ HI (acc_new _ _ Hacc)) as Hu.
    rewrite (nodes_perm (match_ref o)), fmap_app, not_elem_of_app in Hu |- *.
    rewrite Hm, Hown. destruct Hu as [Hu1 Hu2]. split; [|done].
    by intros Hin%sweep_rest_ids. }
  assert (submit_residual b o <= nlo_quantity o) as Hle.
  { unfold submit_residual, submit_fills. pose proof (acc_quantity _ _ Hacc).
    pose proof (filled_range (fun k => crosses (match_ref o) k (nlo_limit_price o))
                  (nlo_quantity o) _ Hpos). lia. }
  pose proof (insert_resting_order_spec own b2 o (submit_residual b o) HI2 Hwf
    (acc_side _ _ Hacc) (acc_id _ _ Hacc) (acc_price _ _ Hacc) (conj Hres Hle)) as Hins.
  rewrite Hseq in *. specialize (Hins (acc_sequence _ _ Hacc Hres) Hnew).
  specialize (Hins ltac:(rewrite Hsn; set_solver)).
  specialize (Hins ltac:(unfold resting_overflows; subst own; rewrite Hown; by apply Hacc)).
  specialize (Hins ltac:(subst own; rewrite opposite_involutive;
    eapply residual_uncrossed; [exact HI2|exact Hpos|exact Hm|done|done]) fault).
  subst r. rewrite Hseq. destruct (alloc_throws fault EmplaceLevel || _ || _).
  - destruct Hins as (k & Hk & ->). eexists. split; [reflexivity|].
    split; [by apply Inv_set_next_node|]. unfold matched, not_rested.
    rewrite !get_levels_set_next_node. by split_and!.
  - destruct Hins as (b3 & -> & E1 & HI3 & E2 & E3 & E4 & ns1 & ns2 & E5 & E6).
    exists b3. split; [done|]. rewrite E1. split; [done|].
    assert (forall ref, get_levels ref (set_next_arrival_sequence
       (add64 (next_arrival_sequence b) 1) b3) = get_levels ref b3) as Eg by (by intros []).
    split; [split; [|split]|].
    + rewrite Eg. subst own. rewrite opposite_involutive in E4. by rewrite E4, Hm.
    + simpl. by rewrite E3, Hsn.
    + simpl. by rewrite E2, Htid.
    + unfold rested. rewrite (proj2 (Z.ltb_lt _ _)) by done. split; [done|].
      exists ns1, ns2. rewrite Eg, <- Hown. split; [done|].
      etrans; [exact E6|]. unfold resting_node. by rewrite Hnode.
Qed.

Definition alloc_before_match (fault : option AllocSite) : bool :=
  alloc_throws fault ReserveTrades || alloc_throws fault InsertSeenId.
Definition alloc_while_resting (fault : option AllocSite) : bool :=
  alloc_throws fault EmplaceLevel || alloc_throws fault PushBackOrder
  || alloc_throws fault EmplaceActive.

Lemma submit_execute_spec fault b o :
  Inv b -> wf_order o -> accept b o ->
  let plan := mkMatchPlan (submit_residual b o) (Z.of_nat (length (submit_fills b o))) in
  if alloc_before_match fault then submit_execute fault o plan b = Threw b
  else if (0 <? submit_residual b o) && alloc_while_resting fault
  then exists b', submit_execute fault o plan b = Threw b' /\ Inv b' /\ matched b o b' /\
         not_rested b o b'
  else exists b',
    submit_execute fault o plan b =
      Returned b' (trades_of (next_trade_id b) (nlo_id o) (submit_fills b o)) /\
    Inv b' /\ matched b o b' /\ rested b o b'.
Proof.
  intros HI Hwf Hacc plan. unfold submit_execute, alloc_before_match.
  destruct (alloc_throws fault ReserveTrades); [done|].
  destruct (alloc_throws fault InsertSeenId); [done|]. simpl.
  rewrite bool_decide_false by apply Hacc. simpl. rewrite match_side.
  destruct (submit_match_spec b o HI Hwf Hacc) as (b2 & -> & HI2 & Hm & Hs & Hn & Ho).
  simpl. rewrite Z.eqb_refl, trades_of_length, Z.eqb_refl. simpl.
  destruct (0 <? submit_residual b o) eqn:Er; simpl.
  - rewrite rest_side. reflect.
    pose proof (submit_rest_spec fault b o b2 HI Hwf Hacc Er HI2 Hm Hs Hn Ho) as Hr. simpl in Hr.
    unfold alloc_while_resting. destruct (alloc_throws fault EmplaceLevel || _ || _).
    + destruct Hr as (b' & -> & ? & ? & ?). by exists b'.
    + destruct Hr as (b3 & -> & ? & ? & ?). eexists. by split.
  - exists b2. unfold rested. rewrite Er. by split_and!.
Qed.

(** ** [submit] *)

#[export] Instance ids_available_dec tid k : Decision (ids_available tid k).
Proof. unfold ids_available. apply _. Defined.

(** The live orders of a side with a given price, and the quantity they
    add up to. *)
Definition orders_at (ref : LevelsRef) (b : Impl) (p : Price) : list ListNode :=
  filter (fun n => node_price n = p) (level_nodes (get_levels ref b)).
Definition quantity_at (ref : LevelsRef) (b : Impl) (p : Price) : Z :=
  sum_rem (orders_at ref b p).

(** The reason for which an order is refused, read off the live orders. *)
Definition rejection (b : Impl) (o : NewLimitOrder) : option RejectionReason :=
  if nlo_id o =? 0 then Some InvalidOrderId
  else if negb ((nlo_side o =? Buy) || (nlo_side o =? Sell)) then Some InvalidSide
  else if nlo_limit_price o =? 0 then Some InvalidPrice
  else if nlo_quantity o =? 0 then Some InvalidQuantity
  else if bool_decide (nlo_id o ∈ seen_order_ids b) then Some DuplicateOrderId
  else if negb (bool_decide (ids_available (next_trade_id b) (length (submit_fills b o))))
  then Some TradeIdExhausted
  else if (0 <? submit_residual b o) && (next_arrival_sequence b =? 0)
  then Some SequenceExhausted
  else if (0 <? submit_residual b o) &&
          (U64_MAX <? quantity_at (opposite (match_ref o)) b (nlo_limit_price o)
                      + submit_residual b o)
  then Some QuantityOverflow
  else None.

Definition accepted_result (b : Impl) (o : NewLimitOrder) : SubmitResult :=
  {| sr_status := Accepted;
     sr_rejection_reason := None;
     sr_executed_quantity := filled (submit_fills b o);
     sr_resting_quantity := submit_residual b o;
     sr_trades := trades_of (next_trade_id b) (nlo_id o) (submit_fills b o) |}.

Lemma filter_price_other ref lv p :
  levels_ok ref lv -> p ∉ keys lv -> filter (fun n => node_price n = p) (level_nodes lv) = [].
Proof.
  intros Hok Hp. apply filter_none, Forall_forall. intros n Hn E. apply Hp.
  rewrite <- E. by apply (levels_ok_node ref lv n Hok).
Qed.

Lemma filter_price_all ref p l :
  level_ok ref (p, l) -> filter (fun n => node_price n = p) (orders l) = orders l.
Proof.
  intros [_ _ Ho _ _ _]. apply filter_all. eapply Forall_impl; [exact Ho|]. by intros n [].
Qed.

(** The cached total of a level is the quantity resting at its price. *)
Lemma orders_at_level ref b p :
  Inv b ->
  orders_at ref b p =
    match map_find p (get_levels ref b) with Some l => orders l | None => [] end.
Proof.
  intros HI. pose proof (Inv_levels ref b HI) as Hok. unfold orders_at.
  destruct (map_find p (get_levels ref b)) as [l|] eqn:E.
  - apply map_find_Some_split in E as (lv1 & lv2 & Eg & Hk). rewrite Eg in *.
    destruct (levels_ok_split _ _ _ _ _ Hok) as (Hl & Hok' & _ & Hk2).
    rewrite level_nodes_split, !filter_app, (filter_price_all ref p l) by done.
    pose proof (filter_price_other ref (lv1 ++ lv2) p Hok') as Hf.
    rewrite keys_app, not_elem_of_app, level_nodes_app, filter_app in Hf.
    destruct (app_eq_nil _ _ (Hf (conj Hk Hk2))) as [-> ->].
    by rewrite app_nil_l, app_nil_r.
  - apply map_find_None in E. by rewrite (filter_price_other ref).
Qed.

Lemma quantity_at_level ref b p :
  Inv b ->
  quantity_at ref b p =
    match map_find p (get_levels ref b) with Some l => total_quantity l | None => 0 end.
Proof.
  intros HI. unfold quantity_at. rewrite orders_at_level by done.
  destruct (map_find p (get_levels ref b)) as [l|] eqn:E; [|done].
  apply map_find_Some_split in E as (lv1 & lv2 & Eg & _).
  pose proof (Inv_levels ref b HI) as Hok. rewrite Eg in Hok.
  destruct (levels_ok_split _ _ _ _ _ Hok) as (Hl & _). symmetry. apply Hl.
Qed.

Lemma resting_overflows_spec ref b p q :
  Inv b -> is_u64 q ->
  resting_overflows ref b p q = (U64_MAX <? quantity_at ref b p + q).
Proof.
  intros HI Hq. rewrite quantity_at_level by done. unfold resting_overflows.
  destruct (map_find p (get_levels ref b)) as [l|] eqn:E.
  - apply map_find_Some_split in E as (lv1 & lv2 & Eg & Hk).
    pose proof (Inv_levels ref b HI) as Hok. rewrite Eg in Hok.
    destruct (levels_ok_split _ _ _ _ _ Hok) as (Hl & _).
    pose proof (level_ok_sum_nonneg _ _ _ _ Hl (reflexivity _)).
    destruct Hl as [_ _ _ _ Et Eb]. simpl in *. apply would_overflow_spec; u64.
  - symmetry. apply Z.ltb_ge. u64.
Qed.

Lemma submit_residual_range b o :
  Inv b -> wf_order o -> 0 <= submit_residual b o <= nlo_quantity o.
Proof.
  intros HI (_ & _ & _ & Hq). unfold submit_residual, submit_fills.
  pose proof (filled_range (fun k => crosses (match_ref o) k (nlo_limit_price o)) (nlo_quantity o) _
    (levels_ok_positive _ _ (Inv_levels (match_ref o) b HI))). u64.
Qed.

Lemma submit_plan b o :
  Inv b -> wf_order o ->
  (if nlo_side o =? Buy
   then preview_match (asks b) (nlo_limit_price o) (nlo_quantity o) ask_crosses
   else preview_match (bids b) (nlo_limit_price o) (nlo_quantity o) bid_crosses) =
  mkMatchPlan (submit_residual b o) (Z.of_nat (length (submit_fills b o))).
Proof.
  intros HI (_ & _ & _ & Hq). unfold submit_residual, submit_fills, match_ref.
  destruct (nlo_side o =? Buy).
  - apply (preview_match_spec AskLevels); done.
  - apply (preview_match_spec BidLevels); done.
Qed.

Lemma overflow_side o b q :
  (if nlo_side o =? Buy
   then resting_overflows BidLevels b (nlo_limit_price o) q
   else resting_overflows AskLevels b (nlo_limit_price o) q) =
  resting_overflows (opposite (match_ref o)) b (nlo_limit_price o) q.
Proof. unfold match_ref. by destruct (nlo_side o =? Buy). Qed.

Lemma rejection_None b o : Inv b -> wf_order o -> rejection b o = None -> accept b o.
Proof.
  intros HI Hwf. pose proof (submit_residual_range b o HI Hwf) as Hr.
  destruct Hwf as (Hw1 & Hw2 & Hw3 & Hw4). unfold rejection.
  destruct (Z.eqb_spec (nlo_id o) 0); [done|].
  destruct (negb _) eqn:Es; [done|]. apply negb_false_iff in Es.
  destruct (Z.eqb_spec (nlo_limit_price o) 0); [done|].
  destruct (Z.eqb_spec (nlo_quantity o) 0); [done|].
  case_bool_decide; [done|]. case_bool_decide; [|done]. simpl.
  intros Hd. split; try done; try u64.
  - unfold match_ref. destruct (nlo_side o =? Buy) eqn:E; reflect; simpl in *; reflect; done.
  - intros Hp Hz. by rewrite Hz, (proj2 (Z.ltb_lt _ _) Hp) in Hd.
  - intros Hp. rewrite resting_overflows_spec by (done || u64).
    rewrite (proj2 (Z.ltb_lt 0 _)) in Hd by done. simpl in Hd.
    destruct (next_arrival_sequence b =? 0); [done|]. by destruct (U64_MAX <? _).
Qed.

Lemma submit_spec fault b o :
  Inv b -> wf_order o ->
  match rejection b o with
  | Some r => submit fault b o = Returned b (rejected r)
  | None =>
    accept b o /\
    if alloc_before_match fault then submit fault b o = Threw b
    else if (0 <? submit_residual b o) && alloc_while_resting fault
    then exists b', submit fault b o = Threw b' /\ Inv b' /\ matched b o b' /\ not_rested b o b'
    else exists b',
      submit fault b o = Returned b' (accepted_result b o) /\
      Inv b' /\ matched b o b' /\ rested b o b'
  end.
Proof.
  intros HI Hwf. pose proof (rejection_None b o HI Hwf) as Hacc. revert Hacc.
  pose proof (submit_residual_range b o HI Hwf) as Hr.
  unfold rejection, submit. rewrite submit_plan by done. cbn [mp_remaining_quantity mp_trade_count].
  rewrite overflow_side, resting_overflows_spec by (destruct Hwf as (_&_&_&?); done || u64).
  destruct (Z.eqb_spec (nlo_id o) 0); [done|]. unfold is_valid_side.
  destruct (negb ((nlo_side o =? Buy) || _)); [done|].
  destruct (Z.eqb_spec (nlo_limit_price o) 0); [done|].
  destruct (Z.eqb_spec (nlo_quantity o) 0); [done|].
  case_bool_decide; [done|].
  destruct (can_issue_trade_ids b (Z.of_nat (length (submit_fills b o)))) eqn:Eids.
  2:{ rewrite bool_decide_false; [done|]. rewrite <- can_issue_trade_ids_spec by apply HI.
      by rewrite Eids. }
  rewrite bool_decide_true by (by apply can_issue_trade_ids_spec; [apply HI|]). simpl.
  destruct ((0 <? submit_residual b o) && (next_arrival_sequence b =? 0)); [done|].
  destruct ((0 <? submit_residual b o) && (U64_MAX <? _)); [done|].
  intros Ha. specialize (Ha eq_refl). split; [done|].
  pose proof (submit_execute_spec fault b o HI Hwf Ha) as He. simpl in He.
  destruct (alloc_before_match fault); [by rewrite He|].
  destruct ((0 <? submit_residual b o) && alloc_while_resting fault).
  - destruct He as (b' & -> & ?). by exists b'.
  - destruct He as (b' & -> & HI' & ?). exists b'. split; [|done]. simpl.
    rewrite Inv_invariants_hold by done. simpl. f_equal. unfold accepted_result.
    rewrite sub64_small by (destruct Hwf as (_&_&_&?); u64). f_equal. unfold submit_residual. lia.
Qed.

(** ** [cancel] *)

Lemma list_erase_split l1 n l2 :
  node_addr n ∉ (node_addr <$> l1) -> list_erase (node_addr n) (l1 ++ n :: l2) = Some (l1 ++ l2).
Proof.
  induction l1 as [|m l1 IH]; simpl.
  - intros _. by rewrite Z.eqb_refl.
  - rewrite not_elem_of_cons. intros [Hne Hn].
    rewrite (proj2 (Z.eqb_neq _ _)) by done. by rewrite IH.
Qed.

(** Where a live node is. *)
Lemma Inv_node_place b n :
  Inv b -> n ∈ nodes b ->
  exists ref lv1 l lv2 l1 l2,
    ro_side (node_order n) = side_of ref /\
    get_levels ref b = lv1 ++ (node_price n, l) :: lv2 /\ node_price n ∉ keys lv1 /\
    orders l = l1 ++ n :: l2 /\ node_addr n ∉ (node_addr <$> l1) /\ level_ok ref (node_price n, l).
Proof.
  intros HI Hn.
  assert (exists ref, n ∈ level_nodes (get_levels ref b)) as [ref Hin].
  { apply elem_of_app in Hn as [Hn|Hn]; [by exists BidLevels|by exists AskLevels]. }
  pose proof (Inv_levels ref b HI) as Hok.
  destruct (levels_ok_node _ _ _ Hok Hin) as [[Hs _ _ _ _ _] _].
  apply level_nodes_elem_of in Hin as (p & l & Hpl & Hin).
  apply list_elem_of_split in Hpl as (lv1 & lv2 & Eg). rewrite Eg in Hok.
  destruct (levels_ok_split _ _ _ _ _ Hok) as (Hl & _ & Hk & _).
  apply list_elem_of_split in Hin as (l1 & l2 & Eo).
  assert (node_price n = p) as Ep.
  { destruct Hl as [_ _ Ho _ _ _]. simpl in Ho. rewrite Eo in Ho.
    apply Forall_app in Ho as [_ [[] _]%Forall_cons]. done. }
  exists ref, lv1, l, lv2, l1, l2. rewrite Ep. split_and!; try done.
  pose proof (pool_addrs _ _ _ _ _ (inv_pool _ HI)) as Ha.
  rewrite (nodes_perm ref), Eg, level_nodes_split, Eo in Ha.
  rewrite !fmap_app, fmap_cons in Ha. rewrite <- !app_assoc in Ha.
  apply NoDup_app in Ha as (_ & _ & Ha). apply NoDup_app in Ha as (_ & Ha & _).
  intros Hin. apply (Ha _ Hin). simpl. apply elem_of_cons. by left.
Qed.

(** The container of a level without one of its orders. *)
Definition erase_node (lv1 : list (Z * PriceLevel)) (p : Z) (l : PriceLevel) (n : ListNode)
    (rest : list ListNode) (lv2 : list (Z * PriceLevel)) : list (Z * PriceLevel) :=
  match rest with
  | [] => lv1 ++ lv2
  | _ => lv1 ++ (p, mkPriceLevel rest (total_quantity l - node_rem n)) :: lv2
  end.

Lemma erase_node_ok ref lv1 p l n l1 l2 lv2 :
  levels_ok ref (lv1 ++ (p, l) :: lv2) -> orders l = l1 ++ n :: l2 ->
  levels_ok ref (erase_node lv1 p l n (l1 ++ l2) lv2) /\
  level_nodes (erase_node lv1 p l n (l1 ++ l2) lv2) =
    (level_nodes lv1 ++ l1) ++ l2 ++ level_nodes lv2 /\
  keys (erase_node lv1 p l n (l1 ++ l2) lv2) ⊆ keys (lv1 ++ (p, l) :: lv2).
Proof.
  intros Hok Eo. destruct (levels_ok_split _ _ _ _ _ Hok) as (Hl & Hok' & _).
  unfold erase_node. destruct (l1 ++ l2) as [|m rest] eqn:E.
  - apply app_eq_nil in E as [-> ->]. split_and!; [done| |].
    + by rewrite level_nodes_app, app_nil_r.
    + rewrite !keys_app. simpl. set_solver.
  - rewrite <- E. split_and!.
    + eapply levels_ok_replace; [exact Hok|]. apply level_ok_remove; [done|done|by rewrite E].
    + rewrite level_nodes_split. simpl. by rewrite <- !app_assoc.
    + rewrite !keys_app. reflexivity.
Qed.

(** A book without one of its live orders. *)
Definition removed (n : ListNode) (b b' : Impl) : Prop :=
  exists ref ns1 ns2,
    ro_side (node_order n) = side_of ref /\
    level_nodes (get_levels ref b) = ns1 ++ n :: ns2 /\
    level_nodes (get_levels ref b') = ns1 ++ ns2 /\
    get_levels (opposite ref) b' = get_levels (opposite ref) b /\
    seen_order_ids b' = seen_order_ids b /\
    next_arrival_sequence b' = next_arrival_sequence b /\
    next_trade_id b' = next_trade_id b.

Lemma cancel_side loc id b ref :
  loc_side loc = side_of ref ->
  (if loc_side loc =? Buy then cancel_resting_order BidLevels loc id b
   else cancel_resting_order AskLevels loc id b) = cancel_resting_order ref loc id b.
Proof. intros ->. by destruct ref. Qed.

(** [cancel_resting_order] on the locator of a live node. *)
Lemma cancel_resting_order_spec b n ref lv1 l lv2 l1 l2 :
  Inv b -> n ∈ nodes b ->
  get_levels ref b = lv1 ++ (node_price n, l) :: lv2 -> node_price n ∉ keys lv1 ->
  orders l = l1 ++ n :: l2 -> node_addr n ∉ (node_addr <$> l1) -> level_ok ref (node_price n, l) ->
  cancel_resting_order ref (locator_of n) (node_id n) b =
    Returned (set_levels ref (erase_node lv1 (node_price n) l n (l1 ++ l2) lv2) b) (node_rem n).
Proof.
  intros HI Hn Eg Hk Eo Ha Hl. unfold cancel_resting_order. simpl.
  rewrite Eg, map_find_split, (Inv_deref b n HI Hn) by done.
  change (ro_id (node_order n)) with (node_id n).
  change (ro_remaining_quantity (node_order n)) with (node_rem n). rewrite Z.eqb_refl. simpl.
  pose proof (level_ok_sum_nonneg _ _ _ (l1 ++ l2) Hl ltac:(rewrite Eo; set_solver)) as Hnn.
  assert (0 < node_rem n <= total_quantity l /\ total_quantity l < U64_MOD) as [Hr Hb].
  { destruct Hl as [_ _ Ho _ Et Eb]; simpl in *. rewrite Eo, sum_rem_app in *. simpl in *.
    apply Forall_app in Ho as [_ [[] _]%Forall_cons]. unfold node_rem in *. lia. }
  rewrite (proj2 (Z.eqb_neq _ 0)), (proj2 (Z.ltb_ge _ _)) by lia. simpl.
  rewrite Eo, list_erase_split by done. rewrite sub64_small by lia.
  by rewrite map_erase_split, map_update_split by done.
Qed.

Lemma cancel_found b n :
  Inv b -> n ∈ nodes b ->
  exists b', cancel b (node_id n) = Returned b' {| cr_status := Cancelled;
                                                   cr_cancelled_quantity := node_rem n |} /\
    Inv b' /\ removed n b b'.
Proof.
  intros HI Hn. unfold cancel.
  rewrite (pool_ok_lookup _ _ _ _ n _ (inv_pool _ HI) Hn).
  destruct (Inv_node_place b n HI Hn) as (ref & lv1 & l & lv2 & l1 & l2 & Hs & Eg & Hk & Eo & Ha & Hl).
  rewrite (cancel_side _ _ _ ref), (cancel_resting_order_spec b n ref lv1 l lv2 l1 l2) by done. simpl.
  pose proof (Inv_levels ref b HI) as Hok. rewrite Eg in Hok.
  destruct (erase_node_ok ref lv1 _ l n l1 l2 lv2 Hok Eo) as (R1 & R2 & R3).
  set (lv' := erase_node _ _ _ _ _ _) in *.
  assert (Inv (set_active (delete (node_id n) (active_orders (set_levels ref lv' b)))
                 (set_levels ref lv' b))) as HI'.
  { rewrite (proj1 (set_levels_fields ref lv' b)), <- set_levels_active.
    assert (b = set_next_trade_id (next_trade_id b) b) as Eb by (by destruct b).
    rewrite Eb at 2. apply Inv_replace_levels; try done; try apply HI.
    - by rewrite Eg.
    - pose proof (pool_ok_perm _ _ _ _ _ _ (nodes_perm ref b) (inv_pool _ HI)) as Hp.
      rewrite Eg, level_nodes_split, Eo in Hp. rewrite R2.
      apply pool_ok_remove. eapply pool_ok_perm; [|exact Hp].
      rewrite <- !app_assoc, <- app_comm_cons, (app_assoc (level_nodes lv1)).
      by rewrite <- Permutation_middle, <- !app_assoc. }
  rewrite Inv_invariants_hold by done. simpl. eexists. split; [done|]. split; [done|].
  exists ref, (level_nodes lv1 ++ l1), (l2 ++ level_nodes lv2).
  rewrite Eg, level_nodes_split, Eo.
  rewrite get_levels_set_active, get_set_levels.
  rewrite <- !app_assoc. split_and!; try done; try (by destruct ref).
  rewrite R2. by rewrite <- !app_assoc.
Qed.

Lemma cancel_spec b id :
  Inv b ->
  (id ∉ (node_id <$> nodes b) /\
   cancel b id = Returned b {| cr_status := NotFound; cr_cancelled_quantity := 0 |}) \/
  (exists n b', n ∈ nodes b /\ node_id n = id /\
     cancel b id = Returned b' {| cr_status := Cancelled; cr_cancelled_quantity := node_rem n |} /\
     Inv b' /\ removed n b b').
Proof.
  intros HI. destruct (active_orders b !! id) as [loc|] eqn:E.
  - right. destruct (Inv_active_node _ _ _ HI E) as (n & Hn & <- & _).
    destruct (cancel_found b n HI Hn) as (b' & ? & ? & ?). by exists n, b'.
  - left. unfold cancel. rewrite E. split; [|done].
    intros (n & -> & Hn)%list_elem_of_fmap.
    by rewrite (pool_ok_lookup _ _ _ _ n _ (inv_pool _ HI) Hn) in E.
Qed.

(** ** Executions *)

(** One operation on the book, with whatever it leaves behind: a submission
    with or without an allocation failure, a cancellation, or the test hook
    that moves the trade counter. *)
Inductive book_step : Impl -> Impl -> Prop :=
| step_submit fault b o b' :
    wf_order o -> final_state (submit fault b o) = Some b' -> book_step b b'
| step_cancel b id b' :
    is_u64 id -> final_state (cancel b id) = Some b' -> book_step b b'
| step_set_next_trade_id b id :
    is_u64 id -> book_step b (set_next_trade_id_for_testing b id).

Definition reachable (b : Impl) : Prop := rtc book_step new_book b.

(** Every outcome of [submit] keeps the invariant, and there is no crash. *)
Lemma submit_Inv fault b o :
  Inv b -> wf_order o -> exists b', final_state (submit fault b o) = Some b' /\ Inv b'.
Proof.
  intros HI Hwf. pose proof (submit_spec fault b o HI Hwf) as H.
  destruct (rejection b o); [rewrite H; by exists b|]. destruct H as [_ H].
  destruct (alloc_before_match fault); [rewrite H; by exists b|].
  destruct (_ && _).
  - destruct H as (b' & -> & ? & _). by exists b'.
  - destruct H as (b' & -> & ? & _). by exists b'.
Qed.

Lemma cancel_Inv b id :
  Inv b -> exists b' r, cancel b id = Returned b' r /\ Inv b'.
Proof.
  intros HI. destruct (cancel_spec b id HI) as [[_ ->]|(n & b' & _ & _ & -> & ? & _)]; eauto.
Qed.

Lemma book_step_Inv b b' : book_step b b' -> Inv b -> Inv b'.
Proof.
  intros [fault b1 o b2 Hwf Hs|b1 id b2 Hid Hs|b1 id Hid] HI.
  - destruct (submit_Inv fault _ _ HI Hwf) as (b'' & E & ?). congruence.
  - destruct (cancel_Inv b1 id HI) as (b'' & r & E & ?). rewrite E in Hs. simpl in Hs. congruence.
  - by apply Inv_set_next_trade_id.
Qed.

Lemma reachable_Inv b : reachable b -> Inv b.
Proof.
  unfold reachable. revert b. apply rtc_ind_r; [apply Inv_new_book|].
  intros. by eapply book_step_Inv.
Qed.
