(* ===== verification/OrderBookProps.v ===== *)
(** * What the order book guarantees

    The properties of the public operations, stated for every book that a
    sequence of operations can produce. *)
From S2P Require Import Prelude StdMap Types OrderBook OrderBookInv Matching OrderBookOps.

(** ** Traces of commands *)

Inductive Command := CSubmit (o : NewLimitOrder) | CCancel (id : OrderId).

Definition wf_command (c : Command) : Prop :=
  match c with CSubmit o => wf_order o | CCancel id => is_u64 id end.

#[export] Instance wf_command_dec c : Decision (wf_command c).
Proof. destruct c; simpl; [apply _|unfold is_u64; apply _]. Defined.

(** Run the commands without allocation failures, collecting the trades;
    [None] if one of them crashes. *)
Fixpoint run_commands (cs : list Command) (b : Impl) : option (Impl * list Trade) :=
  match cs with
  | [] => Some (b, [])
  | c :: cs' =>
      let next :=
        match c with
        | CSubmit o => match submit None b o with
                       | Returned b' r => Some (b', sr_trades r)
                       | _ => None
                       end
        | CCancel id => match cancel b id with
                        | Returned b' _ => Some (b', [])
                        | _ => None
                        end
        end in
      match next with
      | None => None
      | Some (b', ts) =>
          match run_commands cs' b' with
          | None => None
          | Some (b'', ts') => Some (b'', ts ++ ts')
          end
      end
  end.

Lemma run_commands_steps cs b b' ts :
  Forall wf_command cs -> run_commands cs b = Some (b', ts) -> rtc book_step b b'.
Proof.
  intros Hwf. revert b ts. induction Hwf as [|c cs Hc _ IH]; intros b ts; simpl.
  { intros [= <- <-]. constructor. }
  destruct c as [o|id].
  - destruct (submit None b o) as [b1 r|b1|] eqn:E; try done.
    destruct (run_commands cs b1) as [[b2 ts2]|] eqn:E2; try done.
    intros [= -> <-]. eapply rtc_l; [|by eapply IH].
    apply (step_submit None _ o); [done|]. by rewrite E.
  - destruct (cancel b id) as [b1 r|b1|] eqn:E; try done.
    destruct (run_commands cs b1) as [[b2 ts2]|] eqn:E2; try done.
    intros [= -> <-]. eapply rtc_l; [|by eapply IH].
    apply (step_cancel _ id); [done|]. by rewrite E.
Qed.

Lemma run_commands_reachable cs b ts :
  Forall wf_command cs -> run_commands cs new_book = Some (b, ts) -> reachable b.
Proof. apply run_commands_steps. Qed.

(** ** Facts about sweeps used below *)

(** An order that trades is reached only after every order ahead of it was
    filled completely. *)
Lemma sweep_reaches xs rem ns n q :
  positive_nodes ns -> (n, q) ∈ sweep xs rem ns ->
  exists ns1 ns2,
    ns = ns1 ++ n :: ns2 /\ 0 < rem - sum_rem ns1 /\ xs (node_price n) = true /\
    q = Z.min (rem - sum_rem ns1) (node_rem n) /\
    Forall (fun m => (m, node_rem m) ∈ sweep xs rem ns) ns1 /\
    sweep_rest xs rem ns = sweep_rest xs (rem - sum_rem ns1) (n :: ns2).
Proof.
  intros Hp. revert rem. induction Hp as [|m ns Hm Hp IH]; intros rem.
  { by intros ?%not_elem_of_nil. }
  cbn [sweep]. destruct ((0 <? rem) && xs (node_price m)) eqn:E.
  2:{ by intros ?%not_elem_of_nil. }
  destruct (andb_prop _ _ E) as [Hpos Hxs]. apply Z.ltb_lt in Hpos. intros [[= -> ->]|Hin]%elem_of_cons.
  - exists [], ns. simpl. rewrite Z.sub_0_r. split_and!; try done; lia.
  - assert (node_rem m < rem) as Hlt.
    { destruct (Z.lt_ge_cases (node_rem m) rem); [done|].
      rewrite Z.min_l, Z.sub_diag, sweep_zero in Hin by lia. by apply not_elem_of_nil in Hin. }
    rewrite Z.min_r in * by lia.
    destruct (IH _ Hin) as (ns1 & ns2 & -> & Hr & Hx & -> & Hf & Hs).
    exists (m :: ns1), ns2. simpl. rewrite Z.sub_add_distr. split_and!; try done.
    + constructor; [constructor|]. eapply Forall_impl; [exact Hf|].
      intros. by apply list_elem_of_further.
    + simpl. rewrite E, (proj2 (Z.leb_le _ _)) by lia. exact Hs.
Qed.

Lemma elem_of_trades_of t tid taker fs :
  t ∈ trades_of tid taker fs ->
  exists n q, (n, q) ∈ fs /\ maker_order_id t = node_id n /\ taker_order_id t = taker /\
    execution_price t = node_price n /\ execution_quantity t = q.
Proof.
  revert tid. induction fs as [|[n q] fs IH]; intros tid; simpl.
  - by intros ?%not_elem_of_nil.
  - intros [->|Hin]%elem_of_cons.
    + exists n, q. split; [constructor|done].
    + destruct (IH _ Hin) as (n' & q' & ? & ?). exists n', q'. split; [by constructor|done].
Qed.

Lemma trades_of_elem_of n q tid taker fs :
  (n, q) ∈ fs -> exists t, t ∈ trades_of tid taker fs /\
    maker_order_id t = node_id n /\ execution_quantity t = q.
Proof.
  revert tid. induction fs as [|[m p] fs IH]; intros tid; simpl.
  - by intros ?%not_elem_of_nil.
  - intros [[= -> ->]|Hin]%elem_of_cons.
    + eexists. split; [by constructor|]. done.
    + destruct (IH (tid + 1) Hin) as (t & ? & ?). exists t. split; [by constructor|done].
Qed.

Fixpoint sum_trades (ts : list Trade) : Z :=
  match ts with
  | [] => 0
  | t :: ts' => execution_quantity t + sum_trades ts'
  end.

Lemma sum_trades_of tid taker fs : sum_trades (trades_of tid taker fs) = filled fs.
Proof. revert tid. induction fs as [|[n q] fs IH]; intros; simpl; [done|]. by rewrite IH. Qed.

Lemma sum_rem_perm l1 l2 : l1 ≡ₚ l2 -> sum_rem l1 = sum_rem l2.
Proof. induction 1; simpl; lia. Qed.

Lemma sum_sweep_rest xs rem ns :
  positive_nodes ns -> sum_rem (sweep_rest xs rem ns) = sum_rem ns - filled (sweep xs rem ns).
Proof.
  intros Hp. revert rem. induction Hp as [|n ns Hn Hp IH]; intros rem; simpl; [done|].
  destruct ((0 <? rem) && xs (node_price n)) eqn:E; simpl; [|lia]. reflect.
  destruct (Z.leb_spec (node_rem n) rem).
  - rewrite Z.min_r, IH by lia. lia.
  - rewrite Z.min_l, Z.sub_diag, sweep_zero by lia. simpl. unfold node_rem. simpl. lia.
Qed.

Lemma trade_ids_of tid taker fs :
  trade_id <$> trades_of tid taker fs = seqZ tid (Z.of_nat (length fs)).
Proof.
  revert tid. induction fs as [|[n q] fs IH]; intros tid; simpl; [done|].
  rewrite seqZ_cons by lia. f_equal. rewrite IH. unfold Z.succ. f_equal. lia.
Qed.

(** [find] reports exactly the live orders. *)
Lemma find_order_spec b id :
  Inv b ->
  (id ∉ (node_id <$> nodes b) /\ find_order b id = Returned b None) \/
  (exists n, n ∈ nodes b /\ node_id n = id /\
     find_order b id = Returned b (Some (order_view (node_order n)))).
Proof.
  intros HI. unfold find_order. destruct (active_orders b !! id) as [loc|] eqn:E.
  - right. destruct (Inv_active_node _ _ _ HI E) as (n & Hn & Hid & ->).
    exists n. simpl. by rewrite (Inv_deref b n HI Hn).
  - left. split; [|done]. intros (n & -> & Hn)%list_elem_of_fmap.
    by rewrite (pool_ok_lookup _ _ _ _ n _ (inv_pool _ HI) Hn) in E.
Qed.

(** An accepted submission, read back. *)
Lemma submit_returned_cases b o b' r :
  Inv b -> wf_order o -> submit None b o = Returned b' r ->
  (exists reason, rejection b o = Some reason /\ b' = b /\ r = rejected reason) \/
  (accept b o /\ r = accepted_result b o /\ Inv b' /\ matched b o b' /\ rested b o b').
Proof.
  intros HI Hwf E. pose proof (submit_spec None b o HI Hwf) as H.
  destruct (rejection b o) as [reason|].
  - left. exists reason. rewrite H in E. by simplify_eq.
  - right. destruct H as [Ha H]. rewrite andb_false_r in H.
    destruct H as (b1 & E1 & ? & ? & ?). rewrite E1 in E. by simplify_eq.
Qed.

Lemma node_id_unique b m n :
  Inv b -> m ∈ nodes b -> n ∈ nodes b -> node_id m = node_id n -> m = n.
Proof.
  intros HI Hm Hn E. pose proof (pool_ids _ _ _ _ _ (inv_pool _ HI)) as Hnd.
  apply list_elem_of_lookup in Hm as [i Hi], Hn as [j Hj].
  assert (i = j) as ->; [|congruence].
  eapply NoDup_lookup; [exact Hnd| |]; rewrite list_lookup_fmap; [by rewrite Hi|].
  by rewrite Hj, E.
Qed.

(** The ids resting after an accepted order: what the sweep leaves on the
    opposite side, the own side as it was, and possibly the order itself. *)
Lemma accepted_ids b o b' id :
  Inv b -> accept b o -> matched b o b' -> rested b o b' -> id <> nlo_id o ->
  id ∈ (node_id <$> nodes b') ->
  id ∈ (node_id <$> level_nodes (get_levels (match_ref o) b')) \/
  id ∈ (node_id <$> level_nodes (get_levels (opposite (match_ref o)) b)).
Proof.
  intros HI Ha Hm Hr Hne. rewrite (nodes_perm (match_ref o)), fmap_app, elem_of_app.
  intros [?|Hin]; [by left|right]. unfold rested in Hr. destruct (0 <? submit_residual b o).
  - destruct Hr as (_ & ns1 & ns2 & E1 & E2). rewrite E1. rewrite E2 in Hin.
    rewrite fmap_app, fmap_cons, elem_of_app, elem_of_cons in Hin.
    rewrite fmap_app, elem_of_app. simpl in Hin. naive_solver.
  - destruct Hr as [_ Hr]. by rewrite Hr in Hin.
Qed.

(** An order the sweep filled completely no longer rests. *)
Lemma filled_maker_gone b o b' ns1 m ns2 n :
  Inv b -> accept b o -> matched b o b' -> rested b o b' ->
  level_nodes (get_levels (match_ref o) b) = ns1 ++ n :: ns2 -> m ∈ ns1 ->
  (node_id <$> level_nodes (get_levels (match_ref o) b')) ⊆ (node_id <$> n :: ns2) ->
  node_id m ∉ (node_id <$> nodes b').
Proof.
  intros HI Ha Hm Hr E Hin Hsub Habs.
  assert (m ∈ nodes b) as Hmb by (rewrite (nodes_perm (match_ref o)), E; set_solver).
  pose proof (pool_ids _ _ _ _ _ (inv_pool _ HI)) as Hnd.
  rewrite (nodes_perm (match_ref o)), E, !fmap_app in Hnd. rewrite <- app_assoc in Hnd.
  apply NoDup_app in Hnd as (_ & Hd & _).
  specialize (Hd (node_id m) ltac:(by apply list_elem_of_fmap_2)).
  assert (node_id m <> nlo_id o) as Hne.
  { intros Heq. apply (Inv_unseen b (nlo_id o) HI (acc_new _ _ Ha)). rewrite <- Heq.
    by apply list_elem_of_fmap_2. }
  apply Hd, elem_of_app.
  destruct (accepted_ids b o b' _ HI Ha Hm Hr Hne Habs) as [H|H]; auto.
Qed.

Lemma priority_before ref ns1 n ns2 m :
  StronglySorted (priority ref) (ns1 ++ n :: ns2) -> m ∈ ns1 ++ n :: ns2 -> priority ref m n -> m ∈ ns1.
Proof.
  intros Hs Hin Hp. apply elem_of_app in Hin as [|Hin]; [done|]. exfalso.
  assert (priority ref n n) as Habs.
  { apply elem_of_cons in Hin as [->|Hin]; [done|].
    apply StronglySorted_app_1_r in Hs. apply StronglySorted_cons in Hs as [Hs _].
    eapply Forall_forall in Hs; [|exact Hin]. clear -Hs Hp. unfold priority in *.
    destruct ref; simpl in *; unfold std_greater, std_less in *;
      rewrite !Z.ltb_lt in *; lia. }
  unfold priority in Habs. rewrite comp_irrefl in Habs. destruct Habs as [|[_ ?]]; [done|lia].
Qed.

(** The quantity resting in the whole book after a submission. *)
Lemma submit_sum b o b' :
  Inv b -> wf_order o -> matched b o b' -> rested b o b' ->
  sum_rem (nodes b') + filled (submit_fills b o) = sum_rem (nodes b) + submit_residual b o.
Proof.
  intros HI Hwf [Hm _] Hr.
  rewrite !(sum_rem_perm _ _ (nodes_perm (match_ref o) _)), !sum_rem_app, Hm.
  rewrite sum_sweep_rest by (by apply (levels_ok_positive (match_ref o)), Inv_levels).
  fold (submit_fills b o). unfold rested in Hr.
  destruct (Z.ltb_spec 0 (submit_residual b o)).
  - destruct Hr as (_ & ns1 & ns2 & E1 & E2). rewrite E1, E2, !sum_rem_app. simpl.
    unfold node_rem at 1. simpl. lia.
  - destruct Hr as [_ ->]. pose proof (submit_residual_range b o HI Hwf). lia.
Qed.

(** ** Safety of the operations *)

(** C6: on every reachable book, [submit] comes back, whatever the order and
    whichever allocation fails: the matching loop ends, no [std::terminate], no
    failed [assert], no dangling iterator; and the book it leaves passes
    [invariants_hold] and is not crossed. *)
Theorem submit_never_crashes fault b o :
  reachable b -> wf_order o ->
  exists b', final_state (submit fault b o) = Some b' /\
    invariants_hold b' = true /\ uncrossed b'.
Proof.
  intros HI%reachable_Inv Hwf. destruct (submit_Inv fault b o HI Hwf) as (b' & E & HI').
  exists b'. split; [done|]. split; [by apply Inv_invariants_hold|apply HI'].
Qed.

(** On every reachable book, [cancel] returns for every id: the locator it
    follows is valid, its internal checks and the final [assert] succeed. *)
Theorem cancel_never_crashes b id :
  reachable b ->
  exists b' r, cancel b id = Returned b' r /\ invariants_hold b' = true /\ uncrossed b'.
Proof.
  intros HI%reachable_Inv. destruct (cancel_Inv b id HI) as (b' & r & E & HI').
  exists b', r. split; [done|]. split; [by apply Inv_invariants_hold|apply HI'].
Qed.

(** C1: the result of [submit] is determined by the live orders: it is refused
    for the first reason that applies, with the book untouched, or it executes
    the sweep of the opposite side in priority order, reports one trade per
    fill, and rests exactly the residual, behind the orders already there. *)
Theorem submit_correct b o :
  reachable b -> wf_order o ->
  match rejection b o with
  | Some reason => submit None b o = Returned b (rejected reason)
  | None => exists b', submit None b o = Returned b' (accepted_result b o) /\
                       matched b o b' /\ rested b o b' /\
                       StronglySorted (priority (opposite (match_ref o)))
                         (level_nodes (get_levels (opposite (match_ref o)) b'))
  end.
Proof.
  intros HI%reachable_Inv Hwf. pose proof (submit_spec None b o HI Hwf) as H.
  destruct (rejection b o); [done|]. destruct H as [_ H]. rewrite andb_false_r in H.
  destruct H as (b' & ? & HI' & ? & ?). exists b'. split_and!; try done.
  by apply level_nodes_sorted, Inv_levels.
Qed.

(** C2: price-time priority.  If an incoming order trades with a resting order
    [n], every order [m] of that side with a better price, or the same price
    and an earlier arrival, was filled completely by the same incoming order
    and has left the book. *)
Theorem price_time_priority b o b' r m n t :
  reachable b -> wf_order o -> submit None b o = Returned b' r ->
  m ∈ level_nodes (get_levels (match_ref o) b) ->
  n ∈ level_nodes (get_levels (match_ref o) b) ->
  priority (match_ref o) m n ->
  t ∈ sr_trades r -> maker_order_id t = node_id n ->
  (exists t', t' ∈ sr_trades r /\ maker_order_id t' = node_id m /\
     execution_quantity t' = node_rem m) /\
  find_order b' (node_id m) = Returned b' None.
Proof.
  intros HI%reachable_Inv Hwf E Hm Hn Hp Ht Hid.
  destruct (submit_returned_cases _ _ _ _ HI Hwf E)
    as [(? & _ & _ & ->)|(Ha & -> & HI' & Hma & Hre)]; [by apply not_elem_of_nil in Ht|].
  pose proof (Inv_levels (match_ref o) b HI) as Hok.
  destruct (elem_of_trades_of _ _ _ _ Ht) as (n' & q & Hin & Hid' & _).
  destruct (sweep_reaches _ _ _ _ _ (levels_ok_positive _ _ Hok) Hin)
    as (ns1 & ns2 & Ens & Hr & _ & _ & Hf & Hs).
  assert (n' = n) as ->.
  { apply (node_id_unique b); [done| | |congruence]; rewrite (nodes_perm (match_ref o)), elem_of_app;
      left; [|done]. rewrite Ens. set_solver. }
  assert (m ∈ ns1) as Hm1.
  { eapply priority_before; [rewrite <- Ens; by apply level_nodes_sorted|by rewrite <- Ens|done]. }
  split.
  - apply trades_of_elem_of. by eapply Forall_forall in Hf.
  - destruct (find_order_spec b' (node_id m) HI') as [[_ ?]|(x & Hx & Hxid & _)]; [done|exfalso].
    apply (filled_maker_gone b o b' ns1 m ns2 n HI Ha Hma Hre Ens Hm1).
    + destruct Hma as [-> _]. rewrite Hs. apply sweep_rest_ids.
    + rewrite <- Hxid. by apply list_elem_of_fmap_2.
Qed.

(** ** Quantities and prices *)

(** C9: quantity is conserved by an accepted order: what was executed and what
    rests add up to the order, the trades add up to what was executed, and the
    quantity resting in the whole book changes by the difference. *)
Theorem quantity_conservation b o b' r :
  reachable b -> wf_order o -> submit None b o = Returned b' r -> accepted r = true ->
  sr_executed_quantity r + sr_resting_quantity r = nlo_quantity o /\
  sum_trades (sr_trades r) = sr_executed_quantity r /\
  sum_rem (nodes b') + sr_executed_quantity r = sum_rem (nodes b) + sr_resting_quantity r.
Proof.
  intros HI%reachable_Inv Hwf E Hacc.
  destruct (submit_returned_cases _ _ _ _ HI Hwf E)
    as [(? & _ & _ & ->)|(Ha & -> & HI' & Hm & Hr)]; [done|]. simpl.
  split; [unfold submit_residual; lia|]. split; [apply sum_trades_of|]. by apply submit_sum.
Qed.

(** Every trade of a submission is with an order that rested on the
    opposite side, at that order's limit price, which the taker's limit
    accepts, for a positive quantity that order had left; and a taker with a
    residual leaves nothing on the opposite side that its limit accepts. *)
Theorem trades_respect_limits b o b' r :
  reachable b -> wf_order o -> submit None b o = Returned b' r ->
  Forall (fun t => taker_order_id t = nlo_id o /\
     exists n, n ∈ level_nodes (get_levels (match_ref o) b) /\
       maker_order_id t = node_id n /\ execution_price t = node_price n /\
       crosses (match_ref o) (execution_price t) (nlo_limit_price o) = true /\
       0 < execution_quantity t <= node_rem n) (sr_trades r) /\
  (0 < sr_resting_quantity r ->
   forall p, p ∈ keys (get_levels (match_ref o) b') ->
     crosses (match_ref o) p (nlo_limit_price o) = false).
Proof.
  intros HI%reachable_Inv Hwf E.
  destruct (submit_returned_cases _ _ _ _ HI Hwf E)
    as [(? & _ & _ & ->)|(Ha & -> & HI' & Hm & Hr)]; [by split; [constructor|]|].
  pose proof (levels_ok_positive _ _ (Inv_levels (match_ref o) b HI)) as Hpos. split.
  - apply Forall_forall. intros t Ht.
    destruct (elem_of_trades_of _ _ _ _ Ht) as (n & q & Hin & H1 & H2 & H3 & H4).
    destruct (sweep_reaches _ _ _ _ _ Hpos Hin) as (ns1 & ns2 & Ens & Hrem & Hx & Hq & _).
    split; [done|]. exists n. rewrite H3, H4.
    assert (n ∈ level_nodes (get_levels (match_ref o) b)) as Hn by (rewrite Ens; set_solver).
    eapply Forall_forall in Hpos; [|exact Hn]. split_and!; try done; lia.
  - intros Hres p Hp.
    pose proof (residual_uncrossed (match_ref o) b' (nlo_limit_price o) _ _ _ HI' Hpos
                  (proj1 Hm) eq_refl Hres p Hp) as Hk.
    destruct (match_ref o); simpl in *; unfold std_greater, std_less, bid_crosses, ask_crosses in *;
      reflect; apply Z.leb_gt; lia.
Qed.

(** The dry run agrees with the execution: on every reachable book, when
    the trade identifiers suffice for the plan, [match] uses exactly the
    quantity and makes exactly the number of trades [preview_match]
    announced. *)
Theorem preview_agrees_with_match ref b o :
  reachable b -> wf_order o ->
  let plan := preview_match (get_levels ref b) (nlo_limit_price o) (nlo_quantity o) (crosses ref) in
  can_issue_trade_ids b (mp_trade_count plan) = true ->
  exists b' remaining trades,
    match_orders ref o (crosses ref) (nlo_quantity o) [] b = Returned b' (remaining, trades) /\
    remaining = mp_remaining_quantity plan /\
    Z.of_nat (length trades) = mp_trade_count plan.
Proof.
  intros HI%reachable_Inv (_ & _ & _ & Hq). simpl.
  rewrite preview_match_spec by done. simpl. intros Hids.
  apply can_issue_trade_ids_spec in Hids; [|apply HI].
  destruct (match_orders_spec ref o (nlo_quantity o) [] b HI Hq Hids) as (b' & E & _).
  do 3 eexists. split; [exact E|]. split; [done|]. simpl. by rewrite trades_of_length.
Qed.

(** C19: [cancel] reports [NotFound] exactly for an id with no live order and
    then changes nothing; otherwise it reports the remaining quantity, removes
    that order and leaves every other live order, their order and the history
    of seen ids as they were. *)
Theorem cancel_correct b id :
  reachable b ->
  (id ∉ (node_id <$> nodes b) /\
   cancel b id = Returned b {| cr_status := NotFound; cr_cancelled_quantity := 0 |}) \/
  (exists n b', n ∈ nodes b /\ node_id n = id /\
     cancel b id = Returned b' {| cr_status := Cancelled; cr_cancelled_quantity := node_rem n |} /\
     removed n b b' /\ find_order b' id = Returned b' None).
Proof.
  intros HI%reachable_Inv.
  destruct (cancel_spec b id HI) as [?|(n & b' & Hn & <- & E & HI' & Hrem)]; [by left|right].
  exists n, b'. split_and!; try done.
  destruct (find_order_spec b' (node_id n) HI') as [[_ ?]|(m & Hm & Hid & _)]; [done|exfalso].
  destruct Hrem as (ref & ns1 & ns2 & _ & E1 & E2 & E3 & _).
  pose proof (pool_ids _ _ _ _ _ (inv_pool _ HI)) as Hnd.
  rewrite (nodes_perm ref), E1, fmap_app, fmap_app, fmap_cons in Hnd.
  rewrite (nodes_perm ref), E2, E3 in Hm.
  rewrite <- Permutation_middle, <- app_comm_cons, NoDup_cons in Hnd.
  apply (proj1 Hnd). rewrite <- Hid, <- !fmap_app. by apply list_elem_of_fmap_2.
Qed.

(** C33: the index of active orders is exact and its iterators never dangle:
    every entry points to a live node with that id, side and price, every live
    node is indexed at its own address, and the count is the number of live
    orders. *)
Theorem active_index_exact b :
  reachable b ->
  (forall id loc, active_orders b !! id = Some loc ->
     exists o, deref b (loc_order loc) = Some o /\ ro_id o = id /\
       ro_side o = loc_side loc /\ ro_limit_price o = loc_price loc) /\
  (forall n, n ∈ nodes b -> active_orders b !! node_id n = Some (locator_of n)) /\
  active_order_count b = Z.of_nat (length (nodes b)).
Proof.
  intros HI%reachable_Inv. split_and!.
  - intros id loc Hl. destruct (Inv_active_node _ _ _ HI Hl) as (n & Hn & <- & ->).
    exists (node_order n). split; [exact (Inv_deref b n HI Hn)|done].
  - intros n Hn. by eapply pool_ok_lookup; [apply HI|].
  - unfold active_order_count. by rewrite (pool_ok_size _ _ _ _ _ (inv_pool _ HI)).
Qed.

(** ** History *)

Lemma book_step_seen b b' : Inv b -> book_step b b' -> seen_order_ids b ⊆ seen_order_ids b'.
Proof.
  intros HI Hstep. revert HI.
  destruct Hstep as [fault b1 o b2 Hwf Hs|b1 id b2 Hid Hs|b1 id Hid]; intros HI; [| |done].
  - pose proof (submit_spec fault b1 o HI Hwf) as H.
    destruct (rejection b1 o); [rewrite H in Hs; by simplify_eq/=|]. destruct H as [_ H].
    destruct (alloc_before_match fault); [rewrite H in Hs; by simplify_eq/=|].
    destruct (_ && _).
    + destruct H as (b' & E & _ & (_ & Hsn & _) & _). rewrite E in Hs. simplify_eq/=. rewrite Hsn. set_solver.
    + destruct H as (b' & E & _ & (_ & Hsn & _) & _). rewrite E in Hs. simplify_eq/=. rewrite Hsn. set_solver.
  - destruct (cancel_spec b1 id HI) as [[_ E]|(n & b' & _ & _ & E & _ & ref & ns1 & ns2 & Hr)];
      rewrite E in Hs; simplify_eq/=; [done|]. destruct Hr as (_ & _ & _ & _ & -> & _). done.
Qed.

Lemma rtc_seen b b' :
  rtc book_step b b' -> Inv b -> Inv b' /\ seen_order_ids b ⊆ seen_order_ids b'.
Proof.
  induction 1 as [b|b1 b2 b3 Hs _ IH]; intros HI; [done|].
  destruct IH as [HI3 Hsub]; [by eapply book_step_Inv|].
  split; [done|]. etrans; [by apply book_step_seen|done].
Qed.

(** C35: an order id is used at most once in the life of a book: after an
    order was accepted, whatever happens next, a later order with the same id
    is refused and changes nothing, also after the first one was filled or
    cancelled. *)
Theorem order_id_single_use b o b' r b'' fault o' :
  reachable b -> wf_order o -> wf_order o' ->
  submit None b o = Returned b' r -> accepted r = true ->
  rtc book_step b' b'' -> nlo_id o' = nlo_id o ->
  exists reason, submit fault b'' o' = Returned b'' (rejected reason).
Proof.
  intros HI%reachable_Inv Hwf Hwf' E Hacc Hsteps Hid.
  destruct (submit_returned_cases _ _ _ _ HI Hwf E)
    as [(? & _ & _ & ->)|(Ha & -> & HI' & (_ & Hsn & _) & _)]; [done|].
  destruct (rtc_seen _ _ Hsteps HI') as [HI'' Hsub].
  pose proof (submit_spec fault b'' o' HI'' Hwf') as H.
  destruct (rejection b'' o') as [reason|]; [by exists reason|].
  destruct H as [Ha' _]. destruct (acc_new _ _ Ha'). rewrite Hid. apply Hsub. rewrite Hsn. set_solver.
Qed.

(** The trades made so far, by the value of the counter. *)
Definition trades_issued (b : Impl) (k : Z) : Prop :=
  0 <= k < U64_MOD /\ next_trade_id b = add64 k 1.

Lemma accepted_trades_issued b o k :
  accept b o -> trades_issued b k ->
  let l := Z.of_nat (length (submit_fills b o)) in
  k + l < U64_MOD /\
  trade_id <$> trades_of (next_trade_id b) (nlo_id o) (submit_fills b o) = seqZ (k + 1) l.
Proof.
  intros Ha [Hk Hn] l. rewrite trade_ids_of. fold l.
  destruct (acc_trade_ids _ _ Ha) as [Hz|[Hz Hb]].
  - unfold l. rewrite Hz. split; [lia|done].
  - rewrite Hn, add64_succ in * by u64. destruct (Z.eqb_spec k U64_MAX); [done|]. split; [lia|done].
Qed.

Lemma run_commands_trade_ids cs b k :
  Inv b -> Forall wf_command cs -> trades_issued b k ->
  exists b' ts, run_commands cs b = Some (b', ts) /\
    trade_id <$> ts = seqZ (k + 1) (Z.of_nat (length ts)).
Proof.
  intros HI Hwf. revert b k HI. induction Hwf as [|c cs Hc _ IH]; intros b k HI Hk.
  { exists b, []. done. }
  destruct c as [o|id]; simpl in *.
  - pose proof (submit_spec None b o HI Hc) as H. destruct (rejection b o).
    + rewrite H. destruct (IH b k HI Hk) as (b' & ts & -> & ?). by exists b', ts.
    + destruct H as [Ha H]. rewrite andb_false_r in H. destruct H as (b1 & -> & HI1 & (_ & _ & Ht) & _).
      destruct (accepted_trades_issued b o k Ha Hk) as [Hb Hids].
      set (l := Z.of_nat (length (submit_fills b o))) in *.
      destruct (IH b1 (k + l) HI1) as (b2 & ts & -> & E).
      { destruct Hk as [? Hk]. split; [lia|]. rewrite Ht, Hk, add64_assoc. unfold add64. f_equal. lia. }
      eexists b2, _. split; [done|]. simpl.
      rewrite length_app, trades_of_length, fmap_app, Hids, E, Nat2Z.inj_add. fold l.
      rewrite seqZ_app by lia. f_equal. f_equal. lia.
  - destruct (cancel_spec b id HI) as [[_ ->]|(n & b1 & _ & _ & -> & HI1 & Hr)]; simpl.
    + destruct (IH b k HI Hk) as (b' & ts & -> & ?). by exists b', ts.
    + destruct Hr as (ref & ns1 & ns2 & _ & _ & _ & _ & _ & _ & Ht).
      destruct (IH b1 k HI1) as (b' & ts & -> & ?); [|by exists b', ts].
      destruct Hk. by split; [|rewrite Ht].
Qed.

(** Every sequence of submissions and cancellations on a new book runs to
    its end, and the trades it produces are numbered 1, 2, 3, ... without gaps
    or repetitions, however long it is. *)
Theorem trade_ids_consecutive cs :
  Forall wf_command cs ->
  exists b ts, run_commands cs new_book = Some (b, ts) /\
    trade_id <$> ts = seqZ 1 (Z.of_nat (length ts)).
Proof.
  intros Hwf. apply (run_commands_trade_ids cs new_book 0); [apply Inv_new_book|done|].
  by split; [lia|].
Qed.

(** C32: no counter or aggregate of a reachable book has wrapped around: each
    level caches the exact sum of its orders, which is positive and fits 64
    bits, each order keeps between one and its original quantity, levels are
    strictly ordered by price, queues by arrival, and there are fewer than
    [2^64] orders. *)
Theorem aggregates_exact ref b :
  reachable b ->
  map_sorted (key_comp ref) (get_levels ref b) /\
  Forall (fun pl =>
    total_quantity pl.2 = sum_rem (orders pl.2) /\ 0 < sum_rem (orders pl.2) < U64_MOD /\
    StronglySorted (fun x y => node_seq x < node_seq y) (orders pl.2) /\
    Forall (fun n => 0 < node_rem n <= ro_original_quantity (node_order n)) (orders pl.2))
    (get_levels ref b) /\
  active_order_count b < U64_MOD.
Proof.
  intros HI%reachable_Inv. pose proof (Inv_levels ref b HI) as [Hs Hl]. split; [done|]. split.
  - eapply Forall_impl; [exact Hl|]. intros [p l] Hok.
    destruct Hok as [H1 H2 H3 H4 H5 H6]. simpl in *. split; [done|].
    destruct (orders l) as [|n ns] eqn:E; [done|]. simpl in *.
    apply Forall_cons in H3 as [Hn H3].
    assert (0 <= sum_rem ns).
    { apply sum_rem_nonneg. eapply Forall_impl; [exact H3|]. intros m []. unfold node_rem. lia. }
    split; [destruct Hn; unfold node_rem in *; lia|]. split; [done|].
    constructor; [by destruct Hn|]. eapply Forall_impl; [exact H3|]. by intros m [].
  - unfold active_order_count. rewrite (pool_ok_size _ _ _ _ _ (inv_pool _ HI)).
    by apply Inv_nodes_bound.
Qed.

(** ** Queries *)

Definition level_view (pl : Z * PriceLevel) : PriceLevelView :=
  {| plv_price := pl.1; plv_total_quantity := total_quantity pl.2;
     plv_order_count := Z.of_nat (length (orders pl.2)) |}.

Lemma depth_from_take lv max k :
  k <= max -> depth_from lv max k = level_view <$> take (Z.to_nat (max - k)) lv.
Proof.
  revert k. induction lv as [|[p l] lv IH]; intros k Hk; simpl.
  - by rewrite take_nil.
  - destruct (Z.eqb_spec k max) as [->|].
    + by rewrite Z.sub_diag.
    + rewrite IH by lia. replace (Z.to_nat (max - k)) with (S (Z.to_nat (max - (k + 1)))) by lia.
      done.
Qed.

Lemma depth_take ref b max :
  is_u64 max -> depth b (side_of ref) max = level_view <$> take (Z.to_nat max) (get_levels ref b).
Proof.
  intros Hm. unfold depth. destruct (Z.eqb_spec max 0) as [->|]; simpl; [by destruct ref|].
  replace (Z.to_nat max) with (Z.to_nat (max - 0)) by lia.
  rewrite <- depth_from_take by u64. by destruct ref.
Qed.

Lemma levels_lookup ref b p l :
  Inv b -> (p, l) ∈ get_levels ref b -> map_find p (get_levels ref b) = Some l.
Proof.
  intros HI (lv1 & lv2 & Eg)%list_elem_of_split. pose proof (Inv_levels ref b HI) as Hok.
  rewrite Eg in *. destruct (levels_ok_split _ _ _ _ _ Hok) as (_ & _ & Hk & _).
  by apply map_find_split.
Qed.

Definition best_of (ref : LevelsRef) (b : Impl) : option Quote :=
  match ref with BidLevels => best_bid b | AskLevels => best_ask b end.

(** C37: market data is exact.  [depth] lists price levels strictly from best to
    worst, each with the total quantity and the number of the live orders at
    that price; a live order it does not show lies strictly behind
    [max_levels] shown levels; and [best_bid] and [best_ask] are the first
    entry. *)
Theorem depth_correct ref b max :
  reachable b -> is_u64 max ->
  let ds := depth b (side_of ref) max in
  StronglySorted (fun d d' => key_comp ref (plv_price d) (plv_price d') = true) ds /\
  Forall (fun d => plv_total_quantity d = quantity_at ref b (plv_price d) /\
                   plv_order_count d = Z.of_nat (length (orders_at ref b (plv_price d))) /\
                   0 < plv_order_count d) ds /\
  (forall n, n ∈ level_nodes (get_levels ref b) ->
     node_price n ∈ (plv_price <$> ds) \/
     Z.of_nat (length ds) = max /\
     Forall (fun d => key_comp ref (plv_price d) (node_price n) = true) ds) /\
  (0 < max -> best_of ref b =
     (fun d => mkQuote (plv_price d) (plv_total_quantity d)) <$> head ds).
Proof.
  intros HI%reachable_Inv Hmax. simpl. rewrite depth_take by done.
  pose proof (Inv_levels ref b HI) as [Hs Hl]. set (k := Z.to_nat max).
  assert (take k (get_levels ref b) ++ drop k (get_levels ref b) = get_levels ref b) as Esplit
    by apply take_drop.
  split_and!.
  - unfold map_sorted in Hs. rewrite <- Esplit, keys_app in Hs. apply StronglySorted_app in Hs as (_ & Hs & _).
    unfold keys in Hs. revert Hs. generalize (take k (get_levels ref b)).
    induction l as [|pl l IH]; [constructor|]. rewrite !fmap_cons, !StronglySorted_cons.
    intros [Hf Hs]. split; [|auto]. apply Forall_fmap in Hf. by apply Forall_fmap.
  - apply Forall_fmap, Forall_forall. intros [p l] Hin.
    assert ((p, l) ∈ get_levels ref b) as Hin' by (rewrite <- Esplit; set_solver).
    pose proof (levels_lookup ref b p l HI Hin') as Hf.
    simpl. rewrite quantity_at_level, orders_at_level, Hf by done.
    split_and!; try done. eapply Forall_forall in Hl; [|exact Hin'].
    destruct (orders l) eqn:Eo; [by destruct (lvl_nonempty _ _ Hl)|]. simpl. lia.
  - intros n Hn. destruct (levels_ok_node _ _ _ (Inv_levels ref b HI) Hn) as [_ Hk].
    rewrite <- list_fmap_compose. change (plv_price ∘ level_view) with (fst (A := Z) (B := PriceLevel)).
    change (node_price n ∈ keys (take k (get_levels ref b)) \/
            Z.of_nat (length (level_view <$> take k (get_levels ref b))) = max /\
            Forall (fun d => key_comp ref (plv_price d) (node_price n) = true)
              (level_view <$> take k (get_levels ref b))).
    unfold map_sorted in Hs. rewrite <- Esplit, keys_app in Hk, Hs. apply StronglySorted_app in Hs as (Hc & _ & _).
    apply elem_of_app in Hk as [Hk|Hk]; [by left|right]. split.
    + rewrite length_fmap, length_take_le; [u64|].
      destruct (decide (length (get_levels ref b) <= k)%nat) as [Hge|]; [|lia].
      rewrite drop_ge in Hk by done. by apply not_elem_of_nil in Hk.
    + apply Forall_fmap, Forall_forall. intros pl Hpl. simpl. apply Hc; [|done].
      by apply list_elem_of_fmap_2.
  - intros Hpos. destruct k as [|k'] eqn:Ek; [u64|]. unfold best_of, best_bid, best_ask.
    destruct ref; simpl; [destruct (bids b) as [|[]]|destruct (asks b) as [|[]]]; done.
Qed.

(** ** Allocation failures *)

(** C38: what an allocation failure in [submit] leaves.  Before the matching
    phase the book is untouched.  While the residual is being rested the
    matching is not undone: the makers are filled, the trade ids are used and
    the order id is consumed, the own side is exactly as before, the order does
    not rest, and a retry with the same order is refused as a duplicate. *)
Theorem submit_allocation_failure fault b o b' :
  reachable b -> wf_order o -> submit fault b o = Threw b' ->
  (alloc_before_match fault = true /\ b' = b) \/
  (alloc_while_resting fault = true /\ 0 < submit_residual b o /\
   matched b o b' /\ not_rested b o b' /\
   find_order b' (nlo_id o) = Returned b' None /\
   submit None b' o = Returned b' (rejected DuplicateOrderId)).
Proof.
  intros HI%reachable_Inv Hwf E. pose proof (submit_spec fault b o HI Hwf) as H.
  destruct (rejection b o); [by rewrite H in E|]. destruct H as [Ha H].
  destruct (alloc_before_match fault); [left; rewrite H in E; by simplify_eq|right].
  destruct (_ && _) eqn:Er; reflect; destruct H as (b1 & E1 & HI1 & Hm & Hr);
    rewrite E1 in E; simplify_eq. split_and!; try done.
  - destruct (find_order_spec b' (nlo_id o) HI1) as [[_ ?]|(n & Hn & Hid & _)]; [done|exfalso].
    apply (Inv_unseen b (nlo_id o) HI (acc_new _ _ Ha)). rewrite <- Hid.
    destruct Hr as [Hown _]. destruct Hm as [Hm _].
    rewrite (nodes_perm (match_ref o)), fmap_app, elem_of_app.
    rewrite (nodes_perm (match_ref o)), elem_of_app, Hown in Hn.
    destruct Hn as [Hn|Hn]; [left|right; by apply list_elem_of_fmap_2].
    apply (sweep_rest_ids (fun k => crosses (match_ref o) k (nlo_limit_price o)) (nlo_quantity o)).
    rewrite <- Hm. by apply list_elem_of_fmap_2.
  - destruct Hm as (_ & Hsn & _). destruct Ha as [A1 A2 A3 A4 _ _ _ _]. unfold submit.
    rewrite !(proj2 (Z.eqb_neq _ 0)) by lia.
    assert (is_valid_side (nlo_side o) = true) as -> by (rewrite A2; by destruct (match_ref o)).
    rewrite bool_decide_true by (rewrite Hsn; set_solver). done.
Qed.

(** ** Witnesses

    A book with two ask levels of two orders each and one bid, and the orders
    that exercise the properties on it. *)

Definition sample_commands : list Command :=
  [ CSubmit (mkNewLimitOrder 1 Sell 105 10);
    CSubmit (mkNewLimitOrder 2 Sell 101 5);
    CSubmit (mkNewLimitOrder 3 Sell 101 7);
    CSubmit (mkNewLimitOrder 4 Buy 99 4);
    CSubmit (mkNewLimitOrder 5 Buy 101 2);
    CSubmit (mkNewLimitOrder 6 Sell 105 1);
    CSubmit (mkNewLimitOrder 7 Sell 107 1);
    CCancel 7 ].

Definition sample_book : Impl :=
  match run_commands sample_commands new_book with
  | Some (b, _) => b
  | None => new_book
  end.

Lemma sample_commands_wf : Forall wf_command sample_commands.
Proof. decide_now. Qed.

Lemma sample_book_reachable : reachable sample_book.
Proof.
  eapply run_commands_reachable; [exact sample_commands_wf|]. vm_compute. reflexivity.
Qed.

(** A taker that fills the level 101 and part of 105. *)
Definition sample_taker : NewLimitOrder := mkNewLimitOrder 8 Buy 105 13.
(** A taker that fills the level 101 and rests the remainder. *)
Definition sample_rester : NewLimitOrder := mkNewLimitOrder 9 Buy 103 15.

Lemma sample_taker_wf : wf_order sample_taker.
Proof. decide_now. Qed.
Lemma sample_rester_wf : wf_order sample_rester.
Proof. decide_now. Qed.

Definition after (m : outcome Impl SubmitResult) : Impl :=
  match m with Returned b _ | Threw b => b | Crashed _ => new_book end.
Definition result_of (m : outcome Impl SubmitResult) : SubmitResult :=
  match m with Returned _ r => r | _ => rejected InvalidOrderId end.
Definition cancel_result_of (m : outcome Impl CancelResult) : option CancelResult :=
  match m with Returned _ r => Some r | _ => None end.

Lemma submit_never_crashes_witness :
  exists b', final_state (submit (Some PushBackOrder) sample_book sample_rester) = Some b' /\
    invariants_hold b' = true /\ uncrossed b'.
Proof. exact (submit_never_crashes _ _ _ sample_book_reachable sample_rester_wf). Defined.

Lemma cancel_never_crashes_witness :
  exists b' r, cancel sample_book 3 = Returned b' r /\ invariants_hold b' = true /\ uncrossed b'.
Proof. exact (cancel_never_crashes _ 3 sample_book_reachable). Defined.

Lemma submit_correct_witness :
  rejection sample_book sample_rester = None /\
  exists b', submit None sample_book sample_rester
               = Returned b' (accepted_result sample_book sample_rester) /\
             matched sample_book sample_rester b' /\ rested sample_book sample_rester b' /\
             StronglySorted (priority BidLevels) (level_nodes (bids b')).
Proof.
  split; [vm_compute; reflexivity|].
  exact (submit_correct sample_book sample_rester sample_book_reachable sample_rester_wf).
Defined.

Lemma price_time_priority_witness :
  let b' := after (submit None sample_book sample_taker) in
  let r := result_of (submit None sample_book sample_taker) in
  (exists t', t' ∈ sr_trades r /\ maker_order_id t' = 2 /\ execution_quantity t' = 3) /\
  find_order b' 2 = Returned b' None.
Proof.
  apply (price_time_priority sample_book sample_taker
    (after (submit None sample_book sample_taker)) (result_of (submit None sample_book sample_taker))
    (mkListNode 1 (mkRestingOrder 2 Sell 101 5 3 2)) (mkListNode 0 (mkRestingOrder 1 Sell 105 10 10 1))
    (mkTrade 4 1 8 105 3) sample_book_reachable sample_taker_wf).
  - vm_compute. reflexivity.
  - apply (list_elem_of_lookup_2 _ 0). vm_compute. reflexivity.
  - apply (list_elem_of_lookup_2 _ 2). vm_compute. reflexivity.
  - left. reflexivity.
  - apply (list_elem_of_lookup_2 _ 2). vm_compute. reflexivity.
  - reflexivity.
Defined.

Lemma quantity_conservation_witness :
  let b' := after (submit None sample_book sample_rester) in
  let r := result_of (submit None sample_book sample_rester) in
  sr_executed_quantity r + sr_resting_quantity r = 15 /\
  sum_trades (sr_trades r) = sr_executed_quantity r /\
  sum_rem (nodes b') + sr_executed_quantity r = sum_rem (nodes sample_book) + sr_resting_quantity r.
Proof.
  apply (quantity_conservation sample_book sample_rester _ _ sample_book_reachable sample_rester_wf);
    vm_compute; reflexivity.
Defined.

Lemma trades_respect_limits_witness :
  Forall (fun p => (p <=? 103) = false)
    (keys (asks (after (submit None sample_book sample_rester)))).
Proof.
  apply Forall_forall. refine (proj2 (trades_respect_limits sample_book sample_rester
    (after (submit None sample_book sample_rester))
    (result_of (submit None sample_book sample_rester))
    sample_book_reachable sample_rester_wf _) _); vm_compute; reflexivity.
Defined.

Lemma preview_agrees_with_match_witness :
  exists b' remaining trades,
    match_orders AskLevels sample_rester ask_crosses 15 [] sample_book
      = Returned b' (remaining, trades) /\
    remaining = 5 /\ Z.of_nat (length trades) = 2.
Proof.
  exact (preview_agrees_with_match AskLevels sample_book sample_rester sample_book_reachable
    sample_rester_wf ltac:(vm_compute; reflexivity)).
Defined.

Lemma cancel_correct_witness :
  exists b', cancel sample_book 3
               = Returned b' {| cr_status := Cancelled; cr_cancelled_quantity := 7 |} /\
             find_order b' 3 = Returned b' None.
Proof.
  assert (cancel_result_of (cancel sample_book 3)
    = Some {| cr_status := Cancelled; cr_cancelled_quantity := 7 |}) as E7 by (vm_compute; reflexivity).
  destruct (cancel_correct sample_book 3 sample_book_reachable)
    as [[_ E]|(n & b' & _ & _ & E & _ & Hf)]; rewrite E in E7; simpl in E7; [congruence|].
  exists b'. split; [rewrite E; congruence|exact Hf].
Defined.

Lemma active_index_exact_witness :
  active_order_count sample_book = 5 /\
  active_orders sample_book !! 3 = Some (mkOrderLocator Sell 101 2).
Proof.
  destruct (active_index_exact sample_book sample_book_reachable) as (_ & H & ->).
  split; [vm_compute; reflexivity|].
  apply (H (mkListNode 2 (mkRestingOrder 3 Sell 101 7 7 3))).
  apply (list_elem_of_lookup_2 _ 2). vm_compute. reflexivity.
Defined.

Lemma order_id_single_use_witness :
  exists reason,
    submit None (after (submit None sample_book sample_taker)) (mkNewLimitOrder 8 Sell 1 1)
      = Returned (after (submit None sample_book sample_taker)) (rejected reason).
Proof.
  apply (order_id_single_use sample_book sample_taker
    (after (submit None sample_book sample_taker)) (result_of (submit None sample_book sample_taker))
    (after (submit None sample_book sample_taker)) None _ sample_book_reachable sample_taker_wf).
  - decide_now.
  - vm_compute. reflexivity.
  - vm_compute. reflexivity.
  - constructor.
  - reflexivity.
Defined.

Lemma trade_ids_consecutive_witness :
  exists b ts, run_commands sample_commands new_book = Some (b, ts) /\
    trade_id <$> ts = seqZ 1 (Z.of_nat (length ts)).
Proof. exact (trade_ids_consecutive sample_commands sample_commands_wf). Defined.

Lemma aggregates_exact_witness :
  map_sorted std_less (asks sample_book) /\ active_order_count sample_book < U64_MOD.
Proof.
  destruct (aggregates_exact AskLevels sample_book sample_book_reachable) as (H1 & _ & H2).
  exact (conj H1 H2).
Defined.

Lemma depth_correct_witness :
  depth sample_book Sell 1 = [mkPriceLevelView 101 10 2] /\
  Some (mkQuote 101 10) = best_ask sample_book.
Proof.
  destruct (depth_correct AskLevels sample_book 1 sample_book_reachable ltac:(u64))
    as (_ & _ & _ & H).
  split; [vm_compute; reflexivity|]. symmetry. exact (H ltac:(lia)).
Defined.

Lemma submit_allocation_failure_witness :
  let b' := after (submit (Some PushBackOrder) sample_book sample_rester) in
  matched sample_book sample_rester b' /\
  submit None b' sample_rester = Returned b' (rejected DuplicateOrderId).
Proof.
  destruct (submit_allocation_failure (Some PushBackOrder) sample_book sample_rester
    (after (submit (Some PushBackOrder) sample_book sample_rester))
    sample_book_reachable sample_rester_wf ltac:(vm_compute; reflexivity))
    as [[E _]|(_ & _ & Hm & _ & _ & Hd)].
  - exfalso. vm_compute in E. discriminate E.
  - exact (conj Hm Hd).
Defined.
