(* ===== verification/ReferenceBook.v ===== *)
(** * The reference order book (definitions)

    tests/reference_order_book.hpp: the oracle of the differential tests.  It
    keeps a queue of values per price, finds an order to cancel by a linear
    scan and keeps a separate snapshot of every active order. *)
From S2P Require Import Prelude StdMap Types OrderBook.

Module Reference.

Record RestingOrder := mkRestingOrder {
  rr_id : Z;
  rr_side : Side;
  rr_price : Z;
  rr_original_quantity : Z;
  rr_remaining_quantity : Z;
}.

Record PriceLevel := mkPriceLevel {
  rl_orders : list RestingOrder;
  rl_total_quantity : Z;
}.

Definition empty_level : PriceLevel := mkPriceLevel [] 0.

Abbreviation Levels := (list (Z * PriceLevel)) (only parsing).

Record ReferenceOrderBook := mkReferenceOrderBook {
  bids_ : list (Z * PriceLevel);
  asks_ : list (Z * PriceLevel);
  active_orders_ : gmap Z OrderView;
  seen_ids_ : gset Z;
  next_arrival_sequence_ : Z;
  next_trade_id_ : Z;
}.

Definition new_reference : ReferenceOrderBook := mkReferenceOrderBook [] [] ∅ ∅ 1 1.

(** The member a template is instantiated with. *)
Definition get_levels (ref : LevelsRef) (b : ReferenceOrderBook) : list (Z * PriceLevel) :=
  match ref with BidLevels => bids_ b | AskLevels => asks_ b end.

Definition set_levels (ref : LevelsRef) (lv : list (Z * PriceLevel)) (b : ReferenceOrderBook)
  : ReferenceOrderBook :=
  match ref with
  | BidLevels => mkReferenceOrderBook lv (asks_ b) (active_orders_ b) (seen_ids_ b)
                   (next_arrival_sequence_ b) (next_trade_id_ b)
  | AskLevels => mkReferenceOrderBook (bids_ b) lv (active_orders_ b) (seen_ids_ b)
                   (next_arrival_sequence_ b) (next_trade_id_ b)
  end.

Definition set_active (m : gmap Z OrderView) (b : ReferenceOrderBook) : ReferenceOrderBook :=
  mkReferenceOrderBook (bids_ b) (asks_ b) m (seen_ids_ b)
    (next_arrival_sequence_ b) (next_trade_id_ b).
Definition set_seen (s : gset Z) (b : ReferenceOrderBook) : ReferenceOrderBook :=
  mkReferenceOrderBook (bids_ b) (asks_ b) (active_orders_ b) s
    (next_arrival_sequence_ b) (next_trade_id_ b).
Definition set_next_arrival_sequence (n : Z) (b : ReferenceOrderBook) : ReferenceOrderBook :=
  mkReferenceOrderBook (bids_ b) (asks_ b) (active_orders_ b) (seen_ids_ b) n (next_trade_id_ b).
Definition set_next_trade_id (n : Z) (b : ReferenceOrderBook) : ReferenceOrderBook :=
  mkReferenceOrderBook (bids_ b) (asks_ b) (active_orders_ b) (seen_ids_ b)
    (next_arrival_sequence_ b) n.

Definition reject (reason : RejectionReason) : SubmitResult :=
  {| sr_status := Rejected; sr_rejection_reason := Some reason;
     sr_executed_quantity := 0; sr_resting_quantity := 0; sr_trades := [] |}.

Definition would_overflow (current addition : Z) : bool := (U64_MAX - addition)%u64 <? current.

(** The inner and the outer loop of [preview]. *)
Fixpoint preview_orders (l : list RestingOrder) (remaining trade_count : Z) : Z * Z :=
  match l with
  | [] => (remaining, trade_count)
  | maker :: l' =>
      let remaining := (remaining - Z.min remaining (rr_remaining_quantity maker))%u64 in
      let trade_count := (trade_count + 1)%u64 in
      if remaining =? 0 then (remaining, trade_count)
      else preview_orders l' remaining trade_count
  end.

Fixpoint preview_levels (levels : list (Z * PriceLevel)) (incoming_price remaining trade_count : Z)
    (crosses : Z -> Z -> bool) : Z * Z :=
  match levels with
  | [] => (remaining, trade_count)
  | (price, level) :: levels' =>
      if (remaining =? 0) || negb (crosses price incoming_price) then (remaining, trade_count)
      else
        let '(remaining, trade_count) := preview_orders (rl_orders level) remaining trade_count in
        preview_levels levels' incoming_price remaining trade_count crosses
  end.

Definition preview (levels : list (Z * PriceLevel)) (incoming_price incoming_quantity : Z)
    (crosses : Z -> Z -> bool) : Z * Z :=
  preview_levels levels incoming_price incoming_quantity 0 crosses.

Definition can_issue_trade_ids (b : ReferenceOrderBook) (trade_count : Z) : bool :=
  issue_trade_ids_loop (Z.to_nat trade_count) (next_trade_id_ b).

Definition would_overflow_at_resting_level (b : ReferenceOrderBook) (incoming : NewLimitOrder)
    (remaining : Z) : bool :=
  let level :=
    if nlo_side incoming =? Buy then map_find (nlo_limit_price incoming) (bids_ b)
    else map_find (nlo_limit_price incoming) (asks_ b) in
  match level with
  | None => false
  | Some l => would_overflow (rl_total_quantity l) remaining
  end.

Definition remove_filled_front (ref : LevelsRef) (b : ReferenceOrderBook)
  : outcome ReferenceOrderBook unit :=
  match get_levels ref b with
  | (price, level) :: levels' =>
      match rl_orders level with
      | maker :: others =>
          let b := set_active (delete (rr_id maker) (active_orders_ b)) b in
          let levels'' :=
            match others with
            | [] => levels'
            | _ => (price, mkPriceLevel others (rl_total_quantity level)) :: levels'
            end in
          Returned (set_levels ref levels'' b) tt
      | [] => Crashed UndefinedBehaviour
      end
  | [] => Crashed UndefinedBehaviour
  end.

Definition view_with_remaining (v : OrderView) (q : Z) : OrderView :=
  mkOrderView (ov_id v) (ov_side v) (ov_limit_price v) (ov_original_quantity v) q.

(** One iteration of [match_buy] ([ref] is the asks) or [match_sell] (the
    bids); [at] throws when the id is not there. *)
Definition match_step (ref : LevelsRef) (incoming : NewLimitOrder) (remaining : Z)
    (trades : list Trade) (b : ReferenceOrderBook) : outcome ReferenceOrderBook (Z * list Trade) :=
  match get_levels ref b with
  | (price, level) :: levels' =>
      match rl_orders level with
      | maker :: others =>
          let executed := Z.min remaining (rr_remaining_quantity maker) in
          let trades := trades ++ [mkTrade (next_trade_id_ b) (rr_id maker) (nlo_id incoming)
                                     (rr_price maker) executed] in
          let b := set_next_trade_id (next_trade_id_ b + 1)%u64 b in
          let remaining := (remaining - executed)%u64 in
          let maker_remaining := (rr_remaining_quantity maker - executed)%u64 in
          let maker := mkRestingOrder (rr_id maker) (rr_side maker) (rr_price maker)
                         (rr_original_quantity maker) maker_remaining in
          let total := (rl_total_quantity level - executed)%u64 in
          let b := set_levels ref ((price, mkPriceLevel (maker :: others) total) :: levels') b in
          if maker_remaining =? 0 then
            let! (b, _u) := remove_filled_front ref b in Returned b (remaining, trades)
          else
            match active_orders_ b !! rr_id maker with
            | None => Threw b
            | Some v =>
                Returned (set_active
                            (<[rr_id maker := view_with_remaining v maker_remaining]>
                               (active_orders_ b)) b) (remaining, trades)
            end
      | [] => Crashed UndefinedBehaviour
      end
  | [] => Crashed UndefinedBehaviour
  end.

Fixpoint match_loop (fuel : nat) (ref : LevelsRef) (price_crosses : Z -> Z -> bool)
    (incoming : NewLimitOrder) (remaining : Z) (trades : list Trade) (b : ReferenceOrderBook)
  : outcome ReferenceOrderBook (Z * list Trade) :=
  match fuel with
  | O => Crashed OutOfFuel
  | S fuel' =>
      let guard :=
        (0 <? remaining) &&
        match get_levels ref b with
        | [] => false
        | (price, _) :: _ => price_crosses price (nlo_limit_price incoming)
        end in
      if guard then
        let! (b, r) := match_step ref incoming remaining trades b in
        match_loop fuel' ref price_crosses incoming (r.1) (r.2) b
      else Returned b (remaining, trades)
  end.

Definition match_fuel (ref : LevelsRef) (b : ReferenceOrderBook) : nat :=
  S (length (get_levels ref b ≫= fun pl => rl_orders (pl.2))).

Definition match_buy (incoming : NewLimitOrder) (remaining : Z) (trades : list Trade)
    (b : ReferenceOrderBook) : outcome ReferenceOrderBook (Z * list Trade) :=
  match_loop (match_fuel AskLevels b) AskLevels (fun best limit => best <=? limit)
    incoming remaining trades b.

Definition match_sell (incoming : NewLimitOrder) (remaining : Z) (trades : list Trade)
    (b : ReferenceOrderBook) : outcome ReferenceOrderBook (Z * list Trade) :=
  match_loop (match_fuel BidLevels b) BidLevels (fun best limit => limit <=? best)
    incoming remaining trades b.

Definition rest_on (ref : LevelsRef) (incoming : NewLimitOrder) (remaining : Z)
    (b : ReferenceOrderBook) : ReferenceOrderBook :=
  let price := nlo_limit_price incoming in
  (* [levels[price]] creates an empty level where there is none *)
  let '(levels, _) := map_try_emplace (key_comp ref) price empty_level (get_levels ref b) in
  let order := mkRestingOrder (nlo_id incoming) (nlo_side incoming) price
                 (nlo_quantity incoming) remaining in
  let b := set_levels ref
             (map_update price
                (fun l => mkPriceLevel (rl_orders l ++ [order])
                            (rl_total_quantity l + remaining)%u64) levels) b in
  let view := mkOrderView (nlo_id incoming) (nlo_side incoming) price
                (nlo_quantity incoming) remaining in
  let b := match active_orders_ b !! nlo_id incoming with
           | Some _ => b
           | None => set_active (<[nlo_id incoming := view]> (active_orders_ b)) b
           end in
  set_next_arrival_sequence (next_arrival_sequence_ b + 1)%u64 b.

Definition rest (incoming : NewLimitOrder) (remaining : Z) (b : ReferenceOrderBook)
  : ReferenceOrderBook :=
  if nlo_side incoming =? Buy then rest_on BidLevels incoming remaining b
  else rest_on AskLevels incoming remaining b.

Definition submit (b : ReferenceOrderBook) (incoming : NewLimitOrder)
  : outcome ReferenceOrderBook SubmitResult :=
  if nlo_id incoming =? 0 then Returned b (reject InvalidOrderId) else
  if negb (nlo_side incoming =? Buy) && negb (nlo_side incoming =? Sell)
  then Returned b (reject InvalidSide) else
  if nlo_limit_price incoming =? 0 then Returned b (reject InvalidPrice) else
  if nlo_quantity incoming =? 0 then Returned b (reject InvalidQuantity) else
  if bool_decide (nlo_id incoming ∈ seen_ids_ b) then Returned b (reject DuplicateOrderId) else
  let '(plan_remaining, plan_trade_count) :=
    if nlo_side incoming =? Buy
    then preview (asks_ b) (nlo_limit_price incoming) (nlo_quantity incoming)
           (fun best limit => best <=? limit)
    else preview (bids_ b) (nlo_limit_price incoming) (nlo_quantity incoming)
           (fun best limit => limit <=? best) in
  if negb (can_issue_trade_ids b plan_trade_count) then Returned b (reject TradeIdExhausted) else
  if (0 <? plan_remaining) && (next_arrival_sequence_ b =? 0)
  then Returned b (reject SequenceExhausted) else
  if (0 <? plan_remaining) && would_overflow_at_resting_level b incoming plan_remaining
  then Returned b (reject QuantityOverflow) else
  let b := set_seen ({[nlo_id incoming]} ∪ seen_ids_ b) b in
  let! (b, r) :=
    (if nlo_side incoming =? Buy then match_buy incoming (nlo_quantity incoming) [] b
     else match_sell incoming (nlo_quantity incoming) [] b) in
  let remaining := r.1 in
  let trades := r.2 in
  let b := if 0 <? remaining then rest incoming remaining b else b in
  Returned b
    {| sr_status := Accepted; sr_rejection_reason := None;
       sr_executed_quantity := (nlo_quantity incoming - remaining)%u64;
       sr_resting_quantity := remaining; sr_trades := trades |}.

(** The scan of one queue, and of the levels: the cancelled quantity and what
    is left. *)
Fixpoint cancel_orders (id : Z) (l : list RestingOrder) : option (Z * list RestingOrder) :=
  match l with
  | [] => None
  | order :: l' =>
      if negb (rr_id order =? id) then
        match cancel_orders id l' with
        | None => None
        | Some (q, rest) => Some (q, order :: rest)
        end
      else Some (rr_remaining_quantity order, l')
  end.

Fixpoint cancel_levels (id : Z) (levels : list (Z * PriceLevel))
  : option (Z * list (Z * PriceLevel)) :=
  match levels with
  | [] => None
  | (price, level) :: levels' =>
      match cancel_orders id (rl_orders level) with
      | Some (cancelled, rest) =>
          let total := (rl_total_quantity level - cancelled)%u64 in
          Some (cancelled,
                match rest with [] => levels' | _ => (price, mkPriceLevel rest total) :: levels' end)
      | None =>
          match cancel_levels id levels' with
          | None => None
          | Some (cancelled, levels'') => Some (cancelled, (price, level) :: levels'')
          end
      end
  end.

Definition cancel_from (ref : LevelsRef) (id : Z) (b : ReferenceOrderBook)
  : option (ReferenceOrderBook * Z) :=
  match cancel_levels id (get_levels ref b) with
  | None => None
  | Some (cancelled, levels) =>
      Some (set_active (delete id (active_orders_ b)) (set_levels ref levels b), cancelled)
  end.

Definition cancel (b : ReferenceOrderBook) (id : Z) : ReferenceOrderBook * CancelResult :=
  match cancel_from BidLevels id b with
  | Some (b', cancelled) => (b', mkCancelResult Cancelled cancelled)
  | None =>
      match cancel_from AskLevels id b with
      | Some (b', cancelled) => (b', mkCancelResult Cancelled cancelled)
      | None => (b, mkCancelResult NotFound 0)
      end
  end.

Definition best_from (levels : list (Z * PriceLevel)) : option Quote :=
  match levels with
  | [] => None
  | (price, level) :: _ => Some (mkQuote price (rl_total_quantity level))
  end.

Definition best_bid (b : ReferenceOrderBook) : option Quote := best_from (bids_ b).
Definition best_ask (b : ReferenceOrderBook) : option Quote := best_from (asks_ b).
Definition find (b : ReferenceOrderBook) (id : Z) : option OrderView := active_orders_ b !! id.

Definition depth_from (levels : list (Z * PriceLevel)) : list PriceLevelView :=
  (fun pl => mkPriceLevelView (pl.1) (rl_total_quantity (pl.2))
               (Z.of_nat (length (rl_orders (pl.2))))) <$> levels.

Definition depth (b : ReferenceOrderBook) (side : Side) : list PriceLevelView :=
  if side =? Buy then depth_from (bids_ b)
  else if side =? Sell then depth_from (asks_ b)
  else [].

Definition active_order_count (b : ReferenceOrderBook) : Z := Z.of_nat (size (active_orders_ b)).

End Reference.
