(* ===== verification/Differential.v ===== *)
(** * The order book and its oracle agree

    tests/order_book_differential_test.cpp compares [OrderBook] with
    [ReferenceOrderBook] on random traces; here they are proved to agree on
    every trace.  [abs] forgets what the reference does not have: node
    addresses, arrival sequences and locators. *)
From S2P Require Import Prelude StdMap Types OrderBook OrderBookInv Matching OrderBookOps.
From S2P Require Import OrderBookProps ReferenceBook.

Definition abs_order (n : ListNode) : Reference.RestingOrder :=
  Reference.mkRestingOrder (node_id n) (ro_side (node_order n)) (node_price n)
    (ro_original_quantity (node_order n)) (node_rem n).

Definition abs_level (l : PriceLevel) : Reference.PriceLevel :=
  Reference.mkPriceLevel (abs_order <$> orders l) (total_quantity l).

Definition abs_levels (lv : list (Z * PriceLevel)) : list (Z * Reference.PriceLevel) :=
  (fun pl => (pl.1, abs_level pl.2)) <$> lv.

(** The snapshots of the live orders. *)
Definition view_entry (n : ListNode) : Z * OrderView := (node_id n, order_view (node_order n)).
Definition views (ns : list ListNode) : gmap Z OrderView := list_to_map (view_entry <$> ns).

Definition abs (b : Impl) : Reference.ReferenceOrderBook :=
  Reference.mkReferenceOrderBook (abs_levels (bids b)) (abs_levels (asks b)) (views (nodes b))
    (seen_order_ids b) (next_arrival_sequence b) (next_trade_id b).

(** ** Containers *)

Lemma get_levels_abs ref b : Reference.get_levels ref (abs b) = abs_levels (get_levels ref b).
Proof. by destruct ref. Qed.

Lemma map_find_abs p lv : map_find p (abs_levels lv) = abs_level <$> map_find p lv.
Proof. induction lv as [|[k l] lv IH]; [done|]. simpl. by destruct (p =? k). Qed.

Lemma abs_levels_app a b : abs_levels (a ++ b) = abs_levels a ++ abs_levels b.
Proof. apply fmap_app. Qed.

Lemma keys_abs lv : keys (abs_levels lv) = keys lv.
Proof. unfold keys, abs_levels. rewrite <- list_fmap_compose. by apply list_fmap_ext. Qed.

Lemma map_try_emplace_abs comp p lv :
  map_try_emplace comp p Reference.empty_level (abs_levels lv) =
    (abs_levels (map_try_emplace comp p empty_level lv).1, (map_try_emplace comp p empty_level lv).2).
Proof.
  induction lv as [|[k l] lv IH]; [done|]. simpl. destruct (comp p k); [done|].
  destruct (comp k p); [|done]. fold (abs_levels lv). rewrite IH.
  by destruct (map_try_emplace comp p empty_level lv).
Qed.

(** ** Snapshots *)

Lemma fst_view_entry ns : (view_entry <$> ns).*1 = node_id <$> ns.
Proof. rewrite <- list_fmap_compose. by apply list_fmap_ext. Qed.

Lemma views_cons n ns : views (n :: ns) = <[node_id n := order_view (node_order n)]> (views ns).
Proof. reflexivity. Qed.

Lemma views_perm ns1 ns2 : NoDup (node_id <$> ns1) -> ns1 ≡ₚ ns2 -> views ns1 = views ns2.
Proof. intros Hnd Hp. apply list_to_map_proper; [by rewrite fst_view_entry|]. by rewrite Hp. Qed.

Lemma views_lookup_None ns id : id ∉ (node_id <$> ns) -> views ns !! id = None.
Proof. intros H. apply not_elem_of_list_to_map_1. by rewrite fst_view_entry. Qed.

Lemma views_lookup ns n :
  NoDup (node_id <$> ns) -> n ∈ ns -> views ns !! node_id n = Some (order_view (node_order n)).
Proof.
  intros Hnd Hn. apply elem_of_list_to_map_1; [by rewrite fst_view_entry|].
  apply list_elem_of_fmap. by exists n.
Qed.

Lemma Inv_ids b : Inv b -> NoDup (node_id <$> nodes b).
Proof. intros HI. apply (inv_pool _ HI). Qed.

(** A live order first, with the others behind it. *)
Lemma views_front b n ns :
  Inv b -> nodes b ≡ₚ n :: ns ->
  views (nodes b) = <[node_id n := order_view (node_order n)]> (views ns) /\
  views ns !! node_id n = None.
Proof.
  intros HI Hp. pose proof (Inv_ids b HI) as Hnd. rewrite (views_perm _ _ Hnd Hp). split; [done|].
  rewrite Hp, fmap_cons, NoDup_cons in Hnd. apply views_lookup_None, Hnd.
Qed.

(** ** The dry run *)

Lemma preview_orders_abs l rem cnt :
  is_u64 rem -> 0 <= cnt -> cnt + Z.of_nat (length l) < U64_MOD ->
  exists r c, preview_level l rem cnt = (r, c, false) /\
    Reference.preview_orders (abs_order <$> l) rem cnt = (r, c) /\
    is_u64 r /\ 0 <= c <= cnt + Z.of_nat (length l).
Proof.
  revert rem cnt. induction l as [|n l IH]; intros rem cnt Hr Hc Hb.
  { exists rem, cnt. simpl. split_and!; try done; lia. }
  cbn [preview_level Reference.preview_orders fmap list_fmap length] in *.
  rewrite (proj2 (Z.eqb_neq _ _)) by lia. rewrite add64_small by lia. unfold abs_order at 1 2. simpl.
  change (ro_remaining_quantity (node_order n)) with (node_rem n).
  set (r := sub64 rem _). assert (is_u64 r) as Hr' by (apply Z.mod_pos_bound; lia).
  destruct (r =? 0).
  - exists r, (cnt + 1). split_and!; try done; lia.
  - destruct (IH r (cnt + 1) Hr') as (r' & c' & E1 & E2 & ? & ?); [lia..|].
    exists r', c'. split_and!; try done; lia.
Qed.

Lemma preview_abs lv price rem cnt crosses :
  is_u64 rem -> 0 <= cnt -> cnt + Z.of_nat (length (level_nodes lv)) < U64_MOD ->
  let plan := preview_levels lv price rem cnt crosses in
  Reference.preview_levels (abs_levels lv) price rem cnt crosses =
    (mp_remaining_quantity plan, mp_trade_count plan).
Proof.
  revert rem cnt. induction lv as [|[p l] lv IH]; intros rem cnt Hr Hc Hb; [done|].
  rewrite level_nodes_cons, length_app in Hb. cbn [abs_levels fmap list_fmap fst snd].
  cbn [preview_levels Reference.preview_levels]. fold (abs_levels lv).
  destruct (Z.eqb_spec rem 0) as [->|Hne]; [done|].
  rewrite (proj2 (Z.ltb_lt 0 rem)) by u64. cbn [orb andb].
  destruct (crosses p price); [|done]. cbn [negb].
  destruct (preview_orders_abs (orders l) rem cnt Hr Hc) as (r & c & E1 & E2 & ? & ?); [lia|].
  rewrite E1. unfold abs_level. cbn [Reference.rl_orders]. rewrite E2. apply IH; [done|lia|lia].
Qed.

(** ** Matching *)

(** The abstraction of a book in which one side was replaced. *)
Lemma abs_replace ref lv active tid b :
  let ns := level_nodes lv ++ level_nodes (get_levels (opposite ref) b) in
  NoDup (node_id <$> ns) ->
  abs (set_levels ref lv (set_active active (set_next_trade_id tid b))) =
    Reference.set_levels ref (abs_levels lv)
      (Reference.set_active (views ns) (Reference.set_next_trade_id tid (abs b))).
Proof.
  intros ns Hnd. destruct ref; [done|]. unfold abs, nodes. simpl. f_equal.
  symmetry. apply views_perm; [done|]. apply Permutation_app_comm.
Qed.

Lemma nodes_set_levels ref lv b :
  nodes (set_levels ref lv b) ≡ₚ level_nodes lv ++ level_nodes (get_levels (opposite ref) b).
Proof. rewrite (nodes_perm ref), get_set_levels. by rewrite get_set_levels_opposite. Qed.

Lemma get_set_reference ref lv b : Reference.get_levels ref (Reference.set_levels ref lv b) = lv.
Proof. by destruct ref. Qed.

Lemma set_set_reference ref lv lv' m b :
  Reference.set_levels ref lv (Reference.set_active m (Reference.set_levels ref lv' b)) =
  Reference.set_levels ref lv (Reference.set_active m b).
Proof. by destruct ref. Qed.

Lemma set_active_reference ref lv m b :
  Reference.set_active m (Reference.set_levels ref lv b) =
  Reference.set_levels ref lv (Reference.set_active m b).
Proof. by destruct ref. Qed.

Lemma active_set_reference ref lv b :
  Reference.active_orders_ (Reference.set_levels ref lv b) = Reference.active_orders_ b.
Proof. by destruct ref. Qed.

Lemma match_step_abs ref o rem trades b b' r :
  Inv b -> 0 < rem < U64_MOD -> next_trade_id b <> 0 -> level_nodes (get_levels ref b) <> [] ->
  match_body ref o rem trades b = Returned b' r ->
  Reference.match_step ref o rem trades (abs b) = Returned (abs b') r.
Proof.
  intros HI Hrem Htid Hne. pose proof (Inv_levels ref b HI) as Hok.
  pose proof (nodes_perm ref b) as Hperm.
  unfold match_body, Reference.match_step. rewrite get_levels_abs.
  destruct (get_levels ref b) as [|[p l] lv] eqn:Eg; [done|]. cbn [abs_levels fmap list_fmap fst snd].
  fold (abs_levels lv).
  destruct (orders l) as [|n others] eqn:Eo; [done|].
  rewrite level_nodes_cons, Eo, <- !app_comm_cons in Hperm.
  destruct (views_front b n _ HI Hperm) as [Hv Hvn].
  pose proof (Inv_ids b HI) as Hnd. rewrite Hperm, fmap_cons in Hnd.
  pose proof (head_bounds ref p l n others lv Hok Eo) as [Hn Ht].
  destruct (_ || _) eqn:Eg0; [done|]. clear Eg0.
  unfold abs_level at 1. rewrite Eo. cbn [Reference.rl_orders Reference.rl_total_quantity fmap list_fmap].
  cbn [abs_order Reference.rr_id Reference.rr_remaining_quantity Reference.rr_price Reference.rr_side
       Reference.rr_original_quantity].
  change (ro_remaining_quantity (node_order n)) with (node_rem n).
  change (ro_id (node_order n)) with (node_id n).
  change (ro_limit_price (node_order n)) with (node_price n).
  set (q := Z.min rem (node_rem n)). cbv zeta.
  destruct (sub64 (node_rem n) q =? 0) eqn:Eq.
  - cbn [active_orders set_next_trade_id].
    destruct (active_orders b !! node_id n); [|done]. intros [= <- <-].
    unfold Reference.remove_filled_front. rewrite get_set_reference.
    cbn [obind Reference.rl_orders Reference.rl_total_quantity Reference.rr_id].
    rewrite active_set_reference, set_set_reference. f_equal.
    set (lv' := match others with [] => lv | _ => _ end).
    assert (level_nodes lv' = others ++ level_nodes lv) as El by (unfold lv'; by destruct others).
    rewrite abs_replace by (rewrite El; exact (proj2 (proj1 (NoDup_cons _ _) Hnd))).
    rewrite El. cbn [abs Reference.active_orders_ Reference.set_next_trade_id].
    rewrite Hv, delete_insert_id by done. f_equal. unfold lv'. by destruct others.
  - intros [= <- <-]. rewrite active_set_reference. cbn [abs Reference.active_orders_ Reference.set_next_trade_id].
    rewrite Hv at 1. rewrite lookup_insert_eq. rewrite set_active_reference. f_equal.
    set (lv' := (p, _) :: lv).
    assert (level_nodes lv' = set_rem n (sub64 (node_rem n) q) :: others ++ level_nodes lv) as El by done.
    change (OrderBook.set_next_trade_id (add64 (next_trade_id b) 1) b) with
      (OrderBook.set_active (active_orders b) (OrderBook.set_next_trade_id (add64 (next_trade_id b) 1) b)).
    rewrite abs_replace by (rewrite El; exact Hnd). rewrite El, <- app_comm_cons, views_cons, Hv.
    rewrite insert_insert_eq. done.
Qed.

Lemma match_body_tid ref o rem trades b b' r :
  match_body ref o rem trades b = Returned b' r ->
  next_trade_id b <> 0 /\ level_nodes (get_levels ref b) <> [].
Proof.
  unfold match_body. destruct (get_levels ref b) as [|[p l] lv]; [done|].
  rewrite level_nodes_cons. destruct (orders l) as [|n os]; [done|].
  destruct (Z.eqb_spec (next_trade_id b) 0) as [E|]; [|done]. by rewrite orb_true_r.
Qed.

Lemma match_loop_abs fuel ref o rem trades b b' r :
  Inv b -> is_u64 rem ->
  match_loop fuel ref o (crosses ref) rem trades b = Returned b' r ->
  Reference.match_loop fuel ref (crosses ref) o rem trades (abs b) = Returned (abs b') r.
Proof.
  revert rem trades b. induction fuel as [|fuel IH]; intros rem trades b HI Hrem; [done|].
  cbn [match_loop Reference.match_loop]. rewrite get_levels_abs.
  assert ((0 <? rem) && match abs_levels (get_levels ref b) with
    | [] => false
    | (price, _) :: _ => crosses ref price (nlo_limit_price o)
    end = match_guard ref o (crosses ref) rem b) as ->.
  { unfold match_guard. destruct (get_levels ref b) as [|[p l] lv]; [apply andb_false_r|done]. }
  destruct (match_guard ref o (crosses ref) rem b) eqn:Eg; [|by intros [= <- <-]].
  assert (0 < rem) as Hpos.
  { unfold match_guard in Eg. destruct (get_levels ref b) as [|[? ?] ?]; [done|]. reflect. done. }
  destruct (match_body ref o rem trades b) as [b1 [rem1 trades1]| |] eqn:Eb; [|done..].
  cbn [obind fst snd]. intros E.
  destruct (match_body_tid _ _ _ _ _ _ _ Eb) as [Htid Hne].
  rewrite (match_step_abs ref o rem trades b _ _ HI ltac:(u64) Htid Hne Eb). cbn [obind fst snd].
  destruct (level_nodes (get_levels ref b)) as [|n ns] eqn:Ens; [done|].
  destruct (match_body_spec ref o rem trades b n ns HI Ens ltac:(u64) Htid)
    as (b2 & Eb2 & HI2 & _). rewrite Eb in Eb2. injection Eb2 as -> -> ->.
  pose proof (levels_ok_positive _ _ (Inv_levels ref b HI)) as Hp.
  rewrite Ens in Hp. apply Forall_cons in Hp as [Hn _].
  apply IH; [done|u64|done].
Qed.

Lemma match_fuel_abs ref b : Reference.match_fuel ref (abs b) = match_fuel ref b.
Proof.
  unfold Reference.match_fuel, match_fuel. rewrite get_levels_abs. f_equal.
  induction (get_levels ref b) as [|[p l] lv IH]; [done|].
  rewrite level_nodes_cons, length_app, <- IH. cbn [abs_levels fmap list_fmap mbind list_bind fst snd].
  rewrite length_app. unfold abs_level at 1. cbn [Reference.rl_orders]. by rewrite length_fmap.
Qed.

(** ** Resting *)

Lemma rest_on_abs ref b o q :
  Inv b -> nlo_id o ∉ (node_id <$> nodes b) ->
  exists b3, insert_resting_order None ref o q (next_arrival_sequence b) b = Returned b3 tt /\
    Reference.rest_on ref o q (abs b) =
      abs (set_next_arrival_sequence (add64 (next_arrival_sequence b3) 1) b3).
Proof.
  intros HI Hid.
  assert (active_orders b !! nlo_id o = None) as Hact.
  { rewrite (pool_active _ _ _ _ _ (inv_pool _ HI)). by apply index_nodes_lookup_None. }
  destruct (insert_resting_order_effect None ref o q (next_arrival_sequence b) b
              (lv_sorted _ _ (Inv_levels ref b HI)) Hact)
    as (lv1 & l0 & lv2 & Hlv & _ & Htry & Hk & E). cbv zeta in *.
  set (n := resting_node b o q (next_arrival_sequence b)) in *. set (p := nlo_limit_price o) in *.
  set (lv' := lv1 ++ (p, _) :: lv2) in E. eexists. split; [exact E|].
  assert (level_nodes lv' ++ level_nodes (get_levels (opposite ref) b) ≡ₚ n :: nodes b) as Hp.
  { rewrite (nodes_perm ref). unfold lv'. rewrite level_nodes_split. cbn [level_add_total level_push_back orders].
    destruct Hlv as [-> | (-> & -> & _)]; rewrite ?level_nodes_split, ?level_nodes_app; simpl orders;
      solve_Permutation. }
  assert (views (nodes (set_levels ref lv' b)) = <[nlo_id o := order_view (node_order n)]> (views (nodes b))) as Hv.
  { change (nlo_id o) with (node_id n). rewrite <- views_cons.
    symmetry. apply views_perm; [|by rewrite nodes_set_levels].
    rewrite fmap_cons. constructor; [exact Hid|by apply Inv_ids]. }
  unfold Reference.rest_on. fold p. rewrite get_levels_abs, map_try_emplace_abs, Htry.
  rewrite abs_levels_app. change (abs_levels ((p, l0) :: lv2)) with ((p, abs_level l0) :: abs_levels lv2).
  rewrite map_update_split by (by rewrite keys_abs).
  rewrite active_set_reference. cbn [abs Reference.active_orders_].
  rewrite views_lookup_None by done. rewrite set_active_reference.
  assert (abs_levels lv1 ++ (p, Reference.mkPriceLevel (Reference.rl_orders (abs_level l0) ++
    [Reference.mkRestingOrder (nlo_id o) (nlo_side o) p (nlo_quantity o) q])
    (add64 (Reference.rl_total_quantity (abs_level l0)) q)) :: abs_levels lv2 = abs_levels lv') as ->.
  { unfold lv'. rewrite abs_levels_app. f_equal.
    cbn [abs_levels fmap list_fmap fst snd]. f_equal. f_equal. unfold abs_level. simpl. f_equal.
    by rewrite fmap_app. }
  unfold abs, nodes in *. destruct ref; simpl in Hv |- *; rewrite Hv; reflexivity.
Qed.

(** ** [submit] *)

Lemma preview_side b o :
  Inv b -> wf_order o ->
  (if nlo_side o =? Buy
   then Reference.preview (Reference.asks_ (abs b)) (nlo_limit_price o) (nlo_quantity o) ask_crosses
   else Reference.preview (Reference.bids_ (abs b)) (nlo_limit_price o) (nlo_quantity o) bid_crosses) =
  (submit_residual b o, Z.of_nat (length (submit_fills b o))).
Proof.
  intros HI Hwf. pose proof (submit_plan b o HI Hwf) as Hplan.
  pose proof (Inv_nodes_bound b HI) as Hb. unfold nodes in Hb. rewrite length_app in Hb.
  destruct Hwf as (_ & _ & _ & Hq). unfold Reference.preview, preview_match in *.
  destruct (nlo_side o =? Buy); simpl Reference.asks_; simpl Reference.bids_;
    rewrite preview_abs by (done || lia); by rewrite Hplan.
Qed.

Lemma would_overflow_abs b o q :
  Reference.would_overflow_at_resting_level (abs b) o q =
  (if nlo_side o =? Buy then resting_overflows BidLevels b (nlo_limit_price o) q
   else resting_overflows AskLevels b (nlo_limit_price o) q).
Proof.
  unfold Reference.would_overflow_at_resting_level, resting_overflows. simpl.
  destruct (nlo_side o =? Buy); rewrite map_find_abs; by destruct (map_find _ _).
Qed.

Lemma match_side_abs o rem trades b :
  (if nlo_side o =? Buy then Reference.match_buy o rem trades b
   else Reference.match_sell o rem trades b) =
  Reference.match_loop (Reference.match_fuel (match_ref o) b) (match_ref o) (crosses (match_ref o))
    o rem trades b.
Proof. unfold match_ref. by destruct (nlo_side o =? Buy). Qed.

Lemma rest_side_abs o q b :
  Reference.rest o q b = Reference.rest_on (opposite (match_ref o)) o q b.
Proof. unfold Reference.rest, match_ref. by destruct (nlo_side o =? Buy). Qed.

(** The accepted part of [submit], on both books. *)
Lemma submit_execute_abs b o :
  Inv b -> wf_order o -> accept b o ->
  let plan := mkMatchPlan (submit_residual b o) (Z.of_nat (length (submit_fills b o))) in
  exists b',
    submit_execute None o plan b =
      Returned b' (trades_of (next_trade_id b) (nlo_id o) (submit_fills b o)) /\
    exists b2,
      Reference.match_loop (Reference.match_fuel (match_ref o) (abs b)) (match_ref o)
        (crosses (match_ref o)) o (nlo_quantity o) []
        (Reference.set_seen ({[nlo_id o]} ∪ seen_order_ids b) (abs b)) =
        Returned b2 (submit_residual b o, trades_of (next_trade_id b) (nlo_id o) (submit_fills b o)) /\
      (if 0 <? submit_residual b o then Reference.rest o (submit_residual b o) b2 else b2) = abs b'.
Proof.
  intros HI Hwf Hacc plan. unfold submit_execute. simpl.
  rewrite bool_decide_false by apply Hacc. simpl. rewrite match_side.
  destruct (submit_match_spec b o HI Hwf Hacc) as (b2 & E2 & HI2 & Hm & Hs & Hn & Ho).
  set (b1 := set_seen ({[nlo_id o]} ∪ seen_order_ids b) b) in *.
  rewrite E2. simpl. rewrite Z.eqb_refl, trades_of_length, Z.eqb_refl. simpl.
  assert (Reference.match_loop (Reference.match_fuel (match_ref o) (abs b)) (match_ref o)
        (crosses (match_ref o)) o (nlo_quantity o) [] (abs b1) =
        Returned (abs b2) (submit_residual b o, trades_of (next_trade_id b) (nlo_id o) (submit_fills b o))) as El.
  { apply match_loop_abs; [by apply Inv_set_seen|by destruct Hwf as (_ & _ & _ & ?)|].
    rewrite match_fuel_abs. exact E2. }
  destruct (0 <? submit_residual b o) eqn:Er.
  - rewrite rest_side.
    assert (nlo_id o ∉ (node_id <$> nodes b2)) as Hnew.
    { pose proof (Inv_unseen _ _ HI (acc_new _ _ Hacc)) as Hu.
      rewrite (nodes_perm (match_ref o)), fmap_app, not_elem_of_app in Hu |- *.
      rewrite (proj1 Hm), Ho. destruct Hu as [Hu1 Hu2]. split; [|done]. by intros Hin%sweep_rest_ids. }
    destruct (rest_on_abs (opposite (match_ref o)) b2 o (submit_residual b o) HI2 Hnew) as (b3 & E3 & Hr).
    rewrite E3. cbn [obind]. eexists. split; [reflexivity|]. exists (abs b2). split; [exact El|].
    by rewrite rest_side_abs.
  - exists b2. split; [done|]. exists (abs b2). split; [exact El|done].
Qed.

Lemma submit_abs b o b' r :
  Inv b -> wf_order o -> submit None b o = Returned b' r ->
  Reference.submit (abs b) o = Returned (abs b') r.
Proof.
  intros HI Hwf. pose proof (submit_spec None b o HI Hwf) as Hspec.
  pose proof (submit_residual_range b o HI Hwf) as Hres.
  unfold submit, Reference.submit.
  pose proof (preview_side b o HI Hwf) as Hp. unfold ask_crosses, bid_crosses in Hp. rewrite Hp. clear Hp.
  rewrite submit_plan by done. cbn [mp_remaining_quantity mp_trade_count].
  unfold is_valid_side. rewrite would_overflow_abs.
  destruct (nlo_id o =? 0) eqn:G1; [by intros [= <- <-]|].
  rewrite <- negb_orb. destruct (negb ((nlo_side o =? Buy) || _)) eqn:G2; [by intros [= <- <-]|].
  destruct (nlo_limit_price o =? 0) eqn:G3; [by intros [= <- <-]|].
  destruct (nlo_quantity o =? 0) eqn:G4; [by intros [= <- <-]|].
  cbn [abs Reference.seen_ids_ Reference.next_arrival_sequence_].
  destruct (bool_decide (nlo_id o ∈ seen_order_ids b)) eqn:G5; [by intros [= <- <-]|].
  change (Reference.can_issue_trade_ids (abs b)) with (can_issue_trade_ids b).
  destruct (negb (can_issue_trade_ids b _)) eqn:G6; [by intros [= <- <-]|].
  destruct ((0 <? submit_residual b o) && (next_arrival_sequence b =? 0)) eqn:G7; [by intros [= <- <-]|].
  destruct ((0 <? submit_residual b o) && (if nlo_side o =? Buy then _ else _)) eqn:G8; [by intros [= <- <-]|].
  intros E. assert (accept b o) as Hacc.
  { destruct (rejection b o) as [reason|] eqn:Hrej; [exfalso|by destruct Hspec].
    unfold submit, is_valid_side in Hspec. rewrite G1, G2, G3, G4, submit_plan in Hspec by done.
    cbn [mp_remaining_quantity mp_trade_count] in Hspec. rewrite G5, G6, G7, G8 in Hspec.
    destruct (submit_execute _ _ _ _) as [b1 ts| |]; [|done..]. simpl in Hspec.
    destruct (invariants_hold b1); done. }
  destruct (submit_execute_abs b o HI Hwf Hacc) as (b1 & E1 & b2 & E2 & Er).
  rewrite E1 in E. simpl in E. destruct (invariants_hold b1); [|done]. simpl in E. injection E as <- <-.
  rewrite match_side_abs.
  change (Reference.mkReferenceOrderBook (abs_levels (bids b)) (abs_levels (asks b)) (views (nodes b))
            (seen_order_ids b) (next_arrival_sequence b) (next_trade_id b)) with (abs b).
  assert (forall s, Reference.match_fuel (match_ref o) (Reference.set_seen s (abs b))
    = Reference.match_fuel (match_ref o) (abs b)) as -> by (intros; by destruct (match_ref o)).
  rewrite E2. simpl. by rewrite Er.
Qed.

(** ** [cancel] *)

Lemma cancel_orders_none id l :
  id ∉ (node_id <$> l) -> Reference.cancel_orders id (abs_order <$> l) = None.
Proof.
  induction l as [|n l IH]; [done|]. rewrite fmap_cons, not_elem_of_cons. intros [Hne Hn].
  rewrite fmap_cons. cbn [Reference.cancel_orders abs_order Reference.rr_id].
  rewrite (proj2 (Z.eqb_neq _ _)) by done. cbn [negb]. by rewrite IH.
Qed.

Lemma cancel_orders_found l1 n l2 :
  node_id n ∉ (node_id <$> l1) ->
  Reference.cancel_orders (node_id n) (abs_order <$> (l1 ++ n :: l2)) =
    Some (node_rem n, abs_order <$> (l1 ++ l2)).
Proof.
  induction l1 as [|m l1 IH]; [simpl; by rewrite Z.eqb_refl|].
  rewrite <- !app_comm_cons, !fmap_cons, not_elem_of_cons. intros [Hne Hn].
  cbn [Reference.cancel_orders abs_order Reference.rr_id].
  rewrite (proj2 (Z.eqb_neq _ _)) by done. cbn [negb]. by rewrite IH.
Qed.

Lemma cancel_levels_none id lv :
  id ∉ (node_id <$> level_nodes lv) -> Reference.cancel_levels id (abs_levels lv) = None.
Proof.
  induction lv as [|[p l] lv IH]; [done|]. rewrite level_nodes_cons, fmap_app, not_elem_of_app.
  intros [Hl Hlv]. change (abs_levels ((p, l) :: lv)) with ((p, abs_level l) :: abs_levels lv).
  cbn [Reference.cancel_levels abs_level Reference.rl_orders].
  rewrite cancel_orders_none by done. by rewrite IH.
Qed.

Lemma cancel_levels_found lv1 p l n l1 l2 lv2 :
  node_id n ∉ (node_id <$> level_nodes lv1) -> orders l = l1 ++ n :: l2 ->
  node_id n ∉ (node_id <$> l1) -> 0 <= node_rem n <= total_quantity l -> total_quantity l < U64_MOD ->
  Reference.cancel_levels (node_id n) (abs_levels (lv1 ++ (p, l) :: lv2)) =
    Some (node_rem n, abs_levels (erase_node lv1 p l n (l1 ++ l2) lv2)).
Proof.
  intros Hlv Eo Hl1 Hq Hb. induction lv1 as [|[k m] lv1 IH].
  - change (abs_levels ([] ++ (p, l) :: lv2)) with ((p, abs_level l) :: abs_levels lv2).
    cbn [Reference.cancel_levels abs_level Reference.rl_orders Reference.rl_total_quantity].
    rewrite Eo, cancel_orders_found by done. rewrite sub64_small by lia.
    f_equal. f_equal. unfold erase_node. by destruct (l1 ++ l2).
  - rewrite level_nodes_cons, fmap_app, not_elem_of_app in Hlv. destruct Hlv as [Hm Hlv].
    change (abs_levels (((k, m) :: lv1) ++ (p, l) :: lv2))
      with ((k, abs_level m) :: abs_levels (lv1 ++ (p, l) :: lv2)).
    cbn [Reference.cancel_levels abs_level Reference.rl_orders].
    rewrite cancel_orders_none by done.
    rewrite IH by done. unfold erase_node. by destruct (l1 ++ l2).
Qed.

(** The scan of the reference finds a live order where the locator says. *)
Lemma cancel_from_abs b n ref lv1 l lv2 l1 l2 :
  Inv b -> n ∈ nodes b -> get_levels ref b = lv1 ++ (node_price n, l) :: lv2 ->
  orders l = l1 ++ n :: l2 -> level_ok ref (node_price n, l) ->
  let lv' := erase_node lv1 (node_price n) l n (l1 ++ l2) lv2 in
  Reference.cancel_from ref (node_id n) (abs b) =
    Some (abs (set_active (delete (node_id n) (active_orders b)) (set_levels ref lv' b)), node_rem n).
Proof.
  intros HI Hn Eg Eo Hl lv'. unfold Reference.cancel_from. rewrite get_levels_abs, Eg.
  assert (Hp : nodes b ≡ₚ n :: (level_nodes lv1 ++ l1 ++ l2 ++ level_nodes lv2)
                           ++ level_nodes (get_levels (opposite ref) b)).
  { rewrite (nodes_perm ref), Eg, level_nodes_split, Eo. solve_Permutation. }
  pose proof (Inv_ids b HI) as Hnd. rewrite Hp, fmap_cons, NoDup_cons in Hnd. destruct Hnd as [Hfresh Hnd].
  rewrite !fmap_app, !not_elem_of_app in Hfresh. destruct_and?.
  pose proof (level_ok_sum_nonneg _ _ _ (l1 ++ l2) Hl ltac:(rewrite Eo; set_solver)) as Hnn.
  rewrite (cancel_levels_found lv1 _ l n l1 l2 lv2) by
    (done || (destruct Hl as [_ _ Ho _ Et Eb]; simpl in *; rewrite Eo, sum_rem_app in *; simpl in *;
              apply Forall_app in Ho as [_ [[] _]%Forall_cons]; unfold node_rem in *; lia)).
  pose proof (Inv_levels ref b HI) as Hok. rewrite Eg in Hok.
  destruct (erase_node_ok ref lv1 _ l n l1 l2 lv2 Hok Eo) as (_ & R2 & _). fold lv' in R2 |- *.
  rewrite <- set_levels_active. f_equal. f_equal.
  assert (b = set_next_trade_id (next_trade_id b) b) as Eb by (by destruct b).
  rewrite Eb at 4. rewrite abs_replace; [|rewrite R2, <- !app_assoc in *; done].
  rewrite R2, set_active_reference. cbn [abs Reference.active_orders_].
  destruct (views_front b n _ HI Hp) as [-> Hnone]. rewrite delete_insert_id by done.
  rewrite <- !app_assoc in *. by destruct ref.
Qed.

Lemma cancel_abs b id b' r :
  Inv b -> cancel b id = Returned b' r -> Reference.cancel (abs b) id = (abs b', r).
Proof.
  intros HI. unfold Reference.cancel.
  destruct (decide (id ∈ (node_id <$> nodes b))) as [(n & -> & Hn)%list_elem_of_fmap|Hid].
  - unfold cancel. rewrite (pool_ok_lookup _ _ _ _ n _ (inv_pool _ HI) Hn).
    destruct (Inv_node_place b n HI Hn) as (ref & lv1 & l & lv2 & l1 & l2 & Hs & Eg & Hk & Eo & Ha & Hl).
    rewrite (cancel_side _ _ _ ref), (cancel_resting_order_spec b n ref lv1 l lv2 l1 l2) by done.
    cbn [obind]. destruct (invariants_hold _); [|done]. cbn [assert_that]. intros [= <- <-].
    pose proof (cancel_from_abs b n ref lv1 l lv2 l1 l2 HI Hn Eg Eo Hl) as Hc. cbv zeta in Hc.
    rewrite (proj1 (set_levels_fields ref _ b)). destruct ref; [by rewrite Hc|].
    unfold Reference.cancel_from at 1. rewrite get_levels_abs, cancel_levels_none; [by rewrite Hc|].
    pose proof (Inv_ids b HI) as Hnd. unfold nodes in Hnd. rewrite fmap_app in Hnd.
    apply NoDup_app in Hnd as (_ & Hd & _). intros Hin. apply (Hd _ Hin).
    simpl in Eg. rewrite Eg, level_nodes_split, Eo. apply list_elem_of_fmap_2. set_solver.
  - destruct (cancel_spec b id HI) as [[_ ->]|(n & ? & Hn & <- & _)].
    2:{ destruct Hid. by apply list_elem_of_fmap_2. }
    intros [= <- <-]. unfold nodes in Hid. rewrite fmap_app, not_elem_of_app in Hid.
    unfold Reference.cancel_from. rewrite !get_levels_abs.
    by rewrite !cancel_levels_none by apply Hid.
Qed.

(** ** Queries *)

(** The two books show the same: best quotes, depth to any number of levels,
    every order and their number. *)
Record same_view (b : Impl) (rb : Reference.ReferenceOrderBook) : Prop := {
  sv_best_bid : best_bid b = Reference.best_bid rb;
  sv_best_ask : best_ask b = Reference.best_ask rb;
  sv_depth side max : is_u64 max -> depth b side max = take (Z.to_nat max) (Reference.depth rb side);
  sv_find id : find_order b id = Returned b (Reference.find rb id);
  sv_count : active_order_count b = Reference.active_order_count rb;
}.

Lemma depth_from_abs lv : Reference.depth_from (abs_levels lv) = level_view <$> lv.
Proof.
  unfold Reference.depth_from, abs_levels. rewrite <- list_fmap_compose. apply list_fmap_ext.
  intros _ [p l] _. unfold level_view. simpl. by rewrite length_fmap.
Qed.

Lemma abs_same_view b : Inv b -> same_view b (abs b).
Proof.
  intros HI. split.
  - unfold best_bid, Reference.best_bid. simpl. by destruct (bids b) as [|[]].
  - unfold best_ask, Reference.best_ask. simpl. by destruct (asks b) as [|[]].
  - intros side max Hmax. unfold Reference.depth.
    destruct (Z.eqb_spec side Buy) as [->|]; [|destruct (Z.eqb_spec side Sell) as [->|]].
    + rewrite (depth_take BidLevels) by done. simpl. by rewrite depth_from_abs, fmap_take.
    + rewrite (depth_take AskLevels) by done. simpl. by rewrite depth_from_abs, fmap_take.
    + rewrite take_nil. unfold depth, is_valid_side.
      rewrite !(proj2 (Z.eqb_neq side _)) by done. by rewrite orb_true_r.
  - intros id. unfold Reference.find. simpl.
    destruct (find_order_spec b id HI) as [[Hid ->]|(n & Hn & <- & ->)].
    + by rewrite views_lookup_None.
    + by rewrite (views_lookup _ _ (Inv_ids b HI) Hn).
  - unfold active_order_count, Reference.active_order_count. simpl. f_equal.
    rewrite (pool_ok_size _ _ _ _ _ (inv_pool _ HI)). pose proof (Inv_ids b HI) as Hnd. revert Hnd.
    induction (nodes b) as [|n ns IH]; [done|]. rewrite fmap_cons, NoDup_cons. intros [Hn Hnd].
    rewrite views_cons, map_size_insert_None by (by apply views_lookup_None).
    simpl. by rewrite IH.
Qed.

(** ** Traces *)

Inductive CommandResult := SubmitDone (r : SubmitResult) | CancelDone (r : CancelResult).

Definition book_command (b : Impl) (c : Command) : option (Impl * CommandResult) :=
  match c with
  | CSubmit o => match submit None b o with Returned b' r => Some (b', SubmitDone r) | _ => None end
  | CCancel id => match cancel b id with Returned b' r => Some (b', CancelDone r) | _ => None end
  end.

Definition reference_command (b : Reference.ReferenceOrderBook) (c : Command)
  : option (Reference.ReferenceOrderBook * CommandResult) :=
  match c with
  | CSubmit o =>
      match Reference.submit b o with Returned b' r => Some (b', SubmitDone r) | _ => None end
  | CCancel id => let '(b', r) := Reference.cancel b id in Some (b', CancelDone r)
  end.

(** Run a trace, collecting the result of every command. *)
Fixpoint run_trace {B} (command : B -> Command -> option (B * CommandResult)) (b : B)
    (cs : list Command) : option (B * list CommandResult) :=
  match cs with
  | [] => Some (b, [])
  | c :: cs' =>
      match command b c with
      | None => None
      | Some (b', r) =>
          match run_trace command b' cs' with
          | None => None
          | Some (b'', rs) => Some (b'', r :: rs)
          end
      end
  end.

Lemma command_abs b c :
  Inv b -> wf_command c ->
  exists b' r, book_command b c = Some (b', r) /\ Inv b' /\
    reference_command (abs b) c = Some (abs b', r).
Proof.
  intros HI Hc. destruct c as [o|id]; simpl.
  - pose proof (submit_spec None b o HI Hc) as H.
    assert (exists b' r, submit None b o = Returned b' r /\ Inv b') as (b' & r & E & HI').
    { destruct (rejection b o); [by exists b, (rejected r)|]. destruct H as [_ H].
      rewrite andb_false_r in H. destruct H as (b' & ? & ? & _). by eexists _, _. }
    exists b', (SubmitDone r). rewrite E, (submit_abs b o b' r) by done. done.
  - destruct (cancel_Inv b id HI) as (b' & r & E & HI'). exists b', (CancelDone r).
    rewrite E, (cancel_abs b id b' r) by done. done.
Qed.

Lemma run_trace_abs b cs :
  Inv b -> Forall wf_command cs ->
  exists b' rs, run_trace book_command b cs = Some (b', rs) /\ Inv b' /\
    run_trace reference_command (abs b) cs = Some (abs b', rs).
Proof.
  intros HI Hwf. revert b HI. induction Hwf as [|c cs Hc _ IH]; intros b HI; simpl; [by exists b, []|].
  destruct (command_abs b c HI Hc) as (b1 & r & -> & HI1 & ->).
  destruct (IH b1 HI1) as (b2 & rs & -> & HI2 & ->). by exists b2, (r :: rs).
Qed.

(** C7: the order book and the reference book of the differential tests agree:
    on every sequence of submissions and cancellations from empty books, both
    run to the end, every command has the same result on both, trades and ids
    included, and afterwards every query has the same answer. *)
Theorem differential_equivalence cs :
  Forall wf_command cs ->
  exists b rb rs,
    run_trace book_command new_book cs = Some (b, rs) /\
    run_trace reference_command Reference.new_reference cs = Some (rb, rs) /\
    same_view b rb.
Proof.
  intros Hwf. destruct (run_trace_abs new_book cs Inv_new_book Hwf) as (b & rs & E & HI & Er).
  exists b, (abs b), rs. split_and!; [done|exact Er|]. by apply abs_same_view.
Qed.

Lemma differential_equivalence_witness :
  exists b rb rs,
    run_trace book_command new_book sample_commands = Some (b, rs) /\
    run_trace reference_command Reference.new_reference sample_commands = Some (rb, rs) /\
    same_view b rb.
Proof. exact (differential_equivalence sample_commands sample_commands_wf). Defined.
