(* ===== verification/Workload.v ===== *)
(** * The workload of the benchmarks

    benchmarks/workload.hpp and the program benchmarks/profile_workload.cpp: a
    generator of a mixed stream of commands, its replay on an order book, and an
    analysis of the paths it takes.  Both abort the process when a command is not
    accepted.  They are clients of the order book, so what they need of it is
    stated first: an order with valid fields and a new id is accepted as long as
    less than [2^64 - 1] units were submitted to the book. *)
From S2P Require Import Prelude StdMap Types OrderBook OrderBookInv Matching OrderBookOps OrderBookProps.

(** ** A book with room *)

(** What a book on which orders for [S] units were submitted can have used up. *)
Record roomy (S : Z) (b : Impl) : Prop := {
  ro_inv : Inv b;
  ro_sum : sum_rem (nodes b) <= S;
  ro_sequence : 0 < next_arrival_sequence b <= S + 1;
  ro_trade_ids : 0 < next_trade_id b <= S + 1;
}.

Lemma roomy_new : roomy 0 new_book.
Proof. split; [apply Inv_new_book|simpl; lia..]. Qed.

Lemma sum_rem_filter P `{!forall n, Decision (P n)} ns :
  positive_nodes ns -> 0 <= sum_rem (filter P ns) <= sum_rem ns.
Proof.
  induction 1 as [|n ns Hn _ IH]; [done|]. rewrite filter_cons. case_decide; simpl; lia.
Qed.

(** Every fill takes at least one unit. *)
Lemma sweep_length_filled xs rem ns :
  positive_nodes ns -> Z.of_nat (length (sweep xs rem ns)) <= filled (sweep xs rem ns).
Proof.
  intros Hp. revert rem. induction Hp as [|n ns Hn _ IH]; intros rem; simpl; [lia|].
  case_test; simpl; [|lia]. specialize (IH (rem - Z.min rem (node_rem n))). lia.
Qed.

Lemma quantity_at_le ref b p : Inv b -> quantity_at ref b p <= sum_rem (nodes b).
Proof.
  intros HI. rewrite (sum_rem_perm _ _ (nodes_perm ref b)), sum_rem_app. unfold quantity_at, orders_at.
  pose proof (sum_rem_filter (fun n => node_price n = p) _ (levels_ok_positive _ _ (Inv_levels ref b HI))).
  pose proof (sum_rem_filter (fun n => True) _ (levels_ok_positive _ _ (Inv_levels (opposite ref) b HI))). lia.
Qed.

(** An order that is well formed and new. *)
Record proper (b : Impl) (o : NewLimitOrder) : Prop := {
  pr_wf : wf_order o;
  pr_id : nlo_id o <> 0;
  pr_side : nlo_side o = Buy \/ nlo_side o = Sell;
  pr_price : nlo_limit_price o <> 0;
  pr_quantity : nlo_quantity o <> 0;
  pr_new : nlo_id o ∉ seen_order_ids b;
}.

Lemma roomy_accepts S b o :
  roomy S b -> proper b o -> 0 <= S -> S + nlo_quantity o < U64_MAX -> rejection b o = None.
Proof.
  intros [HI Hs Hseq Htid] [Hwf H1 H2 H3 H4 H5] HS Hq. unfold rejection.
  rewrite (proj2 (Z.eqb_neq _ 0)) by done. rewrite (proj2 (Z.eqb_neq (nlo_limit_price o) 0)) by done.
  rewrite (proj2 (Z.eqb_neq (nlo_quantity o) 0)) by done. rewrite bool_decide_false by done.
  pose proof (submit_residual_range b o HI Hwf) as Hr.
  pose proof (sweep_length_filled (fun k => crosses (match_ref o) k (nlo_limit_price o)) (nlo_quantity o) _
    (levels_ok_positive _ _ (Inv_levels (match_ref o) b HI))) as Hl. fold (submit_fills b o) in Hl.
  assert (filled (submit_fills b o) <= nlo_quantity o) by (unfold submit_residual in Hr; lia).
  assert (ids_available (next_trade_id b) (length (submit_fills b o))) as Hids.
  { right. lia. }
  rewrite (bool_decide_true _ Hids). rewrite (proj2 (Z.eqb_neq (next_arrival_sequence b) 0)) by lia.
  rewrite andb_false_r. pose proof (quantity_at_le (opposite (match_ref o)) b (nlo_limit_price o) HI).
  rewrite (proj2 (Z.ltb_ge U64_MAX _)) by lia. rewrite andb_false_r.
  by destruct H2 as [-> | ->].
Qed.

(** Such an order is accepted, and its quantity is what is used up. *)
Lemma roomy_submit S b o :
  roomy S b -> proper b o -> 0 <= S -> S + nlo_quantity o < U64_MAX ->
  exists b', submit None b o = Returned b' (accepted_result b o) /\
    roomy (S + nlo_quantity o) b' /\ matched b o b' /\ rested b o b'.
Proof.
  intros Hr Hp HS Hq. pose proof (roomy_accepts _ _ _ Hr Hp HS Hq) as Hrej.
  destruct Hr as [HI Hs Hseq Htid]. destruct Hp as [Hwf _ _ _ Hq0 _].
  pose proof (submit_spec None b o HI Hwf) as Hsub. rewrite Hrej in Hsub. destruct Hsub as [_ Hsub].
  rewrite andb_false_r in Hsub. destruct Hsub as (b' & E & HI' & Hm & Hre). exists b'. split_and!; try done.
  pose proof (submit_residual_range b o HI Hwf) as Hr. pose proof (submit_sum _ _ _ HI Hwf Hm Hre) as Hsum.
  assert (0 <= nlo_quantity o) by (destruct Hwf as (_ & _ & _ & ?); u64).
  pose proof (sweep_length_filled (fun k => crosses (match_ref o) k (nlo_limit_price o)) (nlo_quantity o) _
    (levels_ok_positive _ _ (Inv_levels (match_ref o) b HI))) as Hl. fold (submit_fills b o) in Hl.
  assert (filled (submit_fills b o) = nlo_quantity o - submit_residual b o) as Ef by (unfold submit_residual; lia).
  split; [done|lia| |].
  - unfold rested in Hre. destruct (0 <? submit_residual b o).
    + destruct Hre as [-> _]. rewrite add64_small by lia. lia.
    + destruct Hre as [-> _]. lia.
  - destruct Hm as (_ & _ & ->). rewrite add64_small by lia. lia.
Qed.

Lemma roomy_removed S n b b' :
  roomy S b -> Inv b' -> removed n b b' -> roomy S b'.
Proof.
  intros [HI Hs Hseq Htid] HI' (ref & ns1 & ns2 & _ & E1 & E2 & E3 & _ & E5 & E6).
  split; [done| |by rewrite E5|by rewrite E6].
  rewrite (sum_rem_perm _ _ (nodes_perm ref b')), (sum_rem_perm _ _ (nodes_perm ref b)) in *.
  pose proof (levels_ok_positive _ _ (Inv_levels ref b HI)) as Hpos. rewrite E1 in Hs, Hpos. rewrite E2, E3.
  apply Forall_app in Hpos as [_ [Hn _]%Forall_cons]. rewrite !sum_rem_app in *. simpl in Hs. lia.
Qed.

(** ** The generator, the replay and the analysis *)

Module Workload.

Inductive CommandType := Submit | Cancel.

Record Command := mkCommand {
  type : CommandType;
  order : NewLimitOrder;
  cancel_id : OrderId;
}.

Definition default_order : NewLimitOrder := mkNewLimitOrder 0 Buy 0 0.
Definition submit_command (o : NewLimitOrder) : Command := mkCommand Submit o 0.
Definition cancel_command (id : OrderId) : Command := mkCommand Cancel default_order id.

Record ReplayStats := mkReplayStats {
  operations : Z;
  trades : Z;
  checksum : Z;
}.

Record WorkloadCoverage := mkWorkloadCoverage {
  passive_submissions : Z;
  crossing_submissions : Z;
  full_fills : Z;
  partial_fills : Z;
  same_level_matches : Z;
  multi_level_matches : Z;
  cancellations : Z;
}.

(** One turn of the loop of [make_mixed_workload]. *)
Definition workload_block (block next_order_id : Z) : list Command :=
  let offset := block in
  let traded_price := (100 + offset mod 5)%u64 in
  let sell_quantity := (2 + offset mod 3)%u64 in
  let buy_quantity := (1 + offset mod 4)%u64 in
  let passive_bid_id := (next_order_id + 2)%u64 in
  [submit_command (mkNewLimitOrder next_order_id Sell traded_price sell_quantity);
   submit_command (mkNewLimitOrder (next_order_id + 1)%u64 Buy traded_price buy_quantity);
   submit_command (mkNewLimitOrder (next_order_id + 1 + 1)%u64 Buy (80 + offset mod 5)%u64 (1 + offset mod 5)%u64);
   cancel_command passive_bid_id].

(** The loop, with the number of turns to go. *)
Fixpoint workload_from (turns : nat) (block next_order_id : Z) : list Command :=
  match turns with
  | 0%nat => []
  | S turns =>
      workload_block block next_order_id ++
      workload_from turns (block + 1)%u64 (next_order_id + 1 + 1 + 1)%u64
  end.

Definition make_mixed_workload (blocks : nat) : list Command := workload_from blocks 0 1.

Definition mix_trade (checksum : Z) (trade : Trade) : Z :=
  Z.lxor checksum
    (Z.lxor (Z.lxor (Z.lxor (Z.lxor (trade_id trade) (maker_order_id trade)) (taker_order_id trade))
       (execution_price trade)) (execution_quantity trade)).

(** One command of [replay]; [std::abort] ends the process. *)
Definition replay_command (stats : ReplayStats) (command : Command) (book : Impl) : outcome Impl ReplayStats :=
  let! (book, stats) :=
    match type command with
    | Submit =>
        let! (book, result) := submit None book (order command) in
        if negb (accepted result) then Crashed Terminate else
        let checksum := (checksum stats + (sr_executed_quantity result + sr_resting_quantity result)%u64)%u64 in
        Returned book
          (mkReplayStats (operations stats) (trades stats + Z.of_nat (length (sr_trades result)))%u64
             (foldl mix_trade checksum (sr_trades result)))
    | Cancel =>
        let! (book, result) := cancel book (cancel_id command) in
        if negb (bool_decide (cr_status result = Cancelled)) then Crashed Terminate else
        Returned book
          (mkReplayStats (operations stats) (trades stats) (checksum stats + cr_cancelled_quantity result)%u64)
    end in
  Returned book (mkReplayStats (operations stats + 1)%u64 (trades stats) (checksum stats)).

Fixpoint replay_from (stats : ReplayStats) (commands : list Command) (book : Impl) : outcome Impl ReplayStats :=
  match commands with
  | [] => Returned book stats
  | command :: commands =>
      let! (book, stats) := replay_command stats command book in replay_from stats commands book
  end.

Definition replay (book : Impl) (commands : list Command) : outcome Impl ReplayStats :=
  replay_from (mkReplayStats 0 0 0) commands book.

(** [++coverage.passive_submissions;] and the like. *)
Definition count_cancellation (c : WorkloadCoverage) : WorkloadCoverage :=
  mkWorkloadCoverage (passive_submissions c) (crossing_submissions c) (full_fills c) (partial_fills c)
    (same_level_matches c) (multi_level_matches c) (cancellations c + 1)%u64.
Definition count_passive (c : WorkloadCoverage) : WorkloadCoverage :=
  mkWorkloadCoverage (passive_submissions c + 1)%u64 (crossing_submissions c) (full_fills c) (partial_fills c)
    (same_level_matches c) (multi_level_matches c) (cancellations c).
Definition count_crossing (full multiple : bool) (c : WorkloadCoverage) : WorkloadCoverage :=
  mkWorkloadCoverage (passive_submissions c) (crossing_submissions c + 1)%u64
    (if full then full_fills c + 1 else full_fills c)%u64 (if full then partial_fills c else partial_fills c + 1)%u64
    (if multiple then same_level_matches c else same_level_matches c + 1)%u64
    (if multiple then multi_level_matches c + 1 else multi_level_matches c)%u64 (cancellations c).

Definition analyze_command (coverage : WorkloadCoverage) (command : Command) (book : Impl)
  : outcome Impl WorkloadCoverage :=
  match type command with
  | Cancel =>
      let! (book, result) := cancel book (cancel_id command) in
      if negb (bool_decide (cr_status result = Cancelled)) then Crashed Terminate else
      Returned book (count_cancellation coverage)
  | Submit =>
      let! (book, result) := submit None book (order command) in
      if negb (accepted result) then Crashed Terminate else
      match sr_trades result with
      | [] => Returned book (count_passive coverage)
      | first :: _ =>
          let crosses_multiple_levels :=
            existsb (fun trade => negb (execution_price trade =? execution_price first)) (sr_trades result) in
          Returned book (count_crossing (sr_resting_quantity result =? 0) crosses_multiple_levels coverage)
      end
  end.

Fixpoint analyze_from (coverage : WorkloadCoverage) (commands : list Command) (book : Impl)
  : outcome Impl WorkloadCoverage :=
  match commands with
  | [] => Returned book coverage
  | command :: commands =>
      let! (book, coverage) := analyze_command coverage command book in analyze_from coverage commands book
  end.

Definition analyze_coverage (commands : list Command) : outcome Impl WorkloadCoverage :=
  analyze_from (mkWorkloadCoverage 0 0 0 0 0 0 0) commands new_book.

Definition exercises_required_paths (coverage : WorkloadCoverage) : bool :=
  (0 <? passive_submissions coverage) && (0 <? crossing_submissions coverage) &&
  (0 <? full_fills coverage) && (0 <? partial_fills coverage) &&
  (0 <? same_level_matches coverage) && (0 <? multi_level_matches coverage) &&
  (0 <? cancellations coverage).

(** ** profile_workload.cpp *)

(** [isspace] in the C locale. *)
Definition isspace (c : Z) : bool := (c =? 32) || ((9 <=? c) && (c <=? 13)).

Fixpoint skip_space (text : list Z) : list Z :=
  match text with
  | c :: rest => if isspace c then skip_space rest else text
  | [] => []
  end.

(** The number that the leading digits spell, and what follows them. *)
Fixpoint read_digits (text : list Z) (value : Z) : Z * list Z :=
  match text with
  | c :: rest => if (48 <=? c) && (c <=? 57) then read_digits rest (10 * value + (c - 48)) else (value, text)
  | [] => (value, [])
  end.

(** [std::strtoull(text, &end, 10)]: the result, the text at [end], and whether
    [errno] is set.  A minus sign negates modulo [2^64]. *)
Definition strtoull (text : list Z) : Z * list Z * bool :=
  let s := skip_space text in
  let '(negative, s) := match s with
                        | c :: rest => if c =? 45 then (true, rest) else if c =? 43 then (false, rest) else (false, s)
                        | [] => (false, [])
                        end in
  let '(value, rest) := read_digits s 0 in
  if bool_decide (length rest = length s) then (0, text, false) else
  if U64_MAX <? value then (U64_MAX, rest, true) else
  (if negative : bool then (- value) mod U64_MOD else value, rest, false).

Definition default_replay_count : Z := 4000.

(** [argv] with the name of the program; [None] is [exit(EXIT_FAILURE)]. *)
Definition replay_count_from_args (argv : list (list Z)) : option Z :=
  match argv with
  | [_] => Some default_replay_count
  | [_; text] =>
      let '(parsed, rest, failed) := strtoull text in
      if failed || bool_decide (length rest = length text) || negb (bool_decide (rest = [])) || (parsed =? 0) ||
         (U64_MAX <? parsed)
      then None else Some parsed
  | _ => None
  end.

Definition blocks_per_replay : nat := 256.

(** The loop over [replay_count], [replay] being the number of the next turn:
    the trades and the checksum that are printed. *)
Fixpoint profile_loop (turns : nat) (replay_number : Z) (commands : list Command) (checksum_sum trade_sum : Z)
  : outcome unit (Z * Z) :=
  match turns with
  | 0%nat => Returned tt (trade_sum, checksum_sum)
  | S turns =>
      match replay new_book commands with
      | Returned _ stats =>
          profile_loop turns (replay_number + 1)%u64 commands
            (Z.lxor checksum_sum (checksum stats + replay_number)%u64) (trade_sum + trades stats)%u64
      | Threw _ => Threw tt
      | Crashed c => Crashed c
      end
  end.

(** [main] for a valid [replay_count], after the commands were made: the three
    numbers that it prints. *)
Definition profile_commands (commands : list Command) (replay_count : nat) : outcome unit (Z * Z * Z) :=
  match analyze_coverage commands with
  | Returned _ coverage =>
      if negb (exercises_required_paths coverage) then Crashed Terminate else
      match profile_loop replay_count 0 commands 0 0 with
      | Returned _ (trade_sum, checksum_sum) =>
          Returned tt ((Z.of_nat (length commands) * Z.of_nat replay_count) mod U64_MOD, trade_sum, checksum_sum)
      | Threw _ => Threw tt
      | Crashed c => Crashed c
      end
  | Threw _ => Threw tt
  | Crashed c => Crashed c
  end.

Definition profile_main (replay_count : nat) : outcome unit (Z * Z * Z) :=
  profile_commands (make_mixed_workload blocks_per_replay) replay_count.

(** [main]; [None] when it exits with a message. *)
Definition main (argv : list (list Z)) : option (outcome unit (Z * Z * Z)) :=
  match replay_count_from_args argv with
  | Some replay_count => Some (profile_main (Z.to_nat replay_count))
  | None => None
  end.

(** ** The commands are carried out *)

(** The book after commands that are all accepted. *)
Inductive carried : list Command -> Impl -> Impl -> Prop :=
| carried_nil b : carried [] b b
| carried_submit o b r b' cs b'' :
    submit None b o = Returned b' r -> accepted r = true -> carried cs b' b'' ->
    carried (submit_command o :: cs) b b''
| carried_cancel id b q b' cs b'' :
    cancel b id = Returned b' (mkCancelResult Cancelled q) -> carried cs b' b'' ->
    carried (cancel_command id :: cs) b b''.

Lemma carried_app cs1 cs2 b b' b'' : carried cs1 b b' -> carried cs2 b' b'' -> carried (cs1 ++ cs2) b b''.
Proof.
  induction 1 as [|o b1 r b2 cs b3 E Ha _ IH|id b1 q b2 cs b3 E _ IH]; intros H; [done| |]; simpl.
  - eapply carried_submit; eauto.
  - eapply carried_cancel; eauto.
Qed.

Lemma replay_carried cs b b' stats :
  carried cs b b' ->
  exists stats', replay_from stats cs b = Returned b' stats' /\
    (is_u64 (operations stats) -> operations stats' = add64 (operations stats) (Z.of_nat (length cs))).
Proof.
  intros H. revert stats. induction H as [b|o b r b1 cs b2 E Ha _ IH|id b q b1 cs b2 E _ IH]; intros stats.
  - exists stats. split; [done|]. intros Hs. by rewrite add64_0.
  - cbn [replay_from]. unfold replay_command, submit_command. cbn [type order]. rewrite E. cbn [obind].
    rewrite Ha. cbn [negb obind]. cbv zeta. edestruct IH as (stats' & -> & Hs'). exists stats'. split; [done|].
    intros Hs. rewrite Hs' by apply add64_range. cbn [operations]. rewrite add64_assoc. f_equal. simpl. lia.
  - cbn [replay_from]. unfold replay_command, cancel_command. cbn [type cancel_id]. rewrite E. cbn [obind cr_status].
    rewrite bool_decide_true by done. cbn [negb obind]. edestruct IH as (stats' & -> & Hs'). exists stats'. split; [done|].
    intros Hs. rewrite Hs' by apply add64_range. cbn [operations]. rewrite add64_assoc. f_equal. simpl. lia.
Qed.

(** What the counters of [analyze_coverage] add up to. *)
Definition submissions (cs : list Command) : Z :=
  Z.of_nat (length (List.filter (fun c => match type c with Submit => true | Cancel => false end) cs)).
Definition cancels (cs : list Command) : Z :=
  Z.of_nat (length (List.filter (fun c => match type c with Submit => false | Cancel => true end) cs)).

Record coverage_exact (s n : Z) (c : WorkloadCoverage) : Prop := {
  ce_submissions : passive_submissions c + crossing_submissions c = s;
  ce_fills : full_fills c + partial_fills c = crossing_submissions c;
  ce_levels : same_level_matches c + multi_level_matches c = crossing_submissions c;
  ce_cancellations : cancellations c = n;
  ce_nonneg : 0 <= passive_submissions c /\ 0 <= full_fills c /\ 0 <= partial_fills c /\
    0 <= same_level_matches c /\ 0 <= multi_level_matches c /\ 0 <= n;
}.

(** No counter has become smaller. *)
Definition coverage_le (c c' : WorkloadCoverage) : Prop :=
  passive_submissions c <= passive_submissions c' /\ crossing_submissions c <= crossing_submissions c' /\
  full_fills c <= full_fills c' /\ partial_fills c <= partial_fills c' /\
  same_level_matches c <= same_level_matches c' /\ multi_level_matches c <= multi_level_matches c' /\
  cancellations c <= cancellations c'.

#[export] Instance coverage_le_preorder : PreOrder coverage_le.
Proof. split; [intros c|intros c1 c2 c3]; unfold coverage_le; lia. Qed.

Lemma analyze_command_carried o b r b' s n c :
  submit None b o = Returned b' r -> accepted r = true -> coverage_exact s n c -> s + n + 1 < U64_MOD ->
  exists c', analyze_command c (submit_command o) b = Returned b' c' /\ coverage_exact (s + 1) n c' /\ coverage_le c c'.
Proof.
  intros E Ha [H1 H2 H3 H4 H5] Hb. unfold analyze_command, submit_command. cbn [type order]. rewrite E. cbn [obind].
  rewrite Ha. cbn [negb]. destruct (sr_trades r) as [|first rest].
  - eexists. split; [done|]. split; [split|]; unfold coverage_le; simpl; rewrite ?add64_small by lia; lia.
  - set (m := existsb _ _). eexists. split; [done|].
    split; [split|]; unfold coverage_le; simpl; destruct (sr_resting_quantity r =? 0), m; rewrite ?add64_small by lia; lia.
Qed.

Lemma analyze_cancel_carried id b q b' s n c :
  cancel b id = Returned b' (mkCancelResult Cancelled q) -> coverage_exact s n c -> s + n + 1 < U64_MOD ->
  exists c', analyze_command c (cancel_command id) b = Returned b' c' /\ coverage_exact s (n + 1) c' /\ coverage_le c c'.
Proof.
  intros E [H1 H2 H3 H4 H5] Hb. unfold analyze_command, cancel_command. cbn [type cancel_id]. rewrite E. cbn [obind cr_status].
  rewrite bool_decide_true by done. cbn [negb]. eexists. split; [done|].
  split; [split|]; unfold coverage_le; simpl; rewrite ?add64_small by lia; lia.
Qed.

Lemma analyze_carried cs b b' s n c :
  carried cs b b' -> coverage_exact s n c -> s + n + Z.of_nat (length cs) < U64_MOD ->
  exists c', analyze_from c cs b = Returned b' c' /\ coverage_exact (s + submissions cs) (n + cancels cs) c' /\ coverage_le c c'.
Proof.
  intros H. revert s n c. induction H as [b|o b r b1 cs b2 E Ha _ IH|id b q b1 cs b2 E _ IH]; intros s n c Hc Hb; simpl in Hb.
  - exists c. split; [done|]. unfold submissions, cancels. simpl. by rewrite !Z.add_0_r.
  - destruct (analyze_command_carried _ _ _ _ _ _ _ E Ha Hc ltac:(lia)) as (c1 & E1 & Hc1 & Hle).
    destruct (IH _ _ _ Hc1 ltac:(lia)) as (c' & E' & Hc' & Hle'). exists c'. cbn [analyze_from]. rewrite E1. cbn [obind].
    split; [done|]. split; [|by etrans]. replace (s + _) with (s + 1 + submissions cs); [done|].
    unfold submissions. cbn [List.filter submit_command type length]. lia.
  - destruct (analyze_cancel_carried _ _ _ _ _ _ _ E Hc ltac:(lia)) as (c1 & E1 & Hc1 & Hle).
    destruct (IH _ _ _ Hc1 ltac:(lia)) as (c' & E' & Hc' & Hle'). exists c'. cbn [analyze_from]. rewrite E1. cbn [obind].
    split; [done|]. split; [|by etrans]. replace (n + _) with (n + 1 + cancels cs); [done|].
    unfold cancels. cbn [List.filter cancel_command type length]. lia.
Qed.

(** ** A block *)

Definition asks_from (p : Z) (b : Impl) : Prop := Forall (fun n => p <= node_price n) (level_nodes (asks b)).

(** The book before the block number [k]: orders for at most [13 k] units, the ids
    up to [3 k], and nothing offered below 100. *)
Record before_block (k : Z) (b : Impl) : Prop := {
  bb_roomy : exists S, 0 <= S <= 13 * k /\ roomy S b;
  bb_seen : forall id, id ∈ seen_order_ids b -> id <= 3 * k;
  bb_asks : asks_from 100 b;
}.

Lemma sweep_rest_prices P xs rem ns :
  Forall (fun n => P (node_price n)) ns -> Forall (fun n => P (node_price n)) (sweep_rest xs rem ns).
Proof.
  intros H. revert rem. induction H as [|n ns Hn H IH]; intros rem; simpl; [done|].
  destruct (_ && _); [|by constructor]. destruct (_ <=? _); [apply IH|by constructor].
Qed.

Lemma sweep_below p q rem ns :
  p < q -> Forall (fun n => q <= node_price n) ns -> sweep (fun k => crosses AskLevels k p) rem ns = [].
Proof.
  intros Hp Hn. destruct Hn as [|n ns Hn _]; [done|]. simpl. unfold ask_crosses.
  rewrite (proj2 (Z.leb_gt _ _)) by lia. by rewrite andb_false_r.
Qed.

(** An order with a new id, and where it leaves the asks. *)
Lemma submit_step S o b :
  roomy S b -> 0 <= S -> S + nlo_quantity o < U64_MAX -> proper b o ->
  asks_from 100 b -> (nlo_side o = Sell -> 100 <= nlo_limit_price o) ->
  exists b' r, submit None b o = Returned b' r /\ accepted r = true /\ roomy (S + nlo_quantity o) b' /\
    seen_order_ids b' = {[nlo_id o]} ∪ seen_order_ids b /\ asks_from 100 b' /\
    (nlo_side o = Buy -> nlo_limit_price o < 100 -> nlo_id o ∈ (node_id <$> nodes b')).
Proof.
  intros Hr HS Hq Hp Ha Hsell. destruct (roomy_submit _ _ _ Hr Hp HS Hq) as (b' & E & Hr' & Hm & Hre).
  exists b', (accepted_result b o). destruct Hm as (Hm & Hseen & _).
  pose proof (pr_wf _ _ Hp) as (_ & _ & _ & Hqu). pose proof (pr_quantity _ _ Hp). unfold rested in Hre.
  destruct (pr_side _ _ Hp) as [Hs|Hs]; unfold match_ref, asks_from in *; rewrite Hs in *; simpl in *.
  - split_and!; try done.
    + rewrite Hm. by apply (sweep_rest_prices (fun p => 100 <= p)).
    + intros _ Hlow. assert (submit_residual b o = nlo_quantity o) as Er.
      { unfold submit_residual, submit_fills, match_ref. rewrite Hs. simpl.
        rewrite (sweep_below _ 100) by done. simpl. lia. }
      rewrite (proj2 (Z.ltb_lt 0 _)) in Hre by (rewrite Er; u64). destruct Hre as (_ & ns1 & ns2 & _ & E2).
      unfold nodes. rewrite E2, !fmap_app, !elem_of_app. left. right. by left.
  - split_and!; try done. destruct (0 <? submit_residual b o).
    + destruct Hre as (_ & ns1 & ns2 & E1 & E2). rewrite E1 in Ha. rewrite E2. apply Forall_app in Ha as [? ?].
      apply Forall_app. split; [done|]. constructor; [by apply Hsell|done].
    + by destruct Hre as [_ ->].
Qed.

Lemma cancel_step S id b :
  roomy S b -> asks_from 100 b -> id ∈ (node_id <$> nodes b) ->
  exists b' q, cancel b id = Returned b' (mkCancelResult Cancelled q) /\ roomy S b' /\
    seen_order_ids b' = seen_order_ids b /\ asks_from 100 b'.
Proof.
  intros Hr Ha Hin. destruct (cancel_spec b id (ro_inv _ _ Hr)) as [[? _]|(n & b' & _ & _ & E & HI' & Hrem)]; [done|].
  exists b', (node_rem n). split_and!; [done|by eapply roomy_removed|by destruct Hrem as (? & ? & ? & _ & _ & _ & _ & ? & _)|].
  unfold asks_from in *. destruct Hrem as ([|] & ns1 & ns2 & _ & E1 & E2 & E3 & _); simpl in *.
  - by rewrite E3.
  - rewrite E1 in Ha. rewrite E2. apply Forall_app in Ha as [? [_ ?]%Forall_cons]. by apply Forall_app.
Qed.

Lemma block_carried k b :
  before_block k b -> 0 <= k -> 13 * (k + 1) < U64_MAX ->
  exists b', carried (workload_block k (3 * k + 1)) b b' /\ before_block (k + 1) b'.
Proof.
  intros [(S & HS & Hr) Hseen Ha] Hk Hb. unfold workload_block. cbv zeta.
  pose proof (Z.mod_pos_bound k 5 ltac:(lia)). pose proof (Z.mod_pos_bound k 3 ltac:(lia)).
  pose proof (Z.mod_pos_bound k 4 ltac:(lia)).
  rewrite !add64_small by (rewrite ?add64_small by lia; lia).
  set (o1 := mkNewLimitOrder (3 * k + 1) Sell _ _). set (o2 := mkNewLimitOrder _ Buy (100 + k mod 5) _).
  set (o3 := mkNewLimitOrder _ Buy (80 + k mod 5) _).
  assert (forall o b, 3 * k < nlo_id o < U64_MOD -> (nlo_side o = Buy \/ nlo_side o = Sell) ->
    0 < nlo_limit_price o < 200 -> 0 < nlo_quantity o < 200 -> nlo_id o ∉ seen_order_ids b -> proper b o) as Hp.
  { intros o b0 Hi Hsd Hpr Hqu Hnew. split; try done; try lia. split_and!; try (unfold is_u64; lia).
    by destruct Hsd as [-> | ->]. }
  destruct (submit_step S o1 b) as (b1 & r1 & E1 & Hr1 & Hro1 & Hs1 & Ha1 & _); try done; try (simpl; lia).
  { apply Hp; simpl; auto; try lia. intros Hin%Hseen. lia. }
  destruct (submit_step (S + nlo_quantity o1) o2 b1) as (b2 & r2 & E2 & Hr2 & Hro2 & Hs2 & Ha2 & _); try done; try (simpl; lia).
  { apply Hp; simpl; auto; try lia. rewrite Hs1. intros [Hin%elem_of_singleton|Hin%Hseen]%elem_of_union; simpl in *; lia. }
  destruct (submit_step (S + nlo_quantity o1 + nlo_quantity o2) o3 b2) as (b3 & r3 & E3 & Hr3 & Hro3 & Hs3 & Ha3 & Hin3);
    try done; try (simpl; lia).
  { apply Hp; simpl; auto; try lia. rewrite Hs2, Hs1.
    intros [Hin%elem_of_singleton|[Hin%elem_of_singleton|Hin%Hseen]%elem_of_union]%elem_of_union; simpl in *; lia. }
  destruct (cancel_step _ (nlo_id o3) b3 Hro3 Ha3) as (b4 & q & E4 & Hro4 & Hs4 & Ha4); [apply Hin3; simpl; [done|lia]|].
  exists b4. split.
  - eapply carried_submit; [exact E1|done|]. eapply carried_submit; [exact E2|done|].
    eapply carried_submit; [exact E3|done|]. eapply carried_cancel; [|constructor].
    replace (3 * k + 1 + 2) with (nlo_id o3) by (simpl; lia). exact E4.
  - split; [|intros id; rewrite Hs4, Hs3, Hs2, Hs1|done].
    + exists (S + nlo_quantity o1 + nlo_quantity o2 + nlo_quantity o3). split; [simpl; lia|done].
    + rewrite !elem_of_union, !elem_of_singleton. simpl. intros [?|[?|[?|?%Hseen]]]; lia.
Qed.

Lemma workload_carried n k b :
  before_block k b -> 0 <= k -> 13 * (k + Z.of_nat n) < U64_MAX ->
  exists b', carried (workload_from n k (3 * k + 1)) b b' /\ before_block (k + Z.of_nat n) b'.
Proof.
  revert k b. induction n as [|n IH]; intros k b Hk H0 Hb; cbn [workload_from].
  - exists b. rewrite Z.add_0_r. split; [constructor|done].
  - destruct (block_carried k b Hk H0 ltac:(lia)) as (b1 & H1 & Hk1).
    destruct (IH (k + 1) b1 Hk1 ltac:(lia) ltac:(lia)) as (b2 & H2 & Hk2). exists b2. split.
    + eapply carried_app; [exact H1|]. rewrite !add64_small by (rewrite ?add64_small by lia; lia).
      by replace (3 * k + 1 + 1 + 1 + 1) with (3 * (k + 1) + 1) by lia.
    + by replace (k + Z.of_nat (S n)) with (k + 1 + Z.of_nat n) by lia.
Qed.

Lemma before_first : before_block 0 new_book.
Proof.
  split; [exists 0; split; [lia|apply roomy_new]| |constructor].
  intros id Hin. by apply elem_of_empty in Hin.
Qed.

Lemma workload_split n m k :
  0 <= k -> 13 * (k + Z.of_nat (n + m)) < U64_MAX ->
  workload_from (n + m) k (3 * k + 1) =
    workload_from n k (3 * k + 1) ++ workload_from m (k + Z.of_nat n) (3 * (k + Z.of_nat n) + 1).
Proof.
  revert k. induction n as [|n IH]; intros k H0 Hb; [by rewrite Z.add_0_r|].
  change (S n + m)%nat with (S (n + m)). cbn [workload_from]. rewrite <- app_assoc. f_equal.
  rewrite !add64_small by (rewrite ?add64_small by lia; lia).
  replace (3 * k + 1 + 1 + 1 + 1) with (3 * (k + 1) + 1) by lia. rewrite IH by lia.
  by replace (k + 1 + Z.of_nat n) with (k + Z.of_nat (S n)) by lia.
Qed.

Lemma workload_counts n k id :
  length (workload_from n k id) = (4 * n)%nat /\
  submissions (workload_from n k id) = 3 * Z.of_nat n /\ cancels (workload_from n k id) = Z.of_nat n.
Proof.
  revert k id. induction n as [|n IH]; intros k id; [done|]. cbn [workload_from].
  destruct (IH (k + 1)%u64 (id + 1 + 1 + 1)%u64) as (H1 & H2 & H3). unfold submissions, cancels in *.
  rewrite length_app, !List.filter_app, !length_app. simpl in *. lia.
Qed.

Lemma analyze_from_app c cs1 cs2 b b1 c1 :
  analyze_from c cs1 b = Returned b1 c1 -> analyze_from c (cs1 ++ cs2) b = analyze_from c1 cs2 b1.
Proof.
  revert c b. induction cs1 as [|x cs1 IH]; intros c b; simpl; [by intros [= -> ->]|].
  destruct (analyze_command c x b) as [b2 c2| |]; simpl; [apply IH|done..].
Qed.

(** What is covered stays covered. *)
Lemma covered_le c c' : coverage_le c c' -> exercises_required_paths c = true -> exercises_required_paths c' = true.
Proof. unfold coverage_le, exercises_required_paths. rewrite !andb_true_iff, !Z.ltb_lt. lia. Qed.

(** The smallest number of blocks that take all paths. *)
Definition covering_blocks : nat := 16.

Definition covers (blocks : nat) : bool :=
  match analyze_coverage (make_mixed_workload blocks) with
  | Returned _ coverage => exercises_required_paths coverage
  | _ => false
  end.


Lemma enough_blocks blocks :
  (covering_blocks <= blocks)%nat -> 13 * Z.of_nat blocks < U64_MAX -> covers blocks = true.
Proof.
  intros H Hb. assert (covers covering_blocks = true) as H0 by (vm_compute; reflexivity).
  destruct (workload_carried covering_blocks 0 new_book before_first ltac:(lia) ltac:(lia)) as (b & Hc & Hbb).
  destruct (workload_counts covering_blocks 0 1) as (Hl & Hs & Hn).
  assert (coverage_exact 0 0 (mkWorkloadCoverage 0 0 0 0 0 0 0)) as Hz by (split; simpl; lia).
  destruct (analyze_carried _ _ _ _ _ _ Hc Hz) as (c & E & Hex & _).
  { change (3 * 0 + 1) with 1. rewrite Hl. lia. }
  change (3 * 0 + 1) with 1 in E, Hex. unfold covers, analyze_coverage, make_mixed_workload in *.
  rewrite E in H0. replace blocks with (covering_blocks + (blocks - covering_blocks))%nat at 1 by lia.
  rewrite (workload_split _ _ 0) by lia. change (3 * 0 + 1) with 1. rewrite (analyze_from_app _ _ _ _ _ _ E).
  destruct (workload_carried (blocks - covering_blocks) _ b Hbb ltac:(lia) ltac:(lia)) as (b2 & Hc2 & _).
  destruct (analyze_carried _ _ _ _ _ _ Hc2 Hex) as (c2 & -> & _ & Hle).
  { rewrite Hs, Hn, (proj1 (workload_counts _ _ _)). lia. }
  by eapply covered_le.
Qed.



(** The profiling program ends for every [replay_count]: the check of its 256
    blocks succeeds and no replay aborts. *)
Lemma profile_never_aborts replay_count :
  exists result, profile_main replay_count = Returned tt result.
Proof.
  unfold profile_main, profile_commands.
  destruct (workload_carried blocks_per_replay 0 new_book before_first ltac:(lia) ltac:(unfold blocks_per_replay; lia))
    as (b & Hc & _). change (3 * 0 + 1) with 1 in Hc. fold (make_mixed_workload blocks_per_replay) in Hc.
  assert (covers blocks_per_replay = true) as Hcov by (apply enough_blocks; unfold covering_blocks, blocks_per_replay; lia).
  unfold covers in Hcov. revert Hc Hcov. generalize (make_mixed_workload blocks_per_replay). intros commands Hc Hcov.
  destruct (analyze_coverage commands) as [? c| |]; [|done..]. rewrite Hcov. cbn [negb].
  assert (forall n r x y, exists p, profile_loop n r commands x y = Returned tt p) as Hloop.
  { induction n as [|n IH]; intros r x y; cbn [profile_loop]; [eauto|].
    destruct (replay_carried _ _ _ (mkReplayStats 0 0 0) Hc) as (stats & E & _). unfold replay. rewrite E. apply IH. }
  destruct (Hloop replay_count 0 0 0) as [[t k] ->]. eauto.
Qed.

(** The checksums of replays that all give the same statistics. *)
Fixpoint mix_replays (turns : nat) (replay_number value sum : Z) : Z :=
  match turns with
  | 0%nat => sum
  | S turns => mix_replays turns (replay_number + 1)%u64 value (Z.lxor sum (value + replay_number)%u64)
  end.

Lemma profile_loop_same commands stats b n r x y :
  replay new_book commands = Returned b stats -> is_u64 y ->
  profile_loop n r commands x y =
    Returned tt ((y + Z.of_nat n * trades stats) mod U64_MOD, mix_replays n r (checksum stats) x).
Proof.
  intros E. revert r x y. induction n as [|n IH]; intros r x y Hy; cbn [profile_loop mix_replays].
  - rewrite Z.mul_0_l, Z.add_0_r, Z.mod_small by done. done.
  - rewrite E, IH by apply add64_range. f_equal. f_equal. unfold add64. rewrite Z.add_mod_idemp_l by lia. f_equal. lia.
Qed.

Definition stats_of (blocks : nat) : option ReplayStats :=
  match replay new_book (make_mixed_workload blocks) with Returned _ stats => Some stats | _ => None end.

Lemma profile_stats : stats_of blocks_per_replay = Some (mkReplayStats 1024 369 3218).
Proof. vm_compute. reflexivity. Qed.

(** Reading digits only. *)
Lemma read_digits_all text value :
  Forall (fun c => 48 <= c <= 57) text ->
  read_digits text value = (foldl (fun v c => 10 * v + (c - 48)) value text, []).
Proof.
  intros H. revert value. induction H as [|c text Hc _ IH]; intros value; [done|]. cbn [read_digits foldl].
  replace ((48 <=? c) && (c <=? 57)) with true by lia. apply IH.
Qed.

Lemma strtoull_digits c text :
  Forall (fun c => 48 <= c <= 57) (c :: text) ->
  let value := foldl (fun v c => 10 * v + (c - 48)) 0 (c :: text) in
  strtoull (c :: text) = if U64_MAX <? value then (U64_MAX, [], true) else (value, [], false).
Proof.
  intros H value. unfold strtoull. assert (48 <= c <= 57) as Hc by (by apply Forall_cons in H as [? _]).
  cbn [skip_space]. unfold isspace. replace ((c =? 32) || (9 <=? c) && (c <=? 13)) with false by lia.
  replace (c =? 45) with false by lia. replace (c =? 43) with false by lia. rewrite (read_digits_all _ _ H).
  by rewrite bool_decide_eq_false_2.
Qed.

(** The profiling program on its arguments.  A text of digits is accepted if
    it spells a number between 1 and [2^64 - 1], and then stands for that number. *)
Lemma replay_count_digits name c text :
  Forall (fun c => 48 <= c <= 57) (c :: text) ->
  let value := foldl (fun v c => 10 * v + (c - 48)) 0 (c :: text) in
  replay_count_from_args [name; c :: text] = if (0 <? value) && (value <=? U64_MAX) then Some value else None.
Proof.
  intros H value. unfold replay_count_from_args. rewrite (strtoull_digits _ _ H). fold value.
  assert (0 <= value) as Hv.
  { assert (forall l v, Forall (fun c => 48 <= c <= 57) l -> 0 <= v -> 0 <= foldl (fun v c => 10 * v + (c - 48)) v l) as Hgen.
    { intros l v Hl. revert v. induction Hl as [|x l Hx _ IH]; intros v Hp; simpl; [done|]. apply IH. lia. }
    by apply Hgen. }
  clearbody value. destruct (Z.ltb_spec U64_MAX value) as [Ho|Ho].
  - simpl. by replace ((0 <? value) && (value <=? U64_MAX)) with false by lia.
  - rewrite bool_decide_eq_false_2, bool_decide_eq_true_2 by done. simpl. replace (U64_MAX <? value) with false by lia.
    destruct (Z.eqb_spec value 0) as [->|]; [done|]. by replace ((0 <? value) && (value <=? U64_MAX)) with true by lia.
Qed.

(** A negative number is not turned away: [-1] stands for [2^64 - 1] replays. *)
Theorem negative_replay_count name : replay_count_from_args [name; [45; 49]] = Some U64_MAX.
Proof. reflexivity. Qed.

(** The profiling program ends for all arguments that it accepts, and
    prints without arguments what docs/performance_baseline.md reports:
    4,096,000 operations, 1,476,000 trades and the checksum zero. *)
Theorem profile_output :
  (forall argv outcome, main argv = Some outcome -> exists result, outcome = Returned tt result) /\
  (forall name, main [name] = Some (Returned tt (4096000, 1476000, 0))).
Proof.
  split.
  { intros argv r. unfold main. destruct (replay_count_from_args argv) as [n|]; [|done]. intros H%(inj Some). rewrite <- H.
    apply profile_never_aborts. }
  intros name. unfold main, replay_count_from_args. apply (f_equal Some). set (turns := Z.to_nat default_replay_count).
  destruct (profile_never_aborts turns) as [result H]. revert H. unfold profile_main, profile_commands.
  assert (exists b, replay new_book (make_mixed_workload blocks_per_replay) = Returned b (mkReplayStats 1024 369 3218)) as [b E].
  { pose proof profile_stats as Hs. unfold stats_of in Hs. destruct (replay _ _) as [b stats| |]; [|done..].
    injection Hs as ->. by exists b. }
  assert (length (make_mixed_workload blocks_per_replay) = 1024%nat) as El by (vm_compute; reflexivity).
  revert E El. generalize (make_mixed_workload blocks_per_replay). intros commands E El.
  destruct (analyze_coverage commands) as [? c| |]; [|done..]. destruct (exercises_required_paths c); [|done]. cbn [negb].
  rewrite (profile_loop_same _ _ _ _ _ _ _ E) by (unfold is_u64; lia). rewrite El. intros _. vm_compute. reflexivity.
Qed.

End Workload.
