(* ===== verification/Bytes.v ===== *)
(** * Byte sequences

    What the journal codec and the wire codec share: a [std::byte] is a [Z]
    below 256, a [std::vector<std::byte>] or a [std::span<const std::byte>] is
    a list of them, and a subscript or a [subspan] outside the range is
    undefined behaviour, so that every read is an [option].  The two codecs
    have their own copies of [append_u32], [read_u32] and so on; here is the
    big-endian representation those are proved to compute. *)
From S2P Require Import Prelude.

Create HintDb bytes.

Abbreviation byte := Z (only parsing).

Definition wf_bytes (bs : list byte) : Prop := Forall is_u8 bs.

#[export] Instance wf_bytes_dec bs : Decision (wf_bytes bs).
Proof. unfold wf_bytes, is_u8. apply _. Defined.

Lemma wf_bytes_app a b : wf_bytes (a ++ b) <-> wf_bytes a /\ wf_bytes b.
Proof. apply Forall_app. Qed.

Lemma wf_take n a : wf_bytes a -> wf_bytes (take n a).
Proof. apply Forall_take. Qed.
Lemma wf_drop n a : wf_bytes a -> wf_bytes (drop n a).
Proof. apply Forall_drop. Qed.
#[export] Hint Resolve wf_take wf_drop : bytes.

Notation "'let?' x := m 'in' k" := (match m with Some x => k | None => None end)
  (at level 10, x name, m at level 100, k at level 200).

(** [static_cast<std::uint8_t>(v)]. *)
Definition to_u8 (v : Z) : byte := v mod U8_MOD.

(** [span.subspan(offset, count)]. *)
Definition subspan (bs : list byte) (offset count : nat) : option (list byte) :=
  if decide (offset + count <= length bs)%nat then Some (take count (drop offset bs)) else None.

(** ** Big-endian numbers *)

Fixpoint be_bytes (n : nat) (v : Z) : list byte :=
  match n with
  | O => []
  | S n' => to_u8 (Z.shiftr v (8 * Z.of_nat n')) :: be_bytes n' v
  end.

Definition be_value (bs : list byte) : Z :=
  foldl (fun value b => Z.lor (Z.shiftl value 8) b) 0 bs.

(** The part of a sequence of length [n] from [off] on. *)
Definition slice (off n : nat) (bs : list byte) : list byte := take n (drop off bs).

Lemma length_be_bytes n v : length (be_bytes n v) = n.
Proof. induction n; simpl; auto. Qed.

Lemma to_u8_range v : is_u8 (to_u8 v).
Proof. unfold is_u8, to_u8. apply Z.mod_pos_bound. lia. Qed.

Lemma to_u8_small v : is_u8 v -> to_u8 v = v.
Proof. intros. unfold to_u8. apply Z.mod_small. u64. Qed.

Lemma wf_be_bytes n v : wf_bytes (be_bytes n v).
Proof. induction n; constructor; [apply to_u8_range|done]. Qed.
#[export] Hint Resolve wf_be_bytes : bytes.

Lemma shift_or v b : 0 <= v -> is_u8 b -> Z.lor (Z.shiftl v 8) b = v * 256 + b.
Proof.
  intros Hv Hb. pose proof (Z.add_lor_land (Z.shiftl v 8) b) as E. revert E.
  rewrite Z.shiftl_mul_pow2 by lia.
  assert (Z.land (v * 2 ^ 8) b = 0) as ->; [|change (2 ^ 8) with 256; lia].
  apply Z.bits_inj'. intros k Hk. rewrite Z.land_spec, Z.bits_0.
  destruct (Z.lt_ge_cases k 8).
  - by rewrite Z.mul_pow2_bits_low.
  - unfold is_u8 in Hb. destruct (Z.eq_dec b 0) as [->|]; [by rewrite Z.bits_0, andb_false_r|].
    rewrite (Z.bits_above_log2 b), andb_false_r; [done|lia|].
    apply Z.lt_le_trans with 8; [|done]. apply Z.log2_lt_pow2; lia.
Qed.

Lemma be_value_app l b : wf_bytes (l ++ [b]) -> be_value (l ++ [b]) = be_value l * 256 + b.
Proof.
  assert (forall bs v, wf_bytes bs -> 0 <= v ->
    0 <= foldl (fun value b => Z.lor (Z.shiftl value 8) b) v bs) as Hnn.
  { induction bs as [|x bs IH]; intros v Hw Hv; [done|]. apply Forall_cons in Hw as [Hx Hw].
    simpl. apply IH; [done|]. rewrite shift_or by done. u64. }
  intros [Hl [Hb _]%Forall_cons]%Forall_app. unfold be_value. rewrite foldl_app. simpl.
  apply shift_or; [by apply Hnn|done].
Qed.

Lemma be_value_range l : wf_bytes l -> 0 <= be_value l < 256 ^ Z.of_nat (length l).
Proof.
  induction l as [|b l IH] using rev_ind; intros Hw; [done|].
  rewrite be_value_app by done. apply Forall_app in Hw as [Hl [Hb _]%Forall_cons].
  specialize (IH Hl). rewrite length_app, Nat2Z.inj_add, Z.pow_add_r by lia.
  change (256 ^ Z.of_nat (length [b])) with 256. u64.
Qed.

Lemma be_bytes_last n v : be_bytes (S n) v = be_bytes n (Z.shiftr v 8) ++ [to_u8 v].
Proof.
  induction n as [|n IH]; [simpl; by rewrite Z.shiftr_0_r|].
  change (be_bytes (S (S n)) v) with (to_u8 (Z.shiftr v (8 * Z.of_nat (S n))) :: be_bytes (S n) v).
  rewrite IH. simpl. f_equal. f_equal. rewrite Z.shiftr_shiftr by lia. f_equal. lia.
Qed.

Lemma be_value_bytes n v : 0 <= v < 256 ^ Z.of_nat n -> be_value (be_bytes n v) = v.
Proof.
  revert v. induction n as [|n IH]; intros v Hv; [change (256 ^ Z.of_nat 0) with 1 in Hv; cbn; lia|].
  rewrite be_bytes_last, be_value_app; [|rewrite <- be_bytes_last; apply wf_be_bytes].
  rewrite Nat2Z.inj_succ, Z.pow_succ_r in Hv by lia.
  rewrite Z.shiftr_div_pow2 by lia. change (2 ^ 8) with 256. rewrite IH.
  - unfold to_u8. rewrite (Z.div_mod v 256) at 3 by lia. lia.
  - split; [apply Z.div_pos; lia|]. apply Z.div_lt_upper_bound; lia.
Qed.

Lemma be_bytes_value l : wf_bytes l -> be_bytes (length l) (be_value l) = l.
Proof.
  induction l as [|b l IH] using rev_ind; intros Hw; [done|].
  rewrite be_value_app by done. pose proof Hw as [Hl [Hb _]%Forall_cons]%Forall_app.
  rewrite length_app, Nat.add_comm. simpl length. change (1 + length l)%nat with (S (length l)).
  rewrite be_bytes_last, Z.shiftr_div_pow2 by lia. change (2 ^ 8) with 256.
  unfold to_u8, is_u8 in *. f_equal.
  - rewrite Z.div_add_l, Z.div_small, Z.add_0_r by lia. by apply IH.
  - f_equal. rewrite Z.add_comm, Z.mod_add by lia. apply Z.mod_small. lia.
Qed.

Lemma be_value_inj l1 l2 :
  wf_bytes l1 -> wf_bytes l2 -> length l1 = length l2 -> be_value l1 = be_value l2 -> l1 = l2.
Proof.
  intros H1 H2 Hl He. rewrite <- (be_bytes_value l1), <- (be_bytes_value l2) by done. congruence.
Qed.

(** ** Slices *)

Lemma length_slice off n bs : (off + n <= length bs)%nat -> length (slice off n bs) = n.
Proof. intros. unfold slice. rewrite length_take, length_drop. lia. Qed.

Lemma wf_slice off n bs : wf_bytes bs -> wf_bytes (slice off n bs).
Proof. intros. by apply Forall_take, Forall_drop. Qed.

Lemma slice_app_l off n b1 b2 :
  (off + n <= length b1)%nat -> slice off n (b1 ++ b2) = slice off n b1.
Proof.
  intros. unfold slice. rewrite drop_app_le by lia. apply take_app_le.
  rewrite length_drop. lia.
Qed.

Lemma slice_split off n m bs : slice off (n + m) bs = slice off n bs ++ slice (off + n) m bs.
Proof.
  unfold slice. rewrite <- drop_drop. symmetry. apply take_take_drop.
Qed.

Lemma slice_single off bs b : bs !! off = Some b -> slice off 1 bs = [b].
Proof.
  intros H. unfold slice. by rewrite (drop_S bs b off H).
Qed.

(** ** The loops that read a number *)

(** [count] iterations of
    [value = (value << 8U) | byte_value(bytes[index])] with a [value] of
    modulus [m]. *)
Fixpoint read_loop (m : Z) (count : nat) (bytes : list byte) (index : nat) (value : Z) : option Z :=
  match count with
  | O => Some value
  | S count' =>
      let? b := bytes !! index in
      read_loop m count' bytes (S index) (Z.lor (Z.shiftl value 8 mod m) b)
  end.

Definition be_step (value : Z) (b : byte) : Z := Z.lor (Z.shiftl value 8) b.

Lemma slice_cons off n bs b :
  bs !! off = Some b -> slice off (S n) bs = b :: slice (S off) n bs.
Proof. intros H. unfold slice. by rewrite (drop_S bs b off H). Qed.

Lemma read_loop_fold m count bs index value :
  wf_bytes bs -> (index + count <= length bs)%nat -> 0 <= value ->
  (value + 1) * 256 ^ Z.of_nat count <= m ->
  read_loop m count bs index value = Some (foldl be_step value (slice index count bs)).
Proof.
  intros Hw. revert index value. induction count as [|count IH]; intros index value Hl Hv Hm.
  { unfold slice. by rewrite take_0. }
  rewrite Nat2Z.inj_succ, Z.pow_succ_r in Hm by lia.
  assert (0 < 256 ^ Z.of_nat count) by (apply Z.pow_pos_nonneg; lia).
  destruct (lookup_lt_is_Some_2 bs index) as [b Hb]; [lia|].
  assert (is_u8 b) as Hu by (eapply Forall_lookup_1 in Hw; eauto).
  assert (Z.shiftl value 8 mod m = Z.shiftl value 8) as Em.
  { rewrite Z.shiftl_mul_pow2 by lia. apply Z.mod_small. change (2 ^ 8) with 256. nia. }
  simpl. rewrite Hb, (slice_cons _ _ _ _ Hb), Em. simpl. unfold be_step at 2.
  apply IH; [lia|rewrite shift_or by done; u64|]. rewrite shift_or by done. unfold is_u8 in Hu. nia.
Qed.

Lemma read_loop_value m count bs index :
  wf_bytes bs -> (index + count <= length bs)%nat -> 256 ^ Z.of_nat count <= m ->
  read_loop m count bs index 0 = Some (be_value (slice index count bs)).
Proof. intros. apply read_loop_fold; auto; lia. Qed.

Lemma read_pair_value bs index hi lo :
  wf_bytes bs -> bs !! index = Some hi -> bs !! (index + 1)%nat = Some lo ->
  Z.lor (Z.shiftl hi 8) lo mod U16_MOD = be_value (slice index 2 bs).
Proof.
  intros Hw Hh Hl. rewrite Nat.add_1_r in Hl.
  rewrite (slice_cons _ _ _ _ Hh), (slice_cons _ _ _ _ Hl). unfold slice. rewrite take_0.
  assert (is_u8 hi /\ is_u8 lo) as [Hhi Hlo].
  { split; eapply Forall_lookup_1 in Hw; eauto. }
  unfold be_value. cbn [foldl]. rewrite Z.shiftl_0_l, Z.lor_0_l.
  rewrite shift_or by (done || u64). apply Z.mod_small. u64.
Qed.

Lemma subspan_slice bs off n :
  (off + n <= length bs)%nat -> subspan bs off n = Some (slice off n bs).
Proof. intros. unfold subspan. by rewrite decide_True. Qed.

Lemma slice_skip k n a b : length a = k -> slice k n (a ++ b) = slice 0 n b.
Proof. intros <-. unfold slice. by rewrite drop_app_length. Qed.

Lemma slice_all n bs : length bs = n -> slice 0 n bs = bs.
Proof. intros <-. unfold slice. by rewrite drop_0, firstn_all. Qed.

(** A field holds a number exactly when its bytes are that number's. *)
Lemma field_value off n bytes v :
  wf_bytes bytes -> (off + n <= length bytes)%nat -> 0 <= v < 256 ^ Z.of_nat n ->
  be_value (slice off n bytes) = v <-> slice off n bytes = be_bytes n v.
Proof.
  intros Hw Hl Hv. split; [|intros ->; by apply be_value_bytes].
  intros <-. pose proof (be_bytes_value _ (wf_slice off n bytes Hw)) as E.
  by rewrite length_slice in E.
Qed.

Lemma slice_concat off n m bs a b :
  length a = n -> (off + n + m <= length bs)%nat ->
  slice off (n + m) bs = a ++ b <-> slice off n bs = a /\ slice (off + n) m bs = b.
Proof.
  intros Ha Hl. rewrite slice_split. split; [|by intros [-> ->]].
  intros E. apply app_inj_1 in E; [done|]. rewrite length_slice; lia.
Qed.

Lemma field_range off n bytes :
  wf_bytes bytes -> (off + n <= length bytes)%nat ->
  0 <= be_value (slice off n bytes) < 256 ^ Z.of_nat n.
Proof.
  intros Hw Hl. pose proof (be_value_range _ (wf_slice off n bytes Hw)) as H.
  by rewrite length_slice in H.
Qed.

Lemma read_byte_be bytes off :
  wf_bytes bytes -> (off < length bytes)%nat -> bytes !! off = Some (be_value (slice off 1 bytes)).
Proof.
  intros Hw Hl. destruct (lookup_lt_is_Some_2 bytes off Hl) as [b Hb].
  by rewrite Hb, (slice_single _ _ _ Hb).
Qed.
