(* ===== verification/Journal.v ===== *)
(** * The journal codec (definitions)

    include/matching/journal.hpp and src/journal.cpp: the file header, the
    framed records with their CRC-32C, and the decoders.  The decoders run on
    arbitrary bytes, so the result is an [option]: [None] stands for a read
    outside the span, which is undefined behaviour. *)
From S2P Require Import Prelude Types Bytes.

Abbreviation JournalSequence := Z (only parsing).

Inductive JournalCommand :=
| SubmitLimitOrderCommand (order : NewLimitOrder)
| CancelOrderCommand (order_id : OrderId).

Inductive JournalRecordType := SubmitLimitOrder | CancelOrder.

(** The enumerators' values. *)
Definition record_type_value (type : JournalRecordType) : Z :=
  match type with SubmitLimitOrder => 1 | CancelOrder => 2 end.

Inductive JournalCodecError :=
| InvalidFileMagic
| UnsupportedJournalVersion
| UnsupportedMatchingRulesVersion
| InvalidReservedBytes
| InvalidFrameMagic
| UnsupportedRecordVersion
| UnsupportedRecordType
| InvalidFlags
| InvalidPayloadLength
| InvalidJournalSequence
| ChecksumMismatch
| TruncatedInput
| UnexpectedTrailingBytes.

#[export] Instance JournalCommand_eq_dec : EqDecision JournalCommand.
Proof. solve_decision. Defined.
#[export] Instance JournalCodecError_eq_dec : EqDecision JournalCodecError.
Proof. solve_decision. Defined.
#[export] Instance JournalRecordType_eq_dec : EqDecision JournalRecordType.
Proof. solve_decision. Defined.

(** ["MATCHJNL"] and ["MJR1"] in ASCII. *)
Definition kJournalFileMagic : list byte := [77; 65; 84; 67; 72; 74; 78; 76].
Definition kJournalFormatVersion : Z := 1.
Definition kMatchingRulesVersion : Z := 1.
Definition kJournalFrameMagic : list byte := [77; 74; 82; 49].
Definition kJournalRecordVersion : Z := 1.
Definition kJournalFileHeaderSize : nat := 16.
Definition kJournalFrameHeaderSize : nat := 24.
Definition kJournalMaximumPayloadLength : Z := 64.
Definition kSubmitLimitOrderPayloadSize : nat := 25.
Definition kCancelOrderPayloadSize : nat := 8.

Record JournalFileHeader := mkJournalFileHeader {
  journal_format_version : Z;
  matching_rules_version : Z;
}.

(** [JournalFileHeader{}]. *)
Definition default_file_header : JournalFileHeader :=
  mkJournalFileHeader kJournalFormatVersion kMatchingRulesVersion.

Record JournalRecord := mkJournalRecord {
  jr_sequence : JournalSequence;
  jr_command : JournalCommand;
}.

Record DecodedJournalRecord := mkDecodedJournalRecord {
  dj_record : JournalRecord;
  dj_bytes_consumed : nat;
}.

Definition kFormatVersionOffset : nat := 8.
Definition kMatchingRulesVersionOffset : nat := 10.
Definition kReservedOffset : nat := 12.
Definition kRecordVersionOffset : nat := 4.
Definition kRecordTypeOffset : nat := 5.
Definition kFlagsOffset : nat := 6.
Definition kPayloadLengthOffset : nat := 8.
Definition kSequenceOffset : nat := 12.
Definition kChecksumOffset : nat := 20.
Definition kPayloadOffset : nat := 24.
Definition kCrcHeaderLength : nat := 16.

Module Journal.

(** ** Writing numbers *)

Definition append_u8 (bytes : list byte) (value : Z) : list byte := bytes ++ [to_u8 value].

Definition append_u16 (bytes : list byte) (value : Z) : list byte :=
  append_u8 (append_u8 bytes (Z.shiftr value 8)) value.

(** [for (shift = 8 * n; shift > 0; shift -= 8) append_u8(bytes, value >> shift)]. *)
Fixpoint append_shifted (n : nat) (bytes : list byte) (value : Z) : list byte :=
  match n with
  | O => bytes
  | S n' => append_shifted n' (append_u8 bytes (Z.shiftr value (8 * Z.of_nat n))) value
  end.

Definition append_u32 (bytes : list byte) (value : Z) : list byte :=
  append_u8 (append_shifted 3 bytes value) value.

Definition append_u64 (bytes : list byte) (value : Z) : list byte :=
  append_u8 (append_shifted 7 bytes value) value.

(** ** Reading numbers *)

Definition has_bytes (bytes : list byte) (offset count : nat) : bool :=
  bool_decide (offset <= length bytes)%nat && bool_decide (count <= length bytes - offset)%nat.

Definition read_u16 (bytes : list byte) (offset : nat) : option Z :=
  let? hi := bytes !! offset in
  let? lo := bytes !! (offset + 1)%nat in
  Some (Z.lor (Z.shiftl hi 8) lo mod U16_MOD).

Definition read_u32 (bytes : list byte) (offset : nat) : option Z :=
  read_loop U32_MOD 4 bytes offset 0.

Definition read_u64 (bytes : list byte) (offset : nat) : option Z :=
  read_loop U64_MOD 8 bytes offset 0.

Definition starts_with (bytes magic : list byte) : bool :=
  bool_decide (length magic <= length bytes)%nat &&
  bool_decide (magic = take (length magic) bytes).

(** ** CRC-32C *)

Definition kReflectedPolynomial : Z := 0x82F63B78.

(** One iteration of the inner loop. *)
Definition crc_bit (crc : Z) : Z :=
  let mask := (0 - Z.land crc 1) mod U32_MOD in
  Z.lxor (Z.shiftr crc 1) (Z.land kReflectedPolynomial mask).

Definition crc_byte (crc : Z) (b : byte) : Z := Nat.iter 8 crc_bit (Z.lxor crc b).

Definition crc32c_update (state : Z) (bytes : list byte) : Z := foldl crc_byte state bytes.

(** [~crc] on [std::uint32_t]. *)
Definition not32 (crc : Z) : Z := (Z.lnot crc) mod U32_MOD.

Definition frame_crc (header_and_payload : list byte) (payload_length : nat) : option Z :=
  let? header := subspan header_and_payload kRecordVersionOffset kCrcHeaderLength in
  let? payload := subspan header_and_payload kPayloadOffset payload_length in
  Some (not32 (crc32c_update (crc32c_update 0xFFFFFFFF header) payload)).

Definition crc32c (bytes : list byte) : Z := not32 (crc32c_update 0xFFFFFFFF bytes).

(** ** Records *)

Definition expected_payload_length (type : JournalRecordType) : nat :=
  match type with
  | SubmitLimitOrder => kSubmitLimitOrderPayloadSize
  | CancelOrder => kCancelOrderPayloadSize
  end.

Definition decode_record_type (raw_type : Z) : JournalRecordType + JournalCodecError :=
  if raw_type =? record_type_value SubmitLimitOrder then inl SubmitLimitOrder
  else if raw_type =? record_type_value CancelOrder then inl CancelOrder
  else inr UnsupportedRecordType.

Definition encode_payload (command : JournalCommand) : list byte :=
  match command with
  | SubmitLimitOrderCommand order =>
      let payload := append_u64 [] (nlo_id order) in
      let payload := append_u8 payload (nlo_side order) in
      let payload := append_u64 payload (nlo_limit_price order) in
      append_u64 payload (nlo_quantity order)
  | CancelOrderCommand order_id => append_u64 [] order_id
  end.

Definition record_type_for (command : JournalCommand) : JournalRecordType :=
  match command with
  | SubmitLimitOrderCommand _ => SubmitLimitOrder
  | CancelOrderCommand _ => CancelOrder
  end.

Definition encode_file_header : list byte :=
  let bytes := kJournalFileMagic in
  let bytes := append_u16 bytes kJournalFormatVersion in
  let bytes := append_u16 bytes kMatchingRulesVersion in
  append_u32 bytes 0.

Definition decode_file_header (bytes : list byte)
  : option (JournalFileHeader + JournalCodecError) :=
  if bool_decide (length bytes < kJournalFileHeaderSize)%nat then Some (inr TruncatedInput) else
  if bool_decide (kJournalFileHeaderSize < length bytes)%nat
  then Some (inr UnexpectedTrailingBytes) else
  if negb (starts_with bytes kJournalFileMagic) then Some (inr InvalidFileMagic) else
  let? format := read_u16 bytes kFormatVersionOffset in
  if negb (format =? kJournalFormatVersion) then Some (inr UnsupportedJournalVersion) else
  let? rules := read_u16 bytes kMatchingRulesVersionOffset in
  if negb (rules =? kMatchingRulesVersion) then Some (inr UnsupportedMatchingRulesVersion) else
  let? reserved := read_u32 bytes kReservedOffset in
  if negb (reserved =? 0) then Some (inr InvalidReservedBytes) else
  Some (inl default_file_header).

(** The four assignments to [bytes[kChecksumOffset + i]]; out of range they
    would be undefined, which [encode_record] never is. *)
Definition store_checksum (bytes : list byte) (checksum : Z) : list byte :=
  let bytes := <[kChecksumOffset := to_u8 (Z.shiftr checksum 24)]> bytes in
  let bytes := <[(kChecksumOffset + 1)%nat := to_u8 (Z.shiftr checksum 16)]> bytes in
  let bytes := <[(kChecksumOffset + 2)%nat := to_u8 (Z.shiftr checksum 8)]> bytes in
  <[(kChecksumOffset + 3)%nat := to_u8 checksum]> bytes.

(** The bytes of [encode_record] before the checksum is stored. *)
Definition encode_unchecked (sequence : JournalSequence) (command : JournalCommand) : list byte :=
  let payload := encode_payload command in
  let bytes := kJournalFrameMagic in
  let bytes := append_u8 bytes kJournalRecordVersion in
  let bytes := append_u8 bytes (record_type_value (record_type_for command)) in
  let bytes := append_u16 bytes 0 in
  let bytes := append_u32 bytes (Z.of_nat (length payload) mod U32_MOD) in
  let bytes := append_u64 bytes sequence in
  let bytes := append_u32 bytes 0 in
  bytes ++ payload.

Definition encode_record (sequence : JournalSequence) (command : JournalCommand)
  : option (list byte + JournalCodecError) :=
  if sequence =? 0 then Some (inr InvalidJournalSequence) else
  let bytes := encode_unchecked sequence command in
  let? checksum := frame_crc bytes (length (encode_payload command)) in
  Some (inl (store_checksum bytes checksum)).

Definition decode_payload (type : JournalRecordType) (bytes : list byte) : option JournalCommand :=
  match type with
  | SubmitLimitOrder =>
      let? id := read_u64 bytes kPayloadOffset in
      let? side := bytes !! (kPayloadOffset + 8)%nat in
      let? price := read_u64 bytes (kPayloadOffset + 9)%nat in
      let? quantity := read_u64 bytes (kPayloadOffset + 17)%nat in
      Some (SubmitLimitOrderCommand (mkNewLimitOrder id side price quantity))
  | CancelOrder =>
      let? id := read_u64 bytes kPayloadOffset in
      Some (CancelOrderCommand id)
  end.

Definition decode_record_prefix (bytes : list byte)
  : option (DecodedJournalRecord + JournalCodecError) :=
  if bool_decide (length bytes < kJournalFrameHeaderSize)%nat then Some (inr TruncatedInput) else
  if negb (starts_with bytes kJournalFrameMagic) then Some (inr InvalidFrameMagic) else
  let? version := bytes !! kRecordVersionOffset in
  if negb (version =? kJournalRecordVersion) then Some (inr UnsupportedRecordVersion) else
  let? raw_type := bytes !! kRecordTypeOffset in
  match decode_record_type raw_type with
  | inr error => Some (inr error)
  | inl type =>
      let? flags := read_u16 bytes kFlagsOffset in
      if negb (flags =? 0) then Some (inr InvalidFlags) else
      let? raw_payload_length := read_u32 bytes kPayloadLengthOffset in
      if (kJournalMaximumPayloadLength <? raw_payload_length)
         || negb (raw_payload_length =? Z.of_nat (expected_payload_length type))
      then Some (inr InvalidPayloadLength) else
      let payload_length := Z.to_nat raw_payload_length in
      if negb (has_bytes bytes kPayloadOffset payload_length) then Some (inr TruncatedInput) else
      let? sequence := read_u64 bytes kSequenceOffset in
      if sequence =? 0 then Some (inr InvalidJournalSequence) else
      let? stored := read_u32 bytes kChecksumOffset in
      let? computed := frame_crc bytes payload_length in
      if negb (stored =? computed) then Some (inr ChecksumMismatch) else
      let? command := decode_payload type bytes in
      Some (inl {| dj_record := {| jr_sequence := sequence; jr_command := command |};
                   dj_bytes_consumed := (kJournalFrameHeaderSize + payload_length)%nat |})
  end.

Definition decode_record (bytes : list byte)
  : option (DecodedJournalRecord + JournalCodecError) :=
  let? result := decode_record_prefix bytes in
  match result with
  | inr error => Some (inr error)
  | inl decoded =>
      if negb (bool_decide (dj_bytes_consumed decoded = length bytes))
      then Some (inr UnexpectedTrailingBytes)
      else Some result
  end.

End Journal.

(** The values a C++ command can hold. *)
Definition wf_journal_command (c : JournalCommand) : Prop :=
  match c with
  | SubmitLimitOrderCommand o => wf_order o
  | CancelOrderCommand id => is_u64 id
  end.

#[export] Instance wf_journal_command_dec c : Decision (wf_journal_command c).
Proof. destruct c; simpl; [apply _|unfold is_u64; apply _]. Defined.
