(* ===== verification/JournalProps.v ===== *)
(** * What the journal codec guarantees

    Decoding never reads out of bounds, succeeds exactly on encodings, tells a
    cut frame from a damaged one and detects every single-byte corruption. *)
From S2P Require Import Prelude Types Bytes Journal.
Import Journal.

(** ** The numbers on the wire *)

Lemma append_shifted_be n bytes value :
  append_u8 (append_shifted n bytes value) value = bytes ++ be_bytes (S n) value.
Proof.
  revert bytes. induction n as [|n IH]; intros bytes.
  - simpl. unfold append_u8. by rewrite Z.shiftr_0_r.
  - cbn [append_shifted]. rewrite IH. unfold append_u8. by rewrite <- app_assoc.
Qed.

Lemma append_u16_be bytes value : append_u16 bytes value = bytes ++ be_bytes 2 value.
Proof. unfold append_u16, append_u8. rewrite <- app_assoc. simpl. by rewrite Z.shiftr_0_r. Qed.
Lemma append_u32_be bytes value : append_u32 bytes value = bytes ++ be_bytes 4 value.
Proof. apply append_shifted_be. Qed.
Lemma append_u64_be bytes value : append_u64 bytes value = bytes ++ be_bytes 8 value.
Proof. apply append_shifted_be. Qed.

Section reads.
  Context (bytes : list byte) (offset : nat).
  Hypothesis Hwf : wf_bytes bytes.

Lemma read_u16_be :
  (offset + 2 <= length bytes)%nat -> read_u16 bytes offset = Some (be_value (slice offset 2 bytes)).
Proof.
  intros Hl. unfold read_u16.
  destruct (lookup_lt_is_Some_2 bytes offset) as [hi Hhi]; [lia|].
  destruct (lookup_lt_is_Some_2 bytes (offset + 1)) as [lo Hlo]; [lia|].
  rewrite Hhi, Hlo. f_equal. by apply read_pair_value.
Qed.
Lemma read_u32_be :
  (offset + 4 <= length bytes)%nat -> read_u32 bytes offset = Some (be_value (slice offset 4 bytes)).
Proof. intros. by apply read_loop_value. Qed.
Lemma read_u64_be :
  (offset + 8 <= length bytes)%nat -> read_u64 bytes offset = Some (be_value (slice offset 8 bytes)).
Proof. intros. by apply read_loop_value. Qed.

End reads.

(** ** CRC-32C *)

Lemma u32_high_bit a : is_u32 a <-> 0 <= a /\ forall k, 32 <= k -> Z.testbit a k = false.
Proof.
  split.
  - intros Ha. split; [u64|]. intros k Hk. destruct (Z.eq_dec a 0) as [->|]; [apply Z.bits_0|].
    apply Z.bits_above_log2; [u64|]. apply Z.lt_le_trans with 32; [|done].
    apply Z.log2_lt_pow2; u64.
  - intros [Hn Hb]. split; [done|]. destruct (Z.lt_ge_cases a U32_MOD) as [|Hge]; [done|exfalso].
    assert (32 <= Z.log2 a) as Hl by (apply (Z.log2_le_pow2 a 32); lia).
    specialize (Hb _ Hl). rewrite Z.bit_log2 in Hb by lia. done.
Qed.

Lemma lxor_u32 a b : is_u32 a -> is_u32 b -> is_u32 (Z.lxor a b).
Proof.
  rewrite !u32_high_bit. intros [Ha Ha'] [Hb Hb']. split; [by apply Z.lxor_nonneg|].
  intros k Hk. by rewrite Z.lxor_spec, Ha', Hb'.
Qed.

Lemma u8_u32 a : is_u8 a -> is_u32 a.
Proof. intros. u64. Qed.

(** The polynomial is added exactly when the low bit is set. *)
Lemma crc_bit_cases a :
  crc_bit a = Z.lxor (Z.shiftr a 1) (if Z.testbit a 0 then kReflectedPolynomial else 0).
Proof.
  unfold crc_bit. change (Z.land a 1) with (Z.land a (Z.ones 1)). rewrite Z.land_ones by lia.
  change (2 ^ 1) with 2. rewrite <- Z.bit0_mod. by destruct (Z.testbit a 0).
Qed.

Lemma shiftr1_u32 a : is_u32 a -> is_u32 (Z.shiftr a 1) /\ Z.testbit (Z.shiftr a 1) 31 = false.
Proof.
  rewrite !u32_high_bit. intros [Hn Hb]. split; [split|].
  - by apply Z.shiftr_nonneg.
  - intros k Hk. rewrite Z.shiftr_spec by lia. apply Hb. lia.
  - rewrite Z.shiftr_spec by lia. by apply Hb.
Qed.

Lemma crc_bit_u32 a : is_u32 a -> is_u32 (crc_bit a).
Proof.
  intros Ha. rewrite crc_bit_cases. apply lxor_u32; [by apply shiftr1_u32|].
  unfold kReflectedPolynomial. case_match; u64.
Qed.

(** A step of the register loses nothing: the bit shifted out reappears as
    the top bit of the result. *)
Lemma crc_bit_inj a b : is_u32 a -> is_u32 b -> crc_bit a = crc_bit b -> a = b.
Proof.
  intros Ha Hb E. rewrite !crc_bit_cases in E.
  pose proof (f_equal (fun z => Z.testbit z 31) E) as Etop. cbn beta in Etop.
  rewrite !Z.lxor_spec in Etop.
  rewrite (proj2 (shiftr1_u32 a Ha)), (proj2 (shiftr1_u32 b Hb)) in Etop.
  assert (Z.testbit a 0 = Z.testbit b 0) as E0.
  { revert Etop. by destruct (Z.testbit a 0), (Z.testbit b 0). }
  rewrite E0 in E. apply (f_equal (fun z => Z.lxor z (if Z.testbit b 0 then kReflectedPolynomial else 0))) in E.
  rewrite !Z.lxor_assoc, Z.lxor_nilpotent, !Z.lxor_0_r in E.
  apply Z.bits_inj'. intros k Hk. destruct (Z.eq_dec k 0) as [->|]; [done|].
  pose proof (f_equal (fun z => Z.testbit z (k - 1)) E) as Ek. cbn beta in Ek.
  rewrite !Z.shiftr_spec in Ek by lia. by replace (k - 1 + 1) with k in Ek by lia.
Qed.

Lemma iter_crc_bit n a b :
  is_u32 a -> is_u32 b ->
  is_u32 (Nat.iter n crc_bit a) /\ (Nat.iter n crc_bit a = Nat.iter n crc_bit b -> a = b).
Proof.
  intros Ha Hb.
  assert (forall x, is_u32 x -> is_u32 (Nat.iter n crc_bit x)) as Hu.
  { intros x Hx. induction n as [|m IH]; simpl; [done|]. by apply crc_bit_u32. }
  split; [by apply Hu|]. clear Hu. induction n as [|n IH]; simpl; [done|].
  intros E. apply IH. apply crc_bit_inj; [| |done];
    clear -Ha Hb; induction n; simpl; auto using crc_bit_u32.
Qed.

Lemma crc_byte_u32 a x : is_u32 a -> is_u8 x -> is_u32 (crc_byte a x).
Proof.
  intros Ha Hx. assert (is_u32 (Z.lxor a x)) as H by (apply lxor_u32; [done|by apply u8_u32]).
  by apply (iter_crc_bit 8 _ _ H H).
Qed.

Lemma crc_byte_inj_state a b x :
  is_u32 a -> is_u32 b -> is_u8 x -> crc_byte a x = crc_byte b x -> a = b.
Proof.
  intros Ha Hb Hx%u8_u32. unfold crc_byte. intros E.
  apply (iter_crc_bit 8 _ _ (lxor_u32 _ _ Ha Hx) (lxor_u32 _ _ Hb Hx)) in E.
  apply (f_equal (fun z => Z.lxor z x)) in E.
  by rewrite !Z.lxor_assoc, Z.lxor_nilpotent, !Z.lxor_0_r in E.
Qed.

Lemma crc_byte_inj_byte a x y :
  is_u32 a -> is_u8 x -> is_u8 y -> crc_byte a x = crc_byte a y -> x = y.
Proof.
  intros Ha Hx%u8_u32 Hy%u8_u32. unfold crc_byte. intros E.
  apply (iter_crc_bit 8 _ _ (lxor_u32 _ _ Ha Hx) (lxor_u32 _ _ Ha Hy)) in E.
  apply (f_equal (Z.lxor a)) in E.
  by rewrite <- !Z.lxor_assoc, Z.lxor_nilpotent, !Z.lxor_0_l in E.
Qed.

Lemma crc_update_u32 a bs : is_u32 a -> wf_bytes bs -> is_u32 (crc32c_update a bs).
Proof.
  intros Ha Hw. revert a Ha. induction Hw as [|x bs Hx _ IH]; intros a Ha; simpl; [done|].
  by apply IH, crc_byte_u32.
Qed.

Lemma crc_update_inj a b bs :
  is_u32 a -> is_u32 b -> wf_bytes bs -> crc32c_update a bs = crc32c_update b bs -> a = b.
Proof.
  intros Ha Hb Hw. revert a b Ha Hb. induction Hw as [|x bs Hx _ IH]; intros a b Ha Hb; simpl; [done|].
  intros E. apply IH in E; auto using crc_byte_u32. by apply crc_byte_inj_state in E.
Qed.

Lemma not32_spec a : is_u32 a -> not32 a = 0xFFFFFFFF - a.
Proof.
  intros Ha. unfold not32, Z.lnot. rewrite <- (Z.mod_add _ 1) by lia. rewrite Z.mod_small; u64.
Qed.

Lemma not32_u32 a : is_u32 (not32 a).
Proof. apply Z.mod_pos_bound. lia. Qed.

(** Replacing one byte changes the CRC. *)
Lemma crc32c_single_byte l1 x y l2 :
  wf_bytes (l1 ++ x :: l2) -> is_u8 y -> crc32c (l1 ++ x :: l2) = crc32c (l1 ++ y :: l2) -> x = y.
Proof.
  intros [H1 [Hx H2]%Forall_cons]%Forall_app Hy. unfold crc32c.
  assert (is_u32 0xFFFFFFFF) as Hi by u64.
  assert (forall z, is_u8 z -> is_u32 (crc32c_update 0xFFFFFFFF (l1 ++ z :: l2))) as Hu.
  { intros z Hz. apply crc_update_u32; [done|]. apply Forall_app; split; [done|]. by constructor. }
  rewrite !not32_spec by auto. intros E.
  assert (crc32c_update 0xFFFFFFFF (l1 ++ x :: l2) = crc32c_update 0xFFFFFFFF (l1 ++ y :: l2)) as E'
    by lia.
  unfold crc32c_update in E'. rewrite !foldl_app in E'. simpl in E'.
  pose proof (crc_update_u32 _ _ Hi H1) as Hs. unfold crc32c_update in Hs.
  apply crc_update_inj in E'; auto using crc_byte_u32. by apply crc_byte_inj_byte in E'.
Qed.

Lemma crc32c_app a b : crc32c (a ++ b) = not32 (crc32c_update (crc32c_update 0xFFFFFFFF a) b).
Proof. unfold crc32c, crc32c_update. by rewrite foldl_app. Qed.

Lemma crc32c_u32 bs : is_u32 (crc32c bs).
Proof. apply not32_u32. Qed.

#[local] Opaque crc32c.

(** ** The layout of a frame *)

Definition payload_bytes (command : JournalCommand) : list byte :=
  match command with
  | SubmitLimitOrderCommand o =>
      be_bytes 8 (nlo_id o) ++ be_bytes 1 (nlo_side o) ++
      be_bytes 8 (nlo_limit_price o) ++ be_bytes 8 (nlo_quantity o)
  | CancelOrderCommand id => be_bytes 8 id
  end.

(** The 16 bytes of the header that the checksum covers. *)
Definition covered (type : JournalRecordType) (sequence : Z) : list byte :=
  be_bytes 1 kJournalRecordVersion ++ be_bytes 1 (record_type_value type) ++ be_bytes 2 0 ++
  be_bytes 4 (Z.of_nat (expected_payload_length type)) ++ be_bytes 8 sequence.

Definition frame (sequence : Z) (command : JournalCommand) : list byte :=
  let c := covered (record_type_for command) sequence in
  kJournalFrameMagic ++ c ++ be_bytes 4 (crc32c (c ++ payload_bytes command)) ++
  payload_bytes command.

Lemma encode_payload_bytes c : encode_payload c = payload_bytes c.
Proof.
  destruct c as [o|id]; simpl; [|apply append_u64_be].
  rewrite !append_u64_be. unfold append_u8. rewrite app_nil_l, <- !app_assoc.
  simpl (be_bytes 1 _). by rewrite Z.shiftr_0_r.
Qed.

Lemma length_payload_bytes c :
  length (payload_bytes c) = expected_payload_length (record_type_for c).
Proof. by destruct c. Qed.

Lemma length_covered type seq : length (covered type seq) = 16%nat.
Proof. reflexivity. Qed.

Lemma length_frame seq c :
  length (frame seq c) = (24 + expected_payload_length (record_type_for c))%nat.
Proof. unfold frame. by rewrite !length_app, length_payload_bytes. Qed.

Lemma wf_payload_bytes c : wf_bytes (payload_bytes c).
Proof. destruct c; unfold payload_bytes; rewrite ?wf_bytes_app; auto with bytes. Qed.

Lemma wf_covered type seq : wf_bytes (covered type seq).
Proof. unfold covered. rewrite !wf_bytes_app. auto 10 with bytes. Qed.
#[export] Hint Resolve wf_payload_bytes wf_covered : bytes.

Lemma wf_frame seq c : wf_bytes (frame seq c).
Proof.
  unfold frame. rewrite !wf_bytes_app. split_and!; auto with bytes.
  decide_now.
Qed.

Lemma encode_unchecked_layout seq c :
  encode_unchecked seq c =
    kJournalFrameMagic ++ covered (record_type_for c) seq ++ be_bytes 4 0 ++ payload_bytes c.
Proof.
  unfold encode_unchecked, covered. rewrite encode_payload_bytes, length_payload_bytes.
  rewrite !append_u64_be, !append_u32_be, !append_u16_be. unfold append_u8.
  rewrite (Z.mod_small (Z.of_nat _) U32_MOD) by (by destruct c).
  simpl (be_bytes 1 _). rewrite !Z.shiftr_0_r. by rewrite <- !app_assoc.
Qed.

Lemma frame_crc_slices bs n :
  (24 + n <= length bs)%nat -> frame_crc bs n = Some (crc32c (slice 4 16 bs ++ slice 24 n bs)).
Proof.
  intros. unfold frame_crc, kRecordVersionOffset, kCrcHeaderLength, kPayloadOffset.
  rewrite !subspan_slice by lia. by rewrite crc32c_app.
Qed.

Lemma store_checksum_layout head v payload :
  length head = 20%nat -> store_checksum (head ++ be_bytes 4 0 ++ payload) v
  = head ++ be_bytes 4 v ++ payload.
Proof.
  intros Hl. unfold store_checksum. change (be_bytes 4 0) with [0; 0; 0; 0].
  rewrite !insert_app_r_alt by (rewrite Hl; unfold kChecksumOffset; lia).
  rewrite Hl. simpl. by rewrite Z.shiftr_0_r.
Qed.

(** [encode_record] produces the frame, for every non-zero sequence. *)
Lemma encode_record_frame seq c :
  encode_record seq c = Some (if seq =? 0 then inr InvalidJournalSequence else inl (frame seq c)).
Proof.
  unfold encode_record. cbv zeta. destruct (seq =? 0); [done|].
  assert (length (encode_payload c) = expected_payload_length (record_type_for c)) as ->
    by (by rewrite encode_payload_bytes, length_payload_bytes).
  rewrite encode_unchecked_layout.
  set (cov := covered (record_type_for c) seq). set (pl := payload_bytes c).
  assert (length pl = expected_payload_length (record_type_for c)) as Hpl
    by apply length_payload_bytes.
  assert (length cov = 16%nat) as Hcov by done.
  rewrite frame_crc_slices
    by (rewrite !length_app, length_be_bytes, Hpl, Hcov; simpl; lia).
  assert (slice 4 16 (kJournalFrameMagic ++ cov ++ be_bytes 4 0 ++ pl) = cov) as ->.
  { rewrite slice_skip by done. rewrite slice_app_l by (rewrite Hcov; lia). by apply slice_all. }
  assert (slice 24 (expected_payload_length (record_type_for c))
            (kJournalFrameMagic ++ cov ++ be_bytes 4 0 ++ pl) = pl) as ->.
  { rewrite !app_assoc, slice_skip by (rewrite !length_app, Hcov; done). by apply slice_all. }
  rewrite app_assoc, store_checksum_layout by (rewrite length_app, Hcov; done).
  unfold frame. fold cov pl. by rewrite <- app_assoc.
Qed.

(** ** Decoding *)

(** The command in the payload, and the whole decoder, read off the slices of
    the input. *)
Definition command_at (type : JournalRecordType) (bytes : list byte) : JournalCommand :=
  match type with
  | SubmitLimitOrder =>
      SubmitLimitOrderCommand
        (mkNewLimitOrder (be_value (slice 24 8 bytes)) (be_value (slice 32 1 bytes))
           (be_value (slice 33 8 bytes)) (be_value (slice 41 8 bytes)))
  | CancelOrder => CancelOrderCommand (be_value (slice 24 8 bytes))
  end.

Definition decode_slices (bytes : list byte) : DecodedJournalRecord + JournalCodecError :=
  if decide (length bytes < 24)%nat then inr TruncatedInput else
  if decide (slice 0 4 bytes <> kJournalFrameMagic) then inr InvalidFrameMagic else
  if decide (be_value (slice 4 1 bytes) <> 1) then inr UnsupportedRecordVersion else
  match decode_record_type (be_value (slice 5 1 bytes)) with
  | inr error => inr error
  | inl type =>
      let n := expected_payload_length type in
      if decide (be_value (slice 6 2 bytes) <> 0) then inr InvalidFlags else
      if decide (be_value (slice 8 4 bytes) <> Z.of_nat n) then inr InvalidPayloadLength else
      if decide (length bytes < 24 + n)%nat then inr TruncatedInput else
      if decide (be_value (slice 12 8 bytes) = 0) then inr InvalidJournalSequence else
      if decide (be_value (slice 20 4 bytes) <> crc32c (slice 4 16 bytes ++ slice 24 n bytes))
      then inr ChecksumMismatch else
      inl (mkDecodedJournalRecord
             (mkJournalRecord (be_value (slice 12 8 bytes)) (command_at type bytes)) (24 + n))
  end.

Lemma decode_payload_slices type bytes :
  wf_bytes bytes -> (24 + expected_payload_length type <= length bytes)%nat ->
  decode_payload type bytes = Some (command_at type bytes).
Proof.
  intros Hw Hl. unfold decode_payload, kPayloadOffset. destruct type;
    unfold expected_payload_length, kSubmitLimitOrderPayloadSize, kCancelOrderPayloadSize in Hl.
  - rewrite !read_u64_be, read_byte_be by (done || lia). done.
  - by rewrite read_u64_be by (done || lia).
Qed.

Lemma starts_with_slice bytes magic :
  (length magic <= length bytes)%nat ->
  starts_with bytes magic = bool_decide (slice 0 (length magic) bytes = magic).
Proof.
  intros. unfold starts_with, slice. rewrite drop_0, bool_decide_true by done. simpl.
  apply bool_decide_ext. split; congruence.
Qed.

(** Every read of the decoder is inside the input. *)
Lemma decode_record_prefix_slices bytes :
  wf_bytes bytes -> decode_record_prefix bytes = Some (decode_slices bytes).
Proof.
  intros Hw. unfold decode_record_prefix, decode_slices, kJournalFrameHeaderSize.
  case_bool_decide as Hlen; [by rewrite decide_True|]. rewrite decide_False by done.
  rewrite starts_with_slice by (simpl; lia). change (length kJournalFrameMagic) with 4%nat.
  case_bool_decide; [rewrite decide_False by naive_solver|by rewrite decide_True]. simpl negb.
  unfold kRecordVersionOffset, kRecordTypeOffset. rewrite !read_byte_be by (done || lia).
  unfold kJournalRecordVersion. destruct (Z.eqb_spec (be_value (slice 4 1 bytes)) 1);
    [rewrite decide_False by naive_solver|by rewrite decide_True]. simpl negb.
  destruct (decode_record_type _) as [type|]; [|done].
  rewrite read_u16_be, read_u32_be by (done || (unfold kFlagsOffset, kPayloadLengthOffset; lia)).
  unfold kFlagsOffset, kPayloadLengthOffset, kJournalMaximumPayloadLength.
  destruct (Z.eqb_spec (be_value (slice 6 2 bytes)) 0);
    [rewrite decide_False by naive_solver|by rewrite decide_True]. simpl negb.
  destruct (Z.eqb_spec (be_value (slice 8 4 bytes)) (Z.of_nat (expected_payload_length type))) as [E|];
    [rewrite decide_False by naive_solver|by rewrite orb_true_r, decide_True]. simpl negb.
  rewrite E, orb_false_r, (proj2 (Z.ltb_ge _ _)) by (by destruct type).
  rewrite Nat2Z.id. unfold has_bytes, kPayloadOffset.
  rewrite (bool_decide_true (24 <= _)%nat) by lia. simpl andb.
  case_bool_decide; [rewrite decide_False by lia|by rewrite decide_True by lia]. simpl negb.
  unfold kSequenceOffset, kChecksumOffset. rewrite read_u64_be, read_u32_be by (done || lia).
  destruct (Z.eqb_spec (be_value (slice 12 8 bytes)) 0);
    [by rewrite decide_True|rewrite decide_False by done].
  rewrite frame_crc_slices by lia.
  destruct (Z.eqb_spec (be_value (slice 20 4 bytes))
             (crc32c (slice 4 16 bytes ++ slice 24 (expected_payload_length type) bytes)));
    [rewrite decide_False by naive_solver|by rewrite decide_True]. simpl negb.
  by rewrite decode_payload_slices by (done || lia).
Qed.

(** ** Frames, field by field *)

Lemma frame_fields bytes seq c :
  let n := expected_payload_length (record_type_for c) in
  (24 + n <= length bytes)%nat ->
  slice 0 (24 + n) bytes = frame seq c <->
  slice 0 4 bytes = kJournalFrameMagic /\
  slice 4 1 bytes = be_bytes 1 1 /\
  slice 5 1 bytes = be_bytes 1 (record_type_value (record_type_for c)) /\
  slice 6 2 bytes = be_bytes 2 0 /\
  slice 8 4 bytes = be_bytes 4 (Z.of_nat n) /\
  slice 12 8 bytes = be_bytes 8 seq /\
  slice 20 4 bytes = be_bytes 4 (crc32c (covered (record_type_for c) seq ++ payload_bytes c)) /\
  slice 24 n bytes = payload_bytes c.
Proof.
  intros n Hl. unfold frame, covered. fold n. rewrite <- !app_assoc.
  change (24 + n)%nat with (4 + (1 + (1 + (2 + (4 + (8 + (4 + n)))))))%nat.
  do 7 (rewrite slice_concat by (rewrite ?length_be_bytes; done || lia)). done.
Qed.

(** The part under the checksum, from its fields. *)
Lemma covered_fields bytes type seq :
  (20 <= length bytes)%nat ->
  slice 4 16 bytes = covered type seq <->
  slice 4 1 bytes = be_bytes 1 1 /\
  slice 5 1 bytes = be_bytes 1 (record_type_value type) /\
  slice 6 2 bytes = be_bytes 2 0 /\
  slice 8 4 bytes = be_bytes 4 (Z.of_nat (expected_payload_length type)) /\
  slice 12 8 bytes = be_bytes 8 seq.
Proof.
  intros Hl. unfold covered. change 16%nat with (1 + (1 + (2 + (4 + 8))))%nat.
  do 4 (rewrite slice_concat by (rewrite ?length_be_bytes; done || lia)). done.
Qed.

Lemma payload_fields bytes c :
  wf_bytes bytes -> wf_journal_command c ->
  (24 + expected_payload_length (record_type_for c) <= length bytes)%nat ->
  slice 24 (expected_payload_length (record_type_for c)) bytes = payload_bytes c <->
  command_at (record_type_for c) bytes = c.
Proof.
  intros Hw Hc Hl. destruct c as [[id side price q]|id];
    cbn [record_type_for expected_payload_length payload_bytes command_at wf_journal_command
         nlo_id nlo_side nlo_limit_price nlo_quantity] in *.
  - change kSubmitLimitOrderPayloadSize with (8 + (1 + (8 + 8)))%nat in *.
    do 3 (rewrite slice_concat by (rewrite ?length_be_bytes; done || lia)).
    unfold wf_order in Hc. cbn [nlo_id nlo_side nlo_limit_price nlo_quantity] in Hc.
    destruct Hc as (? & ? & ? & ?).
    rewrite <- !field_value by (done || lia || u64). cbn [Nat.add]. naive_solver.
  - change kCancelOrderPayloadSize with 8%nat in *.
    rewrite <- field_value by (done || lia || u64). naive_solver.
Qed.

Lemma command_at_type type bytes : record_type_for (command_at type bytes) = type.
Proof. by destruct type. Qed.

Lemma command_at_wf type bytes :
  wf_bytes bytes -> (24 + expected_payload_length type <= length bytes)%nat ->
  wf_journal_command (command_at type bytes).
Proof.
  intros Hw Hl. destruct type; simpl in *.
  - change kSubmitLimitOrderPayloadSize with 25%nat in Hl. unfold wf_order. simpl.
    split_and!; by apply field_range; [|lia].
  - change kCancelOrderPayloadSize with 8%nat in Hl. by apply field_range; [|lia].
Qed.

Lemma decode_record_type_inl v type :
  decode_record_type v = inl type <-> v = record_type_value type.
Proof.
  unfold decode_record_type. destruct type; simpl;
    destruct (Z.eqb_spec v 1), (Z.eqb_spec v 2); split; (done || lia || congruence).
Qed.


(** A record that can be written. *)
Definition wf_record (r : JournalRecord) : Prop :=
  0 < jr_sequence r < U64_MOD /\ wf_journal_command (jr_command r).

#[export] Instance wf_record_dec r : Decision (wf_record r).
Proof. unfold wf_record. apply _. Defined.

Definition record_frame (r : JournalRecord) : list byte := frame (jr_sequence r) (jr_command r).

(** Once the header is in order, the decoder is down to the last checks. *)
Lemma decode_slices_header bytes type :
  let n := expected_payload_length type in
  wf_bytes bytes -> (24 <= length bytes)%nat ->
  slice 0 4 bytes = kJournalFrameMagic -> slice 4 1 bytes = be_bytes 1 1 ->
  slice 5 1 bytes = be_bytes 1 (record_type_value type) -> slice 6 2 bytes = be_bytes 2 0 ->
  slice 8 4 bytes = be_bytes 4 (Z.of_nat n) ->
  decode_slices bytes =
    if decide (length bytes < 24 + n)%nat then inr TruncatedInput else
    if decide (be_value (slice 12 8 bytes) = 0) then inr InvalidJournalSequence else
    if decide (be_value (slice 20 4 bytes) <> crc32c (slice 4 16 bytes ++ slice 24 n bytes))
    then inr ChecksumMismatch else
    inl (mkDecodedJournalRecord
           (mkJournalRecord (be_value (slice 12 8 bytes)) (command_at type bytes)) (24 + n)).
Proof.
  intros n Hw Hl F1 F2 F3 F4 F5.
  apply field_value in F2, F3, F4, F5; try done; try lia; try (unfold n; by destruct type).
  unfold decode_slices. rewrite decide_False by lia. rewrite decide_False by naive_solver.
  rewrite F2, F3, F4, F5. rewrite decide_False by naive_solver.
  rewrite (proj2 (decode_record_type_inl _ type) eq_refl). cbv zeta. fold n.
  rewrite decide_False by naive_solver. by rewrite decide_False by naive_solver.
Qed.

Lemma decode_slices_frame r rest :
  wf_record r -> wf_bytes rest ->
  decode_slices (record_frame r ++ rest) = inl (mkDecodedJournalRecord r (length (record_frame r))).
Proof.
  destruct r as [seq c]. intros [Hseq Hc] Hrest. unfold record_frame. cbn [jr_sequence jr_command] in *.
  set (bytes := frame seq c ++ rest). set (n := expected_payload_length (record_type_for c)).
  assert (wf_bytes bytes) as Hw by (apply wf_bytes_app; split; [apply wf_frame|done]).
  assert (24 + n <= length bytes)%nat as Hl
    by (unfold bytes; rewrite length_app, length_frame; fold n; lia).
  assert (slice 0 (24 + n) bytes = frame seq c) as Hf.
  { unfold bytes. rewrite slice_app_l by (rewrite length_frame; fold n; lia).
    apply slice_all. apply length_frame. }
  apply frame_fields in Hf as (F1 & F2 & F3 & F4 & F5 & F6 & F7 & F8); [|done].
  fold n in F5, F8. assert (slice 4 16 bytes = covered (record_type_for c) seq) as Hcov
    by (apply covered_fields; [lia|by split_and!]).
  rewrite (decode_slices_header bytes (record_type_for c)) by (done || lia). fold n.
  apply field_value in F6, F7; try done; try lia; try apply crc32c_u32.
  rewrite F6, F7, Hcov, F8. rewrite decide_False by lia. rewrite decide_False by lia.
  rewrite decide_False by naive_solver. rewrite length_frame. fold n.
  by rewrite (proj1 (payload_fields bytes c Hw Hc Hl) F8).
Qed.

(** A frame that is cut short is recognised as such, wherever the cut is. *)
Lemma decode_slices_cut r k :
  wf_record r -> (k < length (record_frame r))%nat ->
  decode_slices (take k (record_frame r)) = inr TruncatedInput.
Proof.
  destruct r as [seq c]. intros [Hseq Hc]. unfold record_frame. cbn [jr_sequence jr_command] in *.
  rewrite length_frame. set (n := expected_payload_length (record_type_for c)). intros Hk.
  assert (length (take k (frame seq c)) = k) as Hlk by (rewrite length_take, length_frame; fold n; lia).
  destruct (decide (k < 24)%nat).
  { unfold decode_slices. by rewrite decide_True by lia. }
  assert (forall off m, (off + m <= k)%nat ->
    slice off m (take k (frame seq c)) = slice off m (frame seq c)) as Hs.
  { intros off m Hm. rewrite <- (take_drop k (frame seq c)) at 2. rewrite slice_app_l; [done|lia]. }
  pose proof (slice_all (24 + n) (frame seq c) (length_frame seq c)) as Hf.
  apply frame_fields in Hf as (F1 & F2 & F3 & F4 & F5 & _); [|rewrite length_frame; fold n; lia].
  rewrite (decode_slices_header _ (record_type_for c)); rewrite ?Hs by lia; try done; try lia.
  - rewrite decide_True; [done|]. fold n. lia.
  - apply Forall_take, wf_frame.
Qed.

Lemma decode_slices_inv bytes d :
  wf_bytes bytes -> decode_slices bytes = inl d ->
  wf_record (dj_record d) /\ dj_bytes_consumed d = length (record_frame (dj_record d)) /\
  record_frame (dj_record d) `prefix_of` bytes.
Proof.
  intros Hw. unfold decode_slices.
  destruct (decide _) as [|Hlen]; [done|]. destruct (decide _) as [|Hmagic]; [done|].
  destruct (decide _) as [|Hver]; [done|].
  destruct (decode_record_type _) as [type|] eqn:Htype; [|done]. cbv zeta.
  set (n := expected_payload_length type).
  destruct (decide _) as [|Hflags]; [done|]. destruct (decide _) as [|Hplen]; [done|].
  destruct (decide _) as [|Hl]; [done|]. destruct (decide _) as [|Hseq]; [done|].
  destruct (decide _) as [|Hcrc]; [done|]. intros [= <-]. unfold record_frame.
  cbn [dj_record dj_bytes_consumed jr_sequence jr_command].
  apply decode_record_type_inl in Htype. apply dec_stable in Hmagic, Hver, Hflags, Hplen, Hcrc.
  pose proof (field_range 12 8 bytes Hw ltac:(lia)) as Hsr.
  change (256 ^ Z.of_nat 8) with U64_MOD in Hsr.
  pose proof (command_at_wf type bytes Hw ltac:(lia)) as Hc.
  pose proof (command_at_type type bytes) as Ht.
  split; [split; [cbn [jr_sequence]; lia|done]|]. rewrite length_frame, Ht. fold n. split; [done|].
  assert (slice 0 (24 + n) bytes = frame (be_value (slice 12 8 bytes)) (command_at type bytes)) as E.
  { pose proof (frame_fields bytes (be_value (slice 12 8 bytes)) (command_at type bytes)) as Hf.
    rewrite Ht in Hf. apply Hf; [fold n; lia|]. fold n.
    apply field_value in Hver, Htype, Hflags, Hplen;
      try done; try lia; try (by destruct type); try u64.
    assert (slice 12 8 bytes = be_bytes 8 (be_value (slice 12 8 bytes))) as Hs
      by (apply field_value; done || lia).
    assert (slice 24 n bytes = payload_bytes (command_at type bytes)) as Hp.
    { pose proof (payload_fields bytes (command_at type bytes) Hw Hc) as Hpf.
      rewrite Ht in Hpf. apply Hpf; [fold n; lia|done]. }
    assert (slice 4 16 bytes = covered type (be_value (slice 12 8 bytes))) as Hcov
      by (apply covered_fields; [lia|by split_and!]).
    rewrite Hcov, Hp in Hcrc. split_and!; try done.
    apply field_value; try done; [lia|]. apply crc32c_u32. }
  rewrite <- E. unfold slice. rewrite drop_0. apply prefix_take.
Qed.

(** ** The codec *)

Lemma decode_defined bytes :
  wf_bytes bytes ->
  decode_record_prefix bytes <> None /\ decode_record bytes <> None /\
  decode_file_header bytes <> None.
Proof.
  intros Hw. unfold decode_record. rewrite decode_record_prefix_slices by done. split_and!; [done| |].
  - destruct (decode_slices bytes); [case_match|]; done.
  - unfold decode_file_header. case_bool_decide as H1; [done|]. case_bool_decide as H2; [done|].
    unfold kJournalFileHeaderSize, kFormatVersionOffset, kMatchingRulesVersionOffset,
      kReservedOffset in *.
    rewrite !read_u16_be, read_u32_be by (done || lia). repeat case_match; done.
Qed.

(** The decoder never reads outside its input: on every byte sequence
    [decode_record_prefix], [decode_record] and [decode_file_header] return a
    record, a header or an error. *)
Theorem journal_decode_in_bounds bytes :
  wf_bytes bytes ->
  decode_record_prefix bytes <> None /\ decode_record bytes <> None /\
  decode_file_header bytes <> None.
Proof. apply decode_defined. Qed.

(** C20: encode and decode are inverse.  The prefix decoder accepts an input
    exactly when it starts with the encoding of a record (a command with a
    non-zero sequence number), and then it returns that record and the length
    of its encoding; so the encoding is canonical and bytes after it do not
    matter. *)
Theorem journal_record_roundtrip bytes r consumed :
  wf_bytes bytes ->
  decode_record_prefix bytes = Some (inl (mkDecodedJournalRecord r consumed)) <->
  exists f rest, wf_record r /\ bytes = f ++ rest /\ consumed = length f /\
    encode_record (jr_sequence r) (jr_command r) = Some (inl f).
Proof.
  intros Hw. rewrite decode_record_prefix_slices by done. split.
  - intros [= E]. apply decode_slices_inv in E as (Hr & Hn & [rest ->]); [|done].
    cbn [dj_record dj_bytes_consumed] in *. exists (record_frame r), rest. split_and!; try done.
    rewrite encode_record_frame. destruct Hr as [Hs _]. by rewrite (proj2 (Z.eqb_neq _ _)) by lia.
  - intros (f & rest & Hr & -> & -> & E). apply wf_bytes_app in Hw as [_ Hrest].
    rewrite encode_record_frame, (proj2 (Z.eqb_neq _ _)) in E by (destruct Hr; lia).
    injection E as <-. f_equal. by apply decode_slices_frame.
Qed.

(** A frame that is cut short is told from a damaged one: every proper
    prefix of an encoding decodes to [TruncatedInput]; and the exact decoder
    accepts an encoding and refuses one followed by anything. *)
Theorem journal_truncation seq c f k rest :
  is_u64 seq -> wf_journal_command c -> wf_bytes rest ->
  encode_record seq c = Some (inl f) ->
  ((k < length f)%nat -> decode_record_prefix (take k f) = Some (inr TruncatedInput) /\
                         decode_record (take k f) = Some (inr TruncatedInput)) /\
  decode_record (f ++ rest) =
    Some (if decide (rest = []) then inl (mkDecodedJournalRecord (mkJournalRecord seq c) (length f))
          else inr UnexpectedTrailingBytes).
Proof.
  intros Hs Hc Hrest E. rewrite encode_record_frame in E.
  destruct (Z.eqb_spec seq 0); [done|]. injection E as <-.
  assert (wf_record (mkJournalRecord seq c)) as Hr by (split; [cbn; u64|done]).
  change (frame seq c) with (record_frame (mkJournalRecord seq c)). split.
  - intros Hk. unfold decode_record. rewrite !decode_record_prefix_slices
      by (apply Forall_take, wf_frame).
    by rewrite (decode_slices_cut _ k Hr Hk).
  - unfold decode_record. rewrite decode_record_prefix_slices
      by (apply wf_bytes_app; split; [apply wf_frame|done]).
    rewrite (decode_slices_frame (mkJournalRecord seq c) rest Hr Hrest).
    cbn [dj_bytes_consumed]. rewrite length_app.
    destruct (decide (rest = [])) as [->|Hne].
    + rewrite bool_decide_true by (simpl; lia). done.
    + rewrite bool_decide_false; [done|]. destruct rest; [done|]. simpl. lia.
Qed.

(** ** Corruption *)

(** Where a replaced byte falls in a concatenation. *)
Lemma insert_parts (a b a' b' : list byte) i x :
  a' ++ b' = <[i := x]> (a ++ b) -> length a' = length a ->
  ((i < length a)%nat /\ a' = <[i := x]> a /\ b' = b) \/
  ((length a <= i)%nat /\ a' = a /\ b' = <[(i - length a)%nat := x]> b).
Proof.
  intros E Hl. destruct (decide (i < length a)%nat) as [Hi|Hi].
  - left. rewrite insert_app_l in E by done. apply app_inj_1 in E; [naive_solver|].
    by rewrite length_insert.
  - right. rewrite insert_app_r_alt in E by lia. apply app_inj_1 in E; [|done].
    split; [lia|naive_solver].
Qed.

Lemma crc32c_insert l i x y :
  wf_bytes l -> is_u8 x -> l !! i = Some y -> crc32c (<[i := x]> l) = crc32c l -> x = y.
Proof.
  intros Hw Hx Hy E. rewrite insert_take_drop in E by (by eapply lookup_lt_Some).
  pose proof (take_drop_middle l i y Hy) as El. symmetry.
  apply (crc32c_single_byte (take i l) y x (drop (S i) l)); rewrite ?El; done.
Qed.

Lemma insert_id_neq (l : list byte) i x y : l !! i = Some y -> x <> y -> l <> <[i := x]> l.
Proof.
  intros Hy Hne E. apply (f_equal (lookup i)) in E.
  rewrite list_lookup_insert_eq in E by (by eapply lookup_lt_Some). congruence.
Qed.

Lemma be_bytes_inj n v w :
  0 <= v < 256 ^ Z.of_nat n -> 0 <= w < 256 ^ Z.of_nat n -> be_bytes n v = be_bytes n w -> v = w.
Proof. intros Hv Hw E. rewrite <- (be_value_bytes n v), <- (be_value_bytes n w) by done. congruence. Qed.

(** Two frames of the same type do not differ in exactly one byte. *)
Lemma frames_differ_same_type seq c seq' c' i x y :
  record_type_for c = record_type_for c' ->
  is_u8 x -> frame seq c !! i = Some y -> x <> y -> frame seq' c' <> <[i := x]> (frame seq c).
Proof.
  intros Ht Hx Hy Hne E. unfold frame in E, Hy. rewrite <- Ht in E.
  set (cov := covered (record_type_for c) seq) in *.
  set (cov' := covered (record_type_for c) seq') in *.
  set (pl := payload_bytes c) in *. set (pl' := payload_bytes c') in *.
  assert (length pl' = length pl) as Hpl by (unfold pl, pl'; by rewrite !length_payload_bytes, Ht).
  assert (wf_bytes (cov ++ pl)) as Hw by (apply wf_bytes_app; split; unfold cov, pl; auto with bytes).
  apply insert_parts in E as [(Hi & E & _)|(Hi & _ & E)]; [| |done].
  { rewrite lookup_app_l in Hy by done. by eapply insert_id_neq in E. }
  rewrite lookup_app_r in Hy by done. set (j := (i - _)%nat) in *. clearbody j. clear i Hi.
  apply insert_parts in E as [(Hi & Ec & E)|(Hi & Ec & E)]; [| |done].
  - apply app_inj_1 in E as [Ecrc Epl]; [|by rewrite !length_be_bytes].
    rewrite lookup_app_l in Hy by done.
    apply be_bytes_inj in Ecrc; [|apply crc32c_u32..]. rewrite Epl, Ec, <- insert_app_l in Ecrc by done.
    apply Hne. eapply crc32c_insert; [exact Hw|done| |exact Ecrc]. by rewrite lookup_app_l.
  - rewrite lookup_app_r in Hy by done. rewrite Ec in E. set (k := (j - _)%nat) in *.
    clearbody k. clear j Hi.
    apply insert_parts in E as [(Hi & E & Epl)|(Hi & Ecrc & Epl)]; [| |by rewrite !length_be_bytes].
    + rewrite Epl in E. rewrite lookup_app_l in Hy by done. by eapply insert_id_neq in E.
    + rewrite lookup_app_r in Hy by done. set (m := (k - _)%nat) in *.
      apply be_bytes_inj in Ecrc; [|apply crc32c_u32..].
      rewrite Epl in Ecrc. apply Hne.
      apply (crc32c_insert (cov ++ pl) (length cov + m) x y Hw Hx).
      * rewrite lookup_app_r by lia. by replace (length cov + m - length cov)%nat with m by lia.
      * rewrite insert_app_r. exact Ecrc.
Qed.

Lemma frame_type_byte seq c :
  frame seq c !! 5%nat = Some (record_type_value (record_type_for c)) /\
  frame seq c !! 11%nat = Some (Z.of_nat (expected_payload_length (record_type_for c))).
Proof. by destruct c. Qed.

(** Nor do frames of different types: the type and the length both differ. *)
Lemma frames_differ_other_type seq c seq' c' i x rest :
  record_type_for c <> record_type_for c' -> (i < length (frame seq c))%nat ->
  ~ frame seq' c' `prefix_of` <[i := x]> (frame seq c) ++ rest.
Proof.
  intros Ht Hi [rest' E]. destruct (frame_type_byte seq c) as [H5 H11].
  destruct (frame_type_byte seq' c') as [H5' H11'].
  assert (forall k y y', frame seq c !! k = Some y -> frame seq' c' !! k = Some y' -> i <> k -> y = y') as Hk.
  { intros k y y' Hy Hy' Hne. apply (f_equal (lookup k)) in E.
    rewrite (lookup_app_l_Some _ _ _ _ Hy'), lookup_app_l in E
      by (rewrite length_insert; by eapply lookup_lt_Some).
    rewrite list_lookup_insert_ne in E by done. congruence. }
  apply Ht. destruct (decide (i = 5%nat)) as [->|].
  - specialize (Hk 11%nat _ _ H11 H11' ltac:(lia)). by destruct (record_type_for c), (record_type_for c').
  - specialize (Hk 5%nat _ _ H5 H5' ltac:(lia)). by destruct (record_type_for c), (record_type_for c').
Qed.

(** C24: corruption is detected: replacing any one byte of an encoded record by
    another value makes the decoder return an error, never a record, whatever
    follows the frame. *)
Theorem journal_corruption_detected seq c f i x rest :
  is_u64 seq -> wf_journal_command c -> wf_bytes rest ->
  encode_record seq c = Some (inl f) ->
  (i < length f)%nat -> is_u8 x -> f !! i <> Some x ->
  exists e, decode_record_prefix (<[i := x]> f ++ rest) = Some (inr e).
Proof.
  intros Hs Hc Hrest E Hi Hx Hne. rewrite encode_record_frame in E.
  destruct (Z.eqb_spec seq 0); [done|]. injection E as <-.
  assert (wf_bytes (<[i := x]> (frame seq c))) as Hwi.
  { apply Forall_insert; [apply wf_frame|done]. }
  rewrite decode_record_prefix_slices by (by apply wf_bytes_app).
  destruct (decode_slices _) as [d|e] eqn:Ed; [exfalso|by exists e].
  apply decode_slices_inv in Ed as (_ & _ & Hp); [|by apply wf_bytes_app].
  unfold record_frame in Hp. set (seq' := jr_sequence _) in Hp. set (c' := jr_command _) in Hp.
  destruct (lookup_lt_is_Some_2 _ _ Hi) as [y Hy].
  destruct (decide (record_type_for c = record_type_for c')) as [Ht|Ht].
  - destruct Hp as [rest' Hp]. apply app_inj_1 in Hp as [Hp _].
    + apply (frames_differ_same_type seq c seq' c' i x y); naive_solver.
    + by rewrite length_insert, !length_frame, Ht.
  - by apply frames_differ_other_type in Hp.
Qed.

Lemma decode_file_header_iff bytes h :
  wf_bytes bytes ->
  decode_file_header bytes = Some (inl h) <->
  bytes = encode_file_header /\ h = default_file_header.
Proof.
  intros Hw. split; [|intros [-> ->]; by vm_compute].
  unfold decode_file_header, kJournalFileHeaderSize. case_bool_decide as H1; [done|].
  case_bool_decide as H2; [done|]. rewrite starts_with_slice by (simpl; lia).
  unfold kFormatVersionOffset, kMatchingRulesVersionOffset, kReservedOffset.
  case_bool_decide as Hm; [|done]. rewrite !read_u16_be, read_u32_be by (done || lia). simpl negb.
  unfold kJournalFormatVersion, kMatchingRulesVersion.
  destruct (Z.eqb_spec (be_value (slice 8 2 bytes)) 1) as [F1|]; [|done].
  destruct (Z.eqb_spec (be_value (slice 10 2 bytes)) 1) as [F2|]; [|done].
  destruct (Z.eqb_spec (be_value (slice 12 4 bytes)) 0) as [F3|]; [|done].
  simpl negb. intros [= <-]. split; [|done].
  apply field_value in F1, F2, F3; try done; try lia.
  unfold encode_file_header. rewrite append_u32_be, !append_u16_be, <- !app_assoc.
  rewrite <- (slice_all 16 bytes) by lia. change 16%nat with (8 + (2 + (2 + 4)))%nat.
  do 3 (rewrite slice_concat by (rewrite ?length_be_bytes; done || lia)). done.
Qed.

(** The file header decoder accepts exactly the encoded header. *)
Theorem journal_file_header_roundtrip bytes h :
  wf_bytes bytes ->
  decode_file_header bytes = Some (inl h) <->
  bytes = encode_file_header /\ h = default_file_header.
Proof. apply decode_file_header_iff. Qed.

(** ** Witnesses *)

Definition sample_record : JournalRecord :=
  mkJournalRecord 7 (SubmitLimitOrderCommand (mkNewLimitOrder 1 Buy 100 5)).

Definition sample_frame : list byte :=
  match encode_record 7 (SubmitLimitOrderCommand (mkNewLimitOrder 1 Buy 100 5)) with
  | Some (inl f) => f
  | _ => []
  end.

Lemma journal_decode_in_bounds_witness : decode_record_prefix [77; 74; 82] <> None.
Proof. apply (journal_decode_in_bounds [77; 74; 82]). decide_now. Defined.

Lemma journal_record_roundtrip_witness :
  decode_record_prefix (sample_frame ++ [1; 2])
    = Some (inl (mkDecodedJournalRecord sample_record 49)).
Proof.
  apply (journal_record_roundtrip (sample_frame ++ [1; 2]) sample_record 49).
  - decide_now.
  - exists sample_frame, [1; 2]. split; [decide_now|].
    split; [reflexivity|]. split; vm_compute; reflexivity.
Defined.

Lemma journal_truncation_witness :
  decode_record_prefix (take 30 sample_frame) = Some (inr TruncatedInput).
Proof.
  apply (journal_truncation 7 (SubmitLimitOrderCommand (mkNewLimitOrder 1 Buy 100 5))
    sample_frame 30 []).
  - u64.
  - decide_now.
  - constructor.
  - vm_compute. reflexivity.
  - vm_compute. lia.
Defined.

Lemma journal_corruption_detected_witness :
  exists e, decode_record_prefix (<[40%nat := 99]> sample_frame ++ []) = Some (inr e).
Proof.
  apply (journal_corruption_detected 7 (SubmitLimitOrderCommand (mkNewLimitOrder 1 Buy 100 5))).
  - u64.
  - decide_now.
  - constructor.
  - vm_compute. reflexivity.
  - vm_compute. lia.
  - u64.
  - vm_compute. discriminate.
Defined.

Lemma journal_file_header_roundtrip_witness :
  decode_file_header encode_file_header = Some (inl default_file_header).
Proof.
  apply (journal_file_header_roundtrip encode_file_header default_file_header).
  - decide_now.
  - split; reflexivity.
Defined.
