(* ===== verification/Posix.v ===== *)
(** * The system calls of journal storage

    src/journal_storage.cpp calls open, write, pread, fstat, fsync, ftruncate
    and close.  The kernel is not part of the repository: [Posix] makes these
    calls parameters of the model, functions of an abstract world [W], and
    [PosixLaws] states what their documentation promises, against the
    observations of [PosixView]: the contents of a file, the open descriptors,
    and the contents that a file may be found with after a crash.  Nobody else
    writes to the journal between two calls.  [MemoryFs] is an in-memory
    instance with a script of faults; it shows that the laws can hold together
    and runs the examples. *)
From stdpp Require Import strings.
From S2P Require Import Prelude Bytes.

(** ** Paths, descriptors and error numbers *)

(** [std::filesystem::path]: an optional root and file names. *)
Record path := mkPath { has_root : bool; filenames : list string }.

#[export] Instance path_eq_dec : EqDecision path.
Proof. solve_decision. Defined.

(** [path.parent_path()]: the path itself when there is no file name. *)
Definition parent_path (p : path) : path :=
  mkPath (has_root p) (take (length (filenames p) - 1) (filenames p)).

(** [path.has_parent_path()]: the parent is not the empty path. *)
Definition has_parent_path (p : path) : bool :=
  has_root (parent_path p) || bool_decide (filenames (parent_path p) <> []).

Definition current_directory : path := mkPath false ["."%string].

(** [path.has_parent_path() ? path.parent_path() : "."]. *)
Definition directory_of (p : path) : path :=
  if has_parent_path p then parent_path p else current_directory.

Abbreviation Fd := Z (only parsing).
Abbreviation errno := Z (only parsing).

Definition ENOENT : errno := 2.
Definition EINTR : errno := 4.
Definition EIO : errno := 5.
Definition EEXIST : errno := 17.
Definition EOVERFLOW : errno := 75.

(** [std::numeric_limits<off_t>::max()]. *)
Definition OFF_MAX : Z := 9223372036854775807.

(** The four combinations of flags the source opens with:
    [O_RDONLY], [O_RDWR | O_APPEND], [O_WRONLY | O_APPEND | O_CREAT | O_EXCL]
    and [O_RDONLY | O_DIRECTORY], each with [O_CLOEXEC]. *)
Inductive OpenMode := ReadOnly | ReadWriteAppend | CreateExclusive | DirectoryOnly.

#[export] Instance OpenMode_eq_dec : EqDecision OpenMode.
Proof. solve_decision. Defined.

Definition readable (m : OpenMode) : bool :=
  match m with ReadOnly | ReadWriteAppend => true | _ => false end.
Definition writable (m : OpenMode) : bool :=
  match m with ReadWriteAppend | CreateExclusive => true | _ => false end.

(** ** The calls

    A call that returns [-1] and sets [errno] returns [inr errno] (or
    [Some errno] when success carries no value).  [interruptions] bounds how
    many more calls a signal interrupts: a loop that retries on [EINTR] ends
    because there are finitely many. *)
Class Posix (W : Type) := {
  sys_open : OpenMode -> path -> W -> W * (Fd + errno);
  sys_write : Fd -> list byte -> W -> W * (nat + errno);
  sys_pread : Fd -> nat -> Z -> W -> W * (list byte + errno);
  sys_fstat_size : Fd -> W -> W * (Z + errno);
  sys_fsync : Fd -> W -> W * option errno;
  sys_ftruncate : Fd -> Z -> W -> W * option errno;
  sys_close : Fd -> W -> W;
  interruptions : W -> nat;
}.

Class PosixView (W : Type) := {
  contents : W -> path -> option (list byte);
  opened : W -> Fd -> option (OpenMode * path);
  after_crash : W -> path -> option (list byte) -> Prop;
}.

Section relations.
  Context {W : Type} `{!Posix W, !PosixView W}.

(** Nothing happened to the files: no content changed, and no content but the
    present one can newly be found after a crash. *)
Record same_files (w w' : W) : Prop := {
  sf_contents p : contents w' p = contents w p;
  sf_crash p c : after_crash w' p c -> after_crash w p c \/ c = contents w p;
  sf_interruptions : (interruptions w' <= interruptions w)%nat;
}.

(** The bytes [d] were appended to [p] and nothing else happened.  A crash may
    keep any prefix of them. *)
Record appended (p : path) (d : list byte) (w w' : W) : Prop := {
  ap_contents : contents w' p = (fun c => c ++ d) <$> contents w p;
  ap_others q : q <> p -> contents w' q = contents w q;
  ap_opened fd : opened w' fd = opened w fd;
  ap_crash c : after_crash w' p c ->
    after_crash w p c \/
    exists old d', contents w p = Some old /\ d' `prefix_of` d /\ c = Some (old ++ d');
  ap_crash_others q c : q <> p -> after_crash w' q c -> after_crash w q c \/ c = contents w q;
  ap_interruptions : (interruptions w' <= interruptions w)%nat;
}.

End relations.

(** What the documentation of the calls promises.  A call on a descriptor is
    only specified when the descriptor is open in a suitable mode. *)
Class PosixLaws (W : Type) `{!Posix W, !PosixView W} := {
  (** Files are sequences of bytes whose size fits [off_t]. *)
  contents_bytes w p c : contents w p = Some c -> wf_bytes c /\ Z.of_nat (length c) <= OFF_MAX;
  (** A successful open returns a descriptor that was not in use. *)
  open_opened mode p w w' fd :
    sys_open mode p w = (w', inl fd) ->
    0 <= fd /\ opened w fd = None /\ opened w' fd = Some (mode, p) /\
    (forall fd', fd' <> fd -> opened w' fd' = opened w fd');
  open_failed mode p w w' e :
    sys_open mode p w = (w', inr e) ->
    same_files w w' /\ forall fd, opened w' fd = opened w fd;
  open_existing mode p w w' fd :
    sys_open mode p w = (w', inl fd) -> mode <> CreateExclusive ->
    same_files w w' /\ (mode <> DirectoryOnly -> contents w p <> None);
  (** [O_EXCL]: the file did not exist; now it is empty, and a crash may still
      lose it. *)
  open_create p w w' fd :
    sys_open CreateExclusive p w = (w', inl fd) ->
    contents w p = None /\ contents w' p = Some [] /\
    (forall q, q <> p -> contents w' q = contents w q) /\
    (forall c, after_crash w' p c -> after_crash w p c \/ c = Some []) /\
    (forall q c, q <> p -> after_crash w' q c -> after_crash w q c \/ c = contents w q) /\
    (interruptions w' <= interruptions w)%nat;
  (** [O_APPEND]: a write appends the bytes it reports; an interrupted one
      appends nothing, another failure some prefix. *)
  write_appends fd m p bytes w w' r :
    sys_write fd bytes w = (w', r) -> opened w fd = Some (m, p) -> writable m = true ->
    exists d, d `prefix_of` bytes /\ appended p d w w' /\
      match r with
      | inl n => length d = n
      | inr e => e = EINTR -> d = [] /\ (interruptions w' < interruptions w)%nat
      end;
  (** A read returns some of the bytes at the offset, none only at the end. *)
  pread_reads fd m p n off w w' r c :
    sys_pread fd n off w = (w', r) -> opened w fd = Some (m, p) -> readable m = true ->
    contents w p = Some c -> 0 <= off <= OFF_MAX ->
    same_files w w' /\ (forall fd', opened w' fd' = opened w fd') /\
    match r with
    | inl bs => bs `prefix_of` slice (Z.to_nat off) n c /\
                (bs = [] -> slice (Z.to_nat off) n c = [])
    | inr e => e = EINTR -> (interruptions w' < interruptions w)%nat
    end;
  fstat_size fd m p w w' r c :
    sys_fstat_size fd w = (w', r) -> opened w fd = Some (m, p) -> contents w p = Some c ->
    same_files w w' /\ (forall fd', opened w' fd' = opened w fd') /\
    match r with inl size => size = Z.of_nat (length c) | inr _ => True end;
  (** Whatever fsync returns it changes no content; after a successful one a
      crash keeps the contents (or loses a file whose directory entry was not
      synced); after a successful one of the directory its files exist. *)
  fsync_files fd w w' r :
    sys_fsync fd w = (w', r) -> same_files w w' /\ forall fd', opened w' fd' = opened w fd';
  fsync_durable fd m p w w' c :
    sys_fsync fd w = (w', None) -> opened w fd = Some (m, p) -> m <> DirectoryOnly ->
    after_crash w' p c -> c = contents w p \/ c = None;
  fsync_directory fd p w w' :
    sys_fsync fd w = (w', None) -> opened w fd = Some (DirectoryOnly, directory_of p) ->
    contents w p <> None -> ~ after_crash w' p None;
  ftruncate_takes fd m p n w w' c :
    sys_ftruncate fd n w = (w', None) -> opened w fd = Some (m, p) -> writable m = true ->
    contents w p = Some c -> 0 <= n <= Z.of_nat (length c) ->
    contents w' p = Some (take (Z.to_nat n) c) /\
    (forall q, q <> p -> contents w' q = contents w q) /\
    (forall fd', opened w' fd' = opened w fd') /\
    (forall c', after_crash w' p c' -> after_crash w p c' \/ c' = Some (take (Z.to_nat n) c)) /\
    (forall q c', q <> p -> after_crash w' q c' -> after_crash w q c' \/ c' = contents w q) /\
    (interruptions w' <= interruptions w)%nat;
  ftruncate_failed fd n w w' e :
    sys_ftruncate fd n w = (w', Some e) ->
    same_files w w' /\ forall fd', opened w' fd' = opened w fd';
  close_closes fd w :
    same_files w (sys_close fd w) /\ opened (sys_close fd w) fd = None /\
    forall fd', fd' <> fd -> opened (sys_close fd w) fd' = opened w fd';
}.

(** ** Reasoning about the relations *)

Section lemmas.
  Context {W : Type} `{!Posix W, !PosixView W}.

Lemma same_files_refl (w : W) : same_files w w.
Proof. split; auto. Qed.

Lemma same_files_trans (w1 w2 w3 : W) : same_files w1 w2 -> same_files w2 w3 -> same_files w1 w3.
Proof.
  intros [A1 B1 C1] [A2 B2 C2]. split; [intros; by rewrite A2| |lia].
  intros p c [H|H]%B2; [eauto|]. right. by rewrite H.
Qed.

Lemma appended_nil p (w w' : W) :
  contents w p <> None -> same_files w w' -> (forall fd, opened w' fd = opened w fd) ->
  appended p [] w w'.
Proof.
  intros Hp [A B C] Ho. destruct (contents w p) as [old|] eqn:Hold; [|done].
  split; [|done|done| |auto|done].
  - rewrite A, Hold. simpl. by rewrite app_nil_r.
  - intros c [?|Hc]%B; [by left|right]. exists old, []. rewrite app_nil_r.
    split_and!; [done|apply prefix_nil|congruence].
Qed.

Lemma appended_trans p d1 d2 (w1 w2 w3 : W) :
  appended p d1 w1 w2 -> appended p d2 w2 w3 -> appended p (d1 ++ d2) w1 w3.
Proof.
  intros [A1 B1 C1 D1 E1 F1] [A2 B2 C2 D2 E2 F2]. split.
  - rewrite A2, A1. destruct (contents w1 p); simpl; [|done]. by rewrite app_assoc.
  - intros. by rewrite B2, B1.
  - intros. by rewrite C2, C1.
  - intros c [Hc|(old & d' & Ho & Hd & ->)]%D2.
    + apply D1 in Hc as [?|(old & d' & Ho & Hd & ->)]; [by left|right].
      exists old, d'. split_and!; try done. by apply prefix_app_r.
    + right. rewrite A1 in Ho. destruct (contents w1 p) as [old'|]; simplify_eq/=.
      exists old', (d1 ++ d'). rewrite app_assoc. split_and!; try done. by apply prefix_app.
  - intros q c Hq [H|H]%E2; [by apply E1| |done]. right. by rewrite H, B1.
  - lia.
Qed.

End lemmas.
Create HintDb posix.
#[export] Hint Resolve same_files_refl : posix.
