(* ===== verification/MemoryFs.v ===== *)
(** * A file system in memory

    An instance of [Posix] with the laws [PosixLaws]: it shows that the laws
    hold together and runs the examples.  Every call consumes an entry of a
    script, which makes it fail, stop short or be interrupted; when the script
    is used up, calls succeed. *)
From stdpp Require Import strings.
From S2P Require Import Prelude Bytes Posix.

Inductive fault :=
| Normal
| Short (n : nat)
| Failing (e : errno).

Record MemWorld := mkMemWorld {
  mem_file_table : list (path * option (list byte));
  mem_crash_table : list (path * list (option (list byte)));
  mem_open_table : list (Fd * option (OpenMode * path));
  mem_next : Fd;
  mem_script : list fault;
}.

(** Tables are association lists with a default. *)
Fixpoint assoc {A B} `{EqDecision A} (d : B) (l : list (A * B)) (x : A) : B :=
  match l with
  | [] => d
  | (a, b) :: l' => if decide (x = a) then b else assoc d l' x
  end.

Lemma assoc_eq {A B} `{EqDecision A} (d : B) l (a : A) b : assoc d ((a, b) :: l) a = b.
Proof. simpl. by rewrite decide_True. Qed.
Lemma assoc_ne {A B} `{EqDecision A} (d : B) l (a : A) b x :
  x <> a -> assoc d ((a, b) :: l) x = assoc d l x.
Proof. intros. simpl. by rewrite decide_False. Qed.
Lemma assoc_map_in {A B} `{EqDecision A} (d : B) (f : A -> B -> B) l x :
  f x d = d -> assoc d ((fun ab => (ab.1, f ab.1 ab.2)) <$> l) x = f x (assoc d l x).
Proof.
  intros Hd. induction l as [|[a b] l IH]; [done|]. csimpl. case_decide; by subst.
Qed.

Definition mem_files (w : MemWorld) : path -> option (list byte) := assoc None (mem_file_table w).
Definition mem_crash (w : MemWorld) : path -> list (option (list byte)) :=
  assoc [] (mem_crash_table w).
Definition mem_open (w : MemWorld) : Fd -> option (OpenMode * path) :=
  assoc None (mem_open_table w).

(** Files hold bytes and fit [off_t]. *)
Definition file_ok (c : list byte) : Prop := wf_bytes c /\ Z.of_nat (length c) <= OFF_MAX.

#[export] Instance file_ok_dec c : Decision (file_ok c).
Proof. unfold file_ok. apply _. Defined.

Definition mem_contents (w : MemWorld) (p : path) : option (list byte) :=
  match mem_files w p with
  | Some c => if decide (file_ok c) then Some c else None
  | None => None
  end.

(** The next fault, and the world after it. *)
Definition pop (w : MemWorld) : fault * MemWorld :=
  match mem_script w with
  | [] => (Normal, w)
  | f :: fs => (f, mkMemWorld (mem_file_table w) (mem_crash_table w) (mem_open_table w) (mem_next w) fs)
  end.

Definition EBADF : errno := 9.

Definition set_file (p : path) (c : list byte) (crash : list (option (list byte))) (w : MemWorld)
  : MemWorld :=
  mkMemWorld ((p, Some c) :: mem_file_table w) ((p, crash) :: mem_crash_table w)
    (mem_open_table w) (mem_next w) (mem_script w).

Definition set_crash (crash : list (path * list (option (list byte)))) (w : MemWorld) : MemWorld :=
  mkMemWorld (mem_file_table w) crash (mem_open_table w) (mem_next w) (mem_script w).

Definition add_open (mode : OpenMode) (p : path) (w : MemWorld) : MemWorld :=
  mkMemWorld (mem_file_table w) (mem_crash_table w)
    ((mem_next w, Some (mode, p)) :: mem_open_table w) (mem_next w + 1) (mem_script w).

Definition mem_sys_open (mode : OpenMode) (p : path) (w : MemWorld) : MemWorld * (Fd + errno) :=
  match pop w with
  | (Failing e, w) => (w, inr e)
  | (_, w) =>
      if negb (0 <=? mem_next w) || bool_decide (mem_open w (mem_next w) <> None)
      then (w, inr EBADF) else
      match mode, mem_contents w p with
      | CreateExclusive, Some _ => (w, inr EEXIST)
      | CreateExclusive, None =>
          (add_open mode p (set_file p [] (Some [] :: mem_crash w p) w), inl (mem_next w))
      | DirectoryOnly, _ | _, Some _ => (add_open mode p w, inl (mem_next w))
      | _, None => (w, inr ENOENT)
      end
  end.

(** The contents a crash can leave while [d] is appended to [c]. *)
Definition torn (c d : list byte) : list (option (list byte)) :=
  (fun k => Some (c ++ take k d)) <$> seq 0 (S (length d)).

Definition mem_append (p : path) (c d : list byte) (w : MemWorld) : MemWorld :=
  set_file p (c ++ d) (torn c d ++ mem_crash w p) w.

Definition mem_sys_write (fd : Fd) (bytes : list byte) (w : MemWorld) : MemWorld * (nat + errno) :=
  let (f, w) := pop w in
  match f, mem_open w fd with
  | Failing e, _ => (w, inr e)
  | _, None => (w, inr EBADF)
  | f, Some (m, p) =>
      let d := match f with Short n => take n bytes | _ => bytes end in
      match mem_contents w p with
      | Some c =>
          if decide (file_ok (c ++ d)) then (mem_append p c d w, inl (length d)) else (w, inr EIO)
      | None => (w, inr EBADF)
      end
  end.

Definition mem_sys_pread (fd : Fd) (n : nat) (off : Z) (w : MemWorld)
  : MemWorld * (list byte + errno) :=
  let (f, w) := pop w in
  match f, mem_open w fd with
  | Failing e, _ => (w, inr e)
  | _, None => (w, inr EBADF)
  | f, Some (m, p) =>
      match mem_contents w p with
      | Some c =>
          let k := match f with Short k => S k | _ => n end in
          (w, inl (take k (slice (Z.to_nat off) n c)))
      | None => (w, inr EBADF)
      end
  end.

Definition mem_sys_fstat_size (fd : Fd) (w : MemWorld) : MemWorld * (Z + errno) :=
  let (f, w) := pop w in
  match f, mem_open w fd with
  | Failing e, _ => (w, inr e)
  | _, None => (w, inr EBADF)
  | _, Some (m, p) =>
      match mem_contents w p with
      | Some c => (w, inl (Z.of_nat (length c)))
      | None => (w, inr EBADF)
      end
  end.

(** What a crash can leave of [q] after a sync of the descriptor, when it was
    [old]. *)
Definition synced (m : OpenMode) (p : path) (w : MemWorld) (q : path)
    (old : list (option (list byte))) : list (option (list byte)) :=
  match m with
  | DirectoryOnly =>
      if decide (directory_of q = p) then
        match mem_contents w q with
        | Some _ => filter (fun c => c <> None) old
        | None => old
        end
      else old
  | _ =>
      if decide (q = p) then
        mem_contents w p :: (if decide (None ∈ old) then [None] else [])
      else old
  end.

Definition mem_sync (m : OpenMode) (p : path) (w : MemWorld) : MemWorld :=
  set_crash
    match m with
    | DirectoryOnly =>
        (fun qc => (qc.1, synced m p w qc.1 qc.2)) <$> mem_crash_table w
    | _ => (p, synced m p w p (mem_crash w p)) :: mem_crash_table w
    end w.

Definition mem_sys_fsync (fd : Fd) (w : MemWorld) : MemWorld * option errno :=
  let (f, w) := pop w in
  match f, mem_open w fd with
  | Failing e, _ => (w, Some e)
  | _, None => (w, Some EBADF)
  | _, Some (m, p) => (mem_sync m p w, None)
  end.

Definition mem_sys_ftruncate (fd : Fd) (n : Z) (w : MemWorld) : MemWorld * option errno :=
  let (f, w) := pop w in
  match f, mem_open w fd with
  | Failing e, _ => (w, Some e)
  | _, None => (w, Some EBADF)
  | _, Some (m, p) =>
      match mem_contents w p with
      | Some c =>
          if (0 <=? n) && (n <=? Z.of_nat (length c)) then
            let c' := take (Z.to_nat n) c in
            (set_file p c' (Some c' :: mem_crash w p) w, None)
          else (w, Some EBADF)
      | None => (w, Some EBADF)
      end
  end.

Definition mem_sys_close (fd : Fd) (w : MemWorld) : MemWorld :=
  mkMemWorld (mem_file_table w) (mem_crash_table w) ((fd, None) :: mem_open_table w) (mem_next w)
    (mem_script w).

#[export] Instance MemoryFs : Posix MemWorld := {|
  sys_open := mem_sys_open;
  sys_write := mem_sys_write;
  sys_pread := mem_sys_pread;
  sys_fstat_size := mem_sys_fstat_size;
  sys_fsync := mem_sys_fsync;
  sys_ftruncate := mem_sys_ftruncate;
  sys_close := mem_sys_close;
  interruptions w := length (mem_script w);
|}.

#[export] Instance MemoryView : PosixView MemWorld := {|
  contents := mem_contents;
  opened := mem_open;
  after_crash w p c := c ∈ mem_crash w p;
|}.

(** ** The laws *)

Lemma pop_world w f w1 :
  pop w = (f, w1) ->
  mem_files w1 = mem_files w /\ mem_crash w1 = mem_crash w /\ mem_open w1 = mem_open w /\
  (length (mem_script w1) <= length (mem_script w))%nat /\
  (f <> Normal -> (length (mem_script w1) < length (mem_script w))%nat).
Proof.
  unfold pop. destruct (mem_script w) as [|f' fs] eqn:E; intros [= <- <-]; rewrite ?E; simpl.
  - by split_and!.
  - split_and!; try done; [lia|]. intros _. lia.
Qed.

Lemma pop_contents w f w1 p : pop w = (f, w1) -> mem_contents w1 p = mem_contents w p.
Proof. intros H. apply pop_world in H as (E & _). unfold mem_contents. by rewrite E. Qed.

Lemma pop_same w f w1 : pop w = (f, w1) -> same_files w w1.
Proof.
  intros H. pose proof (pop_world _ _ _ H) as (_ & Hc & _ & Hl & _). split.
  - intros p. by apply (pop_contents _ _ _ p H).
  - simpl. intros p c Hin. left. by rewrite <- Hc.
  - done.
Qed.

Lemma pop_opened w f w1 fd : pop w = (f, w1) -> mem_open w1 fd = mem_open w fd.
Proof. intros H. by apply pop_world in H as (_ & _ & -> & _). Qed.

Lemma set_file_contents p c crash w : file_ok c -> mem_contents (set_file p c crash w) p = Some c.
Proof.
  intros Hc. unfold mem_contents, mem_files, set_file. cbn [mem_file_table].
  rewrite assoc_eq. by rewrite decide_True.
Qed.

Lemma set_file_crash p c crash w : mem_crash (set_file p c crash w) p = crash.
Proof. apply assoc_eq. Qed.

Lemma set_file_others p c crash w q :
  q <> p -> mem_contents (set_file p c crash w) q = mem_contents w q /\
            mem_crash (set_file p c crash w) q = mem_crash w q.
Proof.
  intros Hq. unfold mem_contents, mem_files, mem_crash, set_file.
  cbn [mem_file_table mem_crash_table]. by rewrite !assoc_ne.
Qed.

Lemma elem_of_torn x c d : x ∈ torn c d -> exists d', d' `prefix_of` d /\ x = Some (c ++ d').
Proof.
  unfold torn. intros (k & -> & _)%list_elem_of_fmap. exists (take k d).
  split; [apply prefix_take|done].
Qed.

Lemma mem_contents_ok w p c : mem_contents w p = Some c -> file_ok c.
Proof. unfold mem_contents. destruct (mem_files w p); [|done]. case_decide; naive_solver. Qed.

Lemma mem_append_appended p c d w :
  mem_contents w p = Some c -> file_ok (c ++ d) -> appended p d w (mem_append p c d w).
Proof.
  intros Hc Hok. unfold mem_append.
  split; cbn [contents opened after_crash interruptions MemoryView MemoryFs].
  - rewrite Hc. by rewrite set_file_contents.
  - intros q Hq. by apply set_file_others.
  - done.
  - rewrite set_file_crash. intros x [Hx|Hx]%elem_of_app; [right|by left].
    apply elem_of_torn in Hx as (d' & Hd & ->). eauto.
  - intros q x Hq Hx. rewrite (proj2 (set_file_others _ _ _ _ _ Hq)) in Hx. by left.
  - done.
Qed.

Lemma pop_appended p w f w1 : pop w = (f, w1) -> appended p [] w w1.
Proof.
  intros H. pose proof (pop_world _ _ _ H) as (_ & Hc & Ho & Hl & _).
  split; cbn [contents opened after_crash interruptions MemoryView MemoryFs].
  - rewrite (pop_contents _ _ _ p H). destruct (mem_contents w p); simpl; [|done]. by rewrite app_nil_r.
  - intros. by apply (pop_contents _ _ _ q H).
  - intros. by rewrite Ho.
  - rewrite Hc. by left.
  - rewrite Hc. by left.
  - done.
Qed.

(** Bring the popped world into play. *)
Ltac popped :=
  match goal with
  | H : context [pop ?w] |- _ =>
      let f := fresh "f" in let w1 := fresh "w1" in let Hp := fresh "Hpop" in
      destruct (pop w) as [f w1] eqn:Hp
  end.

Lemma mem_write_law fd m p bytes w w' r :
  mem_sys_write fd bytes w = (w', r) -> mem_open w fd = Some (m, p) ->
  exists d, d `prefix_of` bytes /\ appended p d w w' /\
    match r with
    | inl n => length d = n
    | inr e => e = EINTR -> d = [] /\ (length (mem_script w') < length (mem_script w))%nat
    end.
Proof.
  unfold mem_sys_write. intros E Ho. popped. rewrite (pop_opened _ _ _ fd Hpop), Ho in E. pose proof (pop_world _ _ _ Hpop) as (_ & _ & _ & _ & Hl).
  pose proof (pop_appended p _ _ _ Hpop) as H0.
  assert (forall d, d `prefix_of` bytes ->
    (match mem_contents w1 p with
     | Some c => if decide (file_ok (c ++ d)) then (mem_append p c d w1, inl (length d)) else (w1, inr EIO)
     | None => (w1, inr EBADF)
     end) = (w', r) ->
    exists d', d' `prefix_of` bytes /\ appended p d' w w' /\
      match r with
      | inl n => length d' = n
      | inr e => e = EINTR -> d' = [] /\ (length (mem_script w') < length (mem_script w))%nat
      end) as Hgo.
  { intros d Hd Ed. destruct (mem_contents w1 p) as [c|] eqn:Ec; [case_decide|]; simplify_eq.
    - exists d. split_and!; [done| |done]. apply (appended_trans p [] d w w1); [done|].
      by apply mem_append_appended.
    - exists []. split_and!; [apply prefix_nil|done|]. intros [=].
    - exists []. split_and!; [apply prefix_nil|done|]. intros [=]. }
  destruct f as [|n|e]; [by apply (Hgo bytes)|apply (Hgo (take n bytes)); [apply prefix_take|done]|].
  simplify_eq. exists []. split_and!; [apply prefix_nil|done|]. intros _. split; [done|]. by apply Hl.
Qed.

Lemma add_open_same mode p w : same_files w (add_open mode p w).
Proof. split; [done|by left|done]. Qed.

Lemma mem_open_law mode p w w' r :
  mem_sys_open mode p w = (w', r) ->
  match r with
  | inr _ => same_files w w' /\ forall fd, mem_open w' fd = mem_open w fd
  | inl fd =>
      (0 <= fd /\ mem_open w fd = None /\ mem_open w' fd = Some (mode, p) /\
       (forall fd', fd' <> fd -> mem_open w' fd' = mem_open w fd')) /\
      if decide (mode = CreateExclusive) then
        mem_contents w p = None /\ mem_contents w' p = Some [] /\
        (forall q, q <> p -> mem_contents w' q = mem_contents w q) /\
        (forall c, c ∈ mem_crash w' p -> c ∈ mem_crash w p \/ c = Some []) /\
        (forall q c, q <> p -> c ∈ mem_crash w' q -> c ∈ mem_crash w q) /\
        (length (mem_script w') <= length (mem_script w))%nat
      else same_files w w' /\ (mode <> DirectoryOnly -> mem_contents w p <> None)
  end.
Proof.
  unfold mem_sys_open. intros E. popped.
  pose proof (pop_same _ _ _ Hpop) as Hs. pose proof (pop_world _ _ _ Hpop) as (_ & Hcr & Ho & Hl & _).
  pose proof (pop_contents _ _ _ p Hpop) as Hc.
  assert (same_files w w1 /\ (forall fd, mem_open w1 fd = mem_open w fd)) as Hfail
    by (by rewrite Ho).
  assert (forall x, (match f with Failing e => (w1, inr e) | _ => x end) = (w', r) ->
    (exists e, w' = w1 /\ r = inr e) \/ x = (w', r)) as Hsplit by (intros x; destruct f; naive_solver).
  apply Hsplit in E as [(e & -> & ->)|E]; [done|]. clear Hsplit.
  destruct (negb (0 <=? mem_next w1) || _) eqn:Eb; [by simplify_eq|]. reflect.
  assert (mem_open w (mem_next w1) = None) as Hfree
    by (rewrite <- Ho; by apply dec_stable).
  assert (forall x, mem_next x = mem_next w1 -> mem_open x = mem_open w ->
     (0 <= mem_next w1 /\ mem_open w (mem_next w1) = None /\
     mem_open (add_open mode p x) (mem_next w1) = Some (mode, p) /\
     (forall fd', fd' <> mem_next w1 -> mem_open (add_open mode p x) fd' = mem_open w fd'))) as Hnew.
  { intros x Hx1 Hx2. unfold mem_open at 2 3, add_open. cbn [mem_open_table]. rewrite Hx1, assoc_eq.
    split_and!; try done. intros. rewrite assoc_ne by done. by rewrite <- Hx2. }
  assert (same_files w (add_open mode p w1)) as Hadd
    by (eapply same_files_trans; [exact Hs|apply add_open_same]).
  destruct mode; rewrite ?Hc in E; repeat case_match; simplify_eq; try done;
    (split; [by apply Hnew|]); try done.
  unfold add_open. split_and!; try done.
  - apply (set_file_contents p [] (Some [] :: mem_crash w1 p) w1).
    decide_now.
  - intros q Hq. rewrite <- (pop_contents _ _ _ q Hpop).
    by apply (set_file_others p [] (Some [] :: mem_crash w1 p) w1).
  - change (forall c, c ∈ mem_crash (set_file p [] (Some [] :: mem_crash w1 p) w1) p ->
      c ∈ mem_crash w p \/ c = Some []).
    rewrite set_file_crash, Hcr. intros c [->|?]%elem_of_cons; auto.
  - intros q c Hq Hc'. rewrite <- Hcr.
    by rewrite <- (proj2 (set_file_others p [] (Some [] :: mem_crash w1 p) w1 q Hq)).
Qed.

Lemma mem_pread_law fd m p n off w w' r c :
  mem_sys_pread fd n off w = (w', r) -> mem_open w fd = Some (m, p) -> mem_contents w p = Some c ->
  same_files w w' /\ (forall fd', mem_open w' fd' = mem_open w fd') /\
  match r with
  | inl bs => bs `prefix_of` slice (Z.to_nat off) n c /\
              (bs = [] -> slice (Z.to_nat off) n c = [])
  | inr e => e = EINTR -> (length (mem_script w') < length (mem_script w))%nat
  end.
Proof.
  unfold mem_sys_pread. intros E Ho Hc. popped.
  pose proof (pop_same _ _ _ Hpop) as Hs. pose proof (pop_world _ _ _ Hpop) as (_ & _ & Hop & _ & Hl).
  rewrite Hop, Ho, (pop_contents _ _ _ p Hpop), Hc in E.
  destruct f as [|k|e]; simplify_eq; (split; [done|]); (split; [by rewrite Hop|]).
  - split; [apply prefix_take|]. unfold slice. rewrite take_take, Nat.min_id. done.
  - split; [apply prefix_take|]. by destruct (slice (Z.to_nat off) n c).
  - intros _. by apply Hl.
Qed.

Lemma mem_fstat_law fd m p w w' r c :
  mem_sys_fstat_size fd w = (w', r) -> mem_open w fd = Some (m, p) -> mem_contents w p = Some c ->
  same_files w w' /\ (forall fd', mem_open w' fd' = mem_open w fd') /\
  match r with inl size => size = Z.of_nat (length c) | inr _ => True end.
Proof.
  unfold mem_sys_fstat_size. intros E Ho Hc. popped.
  pose proof (pop_same _ _ _ Hpop) as Hs. pose proof (pop_world _ _ _ Hpop) as (_ & _ & Hop & _).
  rewrite Hop, Ho, (pop_contents _ _ _ p Hpop), Hc in E.
  destruct f; simplify_eq; (split; [done|]); split; by rewrite ?Hop.
Qed.

Lemma elem_of_synced m p w q old c :
  c ∈ synced m p w q old -> c ∈ old \/ c = mem_contents w q.
Proof.
  unfold synced. destruct m; repeat case_decide; subst; try by left.
  all: try (intros [->|Hc]%elem_of_cons; [by right|left]; by set_solver).
  destruct (mem_contents w q); [|by left]. intros [_ ?]%list_elem_of_filter. by left.
Qed.

Lemma mem_sync_crash m p w q : mem_crash (mem_sync m p w) q = synced m p w q (mem_crash w q).
Proof.
  assert (m <> DirectoryOnly -> assoc [] ((p, synced m p w p (mem_crash w p)) :: mem_crash_table w) q
    = synced m p w q (mem_crash w q)) as Hfile.
  { intros Hm. destruct (decide (q = p)) as [->|Hne]; [apply assoc_eq|]. rewrite assoc_ne by done.
    destruct m; try done; unfold synced; by rewrite decide_False. }
  destruct m; try by apply Hfile. apply (assoc_map_in [] (synced DirectoryOnly p w)).
  unfold synced. case_decide; [|done]. by destruct (mem_contents w q).
Qed.

Lemma mem_fsync_law fd w w' r :
  mem_sys_fsync fd w = (w', r) ->
  same_files w w' /\ (forall fd', mem_open w' fd' = mem_open w fd') /\
  (r = None -> exists m p, mem_open w fd = Some (m, p) /\
     forall q, mem_crash w' q = synced m p w q (mem_crash w q)).
Proof.
  unfold mem_sys_fsync. intros E. popped.
  pose proof (pop_same _ _ _ Hpop) as Hs. pose proof (pop_world _ _ _ Hpop) as (Hf & Hcr & Hop & Hl & _).
  rewrite Hop in E.
  assert (forall m p, same_files w (mem_sync m p w1)) as Hsync.
  { intros m p. eapply same_files_trans; [exact Hs|]. split; [done| |done].
    intros q c. cbn [after_crash contents MemoryView]. rewrite mem_sync_crash. apply elem_of_synced. }
  assert (forall m p q, mem_crash (mem_sync m p w1) q = synced m p w q (mem_crash w q)) as Hcrash.
  { intros m p q. rewrite mem_sync_crash, Hcr. unfold synced, mem_contents. by rewrite Hf. }
  destruct (mem_open w fd) as [[m p]|] eqn:Ho, f; simplify_eq; split_and!; try done;
    try (intros fd'; by rewrite <- Hop); try apply Hsync; intros _; by exists m, p.
Qed.

Lemma take_file_ok n c : file_ok c -> file_ok (take n c).
Proof. intros [H1 H2]. split; [by apply Forall_take|]. rewrite length_take. lia. Qed.

Lemma mem_ftruncate_law fd m p n w w' r c :
  mem_sys_ftruncate fd n w = (w', r) ->
  mem_open w fd = Some (m, p) -> mem_contents w p = Some c -> 0 <= n <= Z.of_nat (length c) ->
  r = None ->
  mem_contents w' p = Some (take (Z.to_nat n) c) /\
  (forall q, q <> p -> mem_contents w' q = mem_contents w q) /\
  (forall fd', mem_open w' fd' = mem_open w fd') /\
  (forall c', c' ∈ mem_crash w' p -> c' ∈ mem_crash w p \/ c' = Some (take (Z.to_nat n) c)) /\
  (forall q c', q <> p -> c' ∈ mem_crash w' q -> c' ∈ mem_crash w q \/ c' = mem_contents w q) /\
  (length (mem_script w') <= length (mem_script w))%nat.
Proof.
  unfold mem_sys_ftruncate. intros E Ho Hc Hn ->. popped.
  pose proof (pop_world _ _ _ Hpop) as (_ & Hcr & Hop & Hl & _).
  rewrite Hop, Ho, (pop_contents _ _ _ p Hpop), Hc in E.
  rewrite !(proj2 (Z.leb_le _ _)) in E by lia. simpl in E.
  destruct f; simplify_eq.
  all: split_and!; try done; try (by rewrite <- Hop).
  all: try (by apply set_file_contents, take_file_ok, (mem_contents_ok w p)).
  all: try (intros q Hq; rewrite <- (pop_contents _ _ _ q Hpop); by apply set_file_others).
  all: try (rewrite set_file_crash, Hcr; intros c' [->|?]%elem_of_cons; auto).
  all: intros q c' Hq Hc'; rewrite (proj2 (set_file_others _ _ _ _ _ Hq)), Hcr in Hc'; by left.
Qed.

Lemma mem_ftruncate_failed fd n w w' e :
  mem_sys_ftruncate fd n w = (w', Some e) ->
  same_files w w' /\ forall fd', mem_open w' fd' = mem_open w fd'.
Proof.
  unfold mem_sys_ftruncate. intros E. popped.
  pose proof (pop_same _ _ _ Hpop) as Hs. pose proof (pop_world _ _ _ Hpop) as (_ & _ & Hop & _).
  destruct f; repeat case_match; simplify_eq; by rewrite Hop.
Qed.

#[export] Instance MemoryLaws : PosixLaws MemWorld.
Proof.
  split; cbn [contents opened after_crash interruptions sys_open sys_write sys_pread sys_fstat_size
    sys_fsync sys_ftruncate sys_close MemoryFs MemoryView].
  - intros w p c. apply mem_contents_ok.
  - intros mode p w w' fd E. by apply (mem_open_law _ _ _ _ _ E).
  - intros mode p w w' e E. by apply (mem_open_law _ _ _ _ _ E).
  - intros mode p w w' fd E Hm. pose proof (mem_open_law _ _ _ _ _ E) as [_ H].
    by rewrite decide_False in H.
  - intros p w w' fd E. pose proof (mem_open_law _ _ _ _ _ E) as [_ H].
    rewrite decide_True in H by done. naive_solver.
  - intros. by eapply mem_write_law.
  - intros. by eapply mem_pread_law.
  - intros. by eapply mem_fstat_law.
  - intros fd w w' r E. by apply mem_fsync_law in E as (? & ? & _).
  - intros fd m p w w' c E Ho Hm Hc. apply mem_fsync_law in E as (_ & _ & H).
    destruct (H eq_refl) as (m' & p' & Ho' & Hcr). simplify_eq. rewrite Hcr in Hc.
    unfold synced in Hc. destruct m; try done; rewrite decide_True in Hc by done;
      apply elem_of_cons in Hc as [->|Hc]; auto; right; case_decide; set_solver.
  - intros fd p w w' E Ho Hp Hc. apply mem_fsync_law in E as (_ & _ & H).
    destruct (H eq_refl) as (m' & p' & Ho' & Hcr). simplify_eq. rewrite Hcr in Hc.
    unfold synced in Hc. rewrite decide_True in Hc by done. destruct (mem_contents w p); [|done].
    by apply list_elem_of_filter in Hc as [? _].
  - intros. by eapply mem_ftruncate_law.
  - intros. by eapply mem_ftruncate_failed.
  - intros fd w. split_and!; [by split; [|left|]|apply assoc_eq|].
    intros fd' Hne. by apply assoc_ne.
Qed.

(** ** Worlds for the examples *)

Definition sample_path : path := mkPath true ["var"%string; "journal"%string].

(** No file, or one file with the given contents that are on the disk. *)
Definition world_with (C : option (list byte)) (script : list fault) : MemWorld :=
  mkMemWorld [(sample_path, C)] [(sample_path, [C])] [] 3 script.
