(* ===== verification/JournalStorage.v ===== *)
(** * Journal storage (definitions)

    include/matching/journal_storage.hpp and src/journal_storage.cpp: scanning
    a journal file, creating it, opening it after recovery, repairing a cut
    tail, and appending records with one fsync per batch.  The system calls are
    those of the class [Posix]; the state is the process: the world of the
    calls and the fault-injection state of the tests, which is part of the
    production code.  A result is an [outcome]: [Crashed OutOfFuel] and
    [Crashed UndefinedBehaviour] stand for loops that do not end and for reads
    outside a buffer, and are shown not to occur. *)
From S2P Require Import Prelude Types Bytes Journal Posix.

Inductive JournalStorageErrorCode :=
| FileAlreadyExists
| FileNotFound
| OpenFailed
| ReadFailed
| WriteFailed
| SyncFailed
| DirectorySyncFailed
| TruncateFailed
| InvalidJournal
| SequenceViolation
| SequenceExhausted
| TruncatedTailRequiresRepair
| NoTruncatedTail
| WriterFailed
| CodecFailure
| EmptyBatch.

#[export] Instance JournalStorageErrorCode_eq_dec : EqDecision JournalStorageErrorCode.
Proof. solve_decision. Defined.

(** [std::error_code] is the error number, absent when default constructed. *)
Record JournalStorageError := mkJournalStorageError {
  jse_code : JournalStorageErrorCode;
  jse_system_error : option errno;
  jse_codec_error : option JournalCodecError;
}.

Record JournalScan := mkJournalScan {
  scan_records : list JournalRecord;
  scan_valid_size : Z;
  scan_has_truncated_tail : bool;
  scan_next_sequence : option JournalSequence;
}.

Abbreviation JournalScanResult := (JournalScan + JournalStorageError)%type (only parsing).
Abbreviation JournalAppendResult := (JournalSequence + JournalStorageError)%type (only parsing).
Abbreviation JournalAppendBatchResult := (list JournalSequence + JournalStorageError)%type
  (only parsing).

Record JournalWriter := mkJournalWriter {
  jw_file_descriptor : Fd;
  jw_next_sequence : option JournalSequence;
  jw_failed : bool;
}.

(** The members of [AppendIoTestState] but the mutex. *)
Record AppendIoTestState := mkAppendIoTestState {
  fail_after_successful_bytes : option Z;
  fail_next_sync : bool;
  successful_append_sync_count : Z;
  successful_append_bytes : Z;
}.

(** The process: the operating system and the two namespace-scope variables. *)
Record Proc (W : Type) := mkProc {
  os : W;
  append_io_test_state : AppendIoTestState;
  append_io_test_active : bool;
}.
Arguments mkProc {W} os append_io_test_state append_io_test_active.
Arguments os {W} p.
Arguments append_io_test_state {W} p.
Arguments append_io_test_active {W} p.

Definition make_error (code : JournalStorageErrorCode) (system_error : Z)
    (codec_error : option JournalCodecError) : JournalStorageError :=
  {| jse_code := code;
     jse_system_error := if system_error =? 0 then None else Some system_error;
     jse_codec_error := codec_error |}.

Definition open_error (error_number : errno) : JournalStorageError :=
  if error_number =? ENOENT then make_error FileNotFound error_number None
  else make_error OpenFailed error_number None.

(** [static_cast<off_t>] of an unsigned 64-bit number. *)
Definition to_off_t (z : Z) : Z := if OFF_MAX <? z then z - U64_MOD else z.

Module JournalStorage.
Section storage.
  Context {W : Type} `{!Posix W}.

Definition set_os (w : W) (s : Proc W) : Proc W :=
  mkProc w (append_io_test_state s) (append_io_test_active s).

Definition set_test_state (t : AppendIoTestState) (s : Proc W) : Proc W :=
  mkProc (os s) t (append_io_test_active s).

(** A system call of the process. *)
Definition call {A} (f : W -> W * A) (s : Proc W) : Proc W * A :=
  let (w', a) := f (os s) in (set_os w' s, a).

(** ** Fault injection *)

Definition append_write_size_before_failure (requested_size : nat) (s : Proc W) : option nat :=
  match fail_after_successful_bytes (append_io_test_state s) with
  | None => Some requested_size
  | Some limit =>
      if limit <=? successful_append_bytes (append_io_test_state s) then None
      else Some (Z.to_nat (Z.min (Z.of_nat requested_size)
             (limit - successful_append_bytes (append_io_test_state s))%u64))
  end.

Definition record_successful_append_write (byte_count : nat) (s : Proc W) : Proc W :=
  let t := append_io_test_state s in
  set_test_state
    (mkAppendIoTestState (fail_after_successful_bytes t) (fail_next_sync t)
       (successful_append_sync_count t) (successful_append_bytes t + Z.of_nat byte_count)%u64) s.

Definition append_path_sync (file_descriptor : Fd) (s : Proc W)
  : Proc W * option JournalStorageError :=
  let t := append_io_test_state s in
  if fail_next_sync t then
    (set_test_state (mkAppendIoTestState (fail_after_successful_bytes t) false
       (successful_append_sync_count t) (successful_append_bytes t)) s,
     Some (make_error SyncFailed EIO None))
  else
    match call (sys_fsync file_descriptor) s with
    | (s', Some e) => (s', Some (make_error SyncFailed e None))
    | (s', None) =>
        let t := append_io_test_state s' in
        (set_test_state (mkAppendIoTestState (fail_after_successful_bytes t) (fail_next_sync t)
           (successful_append_sync_count t + 1)%u64 (successful_append_bytes t)) s', None)
    end.

(** [JournalStorageTestAccess]. *)
Definition reset_append_io (s : Proc W) : Proc W :=
  mkProc (os s) (mkAppendIoTestState None false 0 0) true.

Definition fail_append_write_after (successful_bytes : Z) (s : Proc W) : Proc W :=
  let t := append_io_test_state s in
  mkProc (os s) (mkAppendIoTestState (Some successful_bytes) (fail_next_sync t)
    (successful_append_sync_count t) 0) true.

Definition fail_next_append_sync (s : Proc W) : Proc W :=
  let t := append_io_test_state s in
  mkProc (os s) (mkAppendIoTestState (fail_after_successful_bytes t) true
    (successful_append_sync_count t) (successful_append_bytes t)) true.

(** ** Descriptors *)

(** [FileDescriptor::close] (also the body of [~JournalWriter]). *)
Definition close_descriptor (file_descriptor : Fd) (s : Proc W) : Proc W :=
  if 0 <=? file_descriptor then set_os (sys_close file_descriptor (os s)) s else s.

(** ** Reading and writing *)

(** The loop of [write_all]; [written] bytes are done. *)
Fixpoint write_loop (fuel : nat) (file_descriptor : Fd) (bytes : list byte) (append_path : bool)
    (written : nat) (s : Proc W) : outcome (Proc W) (option JournalStorageError) :=
  if negb (bool_decide (written < length bytes)%nat) then Returned s None else
  match fuel with
  | O => Crashed OutOfFuel
  | S fuel' =>
      let remaining := (length bytes - written)%nat in
      let test_io_active := append_path && append_io_test_active s in
      match (if test_io_active then append_write_size_before_failure remaining s
             else Some remaining) with
      | None => Returned s (Some (make_error WriteFailed EIO None))
      | Some write_size =>
          match call (sys_write file_descriptor (take write_size (drop written bytes))) s with
          | (s', inl successful) =>
              if bool_decide (successful = 0%nat)
              then Returned s' (Some (make_error WriteFailed EIO None))
              else write_loop fuel' file_descriptor bytes append_path (written + successful)
                     (if test_io_active then record_successful_append_write successful s' else s')
          | (s', inr e) =>
              if e =? EINTR
              then write_loop fuel' file_descriptor bytes append_path written s'
              else Returned s' (Some (make_error WriteFailed e None))
          end
      end
  end.

Definition write_all (file_descriptor : Fd) (bytes : list byte) (append_path : bool) (s : Proc W)
  : outcome (Proc W) (option JournalStorageError) :=
  write_loop (length bytes + interruptions (os s)) file_descriptor bytes append_path 0 s.

(** The loop of [pread_at_most]; [bytes] are the bytes read so far. *)
Fixpoint pread_loop (fuel : nat) (file_descriptor : Fd) (offset : Z) (byte_count : nat)
    (bytes : list byte) (s : Proc W) : outcome (Proc W) (list byte + JournalStorageError) :=
  if negb (bool_decide (length bytes < byte_count)%nat) then Returned s (inl bytes) else
  match fuel with
  | O => Crashed OutOfFuel
  | S fuel' =>
      match call (sys_pread file_descriptor (byte_count - length bytes)
                    (to_off_t (offset + Z.of_nat (length bytes))%u64)) s with
      | (s', inl more) =>
          if bool_decide (more = []) then Returned s' (inl bytes)
          else pread_loop fuel' file_descriptor offset byte_count (bytes ++ more) s'
      | (s', inr e) =>
          if e =? EINTR then pread_loop fuel' file_descriptor offset byte_count bytes s'
          else Returned s' (inr (make_error ReadFailed e None))
      end
  end.

Definition pread_at_most (file_descriptor : Fd) (offset : Z) (byte_count : nat) (s : Proc W)
  : outcome (Proc W) (list byte + JournalStorageError) :=
  if OFF_MAX <? offset then Returned s (inr (make_error ReadFailed EOVERFLOW None)) else
  pread_loop (byte_count + interruptions (os s)) file_descriptor offset byte_count [] s.

Definition file_size (file_descriptor : Fd) (s : Proc W) : Proc W * (Z + JournalStorageError) :=
  match call (sys_fstat_size file_descriptor) s with
  | (s', inr e) => (s', inr (make_error ReadFailed e None))
  | (s', inl st_size) =>
      if st_size <? 0 then (s', inr (make_error ReadFailed EOVERFLOW None)) else
      if U64_MAX <? st_size then (s', inr (make_error ReadFailed EOVERFLOW None)) else
      (s', inl st_size)
  end.

(** ** Scanning *)

(** The loop of [scan_descriptor] over the records. *)
Fixpoint scan_loop (fuel : nat) (file_descriptor : Fd) (size : Z) (scan : JournalScan)
    (expected_sequence : Z) (s : Proc W) : outcome (Proc W) JournalScanResult :=
  if negb (scan_valid_size scan <? size) then Returned s (inl scan) else
  match fuel with
  | O => Crashed OutOfFuel
  | S fuel' =>
      let remaining := (size - scan_valid_size scan)%u64 in
      let read_size := Z.to_nat (Z.min remaining
        (Z.of_nat kJournalFrameHeaderSize + kJournalMaximumPayloadLength)) in
      let! (s1, bytes_result) := pread_at_most file_descriptor (scan_valid_size scan) read_size s in
      match bytes_result with
      | inr error => Returned s1 (inr error)
      | inl bytes =>
          if negb (bool_decide (length bytes = read_size))
          then Returned s1 (inr (make_error ReadFailed EIO None)) else
          match Journal.decode_record_prefix bytes with
          | None => Crashed UndefinedBehaviour
          | Some (inr error) =>
              if bool_decide (error = TruncatedInput)
              then Returned s1 (inl (mkJournalScan (scan_records scan) (scan_valid_size scan) true
                                       (scan_next_sequence scan)))
              else Returned s1 (inr (make_error InvalidJournal 0 (Some error)))
          | Some (inl record) =>
              if negb (jr_sequence (dj_record record) =? expected_sequence)
              then Returned s1 (inr (make_error SequenceViolation 0 None)) else
              let records := scan_records scan ++ [dj_record record] in
              let valid_size :=
                (scan_valid_size scan + Z.of_nat (dj_bytes_consumed record))%u64 in
              if expected_sequence =? U64_MAX then
                if negb (valid_size =? size)
                then Returned s1 (inr (make_error SequenceViolation 0 None))
                else Returned s1 (inl (mkJournalScan records valid_size
                                         (scan_has_truncated_tail scan) None))
              else
                let expected_sequence' := (expected_sequence + 1)%u64 in
                scan_loop fuel' file_descriptor size
                  (mkJournalScan records valid_size (scan_has_truncated_tail scan)
                     (Some expected_sequence')) expected_sequence' s1
          end
      end
  end.

Definition scan_descriptor (file_descriptor : Fd) (s : Proc W)
  : outcome (Proc W) JournalScanResult :=
  match file_size file_descriptor s with
  | (s1, inr error) => Returned s1 (inr error)
  | (s1, inl size) =>
      if size <? Z.of_nat kJournalFileHeaderSize
      then Returned s1 (inr (make_error InvalidJournal 0 (Some TruncatedInput))) else
      let! (s2, header_bytes_result) := pread_at_most file_descriptor 0 kJournalFileHeaderSize s1 in
      match header_bytes_result with
      | inr error => Returned s2 (inr error)
      | inl header_bytes =>
          if negb (bool_decide (length header_bytes = kJournalFileHeaderSize))
          then Returned s2 (inr (make_error ReadFailed EIO None)) else
          match Journal.decode_file_header header_bytes with
          | None => Crashed UndefinedBehaviour
          | Some (inr error) => Returned s2 (inr (make_error InvalidJournal 0 (Some error)))
          | Some (inl _) =>
              scan_loop (Z.to_nat size) file_descriptor size
                (mkJournalScan [] (Z.of_nat kJournalFileHeaderSize) false (Some 1)) 1 s2
          end
      end
  end.

(** ** Opening *)

Definition sync_directory (p : path) (s : Proc W) : Proc W * option JournalStorageError :=
  match call (sys_open DirectoryOnly (directory_of p)) s with
  | (s1, inr e) => (s1, Some (make_error DirectorySyncFailed e None))
  | (s1, inl descriptor) =>
      let (s2, r) := call (sys_fsync descriptor) s1 in
      (close_descriptor descriptor s2,
       match r with Some e => Some (make_error DirectorySyncFailed e None) | None => None end)
  end.

Definition open_existing_for_append (p : path) (s : Proc W)
  : Proc W * (Fd + JournalStorageError) :=
  match call (sys_open ReadWriteAppend p) s with
  | (s1, inr e) => (s1, inr (open_error e))
  | (s1, inl descriptor) => (s1, inl descriptor)
  end.

(** [JournalReader::scan]. *)
Definition scan (p : path) (s : Proc W) : outcome (Proc W) JournalScanResult :=
  match call (sys_open ReadOnly p) s with
  | (s1, inr e) => Returned s1 (inr (open_error e))
  | (s1, inl descriptor) =>
      let! (s2, result) := scan_descriptor descriptor s1 in
      Returned (close_descriptor descriptor s2) result
  end.

(** [JournalWriter::create]. *)
Definition create (p : path) (s : Proc W)
  : outcome (Proc W) (JournalWriter + JournalStorageError) :=
  match call (sys_open CreateExclusive p) s with
  | (s1, inr e) =>
      if e =? EEXIST then Returned s1 (inr (make_error FileAlreadyExists e None))
      else Returned s1 (inr (open_error e))
  | (s1, inl file) =>
      let! (s2, write_error) := write_all file Journal.encode_file_header false s1 in
      match write_error with
      | Some error => Returned (close_descriptor file s2) (inr error)
      | None =>
          match call (sys_fsync file) s2 with
          | (s3, Some e) => Returned (close_descriptor file s3) (inr (make_error SyncFailed e None))
          | (s3, None) =>
              match sync_directory p s3 with
              | (s4, Some error) => Returned (close_descriptor file s4) (inr error)
              | (s4, None) => Returned s4 (inl (mkJournalWriter file (Some 1) false))
              end
          end
      end
  end.

(** [JournalWriter::open_recovered]. *)
Definition open_recovered (p : path) (s : Proc W)
  : outcome (Proc W) (JournalWriter + JournalStorageError) :=
  match open_existing_for_append p s with
  | (s1, inr error) => Returned s1 (inr error)
  | (s1, inl file) =>
      let! (s2, scan_result) := scan_descriptor file s1 in
      match scan_result with
      | inr error => Returned (close_descriptor file s2) (inr error)
      | inl scan =>
          if scan_has_truncated_tail scan
          then Returned (close_descriptor file s2) (inr (make_error TruncatedTailRequiresRepair 0 None))
          else Returned s2 (inl (mkJournalWriter file (scan_next_sequence scan) false))
      end
  end.

(** [JournalWriter::repair_truncated_tail_and_open]. *)
Definition repair_truncated_tail_and_open (p : path) (s : Proc W)
  : outcome (Proc W) (JournalWriter + JournalStorageError) :=
  match open_existing_for_append p s with
  | (s1, inr error) => Returned s1 (inr error)
  | (s1, inl file) =>
      let! (s2, scan_result) := scan_descriptor file s1 in
      match scan_result with
      | inr error => Returned (close_descriptor file s2) (inr error)
      | inl scan =>
          if negb (scan_has_truncated_tail scan)
          then Returned (close_descriptor file s2) (inr (make_error NoTruncatedTail 0 None)) else
          if OFF_MAX <? scan_valid_size scan
          then Returned (close_descriptor file s2) (inr (make_error TruncateFailed EOVERFLOW None))
          else
          match call (sys_ftruncate file (scan_valid_size scan)) s2 with
          | (s3, Some e) =>
              Returned (close_descriptor file s3) (inr (make_error TruncateFailed e None))
          | (s3, None) =>
              match call (sys_fsync file) s3 with
              | (s4, Some e) =>
                  Returned (close_descriptor file s4) (inr (make_error SyncFailed e None))
              | (s4, None) =>
                  Returned s4 (inl (mkJournalWriter file (scan_next_sequence scan) false))
              end
          end
      end
  end.

(** ** Appending *)

(** The preparation loop of [append_batch_and_sync] at [index]; an allocation
    throws in the iteration [bad_alloc_at], if any.  No system call. *)
Fixpoint prepare_frames (bad_alloc_at : option nat) (first_sequence : Z) (index : nat)
    (total_size : Z) (commands : list JournalCommand)
  : outcome unit (list (list byte) * list JournalSequence + JournalStorageError) :=
  match commands with
  | [] => Returned () (inl ([], []))
  | command :: commands' =>
      if bool_decide (bad_alloc_at = Some index) then Threw () else
      let sequence := (first_sequence + Z.of_nat index)%u64 in
      match Journal.encode_record sequence command with
      | None => Crashed UndefinedBehaviour
      | Some (inr codec_error) => Returned () (inr (make_error CodecFailure 0 (Some codec_error)))
      | Some (inl frame) =>
          if (U64_MAX - total_size)%u64 <? Z.of_nat (length frame)
          then Returned () (inr (make_error CodecFailure 0 None)) else
          let! (u, rest) := prepare_frames bad_alloc_at first_sequence (S index)
                        (total_size + Z.of_nat (length frame))%u64 commands' in
          match rest with
          | inr error => Returned u (inr error)
          | inl (encoded_frames, assigned_sequences) =>
              Returned u (inl (frame :: encoded_frames, sequence :: assigned_sequences))
          end
      end
  end.

(** [for (frame : encoded_frames) write_all(file_descriptor_, frame, true)]. *)
Fixpoint write_frames (file_descriptor : Fd) (encoded_frames : list (list byte)) (s : Proc W)
  : outcome (Proc W) (option JournalStorageError) :=
  match encoded_frames with
  | [] => Returned s None
  | frame :: encoded_frames' =>
      let! (s1, write_error) := write_all file_descriptor frame true s in
      match write_error with
      | Some error => Returned s1 (Some error)
      | None => write_frames file_descriptor encoded_frames' s1
      end
  end.

(** The fsync of [append_batch_and_sync]. *)
Definition append_sync (file_descriptor : Fd) (s : Proc W)
  : Proc W * option JournalStorageError :=
  if append_io_test_active s then append_path_sync file_descriptor s
  else match call (sys_fsync file_descriptor) s with
       | (s', None) => (s', None)
       | (s', Some e) => (s', Some (make_error SyncFailed e None))
       end.

Definition set_failed (wr : JournalWriter) : JournalWriter :=
  mkJournalWriter (jw_file_descriptor wr) (jw_next_sequence wr) true.

Definition append_batch_and_sync (bad_alloc_at : option nat) (commands : list JournalCommand)
    (wr : JournalWriter) (s : Proc W)
  : outcome (Proc W) (JournalWriter * JournalAppendBatchResult) :=
  if jw_failed wr then Returned s (wr, inr (make_error WriterFailed 0 None)) else
  if bool_decide (commands = []) then Returned s (wr, inr (make_error EmptyBatch 0 None)) else
  match jw_next_sequence wr with
  | None => Returned s (wr, inr (make_error SequenceExhausted 0 None))
  | Some first_sequence =>
      let available := ((U64_MAX - first_sequence)%u64 + 1)%u64 in
      let size := Z.of_nat (length commands) in
      if available <? size then Returned s (wr, inr (make_error SequenceExhausted 0 None)) else
      match prepare_frames bad_alloc_at first_sequence 0 0 commands with
      | Crashed c => Crashed c
      | Threw _ => Returned s (wr, inr (make_error CodecFailure 0 None))
      | Returned _ (inr error) => Returned s (wr, inr error)
      | Returned _ (inl (encoded_frames, assigned_sequences)) =>
          let! (s1, write_error) := write_frames (jw_file_descriptor wr) encoded_frames s in
          match write_error with
          | Some error => Returned s1 (set_failed wr, inr error)
          | None =>
              match append_sync (jw_file_descriptor wr) s1 with
              | (s2, Some error) => Returned s2 (set_failed wr, inr error)
              | (s2, None) =>
                  let next :=
                    if size =? available then None else Some (first_sequence + size)%u64 in
                  Returned s2 (mkJournalWriter (jw_file_descriptor wr) next (jw_failed wr),
                               inl assigned_sequences)
              end
          end
      end
  end.

(** [front()] of an empty vector is undefined. *)
Definition append_and_sync (bad_alloc_at : option nat) (command : JournalCommand)
    (wr : JournalWriter) (s : Proc W)
  : outcome (Proc W) (JournalWriter * JournalAppendResult) :=
  let! (s1, r) := append_batch_and_sync bad_alloc_at [command] wr s in
  match r with
  | (wr1, inr error) => Returned s1 (wr1, inr error)
  | (wr1, inl (sequence :: _)) => Returned s1 (wr1, inl sequence)
  | (_, inl []) => Crashed UndefinedBehaviour
  end.

(** The move constructor: the new writer and what is left of the old one. *)
Definition move_writer (other : JournalWriter) : JournalWriter * JournalWriter :=
  (other, mkJournalWriter (-1) None true).

(** The move assignment between two writers: the target closes its descriptor
    first. *)
Definition move_assign_writer (this other : JournalWriter) (s : Proc W)
  : Proc W * (JournalWriter * JournalWriter) :=
  (close_descriptor (jw_file_descriptor this) s, move_writer other).

Definition destroy_writer (wr : JournalWriter) (s : Proc W) : Proc W :=
  close_descriptor (jw_file_descriptor wr) s.

End storage.
End JournalStorage.
