(* ===== verification/JournalFile.v ===== *)
(** * The contents of a journal file

    [journal_bytes cs] is the file that holds exactly the commands [cs];
    [scan_verdict] and [file_verdict] say what a scan makes of a file, and the
    lemmas show that it accepts exactly the files that hold commands followed by
    nothing or by a cut record.  [recoverable] describes the files that a crash
    can leave. *)
From S2P Require Import Prelude Types Bytes Journal JournalProps Posix JournalStorage.
Import Journal JournalStorage.

(** ** The contents of a journal *)

(** The records of a sequence of commands, numbered from [n], and their
    frames. *)
Fixpoint records_from (n : Z) (cs : list JournalCommand) : list JournalRecord :=
  match cs with
  | [] => []
  | c :: cs' => mkJournalRecord n c :: records_from (n + 1) cs'
  end.

Definition frames_from (n : Z) (cs : list JournalCommand) : list byte :=
  concat (record_frame <$> records_from n cs).

(** The sequence number after [cs]. *)
Definition next_after (cs : list JournalCommand) : Z := Z.of_nat (length cs) + 1.

Definition journal_bytes (cs : list JournalCommand) : list byte :=
  encode_file_header ++ frames_from 1 cs.

(** What a scan that has read [cs] reports. *)
Definition scanned (cs : list JournalCommand) (truncated : bool) : JournalScan :=
  mkJournalScan (records_from 1 cs) (Z.of_nat (length (journal_bytes cs))) truncated
    (Some (next_after cs)).

Lemma records_from_app n cs1 cs2 :
  records_from n (cs1 ++ cs2) = records_from n cs1 ++ records_from (n + Z.of_nat (length cs1)) cs2.
Proof.
  revert n. induction cs1 as [|c cs1 IH]; intros n; simpl; [by rewrite Z.add_0_r|].
  rewrite IH. do 3 f_equal. lia.
Qed.

Lemma frames_from_app n cs1 cs2 :
  frames_from n (cs1 ++ cs2) = frames_from n cs1 ++ frames_from (n + Z.of_nat (length cs1)) cs2.
Proof. unfold frames_from. by rewrite records_from_app, fmap_app, concat_app. Qed.

Lemma journal_bytes_app cs1 cs2 :
  journal_bytes (cs1 ++ cs2) = journal_bytes cs1 ++ frames_from (next_after cs1) cs2.
Proof.
  unfold journal_bytes, next_after. rewrite frames_from_app, app_assoc. do 2 f_equal. lia.
Qed.

Lemma frames_from_cons n c cs : frames_from n (c :: cs) = frame n c ++ frames_from (n + 1) cs.
Proof. done. Qed.

Lemma frames_from_one n c : frames_from n [c] = frame n c.
Proof. unfold frames_from, record_frame. simpl. by rewrite app_nil_r. Qed.

Lemma length_frame_bounds n c : (32 <= length (frame n c) <= 49)%nat.
Proof.
  rewrite length_frame. destruct c; unfold expected_payload_length; simpl;
    unfold kSubmitLimitOrderPayloadSize, kCancelOrderPayloadSize; lia.
Qed.

Lemma length_frames_from n cs : (32 * length cs <= length (frames_from n cs))%nat.
Proof.
  revert n. induction cs as [|c cs IH]; intros n; [simpl; lia|].
  rewrite frames_from_cons, length_app. specialize (IH (n + 1)).
  pose proof (length_frame_bounds n c). cbn [length]. lia.
Qed.

Lemma wf_frames_from n cs : wf_bytes (frames_from n cs).
Proof.
  revert n. induction cs as [|c cs IH]; intros n; [constructor|].
  rewrite frames_from_cons. apply wf_bytes_app. split; [apply wf_frame|done].
Qed.

Lemma length_header : length encode_file_header = 16%nat.
Proof. reflexivity. Qed.

Lemma length_journal_bytes cs : (16 + 32 * length cs <= length (journal_bytes cs))%nat.
Proof.
  unfold journal_bytes. rewrite length_app, length_header.
  pose proof (length_frames_from 1 cs). lia.
Qed.

Lemma wf_journal_bytes cs : wf_bytes (journal_bytes cs).
Proof. apply wf_bytes_app. split; [decide_now|apply wf_frames_from]. Qed.

(** The number of records of a file is far from the largest sequence. *)
Lemma journal_next_small cs rest :
  Z.of_nat (length (journal_bytes cs ++ rest)) <= OFF_MAX -> 0 < next_after cs < U64_MAX.
Proof.
  rewrite length_app. pose proof (length_journal_bytes cs). unfold next_after, OFF_MAX. lia.
Qed.

Lemma next_after_push cs c : next_after cs + 1 = next_after (cs ++ [c]).
Proof. unfold next_after. rewrite length_app. cbn [length]. lia. Qed.

(** One more record in the scan. *)
Lemma scanned_push cs r truncated :
  let cs' := cs ++ [jr_command r] in
  jr_sequence r = next_after cs ->
  mkJournalScan (scan_records (scanned cs truncated) ++ [r])
    (Z.of_nat (length (journal_bytes cs)) + Z.of_nat (length (record_frame r)))
    (scan_has_truncated_tail (scanned cs truncated)) (Some (next_after cs + 1))
  = scanned cs' truncated.
Proof.
  intros cs' Hs. unfold scanned, cs'.
  rewrite journal_bytes_app, frames_from_one, length_app, Nat2Z.inj_add, (next_after_push cs (jr_command r)), records_from_app.
  cbn [scan_records scan_has_truncated_tail]. unfold record_frame. rewrite Hs. do 3 f_equal. simpl.
  destruct r. cbn in *. by rewrite Hs, Z.add_comm.
Qed.

(** An incomplete frame: fewer bytes than the header of a frame has, whatever
    they are; or the first 12 bytes of the frame of a record (the magic, the version,
    the type, the flags and the length of the payload) and fewer bytes than that
    frame has. *)
Definition incomplete_frame (t : list byte) : Prop :=
  (length t < 24)%nat \/
  exists sequence command, take 12 t = take 12 (frame sequence command) /\
    (length t < length (frame sequence command))%nat.

(** A journal file: the records of [cs], then nothing or an incomplete frame. *)
Definition journal_file (cs : list JournalCommand) (t C : list byte) : Prop :=
  C = journal_bytes cs ++ t /\ Forall wf_journal_command cs /\ (t = [] \/ incomplete_frame t).

(** ** What a scan finds *)

(** The verdict of the decoder on a tail that a scan takes for a cut record;
    [cut_tail_spec] says which tails these are. *)
Definition cut_tail (t : list byte) : Prop := decode_record_prefix t = Some (inr TruncatedInput).

(** The beginning of a frame, field by field. *)
Lemma frame_start_fields t sequence command :
  (12 <= length t)%nat ->
  let type := record_type_for command in
  take 12 t = take 12 (frame sequence command) <->
  slice 0 4 t = kJournalFrameMagic /\ slice 4 1 t = be_bytes 1 1 /\
  slice 5 1 t = be_bytes 1 (record_type_value type) /\ slice 6 2 t = be_bytes 2 0 /\
  slice 8 4 t = be_bytes 4 (Z.of_nat (expected_payload_length type)).
Proof.
  intros Hl type. assert (take 12 (frame sequence command) = kJournalFrameMagic ++ be_bytes 1 1 ++
    be_bytes 1 (record_type_value type) ++ be_bytes 2 0 ++ be_bytes 4 (Z.of_nat (expected_payload_length type))) as ->
    by (unfold type; by destruct command).
  change (take 12 t) with (take (4 + (1 + (1 + (2 + 4)))) (drop 0 t)). fold (slice 0 (4 + (1 + (1 + (2 + 4)))) t).
  do 4 (rewrite slice_concat by (rewrite ?length_be_bytes; done || lia)). done.
Qed.

(** The decoder misses bytes exactly on incomplete frames. *)
Lemma cut_tail_spec t : wf_bytes t -> cut_tail t <-> incomplete_frame t.
Proof.
  intros Hw. unfold cut_tail, incomplete_frame. rewrite decode_record_prefix_slices by done.
  destruct (decide (length t < 24)%nat) as [Hl|Hl].
  { unfold decode_slices. rewrite decide_True by done. tauto. }
  assert (Some (decode_slices t) = Some (inr TruncatedInput) <-> decode_slices t = inr TruncatedInput) as ->
    by (split; congruence). split.
  - intros H. right. revert H. unfold decode_slices. rewrite decide_False by done.
    destruct (decide _) as [|Hmagic]; [done|]. destruct (decide _) as [|Hver]; [done|].
    destruct (decode_record_type _) as [type|e] eqn:Ht; cycle 1.
    { unfold decode_record_type in Ht. repeat case_match; simplify_eq. done. }
    cbv zeta. destruct (decide _) as [|Hflags]; [done|]. destruct (decide _) as [|Hn]; [done|].
    destruct (decide _) as [Hs|]; [|by repeat destruct (decide _)]. intros _.
    apply decode_record_type_inl in Ht. apply dec_stable in Hmagic, Hver, Hflags, Hn.
    pose proof (command_at_type type []) as Hc. exists 1, (command_at type []). rewrite length_frame, Hc.
    split; [|done]. apply frame_start_fields; [lia|]. rewrite Hc.
    apply field_value in Hver, Ht, Hflags, Hn; try done; try lia; by destruct type.
  - intros [Hs|(sequence & c & Hstart & Hs)]; [done|]. apply frame_start_fields in Hstart as (F1 & F2 & F3 & F4 & F5); [|lia].
    rewrite (decode_slices_header t (record_type_for c)) by (done || lia). rewrite length_frame in Hs. by rewrite decide_True.
Qed.

Lemma acceptable_tail t : wf_bytes t -> (t = [] \/ cut_tail t) <-> (t = [] \/ incomplete_frame t).
Proof. intros Hw. by rewrite cut_tail_spec. Qed.

(** The verdict of the scanner on the [rest] of the file after the records of
    [cs]. *)
Inductive scan_verdict : list JournalCommand -> list byte -> JournalScanResult -> Prop :=
| verdict_end cs : scan_verdict cs [] (inl (scanned cs false))
| verdict_cut cs t : t <> [] -> cut_tail t -> scan_verdict cs t (inl (scanned cs true))
| verdict_invalid cs t e :
    decode_record_prefix t = Some (inr e) -> e <> TruncatedInput ->
    scan_verdict cs t (inr (make_error InvalidJournal 0 (Some e)))
| verdict_sequence cs t d :
    decode_record_prefix t = Some (inl d) -> jr_sequence (dj_record d) <> next_after cs ->
    scan_verdict cs t (inr (make_error SequenceViolation 0 None))
| verdict_next cs t d r :
    decode_record_prefix t = Some (inl d) -> jr_sequence (dj_record d) = next_after cs ->
    scan_verdict (cs ++ [jr_command (dj_record d)]) (drop (dj_bytes_consumed d) t) r ->
    scan_verdict cs t r.

Lemma payload_at_most_25 type : (expected_payload_length type <= 25)%nat.
Proof.
  destruct type; unfold expected_payload_length, kSubmitLimitOrderPayloadSize,
    kCancelOrderPayloadSize; lia.
Qed.

Lemma slice_take off n k (l : list byte) :
  (off + n <= k)%nat -> slice off n (take k l) = slice off n l.
Proof.
  intros H. unfold slice. rewrite !take_drop_commute, take_take. by rewrite Nat.min_l by lia.
Qed.

(** The window of a read is as good as the whole rest. *)
Lemma decode_window k bytes :
  (49 <= k)%nat -> decode_slices (take k bytes) = decode_slices bytes.
Proof.
  intros Hk. destruct (decide (length bytes <= k)%nat); [by rewrite take_ge by done|].
  unfold decode_slices. rewrite length_take, !slice_take by lia.
  rewrite !(decide_False (P := (_ < 24)%nat)) by lia.
  destruct (decide _); [done|]. destruct (decide _); [done|].
  destruct (decode_record_type _) as [type|] eqn:Et; [|done]. cbv zeta.
  pose proof (payload_at_most_25 type). rewrite slice_take by lia.
  rewrite !(decide_False (P := (_ < 24 + _)%nat)) by lia.
  unfold command_at. by rewrite !slice_take by lia.
Qed.

(** A record that is cut short is short. *)
Lemma decode_truncated_short bytes :
  decode_slices bytes = inr TruncatedInput -> (length bytes < 49)%nat.
Proof.
  unfold decode_slices. destruct (decide _); [lia|]. destruct (decide _); [done|].
  destruct (decide _); [done|]. destruct (decode_record_type _) as [type|] eqn:Et.
  - cbv zeta. destruct (decide _); [done|]. destruct (decide _); [done|].
    destruct (decide _) as [Hl|]; [|by repeat destruct (decide _)].
    intros _. pose proof (payload_at_most_25 type). lia.
  - unfold decode_record_type in Et. repeat case_match; simplify_eq. done.
Qed.

Lemma decode_cut_short bytes : wf_bytes bytes -> cut_tail bytes -> (length bytes < 49)%nat.
Proof.
  intros Hw. unfold cut_tail. rewrite decode_record_prefix_slices by done. intros [= H].
  by apply decode_truncated_short.
Qed.

Lemma decode_record_frame n c t :
  wf_record (mkJournalRecord n c) -> wf_bytes t ->
  decode_record_prefix (frame n c ++ t)
    = Some (inl (mkDecodedJournalRecord (mkJournalRecord n c) (length (frame n c)))).
Proof.
  intros Hr Ht. rewrite decode_record_prefix_slices by (apply wf_bytes_app; split; [apply wf_frame|done]).
  f_equal. by apply (decode_slices_frame (mkJournalRecord n c)).
Qed.

(** The verdict is a function of what the decoder says of the rest. *)
Lemma verdict_cases cs t r :
  scan_verdict cs t r ->
  match decode_record_prefix t with
  | Some (inl d) =>
      if decide (jr_sequence (dj_record d) = next_after cs)
      then scan_verdict (cs ++ [jr_command (dj_record d)]) (drop (dj_bytes_consumed d) t) r
      else r = inr (make_error SequenceViolation 0 None)
  | Some (inr e) =>
      r = if decide (e = TruncatedInput) then inl (scanned cs (bool_decide (t <> [])))
          else inr (make_error InvalidJournal 0 (Some e))
  | None => False
  end.
Proof.
  unfold cut_tail. intros [cs'|cs' t' Hne Hc|cs' t' e He Hne|cs' t' d Hd Hs|cs' t' d r' Hd Hs Hv].
  - reflexivity.
  - unfold cut_tail in Hc. by rewrite Hc, bool_decide_true.
  - by rewrite He, decide_False.
  - by rewrite Hd, decide_False.
  - by rewrite Hd, decide_True.
Qed.

(** An acceptable tail is taken for one. *)
Lemma verdict_tail cs t r :
  t = [] \/ cut_tail t -> scan_verdict cs t r -> r = inl (scanned cs (bool_decide (t <> []))).
Proof.
  intros Ht Hv%verdict_cases. assert (cut_tail t) as Hcut by (destruct Ht; by subst).
  unfold cut_tail in Hcut. by rewrite Hcut in Hv.
Qed.

(** A verdict is determined by the file: on the frames of [cs'] followed by an
    acceptable tail it is the scan of [cs ++ cs']. *)
Lemma verdict_complete cs cs' t r :
  Forall wf_journal_command cs' -> wf_bytes t -> t = [] \/ cut_tail t ->
  next_after (cs ++ cs') < U64_MOD ->
  scan_verdict cs (frames_from (next_after cs) cs' ++ t) r ->
  r = inl (scanned (cs ++ cs') (bool_decide (t <> []))).
Proof.
  intros Hwf Ht Htail. revert cs. induction Hwf as [|c cs' Hc Hcs IH]; intros cs Hn Hv.
  { rewrite app_nil_r. by apply verdict_tail. }
  rewrite frames_from_cons, <- app_assoc in Hv. unfold next_after in Hn. rewrite length_app in Hn.
  cbn [length] in Hn.
  set (t' := frames_from (next_after cs + 1) cs' ++ t) in *.
  assert (decode_record_prefix (frame (next_after cs) c ++ t')
    = Some (inl (mkDecodedJournalRecord (mkJournalRecord (next_after cs) c)
        (length (frame (next_after cs) c))))) as E.
  { apply decode_record_frame.
    - split; [|done]. cbn [jr_sequence]. unfold next_after. lia.
    - apply wf_bytes_app. split; [apply wf_frames_from|done]. }
  rewrite (cons_middle c cs cs'), app_assoc. apply IH.
  - unfold next_after. rewrite !length_app. cbn [length]. lia.
  - assert (next_after (cs ++ [c]) = next_after cs + 1) as ->
      by (unfold next_after; rewrite length_app; cbn [length]; lia). fold t'.
    pose proof (length_frame_bounds (next_after cs) c) as Hlen.
    apply verdict_cases in Hv. rewrite E in Hv. cbn [dj_record jr_sequence] in Hv.
    rewrite decide_True in Hv by done. cbn [dj_bytes_consumed jr_command] in Hv.
    by rewrite drop_app_length in Hv.
Qed.

(** A scan that succeeds has found all there is. *)
Lemma verdict_sound cs t r :
  wf_bytes t -> scan_verdict cs t r ->
  match r with
  | inl sc => exists cs' t', t = frames_from (next_after cs) cs' ++ t' /\
      Forall wf_journal_command cs' /\ (t' = [] \/ cut_tail t') /\
      sc = scanned (cs ++ cs') (bool_decide (t' <> []))
  | inr e => jse_code e = InvalidJournal \/ jse_code e = SequenceViolation
  end.
Proof.
  intros Ht Hv. induction Hv as [cs|cs t Hne Hcut|cs t e He|cs t d Hd|cs t d r Hd Hs Hv IH]; auto.
  - exists [], []. rewrite (app_nil_r cs). split_and!; try first [done | by constructor | by auto].
  - exists [], t. rewrite (app_nil_r cs), bool_decide_true by done. split_and!; try first [done | by constructor | by auto].
  - rewrite decode_record_prefix_slices in Hd by done. injection Hd as Hd.
    apply decode_slices_inv in Hd as ([_ Hc] & Hn & [t1 ->]); [|done].
    rewrite Hn, drop_app_length in IH. apply wf_bytes_app in Ht as [_ Ht]. specialize (IH Ht).
    destruct r as [sc|e]; [|done]. destruct IH as (cs' & t' & -> & Hcs & Htail & ->).
    exists (jr_command (dj_record d) :: cs'), t'. rewrite <- app_assoc. split_and!; try first [done | by constructor | by auto].
    rewrite frames_from_cons, <- app_assoc. unfold record_frame. rewrite Hs.
    do 3 f_equal. unfold next_after. rewrite length_app. cbn [length]. lia.
Qed.

(** The verdict on a whole file. *)
Inductive file_verdict (C : list byte) : JournalScanResult -> Prop :=
| file_short :
    (length C < 16)%nat ->
    file_verdict C (inr (make_error InvalidJournal 0 (Some TruncatedInput)))
| file_bad_header e :
    decode_file_header (take 16 C) = Some (inr e) ->
    file_verdict C (inr (make_error InvalidJournal 0 (Some e)))
| file_scanned rest r :
    C = encode_file_header ++ rest -> scan_verdict [] rest r -> file_verdict C r.

Lemma file_verdict_complete cs t C r :
  journal_file cs t C -> wf_bytes C -> Z.of_nat (length C) <= OFF_MAX -> file_verdict C r ->
  r = inl (scanned cs (bool_decide (t <> []))).
Proof.
  intros (-> & Hcs & Ht) Hw Hmax Hv. unfold journal_bytes in *. rewrite <- app_assoc in *.
  pose proof length_header as Hh.
  destruct Hv as [Hl|e He|rest r HC Hv].
  - rewrite length_app in Hl. lia.
  - rewrite take_app_length' in He by done. vm_compute in He. done.
  - apply app_inv_head in HC as <-. apply wf_bytes_app in Hw as [_ [_ Hw]%wf_bytes_app].
    apply (verdict_complete [] cs t r); try done; [by apply acceptable_tail|].
    pose proof (journal_next_small cs t) as Hn. unfold journal_bytes in Hn. rewrite <- app_assoc in Hn.
    specialize (Hn Hmax). simpl. lia.
Qed.

Lemma file_verdict_sound C r :
  wf_bytes C -> file_verdict C r ->
  match r with
  | inl sc => exists cs t, journal_file cs t C /\ sc = scanned cs (bool_decide (t <> []))
  | inr e => jse_code e = InvalidJournal \/ jse_code e = SequenceViolation
  end.
Proof.
  intros Hw [Hl|e He|rest r' HC Hv]; auto. subst C. apply wf_bytes_app in Hw as [_ Hw].
  apply verdict_sound in Hv; [|done]. destruct r' as [sc|e]; [|done].
  destruct Hv as (cs & t & -> & Hcs & Ht & ->). exists cs, t. split; [|done].
  apply wf_bytes_app in Hw as [_ Hw]. apply acceptable_tail in Ht; [|done].
  split; [|done]. unfold journal_bytes. by rewrite <- app_assoc.
Qed.

(** ** Files that a crash can leave *)

(** A proper prefix of a frame is taken for a cut record. *)
Lemma frame_prefix_cut n c t :
  wf_record (mkJournalRecord n c) -> t `prefix_of` frame n c -> t <> frame n c ->
  cut_tail t.
Proof.
  unfold cut_tail. intros Hr [u E] Hne. assert (t = take (length t) (record_frame (mkJournalRecord n c))) as Ht
    by (unfold record_frame; cbn [jr_sequence jr_command]; by rewrite E, take_app_length).
  rewrite Ht, decode_record_prefix_slices by (apply wf_take, wf_frame). f_equal.
  apply decode_slices_cut; [done|]. unfold record_frame. cbn [jr_sequence jr_command].
  rewrite E, length_app. destruct u; [|simpl; lia]. by rewrite app_nil_r in E.
Qed.

(** A prefix of the frames of [hi] consists of the frames of a prefix of [hi]
    and a tail that a scan accepts. *)
Lemma frames_prefix n hi C :
  Forall wf_journal_command hi -> 0 < n -> n + Z.of_nat (length hi) <= U64_MOD ->
  C `prefix_of` frames_from n hi ->
  exists cs t, cs `prefix_of` hi /\ C = frames_from n cs ++ t /\
    (t = [] \/ cut_tail t).
Proof.
  intros Hwf. revert n C. induction Hwf as [|c hi Hc Hhi IH]; intros n C Hn Hmax HC.
  { apply prefix_nil_inv in HC as ->. exists [], []. auto. }
  rewrite frames_from_cons in HC. cbn [length] in Hmax.
  assert (wf_record (mkJournalRecord n c)) as Hr by (split; [cbn; lia|done]).
  destruct (decide (frame n c `prefix_of` C)) as [[C' ->]|Hf].
  - apply prefix_app_inv in HC. destruct (IH (n + 1) C') as (cs & t & [k ->] & -> & Ht); [lia|lia|done|].
    exists (c :: cs), t. rewrite frames_from_cons, <- app_assoc. split_and!; try done.
    by exists k.
  - exists [], C. split_and!; [apply prefix_nil|done|]. right.
    assert (C `prefix_of` frame n c) as HC'.
    { destruct (prefix_weak_total C (frame n c) _ HC (prefix_app_r _ _ _ (reflexivity _))); done. }
    eapply frame_prefix_cut; [done..|]. intros ->. by apply Hf.
Qed.

(** A shorter piece of a cut record is a cut record. *)
Lemma cut_tail_prefix t t' :
  wf_bytes t -> t' `prefix_of` t -> cut_tail t -> cut_tail t'.
Proof.
  intros Hw [u ->]. unfold cut_tail. apply wf_bytes_app in Hw as [Hw Hu].
  rewrite !decode_record_prefix_slices by (done || by apply wf_bytes_app). intros [= H]. f_equal.
  destruct (decide (length t' < 24)%nat) as [Hl|Hl].
  { unfold decode_slices. by rewrite decide_True. }
  revert H. unfold decode_slices. rewrite length_app.
  rewrite (decide_False (P := (length t' + length u < 24)%nat)) by lia.
  rewrite (decide_False (P := (length t' < 24)%nat)) by done.
  rewrite !(slice_app_l _ _ t' u) by lia.
  destruct (decide _); [done|]. destruct (decide _); [done|].
  destruct (decode_record_type _) as [type|]; [|done]. cbv zeta.
  destruct (decide _); [done|]. destruct (decide _); [done|].
  destruct (decide (length t' < 24 + _)%nat) as [|Hn]; [done|].
  rewrite decide_False by lia. by repeat destruct (decide _).
Qed.

(** The file holds a history between [lo] and [hi], and maybe a cut record. *)
Definition recoverable (lo hi : list JournalCommand) (C : list byte) : Prop :=
  exists cs t, journal_file cs t C /\ lo `prefix_of` cs /\ cs `prefix_of` hi.

Lemma recoverable_weaken lo lo' hi hi' C :
  lo' `prefix_of` lo -> hi `prefix_of` hi' -> recoverable lo hi C -> recoverable lo' hi' C.
Proof. intros H1 H2 (cs & t & Hj & H3 & H4). exists cs, t. split_and!; [done|by etrans..]. Qed.

Lemma journal_file_clean cs : Forall wf_journal_command cs -> journal_file cs [] (journal_bytes cs).
Proof. intros. split; [by rewrite app_nil_r|auto]. Qed.

Lemma prefix_Forall {A} (P : A -> Prop) l k : l `prefix_of` k -> Forall P k -> Forall P l.
Proof. intros [u ->] H. by apply Forall_app in H as [? _]. Qed.

(** Appending a prefix of the frames of [new] to the journal of [cs] gives the
    journal of [cs] and some of [new]; so does every shorter piece. *)
Lemma journal_append_prefix cs new d :
  Forall wf_journal_command cs -> Forall wf_journal_command new ->
  next_after cs + Z.of_nat (length new) <= U64_MOD ->
  d `prefix_of` frames_from (next_after cs) new ->
  exists new' t, new' `prefix_of` new /\ journal_file (cs ++ new') t (journal_bytes cs ++ d) /\
    forall d', d' `prefix_of` d -> recoverable cs (cs ++ new') (journal_bytes cs ++ d').
Proof.
  intros Hcs Hnew Hmax Hd. assert (0 < next_after cs) as Hpos by (unfold next_after; lia).
  assert (forall n1 t1, n1 `prefix_of` new -> wf_bytes t1 -> (t1 = [] \/ cut_tail t1) ->
    journal_file (cs ++ n1) t1 (journal_bytes cs ++ frames_from (next_after cs) n1 ++ t1)) as Hfile.
  { intros n1 t1 Hn1 Hw1 Ht1%acceptable_tail; [|done].
    split_and!; [|by apply Forall_app; split; [|by eapply prefix_Forall]|done].
    by rewrite journal_bytes_app, app_assoc. }
  destruct (frames_prefix _ new d Hnew Hpos Hmax Hd) as (new' & t & Hn' & -> & Ht).
  assert (wf_bytes t) as Hwt.
  { eapply prefix_Forall in Hd; [|apply wf_frames_from]. by apply wf_bytes_app in Hd as [_ ?]. }
  exists new', t. split_and!; [done|by apply Hfile|]. intros d' Hd'.
  destruct (prefix_weak_total d' (frames_from (next_after cs) new') _ Hd')
    as [Hd1|[t' ->]]; [by apply prefix_app_r| |].
  - destruct (frames_prefix (next_after cs) new' d') as (n2 & t2 & Hn2 & -> & Ht2); try done.
    + by eapply prefix_Forall.
    + pose proof (prefix_length _ _ Hn'). lia.
    + eapply prefix_Forall in Hd1; [|apply wf_frames_from]. apply wf_bytes_app in Hd1 as [_ Hw2].
      exists (cs ++ n2), t2. split_and!; [apply Hfile; [by etrans|done..]|by apply prefix_app_r|
        by apply prefix_app].
  - apply prefix_app_inv in Hd'. exists (cs ++ new'), t'.
    split_and!; [apply Hfile; [done|by eapply prefix_Forall|]|by apply prefix_app_r|done].
    destruct Ht as [->|Ht]; [left; by apply prefix_nil_inv in Hd'|right].
    by eapply cut_tail_prefix.
Qed.

(** ** A scan determines the history *)

Lemma records_from_commands n cs : jr_command <$> records_from n cs = cs.
Proof. revert n. induction cs as [|c cs IH]; intros n; [done|]. csimpl. by rewrite IH. Qed.

Lemma scanned_inj cs cs' b b' : scanned cs b = scanned cs' b' -> cs = cs' /\ b = b'.
Proof.
  intros [=E _ -> _]. split; [|done]. apply (f_equal (fmap jr_command)) in E.
  by rewrite !records_from_commands in E.
Qed.

Lemma verdict_exists cs cs' t :
  Forall wf_journal_command cs' -> wf_bytes t -> t = [] \/ cut_tail t ->
  next_after (cs ++ cs') < U64_MOD ->
  scan_verdict cs (frames_from (next_after cs) cs' ++ t)
    (inl (scanned (cs ++ cs') (bool_decide (t <> [])))).
Proof.
  intros Hwf Ht Htail. revert cs. induction Hwf as [|c cs' Hc Hcs IH]; intros cs Hn.
  { rewrite (app_nil_r cs). destruct (decide (t = [])) as [->|Hne]; [constructor|].
    rewrite bool_decide_true by done. apply verdict_cut; [done|by destruct Htail]. }
  rewrite frames_from_cons, <- app_assoc. unfold next_after in Hn. rewrite length_app in Hn.
  cbn [length] in Hn. rewrite (cons_middle c cs cs'), (app_assoc cs).
  eapply verdict_next.
  - apply decode_record_frame; [split; [cbn; unfold next_after; lia|done]|].
    apply wf_bytes_app. split; [apply wf_frames_from|done].
  - done.
  - cbn [dj_bytes_consumed dj_record jr_command]. rewrite drop_app_length.
    rewrite (next_after_push cs c). apply IH. unfold next_after. rewrite !length_app. cbn [length]. lia.
Qed.

(** A file is the journal of one history only. *)
Lemma journal_file_unique cs t cs' t' C :
  wf_bytes C -> Z.of_nat (length C) <= OFF_MAX ->
  journal_file cs t C -> journal_file cs' t' C -> cs = cs' /\ t = t'.
Proof.
  intros Hw Hmax Hj Hj'.
  assert (file_verdict C (inl (scanned cs (bool_decide (t <> []))))) as Hv.
  { destruct Hj as (-> & Hcs & Ht). pose proof (journal_next_small cs t Hmax).
    unfold journal_bytes in *. rewrite <- app_assoc in *.
    eapply file_scanned; [done|]. apply wf_bytes_app in Hw as [_ [_ Hw]%wf_bytes_app].
    apply (verdict_exists [] cs t); try done; [by apply acceptable_tail|]. simpl. lia. }
  apply (file_verdict_complete cs' t' C) in Hv; [|done..].
  assert (scanned cs (bool_decide (t <> [])) = scanned cs' (bool_decide (t' <> []))) as Hs by congruence.
  apply scanned_inj in Hs as [-> _]. split; [done|].
  destruct Hj as (-> & _ & _), Hj' as (E & _ & _). by apply app_inv_head in E.
Qed.
