(* ===== verification/JournalStorageProps.v ===== *)
(** * Journal storage: properties

    What the operations of [JournalStorage] do to the journal file, whatever
    faults the system calls report and whatever the fault-injection state is. *)
From S2P Require Import Prelude Types Bytes Journal JournalProps Posix MemoryFs JournalStorage JournalFile.
Import Journal JournalStorage.

(** Split a system call on its result. *)
Ltac split_call name :=
  unfold call;
  match goal with
  | |- context [let (_, _) := ?f (os ?s) in _] =>
      let w := fresh "w" in let r := fresh "r" in destruct (f (os s)) as [w r] eqn:name
  end.

Section io.
  Context {W : Type} `{!Posix W, !PosixView W, !PosixLaws W}.
  Implicit Types (s : Proc W) (p : path).

(** Nothing happened to the files or the descriptors. *)
Definition quiet (w w' : W) : Prop :=
  same_files w w' /\ forall fd, opened w' fd = opened w fd.

Lemma quiet_refl w : quiet w w.
Proof. split; auto with posix. Qed.

Lemma quiet_trans w1 w2 w3 : quiet w1 w2 -> quiet w2 w3 -> quiet w1 w3.
Proof.
  intros [A1 B1] [A2 B2]. split; [by eapply same_files_trans|]. intros. by rewrite B2.
Qed.

Lemma quiet_contents w w' p : quiet w w' -> contents w' p = contents w p.
Proof. intros [H _]. apply H. Qed.

Lemma quiet_opened w w' fd : quiet w w' -> opened w' fd = opened w fd.
Proof. intros [_ H]. apply H. Qed.

Lemma quiet_appended p w w' : contents w p <> None -> quiet w w' -> appended p [] w w'.
Proof. intros Hp [H1 H2]. by apply appended_nil. Qed.

(** ** Writing *)

Lemma write_size_ok (remaining n : nat) s :
  append_write_size_before_failure remaining s = Some n -> (n <= remaining)%nat.
Proof.
  unfold append_write_size_before_failure. destruct (fail_after_successful_bytes _); [|naive_solver].
  case_match; [done|]. intros [= <-]. lia.
Qed.

(** The loop ends; it appends a prefix of the bytes, all of them when it
    reports no error. *)
Lemma write_loop_spec fuel fd m p bytes append_path written s :
  opened (os s) fd = Some (m, p) -> writable m = true -> contents (os s) p <> None ->
  (written <= length bytes)%nat -> (length bytes - written + interruptions (os s) <= fuel)%nat ->
  exists s' r d, write_loop fuel fd bytes append_path written s = Returned s' r /\
    d `prefix_of` drop written bytes /\ appended p d (os s) (os s') /\
    match r with None => d = drop written bytes | Some e => jse_code e = WriteFailed end.
Proof.
  intros Ho Hm. revert written s Ho. induction fuel as [|fuel IH]; intros written s Ho Hp Hw Hf.
  all: cbn [write_loop]; case_bool_decide as Hlt; simpl negb; [|
    exists s, None, []; assert (drop written bytes = []) as -> by (apply drop_ge; lia);
    split_and!; try done; by apply quiet_appended; [|apply quiet_refl]].
  { lia. }
  set (active := append_path && _). cbv zeta.
  set (allowed := if active then _ else _).
  assert (forall n, allowed = Some n -> (n <= length bytes - written)%nat) as Hallowed.
  { intros n. unfold allowed. destruct active; [apply write_size_ok|naive_solver]. }
  destruct allowed as [n|]; [|exists s, (Some (make_error WriteFailed EIO None)), []; split_and!;
    try done; [apply prefix_nil|by apply quiet_appended; [|apply quiet_refl]]].
  specialize (Hallowed n eq_refl). split_call E.
  destruct (write_appends _ m p _ _ _ _ E Ho Hm) as (d & Hd & Hap & Hr).
  assert (d `prefix_of` drop written bytes) as Hd' by (etrans; [exact Hd|apply prefix_take]).
  pose proof (prefix_length _ _ Hd') as Hdl. rewrite length_drop in Hdl.
  destruct Hap as [A1 A2 A3 A4 A5 A6] eqn:Ha. clear Ha.
  assert (contents w p <> None) as Hp' by (rewrite A1; destruct (contents (os s) p); done).
  destruct r as [k|e].
  - case_bool_decide as Hk.
    + exists (set_os w s), (Some (make_error WriteFailed EIO None)), d. done.
    + set (s' := if active then _ else _).
      assert (os s' = w) as Hos by (unfold s'; by destruct active).
      destruct (IH (written + k)%nat s') as (s2 & r & d2 & E2 & Hd2 & Ha2 & Hr2);
        rewrite ?Hos; [by rewrite A3|done|lia|lia|].
      rewrite Hos in Ha2. rewrite E2. exists s2, r, (d ++ d2).
      assert (drop written bytes = d ++ drop (written + k) bytes) as Hsplit.
      { destruct Hd' as [rest Hrest]. rewrite <- drop_drop, Hrest, <- Hr, drop_app_length. done. }
      rewrite Hsplit. split_and!; [done|by apply prefix_app|by eapply appended_trans|].
      destruct r; [done|by f_equal].
  - destruct (Z.eqb_spec e EINTR) as [->|].
    + destruct (Hr eq_refl) as [-> Hi].
      destruct (IH written (set_os w s)) as (s2 & r & d2 & E2 & Hd2 & Ha2 & Hr2);
        simpl; [by rewrite A3|done|lia|lia|].
      rewrite E2. exists s2, r, d2. split_and!; try done.
      by apply (appended_trans p [] d2 (os s) w).
    + exists (set_os w s), (Some (make_error WriteFailed e None)), d. done.
Qed.

Lemma write_all_spec fd m p bytes append_path s :
  opened (os s) fd = Some (m, p) -> writable m = true -> contents (os s) p <> None ->
  exists s' r d, write_all fd bytes append_path s = Returned s' r /\
    d `prefix_of` bytes /\ appended p d (os s) (os s') /\
    match r with None => d = bytes | Some e => jse_code e = WriteFailed end.
Proof.
  intros Ho Hm Hp. destruct (write_loop_spec (length bytes + interruptions (os s)) fd m p bytes
    append_path 0 s) as (s' & r & d & H); [done..|lia|lia|].
  rewrite drop_0 in H. by exists s', r, d.
Qed.

Lemma appended_exists p d w w' : appended p d w w' -> contents w p <> None -> contents w' p <> None.
Proof. intros [A _ _ _ _ _] Hp. rewrite A. by destruct (contents w p). Qed.

(** Writing the frames one by one appends a prefix of their concatenation. *)
Lemma write_frames_spec fd m p frames s :
  opened (os s) fd = Some (m, p) -> writable m = true -> contents (os s) p <> None ->
  exists s' r d, write_frames fd frames s = Returned s' r /\
    d `prefix_of` concat frames /\ appended p d (os s) (os s') /\
    match r with None => d = concat frames | Some e => jse_code e = WriteFailed end.
Proof.
  intros Ho Hm Hp. revert s Ho Hp. induction frames as [|f fs IH]; intros s Ho Hp.
  { exists s, None, []. split_and!; try done. by apply quiet_appended; [|apply quiet_refl]. }
  destruct (write_all_spec fd m p f true s Ho Hm Hp) as (s1 & r & d & E & Hd & Ha & Hr).
  cbn [write_frames concat]. rewrite E. cbn [obind]. destruct r as [e|].
  - exists s1, (Some e), d. split_and!; try done. by apply prefix_app_r.
  - subst d. destruct (IH s1) as (s2 & r & d2 & E2 & Hd2 & Ha2 & Hr2);
      [by rewrite (ap_opened _ _ _ _ Ha)|by eapply appended_exists|].
    rewrite E2. exists s2, r, (f ++ d2). split_and!; try done; [by apply prefix_app| |].
    + by eapply appended_trans.
    + destruct r; [done|by f_equal].
Qed.

(** ** Reading *)

Lemma slice_halves off n k (c : list byte) :
  (k <= n)%nat -> slice off n c = slice off k c ++ slice (off + k) (n - k) c.
Proof.
  intros Hk. rewrite <- slice_split. f_equal. lia.
Qed.

(** The loop ends; it returns the part of the file that was asked for, as far
    as the file goes, or an I/O error. *)
Lemma pread_loop_spec fuel fd m p off n bytes s c :
  opened (os s) fd = Some (m, p) -> readable m = true -> contents (os s) p = Some c ->
  0 <= off -> off + Z.of_nat n <= OFF_MAX ->
  bytes `prefix_of` slice (Z.to_nat off) n c ->
  (n - length bytes + interruptions (os s) <= fuel)%nat ->
  exists s' r, pread_loop fuel fd off n bytes s = Returned s' r /\ quiet (os s) (os s') /\
    (r = inl (slice (Z.to_nat off) n c) \/ exists e, r = inr e /\ jse_code e = ReadFailed).
Proof.
  intros Ho Hm Hc Hoff Hn. revert bytes s Ho Hc.
  induction fuel as [|fuel IH]; intros bytes s Ho Hc Hb Hf.
  all: cbn [pread_loop]; case_bool_decide as Hlt; simpl negb; cycle 1.
  1, 3: exists s, (inl bytes); split_and!; [done|apply quiet_refl|left]; do 2 f_equal;
    pose proof (prefix_length _ _ Hb); apply prefix_length_eq; [done|];
    unfold slice; rewrite length_take; lia.
  2: lia.
  assert (to_off_t (off + Z.of_nat (length bytes))%u64 = off + Z.of_nat (length bytes)) as ->.
  { unfold to_off_t, OFF_MAX in *. rewrite add64_small by lia. case_match; reflect; lia. }
  split_call E.
  destruct (pread_reads _ m p _ _ _ _ _ c E Ho Hm Hc) as (Hs & Hop & Hr); [unfold OFF_MAX in *; lia|].
  assert (quiet (os s) w) as Hq by done.
  rewrite Z2Nat.inj_add, Nat2Z.id in Hr by lia.
  assert (bytes = slice (Z.to_nat off) (length bytes) c) as Hbs.
  { destruct Hb as [rest Hrest]. unfold slice in *.
    rewrite <- (Nat.min_l (length bytes) n), <- take_take, Hrest by lia. by rewrite take_app_length. }
  pose proof (slice_halves (Z.to_nat off) n (length bytes) c ltac:(lia)) as Hsplit.
  rewrite <- Hbs in Hsplit.
  destruct r as [more|e].
  - destruct Hr as [Hmore Hnil]. case_bool_decide as Hm0.
    + exists (set_os w s), (inl bytes). split_and!; [done..|left]. f_equal.
      rewrite Hsplit, (Hnil Hm0). by rewrite app_nil_r.
    + destruct (IH (bytes ++ more) (set_os w s)) as (s' & r & E' & Hq' & Hr'); simpl.
      * by rewrite Hop.
      * by rewrite (quiet_contents _ _ _ Hq).
      * rewrite Hsplit. by apply prefix_app.
      * rewrite length_app. destruct more; [done|]. simpl. pose proof (sf_interruptions _ _ Hs). lia.
      * exists s', r. split_and!; [done|by eapply quiet_trans|done].
  - destruct (Z.eqb_spec e EINTR) as [->|].
    + specialize (Hr eq_refl).
      destruct (IH bytes (set_os w s)) as (s' & r & E' & Hq' & Hr'); simpl;
        [by rewrite Hop|by rewrite (quiet_contents _ _ _ Hq)|done|lia|].
      exists s', r. split_and!; [done|by eapply quiet_trans|done].
    + exists (set_os w s), (inr (make_error ReadFailed e None)). split_and!; [done..|right]. eauto.
Qed.

Lemma pread_at_most_spec fd m p off n s c :
  opened (os s) fd = Some (m, p) -> readable m = true -> contents (os s) p = Some c ->
  0 <= off -> off + Z.of_nat n <= OFF_MAX ->
  exists s' r, pread_at_most fd off n s = Returned s' r /\ quiet (os s) (os s') /\
    (r = inl (slice (Z.to_nat off) n c) \/ exists e, r = inr e /\ jse_code e = ReadFailed).
Proof.
  intros. unfold pread_at_most. rewrite (proj2 (Z.ltb_ge _ _)) by lia.
  eapply pread_loop_spec; try done; [apply prefix_nil|simpl; lia].
Qed.

Lemma file_size_spec fd m p s c :
  opened (os s) fd = Some (m, p) -> contents (os s) p = Some c ->
  exists s' r, file_size fd s = (s', r) /\ quiet (os s) (os s') /\
    (r = inl (Z.of_nat (length c)) \/ exists e, r = inr e /\ jse_code e = ReadFailed).
Proof.
  intros Ho Hc. destruct (contents_bytes _ _ _ Hc) as [_ Hl]. unfold OFF_MAX in Hl.
  unfold file_size. split_call E.
  destruct (fstat_size _ m p _ _ _ c E Ho Hc) as (Hs & Hop & Hr).
  destruct r as [size|e].
  - subst size. rewrite !(proj2 (Z.ltb_ge _ _)) by lia.
    exists (set_os w s), (inl (Z.of_nat (length c))). split_and!; [done..|by left].
  - exists (set_os w s), (inr (make_error ReadFailed e None)). split_and!; [done..|right]. by eexists.
Qed.

(** ** Scanning *)

(** The read of one iteration: a window on the rest of the file. *)
Lemma scan_window fd m p s C done rest :
  opened (os s) fd = Some (m, p) -> readable m = true -> contents (os s) p = Some C ->
  C = done ++ rest ->
  let size := Z.of_nat (length C) in
  let read_size := Z.to_nat (Z.min (size - Z.of_nat (length done))%u64
    (Z.of_nat kJournalFrameHeaderSize + kJournalMaximumPayloadLength)) in
  length (take 88 rest) = read_size /\
  exists s' r, pread_at_most fd (Z.of_nat (length done)) read_size s = Returned s' r /\
    quiet (os s) (os s') /\
    (r = inl (take 88 rest) \/ exists e, r = inr e /\ jse_code e = ReadFailed).
Proof.
  intros Ho Hm Hc HC size read_size. destruct (contents_bytes _ _ _ Hc) as [_ Hmax].
  unfold OFF_MAX in Hmax.
  assert (size = Z.of_nat (length done) + Z.of_nat (length rest)) as Hsize
    by (unfold size; rewrite HC, length_app; lia).
  assert (read_size = (length rest `min` 88)%nat) as Hread.
  { unfold read_size, kJournalMaximumPayloadLength, kJournalFrameHeaderSize.
    rewrite sub64_small by lia. lia. }
  split; [rewrite length_take; lia|].
  destruct (pread_at_most_spec fd m p (Z.of_nat (length done)) read_size s C) as (s' & r & E & Hq & Hr);
    try done; [lia|unfold OFF_MAX; lia|].
  exists s', r. split_and!; [done..|]. destruct Hr as [->|Hr]; [left|by right].
  rewrite Nat2Z.id, HC. unfold slice. rewrite drop_app_length, Hread. f_equal.
  destruct (decide (length rest <= 88)%nat); [|by rewrite Nat.min_r by lia].
  rewrite Nat.min_l by lia. by rewrite !take_ge by lia.
Qed.

Lemma scan_loop_spec fuel fd m p s C cs rest :
  opened (os s) fd = Some (m, p) -> readable m = true -> contents (os s) p = Some C ->
  C = journal_bytes cs ++ rest -> (length rest <= fuel)%nat ->
  exists s' r,
    scan_loop fuel fd (Z.of_nat (length C)) (scanned cs false) (next_after cs) s = Returned s' r /\
    quiet (os s) (os s') /\
    (scan_verdict cs rest r \/ exists e, r = inr e /\ jse_code e = ReadFailed).
Proof.
  intros Ho Hm Hc. revert s cs rest Ho Hc.
  induction fuel as [|fuel IH]; intros s cs rest Ho Hc HC Hf.
  all: assert (Z.of_nat (length C) = Z.of_nat (length (journal_bytes cs)) + Z.of_nat (length rest))
    as Hsize by (rewrite HC, length_app; lia).
  all: cbn [scan_loop]; cbn [scan_valid_size scanned].
  all: destruct (Z.ltb_spec (Z.of_nat (length (journal_bytes cs))) (Z.of_nat (length C)));
    simpl negb; [|destruct rest; [|simpl in *; lia]; exists s, (inl (scanned cs false));
      split_and!; [done|apply quiet_refl|left; constructor]].
  { lia. }
  destruct (contents_bytes _ _ _ Hc) as [HwC Hmax]. rewrite HC in HwC.
  apply wf_bytes_app in HwC as [_ Hw].
  destruct (scan_window fd m p s C (journal_bytes cs) rest Ho Hm Hc HC)
    as (Hlen & s1 & r1 & E1 & Hq1 & Hr1). cbv zeta in *.
  rewrite E1. cbn [obind]. destruct Hr1 as [->|(e & -> & He)];
    [|exists s1, (inr e); split_and!; eauto].
  rewrite bool_decide_true by done. simpl negb. cbv iota.
  assert (decode_record_prefix (take 88 rest) = decode_record_prefix rest) as Hdec.
  { rewrite !decode_record_prefix_slices by auto with bytes. by rewrite decode_window by lia. }
  rewrite Hdec. destruct (decode_record_prefix rest) as [[d|e]|] eqn:Ed.
  - destruct (Z.eqb_spec (jr_sequence (dj_record d)) (next_after cs)) as [Hs|Hs]; simpl negb; cbv iota;
      [|eexists s1, _; split_and!; [done..|left; by eapply verdict_sequence]].
    assert (decode_record_prefix rest = Some (inl d)) as Ed' by done.
    rewrite decode_record_prefix_slices in Ed by done. injection Ed as Ed.
    apply decode_slices_inv in Ed as ([_ Hcmd] & Hn & [t ->]); [|done].
    assert (journal_bytes (cs ++ [jr_command (dj_record d)])
      = journal_bytes cs ++ record_frame (dj_record d)) as Hjb.
    { rewrite journal_bytes_app, frames_from_one. unfold record_frame. by rewrite Hs. }
    pose proof (journal_next_small cs _ ltac:(by rewrite <- HC)) as Hnext.
    rewrite length_app in Hsize. unfold OFF_MAX in Hmax.
    rewrite (proj2 (Z.eqb_neq _ _)) by lia. rewrite add64_small by lia. rewrite Hn.
    rewrite add64_small by lia.
    pose proof (scanned_push cs (dj_record d) false Hs) as Hscan. cbv zeta in Hscan.
    rewrite Hscan, (next_after_push cs (jr_command (dj_record d))).
    destruct (IH s1 (cs ++ [jr_command (dj_record d)]) t) as (s2 & r & E2 & Hq2 & Hr2).
    + by rewrite (quiet_opened _ _ _ Hq1).
    + by rewrite (quiet_contents _ _ _ Hq1).
    + by rewrite Hjb, <- app_assoc.
    + rewrite length_app in Hf.
      pose proof (length_frame_bounds (jr_sequence (dj_record d)) (jr_command (dj_record d))).
      unfold record_frame in *. lia.
    + exists s2, r. split_and!; [done|by eapply quiet_trans|]. destruct Hr2 as [Hr2|]; [left|by right].
      eapply verdict_next; [done..|]. by rewrite Hn, drop_app_length.
  - case_bool_decide as He; eexists s1, _; split_and!; try done; left.
    + subst e. apply verdict_cut; [|done]. destruct rest; [|done]. simpl in *. lia.
    + by apply verdict_invalid.
  - by rewrite decode_record_prefix_slices in Ed.
Qed.

Lemma scan_descriptor_spec fd m p s C :
  opened (os s) fd = Some (m, p) -> readable m = true -> contents (os s) p = Some C ->
  exists s' r, scan_descriptor fd s = Returned s' r /\ quiet (os s) (os s') /\
    (file_verdict C r \/ exists e, r = inr e /\ jse_code e = ReadFailed).
Proof.
  intros Ho Hm Hc. unfold scan_descriptor.
  destruct (contents_bytes _ _ _ Hc) as [Hw Hmax].
  destruct (file_size_spec fd m p s C Ho Hc) as (s1 & r1 & E1 & Hq1 & Hr1). rewrite E1.
  destruct Hr1 as [->|(e & -> & He)]; [|exists s1, (inr e); split_and!; eauto].
  destruct (Z.ltb_spec (Z.of_nat (length C)) (Z.of_nat kJournalFileHeaderSize)) as [Hl|Hl];
    unfold kJournalFileHeaderSize in Hl.
  { eexists s1, _. split_and!; [done..|left]. constructor. lia. }
  assert (opened (os s1) fd = Some (m, p)) as Ho1 by (by rewrite (quiet_opened _ _ _ Hq1)).
  assert (contents (os s1) p = Some C) as Hc1 by (by rewrite (quiet_contents _ _ _ Hq1)).
  destruct (pread_at_most_spec fd m p 0 kJournalFileHeaderSize s1 C Ho1 Hm Hc1)
    as (s2 & r2 & E2 & Hq2 & Hr2); [lia|unfold OFF_MAX, kJournalFileHeaderSize; lia|].
  assert (quiet (os s) (os s2)) as Hq by (by eapply quiet_trans).
  rewrite E2. cbn [obind]. destruct Hr2 as [->|(e & -> & He)]; [|exists s2, (inr e); split_and!; eauto].
  assert (slice (Z.to_nat 0) kJournalFileHeaderSize C = take 16 C) as -> by done.
  rewrite bool_decide_true by (rewrite length_take; unfold kJournalFileHeaderSize; lia).
  simpl negb. cbv iota.
  destruct (decode_file_header (take 16 C)) as [[h|e]|] eqn:Eh.
  - apply decode_file_header_iff in Eh as [Eh _]; [|auto with bytes].
    assert (C = journal_bytes [] ++ drop 16 C) as HC.
    { unfold journal_bytes. rewrite app_nil_r, <- Eh. by rewrite take_drop. }
    destruct (scan_loop_spec (Z.to_nat (Z.of_nat (length C))) fd m p s2 C [] (drop 16 C))
      as (s3 & r & E3 & Hq3 & Hr3); try done.
    + by rewrite (quiet_opened _ _ _ Hq2).
    + by rewrite (quiet_contents _ _ _ Hq2).
    + rewrite length_drop. lia.
    + exists s3, r. split_and!; [done|by eapply quiet_trans|].
      destruct Hr3; [left|by right]. by eapply file_scanned.
  - eexists s2, _. split_and!; [done..|left]. by constructor.
  - exfalso. revert Eh. by apply decode_defined, wf_take.
Qed.

(** ** Opening and closing *)

(** Open, look, close: nothing happened. *)
Lemma open_close_quiet mode p w w1 w2 fd :
  sys_open mode p w = (w1, inl fd) -> mode <> CreateExclusive -> quiet w1 w2 ->
  quiet w (sys_close fd w2).
Proof.
  intros E Hm Hq. destruct (open_existing _ _ _ _ _ E Hm) as [Hs _].
  destruct (open_opened _ _ _ _ _ E) as (_ & Hn & Ho & Hothers).
  destruct (close_closes fd w2) as (Hc & Hcl & Hcothers). split.
  - eapply same_files_trans; [exact Hs|]. eapply same_files_trans; [apply Hq|done].
  - intros fd'. destruct (decide (fd' = fd)) as [->|Hne]; [congruence|].
    by rewrite Hcothers, (quiet_opened _ _ _ Hq), Hothers.
Qed.

Lemma close_open mode p w w1 fd s :
  sys_open mode p w = (w1, inl fd) -> os (close_descriptor fd s) = sys_close fd (os s).
Proof.
  intros E. destruct (open_opened _ _ _ _ _ E) as (Hfd & _). unfold close_descriptor.
  by rewrite (proj2 (Z.leb_le _ _)).
Qed.

Definition open_failure (e : JournalStorageError) : Prop :=
  jse_code e = FileNotFound \/ jse_code e = OpenFailed.

Lemma open_error_code e : open_failure (open_error e).
Proof. unfold open_failure, open_error. case_match; auto. Qed.

(** [scan] changes nothing and reports a failure to open or to read, or the
    verdict on the file. *)
Lemma scan_spec p s :
  exists s' r, scan p s = Returned s' r /\ quiet (os s) (os s') /\
    ((exists e, r = inr e /\ (open_failure e \/ jse_code e = ReadFailed)) \/
     exists C, contents (os s) p = Some C /\ file_verdict C r).
Proof.
  unfold scan. split_call E. destruct r as [fd|e].
  - destruct (open_opened _ _ _ _ _ E) as (_ & _ & Ho & _).
    destruct (open_existing _ _ _ _ _ E ltac:(done)) as [Hs Hp]. specialize (Hp ltac:(done)).
    destruct (contents (os s) p) as [C|] eqn:HC; [|done].
    destruct (scan_descriptor_spec fd ReadOnly p (set_os w s) C) as (s2 & r & E2 & Hq & Hr);
      [done|done|simpl; by rewrite (sf_contents _ _ Hs)|].
    rewrite E2. cbn [obind]. exists (close_descriptor fd s2), r. split_and!; [done| |].
    + rewrite (close_open _ _ _ _ _ s2 E). by eapply open_close_quiet.
    + destruct Hr as [Hr|(e & -> & He)]; [right; by exists C|left; eauto].
  - eexists _, _. split_and!; [done| |left].
    + simpl. by apply open_failed in E.
    + eexists. split; [done|]. left. apply open_error_code.
Qed.

(** The same for a descriptor opened for appending, with what the two ways of
    opening a journal do until they have a scan. *)
Lemma open_scan_spec p s :
  (exists s' e, open_existing_for_append p s = (s', inr e) /\ quiet (os s) (os s') /\ open_failure e) \/
  exists s1 fd s2 r C, open_existing_for_append p s = (s1, inl fd) /\
    sys_open ReadWriteAppend p (os s) = (os s1, inl fd) /\
    scan_descriptor fd s1 = Returned s2 r /\ quiet (os s1) (os s2) /\
    contents (os s) p = Some C /\ same_files (os s) (os s2) /\
    opened (os s2) fd = Some (ReadWriteAppend, p) /\
    (file_verdict C r \/ exists e, r = inr e /\ jse_code e = ReadFailed).
Proof.
  unfold open_existing_for_append. split_call E. destruct r as [fd|e].
  - right. destruct (open_opened _ _ _ _ _ E) as (_ & _ & Ho & _).
    destruct (open_existing _ _ _ _ _ E ltac:(done)) as [Hs Hp]. specialize (Hp ltac:(done)).
    destruct (contents (os s) p) as [C|] eqn:HC; [|done].
    destruct (scan_descriptor_spec fd ReadWriteAppend p (set_os w s) C) as (s2 & r & E2 & Hq & Hr);
      [done|done|simpl; by rewrite (sf_contents _ _ Hs)|].
    exists (set_os w s), fd, s2, r, C. split_and!; try done.
    + eapply same_files_trans; [exact Hs|apply Hq].
    + by rewrite (quiet_opened _ _ _ Hq).
  - left. eexists _, _. split_and!; [done| |apply open_error_code]. simpl. by apply open_failed in E.
Qed.

(** The writer is open on the journal of [cs] and will number the next record
    accordingly. *)
Record writer_on (p : path) (cs : list JournalCommand) (wr : JournalWriter) s : Prop := {
  wo_open : exists m, opened (os s) (jw_file_descriptor wr) = Some (m, p) /\ writable m = true;
  wo_contents : contents (os s) p = Some (journal_bytes cs);
  wo_commands : Forall wf_journal_command cs;
  wo_next : jw_next_sequence wr = Some (next_after cs);
  wo_failed : jw_failed wr = false;
}.

(** What a crash can leave: a history between [lo] and [hi]. *)
Definition survives (p : path) (lo hi : list JournalCommand) (w : W) : Prop :=
  forall c, after_crash w p c -> exists C, c = Some C /\ recoverable lo hi C.

Lemma survives_same p lo hi w w' C :
  same_files w w' -> contents w p = Some C -> recoverable lo hi C ->
  survives p lo hi w -> survives p lo hi w'.
Proof.
  intros Hs HC Hb Hsv c [Hc| ->]%(sf_crash _ _ Hs); [by apply Hsv|]. eauto.
Qed.

Lemma survives_weaken p lo lo' hi hi' w :
  lo' `prefix_of` lo -> hi `prefix_of` hi' -> survives p lo hi w -> survives p lo' hi' w.
Proof.
  intros H1 H2 Hs c (C & -> & HC)%Hs. exists C. split; [done|]. by eapply recoverable_weaken.
Qed.

(** The file holds the history [cs], maybe with a cut record behind it, and a
    crash loses nothing of [lo]. *)
Record at_rest (p : path) (lo cs : list JournalCommand) (w : W) : Prop := {
  ar_file : exists t C, contents w p = Some C /\ journal_file cs t C;
  ar_lo : lo `prefix_of` cs;
  ar_survives : survives p lo cs w;
}.

Lemma at_rest_same p lo cs w w' : same_files w w' -> at_rest p lo cs w -> at_rest p lo cs w'.
Proof.
  intros Hs [(t & C & HC & Hj) Hlo Hsv]. split; [|done|].
  - exists t, C. by rewrite (sf_contents _ _ Hs).
  - eapply survives_same; [done..| |done]. by exists cs, t.
Qed.

(** Appending a prefix of the frames of [new] extends the history by a part of
    [new]. *)
Lemma appended_at_rest p lo cs new d w w' :
  appended p d w w' -> contents w p = Some (journal_bytes cs) -> lo `prefix_of` cs ->
  Forall wf_journal_command cs -> Forall wf_journal_command new ->
  next_after cs + Z.of_nat (length new) <= U64_MOD ->
  d `prefix_of` frames_from (next_after cs) new -> survives p lo cs w ->
  exists new', new' `prefix_of` new /\ at_rest p lo (cs ++ new') w'.
Proof.
  intros Ha HC Hlo Hcs Hnew Hmax Hd Hsv.
  destruct (journal_append_prefix cs new d Hcs Hnew Hmax Hd) as (new' & t & Hn & Hj & Hrec).
  exists new'. split; [done|]. split.
  - exists t, (journal_bytes cs ++ d). by rewrite (ap_contents _ _ _ _ Ha), HC.
  - by apply prefix_app_r.
  - intros c [Hc|(old & d' & Ho & Hd' & ->)]%(ap_crash _ _ _ _ Ha).
    + eapply survives_weaken in Hsv; [by apply Hsv|done|by apply prefix_app_r].
    + rewrite HC in Ho. injection Ho as <-. eexists. split; [done|].
      eapply (recoverable_weaken cs lo); [done..|]. by apply Hrec.
Qed.

(** ** Creating *)

Lemma sync_directory_spec p s :
  exists s' r, sync_directory p s = (s', r) /\ quiet (os s) (os s') /\
    match r with
    | None => contents (os s) p <> None -> ~ after_crash (os s') p None
    | Some e => jse_code e = DirectorySyncFailed
    end.
Proof.
  unfold sync_directory. split_call E. destruct r as [fd|e].
  - destruct (open_opened _ _ _ _ _ E) as (_ & _ & Ho & _).
    destruct (open_existing _ _ _ _ _ E ltac:(done)) as [Hs _]. split_call E2.
    pose proof (fsync_files _ _ _ _ E2) as Hq. cbn [os set_os] in *.
    eexists _, _. split_and!; [done| |].
    + rewrite (close_open _ _ _ _ _ _ E). by eapply open_close_quiet.
    + destruct r; [done|]. intros Hp Hn. rewrite (close_open _ _ _ _ _ _ E) in Hn.
      destruct (close_closes fd w0) as [Hc _]. cbn [os set_os] in Hn.
      assert (contents w p <> None) as Hp' by (by rewrite (sf_contents _ _ Hs)).
      apply (sf_crash _ _ Hc) in Hn as [Hn|Hn]; [by eapply fsync_directory in Hn|].
      rewrite (sf_contents _ _ (proj1 Hq)) in Hn. done.
  - eexists _, _. split_and!; [done|by apply open_failed in E|done].
Qed.

(** [create] on a path with a file leaves it alone; otherwise it leaves nothing,
    a prefix of the header, or the durable empty journal with a writer on it. *)
Lemma create_spec p s :
  exists s' r, create p s = Returned s' r /\
    match r with
    | inl wr => contents (os s) p = None /\ writer_on p [] wr s' /\ 
                forall c, after_crash (os s') p c -> c = Some (journal_bytes [])
    | inr e =>
        (quiet (os s) (os s') /\ (jse_code e = FileAlreadyExists \/ open_failure e)) \/
        (contents (os s) p = None /\
         (exists d, contents (os s') p = Some d /\ d `prefix_of` encode_file_header) /\
         (jse_code e = WriteFailed \/ jse_code e = SyncFailed \/ jse_code e = DirectorySyncFailed))
    end.
Proof.
  unfold create. split_call E. destruct r as [fd|e]; cycle 1.
  { apply open_failed in E. case_match; eexists _, _; (split; [done|left; split; [done|]]); [by left|].
    right. apply open_error_code. }
  destruct (open_opened _ _ _ _ _ E) as (_ & _ & Ho & _).
  destruct (open_create _ _ _ _ E) as (Hn & Hempty & _ & Hcrash & _).
  destruct (write_all_spec fd CreateExclusive p encode_file_header false (set_os w s))
    as (s2 & r & d & E2 & Hd & Ha & Hr); [done|done|cbn; by rewrite Hempty|].
  rewrite E2. cbn [obind]. pose proof (ap_contents _ _ _ _ Ha) as Hc2. cbn in Hc2.
  rewrite Hempty in Hc2. simpl in Hc2.
  assert (forall s4, same_files (os s2) (os s4) ->
    exists d, contents (os (close_descriptor fd s4)) p = Some d /\ d `prefix_of` encode_file_header) as Hleft.
  { intros s4 Hs4. exists d. split; [|done]. rewrite (close_open _ _ _ _ _ s4 E).
    destruct (close_closes fd (os s4)) as [Hcl _]. by rewrite (sf_contents _ _ Hcl), (sf_contents _ _ Hs4). }
  destruct r as [e|]; [eexists _, _; split; [done|right]; split_and!; auto with posix|subst d].
  split_call E3. pose proof (fsync_files _ _ _ _ E3) as Hq3. destruct r as [e|].
  { eexists _, _; split; [done|right]. split_and!; [done| |by auto]. apply Hleft, Hq3. }
  destruct (sync_directory_spec p (set_os w0 s2)) as (s4 & r & E4 & Hq4 & Hr4). cbn [os set_os] in *.
  assert (quiet (os s2) (os s4)) as Hq by (by eapply quiet_trans).
  rewrite E4. destruct r as [e|].
  { eexists _, _; split; [done|right]. split_and!; [done| |by auto]. apply Hleft, Hq. }
  assert (contents (os s4) p = Some encode_file_header) as Hc4 by (by rewrite (quiet_contents _ _ _ Hq)).
  assert (opened (os s2) fd = Some (CreateExclusive, p)) as Ho2 by (by rewrite (ap_opened _ _ _ _ Ha)).
  eexists _, _. split; [done|]. split_and!; [done| |].
  - split; try done. exists CreateExclusive. cbn. by rewrite (quiet_opened _ _ _ Hq).
  - intros c Hc. change (journal_bytes []) with (encode_file_header ++ []). rewrite app_nil_r.
    apply (sf_crash _ _ (proj1 Hq4)) in Hc as Hc'. rewrite (quiet_contents _ _ _ Hq3), Hc2 in Hc'.
    destruct Hc' as [Hc'| ->]; [|done].
    eapply fsync_durable in Hc'; [|exact E3|exact Ho2|done]. rewrite Hc2 in Hc'.
    destruct Hc' as [->| ->]; [done|]. exfalso. apply Hr4; [|done].
    by rewrite (quiet_contents _ _ _ Hq3), Hc2.
Qed.

(** ** Opening after recovery *)

Lemma close_quiet mode p w w1 fd s :
  sys_open mode p w = (w1, inl fd) -> mode <> CreateExclusive -> quiet w1 (os s) ->
  quiet w (os (close_descriptor fd s)).
Proof. intros E Hm Hq. rewrite (close_open _ _ _ _ _ s E). by eapply open_close_quiet. Qed.

Lemma open_recovered_spec p s :
  exists s' r, open_recovered p s = Returned s' r /\
    match r with
    | inl wr => exists cs, contents (os s) p = Some (journal_bytes cs) /\
        writer_on p cs wr s' /\ same_files (os s) (os s')
    | inr e => quiet (os s) (os s') /\
        (open_failure e \/ jse_code e = ReadFailed \/
         exists C, contents (os s) p = Some C /\
           (file_verdict C (inr e) \/
            (exists cs t, journal_file cs t C /\ t <> []) /\ jse_code e = TruncatedTailRequiresRepair))
    end.
Proof.
  unfold open_recovered.
  destruct (open_scan_spec p s) as [(s1 & e & -> & Hq & He)|(s1 & fd & s2 & r & C & -> & E & E2 & Hq & HC & Hs & Ho & Hr)].
  { eexists _, _. split; [done|]. split; auto. }
  destruct (contents_bytes _ _ _ HC) as [Hw _].
  assert (quiet (os s) (os (close_descriptor fd s2))) as Hqc by (by eapply close_quiet).
  rewrite E2. cbn [obind]. destruct r as [sc|e].
  - destruct Hr as [Hv|(e & ? & _)]; [|done].
    destruct (file_verdict_sound C (inl sc) Hw Hv) as (cs & t & Hj & ->). cbn [scan_has_truncated_tail scanned].
    case_bool_decide as Ht.
    + eexists _, _. split; [done|]. split; [done|]. right; right. exists C. split; [done|right].
      split; [by exists cs, t|done].
    + subst t. destruct Hj as (-> & Hcs & _). rewrite app_nil_r in HC.
      eexists _, _. split; [done|]. exists cs. split_and!; [done| |done].
      split; try done; [by exists ReadWriteAppend|]. by rewrite (sf_contents _ _ Hs).
  - eexists _, _. split; [done|]. split; [done|]. right.
    destruct Hr as [Hv|(e' & [= <-] & He)]; [right|by left]. exists C. split; auto.
Qed.

(** ** Repairing *)

(** The file was cut to [C']; a crash may leave the old or the new contents. *)
Definition cut_to (p : path) (C C' : list byte) (w w' : W) : Prop :=
  contents w' p = Some C' /\
  forall c, after_crash w' p c -> after_crash w p c \/ c = Some C \/ c = Some C'.

Lemma cut_at_rest p lo cs t w w' :
  at_rest p lo cs w -> journal_file cs t (journal_bytes cs ++ t) ->
  cut_to p (journal_bytes cs ++ t) (journal_bytes cs) w w' -> at_rest p lo cs w'.
Proof.
  intros [_ Hlo Hsv] Hj [Hc Hcr]. pose proof Hj as (_ & Hcs & _). split; [|done|].
  - exists [], (journal_bytes cs). split; [done|by apply journal_file_clean].
  - intros c [H|[->| ->]]%Hcr; [by apply Hsv|..]; eexists; (split; [done|]);
      [by exists cs, t|exists cs, []]. by split; [apply journal_file_clean|].
Qed.

Lemma repair_spec p s :
  exists s' r, repair_truncated_tail_and_open p s = Returned s' r /\
    match r with
    | inl wr => exists cs t, contents (os s) p = Some (journal_bytes cs ++ t) /\ t <> [] /\
        journal_file cs t (journal_bytes cs ++ t) /\ writer_on p cs wr s' /\
        cut_to p (journal_bytes cs ++ t) (journal_bytes cs) (os s) (os s') /\
        forall c, after_crash (os s') p c -> c = Some (journal_bytes cs) \/ c = None
    | inr e =>
        (quiet (os s) (os s') /\
         (open_failure e \/ jse_code e = ReadFailed \/ jse_code e = TruncateFailed \/
          exists C, contents (os s) p = Some C /\
            (file_verdict C (inr e) \/
             (exists cs, journal_file cs [] C) /\ jse_code e = NoTruncatedTail))) \/
        (jse_code e = SyncFailed /\ exists cs t, contents (os s) p = Some (journal_bytes cs ++ t) /\
           journal_file cs t (journal_bytes cs ++ t) /\
           cut_to p (journal_bytes cs ++ t) (journal_bytes cs) (os s) (os s'))
    end.
Proof.
  unfold repair_truncated_tail_and_open.
  destruct (open_scan_spec p s) as [(s1 & e & -> & Hq & He)|(s1 & fd & s2 & r & C & -> & E & E2 & Hq & HC & Hs & Ho & Hr)].
  { eexists _, _. split; [done|left]. split; auto. }
  destruct (contents_bytes _ _ _ HC) as [Hw Hmax].
  assert (quiet (os s) (os (close_descriptor fd s2))) as Hqc by (by eapply close_quiet).
  rewrite E2. cbn [obind]. destruct r as [sc|e]; cycle 1.
  { eexists _, _. split; [done|left]. split; [done|]. right.
    destruct Hr as [Hv|(e' & [= <-] & He)]; [do 2 right; exists C; split; auto|by left]. }
  destruct Hr as [Hv|(e & ? & _)]; [|done].
  destruct (file_verdict_sound C (inl sc) Hw Hv) as (cs & t & Hj & ->).
  cbn [scan_has_truncated_tail scan_valid_size scan_next_sequence scanned].
  case_bool_decide as Ht; simpl negb; cbv iota; cycle 1.
  { subst t. eexists _, _. split; [done|left]. split; [done|]. do 3 right.
    exists C. eauto. }
  pose proof Hj as (HCt & Hcs & _). subst C. rewrite length_app in Hmax.
  rewrite (proj2 (Z.ltb_ge _ _)) by lia. split_call E3.
  assert (contents (os s2) p = Some (journal_bytes cs ++ t)) as HC2
    by (by rewrite (sf_contents _ _ Hs)).
  destruct r as [e|].
  { eexists _, _. split; [done|left]. split; [|by auto].
    apply ftruncate_failed in E3. eapply (close_quiet _ _ _ _ _ _ E); [done|]. by eapply quiet_trans. }
  destruct (ftruncate_takes _ _ _ _ _ _ _ E3 Ho eq_refl HC2) as (Hc3 & _ & Ho3 & Hcr3 & _);
    [rewrite length_app; lia|].
  rewrite Nat2Z.id, take_app_length in Hc3, Hcr3. split_call E4. cbn [os set_os] in *.
  pose proof (fsync_files _ _ _ _ E4) as Hq4.
  assert (cut_to p (journal_bytes cs ++ t) (journal_bytes cs) (os s) w0) as Hcut.
  { split; [by rewrite (quiet_contents _ _ _ Hq4)|]. intros c Hc.
    apply (sf_crash _ _ (proj1 Hq4)) in Hc as [Hc|Hc]; [|rewrite Hc3 in Hc; auto].
    apply Hcr3 in Hc as [Hc|Hc]; [|auto]. apply (sf_crash _ _ Hs) in Hc as [Hc|Hc]; [auto|].
    rewrite HC in Hc. auto. }
  destruct r as [e|].
  - eexists _, _. split; [done|right]. split; [done|]. exists cs, t. split_and!; [done..|].
    rewrite (close_open _ _ _ _ _ _ E). cbn [os set_os]. destruct (close_closes fd w0) as [Hcl _].
    destruct Hcut as [H1 H2]. split; [by rewrite (sf_contents _ _ Hcl)|].
    intros c [Hc|Hc]%(sf_crash _ _ Hcl); [by apply H2|]. rewrite H1 in Hc. auto.
  - eexists _, _. split; [done|]. exists cs, t. split_and!; try done.
    + split; try done; [|by apply Hcut]. exists ReadWriteAppend. cbn. 
      by rewrite (quiet_opened _ _ _ Hq4), Ho3.
    + cbn. intros c Hc. eapply fsync_durable in Hc; [|exact E4|by rewrite Ho3|done].
      by rewrite Hc3 in Hc.
Qed.

(** ** Appending *)

(** Preparation encodes the commands under consecutive sequence numbers, unless
    an allocation fails or the sizes do not fit; it never crashes. *)
Lemma prepare_frames_spec bad first index total commands :
  0 < first -> first + Z.of_nat index + Z.of_nat (length commands) <= U64_MOD ->
  is_u64 total ->
  let n := first + Z.of_nat index in
  match prepare_frames bad first index total commands with
  | Returned _ (inl (frames, seqs)) =>
      frames = record_frame <$> records_from n commands /\ seqs = seqZ n (Z.of_nat (length commands))
  | Returned _ (inr e) =>
      jse_code e = CodecFailure /\ U64_MAX < total + Z.of_nat (length (frames_from n commands))
  | Threw _ => bad <> None
  | Crashed _ => False
  end.
Proof.
  intros Hfirst. revert index total. induction commands as [|c cs IH]; intros index total Hmax Ht n.
  { done. }
  cbn [prepare_frames]. cbn [length] in Hmax. case_bool_decide as Hb; [by rewrite Hb|].
  rewrite add64_small by lia. fold n. rewrite encode_record_frame, (proj2 (Z.eqb_neq _ _)) by (unfold n; lia).
  unfold is_u64 in Ht. rewrite sub64_small by lia.
  assert (length (frames_from n (c :: cs))
    = (length (frame n c) + length (frames_from (n + 1) cs))%nat) as Hlen
    by (rewrite frames_from_cons; apply length_app).
  destruct (Z.ltb_spec (U64_MAX - total) (Z.of_nat (length (frame n c)))); [split; [done|lia]|].
  rewrite add64_small by lia.
  specialize (IH (S index) (total + Z.of_nat (length (frame n c))) ltac:(lia) ltac:(unfold is_u64; lia)).
  cbv zeta in IH. replace (first + Z.of_nat (S index)) with (n + 1) in IH by (unfold n; lia).
  destruct (prepare_frames _ _ _ _ cs) as [u [[frames seqs]|e]|u|]; cbn [obind]; try done.
  - destruct IH as [-> ->]. split; [done|]. cbn [length].
    rewrite (seqZ_cons n) by lia. do 2 f_equal; lia.
  - split; [by apply IH|lia].
Qed.

Lemma append_sync_spec fd m p s C :
  opened (os s) fd = Some (m, p) -> writable m = true -> contents (os s) p = Some C ->
  exists s' r, append_sync fd s = (s', r) /\ quiet (os s) (os s') /\
    match r with
    | None => forall c, after_crash (os s') p c -> c = Some C \/ c = None
    | Some e => jse_code e = SyncFailed
    end.
Proof.
  intros Ho Hm HC. assert (m <> DirectoryOnly) as Hm' by (by intros ->).
  unfold append_sync, append_path_sync. destruct (append_io_test_active s).
  - destruct (fail_next_sync _).
    { eexists _, _. split; [done|]. split; [apply quiet_refl|done]. }
    split_call E. pose proof (fsync_files _ _ _ _ E) as Hq. destruct r; eexists _, _; split_and!; try done.
    intros c Hc. rewrite <- HC. by eapply fsync_durable.
  - split_call E. pose proof (fsync_files _ _ _ _ E) as Hq. destruct r; eexists _, _; split_and!; try done.
    intros c Hc. rewrite <- HC. by eapply fsync_durable.
Qed.

(** A batch that is refused before anything is written. *)
Definition append_refused (bad : option nat) (cs commands : list JournalCommand)
    (e : JournalStorageError) : Prop :=
  (jse_code e = EmptyBatch /\ commands = []) \/
  (jse_code e = SequenceExhausted /\ U64_MAX < Z.of_nat (length cs) + Z.of_nat (length commands)) \/
  (jse_code e = CodecFailure /\
   (bad <> None \/ U64_MAX < Z.of_nat (length (frames_from (next_after cs) commands)))).

(** The writer after a successful append. *)
Lemma writer_on_extended p cs commands wr s s' :
  writer_on p cs wr s -> Forall wf_journal_command commands ->
  contents (os s') p = Some (journal_bytes (cs ++ commands)) ->
  (forall fd, opened (os s') fd = opened (os s) fd) ->
  let next :=
    if Z.of_nat (length commands) =? U64_MAX - next_after cs + 1 then None
    else Some (add64 (next_after cs) (Z.of_nat (length commands))) in
  writer_on p (cs ++ commands) (mkJournalWriter (jw_file_descriptor wr) next false) s'.
Proof.
  intros [(m & Ho & Hm) HC Hcs Hnext Hfail] Hwf HC' Hop. cbv zeta.
  destruct (contents_bytes _ _ _ HC') as [_ Hmax].
  pose proof (journal_next_small (cs ++ commands) [] ltac:(by rewrite app_nil_r)) as Hsmall.
  assert (next_after (cs ++ commands) = next_after cs + Z.of_nat (length commands)) as Hna
    by (unfold next_after; rewrite length_app; lia).
  assert (0 < next_after cs) by (unfold next_after; lia).
  rewrite (proj2 (Z.eqb_neq _ _)) by lia. rewrite add64_small by lia. rewrite <- Hna.
  split; cbn [jw_file_descriptor jw_next_sequence jw_failed]; try done.
  - exists m. by rewrite Hop.
  - by apply Forall_app.
Qed.

Lemma append_batch_spec bad commands p cs wr s :
  writer_on p cs wr s ->
  exists s' wr' r, append_batch_and_sync bad commands wr s = Returned s' (wr', r) /\
    match r with
    | inl seqs =>
        Forall wf_journal_command commands -> 
        seqs = seqZ (next_after cs) (Z.of_nat (length commands)) /\ commands <> [] /\
        writer_on p (cs ++ commands) wr' s' /\
        appended p (frames_from (next_after cs) commands) (os s) (os s') /\
        forall c, after_crash (os s') p c -> c = Some (journal_bytes (cs ++ commands)) \/ c = None
    | inr e =>
        (s' = s /\ wr' = wr /\ append_refused bad cs commands e) \/
        (wr' = set_failed wr /\ (jse_code e = WriteFailed \/ jse_code e = SyncFailed) /\
         next_after cs + Z.of_nat (length commands) <= U64_MOD /\
         exists d, d `prefix_of` frames_from (next_after cs) commands /\ appended p d (os s) (os s'))
    end.
Proof.
  intros Hw. destruct Hw as [(m & Ho & Hm) HC Hcs Hnext Hfail].
  destruct (contents_bytes _ _ _ HC) as [_ Hmax].
  pose proof (journal_next_small cs [] ltac:(by rewrite app_nil_r)) as Hsmall.
  unfold append_batch_and_sync. rewrite Hfail, Hnext. unfold append_refused.
  case_bool_decide as Hne; [eexists s, wr, _; split; [done|left]; auto 10|].
  rewrite sub64_small by lia. rewrite add64_small by lia.
  destruct (Z.ltb_spec (U64_MAX - next_after cs + 1) (Z.of_nat (length commands))) as [Hx|Hx].
  { eexists s, wr, _; split; [done|left]. split_and!; [done..|right; left].
    split; [done|]. unfold next_after in *. lia. }
  pose proof (prepare_frames_spec bad (next_after cs) 0 0 commands ltac:(lia) ltac:(lia) ltac:(done)) as Hp.
  cbv zeta in Hp. rewrite Z.add_0_r in Hp.
  destruct (prepare_frames bad _ 0 0 commands) as [u [[frames seqs]|e]|u|]; [| | |done].
  - destruct Hp as [-> ->].
    destruct (write_frames_spec (jw_file_descriptor wr) m p
      (record_frame <$> records_from (next_after cs) commands) s Ho Hm) as (s1 & r & d & E & Hd & Ha & Hr);
      [by rewrite HC|]. fold (frames_from (next_after cs) commands) in *.
    rewrite E. cbn [obind]. destruct r as [e|].
    { eexists s1, _, _. split; [done|right]. split_and!; [done|by left|lia|by exists d]. }
    subst d. assert (contents (os s1) p = Some (journal_bytes (cs ++ commands))) as HC1
      by (by rewrite (ap_contents _ _ _ _ Ha), HC, journal_bytes_app).
    destruct (append_sync_spec (jw_file_descriptor wr) m p s1 (journal_bytes (cs ++ commands)))
      as (s2 & r & E2 & Hq & Hr2); [by rewrite (ap_opened _ _ _ _ Ha)|done|done|].
    assert (appended p (frames_from (next_after cs) commands) (os s) (os s2)) as Ha2.
    { rewrite <- (app_nil_r (frames_from _ _)). eapply appended_trans; [done|].
      apply quiet_appended; [by rewrite HC1|done]. }
    rewrite E2. destruct r as [e|].
    { eexists s2, _, _. split; [done|right]. split_and!; [done|by right|lia|by eexists]. }
    eexists s2, _, _. split; [done|]. intros Hwf. split_and!; try done.
    eapply writer_on_extended; [by split; eauto|done|by rewrite (quiet_contents _ _ _ Hq)|].
    apply Ha2.
  - eexists s, wr, _; split; [done|left]. split_and!; [done..|do 2 right].
    destruct Hp as [? Hp]. rewrite Z.add_0_l in Hp. by auto.
  - eexists s, wr, _; split; [done|left]. split_and!; [done..|do 2 right]. by auto.
Qed.

(** ** Properties *)

(** C23: scanning is total and exact.  Whatever is in the file and whatever the
    reads do (short counts, interruptions, failures), [JournalReader::scan]
    returns and changes nothing; unless the file cannot be opened or read, it
    accepts the file exactly when it holds the records of some commands with
    consecutive sequence numbers from 1, followed by nothing or by an
    [incomplete_frame], and then it reports exactly these records, their length and
    whether there is such a tail.  So a complete frame that is damaged is an
    error; but up to 23 bytes at the end are taken for an incomplete frame,
    whatever they are. *)
Theorem scan_correct p s :
  exists s' r, scan p s = Returned s' r /\ quiet (os s) (os s') /\
    match r with
    | inl sc => exists C cs t, contents (os s) p = Some C /\ journal_file cs t C /\
        sc = scanned cs (bool_decide (t <> []))
    | inr e => open_failure e \/ jse_code e = ReadFailed \/
        exists C, contents (os s) p = Some C /\
          (jse_code e = InvalidJournal \/ jse_code e = SequenceViolation) /\
          forall cs t, ~ journal_file cs t C
    end.
Proof.
  destruct (scan_spec p s) as (s' & r & E & Hq & Hr). exists s', r. split_and!; [done..|].
  destruct Hr as [(e & -> & He)|(C & HC & Hv)]; [tauto|].
  destruct (contents_bytes _ _ _ HC) as [Hw Hmax]. pose proof (file_verdict_sound C r Hw Hv) as Hs.
  destruct r as [sc|e]; [destruct Hs as (cs & t & Hj & Hsc); by exists C, cs, t|].
  do 2 right. exists C. split_and!; [done..|]. intros cs t Hj.
  by apply (file_verdict_complete cs t) in Hv.
Qed.

(** C36: creating a journal never touches an existing file.  On success the file
    did not exist, the writer is on the empty journal and a crash keeps it; when
    a write or sync fails the new file holds a prefix of the header. *)
Theorem create_correct p s :
  exists s' r, create p s = Returned s' r /\
    (forall C, contents (os s) p = Some C -> quiet (os s) (os s')) /\
    match r with
    | inl wr => contents (os s) p = None /\ writer_on p [] wr s' /\
        forall c, after_crash (os s') p c -> c = Some (journal_bytes [])
    | inr e =>
        (quiet (os s) (os s') /\ (jse_code e = FileAlreadyExists \/ open_failure e)) \/
        ((exists d, contents (os s') p = Some d /\ d `prefix_of` encode_file_header) /\
         (jse_code e = WriteFailed \/ jse_code e = SyncFailed \/ jse_code e = DirectorySyncFailed))
    end.
Proof.
  destruct (create_spec p s) as (s' & r & E & Hr). exists s', r. split; [done|].
  destruct r as [wr|e].
  - destruct Hr as (Hn & Hr). split; [|done]. intros C HC. congruence.
  - destruct Hr as [[Hq He]|(Hn & Hd & He)].
    + split; [done|by left].
    + split; [|by right]. intros C HC. congruence.
Qed.

(** Reopening a journal.  [open_recovered] opens a journal without a cut
    tail and refuses one with it, leaving the file alone.
    [repair_truncated_tail_and_open] refuses a journal without one; otherwise it
    cuts the file to exactly its complete records, which a crash then keeps;
    either writer goes on with the next sequence number. *)
Theorem reopen_correct p s C cs t :
  contents (os s) p = Some C -> journal_file cs t C -> ~ after_crash (os s) p None ->
  (exists s' r, open_recovered p s = Returned s' r /\
    match r with
    | inl wr => t = [] /\ writer_on p cs wr s' /\ same_files (os s) (os s')
    | inr e => quiet (os s) (os s') /\
        (open_failure e \/ jse_code e = ReadFailed \/
         (t <> [] /\ jse_code e = TruncatedTailRequiresRepair))
    end) /\
  (exists s' r, repair_truncated_tail_and_open p s = Returned s' r /\
    match r with
    | inl wr => t <> [] /\ writer_on p cs wr s' /\
        forall c, after_crash (os s') p c -> c = Some (journal_bytes cs)
    | inr e =>
        (quiet (os s) (os s') /\
         (open_failure e \/ jse_code e = ReadFailed \/ jse_code e = TruncateFailed \/
          (t = [] /\ jse_code e = NoTruncatedTail))) \/
        (jse_code e = SyncFailed /\ contents (os s') p = Some (journal_bytes cs))
    end).
Proof.
  intros HC Hj Hnone. destruct (contents_bytes _ _ _ HC) as [Hw Hmax].
  assert (forall cs' t', contents (os s) p = Some (journal_bytes cs' ++ t') ->
    journal_file cs' t' (journal_bytes cs' ++ t') -> cs' = cs /\ t' = t) as Huniq.
  { intros cs' t' HC' Hj'. rewrite HC in HC'. injection HC' as ->. by eapply journal_file_unique. }
  split.
  - destruct (open_recovered_spec p s) as (s' & r & E & Hr). exists s', r. split; [done|].
    destruct r as [wr|e].
    + destruct Hr as (cs' & HC' & Hwr & Hs).
      destruct (Huniq cs' []) as [-> <-]; [by rewrite app_nil_r|split_and!; auto; apply Hwr|done].
    + destruct Hr as [Hq Hr]. split; [done|]. destruct Hr as [?|[?|(C' & HC' & Hr)]]; [by auto..|].
      rewrite HC in HC'. injection HC' as <-. destruct Hr as [Hv|[(cs' & t' & Hj' & Hne) He]].
      * by apply (file_verdict_complete cs t) in Hv.
      * destruct (journal_file_unique cs' t' cs t C) as [_ ->]; auto.
  - destruct (repair_spec p s) as (s' & r & E & Hr). exists s', r. split; [done|].
    destruct r as [wr|e].
    + destruct Hr as (cs' & t' & HC' & Hne & Hj' & Hwr & [_ Hcut] & Hcr).
      destruct (Huniq cs' t' HC' Hj') as [-> ->]. split_and!; [done..|].
      intros c Hc. destruct (Hcr c Hc) as [->| ->]; [done|].
      by destruct (Hcut _ Hc) as [?|[|]].
    + destruct Hr as [[Hq Hr]|(He & cs' & t' & HC' & Hj' & [Hc _])]; cycle 1.
      { destruct (Huniq cs' t' HC' Hj') as [-> ->]. by right. }
      left. split; [done|]. destruct Hr as [?|[?|[?|(C' & HC' & Hr)]]]; [by auto..|].
      rewrite HC in HC'. injection HC' as <-. destruct Hr as [Hv|[[cs' Hj'] He]].
      * by apply (file_verdict_complete cs t) in Hv.
      * destruct (journal_file_unique cs' [] cs t C) as [_ <-]; auto 10.
Qed.

(** C22: appending a batch is all or fail-stop.  When it succeeds the commands
    got the next sequence numbers, the file is the old journal with exactly
    their records behind it, nothing else can be found after a crash (the
    directory entry apart), and the writer goes on from there.  A refused batch
    changes nothing.  When a write or the sync fails, at most a prefix of the
    new records was appended and the writer refuses every later batch without
    touching the file.  [append_and_sync] is the batch of one command. *)
Theorem append_correct bad commands p cs wr s :
  writer_on p cs wr s -> Forall wf_journal_command commands ->
  exists s' wr' r, append_batch_and_sync bad commands wr s = Returned s' (wr', r) /\
    match r with
    | inl seqs =>
        seqs = seqZ (next_after cs) (Z.of_nat (length commands)) /\ commands <> [] /\
        writer_on p (cs ++ commands) wr' s' /\
        forall c, after_crash (os s') p c -> c = Some (journal_bytes (cs ++ commands)) \/ c = None
    | inr e =>
        (s' = s /\ wr' = wr /\ append_refused bad cs commands e) \/
        ((jse_code e = WriteFailed \/ jse_code e = SyncFailed) /\
         (exists d, d `prefix_of` frames_from (next_after cs) commands /\ appended p d (os s) (os s')) /\
         forall bad' commands' s2, append_batch_and_sync bad' commands' wr' s2
           = Returned s2 (wr', inr (make_error WriterFailed 0 None)))
    end /\
    forall c, commands = [c] -> append_and_sync bad c wr s
      = Returned s' (wr', match r with inl _ => inl (next_after cs) | inr e => inr e end).
Proof.
  intros Hw Hwf. destruct (append_batch_spec bad commands p cs wr s Hw) as (s' & wr' & r & E & Hr).
  exists s', wr', r. split; [done|]. split.
  - destruct r as [seqs|e].
    + destruct (Hr Hwf) as (Hseqs & Hne & Hw' & _ & Hc). done.
    + destruct Hr as [?|(-> & He & _ & Hd)]; [by left|right]. split_and!; done.
  - intros c ->. unfold append_and_sync. rewrite E. cbn [obind]. destruct r as [seqs|e]; [|done].
    destruct (Hr Hwf) as (-> & _). done.
Qed.

End io.

(** ** Witnesses *)

Definition sample_proc (C : option (list byte)) (script : list fault) : Proc MemWorld :=
  mkProc (world_with C script) (mkAppendIoTestState None false 0 0) false.

Definition sample_cs : list JournalCommand :=
  [SubmitLimitOrderCommand (mkNewLimitOrder 1 Buy 100 5); CancelOrderCommand 1].

(** The journal of the two commands, cut in the middle of the second record. *)
Definition sample_cut : list byte := take 80 (journal_bytes sample_cs).

Definition sample_torn_script : list fault := [Normal; Short 3; Failing EINTR; Short 9; Normal].

Definition scan_of (m : outcome (Proc MemWorld) JournalScanResult) : option JournalScan :=
  match m with Returned _ (inl sc) => Some sc | _ => None end.

Lemma scan_correct_witness :
  scan_of (scan sample_path (sample_proc (Some sample_cut) sample_torn_script))
    = Some (scanned (take 1 sample_cs) true) /\
  exists s' r, scan sample_path (sample_proc (Some sample_cut) sample_torn_script) = Returned s' r /\
    quiet (os (sample_proc (Some sample_cut) sample_torn_script)) (os s').
Proof.
  split; [vm_compute; reflexivity|].
  destruct (scan_correct sample_path (sample_proc (Some sample_cut) sample_torn_script))
    as (s' & r & E & Hq & _).
  exists s', r. split; assumption.
Defined.

Definition writer_of (m : outcome (Proc MemWorld) (JournalWriter + JournalStorageError))
  : option JournalWriter :=
  match m with Returned _ (inl wr) => Some wr | _ => None end.

Definition proc_after {A} (m : outcome (Proc MemWorld) A) (s : Proc MemWorld) : Proc MemWorld :=
  match m with Returned s' _ => s' | _ => s end.

(** The writer and the process after [create] on an empty disk, in which the
    header is written in three pieces. *)
Definition sample_create : outcome (Proc MemWorld) (JournalWriter + JournalStorageError) :=
  create sample_path (sample_proc None [Normal; Short 3; Failing EINTR; Short 9]).

Definition sample_writer : JournalWriter := mkJournalWriter 3 (Some 1) false.

Definition sample_created : Proc MemWorld := proc_after sample_create (sample_proc None []).

Lemma create_correct_witness :
  writer_of sample_create = Some sample_writer /\
  exists s' r, sample_create = Returned s' r /\
    match r with inl wr => writer_on sample_path [] wr s' | inr _ => False end.
Proof.
  split; [vm_compute; reflexivity|].
  destruct (create_correct sample_path (sample_proc None [Normal; Short 3; Failing EINTR; Short 9]))
    as (s' & r & E & _ & Hr). exists s', r. split; [exact E|].
  destruct r as [wr|e]; [apply Hr|]. exfalso.
  assert (writer_of sample_create = None) as H by (unfold sample_create; rewrite E; reflexivity).
  vm_compute in H. discriminate.
Defined.

Lemma sample_writer_on : writer_on sample_path [] sample_writer sample_created.
Proof.
  split; try reflexivity; [|constructor]. exists CreateExclusive. vm_compute. by split.
Qed.

Lemma sample_cs_wf : Forall wf_journal_command sample_cs.
Proof. decide_now. Qed.

Definition seqs_of (m : outcome (Proc MemWorld) (JournalWriter * JournalAppendBatchResult))
  : option (list Z) :=
  match m with Returned _ (_, inl seqs) => Some seqs | _ => None end.

Lemma append_correct_witness :
  seqs_of (append_batch_and_sync None sample_cs sample_writer sample_created) = Some [1; 2] /\
  exists s' wr' r,
    append_batch_and_sync None sample_cs sample_writer sample_created = Returned s' (wr', r) /\
    match r with inl _ => writer_on sample_path sample_cs wr' s' | inr _ => False end.
Proof.
  assert (seqs_of (append_batch_and_sync None sample_cs sample_writer sample_created) = Some [1; 2])
    as H by (vm_compute; reflexivity).
  split; [exact H|].
  destruct (append_correct None sample_cs sample_path [] sample_writer sample_created
    sample_writer_on sample_cs_wf) as (s' & wr' & r & E & Hr & _).
  exists s', wr', r. split; [exact E|]. destruct r as [seqs|e]; [apply Hr|].
  rewrite E in H. discriminate H.
Defined.

Lemma sample_cut_file :
  journal_file (take 1 sample_cs) (drop 65 sample_cut) sample_cut.
Proof.
  split_and!; [vm_compute; reflexivity|decide_now|right; left; vm_compute; lia].
Qed.

Lemma reopen_correct_witness :
  writer_of (repair_truncated_tail_and_open sample_path (sample_proc (Some sample_cut) []))
    = Some (mkJournalWriter 3 (Some 2) false) /\
  exists s' r, repair_truncated_tail_and_open sample_path (sample_proc (Some sample_cut) [])
      = Returned s' r /\
    match r with inl wr => writer_on sample_path (take 1 sample_cs) wr s' | inr _ => False end.
Proof.
  assert (writer_of (repair_truncated_tail_and_open sample_path (sample_proc (Some sample_cut) []))
    = Some (mkJournalWriter 3 (Some 2) false)) as H by (vm_compute; reflexivity).
  split; [exact H|].
  destruct (reopen_correct sample_path (sample_proc (Some sample_cut) []) sample_cut
    (take 1 sample_cs) (drop 65 sample_cut)) as (_ & s' & r & E & Hr).
  - vm_compute. reflexivity.
  - apply sample_cut_file.
  - intros Hn. change (None ∈ [Some sample_cut]) in Hn.
    apply list_elem_of_singleton in Hn. discriminate Hn.
  - exists s', r. split; [exact E|]. destruct r as [wr|e]; [apply Hr|].
    rewrite E in H. discriminate H.
Defined.
