(* ===== verification/DurableEngine.v ===== *)
(** * The durable engine (definitions)

    include/matching/durable_engine.hpp and src/durable_engine.cpp: a command
    is written to the journal and synced, then applied to the book; recovery
    repairs a cut tail and replays the journal into a new book.  Exceptions
    while commands are applied or replayed come from failed allocations of the
    book (the faults of [OrderBook.submit]), from the allocations of the engine
    itself and from the hook of the tests; which of them throw is a parameter
    of the operation. *)
From S2P Require Import Prelude Types Bytes OrderBook Journal Posix JournalStorage.
Import JournalStorage.

Inductive DurableEngineErrorCode :=
| JournalFailure
| ApplicationFailure
| RecoveryReplayFailure
| EngineFailed.

Record DurableEngineError := mkDurableEngineError {
  dee_code : DurableEngineErrorCode;
  dee_journal_error : option JournalStorageError;
}.

Inductive DurableEngineState := Healthy | Failed.

#[export] Instance DurableEngineState_eq_dec : EqDecision DurableEngineState.
Proof. solve_decision. Defined.

Record DurableEngine := mkDurableEngine {
  de_order_book : Impl;
  de_writer : JournalWriter;
  de_state : DurableEngineState;
}.

(** [std::variant<SubmitResult, CancelResult>]. *)
Inductive BatchCommandResult :=
| BatchSubmit (r : SubmitResult)
| BatchCancel (r : CancelResult).

Abbreviation CreateResult := (DurableEngine + DurableEngineError)%type (only parsing).
Abbreviation BatchResult := (list BatchCommandResult + DurableEngineError)%type (only parsing).

(** What throws during an operation of the engine. *)
Record EngineFaults := mkEngineFaults {
  (** the iteration of the preparation loop in which an allocation fails *)
  prepare_fault : option nat;
  (** [results.reserve] or [make_unique<OrderBook>] *)
  engine_alloc_fault : bool;
  (** the hook of the tests, when it is set: does it throw at this index? *)
  before_batch_apply_hook : option (nat -> bool);
  (** the allocations of the book while it executes the command at an index *)
  book_fault : nat -> option AllocSite;
}.

Definition no_faults : EngineFaults := mkEngineFaults None false None (fun _ => None).

Module Durable.

Definition run_before_batch_apply_hook (faults : EngineFaults) (index : nat) : bool :=
  match before_batch_apply_hook faults with
  | None => false
  | Some hook => hook index
  end.

Definition journal_failure (error : JournalStorageError) : DurableEngineError :=
  mkDurableEngineError JournalFailure (Some error).

Definition application_failure (code : DurableEngineErrorCode) : DurableEngineError :=
  mkDurableEngineError code None.

Definition apply_record (fault : option AllocSite) (record : JournalRecord) (order_book : Impl)
  : outcome Impl unit :=
  match jr_command record with
  | SubmitLimitOrderCommand order =>
      let! (b, _r) := submit fault order_book order in Returned b tt
  | CancelOrderCommand order_id =>
      let! (b, _r) := cancel order_book order_id in Returned b tt
  end.

Definition apply_command (fault : option AllocSite) (command : JournalCommand) (order_book : Impl)
  : outcome Impl BatchCommandResult :=
  match command with
  | SubmitLimitOrderCommand order =>
      let! (b, r) := submit fault order_book order in Returned b (BatchSubmit r)
  | CancelOrderCommand order_id =>
      let! (b, r) := cancel order_book order_id in Returned b (BatchCancel r)
  end.

(** The loop of [execute_batch] over the commands. *)
Fixpoint apply_batch (faults : EngineFaults) (index : nat) (commands : list JournalCommand)
    (order_book : Impl) : outcome Impl (list BatchCommandResult) :=
  match commands with
  | [] => Returned order_book []
  | command :: commands' =>
      if run_before_batch_apply_hook faults index then Threw order_book else
      let! (b, result) := apply_command (book_fault faults index) command order_book in
      let! (b', results) := apply_batch faults (S index) commands' b in
      Returned b' (result :: results)
  end.

(** The loop of [replay]. *)
Fixpoint replay_records (faults : EngineFaults) (index : nat) (records : list JournalRecord)
    (order_book : Impl) : outcome Impl unit :=
  match records with
  | [] => Returned order_book tt
  | record :: records' =>
      let! (b, _u) := apply_record (book_fault faults index) record order_book in
      replay_records faults (S index) records' b
  end.

(** [replay]: the error, and the book that was filled. *)
Definition replay (faults : EngineFaults) (records : list JournalRecord) (order_book : Impl)
  : outcome Impl (option DurableEngineError) :=
  match replay_records faults 0 records order_book with
  | Returned b _ => Returned b None
  | Threw b => Returned b (Some (application_failure RecoveryReplayFailure))
  | Crashed c => Crashed c
  end.

Section engine.
  Context {W : Type} `{!Posix W}.

Definition create (faults : EngineFaults) (p : path) (s : Proc W)
  : outcome (Proc W) CreateResult :=
  let! (s1, writer_result) := JournalStorage.create p s in
  match writer_result with
  | inr error => Returned s1 (inr (journal_failure error))
  | inl writer =>
      if engine_alloc_fault faults
      then Returned (destroy_writer writer s1) (inr (application_failure ApplicationFailure))
      else Returned s1 (inl (mkDurableEngine new_book writer Healthy))
  end.

(** [std::optional<JournalWriter>] going out of scope. *)
Definition destroy_optional_writer (writer : option JournalWriter) (s : Proc W) : Proc W :=
  match writer with Some wr => destroy_writer wr s | None => s end.

(** [recover] from the point where the journal is known not to be cut. *)
Definition recover_replay (faults : EngineFaults) (p : path)
    (repaired_writer : option JournalWriter) (scan : JournalScan) (s : Proc W)
  : outcome (Proc W) CreateResult :=
  if engine_alloc_fault faults
  then Returned (destroy_optional_writer repaired_writer s)
         (inr (application_failure RecoveryReplayFailure))
  else
  match replay faults (scan_records scan) new_book with
  | Crashed c => Crashed c
  | Threw _ => Crashed Terminate (* [replay] is noexcept *)
  | Returned _ (Some replay_error) =>
      Returned (destroy_optional_writer repaired_writer s) (inr replay_error)
  | Returned order_book None =>
      match repaired_writer with
      | Some writer => Returned s (inl (mkDurableEngine order_book writer Healthy))
      | None =>
          let! (s1, writer_result) := open_recovered p s in
          match writer_result with
          | inr error => Returned s1 (inr (journal_failure error))
          | inl writer => Returned s1 (inl (mkDurableEngine order_book writer Healthy))
          end
      end
  end.

Definition recover (faults : EngineFaults) (p : path) (s : Proc W)
  : outcome (Proc W) CreateResult :=
  let! (s1, scan_result) := scan p s in
  match scan_result with
  | inr error => Returned s1 (inr (journal_failure error))
  | inl scan1 =>
      if scan_has_truncated_tail scan1 then
        let! (s2, repair_result) := repair_truncated_tail_and_open p s1 in
        match repair_result with
        | inr error => Returned s2 (inr (journal_failure error))
        | inl writer =>
            let! (s3, scan_result) := scan p s2 in
            match scan_result with
            | inr error => Returned (destroy_writer writer s3) (inr (journal_failure error))
            | inl scan2 =>
                if scan_has_truncated_tail scan2
                then Returned (destroy_writer writer s3)
                       (inr (application_failure RecoveryReplayFailure))
                else recover_replay faults p (Some writer) scan2 s3
            end
        end
      else recover_replay faults p None scan1 s1
  end.

Definition set_engine_failed (b : Impl) (wr : JournalWriter) : DurableEngine :=
  mkDurableEngine b wr Failed.

Definition execute_batch (faults : EngineFaults) (commands : list JournalCommand)
    (e : DurableEngine) (s : Proc W) : outcome (Proc W) (DurableEngine * BatchResult) :=
  if bool_decide (de_state e = Failed)
  then Returned s (e, inr (application_failure EngineFailed)) else
  let! (s1, r) := append_batch_and_sync (prepare_fault faults) commands (de_writer e) s in
  match r with
  | (wr, inr error) =>
      Returned s1 (set_engine_failed (de_order_book e) wr, inr (journal_failure error))
  | (wr, inl _) =>
      if engine_alloc_fault faults
      then Returned s1 (set_engine_failed (de_order_book e) wr,
                        inr (application_failure ApplicationFailure))
      else
      match apply_batch faults 0 commands (de_order_book e) with
      | Returned b results => Returned s1 (mkDurableEngine b wr (de_state e), inl results)
      | Threw b =>
          Returned s1 (set_engine_failed b wr, inr (application_failure ApplicationFailure))
      | Crashed c => Crashed c
      end
  end.

(** [front()] of an empty vector is undefined; [std::get] of the wrong
    alternative throws. *)
Definition submit (faults : EngineFaults) (order : NewLimitOrder) (e : DurableEngine) (s : Proc W)
  : outcome (Proc W) (DurableEngine * (SubmitResult + DurableEngineError)) :=
  let! (s1, r) := execute_batch faults [SubmitLimitOrderCommand order] e s in
  match r with
  | (e1, inr error) => Returned s1 (e1, inr error)
  | (_, inl []) => Crashed UndefinedBehaviour
  | (e1, inl (BatchSubmit result :: _)) => Returned s1 (e1, inl result)
  | (_, inl (BatchCancel _ :: _)) => Threw s1
  end.

Definition cancel (faults : EngineFaults) (id : OrderId) (e : DurableEngine) (s : Proc W)
  : outcome (Proc W) (DurableEngine * (CancelResult + DurableEngineError)) :=
  let! (s1, r) := execute_batch faults [CancelOrderCommand id] e s in
  match r with
  | (e1, inr error) => Returned s1 (e1, inr error)
  | (_, inl []) => Crashed UndefinedBehaviour
  | (e1, inl (BatchCancel result :: _)) => Returned s1 (e1, inl result)
  | (_, inl (BatchSubmit _ :: _)) => Threw s1
  end.

End engine.
End Durable.
