(* ===== verification/DurableEngineProps.v ===== *)
(** * The durable engine: properties

    The book of a healthy engine is the result of the commands in its journal;
    recovery finds exactly them; what was acknowledged is never lost, whatever
    fails and whenever the process or the machine stops. *)
From S2P Require Import Prelude StdMap Types Bytes OrderBook OrderBookInv OrderBookOps.
From S2P Require Import Journal JournalProps Posix MemoryFs JournalStorage JournalFile.
From S2P Require Import JournalStorageProps DurableEngine.
Import JournalStorage.

(** ** Running commands on a book *)

(** The commands, executed one after the other without a failed allocation. *)
Inductive runs : Impl -> list JournalCommand -> Impl -> list BatchCommandResult -> Prop :=
| runs_nil b : runs b [] b []
| runs_submit b o b1 r cs b2 rs :
    OrderBook.submit None b o = Returned b1 r -> runs b1 cs b2 rs ->
    runs b (SubmitLimitOrderCommand o :: cs) b2 (BatchSubmit r :: rs)
| runs_cancel b id b1 r cs b2 rs :
    OrderBook.cancel b id = Returned b1 r -> runs b1 cs b2 rs ->
    runs b (CancelOrderCommand id :: cs) b2 (BatchCancel r :: rs).

Lemma runs_app b cs1 b1 rs1 cs2 b2 rs2 :
  runs b cs1 b1 rs1 -> runs b1 cs2 b2 rs2 -> runs b (cs1 ++ cs2) b2 (rs1 ++ rs2).
Proof. induction 1; intros; simpl; [done|econstructor; eauto..]. Qed.

Lemma runs_deterministic b cs b1 rs1 b2 rs2 :
  runs b cs b1 rs1 -> runs b cs b2 rs2 -> b1 = b2 /\ rs1 = rs2.
Proof.
  intros H. revert b2 rs2. induction H as [b|b o b1 r cs b' rs E H IH|b id b1 r cs b' rs E H IH];
    intros b2 rs2 H2; inversion H2 as [|? ? ? ? ? ? ? E2 H3|? ? ? ? ? ? ? E2 H3]; subst; [done|..];
    rewrite E in E2; simplify_eq; by destruct (IH _ _ H3) as [-> ->].
Qed.

Lemma runs_reachable b cs b' rs :
  Forall wf_journal_command cs -> runs b cs b' rs -> reachable b -> reachable b'.
Proof.
  intros Hwf H. induction H as [|b o b1 r cs b' rs E H IH|b id b1 r cs b' rs E H IH]; intros Hb; [done|..];
    apply Forall_cons in Hwf as [Hc Hwf]; apply IH; try done; (eapply rtc_r; [done|]).
  - apply (step_submit None _ o); [done|]. by rewrite E.
  - apply (step_cancel _ id); [done|]. by rewrite E.
Qed.

(** A fault that does not strike makes no difference. *)
Lemma insert_returned_fault fault ref o q seq b b' u :
  insert_resting_order fault ref o q seq b = Returned b' u ->
  insert_resting_order None ref o q seq b = Returned b' u.
Proof.
  unfold insert_resting_order. change (alloc_throws None _) with false.
  destruct (alloc_throws fault EmplaceLevel); [done|]. destruct (map_try_emplace _ _ _ _).
  destruct (alloc_throws fault PushBackOrder); [done|].
  by destruct (alloc_throws fault EmplaceActive).
Qed.

Lemma execute_returned_fault fault o plan b b' ts :
  submit_execute fault o plan b = Returned b' ts -> submit_execute None o plan b = Returned b' ts.
Proof.
  unfold submit_execute. change (alloc_throws None _) with false. cbv iota.
  destruct (alloc_throws fault ReserveTrades); [done|].
  destruct (alloc_throws fault InsertSeenId); [done|].
  destruct (negb (bool_decide (nlo_id o ∈ seen_order_ids b))); [|done]. cbn [assert_that].
  destruct (nlo_side o =? Buy);
    (destruct (match_orders _ _ _ _ _ _) as [b2 [rem trades]|b2|]; cbn [obind fst snd]; [|done..]);
    (destruct (rem =? _); [|done]); (destruct (_ =? mp_trade_count plan); [|done]);
    cbn [assert_that]; (destruct (0 <? rem); [|done]);
    destruct (insert_resting_order fault _ _ _ _ _) as [b3 u|b3|] eqn:E; try done;
    by rewrite (insert_returned_fault _ _ _ _ _ _ _ _ E).
Qed.

Lemma submit_returned_fault fault b o b' r :
  OrderBook.submit fault b o = Returned b' r -> OrderBook.submit None b o = Returned b' r.
Proof.
  unfold OrderBook.submit. repeat (case_match; [done|]). cbv zeta.
  set (plan := if nlo_side o =? Buy then _ else _). 
  repeat match goal with |- context [if ?c then Returned b _ else _] => destruct c; [done|] end.
  destruct (submit_execute fault o plan b) as [b1 ts|b1|] eqn:E; cbn [obind]; [|done..].
  by rewrite (execute_returned_fault _ _ _ _ _ _ E).
Qed.

(** ** Applying and replaying *)

(** One command: it does what the book does, or an allocation failed. *)
Lemma apply_command_spec fault c b :
  Inv b -> wf_journal_command c ->
  match Durable.apply_command fault c b with
  | Returned b' r => Inv b' /\ runs b [c] b' [r]
  | Threw b' => Inv b' /\ fault <> None
  | Crashed _ => False
  end.
Proof.
  intros HI Hc. destruct c as [o|id]; cbn [Durable.apply_command].
  - destruct (submit_Inv fault b o HI Hc) as (b' & E & HI').
    destruct (OrderBook.submit fault b o) as [b1 r|b1|] eqn:Es; cbn in *; simplify_eq.
    + split; [done|]. eapply runs_submit; [by eapply submit_returned_fault|constructor].
    + split; [done|]. intros ->. pose proof (submit_spec None b o HI Hc) as Hs.
      destruct (rejection b o); [congruence|]. destruct Hs as [_ Hs].
      rewrite andb_false_r in Hs. destruct Hs as (b1 & E1 & _). congruence.
  - destruct (cancel_Inv b id HI) as (b' & r & E & HI'). rewrite E. cbn. split; [done|].
    eapply runs_cancel; [done|constructor].
Qed.

(** [apply_record] is [apply_command] without the result. *)
Lemma apply_record_command fault n c b :
  Durable.apply_record fault (mkJournalRecord n c) b =
    match Durable.apply_command fault c b with
    | Returned b' _ => Returned b' tt
    | Threw b' => Threw b'
    | Crashed k => Crashed k
    end.
Proof.
  unfold Durable.apply_record. destruct c; cbn [jr_command Durable.apply_command].
  - by destruct (OrderBook.submit _ _ _).
  - by destruct (OrderBook.cancel _ _).
Qed.

(** Something in the application of commands can throw. *)
Definition apply_can_throw (faults : EngineFaults) : Prop :=
  (exists i, book_fault faults i <> None) \/ before_batch_apply_hook faults <> None.

Lemma apply_batch_spec faults i cs b :
  Inv b -> Forall wf_journal_command cs ->
  match Durable.apply_batch faults i cs b with
  | Returned b' rs => Inv b' /\ runs b cs b' rs
  | Threw b' => Inv b' /\ apply_can_throw faults
  | Crashed _ => False
  end.
Proof.
  intros HI Hwf. revert i b HI. induction Hwf as [|c cs Hc Hwf IH]; intros i b HI.
  { split; [done|constructor]. }
  cbn [Durable.apply_batch]. unfold Durable.run_before_batch_apply_hook.
  destruct (match before_batch_apply_hook faults with Some h => h i | None => false end) eqn:Eh.
  { split; [done|]. right. by destruct (before_batch_apply_hook faults). }
  pose proof (apply_command_spec (book_fault faults i) c b HI Hc) as H.
  destruct (Durable.apply_command _ c b) as [b1 r|b1|]; cbn [obind]; [|split; [apply H|left; exists i; apply H]|done].
  destruct H as [HI1 Hr]. specialize (IH (S i) b1 HI1).
  destruct (Durable.apply_batch faults (S i) cs b1) as [b2 rs|b2|]; cbn [obind]; try done.
  split; [apply IH|]. apply (runs_app b [c] b1 [r] cs b2 rs); [done|apply IH].
Qed.

Lemma replay_records_spec faults i n cs b :
  Inv b -> Forall wf_journal_command cs ->
  match Durable.replay_records faults i (records_from n cs) b with
  | Returned b' _ => Inv b' /\ exists rs, runs b cs b' rs
  | Threw b' => exists i, book_fault faults i <> None
  | Crashed _ => False
  end.
Proof.
  intros HI Hwf. revert i n b HI. induction Hwf as [|c cs Hc Hwf IH]; intros i n b HI.
  { split; [done|]. exists []. constructor. }
  cbn [records_from Durable.replay_records]. rewrite apply_record_command.
  pose proof (apply_command_spec (book_fault faults i) c b HI Hc) as H.
  destruct (Durable.apply_command _ c b) as [b1 r|b1|]; cbn [obind]; [|exists i; apply H|done].
  destruct H as [HI1 Hr]. specialize (IH (S i) (n + 1) b1 HI1).
  destruct (Durable.replay_records faults (S i) _ b1) as [b2 u|b2|]; try done.
  destruct IH as [HI2 [rs Hrs]]. split; [done|]. exists (r :: rs).
  by apply (runs_app b [c] b1 [r] cs b2 rs).
Qed.

Section engine.
  Context {W : Type} `{!Posix W, !PosixView W, !PosixLaws W}.
  Implicit Types (s : Proc W) (p : path) (e : DurableEngine).

(** A healthy engine: its journal holds [cs], its book is the result of [cs],
    and a crash loses nothing of [lo]. *)
Record engine_on (p : path) (lo cs : list JournalCommand) e s : Prop := {
  eo_state : de_state e = Healthy;
  eo_writer : writer_on p cs (de_writer e) s;
  eo_book : exists rs, runs new_book cs (de_order_book e) rs;
  eo_inv : Inv (de_order_book e);
  eo_lo : lo `prefix_of` cs;
  eo_survives : survives p lo cs (os s);
}.

Lemma engine_at_rest p lo cs e s : engine_on p lo cs e s -> at_rest p lo cs (os s).
Proof.
  intros [_ [_ HC Hcs _ _] _ _ Hlo Hsv]. split; [|done..].
  exists [], (journal_bytes cs). split; [done|]. by apply journal_file_clean.
Qed.

(** When nothing but the journal of [cs] can be found after a crash. *)
Lemma survives_exact p cs w :
  Forall wf_journal_command cs ->
  (forall c, after_crash w p c -> c = Some (journal_bytes cs)) -> survives p cs cs w.
Proof.
  intros Hwf H c ->%H. exists (journal_bytes cs). split; [done|]. exists cs, [].
  by split; [apply journal_file_clean|].
Qed.

Lemma survives_exists p lo hi w : survives p lo hi w -> ~ after_crash w p None.
Proof. intros H Hn. destruct (H None Hn) as (C & ? & _). done. Qed.

Lemma appended_no_None p d w w' :
  appended p d w w' -> ~ after_crash w p None -> ~ after_crash w' p None.
Proof. intros Ha Hn [H|(old & d' & _ & _ & H)]%(ap_crash _ _ _ _ Ha); [by apply Hn|done]. Qed.

(** [execute_batch]: the batch is durable and applied, or the engine has failed
    and the journal has some of the batch. *)
Lemma execute_batch_spec faults cmds p lo cs e s :
  engine_on p lo cs e s -> Forall wf_journal_command cmds ->
  exists s' e' r, Durable.execute_batch faults cmds e s = Returned s' (e', r) /\
    match r with
    | inl results =>
        runs (de_order_book e) cmds (de_order_book e') results /\
        engine_on p (cs ++ cmds) (cs ++ cmds) e' s'
    | inr err =>
        de_state e' = Failed /\
        exists new, new `prefix_of` cmds /\ at_rest p lo (cs ++ new) (os s') /\
          (dee_code err = JournalFailure \/
           (dee_code err = ApplicationFailure /\ new = cmds /\
            (engine_alloc_fault faults = true \/ apply_can_throw faults)))
    end.
Proof.
  intros He Hwf. pose proof (engine_at_rest _ _ _ _ _ He) as Hrest.
  destruct He as [Hst Hw [rs Hruns] HI Hlo Hsv]. pose proof Hw as [_ HC Hcs _ _].
  unfold Durable.execute_batch. rewrite Hst, bool_decide_false by done.
  destruct (append_batch_spec (prepare_fault faults) cmds p cs (de_writer e) s Hw)
    as (s1 & wr & r & E & Hr). rewrite E. cbn [obind].
  destruct r as [seqs|je].
  - destruct (Hr Hwf) as (_ & _ & Hw1 & Ha & Hcr).
    assert (survives p (cs ++ cmds) (cs ++ cmds) (os s1)) as Hsv1.
    { apply survives_exact; [by apply Forall_app|]. intros c Hc.
      destruct (Hcr c Hc) as [->| ->]; [done|].
      by destruct (appended_no_None _ _ _ _ Ha (survives_exists _ _ _ _ Hsv)). }
    assert (at_rest p lo (cs ++ cmds) (os s1)) as Hrest1.
    { split; [|by apply prefix_app_r|].
      - exists [], (journal_bytes (cs ++ cmds)). split; [apply Hw1|].
        by apply journal_file_clean, Forall_app.
      - eapply survives_weaken; [by apply prefix_app_r|done|done]. }
    destruct (engine_alloc_fault faults) eqn:Ef.
    { eexists s1, _, _. split; [done|]. split; [done|]. exists cmds. split_and!; auto. }
    pose proof (apply_batch_spec faults 0 cmds (de_order_book e) HI Hwf) as Hap.
    destruct (Durable.apply_batch faults 0 cmds (de_order_book e)) as [b results|b|]; [| |done].
    + destruct Hap as [HIb Hrb]. eexists s1, _, _. split; [done|]. split; [done|].
      split; try done. exists (rs ++ results). by eapply runs_app.
    + eexists s1, _, _. split; [done|]. split; [done|]. exists cmds. split_and!; naive_solver.
  - eexists s1, _, _. split; [done|]. split; [done|].
    destruct Hr as [(-> & _ & _)|(_ & _ & Hmax & d & Hd & Ha)].
    + exists []. rewrite app_nil_r. split_and!; [apply prefix_nil|done|by left].
    + destruct (appended_at_rest p lo cs cmds d (os s) (os s1)) as (new & Hn & Hr); try done.
      exists new. split_and!; auto.
Qed.

(** ** Recovery *)

Definition io_failure (e : JournalStorageError) : Prop :=
  open_failure e \/ jse_code e = ReadFailed \/ jse_code e = TruncateFailed \/
  jse_code e = SyncFailed.

(** Why recovery of a journal can fail: a system call or an allocation did. *)
Definition recovery_failure (faults : EngineFaults) (err : DurableEngineError) : Prop :=
  (dee_code err = JournalFailure /\ exists je, dee_journal_error err = Some je /\ io_failure je) \/
  (dee_code err = RecoveryReplayFailure /\
   (engine_alloc_fault faults = true \/ exists i, book_fault faults i <> None)).

Lemma scan_at_rest p s C cs t :
  contents (os s) p = Some C -> journal_file cs t C ->
  exists s' r, scan p s = Returned s' r /\ quiet (os s) (os s') /\
    (r = inl (scanned cs (bool_decide (t <> []))) \/ exists je, r = inr je /\ io_failure je).
Proof.
  intros HC Hj. destruct (contents_bytes _ _ _ HC) as [Hw Hmax].
  destruct (scan_spec p s) as (s' & r & E & Hq & Hr). exists s', r. split_and!; [done..|].
  destruct Hr as [(e & -> & He)|(C' & HC' & Hv)].
  - right. exists e. unfold io_failure. naive_solver.
  - left. rewrite HC in HC'. injection HC' as <-. by eapply file_verdict_complete.
Qed.

Lemma destroy_writer_same wr s : same_files (os s) (os (destroy_writer wr s)).
Proof.
  unfold destroy_writer, close_descriptor. destruct (0 <=? _); [|apply same_files_refl].
  apply close_closes.
Qed.

Lemma writer_on_quiet p cs wr s s' : quiet (os s) (os s') -> writer_on p cs wr s -> writer_on p cs wr s'.
Proof.
  intros Hq [(m & Ho & Hm) HC Hcs Hn Hf]. split; try done.
  - exists m. by rewrite (quiet_opened _ _ _ Hq).
  - by rewrite (quiet_contents _ _ _ Hq).
Qed.

Lemma recover_replay_spec faults p lo cs wr s :
  at_rest p lo cs (os s) -> contents (os s) p = Some (journal_bytes cs) ->
  match wr with Some wr => writer_on p cs wr s | None => True end ->
  exists s' r, Durable.recover_replay faults p wr (scanned cs false) s = Returned s' r /\
    match r with
    | inl e => engine_on p lo cs e s'
    | inr err => at_rest p lo cs (os s') /\ recovery_failure faults err
    end.
Proof.
  intros Hrest HC Hwr. pose proof Hrest as [(t & C & HC' & Hj) Hlo Hsv].
  rewrite HC in HC'. injection HC' as <-. destruct Hj as (_ & Hcs & _).
  assert (at_rest p lo cs (os (Durable.destroy_optional_writer wr s))) as Hdrop.
  { destruct wr as [wr|]; cbn; [|done]. eapply at_rest_same; [apply destroy_writer_same|done]. }
  unfold Durable.recover_replay. destruct (engine_alloc_fault faults) eqn:Ef.
  { eexists _, _. split; [done|]. split; [done|]. right. by auto. }
  unfold Durable.replay. cbn [scan_records scanned].
  pose proof (replay_records_spec faults 0 1 cs new_book Inv_new_book Hcs) as Hrep.
  destruct (Durable.replay_records faults 0 _ new_book) as [b u|b|]; [| |done]; cycle 1.
  { eexists _, _. split; [done|]. split; [done|]. right. by auto. }
  destruct Hrep as [HI Hruns]. destruct wr as [wr|].
  { eexists _, _. split; [done|]. by split. }
  destruct (open_recovered_spec p s) as (s1 & r & E & Hr). rewrite E. cbn [obind].
  destruct (contents_bytes _ _ _ HC) as [Hw Hmax].
  destruct r as [wr|je].
  - eexists _, _. split; [done|]. destruct Hr as (cs' & HC' & Hw' & Hs').
    assert (cs' = cs) as ->.
    { assert (journal_bytes cs = journal_bytes cs') as Ej by congruence.
      eapply (journal_file_unique cs' [] cs []); [done|done| |by apply journal_file_clean].
      rewrite Ej. apply journal_file_clean, Hw'. }
    split; try done. eapply survives_same; [done..| |done]. exists cs, []. 
    by split_and!; [apply journal_file_clean|..].
  - eexists _, _. split; [done|]. destruct Hr as [Hq Hr]. split; [by eapply at_rest_same; [apply Hq|]|].
    left. split; [done|]. exists je. split; [done|]. unfold io_failure.
    destruct Hr as [?|[?|(C & HC' & Hr)]]; [by auto..|exfalso].
    rewrite HC in HC'. injection HC' as <-.
    pose proof (journal_file_clean cs Hcs) as Hclean. destruct Hr as [Hv|[(cs' & t' & Hj & Hne) _]].
    + by apply (file_verdict_complete cs []) in Hv.
    + destruct (journal_file_unique cs' t' cs [] _ Hw Hmax Hj Hclean) as [_ ->]. done.
Qed.

(** Recovery of a journal that holds [cs] gives an engine on [cs], or fails for
    a reason outside the journal, and the journal still holds [cs]. *)
Lemma recover_spec faults p lo cs s :
  at_rest p lo cs (os s) ->
  exists s' r, Durable.recover faults p s = Returned s' r /\
    match r with
    | inl e => engine_on p lo cs e s'
    | inr err => at_rest p lo cs (os s') /\ recovery_failure faults err
    end.
Proof.
  intros Hrest. pose proof Hrest as [(t & C & HC & Hj) Hlo Hsv].
  destruct (contents_bytes _ _ _ HC) as [Hw Hmax].
  assert (forall je, io_failure je -> recovery_failure faults (Durable.journal_failure je)) as Hio
    by (intros je Hje; left; eauto).
  unfold Durable.recover.
  destruct (scan_at_rest p s C cs t HC Hj) as (s1 & r & -> & Hq1 & Hr1). cbn [obind].
  assert (at_rest p lo cs (os s1)) as Hrest1 by (eapply at_rest_same; [apply Hq1|done]).
  destruct Hr1 as [->|(e & -> & He)]; [|eexists _, _; (split; [done|split; auto])].
  cbn [scan_has_truncated_tail scanned]. case_bool_decide as Ht; cycle 1.
  { subst t. apply recover_replay_spec; [done| |done].
    destruct Hj as (-> & _). by rewrite (quiet_contents _ _ _ Hq1), HC, app_nil_r. }
  rewrite <- (quiet_contents _ _ _ Hq1) in HC.
  destruct (repair_spec p s1) as (s2 & r & -> & Hr2). cbn [obind]. destruct r as [wr|e]; cycle 1.
  { eexists _, _. split; [done|].
    destruct Hr2 as [[Hq Hr2]|(He & cs' & t' & HC' & Hj' & Hcut)].
    - split; [by eapply at_rest_same; [apply Hq|]|]. apply Hio. unfold io_failure.
      destruct Hr2 as [?|[?|[?|(C' & HC' & Hr2)]]]; [by auto..|exfalso].
      rewrite HC in HC'. injection HC' as <-. destruct Hr2 as [Hv|[[cs' Hj'] _]].
      + by apply (file_verdict_complete cs t) in Hv.
      + by destruct (journal_file_unique cs' [] cs t C Hw Hmax Hj' Hj) as [_ <-].
    - rewrite HC in HC'. injection HC' as ->.
      destruct (journal_file_unique cs' t' cs t _ Hw Hmax Hj' Hj) as [-> ->].
      split; [by eapply cut_at_rest|]. apply Hio. by do 3 right. }
  destruct Hr2 as (cs' & t' & HC' & Hne & Hj' & Hwr & [Hc2 Hcut] & Hcr).
  rewrite HC in HC'. injection HC' as ->.
  destruct (journal_file_unique cs' t' cs t _ Hw Hmax Hj' Hj) as [-> ->].
  assert (at_rest p lo cs (os s2)) as Hrest2 by (eapply cut_at_rest; [done..|by split]).
  destruct (scan_at_rest p s2 (journal_bytes cs) cs [] Hc2) as (s3 & r & -> & Hq3 & Hr3);
    [by apply journal_file_clean, Hj|]. cbn [obind].
  assert (at_rest p lo cs (os s3)) as Hrest3 by (eapply at_rest_same; [apply Hq3|done]).
  assert (at_rest p lo cs (os (destroy_writer wr s3))) as Hdrop
    by (eapply at_rest_same; [apply destroy_writer_same|done]).
  destruct Hr3 as [->|(e & -> & He)]; [|eexists _, _; (split; [done|split; auto])].
  rewrite bool_decide_false by naive_solver. cbn [scan_has_truncated_tail scanned].
  apply recover_replay_spec; [done|by rewrite (quiet_contents _ _ _ Hq3)|].
  by eapply writer_on_quiet.
Qed.

(** ** The life of an engine

    A process runs an engine; it executes batches under any faults, the state of
    the test hooks changes at will; the process is killed (the files stay as
    they are), the machine loses power (the file has any contents that can be
    found after a crash), and recovery is attempted until it succeeds.  A stop
    in the middle of a call is a call of which the remaining system calls fail,
    followed by the stop: the failures are among those of the model. *)
Inductive Config := Running (s : Proc W) (e : DurableEngine) | Down (s : Proc W).

Definition proc_of (c : Config) : Proc W := match c with Running s _ | Down s => s end.

Inductive sys_step (p : path) : Config -> Config -> Prop :=
| step_batch faults cmds s e s' e' r :
    Forall wf_journal_command cmds ->
    Durable.execute_batch faults cmds e s = Returned s' (e', r) ->
    sys_step p (Running s e) (Running s' e')
| step_hooks s s' e : os s' = os s -> sys_step p (Running s e) (Running s' e)
| step_kill s s' e : same_files (os s) (os s') -> sys_step p (Running s e) (Down s')
| step_power_loss c s' :
    after_crash (os (proc_of c)) p (contents (os s') p) ->
    (forall x, after_crash (os s') p x -> x = contents (os s') p) ->
    sys_step p c (Down s')
| step_recover faults s s' e :
    Durable.recover faults p s = Returned s' (inl e) -> sys_step p (Down s) (Running s' e)
| step_recover_failed faults s s' err :
    Durable.recover faults p s = Returned s' (inr err) -> sys_step p (Down s) (Down s').

(** Nothing of [lo] is lost, and a healthy engine is what its journal says. *)
Definition sys_inv (p : path) (lo : list JournalCommand) (c : Config) : Prop :=
  match c with
  | Running s e =>
      (exists cs, engine_on p lo cs e s) \/
      (de_state e = Failed /\ exists cs, at_rest p lo cs (os s))
  | Down s => exists cs, at_rest p lo cs (os s)
  end.

Lemma sys_inv_at_rest p lo c : sys_inv p lo c -> exists cs, at_rest p lo cs (os (proc_of c)).
Proof.
  destruct c as [s e|s]; [|done]. intros [[cs H]|[_ H]]; [|done]. exists cs. by eapply engine_at_rest.
Qed.

Lemma failed_engine_refuses faults cmds e s :
  de_state e = Failed -> Durable.execute_batch faults cmds e s
    = Returned s (e, inr (Durable.application_failure EngineFailed)).
Proof. intros H. unfold Durable.execute_batch. by rewrite bool_decide_true. Qed.

Lemma power_loss_at_rest p lo cs w w' :
  at_rest p lo cs w -> after_crash w p (contents w' p) ->
  (forall x, after_crash w' p x -> x = contents w' p) -> exists cs', at_rest p lo cs' w'.
Proof.
  intros [_ _ Hsv] Hc Hx. destruct (Hsv _ Hc) as (C & HC & cs' & t & Hj & Hlo & Hhi).
  exists cs'. split; [by exists t, C|done|]. intros x ->%Hx. exists C. split; [done|]. by exists cs', t.
Qed.

Lemma engine_on_os p lo cs e s s' : os s' = os s -> engine_on p lo cs e s -> engine_on p lo cs e s'.
Proof.
  intros Hos [H1 [H2 H3 H4 H5 H6] H7 H8 H9 H10]. split; try done; [|by rewrite Hos].
  split; try done; by rewrite Hos.
Qed.

Lemma sys_step_inv p lo c c' : sys_step p c c' -> sys_inv p lo c -> sys_inv p lo c'.
Proof.
  intros Hstep Hinv. pose proof (sys_inv_at_rest _ _ _ Hinv) as [cs0 Hrest].
  destruct Hstep as [faults cmds s e s' e' r Hwf E|s s' e Hos|s s' e Hs|c s' Hc Hx|faults s s' e E|faults s s' err E].
  - destruct Hinv as [[cs He]|[Hf Hr]].
    + destruct (execute_batch_spec faults cmds p lo cs e s He Hwf) as (s1 & e1 & r1 & E1 & Hr1).
      rewrite E in E1. injection E1 as <- <- <-. destruct r as [results|err].
      * left. exists (cs ++ cmds). destruct Hr1 as [_ [H1 H2 H3 H4 H5 H6]].
        pose proof (eo_lo _ _ _ _ _ He). split; try done; [by apply prefix_app_r|].
        eapply survives_weaken; [by apply prefix_app_r|done..].
      * right. destruct Hr1 as (? & new & _ & Hr & _). by eauto.
    + rewrite (failed_engine_refuses _ _ _ _ Hf) in E. injection E as <- <- _. by right.
  - cbn in *. rewrite Hos. destruct Hinv as [[cs He]|?]; [left|by right].
    exists cs. by eapply engine_on_os.
  - exists cs0. by eapply at_rest_same.
  - by eapply power_loss_at_rest.
  - left. destruct Hinv as [cs Hr]. destruct (recover_spec faults p lo cs s Hr) as (s1 & r1 & E1 & Hr1).
    rewrite E in E1. injection E1 as <- <-. by exists cs.
  - destruct Hinv as [cs Hr]. destruct (recover_spec faults p lo cs s Hr) as (s1 & r1 & E1 & Hr1).
    rewrite E in E1. injection E1 as <- <-. exists cs. apply Hr1.
Qed.

Lemma sys_steps_inv p lo c c' : rtc (sys_step p) c c' -> sys_inv p lo c -> sys_inv p lo c'.
Proof. induction 1; eauto using sys_step_inv. Qed.

Lemma create_engine_spec faults p s :
  exists s' r, Durable.create faults p s = Returned s' r /\
    match r with
    | inl e => contents (os s) p = None /\ engine_on p [] [] e s'
    | inr err => forall C, contents (os s) p = Some C -> contents (os s') p = Some C
    end.
Proof.
  unfold Durable.create. destruct (create_spec p s) as (s1 & r & -> & Hr). cbn [obind].
  destruct r as [wr|je].
  - destruct Hr as (Hn & Hwr & Hcr). destruct (engine_alloc_fault faults).
    + eexists _, _. split; [done|]. intros C HC. congruence.
    + eexists _, _. split; [done|]. split; [done|]. split; try done.
      * exists []. constructor.
      * apply Inv_new_book.
      * by apply survives_exact.
  - eexists _, _. split; [done|]. intros C HC. destruct Hr as [[Hq _]|(Hn & _)]; [|congruence].
    by rewrite (quiet_contents _ _ _ Hq).
Qed.

(** ** Properties *)

(** C11: [execute_batch] writes ahead.  On a healthy engine it returns; a
    successful batch is in the journal, survives every crash from then on, was
    applied to the book in order, and the results are those of the book.  When
    it fails the engine has failed and refuses every later batch without an
    effect; the journal has gained some prefix of the batch, all of it when the
    application failed, which only a failed allocation or a throwing hook can
    cause. *)
Theorem execute_batch_correct faults cmds p lo cs e s :
  engine_on p lo cs e s -> Forall wf_journal_command cmds ->
  exists s' e' r, Durable.execute_batch faults cmds e s = Returned s' (e', r) /\
    match r with
    | inl results =>
        runs (de_order_book e) cmds (de_order_book e') results /\
        engine_on p (cs ++ cmds) (cs ++ cmds) e' s'
    | inr err =>
        (forall faults' cmds' s2, Durable.execute_batch faults' cmds' e' s2
           = Returned s2 (e', inr (Durable.application_failure EngineFailed))) /\
        exists new, new `prefix_of` cmds /\ at_rest p lo (cs ++ new) (os s') /\
          (dee_code err = JournalFailure \/
           (dee_code err = ApplicationFailure /\ new = cmds /\
            (engine_alloc_fault faults = true \/ apply_can_throw faults)))
    end.
Proof.
  intros He Hwf. destruct (execute_batch_spec faults cmds p lo cs e s He Hwf) as (s' & e' & r & E & Hr).
  exists s', e', r. split; [done|]. destruct r as [results|err]; [done|].
  destruct Hr as [Hf Hr]. split; [|done]. intros. by apply failed_engine_refuses.
Qed.

(** C10: recovery restores exactly the history in the journal.  When the file
    holds the commands [cs], with or without a cut record behind them, recovery
    returns an engine whose book is the result of [cs] and whose writer goes on
    after them; or it fails because a system call or an allocation did, never
    because of the journal, and the file still holds [cs], so that it can be
    tried again. *)
Theorem recover_correct faults p lo cs s :
  at_rest p lo cs (os s) ->
  exists s' r, Durable.recover faults p s = Returned s' r /\
    match r with
    | inl e => engine_on p lo cs e s'
    | inr err => at_rest p lo cs (os s') /\ recovery_failure faults err
    end.
Proof. apply recover_spec. Qed.

(** C5: what was acknowledged is never lost.  Start from a newly created
    engine, let it live through any sequence of batches, faults, kills, power
    losses and recoveries, let a batch succeed, and go on in the same way: every
    healthy engine that runs later has in its book the result of a history that
    extends the history of the acknowledged state, which ends with the batch. *)
Theorem acknowledged_never_lost faults0 p s0 s1 e1 s2 e2 faults cmds s3 e3 results s4 e4 :
  Durable.create faults0 p s0 = Returned s1 (inl e1) ->
  rtc (sys_step p) (Running s1 e1) (Running s2 e2) ->
  Forall wf_journal_command cmds ->
  Durable.execute_batch faults cmds e2 s2 = Returned s3 (e3, inl results) ->
  rtc (sys_step p) (Running s3 e3) (Running s4 e4) ->
  de_state e4 = Healthy ->
  exists cs rs new rs',
    runs new_book cs (de_order_book e2) rs /\
    runs new_book (cs ++ cmds) (de_order_book e3) (rs ++ results) /\
    runs new_book ((cs ++ cmds) ++ new) (de_order_book e4) rs'.
Proof.
  intros Hcreate Hlife Hwf Hbatch Hlater Hhealthy.
  destruct (create_engine_spec faults0 p s0) as (s & r & E & He1).
  rewrite Hcreate in E. injection E as <- <-. destruct He1 as [_ He1].
  apply (sys_steps_inv p []) in Hlife; [|by left; exists []].
  destruct Hlife as [[cs He2]|[Hf _]]; [|by rewrite (failed_engine_refuses _ _ _ _ Hf) in Hbatch].
  destruct (execute_batch_spec faults cmds p [] cs e2 s2 He2 Hwf) as (s & e & r & E & Hr).
  rewrite Hbatch in E. injection E as <- <- <-. destruct Hr as [Hruns He3].
  apply (sys_steps_inv p (cs ++ cmds)) in Hlater; [|by left; exists (cs ++ cmds)].
  destruct Hlater as [[cs4 He4]|[Hf _]]; [|congruence].
  destruct (eo_book _ _ _ _ _ He2) as [rs Hrs]. destruct (eo_lo _ _ _ _ _ He4) as [new ->].
  destruct (eo_book _ _ _ _ _ He4) as [rs' Hrs'].
  exists cs, rs, new, rs'. split_and!; [done|by eapply runs_app|done].
Qed.

(** [submit] and [cancel] on a healthy engine return what the order book
    returns, after the command is durable; they never throw. *)
Theorem engine_commands_correct faults p lo cs e s o id :
  engine_on p lo cs e s -> wf_order o -> is_u64 id ->
  (exists s' e' r, Durable.submit faults o e s = Returned s' (e', r) /\
    match r with
    | inl result =>
        OrderBook.submit None (de_order_book e) o = Returned (de_order_book e') result /\
        engine_on p (cs ++ [SubmitLimitOrderCommand o]) (cs ++ [SubmitLimitOrderCommand o]) e' s'
    | inr err => de_state e' = Failed
    end) /\
  (exists s' e' r, Durable.cancel faults id e s = Returned s' (e', r) /\
    match r with
    | inl result =>
        OrderBook.cancel (de_order_book e) id = Returned (de_order_book e') result /\
        engine_on p (cs ++ [CancelOrderCommand id]) (cs ++ [CancelOrderCommand id]) e' s'
    | inr err => de_state e' = Failed
    end).
Proof.
  intros He Ho Hid. split.
  - destruct (execute_batch_spec faults [SubmitLimitOrderCommand o] p lo cs e s He) as (s' & e' & r & E & Hr);
      [constructor; [done|constructor]|].
    unfold Durable.submit. rewrite E. cbn [obind]. destruct r as [results|err].
    + destruct Hr as [Hruns He']. inversion Hruns as [|? ? b1 r ? ? ? Es Hnil|]; subst.
      inversion Hnil; subst. by exists s', e', (inl r).
    + eexists s', e', _. split; [done|]. apply Hr.
  - destruct (execute_batch_spec faults [CancelOrderCommand id] p lo cs e s He) as (s' & e' & r & E & Hr);
      [constructor; [done|constructor]|].
    unfold Durable.cancel. rewrite E. cbn [obind]. destruct r as [results|err].
    + destruct Hr as [Hruns He']. inversion Hruns as [| |? ? b1 r ? ? ? Es Hnil]; subst.
      inversion Hnil; subst. by exists s', e', (inl r).
    + eexists s', e', _. split; [done|]. apply Hr.
Qed.

End engine.

(** ** Witnesses *)

Definition first_world : Proc MemWorld := sample_proc None [].

Definition first_create : outcome (Proc MemWorld) CreateResult :=
  Durable.create no_faults sample_path first_world.

Definition first_proc : Proc MemWorld := proc_after first_create first_world.

Definition first_engine : DurableEngine := mkDurableEngine new_book sample_writer Healthy.

Lemma first_created : first_create = Returned first_proc (inl first_engine).
Proof. vm_compute. reflexivity. Qed.

Lemma first_engine_on : engine_on sample_path [] [] first_engine first_proc.
Proof.
  destruct (create_engine_spec no_faults sample_path first_world) as (s & r & E & H).
  fold first_create in E. rewrite first_created in E.
  assert (s = first_proc) as -> by congruence. assert (r = inl first_engine) as -> by congruence.
  apply H.
Qed.

(** Does the call return a result? *)
Definition acknowledged {A B} (m : outcome (Proc MemWorld) (A * (B + DurableEngineError))) : bool :=
  match m with Returned _ (_, inl _) => true | _ => false end.

Lemma execute_batch_correct_witness :
  exists s' e' results,
    Durable.execute_batch no_faults sample_cs first_engine first_proc = Returned s' (e', inl results) /\
    runs new_book sample_cs (de_order_book e') results.
Proof.
  destruct (execute_batch_correct no_faults sample_cs sample_path [] [] first_engine first_proc
    first_engine_on sample_cs_wf) as (s' & e' & r & E & Hr).
  assert (acknowledged (Durable.execute_batch no_faults sample_cs first_engine first_proc) = true)
    as Ha by (vm_compute; reflexivity).
  rewrite E in Ha. destruct r as [results|err]; [|discriminate Ha].
  exists s', e', results. split; [exact E|]. apply Hr.
Defined.

Lemma sample_at_rest :
  at_rest sample_path (take 1 sample_cs) (take 1 sample_cs) (os (sample_proc (Some sample_cut) [])).
Proof.
  split; [|done|].
  - exists (drop 65 sample_cut), sample_cut. split; [vm_compute; reflexivity|apply sample_cut_file].
  - intros c Hc. change (c ∈ [Some sample_cut]) in Hc. apply list_elem_of_singleton in Hc as ->.
    exists sample_cut. split; [done|]. exists (take 1 sample_cs), (drop 65 sample_cut).
    split; [apply sample_cut_file|done].
Qed.

Definition recovered (m : outcome (Proc MemWorld) CreateResult) : bool :=
  match m with Returned _ (inl _) => true | _ => false end.

Lemma recover_correct_witness :
  exists s' e, Durable.recover no_faults sample_path (sample_proc (Some sample_cut) [])
      = Returned s' (inl e) /\
    engine_on sample_path (take 1 sample_cs) (take 1 sample_cs) e s'.
Proof.
  destruct (recover_correct no_faults sample_path (take 1 sample_cs) (take 1 sample_cs)
    (sample_proc (Some sample_cut) []) sample_at_rest) as (s' & r & E & Hr).
  assert (recovered (Durable.recover no_faults sample_path (sample_proc (Some sample_cut) [])) = true)
    as Ha by (vm_compute; reflexivity).
  rewrite E in Ha. destruct r as [e|err]; [|discriminate Ha]. exists s', e. by split.
Defined.

Lemma engine_commands_correct_witness :
  exists s' e' result,
    Durable.submit no_faults (mkNewLimitOrder 1 Buy 100 5) first_engine first_proc
      = Returned s' (e', inl result) /\
    OrderBook.submit None new_book (mkNewLimitOrder 1 Buy 100 5)
      = Returned (de_order_book e') result.
Proof.
  destruct (engine_commands_correct no_faults sample_path [] [] first_engine first_proc
    (mkNewLimitOrder 1 Buy 100 5) 1 first_engine_on) as ((s' & e' & r & E & Hr) & _);
    [decide_now|decide_now|].
  assert (acknowledged (Durable.submit no_faults (mkNewLimitOrder 1 Buy 100 5) first_engine first_proc)
    = true) as Ha by (vm_compute; reflexivity).
  rewrite E in Ha. destruct r as [result|err]; [|discriminate Ha].
  exists s', e', result. split; [exact E|]. apply Hr.
Defined.

(** A life: a first batch, an acknowledged second one, a loss of power and a
    recovery. *)
Definition engine_after {B} (m : outcome (Proc MemWorld) (DurableEngine * B)) (e : DurableEngine)
  : DurableEngine :=
  match m with Returned _ (e', _) => e' | _ => e end.

Definition batch1 := Durable.execute_batch no_faults (take 1 sample_cs) first_engine first_proc.
Definition proc2 : Proc MemWorld := proc_after batch1 first_proc.
Definition engine2 : DurableEngine := engine_after batch1 first_engine.
Definition batch2 := Durable.execute_batch no_faults (drop 1 sample_cs) engine2 proc2.
Definition proc3 : Proc MemWorld := proc_after batch2 proc2.
Definition engine3 : DurableEngine := engine_after batch2 engine2.
Definition rebooted : Proc MemWorld := sample_proc (Some (journal_bytes sample_cs)) [].
Definition recovery := Durable.recover no_faults sample_path rebooted.
Definition proc4 : Proc MemWorld := proc_after recovery rebooted.
Definition engine4 : DurableEngine :=
  match recovery with Returned _ (inl e) => e | _ => first_engine end.
Definition results_after {A} (m : outcome (Proc MemWorld) (A * BatchResult))
  : list BatchCommandResult :=
  match m with Returned _ (_, inl rs) => rs | _ => [] end.

Lemma acknowledged_never_lost_witness :
  exists cs rs new rs',
    runs new_book cs (de_order_book engine2) rs /\
    runs new_book (cs ++ drop 1 sample_cs) (de_order_book engine3) (rs ++ results_after batch2) /\
    runs new_book ((cs ++ drop 1 sample_cs) ++ new) (de_order_book engine4) rs'.
Proof.
  apply (acknowledged_never_lost no_faults sample_path first_world first_proc first_engine
    proc2 engine2 no_faults (drop 1 sample_cs) proc3 engine3 (results_after batch2) proc4 engine4).
  - apply first_created.
  - apply rtc_once. apply (step_batch sample_path no_faults (take 1 sample_cs) _ _ _ _
      (inl (results_after batch1))); [decide_now|vm_compute; reflexivity].
  - decide_now.
  - vm_compute. reflexivity.
  - eapply rtc_l; [apply (step_power_loss sample_path _ rebooted)|apply rtc_once].
    + change (contents (os rebooted) sample_path ∈ mem_crash (os proc3) sample_path). decide_now.
    + intros x Hx. change (x ∈ [Some (journal_bytes sample_cs)]) in Hx.
      apply list_elem_of_singleton in Hx as ->. vm_compute. reflexivity.
    + apply (step_recover sample_path no_faults rebooted). vm_compute. reflexivity.
  - vm_compute. reflexivity.
Defined.
