(* ===== verification/JournalDescriptors.v ===== *)
(** * The descriptors of journal storage

    Which descriptors are open after an operation of the journal or of the
    engine that owns it: on every path, also when a system call fails in the
    middle, nothing is open that was not open before, except for the descriptor
    of the writer that is returned. *)
From S2P Require Import Prelude Types Bytes OrderBook OrderBookInv Journal JournalProps Posix MemoryFs JournalStorage.
From S2P Require Import JournalFile JournalStorageProps DurableEngine DurableEngineProps.
Import Journal JournalStorage.

Section descriptors.
  Context {W : Type} `{!Posix W, !PosixView W, !PosixLaws W}.
  Implicit Types (s : Proc W) (p : path) (w : W).

Definition same_opened w w' : Prop := forall fd, opened w' fd = opened w fd.

(** [fd] is open now, and was not; nothing else has changed. *)
Definition opens (fd : Fd) w w' : Prop :=
  0 <= fd /\ opened w fd = None /\ opened w' fd <> None /\ forall fd', fd' <> fd -> opened w' fd' = opened w fd'.

Lemma same_opened_trans w1 w2 w3 : same_opened w1 w2 -> same_opened w2 w3 -> same_opened w1 w3.
Proof. intros H1 H2 fd. by rewrite H2. Qed.

Lemma quiet_same_opened w w' : quiet w w' -> same_opened w w'.
Proof. by intros [_ H]. Qed.

Lemma opens_same fd w1 w2 w3 : opens fd w1 w2 -> same_opened w2 w3 -> opens fd w1 w3.
Proof. intros (H0 & Hn & Ho & Hx) H. split_and!; [done..|by rewrite H|]. intros fd' Hne. by rewrite H, Hx. Qed.

Lemma open_opens mode p w w' fd : sys_open mode p w = (w', inl fd) -> opens fd w w'.
Proof. intros E. destruct (open_opened _ _ _ _ _ E) as (H0 & Hn & Ho & Hx). split_and!; [done..|by rewrite Ho|done]. Qed.

(** Closing it undoes the opening. *)
Lemma opens_close fd w s : opens fd w (os s) -> same_opened w (os (close_descriptor fd s)).
Proof.
  intros (H0 & Hn & _ & Hx) fd'. unfold close_descriptor. rewrite (proj2 (Z.leb_le _ _)) by done. simpl.
  destruct (close_closes fd (os s)) as (_ & Hc & Hcx). destruct (decide (fd' = fd)) as [->|Hne]; [congruence|].
  by rewrite Hcx, Hx.
Qed.

(** ** Journal storage *)

(** What is open after an operation that may return a writer. *)
Definition opens_writer (r : JournalWriter + JournalStorageError) w w' : Prop :=
  match r with
  | inl wr => opens (jw_file_descriptor wr) w w'
  | inr _ => same_opened w w'
  end.

Lemma create_opens p s :
  exists s' r, create p s = Returned s' r /\ opens_writer r (os s) (os s').
Proof.
  unfold create. split_call E. destruct r as [fd|e]; cycle 1.
  { apply open_failed in E as [_ E]. case_match; by eexists _, _. }
  pose proof (open_opens _ _ _ _ _ E) as H. destruct (open_opened _ _ _ _ _ E) as (_ & _ & Ho & _).
  destruct (open_create _ _ _ _ E) as (_ & Hempty & _).
  destruct (write_all_spec fd CreateExclusive p encode_file_header false (set_os w s))
    as (s2 & r & d & E2 & _ & Ha & _); [done|done|cbn; by rewrite Hempty|].
  rewrite E2. cbn [obind]. assert (opens fd (os s) (os s2)) as H2 by (eapply opens_same; [exact H|exact (ap_opened _ _ _ _ Ha)]).
  destruct r as [e|]; [eexists _, _; split; [done|]; cbn; by apply opens_close|].
  split_call E3. pose proof (fsync_files _ _ _ _ E3) as Hq3.
  assert (opens fd (os s) w0) as H3 by (eapply opens_same; [exact H2|exact (proj2 Hq3)]).
  destruct r as [e|]; [eexists _, _; split; [done|]; cbn; by apply opens_close|].
  destruct (sync_directory_spec p (set_os w0 s2)) as (s4 & r & E4 & Hq4 & _). rewrite E4.
  assert (opens fd (os s) (os s4)) as H4 by (eapply opens_same; [exact H3|exact (proj2 Hq4)]).
  destruct r as [e|]; eexists _, _; (split; [done|]); cbn; [by apply opens_close|done].
Qed.

(** The descriptor that the two ways of opening a journal scan. *)
Lemma open_scan_opens p s s1 fd s2 :
  sys_open ReadWriteAppend p (os s) = (os s1, inl fd) -> quiet (os s1) (os s2) -> opens fd (os s) (os s2).
Proof. intros E Hq. eapply opens_same; [by eapply open_opens|exact (proj2 Hq)]. Qed.

Lemma open_recovered_opens p s :
  exists s' r, open_recovered p s = Returned s' r /\ opens_writer r (os s) (os s').
Proof.
  unfold open_recovered.
  destruct (open_scan_spec p s) as [(s1 & e & -> & Hq & _)|(s1 & fd & s2 & r & C & -> & E & E2 & Hq & _)].
  { eexists _, _. split; [done|]. exact (proj2 Hq). }
  pose proof (open_scan_opens _ _ _ _ _ E Hq) as H. rewrite E2. cbn [obind].
  destruct r as [sc|e]; [|eexists _, _; split; [done|]; cbn; by apply opens_close].
  destruct (scan_has_truncated_tail sc); eexists _, _; (split; [done|]); cbn; [by apply opens_close|done].
Qed.

Lemma repair_opens p s :
  exists s' r, repair_truncated_tail_and_open p s = Returned s' r /\ opens_writer r (os s) (os s').
Proof.
  unfold repair_truncated_tail_and_open.
  destruct (open_scan_spec p s) as [(s1 & e & -> & Hq & _)|(s1 & fd & s2 & r & C & -> & E & E2 & Hq & HC & Hs & Ho & Hr)].
  { eexists _, _. split; [done|]. exact (proj2 Hq). }
  pose proof (open_scan_opens _ _ _ _ _ E Hq) as H. rewrite E2. cbn [obind].
  destruct r as [sc|e]; [|eexists _, _; split; [done|]; cbn; by apply opens_close].
  destruct (negb (scan_has_truncated_tail sc)); [eexists _, _; split; [done|]; cbn; by apply opens_close|].
  destruct (OFF_MAX <? scan_valid_size sc); [eexists _, _; split; [done|]; cbn; by apply opens_close|].
  destruct (contents_bytes _ _ _ HC) as [Hw Hmax]. destruct Hr as [Hv|(e & ? & _)]; [|done].
  destruct (file_verdict_sound C (inl sc) Hw Hv) as (cs & t & (-> & _) & ->). cbn [scan_valid_size scanned].
  split_call E3. destruct r as [e|].
  { apply ftruncate_failed in E3 as [_ E3]. eexists _, _. split; [done|]. cbn. apply opens_close.
    by eapply opens_same. }
  rewrite <- (sf_contents _ _ Hs) in HC.
  destruct (ftruncate_takes _ _ _ _ _ _ _ E3 Ho eq_refl HC) as (_ & _ & Ho3 & _); [rewrite length_app; lia|].
  split_call E4. apply fsync_files in E4 as [_ Ho4].
  assert (opens fd (os s) w0) as H4 by (eapply opens_same; [by eapply opens_same|done]).
  destruct r as [e|]; eexists _, _; (split; [done|]); cbn; [by apply opens_close|done].
Qed.

(** ** The engine *)

(** What is open after an operation that may return an engine. *)
Definition opens_engine (r : CreateResult) w w' : Prop :=
  match r with
  | inl e => opens (jw_file_descriptor (de_writer e)) w w'
  | inr _ => same_opened w w'
  end.

Lemma create_engine_opens faults p s :
  exists s' r, Durable.create faults p s = Returned s' r /\ opens_engine r (os s) (os s').
Proof.
  unfold Durable.create. destruct (create_opens p s) as (s1 & r & -> & Hr). cbn [obind].
  destruct r as [wr|e]; [|by eexists _, _].
  destruct (engine_alloc_fault faults); eexists _, _; (split; [done|]); cbn; [by apply opens_close|done].
Qed.

(** Replaying a file that was scanned does not crash, whatever the book throws. *)
Lemma recover_replay_opens faults p wr cs truncated s0 s :
  Forall wf_journal_command cs ->
  match wr with
  | Some wr => opens (jw_file_descriptor wr) (os s0) (os s)
  | None => same_opened (os s0) (os s)
  end ->
  exists s' r, Durable.recover_replay faults p wr (scanned cs truncated) s = Returned s' r /\
    opens_engine r (os s0) (os s').
Proof.
  intros Hcs Hwr. assert (same_opened (os s0) (os (Durable.destroy_optional_writer wr s))) as Hdrop.
  { destruct wr as [wr|]; [by apply opens_close|done]. }
  unfold Durable.recover_replay. destruct (engine_alloc_fault faults); [by eexists _, _|].
  unfold Durable.replay. cbn [scan_records scanned].
  pose proof (replay_records_spec faults 0 1 cs new_book Inv_new_book Hcs) as Hrep.
  destruct (Durable.replay_records faults 0 _ new_book) as [b u|b|]; [|by eexists _, _|done].
  destruct wr as [wr|]; [by eexists _, _|].
  destruct (open_recovered_opens p s) as (s1 & r & -> & Hr). cbn [obind].
  destruct r as [wr|e]; eexists _, _; (split; [done|]); cbn in *; [|by eapply same_opened_trans].
  destruct Hr as (H0 & Hn & Ho & Hx). split_and!; [done|by rewrite <- Hwr|done|]. intros fd' Hne. by rewrite Hx, Hwr.
Qed.

(** A scan that succeeds has read well-formed commands. *)
Lemma scan_opens p s :
  exists s' r, scan p s = Returned s' r /\ same_opened (os s) (os s') /\
    match r with
    | inl sc => exists cs truncated, sc = scanned cs truncated /\ Forall wf_journal_command cs
    | inr _ => True
    end.
Proof.
  destruct (scan_spec p s) as (s' & r & E & Hq & Hr). exists s', r. split_and!; [done|exact (proj2 Hq)|].
  destruct r as [sc|e]; [|done]. destruct Hr as [(e & ? & _)|(C & HC & Hv)]; [done|].
  destruct (contents_bytes _ _ _ HC) as [Hw _].
  destruct (file_verdict_sound C (inl sc) Hw Hv) as (cs & t & (_ & Hcs & _) & ->). by exists cs, (bool_decide (t <> [])).
Qed.

Lemma recover_engine_opens faults p s :
  exists s' r, Durable.recover faults p s = Returned s' r /\ opens_engine r (os s) (os s').
Proof.
  unfold Durable.recover. destruct (scan_opens p s) as (s1 & r1 & -> & H1 & Hr1). cbn [obind].
  destruct r1 as [sc1|e]; [|by eexists _, _]. destruct Hr1 as (cs1 & t1 & -> & Hcs1).
  cbn [scan_has_truncated_tail scanned]. destruct t1; [|by apply recover_replay_opens].
  destruct (repair_opens p s1) as (s2 & r2 & -> & Hr2). cbn [obind].
  destruct r2 as [wr|e]; [|eexists _, _; split; [done|]; cbn in *; by eapply same_opened_trans].
  destruct (scan_opens p s2) as (s3 & r3 & -> & H3 & Hr3). cbn [obind].
  assert (opens (jw_file_descriptor wr) (os s) (os s3)) as H.
  { eapply opens_same; [|exact H3]. cbn in Hr2. destruct Hr2 as (H0 & Hn & Ho & Hx).
    split_and!; [done|by rewrite <- H1|done|]. intros fd' Hne. by rewrite Hx, H1. }
  destruct r3 as [sc3|e]; [|eexists _, _; split; [done|]; cbn; by apply opens_close].
  destruct Hr3 as (cs3 & t3 & -> & Hcs3). cbn [scan_has_truncated_tail scanned].
  destruct t3; [eexists _, _; split; [done|]; cbn; by apply opens_close|]. by apply recover_replay_opens.
Qed.

(** C31: the journal leaks no descriptor.  Whatever the journal file contains,
    which system calls fail and where memory runs out, creating or recovering an
    engine ends with a result, and then exactly one more descriptor is open, the one
    of the engine's writer, or none if there is an error; and when the engine is
    destroyed, everything is as before. *)
Theorem descriptors_never_leak faults p s :
  (exists s' r, Durable.create faults p s = Returned s' r /\ opens_engine r (os s) (os s') /\
     forall e, r = inl e -> same_opened (os s) (os (destroy_writer (de_writer e) s'))) /\
  (exists s' r, Durable.recover faults p s = Returned s' r /\ opens_engine r (os s) (os s') /\
     forall e, r = inl e -> same_opened (os s) (os (destroy_writer (de_writer e) s'))).
Proof.
  destruct (create_engine_opens faults p s) as (s1 & r1 & E1 & H1).
  destruct (recover_engine_opens faults p s) as (s2 & r2 & E2 & H2). split.
  - exists s1, r1. split_and!; [done..|]. intros e ->. by apply opens_close.
  - exists s2, r2. split_and!; [done..|]. intros e ->. by apply opens_close.
Qed.

End descriptors.

(** A file that is no journal, and a journal with a torn record at its end. *)
Lemma descriptors_never_leak_witness :
  (exists s' e, Durable.recover no_faults sample_path (sample_proc (Some [1; 2; 3]) []) = Returned s' (inr e) /\
     same_opened (os (sample_proc (Some [1; 2; 3]) [])) (os s')) /\
  (exists s' e, Durable.recover no_faults sample_path (sample_proc (Some sample_cut) []) = Returned s' (inl e) /\
     same_opened (os (sample_proc (Some sample_cut) [])) (os (destroy_writer (de_writer e) s'))).
Proof.
  split.
  - destruct (descriptors_never_leak no_faults sample_path (sample_proc (Some [1; 2; 3]) [])) as [_ (s' & r & E & H & _)].
    assert (recovered (Durable.recover no_faults sample_path (sample_proc (Some [1; 2; 3]) [])) = false)
      as Hr by (vm_compute; reflexivity).
    rewrite E in Hr. destruct r as [e|e]; [discriminate Hr|]. exists s', e. split; [exact E|exact H].
  - destruct (descriptors_never_leak no_faults sample_path (sample_proc (Some sample_cut) [])) as [_ (s' & r & E & _ & H)].
    assert (recovered (Durable.recover no_faults sample_path (sample_proc (Some sample_cut) [])) = true)
      as Hr by (vm_compute; reflexivity).
    rewrite E in Hr. destruct r as [e|e]; [|discriminate Hr]. exists s', e. split; [exact E|exact (H e eq_refl)].
Defined.
