(* ===== verification/Wire.v ===== *)
(** * The wire protocol (definitions)

    include/matching/wire_protocol.hpp and src/wire_protocol.cpp: frames of the
    client and of the server, their codecs, and the incremental parser of a
    connection.  As in the journal, [None] as the result of a decoder stands
    for a read outside the span.  The enumerations that travel in payloads have
    a fixed underlying type and the encoder checks them before it writes them,
    so a value of such a type is any number of that width; sizes and cursors
    are [nat]: the subtractions of the parser never go below zero, as its
    invariant shows. *)
From S2P Require Import Prelude Types Bytes.

Module Wire.

Abbreviation RequestId := Z (only parsing).

(** 0x4D455847 is [MEXG] in big-endian ASCII. *)
Definition kWireProtocolMagic : Z := 0x4D455847.
Definition kWireProtocolVersion : Z := 1.
Definition kWireFrameHeaderSize : nat := 20.
Definition kWireMaximumPayloadLength : Z := 4096.
Definition kSubmitLimitOrderRequestPayloadSize : nat := 25.
Definition kCancelOrderRequestPayloadSize : nat := 8.
Definition kSubmitResultResponsePayloadSize : nat := 18.
Definition kCancelResultResponsePayloadSize : nat := 9.
Definition kProtocolErrorResponsePayloadSize : nat := 2.
Definition kEngineUnavailableResponsePayloadSize : nat := 1.

Inductive WireMessageType :=
| SubmitLimitOrder
| CancelOrder
| SubmitResult
| CancelResult
| ProtocolError
| EngineUnavailable.

#[export] Instance WireMessageType_eq_dec : EqDecision WireMessageType.
Proof. solve_decision. Defined.

Definition message_type_value (type : WireMessageType) : Z :=
  match type with
  | SubmitLimitOrder => 1
  | CancelOrder => 2
  | SubmitResult => 101
  | CancelResult => 102
  | ProtocolError => 103
  | EngineUnavailable => 104
  end.

(** [enum class WireRejectionCode : std::uint8_t]. *)
Abbreviation WireRejectionCode := Z (only parsing).
Definition RejectionNone : WireRejectionCode := 0.
Definition RejectionInvalidOrderId : WireRejectionCode := 1.
Definition RejectionInvalidSide : WireRejectionCode := 2.
Definition RejectionInvalidPrice : WireRejectionCode := 3.
Definition RejectionInvalidQuantity : WireRejectionCode := 4.
Definition RejectionDuplicateOrderId : WireRejectionCode := 5.
Definition RejectionQuantityOverflow : WireRejectionCode := 6.
Definition RejectionSequenceExhausted : WireRejectionCode := 7.
Definition RejectionTradeIdExhausted : WireRejectionCode := 8.

(** [enum class WireSubmitStatus : std::uint8_t]. *)
Abbreviation WireSubmitStatus := Z (only parsing).
Definition SubmitAccepted : WireSubmitStatus := 1.
Definition SubmitRejected : WireSubmitStatus := 2.

(** [enum class WireCancelStatus : std::uint8_t]. *)
Abbreviation WireCancelStatus := Z (only parsing).
Definition CancelCancelled : WireCancelStatus := 1.
Definition CancelNotFound : WireCancelStatus := 2.

(** [enum class WireProtocolErrorCode : std::uint16_t]. *)
Abbreviation WireProtocolErrorCode := Z (only parsing).
Definition CodeBadMagic : WireProtocolErrorCode := 1.
Definition CodeUnsupportedVersion : WireProtocolErrorCode := 2.
Definition CodeUnsupportedMessageType : WireProtocolErrorCode := 3.
Definition CodePayloadTooLarge : WireProtocolErrorCode := 4.
Definition CodeInvalidPayloadLength : WireProtocolErrorCode := 5.
Definition CodeMalformedPayload : WireProtocolErrorCode := 6.
Definition CodeBufferLimitExceeded : WireProtocolErrorCode := 7.

(** [enum class WireEngineUnavailableCode : std::uint8_t]. *)
Abbreviation WireEngineUnavailableCode := Z (only parsing).
Definition Unavailable : WireEngineUnavailableCode := 1.

Inductive WireCodecError :=
| TruncatedInput
| UnexpectedTrailingBytes
| BadMagic
| UnsupportedVersion
| UnsupportedMessageType
| PayloadTooLarge
| InvalidPayloadLength
| MalformedPayload
| BufferLimitExceeded.

#[export] Instance WireCodecError_eq_dec : EqDecision WireCodecError.
Proof. solve_decision. Defined.

Record SubmitLimitOrderRequest := mkSubmitLimitOrderRequest {
  slr_order_id : OrderId;
  slr_raw_side : Z;
  slr_limit_price : Price;
  slr_quantity : Quantity;
}.

Inductive ClientMessage :=
| SubmitLimitOrderMessage (request : SubmitLimitOrderRequest)
| CancelOrderMessage (order_id : OrderId).

Record SubmitResultResponse := mkSubmitResultResponse {
  srr_status : WireSubmitStatus;
  srr_rejection_code : WireRejectionCode;
  srr_executed_quantity : Quantity;
  srr_resting_quantity : Quantity;
}.

Record CancelResultResponse := mkCancelResultResponse {
  crr_status : WireCancelStatus;
  crr_cancelled_quantity : Quantity;
}.

Inductive ServerMessage :=
| SubmitResultMessage (response : SubmitResultResponse)
| CancelResultMessage (response : CancelResultResponse)
| ProtocolErrorMessage (code : WireProtocolErrorCode)
| EngineUnavailableMessage (code : WireEngineUnavailableCode).

Record WireEnvelope (Message : Type) := mkWireEnvelope {
  request_id : RequestId;
  message : Message;
}.
Arguments mkWireEnvelope {Message}.
Arguments request_id {Message}.
Arguments message {Message}.

(** [DecodedClientFrame] and [DecodedServerFrame]. *)
Record DecodedFrame (Message : Type) := mkDecodedFrame {
  envelope : WireEnvelope Message;
  bytes_consumed : nat;
}.
Arguments mkDecodedFrame {Message}.
Arguments envelope {Message}.
Arguments bytes_consumed {Message}.

Record FrameHeader := mkFrameHeader {
  fh_type : WireMessageType;
  fh_payload_length : Z;
  fh_request_id : RequestId;
}.

(** ** Numbers *)

Definition append_u8 (bytes : list byte) (value : Z) : list byte := bytes ++ [to_u8 value].

Definition append_u16 (bytes : list byte) (value : Z) : list byte :=
  append_u8 (append_u8 bytes (Z.shiftr value 8)) value.

(** [for (shift = 8 * n; ; shift -= 8) { append_u8(...); if (shift == 0) return; }]. *)
Fixpoint append_shifted (n : nat) (bytes : list byte) (value : Z) : list byte :=
  let bytes := append_u8 bytes (Z.shiftr value (8 * Z.of_nat n)) in
  match n with
  | O => bytes
  | S n' => append_shifted n' bytes value
  end.

Definition append_u32 (bytes : list byte) (value : Z) : list byte := append_shifted 3 bytes value.
Definition append_u64 (bytes : list byte) (value : Z) : list byte := append_shifted 7 bytes value.

Definition read_u16 (bytes : list byte) (offset : nat) : option Z :=
  let? hi := bytes !! offset in
  let? lo := bytes !! (offset + 1)%nat in
  Some (Z.lor (Z.shiftl hi 8) lo mod U16_MOD).

Definition read_u32 (bytes : list byte) (offset : nat) : option Z :=
  read_loop U32_MOD 4 bytes offset 0.

Definition read_u64 (bytes : list byte) (offset : nat) : option Z :=
  read_loop U64_MOD 8 bytes offset 0.

(** ** Headers *)

Definition decode_message_type (value : Z) : option WireMessageType :=
  if value =? message_type_value SubmitLimitOrder then Some SubmitLimitOrder
  else if value =? message_type_value CancelOrder then Some CancelOrder
  else if value =? message_type_value SubmitResult then Some SubmitResult
  else if value =? message_type_value CancelResult then Some CancelResult
  else if value =? message_type_value ProtocolError then Some ProtocolError
  else if value =? message_type_value EngineUnavailable then Some EngineUnavailable
  else None.

Definition is_client_message_type (type : WireMessageType) : bool :=
  bool_decide (type = SubmitLimitOrder) || bool_decide (type = CancelOrder).

Definition is_server_message_type (type : WireMessageType) : bool :=
  bool_decide (type = SubmitResult) || bool_decide (type = CancelResult) ||
  bool_decide (type = ProtocolError) || bool_decide (type = EngineUnavailable).

Definition expected_payload_length (type : WireMessageType) : option nat :=
  match type with
  | SubmitLimitOrder => Some kSubmitLimitOrderRequestPayloadSize
  | CancelOrder => Some kCancelOrderRequestPayloadSize
  | SubmitResult => Some kSubmitResultResponsePayloadSize
  | CancelResult => Some kCancelResultResponsePayloadSize
  | ProtocolError => Some kProtocolErrorResponsePayloadSize
  | EngineUnavailable => Some kEngineUnavailableResponsePayloadSize
  end.

Definition decode_header (bytes : list byte) : option (FrameHeader + WireCodecError) :=
  if bool_decide (length bytes < 4)%nat then Some (inr TruncatedInput) else
  let? magic := read_u32 bytes 0 in
  if negb (magic =? kWireProtocolMagic) then Some (inr BadMagic) else
  if bool_decide (length bytes < 6)%nat then Some (inr TruncatedInput) else
  let? version := read_u16 bytes 4 in
  if negb (version =? kWireProtocolVersion) then Some (inr UnsupportedVersion) else
  if bool_decide (length bytes < 8)%nat then Some (inr TruncatedInput) else
  let? raw_type := read_u16 bytes 6 in
  match decode_message_type raw_type with
  | None => Some (inr UnsupportedMessageType)
  | Some type =>
      if bool_decide (length bytes < 12)%nat then Some (inr TruncatedInput) else
      let? payload_length := read_u32 bytes 8 in
      if kWireMaximumPayloadLength <? payload_length then Some (inr PayloadTooLarge) else
      match expected_payload_length type with
      | None => Some (inr InvalidPayloadLength)
      | Some expected_length =>
          if negb (payload_length =? Z.of_nat expected_length)
          then Some (inr InvalidPayloadLength) else
          if bool_decide (length bytes < kWireFrameHeaderSize)%nat
          then Some (inr TruncatedInput) else
          let? id := read_u64 bytes 12 in
          Some (inl (mkFrameHeader type payload_length id))
      end
  end.

Definition has_complete_frame (bytes : list byte) (header : FrameHeader) : bool :=
  bool_decide (kWireFrameHeaderSize + Z.to_nat (fh_payload_length header) <= length bytes)%nat.

(** ** Payload values *)

Definition is_known_rejection_code (code : WireRejectionCode) : bool :=
  existsb (Z.eqb code)
    [RejectionNone; RejectionInvalidOrderId; RejectionInvalidSide; RejectionInvalidPrice;
     RejectionInvalidQuantity; RejectionDuplicateOrderId; RejectionQuantityOverflow;
     RejectionSequenceExhausted; RejectionTradeIdExhausted].

Definition decode_rejection_code (value : Z) : option WireRejectionCode :=
  if is_known_rejection_code value then Some value else None.

Definition decode_submit_status (value : Z) : option WireSubmitStatus :=
  if value =? SubmitAccepted then Some SubmitAccepted
  else if value =? SubmitRejected then Some SubmitRejected
  else None.

Definition decode_cancel_status (value : Z) : option WireCancelStatus :=
  if value =? CancelCancelled then Some CancelCancelled
  else if value =? CancelNotFound then Some CancelNotFound
  else None.

Definition decode_protocol_error_code (value : Z) : option WireProtocolErrorCode :=
  if value =? CodeBadMagic then Some CodeBadMagic
  else if value =? CodeUnsupportedVersion then Some CodeUnsupportedVersion
  else if value =? CodeUnsupportedMessageType then Some CodeUnsupportedMessageType
  else if value =? CodePayloadTooLarge then Some CodePayloadTooLarge
  else if value =? CodeInvalidPayloadLength then Some CodeInvalidPayloadLength
  else if value =? CodeMalformedPayload then Some CodeMalformedPayload
  else if value =? CodeBufferLimitExceeded then Some CodeBufferLimitExceeded
  else None.

Definition decode_engine_unavailable_code (value : Z) : option WireEngineUnavailableCode :=
  if value =? Unavailable then Some Unavailable else None.

Definition valid_submit_result (response : SubmitResultResponse) : bool :=
  if negb (is_known_rejection_code (srr_rejection_code response)) then false
  else ((srr_status response =? SubmitAccepted) &&
        (srr_rejection_code response =? RejectionNone)) ||
       ((srr_status response =? SubmitRejected) &&
        negb (srr_rejection_code response =? RejectionNone)).

Definition valid_cancel_result (response : CancelResultResponse) : bool :=
  (crr_status response =? CancelCancelled) || (crr_status response =? CancelNotFound).

(** ** Conversions to and from the domain types *)

Definition to_wire_rejection_code (reason : RejectionReason) : option WireRejectionCode :=
  match reason with
  | InvalidOrderId => Some RejectionInvalidOrderId
  | InvalidSide => Some RejectionInvalidSide
  | InvalidPrice => Some RejectionInvalidPrice
  | InvalidQuantity => Some RejectionInvalidQuantity
  | DuplicateOrderId => Some RejectionDuplicateOrderId
  | QuantityOverflow => Some RejectionQuantityOverflow
  | SequenceExhausted => Some RejectionSequenceExhausted
  | TradeIdExhausted => Some RejectionTradeIdExhausted
  end.

Definition to_domain_rejection_reason (code : WireRejectionCode) : option RejectionReason :=
  if code =? RejectionInvalidOrderId then Some InvalidOrderId
  else if code =? RejectionInvalidSide then Some InvalidSide
  else if code =? RejectionInvalidPrice then Some InvalidPrice
  else if code =? RejectionInvalidQuantity then Some InvalidQuantity
  else if code =? RejectionDuplicateOrderId then Some DuplicateOrderId
  else if code =? RejectionQuantityOverflow then Some QuantityOverflow
  else if code =? RejectionSequenceExhausted then Some SequenceExhausted
  else if code =? RejectionTradeIdExhausted then Some TradeIdExhausted
  else None.

Definition to_wire_cancel_status (status : CancelStatus) : option WireCancelStatus :=
  match status with
  | Cancelled => Some CancelCancelled
  | NotFound => Some CancelNotFound
  end.

Definition to_domain_cancel_status (status : WireCancelStatus) : option CancelStatus :=
  if status =? CancelCancelled then Some Cancelled
  else if status =? CancelNotFound then Some NotFound
  else None.

Definition to_wire_protocol_error_code (error : WireCodecError) : option WireProtocolErrorCode :=
  match error with
  | BadMagic => Some CodeBadMagic
  | UnsupportedVersion => Some CodeUnsupportedVersion
  | UnsupportedMessageType => Some CodeUnsupportedMessageType
  | PayloadTooLarge => Some CodePayloadTooLarge
  | InvalidPayloadLength => Some CodeInvalidPayloadLength
  | MalformedPayload => Some CodeMalformedPayload
  | BufferLimitExceeded => Some CodeBufferLimitExceeded
  | TruncatedInput | UnexpectedTrailingBytes => None
  end.

(** ** Frames *)

Definition encode_header (type : WireMessageType) (payload_length : nat) (id : RequestId)
  : list byte :=
  let bytes := append_u32 [] kWireProtocolMagic in
  let bytes := append_u16 bytes kWireProtocolVersion in
  let bytes := append_u16 bytes (message_type_value type) in
  let bytes := append_u32 bytes (Z.of_nat payload_length mod U32_MOD) in
  append_u64 bytes id.

Definition encode_client_frame (e : WireEnvelope ClientMessage) : list byte + WireCodecError :=
  match message e with
  | SubmitLimitOrderMessage m =>
      let bytes := encode_header SubmitLimitOrder kSubmitLimitOrderRequestPayloadSize (request_id e) in
      let bytes := append_u64 bytes (slr_order_id m) in
      let bytes := append_u8 bytes (slr_raw_side m) in
      let bytes := append_u64 bytes (slr_limit_price m) in
      inl (append_u64 bytes (slr_quantity m))
  | CancelOrderMessage order_id =>
      let bytes := encode_header CancelOrder kCancelOrderRequestPayloadSize (request_id e) in
      inl (append_u64 bytes order_id)
  end.

Definition encode_server_frame (e : WireEnvelope ServerMessage) : list byte + WireCodecError :=
  match message e with
  | SubmitResultMessage m =>
      if negb (valid_submit_result m) then inr MalformedPayload else
      let bytes := encode_header SubmitResult kSubmitResultResponsePayloadSize (request_id e) in
      let bytes := append_u8 bytes (srr_status m) in
      let bytes := append_u8 bytes (srr_rejection_code m) in
      let bytes := append_u64 bytes (srr_executed_quantity m) in
      inl (append_u64 bytes (srr_resting_quantity m))
  | CancelResultMessage m =>
      if negb (valid_cancel_result m) then inr MalformedPayload else
      let bytes := encode_header CancelResult kCancelResultResponsePayloadSize (request_id e) in
      let bytes := append_u8 bytes (crr_status m) in
      inl (append_u64 bytes (crr_cancelled_quantity m))
  | ProtocolErrorMessage code =>
      match decode_protocol_error_code code with
      | None => inr MalformedPayload
      | Some _ =>
          let bytes := encode_header ProtocolError kProtocolErrorResponsePayloadSize (request_id e) in
          inl (append_u16 bytes code)
      end
  | EngineUnavailableMessage code =>
      if negb (code =? Unavailable) then inr MalformedPayload else
      let bytes :=
        encode_header EngineUnavailable kEngineUnavailableResponsePayloadSize (request_id e) in
      inl (append_u8 bytes code)
  end.

(** The message of a client frame, from its payload. *)
Definition decode_client_payload (type : WireMessageType) (payload : list byte)
  : option ClientMessage :=
  if bool_decide (type = SubmitLimitOrder) then
    let? id := read_u64 payload 0 in
    let? side := payload !! 8%nat in
    let? price := read_u64 payload 9 in
    let? quantity := read_u64 payload 17 in
    Some (SubmitLimitOrderMessage (mkSubmitLimitOrderRequest id side price quantity))
  else
    let? id := read_u64 payload 0 in
    Some (CancelOrderMessage id).

Definition decode_client_frame_prefix (bytes : list byte)
  : option (DecodedFrame ClientMessage + WireCodecError) :=
  let? header_result := decode_header bytes in
  match header_result with
  | inr error => Some (inr error)
  | inl header =>
      if negb (is_client_message_type (fh_type header)) then Some (inr UnsupportedMessageType) else
      if negb (has_complete_frame bytes header) then Some (inr TruncatedInput) else
      let payload_length := Z.to_nat (fh_payload_length header) in
      let? payload := subspan bytes kWireFrameHeaderSize payload_length in
      let? m := decode_client_payload (fh_type header) payload in
      Some (inl (mkDecodedFrame (mkWireEnvelope (fh_request_id header) m)
                   (kWireFrameHeaderSize + payload_length)))
  end.

(** The [switch] of [decode_server_frame_prefix]. *)
Definition decode_server_payload (type : WireMessageType) (payload : list byte)
  : option (ServerMessage + WireCodecError) :=
  match type with
  | SubmitResult =>
      let? raw_status := payload !! 0%nat in
      let? raw_code := payload !! 1%nat in
      match decode_submit_status raw_status, decode_rejection_code raw_code with
      | Some status, Some rejection_code =>
          let? executed := read_u64 payload 2 in
          let? resting := read_u64 payload 10 in
          let response := mkSubmitResultResponse status rejection_code executed resting in
          if negb (valid_submit_result response) then Some (inr MalformedPayload)
          else Some (inl (SubmitResultMessage response))
      | _, _ => Some (inr MalformedPayload)
      end
  | CancelResult =>
      let? raw_status := payload !! 0%nat in
      match decode_cancel_status raw_status with
      | None => Some (inr MalformedPayload)
      | Some status =>
          let? cancelled := read_u64 payload 1 in
          let response := mkCancelResultResponse status cancelled in
          if negb (valid_cancel_result response) then Some (inr MalformedPayload)
          else Some (inl (CancelResultMessage response))
      end
  | ProtocolError =>
      let? raw_code := read_u16 payload 0 in
      match decode_protocol_error_code raw_code with
      | None => Some (inr MalformedPayload)
      | Some code => Some (inl (ProtocolErrorMessage code))
      end
  | EngineUnavailable =>
      let? raw_code := payload !! 0%nat in
      match decode_engine_unavailable_code raw_code with
      | None => Some (inr MalformedPayload)
      | Some code => Some (inl (EngineUnavailableMessage code))
      end
  | SubmitLimitOrder | CancelOrder => Some (inr UnsupportedMessageType)
  end.

Definition decode_server_frame_prefix (bytes : list byte)
  : option (DecodedFrame ServerMessage + WireCodecError) :=
  let? header_result := decode_header bytes in
  match header_result with
  | inr error => Some (inr error)
  | inl header =>
      if negb (is_server_message_type (fh_type header)) then Some (inr UnsupportedMessageType) else
      if negb (has_complete_frame bytes header) then Some (inr TruncatedInput) else
      let payload_length := Z.to_nat (fh_payload_length header) in
      let? payload := subspan bytes kWireFrameHeaderSize payload_length in
      let? result := decode_server_payload (fh_type header) payload in
      match result with
      | inr error => Some (inr error)
      | inl m => Some (inl (mkDecodedFrame (mkWireEnvelope (fh_request_id header) m)
                              (kWireFrameHeaderSize + payload_length)))
      end
  end.

Definition require_exact_frame {Message} (result : DecodedFrame Message + WireCodecError)
    (input_size : nat) : DecodedFrame Message + WireCodecError :=
  match result with
  | inr error => inr error
  | inl frame =>
      if negb (bool_decide (bytes_consumed frame = input_size)) then inr UnexpectedTrailingBytes
      else inl frame
  end.

Definition decode_client_frame (bytes : list byte)
  : option (DecodedFrame ClientMessage + WireCodecError) :=
  let? result := decode_client_frame_prefix bytes in
  Some (require_exact_frame result (length bytes)).

Definition decode_server_frame (bytes : list byte)
  : option (DecodedFrame ServerMessage + WireCodecError) :=
  let? result := decode_server_frame_prefix bytes in
  Some (require_exact_frame result (length bytes)).

(** ** The stream parser *)

Record ClientStreamParser := mkClientStreamParser {
  buffer_ : list byte;
  read_cursor_ : nat;
  maximum_buffered_bytes_ : nat;
  failure_ : option WireCodecError;
}.

Record ClientParseFeedResult := mkClientParseFeedResult {
  messages : list (WireEnvelope ClientMessage);
  error : option WireCodecError;
}.

Definition new_parser (maximum_buffered_bytes : nat) : ClientStreamParser :=
  mkClientStreamParser [] 0 maximum_buffered_bytes None.

Definition fail (p : ClientStreamParser) (result : ClientParseFeedResult) (e : WireCodecError)
  : ClientStreamParser * ClientParseFeedResult :=
  (mkClientStreamParser (buffer_ p) (read_cursor_ p) (maximum_buffered_bytes_ p) (Some e),
   mkClientParseFeedResult (messages result) (Some e)).

Definition compact_if_needed (p : ClientStreamParser) : ClientStreamParser :=
  if bool_decide (read_cursor_ p = 0)%nat then p else
  if bool_decide (read_cursor_ p = length (buffer_ p))
  then mkClientStreamParser [] 0 (maximum_buffered_bytes_ p) (failure_ p) else
  if bool_decide (length (buffer_ p) / 2 <= read_cursor_ p)%nat
     || bool_decide (length (buffer_ p) = maximum_buffered_bytes_ p)
  then mkClientStreamParser (drop (read_cursor_ p) (buffer_ p)) 0
         (maximum_buffered_bytes_ p) (failure_ p)
  else p.

(** The loop of [process_available]. *)
Fixpoint process_loop (fuel : nat) (p : ClientStreamParser) (result : ClientParseFeedResult)
  : outcome ClientStreamParser ClientParseFeedResult :=
  match fuel with
  | O => Crashed OutOfFuel
  | S fuel' =>
      if bool_decide (failure_ p = None) && bool_decide (read_cursor_ p < length (buffer_ p))%nat then
        match decode_client_frame_prefix (drop (read_cursor_ p) (buffer_ p)) with
        | None => Crashed UndefinedBehaviour
        | Some (inr TruncatedInput) => Returned p result
        | Some (inr e) => let '(p', result') := fail p result e in Returned p' result'
        | Some (inl frame) =>
            process_loop fuel'
              (mkClientStreamParser (buffer_ p) (read_cursor_ p + bytes_consumed frame)
                 (maximum_buffered_bytes_ p) (failure_ p))
              (mkClientParseFeedResult (messages result ++ [envelope frame]) (error result))
        end
      else Returned p result
  end.

(** Every iteration but the last consumes a frame, which is not empty. *)
Definition process_available (p : ClientStreamParser) (result : ClientParseFeedResult)
  : outcome ClientStreamParser ClientParseFeedResult :=
  process_loop (S (length (buffer_ p))) p result.

(** The loop of [feed] and what follows it. *)
Fixpoint feed_loop (fuel : nat) (p : ClientStreamParser) (result : ClientParseFeedResult)
    (bytes : list byte) (consumed : nat) : outcome ClientStreamParser ClientParseFeedResult :=
  match fuel with
  | O => Crashed OutOfFuel
  | S fuel' =>
      if bool_decide (consumed < length bytes)%nat then
        let p := compact_if_needed p in
        let unread := (length (buffer_ p) - read_cursor_ p)%nat in
        if bool_decide (unread = maximum_buffered_bytes_ p) then
          let '(p', result') := fail p result BufferLimitExceeded in Returned p' result'
        else
          let append_count := Nat.min (maximum_buffered_bytes_ p - unread) (length bytes - consumed) in
          let p := mkClientStreamParser (buffer_ p ++ take append_count (drop consumed bytes))
                     (read_cursor_ p) (maximum_buffered_bytes_ p) (failure_ p) in
          let! (p, result) := process_available p result in
          match failure_ p with
          | Some _ => Returned p result
          | None => feed_loop fuel' p result bytes (consumed + append_count)
          end
      else Returned (compact_if_needed p) result
  end.

(** Every iteration consumes at least one byte of the input. *)
Definition feed (p : ClientStreamParser) (bytes : list byte)
  : outcome ClientStreamParser ClientParseFeedResult :=
  let result := mkClientParseFeedResult [] None in
  match failure_ p with
  | Some e => Returned p (mkClientParseFeedResult [] (Some e))
  | None =>
      let! (p, result) := process_available p result in
      match failure_ p with
      | Some _ => Returned p result
      | None => feed_loop (S (length bytes)) p result bytes 0
      end
  end.

Definition failed (p : ClientStreamParser) : bool := bool_decide (failure_ p <> None).
Definition failure (p : ClientStreamParser) : option WireCodecError := failure_ p.
Definition has_incomplete_frame (p : ClientStreamParser) : bool :=
  bool_decide (failure_ p = None) && negb (bool_decide (length (buffer_ p) = read_cursor_ p)).
Definition buffered_size (p : ClientStreamParser) : nat :=
  (length (buffer_ p) - read_cursor_ p)%nat.

End Wire.
