(* ===== verification/WireCodec.v ===== *)
(** * Frames of the wire protocol

    The client and the server decoder are the same procedure over two families
    of messages.  [MessageCodec] is what such a family provides; the theorems
    on frames are proved once against it and hold for both instances. *)
From S2P Require Import Prelude Types Bytes Wire.
Import Wire.

(** ** Numbers *)

Lemma wire_append_shifted_be n bytes value :
  append_shifted n bytes value = bytes ++ be_bytes (S n) value.
Proof.
  revert bytes. induction n as [|n IH]; intros bytes; [done|].
  change (append_shifted n (append_u8 bytes (Z.shiftr value (8 * Z.of_nat (S n)))) value
    = bytes ++ be_bytes (S (S n)) value).
  rewrite IH. unfold append_u8. by rewrite <- app_assoc.
Qed.

Lemma append_u8_be bytes value : append_u8 bytes value = bytes ++ be_bytes 1 value.
Proof. simpl. by rewrite Z.shiftr_0_r. Qed.
Lemma wire_append_u16_be bytes value : append_u16 bytes value = bytes ++ be_bytes 2 value.
Proof. unfold append_u16, append_u8. rewrite <- app_assoc. simpl. by rewrite Z.shiftr_0_r. Qed.
Lemma wire_append_u32_be bytes value : append_u32 bytes value = bytes ++ be_bytes 4 value.
Proof. apply wire_append_shifted_be. Qed.
Lemma wire_append_u64_be bytes value : append_u64 bytes value = bytes ++ be_bytes 8 value.
Proof. apply wire_append_shifted_be. Qed.

Section reads.
  Context (bytes : list byte) (offset : nat).
  Hypothesis Hwf : wf_bytes bytes.

Lemma wire_read_u16_be :
  (offset + 2 <= length bytes)%nat -> read_u16 bytes offset = Some (be_value (slice offset 2 bytes)).
Proof.
  intros Hl. unfold read_u16.
  destruct (lookup_lt_is_Some_2 bytes offset) as [hi Hhi]; [lia|].
  destruct (lookup_lt_is_Some_2 bytes (offset + 1)) as [lo Hlo]; [lia|].
  rewrite Hhi, Hlo. f_equal. by apply read_pair_value.
Qed.
Lemma wire_read_u32_be :
  (offset + 4 <= length bytes)%nat -> read_u32 bytes offset = Some (be_value (slice offset 4 bytes)).
Proof. intros. by apply read_loop_value. Qed.
Lemma wire_read_u64_be :
  (offset + 8 <= length bytes)%nat -> read_u64 bytes offset = Some (be_value (slice offset 8 bytes)).
Proof. intros. by apply read_loop_value. Qed.

End reads.

(** ** The header *)

Definition payload_size (type : WireMessageType) : nat := default 0%nat (expected_payload_length type).

Definition header_bytes (type : WireMessageType) (id : Z) : list byte :=
  be_bytes 4 kWireProtocolMagic ++ be_bytes 2 kWireProtocolVersion ++
  be_bytes 2 (message_type_value type) ++ be_bytes 4 (Z.of_nat (payload_size type)) ++
  be_bytes 8 id.

Lemma encode_header_bytes type n id :
  expected_payload_length type = Some n -> encode_header type n id = header_bytes type id.
Proof.
  intros E. unfold encode_header, header_bytes, payload_size. rewrite E. simpl default.
  rewrite wire_append_u64_be, wire_append_u32_be, !wire_append_u16_be, wire_append_u32_be.
  rewrite Z.mod_small by (destruct type; injection E as <-; done).
  by rewrite <- !app_assoc.
Qed.

Lemma length_header_bytes type id : length (header_bytes type id) = 20%nat.
Proof. reflexivity. Qed.

Lemma wf_header_bytes type id : wf_bytes (header_bytes type id).
Proof. unfold header_bytes. rewrite !wf_bytes_app. auto 10 with bytes. Qed.
#[export] Hint Resolve wf_header_bytes : bytes.

(** [decode_header], read off the slices of the input. *)
Definition header_slices (bytes : list byte) : FrameHeader + WireCodecError :=
  if decide (length bytes < 4)%nat then inr TruncatedInput else
  if decide (be_value (slice 0 4 bytes) <> kWireProtocolMagic) then inr BadMagic else
  if decide (length bytes < 6)%nat then inr TruncatedInput else
  if decide (be_value (slice 4 2 bytes) <> kWireProtocolVersion) then inr UnsupportedVersion else
  if decide (length bytes < 8)%nat then inr TruncatedInput else
  match decode_message_type (be_value (slice 6 2 bytes)) with
  | None => inr UnsupportedMessageType
  | Some type =>
      if decide (length bytes < 12)%nat then inr TruncatedInput else
      if decide (kWireMaximumPayloadLength < be_value (slice 8 4 bytes)) then inr PayloadTooLarge else
      if decide (be_value (slice 8 4 bytes) <> Z.of_nat (payload_size type))
      then inr InvalidPayloadLength else
      if decide (length bytes < 20)%nat then inr TruncatedInput else
      inl (mkFrameHeader type (be_value (slice 8 4 bytes)) (be_value (slice 12 8 bytes)))
  end.

Lemma expected_payload_size type : expected_payload_length type = Some (payload_size type).
Proof. by destruct type. Qed.

Lemma decode_header_slices bytes :
  wf_bytes bytes -> decode_header bytes = Some (header_slices bytes).
Proof.
  intros Hw. unfold decode_header, header_slices, kWireFrameHeaderSize.
  case_bool_decide; [by rewrite decide_True|rewrite decide_False by done].
  rewrite wire_read_u32_be by (done || lia).
  destruct (Z.eqb_spec (be_value (slice 0 4 bytes)) kWireProtocolMagic);
    [rewrite decide_False by naive_solver|by rewrite decide_True]. simpl negb.
  case_bool_decide; [by rewrite decide_True|rewrite decide_False by done].
  rewrite wire_read_u16_be by (done || lia).
  destruct (Z.eqb_spec (be_value (slice 4 2 bytes)) kWireProtocolVersion);
    [rewrite decide_False by naive_solver|by rewrite decide_True]. simpl negb.
  case_bool_decide; [by rewrite decide_True|rewrite decide_False by done].
  rewrite wire_read_u16_be by (done || lia).
  destruct (decode_message_type _) as [type|]; [|done].
  case_bool_decide; [by rewrite decide_True|rewrite decide_False by done].
  rewrite wire_read_u32_be, expected_payload_size by (done || lia).
  destruct (Z.ltb_spec kWireMaximumPayloadLength (be_value (slice 8 4 bytes)));
    [by rewrite decide_True|rewrite decide_False by lia].
  destruct (Z.eqb_spec (be_value (slice 8 4 bytes)) (Z.of_nat (payload_size type)));
    [rewrite decide_False by naive_solver|by rewrite decide_True]. simpl negb.
  case_bool_decide; [by rewrite decide_True|rewrite decide_False by done].
  by rewrite wire_read_u64_be by (done || lia).
Qed.

Lemma decode_message_type_value v type :
  decode_message_type v = Some type <-> v = message_type_value type.
Proof.
  unfold decode_message_type. split.
  - repeat (case_match; reflect; [by intros [= <-]|]). done.
  - intros ->. by destruct type.
Qed.

(** One guarded field of a header, read from a prefix [p] of [p ++ s]. *)
Ltac stage p s k :=
  destruct (decide (length p < k)%nat); [done|];
  rewrite (decide_False (P := (length p + length s < k)%nat)) by lia;
  rewrite slice_app_l by lia.

Lemma header_slices_stable p s :
  header_slices p <> inr TruncatedInput -> header_slices (p ++ s) = header_slices p.
Proof.
  unfold header_slices. rewrite length_app.
  stage p s 4%nat. destruct (decide (be_value _ <> _)); [done|].
  stage p s 6%nat. destruct (decide (be_value _ <> _)); [done|].
  stage p s 8%nat. destruct (decode_message_type _); [|done].
  stage p s 12%nat. destruct (decide (_ < be_value _)); [done|].
  destruct (decide (be_value _ <> _)); [done|]. by stage p s 20%nat.
Qed.

(** A header is accepted exactly when its bytes are those of the encoder. *)
Lemma header_slices_inl bytes type n id :
  wf_bytes bytes ->
  header_slices bytes = inl (mkFrameHeader type n id) <->
  (20 <= length bytes)%nat /\ slice 0 20 bytes = header_bytes type id /\
  n = Z.of_nat (payload_size type) /\ is_u64 id.
Proof.
  intros Hw. split.
  - unfold header_slices.
    destruct (decide _); [done|]. destruct (decide _) as [|F1]; [done|].
    destruct (decide _); [done|]. destruct (decide _) as [|F2]; [done|].
    destruct (decide _); [done|]. destruct (decode_message_type _) as [t|] eqn:F3; [|done].
    destruct (decide _); [done|]. destruct (decide _); [done|]. destruct (decide _) as [|F4]; [done|].
    destruct (decide _); [done|]. intros [= -> <- <-].
    apply dec_stable in F1, F2, F4. apply decode_message_type_value in F3.
    rewrite F4. split; [lia|]. split; [|split; [done|by apply (field_range 12 8); [|lia]]].
    apply field_value in F1, F2, F3, F4; try done; try lia; try (by destruct type).
    unfold header_bytes. change 20%nat with (4 + (2 + (2 + (4 + 8))))%nat.
    do 4 (rewrite slice_concat by (rewrite ?length_be_bytes; done || lia)). split_and!; try done.
    apply field_value; [done|lia|by apply field_range; [|lia]|done].
  - intros (Hl & Hs & -> & Hid). unfold header_bytes in Hs.
    change 20%nat with (4 + (2 + (2 + (4 + 8))))%nat in Hs.
    do 4 (rewrite slice_concat in Hs by (rewrite ?length_be_bytes; done || lia)).
    destruct Hs as (F1 & F2 & F3 & F4 & F5). cbn [Nat.add] in *.
    apply field_value in F1, F2, F3, F4, F5; try done; try lia; try (by destruct type).
    unfold header_slices. rewrite F1, F2, F3, F4, F5.
    rewrite !decide_False by (lia || naive_solver).
    rewrite (proj2 (decode_message_type_value _ type) eq_refl).
    by rewrite !decide_False by (lia || naive_solver || by destruct type).
Qed.

(** ** Families of messages *)

(** What a family of messages provides: its message types, the decoder of its
    payloads, and the payload of each message; the decoder accepts exactly the
    payloads of valid messages and calls every other one malformed. *)
Class MessageCodec (M : Type) := {
  mc_accepts : WireMessageType -> bool;
  mc_decode : WireMessageType -> list byte -> M + WireCodecError;
  mc_type : M -> WireMessageType;
  mc_payload : M -> list byte;
  mc_valid : M -> Prop;
  mc_accepts_type m : mc_accepts (mc_type m) = true;
  mc_length m : length (mc_payload m) = payload_size (mc_type m);
  mc_wf m : wf_bytes (mc_payload m);
  mc_decode_inl type payload m :
    mc_accepts type = true -> wf_bytes payload -> length payload = payload_size type ->
    mc_decode type payload = inl m <->
    mc_valid m /\ mc_type m = type /\ mc_payload m = payload;
  mc_decode_error type payload e : mc_decode type payload = inr e -> e = MalformedPayload;
}.

Section frames.
  Context {M : Type} `{!MessageCodec M}.

Definition frame_bytes (e : WireEnvelope M) : list byte :=
  header_bytes (mc_type (message e)) (request_id e) ++ mc_payload (message e).

(** The decoder of a frame at the beginning of the input. *)
Definition frame_slices (bytes : list byte) : DecodedFrame M + WireCodecError :=
  match header_slices bytes with
  | inr e => inr e
  | inl header =>
      let n := payload_size (fh_type header) in
      if negb (mc_accepts (fh_type header)) then inr UnsupportedMessageType else
      if decide (length bytes < 20 + n)%nat then inr TruncatedInput else
      match mc_decode (fh_type header) (slice 20 n bytes) with
      | inr e => inr e
      | inl m => inl (mkDecodedFrame (mkWireEnvelope (fh_request_id header) m) (20 + n))
      end
  end.

Lemma length_frame_bytes e :
  length (frame_bytes e) = (20 + payload_size (mc_type (message e)))%nat.
Proof. unfold frame_bytes. by rewrite length_app, length_header_bytes, mc_length. Qed.

Lemma wf_frame_bytes e : wf_bytes (frame_bytes e).
Proof. apply wf_bytes_app. split; [auto with bytes|apply mc_wf]. Qed.

Lemma frame_bytes_slices e bytes :
  (length (frame_bytes e) <= length bytes)%nat ->
  slice 0 (length (frame_bytes e)) bytes = frame_bytes e <->
  slice 0 20 bytes = header_bytes (mc_type (message e)) (request_id e) /\
  slice 20 (payload_size (mc_type (message e))) bytes = mc_payload (message e).
Proof.
  intros Hl. rewrite length_frame_bytes in *. unfold frame_bytes.
  by rewrite slice_concat by (rewrite ?length_header_bytes; done || lia).
Qed.

(** The decoder succeeds exactly on the bytes of a valid message. *)
Lemma frame_slices_inl bytes e n :
  wf_bytes bytes ->
  frame_slices bytes = inl (mkDecodedFrame e n) <->
  mc_valid (message e) /\ is_u64 (request_id e) /\ n = length (frame_bytes e) /\
  frame_bytes e `prefix_of` bytes.
Proof.
  intros Hw. unfold frame_slices. split.
  - destruct (header_slices bytes) as [[type len id]|] eqn:Eh; [|done].
    cbn [fh_type fh_request_id]. cbv zeta.
    apply header_slices_inl in Eh as (Hl & Hs & -> & Hid); [|done].
    destruct (mc_accepts type) eqn:Ha; [|done]. cbn [negb].
    destruct (decide _); [done|].
    destruct (mc_decode type _) as [m|] eqn:Ed; [|done]. intros [= <- <-].
    apply mc_decode_inl in Ed as (Hv & Ht & Hp); [|done|by apply wf_slice|apply length_slice; lia].
    cbn [message request_id]. split; [done|]. split; [done|]. split.
    + rewrite length_frame_bytes. cbn [message]. by rewrite Ht.
    + pose proof (frame_bytes_slices (mkWireEnvelope id m) bytes) as Hf.
      rewrite length_frame_bytes in Hf. cbn [message request_id] in Hf. rewrite Ht in Hf.
      rewrite <- (proj2 (Hf ltac:(lia)) (conj Hs (eq_sym Hp))).
      unfold slice. rewrite drop_0. apply prefix_take.
  - intros (Hv & Hid & -> & [rest ->]). apply wf_bytes_app in Hw as [_ Hrest].
    set (bytes := frame_bytes e ++ rest).
    assert (length (frame_bytes e) <= length bytes)%nat as Hl
      by (unfold bytes; rewrite length_app; lia).
    assert (wf_bytes bytes) as Hw by (apply wf_bytes_app; auto using wf_frame_bytes).
    assert (slice 0 (length (frame_bytes e)) bytes = frame_bytes e) as Hs
      by (unfold bytes; rewrite slice_app_l by lia; by apply slice_all).
    apply frame_bytes_slices in Hs as [Hh Hp]; [|done]. rewrite length_frame_bytes in *.
    set (type := mc_type (message e)) in *.
    assert (header_slices bytes = inl (mkFrameHeader type (Z.of_nat (payload_size type)) (request_id e))) as ->.
    { apply header_slices_inl; [done|]. split_and!; try done. lia. }
    cbn [fh_type fh_request_id]. rewrite (mc_accepts_type (message e) : mc_accepts type = true).
    cbn [negb]. cbv zeta.
    rewrite decide_False by lia.
    assert (mc_decode type (slice 20 (payload_size type) bytes) = inl (message e)) as ->.
    { apply mc_decode_inl; [apply mc_accepts_type|by apply wf_slice|apply length_slice; lia|done]. }
    by destruct e.
Qed.

(** A verdict other than "more bytes" does not depend on later bytes. *)
Lemma frame_slices_stable p s :
  frame_slices p <> inr TruncatedInput -> frame_slices (p ++ s) = frame_slices p.
Proof.
  unfold frame_slices. intros Hne.
  assert (header_slices p <> inr TruncatedInput) as Hh by (intros E; by rewrite E in Hne).
  rewrite header_slices_stable by done. destruct (header_slices p) as [h|]; [|done].
  cbv zeta in *. set (n := payload_size (fh_type h)) in *.
  destruct (mc_accepts (fh_type h)); [|done]. cbn [negb] in *.
  destruct (decide (length p < 20 + n)%nat); [done|].
  rewrite decide_False by (rewrite length_app; lia). by rewrite slice_app_l by lia.
Qed.

Lemma frame_slices_consumed bytes d :
  wf_bytes bytes -> frame_slices bytes = inl d ->
  (20 <= bytes_consumed d <= length bytes)%nat.
Proof.
  destruct d as [e n]. intros Hw E. apply frame_slices_inl in E as (_ & _ & -> & Hp); [|done].
  cbn [bytes_consumed]. apply prefix_length in Hp. rewrite length_frame_bytes in *. lia.
Qed.

(** Every proper prefix of a frame asks for more bytes. *)
Lemma frame_slices_cut e k :
  mc_valid (message e) -> is_u64 (request_id e) -> (k < length (frame_bytes e))%nat ->
  frame_slices (take k (frame_bytes e)) = inr TruncatedInput.
Proof.
  intros Hv Hid Hk. set (p := take k (frame_bytes e)). set (s := drop k (frame_bytes e)).
  assert (wf_bytes p) as Hwp by (apply Forall_take, wf_frame_bytes).
  assert (frame_slices (p ++ s) = inl (mkDecodedFrame e (length (frame_bytes e)))) as Hf.
  { unfold p, s. rewrite take_drop. apply frame_slices_inl; [apply wf_frame_bytes|].
    split_and!; try done. }
  destruct (frame_slices p) as [d|err] eqn:Ep.
  - exfalso. rewrite frame_slices_stable, Ep in Hf by (by rewrite Ep).
    assert (d = mkDecodedFrame e (length (frame_bytes e))) as -> by congruence.
    apply frame_slices_consumed in Ep; [|done]. cbn [bytes_consumed] in Ep. unfold p in Ep.
    rewrite length_take in Ep. lia.
  - destruct (decide (err = TruncatedInput)) as [->|]; [done|].
    rewrite frame_slices_stable, Ep in Hf by (rewrite Ep; congruence). done.
Qed.

Lemma payload_size_bound type : (payload_size type <= 25)%nat.
Proof. destruct type; vm_compute; lia. Qed.

(** An input that asks for more bytes is shorter than the longest frame. *)
Lemma frame_slices_short bytes :
  frame_slices bytes = inr TruncatedInput -> (length bytes < 45)%nat.
Proof.
  unfold frame_slices. destruct (header_slices bytes) as [h|e] eqn:Eh.
  - simpl. destruct (mc_accepts _); [|done]. simpl. destruct (decide _).
    + pose proof (payload_size_bound (fh_type h)). lia.
    + destruct (mc_decode _ _) as [|e] eqn:Ed; [done|]. intros [= ->].
      by apply mc_decode_error in Ed.
  - intros [= ->]. unfold header_slices in Eh.
    repeat (case_match; try (done || lia)).
Qed.

(** The buffer limit is the parser's business, not the codec's. *)
Lemma frame_slices_not_limit bytes : frame_slices bytes <> inr BufferLimitExceeded.
Proof.
  unfold frame_slices. destruct (header_slices bytes) as [h|e] eqn:Eh.
  - cbv zeta. repeat (case_match; try done). intros [= ->].
    by match goal with H : mc_decode _ _ = inr _ |- _ => apply mc_decode_error in H end.
  - intros [= ->]. unfold header_slices in Eh. repeat (case_match; try done).
Qed.

End frames.

(** ** Client messages *)

Definition client_type (m : ClientMessage) : WireMessageType :=
  match m with SubmitLimitOrderMessage _ => SubmitLimitOrder | CancelOrderMessage _ => CancelOrder end.

Definition client_payload (m : ClientMessage) : list byte :=
  match m with
  | SubmitLimitOrderMessage r =>
      be_bytes 8 (slr_order_id r) ++ be_bytes 1 (slr_raw_side r) ++
      be_bytes 8 (slr_limit_price r) ++ be_bytes 8 (slr_quantity r)
  | CancelOrderMessage id => be_bytes 8 id
  end.

(** The values a C++ message can hold. *)
Definition wf_client_message (m : ClientMessage) : Prop :=
  match m with
  | SubmitLimitOrderMessage r =>
      is_u64 (slr_order_id r) /\ is_u8 (slr_raw_side r) /\
      is_u64 (slr_limit_price r) /\ is_u64 (slr_quantity r)
  | CancelOrderMessage id => is_u64 id
  end.

#[export] Instance wf_client_message_dec m : Decision (wf_client_message m).
Proof. destruct m; simpl; unfold is_u64, is_u8; apply _. Defined.

Definition client_message_at (type : WireMessageType) (payload : list byte) : ClientMessage :=
  if decide (type = SubmitLimitOrder) then
    SubmitLimitOrderMessage
      (mkSubmitLimitOrderRequest (be_value (slice 0 8 payload)) (be_value (slice 8 1 payload))
         (be_value (slice 9 8 payload)) (be_value (slice 17 8 payload)))
  else CancelOrderMessage (be_value (slice 0 8 payload)).

Lemma client_accepts type :
  is_client_message_type type = true <-> type = SubmitLimitOrder \/ type = CancelOrder.
Proof. destruct type; vm_compute; naive_solver. Qed.

(** A payload with the right length is the payload of one message. *)
Lemma client_message_at_spec type payload m :
  is_client_message_type type = true -> wf_bytes payload -> length payload = payload_size type ->
  client_message_at type payload = m <->
  wf_client_message m /\ client_type m = type /\ client_payload m = payload.
Proof.
  intros Ha Hw Hl. apply client_accepts in Ha as [-> | ->]; unfold client_message_at.
  - rewrite decide_True by done. change (payload_size SubmitLimitOrder) with (8 + (1 + (8 + 8)))%nat in Hl.
    rewrite <- (slice_all _ payload Hl) at 5. split.
    + intros <-. simpl wf_client_message. cbn [client_type client_payload slr_order_id slr_raw_side
        slr_limit_price slr_quantity]. split; [split_and!; by apply field_range; [|lia]|].
      split; [done|]. symmetry.
      do 3 (rewrite slice_concat by (rewrite ?length_be_bytes; done || lia)).
      split_and!; (apply field_value; [done|lia|by apply field_range; [|lia]|done]).
    + intros (Hm & Ht & E). destruct m as [[id side price q]|]; [|done]. simpl in Hm.
      cbn [client_payload slr_order_id slr_raw_side slr_limit_price slr_quantity] in E.
      symmetry in E. do 3 (rewrite slice_concat in E by (rewrite ?length_be_bytes; done || lia)).
      destruct Hm as (? & ? & ? & ?), E as (E1 & E2 & E3 & E4). cbn [Nat.add] in *.
      apply field_value in E1, E2, E3, E4; try done; try lia; congruence.
  - rewrite decide_False by done. change (payload_size CancelOrder) with 8%nat in Hl.
    rewrite <- (slice_all _ payload Hl) at 2. split.
    + intros <-. cbn [client_type client_payload wf_client_message].
      split; [by apply field_range; [|lia]|]. split; [done|]. symmetry.
      apply field_value; [done|lia|by apply field_range; [|lia]|done].
    + intros (Hm & Ht & E). destruct m as [|id]; [done|]. simpl in Hm. cbn [client_payload] in E.
      symmetry in E. apply field_value in E; try done; try lia. congruence.
Qed.

#[export, refine] Instance client_codec : MessageCodec ClientMessage := {|
  mc_accepts := is_client_message_type;
  mc_decode type payload := inl (client_message_at type payload);
  mc_type := client_type;
  mc_payload := client_payload;
  mc_valid := wf_client_message;
|}.
Proof.
  - by intros [].
  - by intros [].
  - intros []; unfold client_payload; rewrite ?wf_bytes_app; auto with bytes.
  - intros type payload m Ha Hw Hl. rewrite <- client_message_at_spec by done. naive_solver.
  - done.
Defined.

Lemma decode_client_payload_slices type payload :
  is_client_message_type type = true -> wf_bytes payload -> length payload = payload_size type ->
  decode_client_payload type payload = Some (client_message_at type payload).
Proof.
  intros Ha Hw Hl. unfold decode_client_payload, client_message_at.
  apply client_accepts in Ha as [-> | ->].
  - rewrite decide_True, bool_decide_true by done. change (payload_size _) with 25%nat in Hl.
    by rewrite !wire_read_u64_be, read_byte_be by (done || lia).
  - rewrite decide_False, bool_decide_false by done. change (payload_size _) with 8%nat in Hl.
    by rewrite wire_read_u64_be by (done || lia).
Qed.

Lemma header_slices_length bytes h :
  wf_bytes bytes -> header_slices bytes = inl h ->
  Z.to_nat (fh_payload_length h) = payload_size (fh_type h).
Proof.
  destruct h. intros Hw E. apply header_slices_inl in E as (_ & _ & -> & _); [|done].
  apply Nat2Z.id.
Qed.

Lemma decode_client_slices bytes :
  wf_bytes bytes -> decode_client_frame_prefix bytes = Some (frame_slices bytes).
Proof.
  intros Hw. unfold decode_client_frame_prefix, frame_slices.
  rewrite decode_header_slices by done. destruct (header_slices bytes) as [h|] eqn:Eh; [|done].
  unfold has_complete_frame. rewrite (header_slices_length _ _ Hw Eh).
  cbn [mc_accepts mc_decode client_codec]. unfold kWireFrameHeaderSize.
  destruct (is_client_message_type (fh_type h)) eqn:Ha; [|done]. cbn [negb]. cbv zeta.
  case_bool_decide; [rewrite decide_False by lia|by rewrite decide_True by lia]. cbn [negb].
  rewrite subspan_slice by done.
  by rewrite decode_client_payload_slices by (done || by apply wf_slice || by apply length_slice).
Qed.

Lemma encode_client_bytes e : encode_client_frame e = inl (frame_bytes e).
Proof.
  destruct e as [id [r|cid]]; unfold encode_client_frame; cbn [message request_id]; f_equal;
    rewrite ?wire_append_u64_be, ?append_u8_be, ?wire_append_u64_be, (encode_header_bytes _ _ _ eq_refl);
    unfold frame_bytes; cbn [message request_id mc_type mc_payload client_codec client_type client_payload];
    by rewrite <- ?app_assoc.
Qed.

(** ** Server messages *)

Definition server_type (m : ServerMessage) : WireMessageType :=
  match m with
  | SubmitResultMessage _ => SubmitResult
  | CancelResultMessage _ => CancelResult
  | ProtocolErrorMessage _ => ProtocolError
  | EngineUnavailableMessage _ => EngineUnavailable
  end.

Definition server_payload (m : ServerMessage) : list byte :=
  match m with
  | SubmitResultMessage r =>
      be_bytes 1 (srr_status r) ++ be_bytes 1 (srr_rejection_code r) ++
      be_bytes 8 (srr_executed_quantity r) ++ be_bytes 8 (srr_resting_quantity r)
  | CancelResultMessage r => be_bytes 1 (crr_status r) ++ be_bytes 8 (crr_cancelled_quantity r)
  | ProtocolErrorMessage code => be_bytes 2 code
  | EngineUnavailableMessage code => be_bytes 1 code
  end.

(** The responses of the protocol, by the numbers of its codes: accepted
    submissions (1) have no rejection code (0), rejected ones (2) one of the eight
    reasons; a cancellation has happened (1) or not found its order (2); there are
    seven protocol errors and one way to be unavailable. *)
Definition valid_server_message (m : ServerMessage) : bool :=
  match m with
  | SubmitResultMessage r =>
      ((srr_status r =? 1) && (srr_rejection_code r =? 0)) ||
      ((srr_status r =? 2) && (1 <=? srr_rejection_code r) && (srr_rejection_code r <=? 8))
  | CancelResultMessage r => (1 <=? crr_status r) && (crr_status r <=? 2)
  | ProtocolErrorMessage code => (1 <=? code) && (code <=? 7)
  | EngineUnavailableMessage code => code =? 1
  end.

(** The checks of the code. *)
Definition checked_server_message (m : ServerMessage) : bool :=
  match m with
  | SubmitResultMessage r => valid_submit_result r
  | CancelResultMessage r => valid_cancel_result r
  | ProtocolErrorMessage code => bool_decide (decode_protocol_error_code code <> None)
  | EngineUnavailableMessage code => code =? Unavailable
  end.

Lemma checked_server_message_spec m : checked_server_message m = valid_server_message m.
Proof.
  destruct m as [r|r|code|code]; simpl; [| | |done].
  - unfold valid_submit_result, is_known_rejection_code. simpl existsb.
    unfold RejectionNone, RejectionInvalidOrderId, RejectionInvalidSide, RejectionInvalidPrice, RejectionInvalidQuantity,
      RejectionDuplicateOrderId, RejectionQuantityOverflow, RejectionSequenceExhausted, RejectionTradeIdExhausted,
      SubmitAccepted, SubmitRejected. destruct (negb _) eqn:E; lia.
  - unfold valid_cancel_result, CancelCancelled, CancelNotFound. lia.
  - unfold decode_protocol_error_code, CodeBadMagic, CodeUnsupportedVersion, CodeUnsupportedMessageType,
      CodePayloadTooLarge, CodeInvalidPayloadLength, CodeMalformedPayload, CodeBufferLimitExceeded.
    repeat (case_match; reflect; [subst; reflexivity|]). case_bool_decide; [done|]. lia.
Qed.

(** The quantities a C++ response can hold. *)
Definition wf_server_message (m : ServerMessage) : Prop :=
  match m with
  | SubmitResultMessage r => is_u64 (srr_executed_quantity r) /\ is_u64 (srr_resting_quantity r)
  | CancelResultMessage r => is_u64 (crr_cancelled_quantity r)
  | ProtocolErrorMessage _ | EngineUnavailableMessage _ => True
  end.

#[export] Instance wf_server_message_dec m : Decision (wf_server_message m).
Proof. destruct m; simpl; unfold is_u64; apply _. Defined.

Definition server_message_at (type : WireMessageType) (payload : list byte) : ServerMessage :=
  match type with
  | SubmitResult =>
      SubmitResultMessage
        (mkSubmitResultResponse (be_value (slice 0 1 payload)) (be_value (slice 1 1 payload))
           (be_value (slice 2 8 payload)) (be_value (slice 10 8 payload)))
  | CancelResult =>
      CancelResultMessage
        (mkCancelResultResponse (be_value (slice 0 1 payload)) (be_value (slice 1 8 payload)))
  | ProtocolError => ProtocolErrorMessage (be_value (slice 0 2 payload))
  | _ => EngineUnavailableMessage (be_value (slice 0 1 payload))
  end.

Definition server_decode (type : WireMessageType) (payload : list byte)
  : ServerMessage + WireCodecError :=
  let m := server_message_at type payload in
  if valid_server_message m then inl m else inr MalformedPayload.

Lemma server_accepts type :
  is_server_message_type type = true <->
  type = SubmitResult \/ type = CancelResult \/ type = ProtocolError \/ type = EngineUnavailable.
Proof. destruct type; vm_compute; naive_solver. Qed.

Lemma decode_submit_status_spec v :
  decode_submit_status v = if (v =? SubmitAccepted) || (v =? SubmitRejected) then Some v else None.
Proof.
  unfold decode_submit_status. destruct (Z.eqb_spec v SubmitAccepted) as [->|]; [done|].
  by destruct (Z.eqb_spec v SubmitRejected) as [->|].
Qed.

Lemma decode_cancel_status_spec v :
  decode_cancel_status v = if (v =? CancelCancelled) || (v =? CancelNotFound) then Some v else None.
Proof.
  unfold decode_cancel_status. destruct (Z.eqb_spec v CancelCancelled) as [->|]; [done|].
  by destruct (Z.eqb_spec v CancelNotFound) as [->|].
Qed.

Lemma decode_protocol_error_code_id v c : decode_protocol_error_code v = Some c -> c = v.
Proof.
  unfold decode_protocol_error_code. repeat (case_match; reflect; [intros [= <-]; congruence|]). done.
Qed.

Lemma decode_server_payload_slices type payload :
  is_server_message_type type = true -> wf_bytes payload -> length payload = payload_size type ->
  decode_server_payload type payload = Some (server_decode type payload).
Proof.
  intros Ha Hw Hl. apply server_accepts in Ha as [-> | [-> | [-> | ->]]];
    unfold decode_server_payload, server_decode, server_message_at; cbv zeta;
    rewrite <- checked_server_message_spec; cbn [checked_server_message].
  - change (payload_size _) with 18%nat in Hl. rewrite !read_byte_be by (done || lia).
    rewrite decode_submit_status_spec. unfold decode_rejection_code.
    set (st := be_value (slice 0 1 payload)). set (code := be_value (slice 1 1 payload)).
    destruct (is_known_rejection_code code) eqn:Ek;
      destruct (st =? SubmitAccepted) eqn:E1, (st =? SubmitRejected) eqn:E2; cbn [orb];
      rewrite ?wire_read_u64_be by (done || lia); unfold valid_submit_result;
      cbn [srr_status srr_rejection_code]; rewrite ?Ek, ?E1, ?E2; cbn [negb andb orb];
      try done; by destruct (code =? RejectionNone).
  - change (payload_size _) with 9%nat in Hl. rewrite read_byte_be by (done || lia).
    rewrite decode_cancel_status_spec. unfold valid_cancel_result. cbn [crr_status].
    destruct (_ || _) eqn:E; [|done]. rewrite wire_read_u64_be by (done || lia). by rewrite E.
  - change (payload_size _) with 2%nat in Hl. rewrite wire_read_u16_be by (done || lia).
    destruct (decode_protocol_error_code _) as [c|] eqn:E; [|by rewrite bool_decide_false by naive_solver].
    rewrite bool_decide_true by done. by rewrite (decode_protocol_error_code_id _ _ E).
  - change (payload_size _) with 1%nat in Hl. rewrite read_byte_be by (done || lia).
    unfold decode_engine_unavailable_code.
    by destruct (Z.eqb_spec (be_value (slice 0 1 payload)) Unavailable) as [->|].
Qed.

(** The codes of a valid response fit the bytes they are written to. *)
Lemma valid_server_codes m :
  valid_server_message m = true ->
  match m with
  | SubmitResultMessage r => is_u8 (srr_status r) /\ is_u8 (srr_rejection_code r)
  | CancelResultMessage r => is_u8 (crr_status r)
  | ProtocolErrorMessage code => is_u16 code
  | EngineUnavailableMessage code => is_u8 code
  end.
Proof. unfold is_u8, is_u16. destruct m as [r|r|code|code]; simpl; lia. Qed.

Lemma server_message_at_spec type payload m :
  is_server_message_type type = true -> wf_bytes payload -> length payload = payload_size type ->
  server_decode type payload = inl m <->
  (valid_server_message m = true /\ wf_server_message m) /\ server_type m = type /\
  server_payload m = payload.
Proof.
  intros Ha Hw Hl. unfold server_decode.
  split.
  - cbv zeta. destruct (valid_server_message _) eqn:Hv; [|done]. intros [= <-].
    split; [split; [done|]|].
    + apply server_accepts in Ha as [-> | [-> | [-> | ->]]]; simpl; try done.
      * change (payload_size _) with 18%nat in Hl. split; by apply field_range; [|lia].
      * change (payload_size _) with 9%nat in Hl. by apply field_range; [|lia].
    + apply server_accepts in Ha as [-> | [-> | [-> | ->]]]; (split; [done|]); symmetry;
        rewrite <- (slice_all _ payload Hl) at 1;
        cbn [server_message_at server_payload srr_status srr_rejection_code srr_executed_quantity
             srr_resting_quantity crr_status crr_cancelled_quantity].
      * change (payload_size _) with (1 + (1 + (8 + 8)))%nat in Hl |- *.
        do 3 (rewrite slice_concat by (rewrite ?length_be_bytes; done || lia)).
        split_and!; (apply field_value; [done|lia|by apply field_range; [|lia]|done]).
      * change (payload_size _) with (1 + 8)%nat in Hl |- *.
        rewrite slice_concat by (rewrite ?length_be_bytes; done || lia).
        split_and!; (apply field_value; [done|lia|by apply field_range; [|lia]|done]).
      * change (payload_size _) with 2%nat in Hl |- *.
        apply field_value; [done|lia|by apply field_range; [|lia]|done].
      * change (payload_size _) with 1%nat in Hl |- *.
        apply field_value; [done|lia|by apply field_range; [|lia]|done].
  - intros ([Hv Hm] & Ht & E). pose proof (valid_server_codes m Hv) as Hc.
    assert (server_message_at type payload = m) as ->; [|by rewrite Hv].
    symmetry in E. rewrite <- (slice_all _ payload Hl) in E.
    destruct m as [[st c ex rs]|[st q]|c|c]; simpl in Ht; subst type; simpl in Hc, Hm;
      cbn [server_payload srr_status srr_rejection_code srr_executed_quantity
             srr_resting_quantity crr_status crr_cancelled_quantity] in E;
      unfold server_message_at.
    + change (payload_size _) with (1 + (1 + (8 + 8)))%nat in Hl, E.
      do 3 (rewrite slice_concat in E by (rewrite ?length_be_bytes; done || lia)).
      destruct E as (E1 & E2 & E3 & E4), Hc, Hm. cbn [Nat.add] in *.
      apply field_value in E1, E2, E3, E4; try done; try lia; congruence.
    + change (payload_size _) with (1 + 8)%nat in Hl, E.
      rewrite slice_concat in E by (rewrite ?length_be_bytes; done || lia).
      destruct E as (E1 & E2). cbn [Nat.add] in *.
      apply field_value in E1, E2; try done; try lia; congruence.
    + change (payload_size _) with 2%nat in Hl, E. apply field_value in E; try done; try lia; congruence.
    + change (payload_size _) with 1%nat in Hl, E. apply field_value in E; try done; try lia; congruence.
Qed.

#[export, refine] Instance server_codec : MessageCodec ServerMessage := {|
  mc_accepts := is_server_message_type;
  mc_decode := server_decode;
  mc_type := server_type;
  mc_payload := server_payload;
  mc_valid m := valid_server_message m = true /\ wf_server_message m;
|}.
Proof.
  - by intros [].
  - by intros [].
  - intros []; unfold server_payload; rewrite ?wf_bytes_app; auto with bytes.
  - apply server_message_at_spec.
  - intros type payload e. unfold server_decode. case_match; congruence.
Defined.

Lemma decode_server_slices bytes :
  wf_bytes bytes -> decode_server_frame_prefix bytes = Some (frame_slices bytes).
Proof.
  intros Hw. unfold decode_server_frame_prefix, frame_slices.
  rewrite decode_header_slices by done. destruct (header_slices bytes) as [h|] eqn:Eh; [|done].
  unfold has_complete_frame. rewrite (header_slices_length _ _ Hw Eh).
  cbn [mc_accepts mc_decode server_codec]. unfold kWireFrameHeaderSize.
  destruct (is_server_message_type (fh_type h)) eqn:Ha; [|done]. cbn [negb]. cbv zeta.
  case_bool_decide; [rewrite decide_False by lia|by rewrite decide_True by lia]. cbn [negb].
  rewrite subspan_slice by done.
  rewrite decode_server_payload_slices by (done || by apply wf_slice || by apply length_slice).
  by case_match.
Qed.

Lemma encode_server_bytes e :
  encode_server_frame e =
    if valid_server_message (message e) then inl (frame_bytes e) else inr MalformedPayload.
Proof.
  destruct e as [id [r|r|code|code]]; unfold encode_server_frame;
    cbn [message request_id]; rewrite <- checked_server_message_spec; cbn [checked_server_message].
  - destruct (valid_submit_result r); [|done]. cbn [negb]. apply (f_equal inl).
    rewrite !wire_append_u64_be, !append_u8_be, (encode_header_bytes SubmitResult _ _ eq_refl).
    unfold frame_bytes. cbn [message request_id mc_type mc_payload server_codec server_type server_payload].
    by rewrite <- !app_assoc.
  - destruct (valid_cancel_result r); [|done]. cbn [negb]. apply (f_equal inl).
    rewrite wire_append_u64_be, append_u8_be, (encode_header_bytes CancelResult _ _ eq_refl).
    unfold frame_bytes. cbn [message request_id mc_type mc_payload server_codec server_type server_payload].
    by rewrite <- !app_assoc.
  - destruct (decode_protocol_error_code code); [rewrite bool_decide_true by done|by rewrite bool_decide_false by naive_solver].
    apply (f_equal inl). by rewrite wire_append_u16_be, (encode_header_bytes ProtocolError _ _ eq_refl).
  - destruct (code =? Unavailable); [|done]. cbn [negb]. apply (f_equal inl).
    by rewrite append_u8_be, (encode_header_bytes EngineUnavailable _ _ eq_refl).
Qed.
