(* ===== verification/WireProps.v ===== *)
(** * What the wire protocol guarantees

    The codecs: no out-of-bounds read, round trips, the meaning of
    [TruncatedInput] and the correspondence of the codes. *)
From S2P Require Import Prelude Types Bytes Wire WireCodec.
Import Wire.

(** ** Frames *)

(** The wire decoders never read outside their input: on every byte
    sequence they return a frame or an error. *)
Theorem wire_decode_in_bounds bytes :
  wf_bytes bytes ->
  decode_client_frame_prefix bytes <> None /\ decode_server_frame_prefix bytes <> None /\
  decode_client_frame bytes <> None /\ decode_server_frame bytes <> None.
Proof.
  intros Hw. unfold decode_client_frame, decode_server_frame.
  by rewrite decode_client_slices, decode_server_slices by done.
Qed.

(** C25: client frames: encoding always succeeds, and the decoder accepts an
    input exactly when it starts with the encoding of a request, returning that
    request and its length; the exact decoder wants nothing after it. *)
Theorem client_frame_roundtrip bytes e n :
  wf_bytes bytes ->
  (decode_client_frame_prefix bytes = Some (inl (mkDecodedFrame e n)) <->
   exists f rest, encode_client_frame e = inl f /\ bytes = f ++ rest /\ n = length f /\
     wf_client_message (message e) /\ is_u64 (request_id e)) /\
  (decode_client_frame bytes = Some (inl (mkDecodedFrame e n)) <->
   encode_client_frame e = inl bytes /\ n = length bytes /\
     wf_client_message (message e) /\ is_u64 (request_id e)).
Proof.
  intros Hw. unfold decode_client_frame. rewrite decode_client_slices, encode_client_bytes by done.
  assert (frame_slices bytes = inl (mkDecodedFrame e n) <->
    exists rest, bytes = frame_bytes e ++ rest /\ n = length (frame_bytes e) /\
      wf_client_message (message e) /\ is_u64 (request_id e)) as Hf.
  { rewrite frame_slices_inl by done. unfold prefix. simpl mc_valid. naive_solver. }
  split; [split|].
  - intros [= E]. apply Hf in E as (rest & ? & ? & ? & ?). by exists (frame_bytes e), rest.
  - intros (f & rest & [= <-] & ? & ? & ? & ?). f_equal. apply Hf. by exists rest.
  - unfold require_exact_frame. split.
    + intros [= E]. destruct (frame_slices bytes) as [d|] eqn:Ed; [|done].
      case_bool_decide as Hc; [|done]. injection E as ->.
      destruct (proj1 Hf eq_refl) as (rest & -> & -> & ? & ?).
      simpl in Hc. rewrite length_app in Hc. destruct rest; [|simpl in Hc; lia].
      by rewrite app_nil_r.
    + intros ([= E] & -> & Hm & Hid). f_equal. rewrite (proj2 Hf).
      * simpl. by rewrite bool_decide_true.
      * exists []. by rewrite app_nil_r, E.
Qed.

(** C26: server frames: the encoder refuses exactly the responses that are not
    of the protocol, with an unknown code or with a rejection code that does not go
    with the status ([valid_server_message] lists the codes by number), and the
    decoder accepts an input exactly when it starts with the encoding of a
    response of the protocol. *)
Theorem server_frame_roundtrip bytes e n :
  wf_bytes bytes ->
  encode_server_frame e =
    (if valid_server_message (message e) then inl (frame_bytes e) else inr MalformedPayload) /\
  (decode_server_frame_prefix bytes = Some (inl (mkDecodedFrame e n)) <->
   exists f rest, encode_server_frame e = inl f /\ bytes = f ++ rest /\ n = length f /\
     valid_server_message (message e) = true /\ wf_server_message (message e) /\ is_u64 (request_id e)).
Proof.
  intros Hw. split; [apply encode_server_bytes|].
  rewrite decode_server_slices, encode_server_bytes by done. split.
  - intros [= E]. apply frame_slices_inl in E as ([Hv Hm] & Hid & -> & [rest ->]); [|done].
    rewrite Hv. by exists (frame_bytes e), rest.
  - intros (f & rest & E & -> & -> & Hv & Hm & Hid). rewrite Hv in E.
    injection E as <-. f_equal. apply frame_slices_inl; [done|]. split_and!; try done.
    by exists rest.
Qed.

(** [TruncatedInput] means that bytes are missing, and every other verdict
    of the client decoder is final: it is the same for every continuation of
    the input; every proper prefix of an encoded request is [TruncatedInput];
    and only inputs shorter than the longest request (45 bytes) are. *)
Theorem client_truncation p s :
  wf_bytes p -> wf_bytes s ->
  (decode_client_frame_prefix p <> Some (inr TruncatedInput) ->
   decode_client_frame_prefix (p ++ s) = decode_client_frame_prefix p) /\
  (forall e f k, encode_client_frame e = inl f -> wf_client_message (message e) ->
     is_u64 (request_id e) -> (k < length f)%nat ->
     decode_client_frame_prefix (take k f) = Some (inr TruncatedInput)) /\
  (decode_client_frame_prefix p = Some (inr TruncatedInput) -> (length p < 45)%nat).
Proof.
  intros Hp Hs. rewrite !decode_client_slices by (done || by apply wf_bytes_app). split_and!.
  - intros Hne. f_equal. apply frame_slices_stable. congruence.
  - intros e f k. rewrite encode_client_bytes. intros [= <-] Hm Hid Hk.
    rewrite decode_client_slices by (apply Forall_take, wf_frame_bytes).
    f_equal. by apply frame_slices_cut.
  - intros [= E]. exact (frame_slices_short p E).
Qed.

(** The codes of the protocol and the values of the engine correspond one
    to one: every rejection reason and cancel status survives the trip to its
    code and back, every code the decoders accept has a meaning ([None] being
    no rejection), and every terminal parser error has a code to report it
    with. *)
Theorem wire_codes_correspond :
  (forall r, to_wire_rejection_code r ≫= to_domain_rejection_reason = Some r) /\
  (forall s, to_wire_cancel_status s ≫= to_domain_cancel_status = Some s) /\
  (forall v c, decode_rejection_code v = Some c -> c <> RejectionNone ->
     exists r, to_domain_rejection_reason c = Some r /\ to_wire_rejection_code r = Some c) /\
  (forall v c, decode_cancel_status v = Some c ->
     exists s, to_domain_cancel_status c = Some s /\ to_wire_cancel_status s = Some c) /\
  (forall e, e <> TruncatedInput -> e <> UnexpectedTrailingBytes ->
     exists c, to_wire_protocol_error_code e = Some c /\ decode_protocol_error_code c = Some c).
Proof.
  split_and!.
  - by intros [].
  - by intros [].
  - intros v c. unfold decode_rejection_code. destruct (is_known_rejection_code v) eqn:E; [|done].
    intros [= <-] Hne. unfold is_known_rejection_code in E. apply existsb_exists in E as (c & Hc & E).
    reflect. subst v. simpl in Hc. repeat destruct Hc as [<-|Hc]; try done; by eexists.
  - intros v c. rewrite decode_cancel_status_spec. destruct (_ || _) eqn:E; [|done].
    intros [= <-]. apply orb_true_iff in E as [E|E]; reflect; subst v; by eexists.
  - intros [] ? ?; try done; by eexists.
Qed.

(** ** Witnesses *)

Definition sample_cancel : WireEnvelope ClientMessage := mkWireEnvelope 9 (CancelOrderMessage 4).
Definition sample_response : WireEnvelope ServerMessage :=
  mkWireEnvelope 9 (SubmitResultMessage (mkSubmitResultResponse SubmitAccepted RejectionNone 3 2)).

Definition encoded (r : list byte + WireCodecError) : list byte :=
  match r with inl f => f | inr _ => [] end.

Lemma wire_decode_in_bounds_witness : decode_client_frame_prefix [0x4D; 0x45; 0x58; 0x47] <> None.
Proof. apply (wire_decode_in_bounds [0x4D; 0x45; 0x58; 0x47]). decide_now. Defined.

Lemma client_frame_roundtrip_witness :
  decode_client_frame (encoded (encode_client_frame sample_cancel))
    = Some (inl (mkDecodedFrame sample_cancel 28)).
Proof.
  apply (client_frame_roundtrip (encoded (encode_client_frame sample_cancel)) sample_cancel 28).
  - decide_now.
  - split; [reflexivity|]. split; [reflexivity|]. split; decide_now.
Defined.

Lemma server_frame_roundtrip_witness :
  decode_server_frame_prefix (encoded (encode_server_frame sample_response) ++ [1])
    = Some (inl (mkDecodedFrame sample_response 38)).
Proof.
  apply (server_frame_roundtrip (encoded (encode_server_frame sample_response) ++ [1])
           sample_response 38).
  - decide_now.
  - exists (encoded (encode_server_frame sample_response)), [1].
    split; [reflexivity|]. split; [reflexivity|]. split; [reflexivity|]. split; [reflexivity|]. split; decide_now.
Defined.

Lemma client_truncation_witness :
  decode_client_frame_prefix (take 27 (encoded (encode_client_frame sample_cancel)))
    = Some (inr TruncatedInput).
Proof.
  apply (client_truncation [] []) with (e := sample_cancel).
  - constructor.
  - constructor.
  - reflexivity.
  - decide_now.
  - decide_now.
  - vm_compute. lia.
Defined.
