(* ===== verification/WireParser.v ===== *)
(** * The stream parser of a connection

    [ClientStreamParser] refines a specification of the whole stream: [parses]
    says which requests a sequence of bytes contains and how it ends, without
    chunks, buffers or cursors. *)
From S2P Require Import Prelude Types Bytes Wire WireCodec.
Import Wire.

(** The requests at the beginning of a stream, seen through a window of
    [limit] bytes, and what is left: bytes of an unfinished request, or the
    error that ends the connection. *)
Inductive parses (limit : nat)
  : list byte -> list (WireEnvelope ClientMessage) -> list byte + WireCodecError -> Prop :=
| parses_wait bytes :
    (length bytes <= limit)%nat ->
    decode_client_frame_prefix bytes = Some (inr TruncatedInput) ->
    parses limit bytes [] (inl bytes)
| parses_limit bytes :
    (limit < length bytes)%nat ->
    decode_client_frame_prefix (take limit bytes) = Some (inr TruncatedInput) ->
    parses limit bytes [] (inr BufferLimitExceeded)
| parses_error bytes e :
    decode_client_frame_prefix (take limit bytes) = Some (inr e) -> e <> TruncatedInput ->
    parses limit bytes [] (inr e)
| parses_frame bytes d ms r :
    decode_client_frame_prefix (take limit bytes) = Some (inl d) ->
    parses limit (drop (bytes_consumed d) bytes) ms r ->
    parses limit bytes (envelope d :: ms) r.

Lemma parses_deterministic limit bytes ms r ms' r' :
  parses limit bytes ms r -> parses limit bytes ms' r' -> ms = ms' /\ r = r'.
Proof.
  intros H. revert ms' r'.
  induction H as [bytes Hl Hd|bytes Hl Hd|bytes e Hd He|bytes d ms r Hd _ IH]; intros ms' r' H'.
  - rewrite <- (take_ge bytes limit Hl) in Hd. inversion H'; subst; try congruence; try done. lia.
  - inversion H'; subst; try congruence; try done. lia.
  - inversion H' as [? ? Hd'| | |]; subst; try (split; congruence).
    rewrite <- (take_ge bytes limit) in Hd' by done. congruence.
  - inversion H' as [? ? Hd'| | |? ? ? ? Hd']; subst; try congruence.
    + rewrite <- (take_ge bytes limit) in Hd' by done. congruence.
    + rewrite Hd in Hd'. injection Hd' as <-. edestruct IH; [eassumption|]. naive_solver.
Qed.

(** ** Streams in parts *)

Lemma decode_stable limit p s :
  wf_bytes p -> wf_bytes s ->
  decode_client_frame_prefix (take limit p) <> Some (inr TruncatedInput) ->
  decode_client_frame_prefix (take limit (p ++ s)) = decode_client_frame_prefix (take limit p).
Proof.
  intros Hp Hs. rewrite take_app.
  rewrite !decode_client_slices by (rewrite ?wf_bytes_app; auto with bytes).
  intros Hne. f_equal. apply frame_slices_stable. congruence.
Qed.

Lemma decode_consumed limit bytes d :
  wf_bytes bytes -> decode_client_frame_prefix (take limit bytes) = Some (inl d) ->
  (20 <= bytes_consumed d <= length bytes)%nat.
Proof.
  intros Hw. rewrite decode_client_slices by (by apply wf_take). intros [= E].
  apply frame_slices_consumed in E; [|by apply wf_take]. rewrite length_take in E. lia.
Qed.

Lemma parses_app limit p s ms rest ms' r :
  wf_bytes p -> wf_bytes s ->
  parses limit p ms (inl rest) -> parses limit (rest ++ s) ms' r -> parses limit (p ++ s) (ms ++ ms') r.
Proof.
  intros Hp Hs H. remember (inl rest) as q eqn:Eq. revert Hp.
  induction H as [bytes Hl Hd|bytes Hl Hd|bytes e Hd He|bytes d ms q Hd _ IH]; intros Hp H';
    try done.
  - by injection Eq as ->.
  - pose proof (decode_consumed _ _ _ Hp Hd). simpl. apply parses_frame.
    + rewrite decode_stable; [done..|congruence].
    + rewrite drop_app_le by lia. apply IH; auto with bytes.
Qed.

Lemma parses_app_error limit p s ms e :
  wf_bytes p -> wf_bytes s -> parses limit p ms (inr e) -> parses limit (p ++ s) ms (inr e).
Proof.
  intros Hp Hs H. remember (inr e) as q eqn:Eq. revert Hp.
  induction H as [bytes Hl Hd|bytes Hl Hd|bytes e' Hd He|bytes d ms q Hd _ IH]; intros Hp; try done.
  - injection Eq as <-. apply parses_limit; [rewrite length_app; lia|].
    by rewrite take_app_le by lia.
  - injection Eq as ->. apply parses_error; [|done]. rewrite decode_stable; [done..|congruence].
  - pose proof (decode_consumed _ _ _ Hp Hd). apply parses_frame.
    + rewrite decode_stable; [done..|congruence].
    + rewrite drop_app_le by lia. apply IH; auto with bytes.
Qed.

(** What is left of a stream is an unfinished request. *)
Lemma parses_rest limit p ms rest :
  wf_bytes p -> parses limit p ms (inl rest) ->
  (length rest <= limit)%nat /\ wf_bytes rest /\
  decode_client_frame_prefix rest = Some (inr TruncatedInput).
Proof.
  intros Hp H. remember (inl rest) as q eqn:Eq. revert Hp.
  induction H; intros Hp; try done; [by simplify_eq|]. apply IHparses; auto with bytes.
Qed.

(** ** [process_available] *)

Definition unread (p : ClientStreamParser) : list byte := drop (read_cursor_ p) (buffer_ p).

(** The cursor is inside the buffer, the unread part respects the limit and
    the buffer twice the limit. *)
Record parser_ok (p : ClientStreamParser) : Prop := {
  pok_wf : wf_bytes (buffer_ p);
  pok_cursor : (read_cursor_ p <= length (buffer_ p))%nat;
  pok_unread : (length (unread p) <= maximum_buffered_bytes_ p)%nat;
  pok_buffer : (length (buffer_ p) <= 2 * maximum_buffered_bytes_ p)%nat;
}.

(** What [process_available] makes of the unread bytes: it moves the cursor
    past the requests and records an error. *)
Definition processed (p p' : ClientStreamParser) (r : list byte + WireCodecError) : Prop :=
  parser_ok p' /\ maximum_buffered_bytes_ p' = maximum_buffered_bytes_ p /\
  match r with
  | inl rest => failure_ p' = None /\ unread p' = rest
  | inr e => failure_ p' = Some e
  end.

Lemma length_unread p : length (unread p) = (length (buffer_ p) - read_cursor_ p)%nat.
Proof. apply length_drop. Qed.

Lemma process_loop_spec fuel p result :
  parser_ok p -> failure_ p = None -> error result = None ->
  (length (unread p) < fuel)%nat ->
  exists ms r p' result',
    parses (maximum_buffered_bytes_ p) (unread p) ms r /\ r <> inr BufferLimitExceeded /\
    process_loop fuel p result = Returned p' result' /\ processed p p' r /\
    messages result' = messages result ++ ms /\ error result' = failure_ p'.
Proof.
  revert p result. induction fuel as [|fuel IH]; intros p result Hok Hf He Hfuel; [lia|].
  simpl. rewrite Hf, bool_decide_true by done. simpl andb.
  pose proof Hok as [Hwf Hcur Hun Hbuf]. fold (unread p).
  assert (wf_bytes (unread p)) as Hwu by (by apply wf_drop).
  pose proof (decode_client_slices (unread p) Hwu) as Hd.
  pose proof (length_unread p) as Hlu.
  assert (take (maximum_buffered_bytes_ p) (unread p) = unread p) as Ht by (by apply take_ge).
  case_bool_decide as Hlt.
  2:{ exists [], (inl (unread p)), p, result. rewrite app_nil_r, He. split_and!; try done.
      apply parses_wait; [done|]. rewrite (nil_length_inv (unread p)) by lia. done. }
  rewrite Hd. destruct (frame_slices (unread p)) as [d|e] eqn:Ed.
  - pose proof (frame_slices_consumed _ _ Hwu Ed) as Hc. rewrite <- Ht in Hd.
    set (p1 := mkClientStreamParser _ _ _ _).
    set (result1 := mkClientParseFeedResult _ _).
    assert (unread p1 = drop (bytes_consumed d) (unread p)) as Hu1.
    { unfold unread, p1. simpl. by rewrite drop_drop. }
    assert (length (unread p1) = (length (unread p) - bytes_consumed d)%nat) as Hl1
      by (by rewrite Hu1, length_drop).
    assert (parser_ok p1) as Hok1 by (split; simpl; [done|lia|lia|done]).
    destruct (IH p1 result1 Hok1 eq_refl He ltac:(lia))
      as (ms & r & p' & result' & Hp & Hr & -> & Hpr & Hm & He').
    exists (envelope d :: ms), r, p', result'. split_and!; try done.
    + rewrite Hu1 in Hp. by apply parses_frame.
    + rewrite Hm. simpl. by rewrite <- app_assoc.
  - destruct (decide (e = TruncatedInput)) as [->|Hne].
    + exists [], (inl (unread p)), p, result. rewrite app_nil_r, He.
      split_and!; try done. by apply parses_wait.
    + exists [], (inr e), (fail p result e).1, (fail p result e).2. split; [by apply parses_error; rewrite ?Ht|].
      split; [intros [= ->]; exact (frame_slices_not_limit _ Ed)|].
      split; [by destruct e|]. simpl. rewrite app_nil_r. split_and!; try done.
Qed.

(** ** [feed] *)

Lemma compact_if_needed_spec p :
  parser_ok p ->
  parser_ok (compact_if_needed p) /\ unread (compact_if_needed p) = unread p /\
  failure_ (compact_if_needed p) = failure_ p /\
  maximum_buffered_bytes_ (compact_if_needed p) = maximum_buffered_bytes_ p /\
  (read_cursor_ (compact_if_needed p) <= length (unread p))%nat.
Proof.
  intros Hok. pose proof Hok as [Hwf Hcur Hun Hbuf]. pose proof (length_unread p) as Hl.
  unfold compact_if_needed. case_bool_decide as H0; [split_and!; try done; lia|].
  case_bool_decide as H1.
  { assert (unread p = []) as E by (apply nil_length_inv; lia). rewrite E.
    split_and!; try done. split; simpl; try (constructor || lia). }
  destruct (_ || _) eqn:E2.
  { assert (forall m f, unread (mkClientStreamParser (drop (read_cursor_ p) (buffer_ p)) 0 m f)
      = unread p) as Hu by done.
    split_and!; try done; [|simpl; lia]. split; simpl; auto with bytes; try lia.
    fold (unread p). lia. }
  apply orb_false_iff in E2 as [E2 _]. reflect. split_and!; try done.
  assert (2 * read_cursor_ p < length (buffer_ p))%nat; [|lia].
  pose proof (Nat.div_mod (length (buffer_ p)) 2). pose proof (Nat.mod_upper_bound (length (buffer_ p)) 2). lia.
Qed.

(** Appending to the buffer appends to the unread bytes. *)
Lemma append_ok p extra :
  parser_ok p -> wf_bytes extra -> (read_cursor_ p <= length (unread p))%nat ->
  (length (unread p) + length extra <= maximum_buffered_bytes_ p)%nat ->
  let p' := mkClientStreamParser (buffer_ p ++ extra) (read_cursor_ p)
              (maximum_buffered_bytes_ p) (failure_ p) in
  parser_ok p' /\ unread p' = unread p ++ extra.
Proof.
  intros [Hwf Hcur Hun Hbuf] He Hc Hl p'. pose proof (length_unread p) as Hlu.
  assert (unread p' = unread p ++ extra) as Hu by (unfold unread, p'; simpl; by rewrite drop_app_le).
  split; [|done]. split; [by apply wf_bytes_app| | |]; rewrite ?Hu; simpl; rewrite length_app; lia.
Qed.

Lemma process_available_spec p result :
  parser_ok p -> failure_ p = None -> error result = None ->
  exists ms r p' result',
    parses (maximum_buffered_bytes_ p) (unread p) ms r /\ r <> inr BufferLimitExceeded /\
    process_available p result = Returned p' result' /\ processed p p' r /\
    messages result' = messages result ++ ms /\ error result' = failure_ p'.
Proof.
  intros Hok Hf He. apply process_loop_spec; try done. rewrite length_unread. lia.
Qed.

Definition waiting (p : ClientStreamParser) : Prop :=
  decode_client_frame_prefix (unread p) = Some (inr TruncatedInput).

(** A parser between two calls of [feed]. *)
Definition parser_ready (limit : nat) (p : ClientStreamParser) : Prop :=
  parser_ok p /\ maximum_buffered_bytes_ p = limit /\ (failure_ p = None -> waiting p).

(** The loop parses what is unread followed by the rest of its input. *)
Lemma feed_loop_spec fuel p result bytes consumed :
  parser_ok p -> failure_ p = None -> waiting p -> error result = None -> wf_bytes bytes ->
  (length (drop consumed bytes) < fuel)%nat ->
  exists ms r p' result',
    parses (maximum_buffered_bytes_ p) (unread p ++ drop consumed bytes) ms r /\
    feed_loop fuel p result bytes consumed = Returned p' result' /\ processed p p' r /\
    messages result' = messages result ++ ms /\ error result' = failure_ p'.
Proof.
  intros Hok Hf Hwait He Hwf. revert p result consumed Hok Hf Hwait He.
  induction fuel as [|fuel IH]; intros p result consumed Hok Hf Hwait He Hfuel; [lia|].
  cbn [feed_loop]. rewrite length_drop in Hfuel.
  destruct (compact_if_needed_spec p Hok) as (Hokc & Huc & Hfc & Hmc & Hcc).
  set (pc := compact_if_needed p) in *. set (rest := drop consumed bytes).
  assert (length rest = (length bytes - consumed)%nat) as Hlr by apply length_drop.
  assert (wf_bytes rest) as Hwr by (by apply wf_drop).
  case_bool_decide as Hlt.
  2:{ exists [], (inl (unread p)), pc, result.
      rewrite (nil_length_inv rest) by lia. rewrite !app_nil_r, Hfc, Hf, He. split_and!; try done.
      - apply parses_wait; [apply Hok|done].
      - split_and!; try done. by rewrite Hfc. }
  cbv zeta. rewrite <- (length_unread pc), Huc, Hmc. case_bool_decide as Hfull.
  - exists [], (inr BufferLimitExceeded), (fail pc result BufferLimitExceeded).1,
      (fail pc result BufferLimitExceeded).2.
    split_and!; [|done| |by rewrite app_nil_r|done].
    + apply parses_limit; [rewrite length_app; lia|]. rewrite <- Hfull, take_app_length. done.
    + split_and!; try done. destruct Hokc. by split.
  - set (k := Nat.min _ _). pose proof (pok_unread _ Hok) as Hun.
    assert (k = length (take k rest)) as Hk by (rewrite length_take; unfold k; lia).
    destruct (append_ok pc (take k rest) Hokc) as [Hok1 Hu1];
      [by apply wf_take|by rewrite Huc|rewrite Huc, Hmc, <- Hk; unfold k; lia|].
    rewrite Hmc in Hok1, Hu1. set (p1 := mkClientStreamParser _ _ _ _) in *.
    assert (failure_ p1 = None) as Hf1 by (unfold p1; simpl; by rewrite Hfc).
    assert (maximum_buffered_bytes_ p1 = maximum_buffered_bytes_ p) as Hm1 by done.
    destruct (process_available_spec p1 result Hok1 Hf1 He)
      as (ms & r & p2 & result2 & Hp & _ & -> & (Hok2 & Hm2 & Hr) & Hms & He2).
    rewrite Hu1, Huc, Hm1 in Hp. cbn [obind].
    assert (unread p ++ rest = (unread p ++ take k rest) ++ drop k rest) as Esplit
      by (by rewrite <- app_assoc, take_drop).
    assert (wf_bytes (unread p ++ take k rest)) as Hw1
      by (rewrite <- Huc, <- Hu1; by apply wf_drop, Hok1).
    assert (wf_bytes (drop k rest)) as Hw2 by (by apply wf_drop).
    destruct r as [rest1|e].
    + destruct Hr as [Hf2 Hu2]. rewrite Hf2 in *.
      destruct (parses_rest _ _ _ _ Hw1 Hp) as (_ & _ & Hd).
      destruct (IH p2 result2 (consumed + k)%nat Hok2 Hf2) as (ms' & r' & p' & result' & Hp' & -> & Hpr' & Hms' & He');
        [unfold waiting; by rewrite Hu2|done|rewrite length_drop; unfold k; lia|].
      exists (ms ++ ms'), r', p', result'. rewrite Hms', Hms, <- app_assoc. split_and!; try done.
      * rewrite Esplit. eapply parses_app; [done..|exact Hp|].
        unfold rest. rewrite drop_drop. rewrite Hu2, Hm2, Hm1 in Hp'. exact Hp'.
      * destruct Hpr' as (? & Hm' & ?). split_and!; try done. by rewrite Hm', Hm2.
    + rewrite Hr. exists ms, (inr e), p2, result2. split_and!; try done.
      rewrite Esplit. by apply parses_app_error.
Qed.

Lemma feed_spec p bytes :
  parser_ok p -> failure_ p = None -> waiting p -> wf_bytes bytes ->
  exists ms r p' result',
    parses (maximum_buffered_bytes_ p) (unread p ++ bytes) ms r /\
    feed p bytes = Returned p' result' /\ processed p p' r /\
    messages result' = ms /\ error result' = failure_ p'.
Proof.
  intros Hok Hf Hwait Hwf. unfold feed. rewrite Hf.
  destruct (process_available_spec p (mkClientParseFeedResult [] None) Hok Hf eq_refl)
    as (ms & r & p1 & result1 & Hp & _ & -> & (Hok1 & Hm1 & Hr) & Hms & He1).
  assert (ms = [] /\ r = inl (unread p)) as [-> ->].
  { eapply parses_deterministic; [exact Hp|]. apply parses_wait; [apply Hok|done]. }
  destruct Hr as [Hf1 Hu1]. cbn [obind]. rewrite Hf1 in *.
  destruct (feed_loop_spec (S (length bytes)) p1 result1 bytes 0 Hok1 Hf1) as
    (ms' & r' & p' & result' & Hp' & -> & (Hok' & Hm' & Hr') & Hms' & He');
    [unfold waiting; by rewrite Hu1|done|done|rewrite drop_0; lia|].
  exists ms', r', p', result'. rewrite Hu1, Hm1, drop_0 in Hp'. rewrite Hms', Hms.
  split_and!; try done. split_and!; try done. by rewrite Hm', Hm1.
Qed.

(** A chunk without an error: the parser is ready again, and if it completed no
    request, then the chunk is kept. *)
Lemma feed_ready limit p bytes :
  parser_ready limit p -> wf_bytes bytes ->
  exists p' result, feed p bytes = Returned p' result /\ parser_ready limit p' /\
    (error result = None -> messages result = [] -> unread p' = unread p ++ bytes).
Proof.
  intros (Hok & Hl & Hw) Hb. destruct (failure_ p) as [e|] eqn:Ef.
  { exists p, (mkClientParseFeedResult [] (Some e)). unfold feed. rewrite Ef. split_and!; try done. by split_and!; rewrite ?Ef. }
  destruct (feed_spec p bytes Hok Ef (Hw eq_refl) Hb) as (ms & r & p' & result & Hp & E & (Hok' & Hm & Hr) & Hms & He).
  exists p', result. assert (wf_bytes (unread p ++ bytes)) as Hwf by (apply Forall_app; split; [apply wf_drop, Hok|done]).
  split; [done|]. split.
  - split_and!; [done|congruence|]. intros Hf. destruct r as [rest|e]; [|congruence]. destruct Hr as [_ Hu].
    unfold waiting. rewrite Hu. by apply (parses_rest _ _ _ _ Hwf Hp).
  - intros Hn Hnil. rewrite He in Hn. destruct r as [rest|e]; [|congruence]. destruct Hr as [_ Hu]. rewrite Hms in Hnil. subst ms.
    rewrite Hnil in Hp. inversion Hp; congruence.
Qed.

(** ** A connection: a sequence of chunks *)

Fixpoint feed_all (p : ClientStreamParser) (chunks : list (list byte))
  : outcome ClientStreamParser (list (WireEnvelope ClientMessage)) :=
  match chunks with
  | [] => Returned p []
  | c :: cs =>
      let! (p1, r) := feed p c in
      let! (p2, ms) := feed_all p1 cs in
      Returned p2 (messages r ++ ms)
  end.

Lemma feed_all_failed p chunks e : failure_ p = Some e -> feed_all p chunks = Returned p [].
Proof.
  intros Hf. induction chunks as [|c cs IH]; [done|]. simpl. unfold feed. rewrite Hf.
  cbn [obind]. by rewrite IH.
Qed.

Lemma feed_all_spec p chunks :
  parser_ok p -> failure_ p = None -> waiting p -> Forall wf_bytes chunks ->
  exists ms r p',
    parses (maximum_buffered_bytes_ p) (unread p ++ concat chunks) ms r /\
    feed_all p chunks = Returned p' ms /\ processed p p' r.
Proof.
  intros Hok Hf Hwait Hw. revert p Hok Hf Hwait.
  induction Hw as [|c cs Hc Hcs IH]; intros p Hok Hf Hwait; simpl.
  - exists [], (inl (unread p)), p. rewrite app_nil_r. split_and!; try done.
    apply parses_wait; [apply Hok|done].
  - destruct (feed_spec p c Hok Hf Hwait Hc) as (ms & r & p1 & res & Hp & -> & Hpr & Hms & _).
    assert (wf_bytes (unread p ++ c)) as Hw1 by (apply wf_bytes_app; split; [by apply wf_drop, Hok|done]).
    assert (wf_bytes (concat cs)) as Hw2 by (by apply Forall_concat).
    rewrite app_assoc. cbn [obind]. destruct Hpr as (Hok1 & Hm1 & Hr). destruct r as [rest|e].
    + destruct Hr as [Hf1 Hu1]. destruct (parses_rest _ _ _ _ Hw1 Hp) as (_ & _ & Hd).
      destruct (IH p1 Hok1 Hf1) as (ms' & r' & p' & Hp' & -> & Hok' & Hm' & Hr');
        [unfold waiting; by rewrite Hu1|].
      exists (ms ++ ms'), r', p'. simpl. rewrite Hms. split_and!; try done.
      * rewrite Hm1, Hu1 in Hp'. eapply parses_app; done.
      * split_and!; try done. by rewrite Hm', Hm1.
    + rewrite (feed_all_failed p1 cs e Hr). exists ms, (inr e), p1. simpl. rewrite Hms, app_nil_r.
      split_and!; try done. by apply parses_app_error.
Qed.

Lemma new_parser_ok limit :
  parser_ok (new_parser limit) /\ waiting (new_parser limit) /\ unread (new_parser limit) = [].
Proof. split_and!; try done. split; simpl; try (constructor || lia). Qed.

Lemma parses_limit_large limit bytes ms r :
  (45 <= limit)%nat -> wf_bytes bytes -> parses limit bytes ms r -> r <> inr BufferLimitExceeded.
Proof.
  intros Hl Hw H. revert Hw.
  induction H as [| bytes Hlt Hd | bytes e Hd He | bytes d ms r Hd _ IH]; intros Hw; [done| | |].
  - rewrite decode_client_slices in Hd by (by apply wf_take). injection Hd as Hd.
    pose proof (frame_slices_short _ Hd) as Hs. rewrite length_take in Hs. lia.
  - rewrite decode_client_slices in Hd by (by apply wf_take). intros [= ->].
    injection Hd as Hd. exact (frame_slices_not_limit _ Hd).
  - apply IH. by apply wf_drop.
Qed.

(** ** The parser *)

(** C21: the parser implements the stream: whatever the chunks, [feed] comes
    back, the requests it delivers and the way it ends are those of the whole
    stream, the bytes of an unfinished request are kept, an error is final; and
    a buffer of at least one request (45 bytes) is never exceeded. *)
Theorem parser_refines_stream limit chunks :
  Forall wf_bytes chunks ->
  exists p ms r,
    feed_all (new_parser limit) chunks = Returned p ms /\
    parses limit (concat chunks) ms r /\
    match r with
    | inl rest => failure p = None /\ buffered_size p = length rest /\
                  has_incomplete_frame p = bool_decide (rest <> [])
    | inr e => failure p = Some e /\ failed p = true
    end /\
    ((45 <= limit)%nat -> failure p <> Some BufferLimitExceeded).
Proof.
  intros Hw. destruct (new_parser_ok limit) as (Hok & Hwait & Hu).
  destruct (feed_all_spec _ chunks Hok eq_refl Hwait Hw) as (ms & r & p & Hp & E & Hokp & _ & Hr).
  rewrite Hu in Hp. exists p, ms, r. split; [done|]. split; [done|].
  assert (wf_bytes (concat chunks)) as Hwc by (by apply Forall_concat).
  assert ((45 <= limit)%nat -> r <> inr BufferLimitExceeded) as Hlim.
  { intros Hl. by eapply parses_limit_large. }
  unfold failure, failed, has_incomplete_frame, buffered_size. rewrite <- length_unread.
  destruct r as [rest|e].
  - destruct Hr as [-> <-]. split; [|done]. split_and!; try done. simpl.
    rewrite <- bool_decide_not. apply bool_decide_ext.
    pose proof (length_unread p). pose proof (pok_cursor _ Hokp).
    split; intros Hn E'; apply Hn; [apply (f_equal length) in E'; simpl in E'; lia|].
    apply nil_length_inv. lia.
  - rewrite Hr. split; [split; [done|by rewrite bool_decide_true]|]. intros Hl [= ->]. by apply Hlim.
Qed.

(** The parser does not depend on how the stream is cut: two chunkings of
    the same bytes deliver the same requests and end in the same state. *)
Theorem parser_chunking_independent limit chunks chunks' :
  Forall wf_bytes chunks -> Forall wf_bytes chunks' -> concat chunks = concat chunks' ->
  exists p p' ms,
    feed_all (new_parser limit) chunks = Returned p ms /\
    feed_all (new_parser limit) chunks' = Returned p' ms /\
    failure p = failure p' /\ (failure p = None -> unread p = unread p').
Proof.
  intros Hw Hw' Ec. destruct (new_parser_ok limit) as (Hok & Hwait & Hu).
  destruct (feed_all_spec _ chunks Hok eq_refl Hwait Hw) as (ms & r & p & Hp & E & _ & _ & Hr).
  destruct (feed_all_spec _ chunks' Hok eq_refl Hwait Hw') as (ms' & r' & p' & Hp' & E' & _ & _ & Hr').
  rewrite Hu, Ec in Hp. rewrite Hu in Hp'.
  destruct (parses_deterministic _ _ _ _ _ _ Hp Hp') as [-> ->].
  exists p, p', ms'. unfold failure. destruct r' as [rest|e].
  - destruct Hr as [-> ->], Hr' as [-> ->]. by split_and!.
  - rewrite Hr, Hr'. by split_and!.
Qed.

(** The parser's memory is bounded, failed or not: the cursor stays inside
    the buffer, at most [maximum_buffered_bytes] are unread, the buffer holds
    at most twice that, and without a failure fewer than 45 bytes wait. *)
Theorem parser_memory_bounded limit chunks :
  Forall wf_bytes chunks ->
  exists p ms,
    feed_all (new_parser limit) chunks = Returned p ms /\
    (read_cursor_ p <= length (buffer_ p))%nat /\
    (buffered_size p <= limit)%nat /\ (length (buffer_ p) <= 2 * limit)%nat /\
    (failure p = None -> (buffered_size p < 45)%nat).
Proof.
  intros Hw. destruct (new_parser_ok limit) as (Hok & Hwait & Hu).
  destruct (feed_all_spec _ chunks Hok eq_refl Hwait Hw) as (ms & r & p & Hp & E & Hokp & Hm & Hr).
  exists p, ms. split; [done|]. destruct Hokp as [Hwp Hc Hun Hb]. rewrite Hm in Hun, Hb.
  cbn [maximum_buffered_bytes_ new_parser] in Hun, Hb.
  unfold buffered_size. rewrite <- length_unread. split_and!; try done.
  intros Hf. destruct r as [rest|e]; [|unfold failure in Hf; congruence]. destruct Hr as [_ ->].
  assert (wf_bytes (concat chunks)) as Hwc by (by apply Forall_concat).
  rewrite Hu in Hp. destruct (parses_rest _ _ _ _ Hwc Hp) as (_ & Hwr & Hd).
  rewrite decode_client_slices in Hd by done. injection Hd as Hd. exact (frame_slices_short _ Hd).
Qed.

(** ** Witnesses *)

Definition sample_request : WireEnvelope ClientMessage :=
  mkWireEnvelope 7 (SubmitLimitOrderMessage (mkSubmitLimitOrderRequest 1 0 100 5)).

Definition sample_stream : list byte :=
  match encode_client_frame sample_request with inl f => f ++ take 10 f | inr _ => [] end.

Definition sample_chunks : list (list byte) :=
  [take 13 sample_stream; drop 13 sample_stream].

Lemma parser_refines_stream_witness :
  exists p ms r,
    feed_all (new_parser 64) sample_chunks = Returned p ms /\
    parses 64 (concat sample_chunks) ms r.
Proof.
  destruct (parser_refines_stream 64 sample_chunks) as (p & ms & r & H1 & H2 & _).
  - decide_now.
  - exists p, ms, r. exact (conj H1 H2).
Defined.

Lemma parser_chunking_independent_witness :
  exists p p',
    feed_all (new_parser 64) sample_chunks = Returned p [sample_request] /\
    feed_all (new_parser 64) [sample_stream] = Returned p' [sample_request] /\
    failure p = failure p'.
Proof.
  destruct (parser_chunking_independent 64 sample_chunks [sample_stream])
    as (p & p' & ms & H1 & H2 & H3 & _).
  - decide_now.
  - decide_now.
  - vm_compute. reflexivity.
  - exists p, p'. assert (ms = [sample_request]) as <-; [|exact (conj H1 (conj H2 H3))].
    vm_compute in H1. injection H1 as _ <-. reflexivity.
Defined.

Lemma parser_memory_bounded_witness :
  exists p ms, feed_all (new_parser 64) sample_chunks = Returned p ms /\
    (length (buffer_ p) <= 2 * 64)%nat.
Proof.
  destruct (parser_memory_bounded 64 sample_chunks) as (p & ms & H1 & _ & _ & H2 & _).
  - decide_now.
  - exists p, ms. exact (conj H1 H2).
Defined.
