(* ===== verification/Threads.v ===== *)
(** * Threads as programs over events

    The gateway and the engine worker run on threads of their own and share two
    queues, a counter, two flags and an eventfd.  The code of a thread is a
    value of [prog E]: a tree of events of [E], the accesses to shared objects
    and the system calls, with its loops as [Iter].  A loop has no fuel: it is
    unfolded by the step relation.  The data that belongs to one thread is
    passed along as a value.

    [wp] is the program logic of one thread among others.  A thread owns a state
    [O], everything the other threads own is some [R], and [Sh] is shared.  An
    invariant couples the three; it holds before and after every event of
    every thread, so that at each of its events a thread can rely on it for
    some [R] and some [Sh], and on nothing else about them.  [halts] says that
    a thread returns. *)
From S2P Require Import Prelude.

Inductive prog (E : Type -> Type) (A : Type) : Type :=
| Ret (a : A)
| Op (X : Type) (e : E X) (k : X -> prog E A)
| Iter (L B : Type) (body : L -> prog E (L + B)) (l : L) (k : B -> prog E A).
Arguments Ret {E A} a.
Arguments Op {E A X} e k.
Arguments Iter {E A L B} body l k.

Fixpoint bind {E A B} (p : prog E A) (f : A -> prog E B) : prog E B :=
  match p with
  | Ret a => f a
  | Op e k => Op e (fun x => bind (k x) f)
  | Iter body l k => Iter body l (fun b => bind (k b) f)
  end.

(** One event. *)
Definition call {E X} (e : E X) : prog E X := Op e Ret.

(** [body] is repeated, from the value it returns on the left, until it
    returns on the right. *)
Definition iter {E L B} (body : L -> prog E (L + B)) (l : L) : prog E B := Iter body l Ret.

(** One turn of a loop. *)
Definition unfold_iter {E L B A} (body : L -> prog E (L + B)) (l : L) (k : B -> prog E A) : prog E A :=
  bind (body l) (fun r => match r with inl l' => Iter body l' k | inr b => k b end).

Declare Scope prog_scope.
Delimit Scope prog_scope with prog.
Notation "'let*' x := p 'in' k" := (bind p (fun x => k))
  (at level 10, x name, p at level 100, k at level 200) : prog_scope.
Notation "'let*' ' x := p 'in' k" := (bind p (fun v => match v with x => k end))
  (at level 10, x strict pattern, p at level 100, k at level 200) : prog_scope.
Notation "p ;; k" := (bind p (fun _ => k)) (at level 100, k at level 200, right associativity) : prog_scope.
Open Scope prog_scope.

(** [for (x : l) body]. *)
Fixpoint for_each {E L X} (l : list X) (body : L -> X -> prog E L) (s : L) : prog E L :=
  match l with
  | [] => Ret s
  | x :: l' => let* s' := body s x in for_each l' body s'
  end.

(** Programs that differ only in how their continuations are written. *)
Inductive peq {E A} : prog E A -> prog E A -> Prop :=
| peq_ret a : peq (Ret a) (Ret a)
| peq_op X (e : E X) k k' : (forall x, peq (k x) (k' x)) -> peq (Op e k) (Op e k')
| peq_iter L B (body : L -> prog E (L + B)) l k k' :
    (forall b, peq (k b) (k' b)) -> peq (Iter body l k) (Iter body l k').

Lemma peq_inv {E A} (p p' : prog E A) :
  peq p p' ->
  match p with
  | Ret a => p' = Ret a
  | Op e k => exists k', p' = Op e k' /\ forall x, peq (k x) (k' x)
  | Iter body l k => exists k', p' = Iter body l k' /\ forall b, peq (k b) (k' b)
  end.
Proof. intros []; eauto. Qed.

Lemma peq_refl {E A} (p : prog E A) : peq p p.
Proof. induction p; by constructor. Qed.

Lemma bind_ext {E A B} (p : prog E A) (f f' : A -> prog E B) :
  (forall a, peq (f a) (f' a)) -> peq (bind p f) (bind p f').
Proof.
  revert f f'. induction p as [A a|A X e k IH|A L C body _ l k IH]; intros f f' Hf; simpl;
    [done|constructor; auto..].
Qed.

Lemma bind_assoc {E A B C} (p : prog E A) (f : A -> prog E B) (g : B -> prog E C) h :
  (forall a, peq (bind (f a) g) (h a)) -> peq (bind (bind p f) g) (bind p h).
Proof.
  revert f h. induction p as [A a|A X e k IH|A L D body _ l k IH]; intros f h Hh; simpl;
    [done|constructor; auto..].
Qed.

(** ** Reasoning about one thread *)

Section logic.
  Context {E : Type -> Type} {O R Sh : Type}.
  (** what an event does, and when it is allowed *)
  Variable step : forall X, E X -> O -> Sh -> X -> O -> Sh -> Prop.
  Variable ok : forall X, E X -> O -> Sh -> Prop.
  Variable inv : O -> R -> Sh -> Prop.

(** The next [n] steps of the thread keep to the rules, and if it returns
    within them then in [Q]. *)
Fixpoint wp (n : nat) {A} (p : prog E A) (o : O) (Q : A -> O -> Prop) : Prop :=
  match n with
  | 0%nat => True
  | S n' =>
      match p with
      | Ret a => Q a o
      | Op e k => forall r s, inv o r s ->
          ok _ e o s /\
          forall x o' s', step _ e o s x o' s' -> inv o' r s' /\ wp n' (k x) o' Q
      | Iter body l k =>
          wp n' (body l) o (fun t o' =>
            match t with
            | inl l' => wp n' (Iter body l' k) o' Q
            | inr b => wp n' (k b) o' Q
            end)
      end
  end.

Definition WP {A} (p : prog E A) (o : O) (Q : A -> O -> Prop) : Prop := forall n, wp n p o Q.

Lemma wp_mono n {A} (p : prog E A) o (Q Q' : A -> O -> Prop) :
  wp n p o Q -> (forall a o', Q a o' -> Q' a o') -> wp n p o Q'.
Proof.
  revert A p o Q Q'. induction n as [|n IH]; intros A p o Q Q' H HQ; [done|].
  destruct p as [a|X e k|L B body l k]; simpl in *.
  - by apply HQ.
  - intros r s Hi. destruct (H r s Hi) as [Hok Hst]. split; [done|].
    intros x o' s' Hx. destruct (Hst x o' s' Hx). eauto.
  - eapply IH; [exact H|]. intros [l'|b] o' Ht; eauto.
Qed.

Lemma wp_down n {A} (p : prog E A) o (Q : A -> O -> Prop) : wp (S n) p o Q -> wp n p o Q.
Proof.
  revert A p o Q. induction n as [|n IH]; intros A p o Q H; [done|].
  destruct p as [a|X e k|L B body l k]; [done| |].
  - intros r s Hi. destruct (H r s Hi) as [Hok Hst]. split; [done|].
    intros x o' s' Hx. destruct (Hst x o' s' Hx). eauto.
  - apply IH. eapply wp_mono; [exact H|]. intros [l'|b] o' Ht; by apply IH.
Qed.

Lemma wp_bind n {A B} (p : prog E A) (f : A -> prog E B) o Q :
  wp n p o (fun a o' => wp n (f a) o' Q) -> wp n (bind p f) o Q.
Proof.
  revert A p f o. induction n as [|n IH]; intros A p f o H; [done|].
  destruct p as [a|X e k|L C body l k]; [exact H| |].
  - intros r s Hi. destruct (H r s Hi) as [Hok Hst]. split; [done|].
    intros x o' s' Hx. destruct (Hst x o' s' Hx) as [Hi' Hw]. split; [done|].
    apply IH. eapply wp_mono; [exact Hw|]. intros. by apply wp_down.
  - cbn in H |- *. eapply wp_mono; [exact H|]. intros [l'|c] o' Ht.
    + apply (IH A (Iter body l' k)). eapply wp_mono; [exact Ht|]. intros. by apply wp_down.
    + apply IH. eapply wp_mono; [exact Ht|]. intros. by apply wp_down.
Qed.

(** A loop may be unfolded. *)
Lemma wp_unfold n {L B A} (body : L -> prog E (L + B)) l (k : B -> prog E A) o Q :
  wp (S n) (Iter body l k) o Q -> wp n (unfold_iter body l k) o Q.
Proof. intros H. apply wp_bind. eapply wp_mono; [exact H|]. by intros [l'|b] o'. Qed.

(** ** The rules *)

Lemma WP_mono {A} (p : prog E A) o (Q Q' : A -> O -> Prop) :
  WP p o Q -> (forall a o', Q a o' -> Q' a o') -> WP p o Q'.
Proof. intros H HQ n. by eapply wp_mono. Qed.

Lemma WP_ret {A} (a : A) o (Q : A -> O -> Prop) : Q a o -> WP (Ret a) o Q.
Proof. by intros H [|n]. Qed.

Lemma WP_op {X A} (e : E X) (k : X -> prog E A) o Q :
  (forall r s, inv o r s -> ok _ e o s /\
     forall x o' s', step _ e o s x o' s' -> inv o' r s' /\ WP (k x) o' Q) ->
  WP (Op e k) o Q.
Proof.
  intros H [|n]; [done|]. intros r s Hi. destruct (H r s Hi) as [Hok Hst]. split; [done|].
  intros x o' s' Hx. destruct (Hst x o' s' Hx) as [? Hw]. split; [done|]. apply Hw.
Qed.

Lemma WP_bind {A B} (p : prog E A) (f : A -> prog E B) o Q :
  WP p o (fun a o' => WP (f a) o' Q) -> WP (bind p f) o Q.
Proof. intros H n. apply wp_bind. eapply wp_mono; [apply H|]. intros a o' Ha. apply Ha. Qed.

(** A loop invariant. *)
Lemma WP_iter {L B} (I : L -> O -> Prop) (body : L -> prog E (L + B)) l o Q :
  I l o ->
  (forall l o, I l o -> WP (body l) o (fun t o' => match t with inl l' => I l' o' | inr b => Q b o' end)) ->
  WP (iter body l) o Q.
Proof.
  intros Hl Hbody n. revert l o Hl. induction n as [|n IH]; intros l o Hl; [done|].
  unfold iter. cbn. eapply wp_mono; [by apply Hbody|].
  intros [l'|b] o' Ht; [by apply IH|]. by apply WP_ret.
Qed.

(** A loop over a list, with an invariant that mentions the rest. *)
Lemma WP_for_each {L X} (I : list X -> L -> O -> Prop) (body : L -> X -> prog E L) xs l o Q :
  I xs l o ->
  (forall x xs l o, I (x :: xs) l o -> WP (body l x) o (fun l' o' => I xs l' o')) ->
  (forall l o, I [] l o -> Q l o) ->
  WP (for_each xs body l) o Q.
Proof.
  intros HI Hb HQ. revert l o HI. induction xs as [|x xs IH]; intros l o HI; simpl.
  - by apply WP_ret, HQ.
  - apply WP_bind. eapply WP_mono; [by apply Hb|]. intros l' o'. apply IH.
Qed.

End logic.

(** ** Termination

    Whatever the others do, the thread returns after finitely many of its own
    events, in [Q], as long as its state satisfies [keep]. *)
Section termination.
  Context {E : Type -> Type} {O Sh : Type}.
  Variable step : forall X, E X -> O -> Sh -> X -> O -> Sh -> Prop.
  Variable keep : O -> Prop.

Inductive halts {A} (Q : A -> O -> Prop) : prog E A -> O -> Prop :=
| halts_ret a o : Q a o -> halts Q (Ret a) o
| halts_op {X} (e : E X) k o :
    (forall s x o' s', step _ e o s x o' s' -> keep o' -> halts Q (k x) o') ->
    halts Q (Op e k) o
| halts_iter {L B} (body : L -> prog E (L + B)) l k o :
    halts Q (unfold_iter body l k) o -> halts Q (Iter body l k) o.

Lemma halts_mono {A} (p : prog E A) o (Q Q' : A -> O -> Prop) :
  halts Q p o -> (forall a o', Q a o' -> Q' a o') -> halts Q' p o.
Proof.
  intros H HQ. induction H as [a o Ha|X e k o _ IH|L B body l k o _ IH].
  - by apply halts_ret, HQ.
  - apply halts_op; eauto.
  - by apply halts_iter.
Qed.

(** A relation that every event respects holds between the beginning and the
    end. *)
Lemma halts_relates {A} (p : prog E A) o (Q : A -> O -> Prop) (R : O -> O -> Prop) `{!PreOrder R} :
  (forall X (e : E X) o s x o' s', step X e o s x o' s' -> R o o') ->
  halts Q p o -> halts (fun a o' => Q a o' /\ R o o') p o.
Proof.
  intros HR H. induction H as [a o Ha|X e k o _ IH|L B body l k o _ IH].
  - by apply halts_ret.
  - apply halts_op. intros s x o' s' Hst Hk. eapply halts_mono; [by eapply IH|].
    intros a o'' [? ?]. split; [done|]. etrans; [by eapply HR|done].
  - by apply halts_iter.
Qed.

Lemma halts_peq {A} (Q : A -> O -> Prop) (p p' : prog E A) o :
  halts Q p o -> peq p p' -> halts Q p' o.
Proof.
  intros H. revert p'. induction H as [a o Ha|X e k o _ IH|L B body l k o _ IH]; intros p' Hp'%peq_inv.
  - subst. by apply halts_ret.
  - destruct Hp' as (k' & -> & Hk). apply halts_op; eauto.
  - destruct Hp' as (k' & -> & Hk). apply halts_iter, IH. apply bind_ext.
    intros [l'|b]; [by constructor|done].
Qed.

Lemma halts_bind {A B} (p : prog E A) (f : A -> prog E B) o Q :
  halts (fun a o' => halts Q (f a) o') p o -> halts Q (bind p f) o.
Proof.
  intros H. remember (fun a o' => halts Q (f a) o') as Q1 eqn:EQ.
  induction H as [a o Ha|X e k o _ IH|L C body l k o _ IH]; subst; simpl; [done| |].
  - apply halts_op; eauto.
  - apply halts_iter. eapply halts_peq; [exact IH|]. apply bind_assoc.
    intros [l'|c]; apply peq_refl.
Qed.

(** A loop with an invariant and a measure that decreases. *)
Lemma halts_loop_inv {L B} (I : L -> O -> Prop) (m : L -> O -> nat) (body : L -> prog E (L + B)) l o (Q : B -> O -> Prop) :
  I l o ->
  (forall l o, I l o -> halts (fun t o' => match t with
                                           | inl l' => I l' o' /\ (m l' o' < m l o)%nat
                                           | inr b => Q b o'
                                           end) (body l) o) ->
  halts Q (iter body l) o.
Proof.
  intros HI Hb. remember (m l o) as n eqn:En. revert l o En HI.
  induction n as [n IH] using lt_wf_ind. intros l o -> HI.
  apply halts_iter, halts_bind. eapply halts_mono; [by apply Hb|].
  intros [l'|b] o'; [intros [HI' Hlt]; by eapply IH|]. apply halts_ret.
Qed.

Lemma halts_loop {L B} (m : L -> O -> nat) (body : L -> prog E (L + B)) l o (Q : B -> O -> Prop) :
  (forall l o, halts (fun t o' => match t with
                                  | inl l' => (m l' o' < m l o)%nat
                                  | inr b => Q b o'
                                  end) (body l) o) ->
  halts Q (iter body l) o.
Proof.
  intros Hb. apply (halts_loop_inv (fun _ _ => True) m); [done|]. intros l' o' _.
  eapply halts_mono; [apply Hb|]. by intros [l2|b] o2.
Qed.

(** At the end [keep] holds, too. *)
Lemma halts_keep {A} (p : prog E A) o (Q : A -> O -> Prop) :
  halts Q p o -> keep o -> halts (fun a o' => Q a o' /\ keep o') p o.
Proof.
  intros H. induction H as [a o Ha|X e k o _ IH|L B body l k o _ IH]; intros Hk.
  - by apply halts_ret.
  - apply halts_op. eauto.
  - apply halts_iter. auto.
Qed.

(** What is left after a step still halts. *)
Lemma halts_inv {A} (Q : A -> O -> Prop) (p : prog E A) o :
  halts Q p o ->
  match p with
  | Ret a => Q a o
  | Op e k => forall s x o' s', step _ e o s x o' s' -> keep o' -> halts Q (k x) o'
  | Iter body l k => halts Q (unfold_iter body l k) o
  end.
Proof. by intros []. Qed.

(** Two postconditions. *)
Lemma halts_and {A} (p : prog E A) o (Q Q' : A -> O -> Prop) :
  halts Q p o -> halts Q' p o -> halts (fun a o' => Q a o' /\ Q' a o') p o.
Proof.
  intros H. induction H as [a o Ha|X e k o _ IH|L B body l k o _ IH]; intros H'%halts_inv.
  - by apply halts_ret.
  - apply halts_op. eauto.
  - apply halts_iter. auto.
Qed.

End termination.

Lemma halts_for_each {E : Type -> Type} {O Sh L X : Type} (step : forall X, E X -> O -> Sh -> X -> O -> Sh -> Prop) keep
    (body : L -> X -> prog E L) xs l o :
  (forall x l o, halts step keep (fun _ _ => True) (body l x) o) ->
  halts step keep (fun _ _ => True) (for_each xs body l) o.
Proof.
  intros Hb. revert l o. induction xs as [|x xs IH]; intros l o; simpl; [by apply halts_ret|].
  apply halts_bind. eapply halts_mono; [apply Hb|]. intros l' o' _. apply IH.
Qed.

(** A thread that returns, returns in what is known of it; here without an
    invariant. *)
Lemma WP_halts {E : Type -> Type} {O Sh A : Type} (step : forall X, E X -> O -> Sh -> X -> O -> Sh -> Prop) ok keep
    (p : prog E A) o Q :
  halts step keep (fun _ _ => True) p o ->
  WP step ok (fun (_ : O) (_ : unit) (_ : Sh) => True) p o Q -> halts step keep Q p o.
Proof.
  intros H. induction H as [a o Ha|X e k o _ IH|L B body l k o _ IH]; intros HW.
  - apply halts_ret. exact (HW 1%nat).
  - apply halts_op. intros s x o' s' Hst Hk. eapply IH; [done..|]. intros n.
    destruct (HW (S n) tt s I) as [_ Hn]. by destruct (Hn x o' s' Hst).
  - apply halts_iter, IH. intros n. apply wp_unfold, HW.
Qed.

(** ** Termination under a condition

    A thread may run for ever until some condition [C] on its state holds, and
    return after that, once the shared state satisfies [K] and nobody else
    changes it any more.  [ST] says of a program that from each of its points at
    which [C] holds it returns by itself. *)
Section stopping.
  Context {E : Type -> Type} {O R Sh : Type}.
  Variable step : forall X, E X -> O -> Sh -> X -> O -> Sh -> Prop.
  Variable ok : forall X, E X -> O -> Sh -> Prop.
  Variable inv : O -> R -> Sh -> Prop.
  Variables (C : O -> Prop) (K : Sh -> Prop).

(** The thread by itself owns the shared state, too. *)
Definition alone_step X (e : E X) (os : O * Sh) (_ : unit) (x : X) (os' : O * Sh) (_ : unit) : Prop :=
  step X e os.1 os.2 x os'.1 os'.2.
Definition stopping (os : O * Sh) : Prop := C os.1 /\ K os.2.
Definition alone_halts {A} (Q : A -> O * Sh -> Prop) : prog E A -> O * Sh -> Prop :=
  halts alone_step stopping Q.

Fixpoint st (n : nat) {A} (p : prog E A) (o : O) (Q : A -> O -> Prop) : Prop :=
  match n with
  | 0%nat => True
  | S n' =>
      (C o -> forall s, K s -> alone_halts (fun a os => Q a os.1) p (o, s)) /\
      match p with
      | Ret a => Q a o
      | Op e k => forall r s, inv o r s -> forall x o' s', step _ e o s x o' s' -> st n' (k x) o' Q
      | Iter body l k =>
          st n' (body l) o (fun t o' =>
            match t with
            | inl l' => st n' (Iter body l' k) o' Q
            | inr b => st n' (k b) o' Q
            end)
      end
  end.

Definition ST {A} (p : prog E A) (o : O) (Q : A -> O -> Prop) : Prop := forall n, st n p o Q.

Lemma alone_bind {A B} (p : prog E A) (f : A -> prog E B) os (Q : A -> O * Sh -> Prop) (Q' : B -> O * Sh -> Prop) :
  alone_halts Q p os -> stopping os ->
  (forall a os', Q a os' -> stopping os' -> alone_halts Q' (f a) os') ->
  alone_halts Q' (bind p f) os.
Proof.
  intros H Hs Hf. apply halts_bind. eapply halts_mono; [by apply halts_keep|]. intros a os' [? ?]. by apply Hf.
Qed.

(** A loop that nobody disturbs, with an invariant and a measure that decreases. *)
Lemma alone_loop {L B} (I : L -> O * Sh -> Prop) (m : L -> O * Sh -> nat) (body : L -> prog E (L + B)) l os
    (Q : B -> O * Sh -> Prop) :
  I l os -> stopping os ->
  (forall l os, I l os -> stopping os ->
     alone_halts (fun t os' => match t with inl l' => I l' os' /\ (m l' os' < m l os)%nat | inr b => Q b os' end)
       (body l) os) ->
  alone_halts Q (iter body l) os.
Proof.
  intros Hl Hs Hb. remember (m l os) as n eqn:En. revert l os En Hl Hs.
  induction n as [n IH] using lt_wf_ind. intros l os -> Hl Hs.
  apply halts_iter. eapply alone_bind; [by apply Hb|done|].
  intros [l'|b] os' Ht Hs'; [destruct Ht; by eapply IH|by apply halts_ret].
Qed.

Lemma st_mono n {A} (p : prog E A) o (Q Q' : A -> O -> Prop) :
  st n p o Q -> (forall a o', Q a o' -> Q' a o') -> st n p o Q'.
Proof.
  revert A p o Q Q'. induction n as [|n IH]; intros A p o Q Q' H HQ; [done|]. destruct H as [Hh H]. split.
  - intros Hc s Hk. eapply halts_mono; [by apply Hh|]. eauto.
  - destruct p as [a|X e k|L B body l k]; [eauto..|]. eapply IH; [exact H|]. intros [l'|b] o' Ht; eauto.
Qed.

Lemma st_down n {A} (p : prog E A) o (Q : A -> O -> Prop) : st (S n) p o Q -> st n p o Q.
Proof.
  revert A p o Q. induction n as [|n IH]; intros A p o Q H; [done|]. destruct H as [Hh H]. split; [done|].
  destruct p as [a|X e k|L B body l k]; [done|eauto|].
  apply IH. eapply st_mono; [exact H|]. intros [l'|b] o' Ht; by apply IH.
Qed.

Lemma st_bind n {A B} (p : prog E A) (f : A -> prog E B) o Q :
  st n p o (fun a o' => st n (f a) o' Q) -> st n (bind p f) o Q.
Proof.
  revert A p f o. induction n as [|n IH]; intros A p f o H; [done|]. destruct H as [Hh H].
  assert (forall p : prog E A, (C o -> forall s, K s -> alone_halts (fun a os => st (S n) (f a) os.1 Q) p (o, s)) ->
    C o -> forall s, K s -> alone_halts (fun b os => Q b os.1) (bind p f) (o, s)) as Hbind.
  { intros q Hq Hc s Hk. eapply alone_bind; [by apply Hq|done|]. intros a [o' s'] [Hh' _] [Hc' Hk']. by apply Hh'. }
  destruct p as [a|X e k|L D body l k]; [exact H| |].
  - split; [by apply (Hbind (Op e k))|]. intros r s Hi x o' s' Hx. apply IH.
    eapply st_mono; [by eapply H|]. intros. by apply st_down.
  - split; [by apply (Hbind (Iter body l k))|]. eapply st_mono; [exact H|]. intros [l'|c] o' Ht.
    + apply (IH A (Iter body l' k)). eapply st_mono; [exact Ht|]. intros. by apply st_down.
    + apply IH. eapply st_mono; [exact Ht|]. intros. by apply st_down.
Qed.

Lemma st_unfold n {L B A} (body : L -> prog E (L + B)) l (k : B -> prog E A) o Q :
  st (S n) (Iter body l k) o Q -> st n (unfold_iter body l k) o Q.
Proof. intros [_ H]. apply st_bind. eapply st_mono; [exact H|]. by intros [l'|b] o'. Qed.

(** The rules. *)

Lemma ST_mono {A} (p : prog E A) o (Q Q' : A -> O -> Prop) :
  ST p o Q -> (forall a o', Q a o' -> Q' a o') -> ST p o Q'.
Proof. intros H HQ n. by eapply st_mono. Qed.

Lemma ST_halts {A} (p : prog E A) o s (Q : A -> O -> Prop) :
  ST p o Q -> stopping (o, s) -> alone_halts (fun a os => Q a os.1) p (o, s).
Proof. intros H [Hc Hk]. by apply (H 1%nat). Qed.

Lemma ST_ret {A} (a : A) o (Q : A -> O -> Prop) : Q a o -> ST (Ret a) o Q.
Proof. intros H [|n]; [done|]. split; [|done]. intros _ s _. by apply halts_ret. Qed.

Lemma ST_op {X A} (e : E X) (k : X -> prog E A) o Q :
  (forall s x o' s', step _ e o s x o' s' -> ST (k x) o' Q) -> ST (Op e k) o Q.
Proof.
  intros H [|n]; [done|]. split.
  - intros Hc s Hk. apply halts_op. intros [] x [o' s'] [] Hst Hs'. apply ST_halts; [|done]. by eapply H.
  - intros r s _ x o' s' Hst. by eapply H.
Qed.

Lemma ST_bind {A B} (p : prog E A) (f : A -> prog E B) o Q :
  ST p o (fun a o' => ST (f a) o' Q) -> ST (bind p f) o Q.
Proof. intros H n. apply st_bind. eapply st_mono; [apply H|]. intros a o' Ha. apply Ha. Qed.

(** A loop with an invariant, of which it is known that it returns. *)
Lemma ST_iter {L B} (I : L -> O -> Prop) (body : L -> prog E (L + B)) l o Q :
  I l o ->
  (forall l o s, I l o -> stopping (o, s) -> alone_halts (fun b os => Q b os.1) (iter body l) (o, s)) ->
  (forall l o, I l o -> ST (body l) o (fun t o' => match t with inl l' => I l' o' | inr b => Q b o' end)) ->
  ST (iter body l) o Q.
Proof.
  intros Hl Hh Hbody n. revert l o Hl. induction n as [|n IH]; intros l o Hl; [done|]. split.
  - intros Hc s Hk. by apply Hh.
  - eapply st_mono; [by apply Hbody|]. intros [l'|b] o' Ht; [by apply IH|]. by apply ST_ret.
Qed.

(** A loop with an invariant and a measure that decreases while nobody else runs. *)
Lemma ST_loop {L B} (I : L -> O -> Prop) (m : L -> O * Sh -> nat) (body : L -> prog E (L + B)) l o Q :
  I l o ->
  (forall l o, I l o -> ST (body l) o (fun t o' => match t with inl l' => I l' o' | inr b => Q b o' end)) ->
  (forall l os, I l os.1 -> stopping os ->
     alone_halts (fun t os' => match t with inl l' => (m l' os' < m l os)%nat | inr _ => True end) (body l) os) ->
  ST (iter body l) o Q.
Proof.
  intros Hl Hbody Hm. apply (ST_iter I); [done| |done]. clear l o Hl. intros l o s Hl Hs.
  apply (alone_loop (fun l os => I l os.1) m); [done..|]. clear l o s Hl Hs. intros l [o s] Hl Hs.
  eapply halts_mono; [apply halts_and; [by apply ST_halts; [by apply Hbody|]|by apply Hm]|].
  by intros [l'|b] os' [? ?].
Qed.

Lemma ST_for_each {L X} (I : L -> O -> Prop) (body : L -> X -> prog E L) xs l o :
  I l o -> (forall x l o, I l o -> ST (body l x) o I) -> ST (for_each xs body l) o I.
Proof.
  intros HI Hb. revert l o HI. induction xs as [|x xs IH]; intros l o HI; simpl; [by apply ST_ret|].
  apply ST_bind. eapply ST_mono; [by apply Hb|]. intros l' o'. apply IH.
Qed.

(** Before the condition holds, a program that does not establish it may do
    anything. *)
Fixpoint steady {A} (p : prog E A) : Prop :=
  match p with
  | Ret _ => True
  | Op e k => (forall o s x o' s', step _ e o s x o' s' -> C o' -> C o) /\ forall x, steady (k x)
  | Iter body l k => (forall l, steady (body l)) /\ forall b, steady (k b)
  end.

Lemma steady_bind {A B} (p : prog E A) (f : A -> prog E B) :
  steady p -> (forall a, steady (f a)) -> steady (bind p f).
Proof.
  induction p as [A a|A X e k IH|A L D body _ l k IH]; simpl; intros H Hf; [done|..];
    destruct H as [H1 H2]; split; auto.
Qed.

Lemma steady_for_each {L X} (body : L -> X -> prog E L) xs l :
  (forall l x, steady (body l x)) -> steady (for_each xs body l).
Proof. intros Hb. revert l. induction xs; intros l; simpl; [done|]. apply steady_bind; auto. Qed.

Lemma st_steady n {A} (p : prog E A) o Q :
  wp step ok inv n p o Q -> steady p -> ~ C o -> st n p o (fun a o' => Q a o' /\ ~ C o').
Proof.
  revert A p o Q. induction n as [|n IH]; intros A p o Q H Hp Hc; [done|]. split; [done|].
  destruct p as [a|X e k|L B body l k]; [done| |].
  - destruct Hp as [He Hk]. intros r s Hi x o' s' Hst. destruct (H r s Hi) as [_ Hw].
    destruct (Hw _ _ _ Hst). apply IH; [done..|]. intros Hc'. by apply Hc, (He _ _ _ _ _ Hst).
  - destruct Hp as [Hb Hk]. eapply st_mono; [by apply (IH _ _ _ _ H)|].
    intros [l'|b] o' [Ht Hc']; [by apply (IH _ (Iter body l' k))|by apply IH].
Qed.

Lemma ST_steady {A} (p : prog E A) o Q :
  WP step ok inv p o Q -> steady p -> ~ C o -> ST p o (fun a o' => Q a o' /\ ~ C o').
Proof. intros H Hp Hc n. by apply st_steady. Qed.

End stopping.
