(* ===== verification/BoundedQueue.v ===== *)
(** * The bounded queue

    include/matching/detail/bounded_queue.hpp.  Every member function holds the
    mutex from its first to its last access of the members, so it is one step
    of the thread that calls it: a function of the members.  [wait_pop] returns
    only when the predicate of its condition variable holds; otherwise it is
    [None] here and the thread is blocked. *)
From S2P Require Import Prelude.

Module BQ.

Record BoundedQueue (T : Type) := mkBoundedQueue {
  capacity_ : nat;
  items_ : list T;
  closed_ : bool;
}.
Arguments mkBoundedQueue {T}.
Arguments capacity_ {T}.
Arguments items_ {T}.
Arguments closed_ {T}.

Section queue.
  Context {T : Type}.
  Implicit Types (q : BoundedQueue T) (v : T).

Definition new_queue (capacity : nat) : BoundedQueue T := mkBoundedQueue capacity [] false.

Definition try_push v q : bool * BoundedQueue T :=
  if closed_ q || bool_decide (length (items_ q) = capacity_ q) then (false, q)
  else (true, mkBoundedQueue (capacity_ q) (items_ q ++ [v]) (closed_ q)).

Definition try_pop q : option T * BoundedQueue T :=
  match items_ q with
  | [] => (None, q)
  | value :: rest => (Some value, mkBoundedQueue (capacity_ q) rest (closed_ q))
  end.

(** The predicate that [wait_pop] waits for. *)
Definition ready q : bool := closed_ q || bool_decide (items_ q <> []).

Definition wait_pop q : option (option T * BoundedQueue T) :=
  if ready q then Some (try_pop q) else None.

Definition close q : BoundedQueue T :=
  if closed_ q then q else mkBoundedQueue (capacity_ q) (items_ q) true.

Definition closed q : bool := closed_ q.
Definition size q : nat := length (items_ q).
Definition capacity q : nat := capacity_ q.

(** What each operation does to the members, by its result. *)
Lemma try_push_cases v q :
  let '(b, q') := try_push v q in
  capacity_ q' = capacity_ q /\ closed_ q' = closed_ q /\
  (if b then closed_ q = false /\ length (items_ q) <> capacity_ q /\ items_ q' = items_ q ++ [v]
   else items_ q' = items_ q /\ (closed_ q = true \/ length (items_ q) = capacity_ q)).
Proof.
  unfold try_push. destruct (closed_ q) eqn:Hc; simpl; [by auto|].
  case_bool_decide; simpl; auto.
Qed.

Lemma try_pop_cases q :
  let '(x, q') := try_pop q in
  capacity_ q' = capacity_ q /\ closed_ q' = closed_ q /\
  match x with Some v => items_ q = v :: items_ q' | None => items_ q = [] /\ items_ q' = [] end.
Proof. unfold try_pop. destruct (items_ q) eqn:?; auto. Qed.

Lemma wait_pop_cases q x q' :
  wait_pop q = Some (x, q') ->
  capacity_ q' = capacity_ q /\ closed_ q' = closed_ q /\
  match x with
  | Some v => items_ q = v :: items_ q'
  | None => items_ q = [] /\ items_ q' = [] /\ closed_ q = true
  end.
Proof.
  unfold wait_pop, ready. destruct (items_ q) as [|v l] eqn:Hi.
  - destruct (closed_ q) eqn:Hc; simpl; [|done]. unfold try_pop. rewrite Hi. naive_solver.
  - rewrite bool_decide_true, orb_true_r by done. unfold try_pop. rewrite Hi. naive_solver.
Qed.

Lemma capacity_close q : capacity_ (close q) = capacity_ q.
Proof. unfold close. by destruct (closed_ q). Qed.
Lemma items_close q : items_ (close q) = items_ q.
Proof. unfold close. by destruct (closed_ q). Qed.
Lemma closed_close q : closed_ (close q) = true.
Proof. unfold close. by destruct (closed_ q) eqn:?. Qed.

End queue.
End BQ.

Create HintDb queue.
#[export] Hint Rewrite @BQ.capacity_close @BQ.items_close @BQ.closed_close : queue.
