(* ===== verification/GatewayTypes.v ===== *)
(** * The types between the gateway and the engine

    include/matching/gateway_types.hpp and src/gateway_types.cpp.  There is one
    [InFlightLimiter], so the pointer in a reservation is whether it is set.
    Moving from a reservation leaves it null; a reservation that goes out of
    scope is released, which is written out where it happens. *)
From S2P Require Import Prelude Types Wire.
Import Wire.

Abbreviation ConnectionId := Z (only parsing).

Definition side_from_wire_raw (raw_side : Z) : Side := raw_side mod U8_MOD.

Definition to_domain_order (request : SubmitLimitOrderRequest) : NewLimitOrder :=
  mkNewLimitOrder (slr_order_id request) (side_from_wire_raw (slr_raw_side request))
    (slr_limit_price request) (slr_quantity request).

Record SubmitEngineRequest := mkSubmitEngineRequest {
  ser_connection_id : ConnectionId;
  ser_request_id : RequestId;
  ser_order : NewLimitOrder;
}.

Record CancelEngineRequest := mkCancelEngineRequest {
  cer_connection_id : ConnectionId;
  cer_request_id : RequestId;
  cer_order_id : OrderId;
}.

Inductive EngineRequest :=
| SubmitRequest (r : SubmitEngineRequest)
| CancelRequest (r : CancelEngineRequest).

Definition to_engine_request (connection_id : ConnectionId) (request : WireEnvelope ClientMessage)
  : EngineRequest :=
  match message request with
  | SubmitLimitOrderMessage m =>
      SubmitRequest (mkSubmitEngineRequest connection_id (request_id request) (to_domain_order m))
  | CancelOrderMessage order_id =>
      CancelRequest (mkCancelEngineRequest connection_id (request_id request) order_id)
  end.

Record SubmitEngineResponse := mkSubmitEngineResponse {
  ses_connection_id : ConnectionId;
  ses_request_id : RequestId;
  ses_status : SubmissionStatus;
  ses_rejection_reason : option RejectionReason;
  ses_executed_quantity : Quantity;
  ses_resting_quantity : Quantity;
}.

Record CancelEngineResponse := mkCancelEngineResponse {
  ces_connection_id : ConnectionId;
  ces_request_id : RequestId;
  ces_status : CancelStatus;
  ces_cancelled_quantity : Quantity;
}.

Record EngineUnavailableEngineResponse := mkEngineUnavailableEngineResponse {
  eus_connection_id : ConnectionId;
  eus_request_id : RequestId;
}.

Inductive EngineResponse :=
| SubmitResponse (r : SubmitEngineResponse)
| CancelResponse (r : CancelEngineResponse)
| UnavailableResponse (r : EngineUnavailableEngineResponse).

Definition summarize_submit_result (connection_id : ConnectionId) (request_id : RequestId)
    (result : Types.SubmitResult) : SubmitEngineResponse :=
  mkSubmitEngineResponse connection_id request_id (sr_status result) (sr_rejection_reason result)
    (sr_executed_quantity result) (sr_resting_quantity result).

Definition summarize_cancel_result (connection_id : ConnectionId) (request_id : RequestId)
    (result : Types.CancelResult) : CancelEngineResponse :=
  mkCancelEngineResponse connection_id request_id (cr_status result) (cr_cancelled_quantity result).

(** ** Reservations *)

Module Limiter.

Record InFlightLimiter := mkInFlightLimiter {
  capacity_ : nat;
  in_flight_ : nat;
  maximum_observed_ : nat;
}.

Record InFlightReservation := mkInFlightReservation { owner_ : bool }.

Definition null_reservation : InFlightReservation := mkInFlightReservation false.

Definition new_limiter (capacity : nat) : InFlightLimiter := mkInFlightLimiter capacity 0 0.

Definition try_acquire (l : InFlightLimiter) : option InFlightReservation * InFlightLimiter :=
  if bool_decide (in_flight_ l = capacity_ l) then (None, l) else
  let in_flight := S (in_flight_ l) in
  (Some (mkInFlightReservation true),
   mkInFlightLimiter (capacity_ l) in_flight
     (if bool_decide (maximum_observed_ l < in_flight)%nat then in_flight else maximum_observed_ l)).

(** [std::terminate] when nothing is in flight. *)
Definition release_one (l : InFlightLimiter) : outcome InFlightLimiter unit :=
  match in_flight_ l with
  | O => Crashed Terminate
  | S n => Returned (mkInFlightLimiter (capacity_ l) n (maximum_observed_ l)) tt
  end.

Definition in_flight (l : InFlightLimiter) : nat := in_flight_ l.
Definition capacity (l : InFlightLimiter) : nat := capacity_ l.
Definition maximum_observed (l : InFlightLimiter) : nat := maximum_observed_ l.

Definition active (r : InFlightReservation) : bool := owner_ r.

Definition release (r : InFlightReservation) (l : InFlightLimiter)
  : outcome InFlightLimiter InFlightReservation :=
  if owner_ r then let! (l', _u) := release_one l in Returned l' null_reservation
  else Returned l r.

(** The constructor from an rvalue: the new reservation, and what is left of
    the old one. *)
Definition move_construct (other : InFlightReservation) : InFlightReservation * InFlightReservation :=
  (other, null_reservation).

(** [*this = std::move(other)] for two objects. *)
Definition move_assign (this other : InFlightReservation) (l : InFlightLimiter)
  : outcome InFlightLimiter (InFlightReservation * InFlightReservation) :=
  let! (l', _released) := release this l in Returned l' (move_construct other).

(** The count is within the capacity, and the maximum is one that was seen. *)
Definition limiter_ok (l : InFlightLimiter) : Prop :=
  (in_flight_ l <= maximum_observed_ l <= capacity_ l)%nat.

Lemma try_acquire_cases l :
  let '(r, l') := try_acquire l in
  capacity_ l' = capacity_ l /\ (limiter_ok l -> limiter_ok l') /\
  match r with
  | Some r => owner_ r = true /\ in_flight_ l <> capacity_ l /\ in_flight_ l' = S (in_flight_ l)
  | None => l' = l /\ in_flight_ l = capacity_ l
  end.
Proof.
  unfold try_acquire, limiter_ok. case_bool_decide; simpl; [done|].
  split_and!; try done. case_bool_decide; lia.
Qed.

Lemma release_one_cases l :
  match release_one l with
  | Returned l' _ =>
      capacity_ l' = capacity_ l /\ (limiter_ok l -> limiter_ok l') /\ in_flight_ l = S (in_flight_ l')
  | Threw _ => False
  | Crashed _ => in_flight_ l = O
  end.
Proof.
  unfold release_one, limiter_ok. destruct (in_flight_ l) eqn:?; simpl; [done|]. split_and!; try done. lia.
Qed.

End Limiter.

Record AdmittedEngineRequest := mkAdmittedEngineRequest {
  aer_request : EngineRequest;
  aer_completion : Limiter.InFlightReservation;
}.

Record EngineCompletion := mkEngineCompletion {
  ec_response : EngineResponse;
  ec_completion : Limiter.InFlightReservation;
}.

Definition response_queue_capacity_for (maximum_in_flight : nat) : nat := maximum_in_flight.

(** The identity a request carries, and the one a response carries back. *)
Definition request_key (r : EngineRequest) : ConnectionId * RequestId :=
  match r with
  | SubmitRequest v => (ser_connection_id v, ser_request_id v)
  | CancelRequest v => (cer_connection_id v, cer_request_id v)
  end.

Definition response_key (r : EngineResponse) : ConnectionId * RequestId :=
  match r with
  | SubmitResponse v => (ses_connection_id v, ses_request_id v)
  | CancelResponse v => (ces_connection_id v, ces_request_id v)
  | UnavailableResponse v => (eus_connection_id v, eus_request_id v)
  end.

Definition request_connection (r : EngineRequest) : ConnectionId := (request_key r).1.
