(* ===== verification/Connection.v ===== *)
(** * The output buffer of a connection

    src/connection.hpp.  [flush] is a template over the function that sends: the
    model is a program over the events of that function.  Sizes are [nat]; the
    offset never passes the end, as [buffer_ok] says. *)
From S2P Require Import Prelude Bytes Posix Threads.

Definition EAGAIN : errno := 11.
Definition EWOULDBLOCK : errno := 11.

Inductive OutputFlushResult := Drained | WouldBlock | Fatal.

#[export] Instance OutputFlushResult_eq_dec : EqDecision OutputFlushResult.
Proof. solve_decision. Defined.

Record ConnectionOutputBuffer := mkConnectionOutputBuffer {
  bytes_ : list byte;
  offset_ : nat;
}.

Module Output.

Definition new_buffer : ConnectionOutputBuffer := mkConnectionOutputBuffer [] 0.

Definition pending_size (b : ConnectionOutputBuffer) : nat := (length (bytes_ b) - offset_ b)%nat.

Definition empty (b : ConnectionOutputBuffer) : bool := bool_decide (pending_size b = 0%nat).

Definition clear (b : ConnectionOutputBuffer) : ConnectionOutputBuffer := mkConnectionOutputBuffer [] 0.

Definition compact (b : ConnectionOutputBuffer) : ConnectionOutputBuffer :=
  if bool_decide (offset_ b = 0%nat) then b else
  if bool_decide (offset_ b = length (bytes_ b)) then mkConnectionOutputBuffer [] 0 else
  mkConnectionOutputBuffer (drop (offset_ b) (bytes_ b)) 0.

Definition append (bytes : list byte) (maximum_pending_bytes : nat) (b : ConnectionOutputBuffer)
  : bool * ConnectionOutputBuffer :=
  let pending := pending_size b in
  if bool_decide (maximum_pending_bytes < pending)%nat ||
     bool_decide (maximum_pending_bytes - pending < length bytes)%nat
  then (false, b)
  else let b := compact b in
       (true, mkConnectionOutputBuffer (bytes_ b ++ bytes) (offset_ b)).

(** One turn of the loop of [flush]: the next buffer, or the result. *)
Definition flush_body {E} (send_function : list byte -> prog E (Z + errno)) (b : ConnectionOutputBuffer)
  : prog E (ConnectionOutputBuffer + OutputFlushResult * ConnectionOutputBuffer) :=
  if empty b then Ret (inr (Drained, b)) else
  let* result := send_function (drop (offset_ b) (bytes_ b)) in
  match result with
  | inl n =>
      if 0 <? n then
        let sent := Z.to_nat n in
        if bool_decide (pending_size b < sent)%nat then Ret (inr (Fatal, b)) else
        let b := mkConnectionOutputBuffer (bytes_ b) (offset_ b + sent) in
        if empty b then Ret (inr (Drained, mkConnectionOutputBuffer [] 0)) else Ret (inl b)
      else Ret (inr (Fatal, b))
  | inr error =>
      if error =? EINTR then Ret (inl b) else
      if (error =? EAGAIN) || (error =? EWOULDBLOCK) then Ret (inr (WouldBlock, b)) else
      Ret (inr (Fatal, b))
  end.

Definition flush {E} (send_function : list byte -> prog E (Z + errno)) (b : ConnectionOutputBuffer)
  : prog E (OutputFlushResult * ConnectionOutputBuffer) :=
  iter (flush_body send_function) b.

(** ** What the buffer holds *)

(** The bytes that are still to be sent. *)
Definition pending (b : ConnectionOutputBuffer) : list byte := drop (offset_ b) (bytes_ b).

Definition buffer_ok (b : ConnectionOutputBuffer) : Prop := (offset_ b <= length (bytes_ b))%nat.

Lemma length_pending b : length (pending b) = pending_size b.
Proof. apply length_drop. Qed.

Lemma empty_spec b : empty b = true <-> pending b = [].
Proof.
  unfold empty. rewrite bool_decide_eq_true, <- length_pending. split; [apply nil_length_inv|by intros ->].
Qed.

Lemma compact_spec b : buffer_ok b -> pending (compact b) = pending b /\ offset_ (compact b) = 0%nat.
Proof.
  unfold compact, pending. intros Hb. case_bool_decide as H0; [by rewrite H0|].
  case_bool_decide as H1; simpl; [|by rewrite drop_0]. by rewrite H1, drop_all.
Qed.

(** [append] adds at the end or does nothing; it refuses what would exceed the
    limit. *)
Lemma append_spec bytes maximum b :
  buffer_ok b ->
  let '(r, b') := append bytes maximum b in
  buffer_ok b' /\
  if r then pending b' = pending b ++ bytes /\ (pending_size b' <= maximum)%nat
  else b' = b /\ (maximum < pending_size b + length bytes)%nat.
Proof.
  intros Hb. unfold append. case_bool_decide as H1; simpl; [split; [done|]; split; [done|lia]|].
  case_bool_decide as H2; [split; [done|]; split; [done|lia]|].
  destruct (compact_spec b Hb) as [Hp Ho]. set (c := compact b) in *.
  assert (Hp' : pending (mkConnectionOutputBuffer (bytes_ c ++ bytes) (offset_ c)) = pending b ++ bytes)
    by (unfold pending at 1; simpl; rewrite Ho, <- Hp; unfold pending; by rewrite Ho, !drop_0).
  split; [unfold buffer_ok; simpl; lia|]. split; [done|].
  rewrite <- length_pending, Hp', length_app, length_pending. lia.
Qed.

Lemma new_buffer_ok : buffer_ok new_buffer /\ pending new_buffer = [].
Proof. split; [unfold buffer_ok; simpl; lia|done]. Qed.

(** Sending [n] bytes moves the offset past them. *)
Lemma sent_spec b n :
  buffer_ok b -> (n <= pending_size b)%nat ->
  buffer_ok (mkConnectionOutputBuffer (bytes_ b) (offset_ b + n)) /\
  pending (mkConnectionOutputBuffer (bytes_ b) (offset_ b + n)) = drop n (pending b).
Proof.
  unfold buffer_ok, pending_size, pending. simpl. intros Hb Hn. split; [lia|]. by rewrite drop_drop.
Qed.

End Output.
