(* ===== verification/Gateway.v ===== *)
(** * The gateway server (definitions)

    include/matching/gateway_server.hpp and src/gateway_server.cpp.  [run] uses
    one thread, which owns the members of [Impl]; they are passed from call to
    call.  A reference to a connection is its descriptor, the key under which
    [connections] holds it.  What the thread shares with the engine worker are
    the events [SharedE]; the system calls are the events of [GatewayE].  The
    order in which an [unordered_map] is traversed is the answer to an event,
    too.  [Snapshot] and [Registered] do nothing: they tell an observer the
    members at the point where the thread goes to sleep, and which id an accepted
    socket was given. *)
From S2P Require Import Prelude Types Bytes Posix Wire Threads BoundedQueue GatewayTypes Connection.
Import Wire Limiter.

(** ** Events *)

(** The objects the threads share: every access is one step. *)
Inductive SharedE : Type -> Type :=
| LoadStopRequested : SharedE bool
| StoreStopRequested : SharedE unit
| LoadEngineFailed : SharedE bool
| StoreEngineFailed : SharedE unit
| WriteWakeup : SharedE (Z + errno)
| TryAcquire : SharedE (option InFlightReservation)
| ReleaseOne : SharedE unit
| RequestTryPush (value : AdmittedEngineRequest) : SharedE bool
| RequestTryPop : SharedE (option AdmittedEngineRequest)
| RequestWaitPop : SharedE (option AdmittedEngineRequest)
| RequestClose : SharedE unit
| ResponseTryPush (value : EngineCompletion) : SharedE bool
| ResponseTryPop : SharedE (option EngineCompletion)
| ResponseClose : SharedE unit
| ResponseClosed : SharedE bool
| ResponseSize : SharedE nat
(** [std::terminate] or undefined behaviour: the process is gone. *)
| Abort (c : crash) : SharedE False.

(** Which events contain the shared ones. *)
Class Shares (E : Type -> Type) := shared : forall X, SharedE X -> E X.

#[export] Instance SharedE_shares : Shares SharedE := fun X e => e.

Definition share {E} `{!Shares E} {X} (e : SharedE X) : prog E X := call (shared X e).

Definition abort {E A} `{!Shares E} (c : crash) : prog E A :=
  Op (shared False (Abort c)) (fun f => match f with end).

(** ** Sockets *)

Record pollfd := mkPollfd { pfd_fd : Fd; pfd_events : Z }.

Definition POLLIN : Z := 1.
Definition POLLOUT : Z := 4.
Definition POLLERR : Z := 8.
Definition POLLHUP : Z := 16.
Definition POLLNVAL : Z := 32.

(** [(events & mask) != 0]. *)
Definition has_event (events mask : Z) : bool := negb (Z.land events mask =? 0).

Inductive FcntlFlags := StatusFlags | DescriptorFlags.
Definition O_NONBLOCK : Z := 2048.
Definition FD_CLOEXEC : Z := 1.

Definition kReceiveBufferSize : nat := Z.to_nat 4096.
Definition kMaximumPendingRequests : nat := Z.to_nat 4096.

Record ServerConfig := mkServerConfig {
  bind_address : list byte;
  sc_port : Z;
  maximum_connections : nat;
  maximum_input_buffer_bytes : nat;
  maximum_output_buffer_bytes : nat;
}.

Inductive GatewayServerErrorCode :=
| InvalidConfiguration
| InvalidBindAddress
| SocketCreationFailed
| SocketOptionFailed
| NonblockingFailed
| BindFailed
| ListenFailed
| SocketNameFailed
| WakeupCreationFailed.

Record GatewayServerError := mkGatewayServerError {
  gse_code : GatewayServerErrorCode;
  gse_system_error : errno;
}.

Definition make_error (code : GatewayServerErrorCode) (error_number : errno) : GatewayServerError :=
  mkGatewayServerError code error_number.

Module Gateway.

Record Connection := mkConnection {
  id : ConnectionId;
  descriptor : Fd;
  parser : ClientStreamParser;
  output : ConnectionOutputBuffer;
  closing : bool;
}.

Record PendingRequest := mkPendingRequest {
  pr_connection_id : ConnectionId;
  pr_request : WireEnvelope ClientMessage;
}.

(** The members the gateway thread owns.  [has_response_queue] is
    [response_queue != nullptr]; [has_response_hook] is whether the seam of the
    tests is filled. *)
Record Impl := mkImpl {
  config : ServerConfig;
  listener_descriptor : Fd;
  wakeup_descriptor : Fd;
  port : Z;
  has_response_queue : bool;
  has_response_hook : bool;
  connections : gmap Z Connection;
  pending_requests : list PendingRequest;
  next_connection_id : Z;
  reads_paused : bool;
  shutdown_started : bool;
}.

Inductive GatewayE : Type -> Type :=
| Shared {X} (e : SharedE X) : GatewayE X
| ReadWakeup : GatewayE (Z + errno)
| Poll (descriptors : list pollfd) : GatewayE (list Z + errno)
| Accept (listener : Fd) : GatewayE (Fd + errno)
| FcntlGet (fd : Fd) (which : FcntlFlags) : GatewayE (Z + errno)
| FcntlSet (fd : Fd) (which : FcntlFlags) (flags : Z) : GatewayE (option errno)
| Recv (fd : Fd) (size : nat) : GatewayE (list byte + errno)
| Send (fd : Fd) (bytes : list byte) : GatewayE (Z + errno)
| Close (fd : Fd) : GatewayE unit
(** the calls of [create]; [InetPton] answers the address when it returns 1 *)
| InetPton (text : list byte) : GatewayE (option Z)
| Socket : GatewayE (Fd + errno)
| SetReuseAddress (fd : Fd) : GatewayE (option errno)
| Bind (fd : Fd) (address port : Z) : GatewayE (option errno)
| Listen (fd : Fd) (backlog : Z) : GatewayE (option errno)
| GetSocketPort (fd : Fd) : GatewayE (Z + errno)
| EventFd : GatewayE (Fd + errno)
| IterationOrder (keys : list Z) : GatewayE (list Z)
| ResponseHook (request : EngineRequest) : GatewayE (option (WireEnvelope ServerMessage))
| Registered (fd : Fd) (c : ConnectionId) : GatewayE unit
| Snapshot (impl : Impl) : GatewayE unit.

#[global] Instance GatewayE_shares : Shares GatewayE := fun X e => Shared e.

(** ** Assignments to members *)

Definition set_connections (m : gmap Z Connection) (i : Impl) : Impl :=
  mkImpl (config i) (listener_descriptor i) (wakeup_descriptor i) (port i) (has_response_queue i)
    (has_response_hook i) m (pending_requests i) (next_connection_id i) (reads_paused i)
    (shutdown_started i).

Definition set_pending_requests (l : list PendingRequest) (i : Impl) : Impl :=
  mkImpl (config i) (listener_descriptor i) (wakeup_descriptor i) (port i) (has_response_queue i)
    (has_response_hook i) (connections i) l (next_connection_id i) (reads_paused i)
    (shutdown_started i).

Definition set_reads_paused (b : bool) (i : Impl) : Impl :=
  mkImpl (config i) (listener_descriptor i) (wakeup_descriptor i) (port i) (has_response_queue i)
    (has_response_hook i) (connections i) (pending_requests i) (next_connection_id i) b
    (shutdown_started i).

Definition set_next_connection_id (n : Z) (i : Impl) : Impl :=
  mkImpl (config i) (listener_descriptor i) (wakeup_descriptor i) (port i) (has_response_queue i)
    (has_response_hook i) (connections i) (pending_requests i) n (reads_paused i)
    (shutdown_started i).

Definition set_listener (fd : Fd) (i : Impl) : Impl :=
  mkImpl (config i) fd (wakeup_descriptor i) (port i) (has_response_queue i)
    (has_response_hook i) (connections i) (pending_requests i) (next_connection_id i)
    (reads_paused i) (shutdown_started i).

Definition set_shutdown_started (i : Impl) : Impl :=
  mkImpl (config i) (listener_descriptor i) (wakeup_descriptor i) (port i) (has_response_queue i)
    (has_response_hook i) (connections i) (pending_requests i) (next_connection_id i)
    (reads_paused i) true.

Definition alter_connection (f : Connection -> Connection) (fd : Fd) (i : Impl) : Impl :=
  set_connections (alter f fd (connections i)) i.

Definition set_closing (c : Connection) : Connection :=
  mkConnection (id c) (descriptor c) (parser c) (output c) true.
Definition set_parser (p : ClientStreamParser) (c : Connection) : Connection :=
  mkConnection (id c) (descriptor c) p (output c) (closing c).
Definition set_output (b : ConnectionOutputBuffer) (c : Connection) : Connection :=
  mkConnection (id c) (descriptor c) (parser c) b (closing c).

(** [connection.output.clear(); connection.closing = true;]. *)
Definition clear_and_close (c : Connection) : Connection :=
  set_closing (set_output (Output.clear (output c)) c).

(** ** Responses *)

Definition to_wire_response (response : EngineResponse) : option (WireEnvelope ServerMessage) :=
  match response with
  | SubmitResponse value =>
      let status :=
        if bool_decide (ses_status value = Accepted) then SubmitAccepted else SubmitRejected in
      match ses_rejection_reason value with
      | Some reason =>
          match to_wire_rejection_code reason with
          | None => None
          | Some rejection =>
              Some (mkWireEnvelope (ses_request_id value)
                (SubmitResultMessage (mkSubmitResultResponse status rejection
                   (ses_executed_quantity value) (ses_resting_quantity value))))
          end
      | None =>
          Some (mkWireEnvelope (ses_request_id value)
            (SubmitResultMessage (mkSubmitResultResponse status RejectionNone
               (ses_executed_quantity value) (ses_resting_quantity value))))
      end
  | CancelResponse value =>
      match to_wire_cancel_status (ces_status value) with
      | None => None
      | Some status =>
          Some (mkWireEnvelope (ces_request_id value)
            (CancelResultMessage (mkCancelResultResponse status (ces_cancelled_quantity value))))
      end
  | UnavailableResponse value =>
      Some (mkWireEnvelope (eus_request_id value) (EngineUnavailableMessage Unavailable))
  end.

Definition response_connection_id (response : EngineResponse) : ConnectionId :=
  match response with
  | SubmitResponse value => ses_connection_id value
  | CancelResponse value => ces_connection_id value
  | UnavailableResponse value => eus_connection_id value
  end.

(** Ids are unique, so the order of the search does not matter. *)
Definition find_connection (c : ConnectionId) (i : Impl) : option Fd :=
  fst <$> List.find (fun '(_, connection) => id connection =? c) (map_to_list (connections i)).

Definition queue_response_on (maximum : nat) (response : WireEnvelope ServerMessage) (c : Connection)
  : Connection :=
  match encode_server_frame response with
  | inl bytes =>
      let '(appended, b) := Output.append bytes maximum (output c) in
      if appended then set_output b c else clear_and_close c
  | inr _ => clear_and_close c
  end.

Definition queue_response (fd : Fd) (response : WireEnvelope ServerMessage) (i : Impl) : Impl :=
  alter_connection (queue_response_on (maximum_output_buffer_bytes (config i)) response) fd i.

(** ** Stopping and waking, from any thread *)

Section any_thread.
  Context {E : Type -> Type} `{!Shares E}.

Definition wake : prog E unit :=
  iter (fun _ : unit =>
    let* result := share WriteWakeup in
    match result with
    | inl n => Ret (inr tt)
    | inr error => if error =? EINTR then Ret (inl tt) else Ret (inr tt)
    end) tt.

Definition request_stop : prog E unit :=
  share StoreStopRequested ;; wake.

Definition enter_fail_stop : prog E unit :=
  share StoreEngineFailed ;; request_stop.

(** [InFlightReservation::release], also run by its destructor. *)
Definition release (r : InFlightReservation) : prog E InFlightReservation :=
  if owner_ r then share ReleaseOne ;; Ret null_reservation else Ret r.

End any_thread.

(** ** The gateway thread *)

Definition close_descriptor (fd : Fd) : prog GatewayE Fd :=
  if 0 <=? fd then call (Close fd) ;; Ret (-1) else Ret fd.

(** [set_nonblocking] and [set_close_on_exec]. *)
Definition set_flag (fd : Fd) (which : FcntlFlags) (flag : Z) : prog GatewayE (option errno) :=
  let* flags := call (FcntlGet fd which) in
  match flags with
  | inr error => Ret (Some error)
  | inl flags =>
      let* error := call (FcntlSet fd which (Z.lor flags flag)) in Ret error
  end.

Definition set_nonblocking (fd : Fd) : prog GatewayE (option errno) := set_flag fd StatusFlags O_NONBLOCK.
Definition set_close_on_exec (fd : Fd) : prog GatewayE (option errno) := set_flag fd DescriptorFlags FD_CLOEXEC.

Definition begin_shutdown_if_requested (i : Impl) : prog GatewayE Impl :=
  let* stop := share LoadStopRequested in
  if negb stop || shutdown_started i then Ret i else
  let i := set_shutdown_started i in
  let* listener := close_descriptor (listener_descriptor i) in
  let i := set_pending_requests [] (set_listener listener i) in
  share RequestClose ;; Ret i.

Definition shutdown_complete (i : Impl) : prog GatewayE bool :=
  if negb (shutdown_started i) then Ret false else
  if negb (has_response_queue i) then Ret true else
  let* closed := share ResponseClosed in
  if negb closed then Ret false else
  let* size := share ResponseSize in
  Ret (bool_decide (size = 0%nat)).

Definition drain_wakeup : prog GatewayE unit :=
  iter (fun _ : unit =>
    let* result := call ReadWakeup in
    match result with
    | inl n => if n =? 8 then Ret (inl tt) else Ret (inr tt)
    | inr error => if error =? EINTR then Ret (inl tt) else Ret (inr tt)
    end) tt.

(** The conditions under which an accepted descriptor is turned away,
    evaluated from left to right. *)
Definition must_reject (fd : Fd) (i : Impl) : prog GatewayE bool :=
  if bool_decide (maximum_connections (config i) <= size (connections i))%nat ||
     (next_connection_id i =? 0) then Ret true else
  let* error := set_nonblocking fd in
  match error with
  | Some _ => Ret true
  | None =>
      let* error := set_close_on_exec fd in
      Ret (match error with Some _ => true | None => false end)
  end.

(** [emplace] does nothing when the key is there: then the new [Connection],
    with the descriptor in it, is destroyed. *)
Definition emplace_connection (fd : Fd) (c : ConnectionId) (i : Impl) : prog GatewayE Impl :=
  match connections i !! fd with
  | Some _ => let* _closed := close_descriptor fd in Ret i
  | None =>
      call (Registered fd c) ;;
      Ret (set_connections
             (<[fd := mkConnection c fd (new_parser (maximum_input_buffer_bytes (config i)))
                        Output.new_buffer false]> (connections i)) i)
  end.

Definition accept_connections (i : Impl) : prog GatewayE Impl :=
  iter (fun i =>
    let* accepted := call (Accept (listener_descriptor i)) in
    match accepted with
    | inl fd =>
        let* reject := must_reject fd i in
        if reject then let* _rejected := close_descriptor fd in Ret (inl i) else
        let c := next_connection_id i in
        let* i := emplace_connection fd c (set_next_connection_id (add64 c 1) i) in
        Ret (inl i)
    | inr error =>
        if error =? EINTR then Ret (inl i) else
        if (error =? EAGAIN) || (error =? EWOULDBLOCK) then Ret (inr i) else Ret (inr i)
    end) i.

(** [admit].  The reservation goes with the request when it is queued; otherwise
    [admitted] is destroyed and the reservation released. *)
Definition admit_request (fd : Fd) (c : ConnectionId) (request : WireEnvelope ClientMessage) (i : Impl)
  : prog GatewayE (bool * Impl) :=
  if shutdown_started i then Ret (false, i) else
  let* failed := share LoadEngineFailed in
  if failed : bool then Ret (false, i) else
  let* reservation := share TryAcquire in
  match reservation with
  | None => Ret (false, i)
  | Some reservation =>
      let engine_request := to_engine_request c request in
      let hook_request := engine_request in
      let admitted := mkAdmittedEngineRequest engine_request reservation in
      let* pushed := share (RequestTryPush admitted) in
      if negb pushed then let* _r := release (aer_completion admitted) in Ret (false, i) else
      if negb (has_response_hook i) then Ret (true, i) else
      let* response := call (ResponseHook hook_request) in
      match response with
      | Some response => Ret (true, queue_response fd response i)
      | None => Ret (true, i)
      end
  end.

Definition retain_pending (c : ConnectionId) (i : Impl) (request : WireEnvelope ClientMessage) : Impl :=
  if bool_decide (length (pending_requests i) = kMaximumPendingRequests) then
    match find_connection c i with
    | Some fd => alter_connection set_closing fd i
    | None => i
    end
  else set_pending_requests (pending_requests i ++ [mkPendingRequest c request]) i.

(** The loop of [receive_from] over the messages of one chunk. *)
Fixpoint admit_messages (fd : Fd) (c : ConnectionId) (messages : list (WireEnvelope ClientMessage))
    (i : Impl) : prog GatewayE Impl :=
  match messages with
  | [] => Ret i
  | m :: rest =>
      let* ' (admitted, i) := admit_request fd c m i in
      if admitted then admit_messages fd c rest i
      else Ret (set_reads_paused true (foldl (retain_pending c) i (m :: rest)))
  end.

(** One turn of the loop of [receive_from].  Feeding the parser neither throws
    nor reads out of bounds. *)
Definition receive_body (fd : Fd) (i : Impl) : prog GatewayE (Impl + Impl) :=
  match connections i !! fd with
  | None => abort UndefinedBehaviour
  | Some connection =>
      if closing connection || reads_paused i || shutdown_started i then Ret (inr i) else
      let* received := call (Recv (descriptor connection) kReceiveBufferSize) in
      match received with
      | inl [] => Ret (inr (alter_connection set_closing fd i))
      | inl bytes =>
          match feed (parser connection) bytes with
          | Returned p parsed =>
              let i := alter_connection (set_parser p) fd i in
              let* i := admit_messages fd (id connection) (messages parsed) i in
              Ret (inl (match error parsed with
                        | Some _ => alter_connection set_closing fd i
                        | None => i
                        end))
          | Threw _ => abort Terminate
          | Crashed c => abort c
          end
      | inr error =>
          if error =? EINTR then Ret (inl i) else
          if (error =? EAGAIN) || (error =? EWOULDBLOCK) then Ret (inr i) else
          Ret (inr (alter_connection set_closing fd i))
      end
  end.

Definition receive_from (fd : Fd) (i : Impl) : prog GatewayE Impl := iter (receive_body fd) i.

Definition pop_pending (i : Impl) : Impl := set_pending_requests (tail (pending_requests i)) i.

Definition drain_pending_body (i : Impl) : prog GatewayE (Impl + Impl) :=
  match pending_requests i with
  | [] => Ret (inr (set_reads_paused false i))
  | pending :: _ =>
      match find_connection (pr_connection_id pending) i with
      | None => Ret (inl (pop_pending i))
      | Some fd =>
          match connections i !! fd with
          | None => abort UndefinedBehaviour
          | Some connection =>
              if closing connection then Ret (inl (pop_pending i)) else
              let* ' (admitted, i) := admit_request fd (id connection) (pr_request pending) i in
              if negb admitted then Ret (inr (set_reads_paused true i)) else Ret (inl (pop_pending i))
          end
      end
  end.

Definition drain_pending_requests (i : Impl) : prog GatewayE Impl :=
  if shutdown_started i then Ret i else
  let* failed := share LoadEngineFailed in
  if failed : bool then Ret i else iter drain_pending_body i.

(** What a completion does to its connection. *)
Definition deliver (response : EngineResponse) (i : Impl) : Impl :=
  match find_connection (response_connection_id response) i with
  | None => i
  | Some fd =>
      match connections i !! fd with
      | None => i
      | Some connection =>
          if closing connection then i else
          match to_wire_response response with
          | Some wire => queue_response fd wire i
          | None => alter_connection clear_and_close fd i
          end
      end
  end.

Definition drain_engine_completions (i : Impl) : prog GatewayE Impl :=
  if negb (has_response_queue i) then Ret i else
  let* _size := share ResponseSize in
  iter (fun i =>
    let* completion := share ResponseTryPop in
    match completion with
    | None => Ret (inr i)
    | Some completion =>
        let i := deliver (ec_response completion) i in
        let* _r := release (ec_completion completion) in Ret (inl i)
    end) i.

Definition flush_output (fd : Fd) (i : Impl) : prog GatewayE Impl :=
  match connections i !! fd with
  | None => abort UndefinedBehaviour
  | Some connection =>
      let* ' (result, b) := Output.flush (fun bytes => call (Send (descriptor connection) bytes)) (output connection) in
      let i := alter_connection (set_output b) fd i in
      Ret (if bool_decide (result = Fatal) then alter_connection clear_and_close fd i else i)
  end.

(** The traversal of [connections]. *)
Definition iteration_order (i : Impl) : prog GatewayE (list Z) :=
  call (IterationOrder ((map_to_list (connections i)).*1)).

Definition flush_outputs_once (i : Impl) : prog GatewayE Impl :=
  let* order := iteration_order i in
  for_each order (fun i fd =>
    match connections i !! fd with
    | None => abort UndefinedBehaviour
    | Some connection => if Output.empty (output connection) then Ret i else flush_output fd i
    end) i.

(** Erasing a connection destroys it, which closes its descriptor. *)
Definition erase_connection (fd : Fd) (i : Impl) : prog GatewayE Impl :=
  match connections i !! fd with
  | None => abort UndefinedBehaviour
  | Some connection =>
      let* _closed := close_descriptor (descriptor connection) in
      Ret (set_connections (delete fd (connections i)) i)
  end.

Definition close_if_finished (fd : Fd) (i : Impl) : prog GatewayE Impl :=
  match connections i !! fd with
  | Some connection =>
      if closing connection && Output.empty (output connection) then erase_connection fd i else Ret i
  | None => Ret i
  end.

Definition close_all_connections (i : Impl) : prog GatewayE Impl :=
  let* order := iteration_order i in
  for_each order (fun i fd => erase_connection fd i) i.

(** The entry of a connection in the array given to [poll]. *)
Definition client_pollfd (i : Impl) (fd : Fd) : pollfd :=
  match connections i !! fd with
  | None => mkPollfd fd 0
  | Some connection =>
      let events := if negb (shutdown_started i) && negb (reads_paused i) && negb (closing connection)
                    then Z.lor 0 POLLIN else 0 in
      let events := if negb (Output.empty (output connection)) then Z.lor events POLLOUT else events in
      mkPollfd fd events
  end.

(** The body of the loop over [client_descriptors]. *)
Definition serve_client (i : Impl) (client : Fd * Z) : prog GatewayE Impl :=
  let '(fd, events) := client in
  match connections i !! fd with
  | None => Ret i
  | Some _ =>
      let* i := (if has_event events POLLIN then receive_from fd i else Ret i) in
      let* i := (match connections i !! fd with
                 | Some _ => if has_event events POLLOUT then flush_output fd i else Ret i
                 | None => Ret i
                 end) in
      let i := match connections i !! fd with
               | Some _ => if has_event events (Z.lor POLLERR (Z.lor POLLHUP POLLNVAL))
                           then alter_connection set_closing fd i else i
               | None => i
               end in
      close_if_finished fd i
  end.

(** What follows a successful [poll]: [revents] are its answers, of the
    listener if it was open, of the wakeup descriptor, and of the clients. *)
Definition handle_events (client_descriptors : list Fd) (revents : list Z) (i : Impl)
  : prog GatewayE Impl :=
  let wakeup_index := if 0 <=? listener_descriptor i then 1%nat else 0%nat in
  let clients_index := S wakeup_index in
  match revents !! wakeup_index, revents !! 0%nat with
  | Some wakeup_events, Some listener_events =>
      let* i := (if has_event wakeup_events POLLIN then
                   drain_wakeup ;;
                   let* i := begin_shutdown_if_requested i in
                   let* i := drain_engine_completions i in
                   drain_pending_requests i
                 else Ret i) in
      let* i := (if 0 <=? listener_descriptor i then
                   let* i := (if has_event listener_events POLLIN && negb (shutdown_started i)
                              then accept_connections i else Ret i) in
                   if has_event listener_events (Z.lor POLLERR (Z.lor POLLHUP POLLNVAL))
                   then request_stop ;; Ret i else Ret i
                 else Ret i) in
      for_each (zip client_descriptors (drop clients_index revents)) serve_client i
  | _, _ => abort UndefinedBehaviour
  end.

(** One turn of the loop of [run]; on the right when it breaks. *)
Definition run_body (i : Impl) : prog GatewayE (Impl + Impl) :=
  let* i := begin_shutdown_if_requested i in
  let* i := drain_engine_completions i in
  let* i := drain_pending_requests i in
  let* complete := shutdown_complete i in
  if complete : bool then let* i := flush_outputs_once i in Ret (inr i) else
  let* client_descriptors := iteration_order i in
  let descriptors :=
    (if 0 <=? listener_descriptor i then [mkPollfd (listener_descriptor i) POLLIN] else []) ++
    [mkPollfd (wakeup_descriptor i) POLLIN] ++ (client_pollfd i <$> client_descriptors) in
  call (Snapshot i) ;;
  let* poll_result := call (Poll descriptors) in
  match poll_result with
  | inr error => if error =? EINTR then Ret (inl i) else request_stop ;; Ret (inl i)
  | inl revents => let* i := handle_events client_descriptors revents i in Ret (inl i)
  end.

Definition run (i : Impl) : prog GatewayE Impl :=
  let* i := iter run_body i in
  let* listener := close_descriptor (listener_descriptor i) in
  close_all_connections (set_listener listener i).

(** [~Impl]. *)
Definition destroy (i : Impl) : prog GatewayE unit :=
  let* i := close_all_connections i in
  let* _listener := close_descriptor (listener_descriptor i) in
  let* _wakeup := close_descriptor (wakeup_descriptor i) in Ret tt.

(** ** [GatewayServer::create] *)

Definition INT_MAX : Z := 2147483647.

Definition invalid_configuration (config : ServerConfig) : bool :=
  bool_decide (bind_address config = []) || bool_decide (maximum_connections config = 0%nat) ||
  bool_decide (maximum_input_buffer_bytes config
               < kWireFrameHeaderSize + kCancelOrderRequestPayloadSize)%nat ||
  bool_decide (maximum_output_buffer_bytes config = 0%nat).

(** [close_descriptor(listener); return make_error(code, error);]. *)
Definition close_and_fail (listener : Fd) (code : GatewayServerErrorCode) (error : errno)
  : prog GatewayE (Impl + GatewayServerError) :=
  let* _listener := close_descriptor listener in Ret (inr (make_error code error)).

(** [if (error) { close; return make_error } else k]. *)
Definition or_fail (listener : Fd) (code : GatewayServerErrorCode) (step : prog GatewayE (option errno))
    (k : prog GatewayE (Impl + GatewayServerError)) : prog GatewayE (Impl + GatewayServerError) :=
  let* error := step in
  match error with
  | Some error => close_and_fail listener code error
  | None => k
  end.

Definition listen_backlog (config : ServerConfig) : Z :=
  if INT_MAX <? Z.of_nat (maximum_connections config) then INT_MAX
  else Z.of_nat (maximum_connections config).

Definition new_impl (config : ServerConfig) (listener wakeup : Fd) (port : Z)
    (has_responses has_hook : bool) : Impl :=
  mkImpl config listener wakeup port has_responses has_hook empty [] 1 false false.

Definition create (config : ServerConfig) (has_responses has_hook : bool)
  : prog GatewayE (Impl + GatewayServerError) :=
  if invalid_configuration config then Ret (inr (make_error InvalidConfiguration 0)) else
  let* address := call (InetPton (bind_address config)) in
  match address with
  | None => Ret (inr (make_error InvalidBindAddress 0))
  | Some address =>
  let* socket := call Socket in
  match socket with
  | inr error => Ret (inr (make_error SocketCreationFailed error))
  | inl listener =>
  or_fail listener SocketOptionFailed (call (SetReuseAddress listener)) (
  or_fail listener NonblockingFailed (set_nonblocking listener) (
  or_fail listener NonblockingFailed (set_close_on_exec listener) (
  or_fail listener BindFailed (call (Bind listener address (sc_port config))) (
  or_fail listener ListenFailed (call (Listen listener (listen_backlog config))) (
  let* bound := call (GetSocketPort listener) in
  match bound with
  | inr error => close_and_fail listener SocketNameFailed error
  | inl port =>
  let* eventfd := call EventFd in
  match eventfd with
  | inr error => close_and_fail listener WakeupCreationFailed error
  | inl wakeup => Ret (inl (new_impl config listener wakeup port has_responses has_hook))
  end end)))))
  end end.

(** The overload without a response queue. *)
Definition create_without_responses (config : ServerConfig) (has_hook : bool)
  : prog GatewayE (Impl + GatewayServerError) := create config false has_hook.

(** [GatewayServer::local_port], also of a server that was moved from. *)
Definition local_port (impl : option Impl) : Z :=
  match impl with None => 0 | Some i => port i end.

(** [GatewayServer::notify]. *)
Definition notify {E} `{!Shares E} : prog E unit := wake.

End Gateway.
