(* ===== verification/Exchange.v ===== *)
(** * The exchange server (definitions)

    include/matching/exchange_server.hpp and src/exchange_server.cpp: the limits,
    the queues and the engine around a gateway, and the worker thread.  The
    worker owns the engine, the journal and the statistics; its events are
    accesses to the shared objects, [engine.execute_batch], the update of the
    statistics, and the points at which an allocation or a hook of the tests can
    throw. *)
From S2P Require Import Prelude Types Bytes OrderBook Journal Posix JournalStorage DurableEngine Threads.
From S2P Require Import BoundedQueue GatewayTypes Connection Gateway.
Import Limiter.

Inductive ExchangeStartupMode := CreateNew | Recover.

Record ExchangeServerConfig := mkExchangeServerConfig {
  esc_gateway : ServerConfig;
  maximum_in_flight : nat;
  request_queue_capacity : nat;
  max_durable_batch_size : nat;
}.

Inductive ExchangeServerErrorCode :=
| ExchangeInvalidConfiguration
| DurableEngineStartupFailed
| GatewayStartupFailed.

Record ExchangeServerError := mkExchangeServerError {
  ese_code : ExchangeServerErrorCode;
  ese_durable_engine_error : option DurableEngineError;
  ese_gateway_error : option GatewayServerError;
}.

(** [commands_processed], [batches_processed], [batch_size_histogram]. *)
Record BatchStats := mkBatchStats {
  commands_processed : Z;
  batches_processed : Z;
  batch_size_histogram : list Z;
}.

(** Where the worker can see an exception. *)
Inductive ThrowSite := BatchReserve | BatchDrainHook | CommandsReserve | BeforeExecuteHook.

#[export] Instance ThrowSite_eq_dec : EqDecision ThrowSite.
Proof. solve_decision. Defined.

Module Exchange.

(** [ExecuteBatch] answers [None] when the call throws. *)
Inductive WorkerE : Type -> Type :=
| Shared {X} (e : SharedE X) : WorkerE X
| Throws (site : ThrowSite) : WorkerE bool
| RecordBatch (batch_size : nat) : WorkerE unit
| ExecuteBatch (commands : list JournalCommand) : WorkerE (option BatchResult).

#[global] Instance WorkerE_shares : Shares WorkerE := fun X e => Shared e.

Definition unavailable_response (request : EngineRequest) : EngineResponse :=
  match request with
  | SubmitRequest value =>
      UnavailableResponse (mkEngineUnavailableEngineResponse (ser_connection_id value) (ser_request_id value))
  | CancelRequest value =>
      UnavailableResponse (mkEngineUnavailableEngineResponse (cer_connection_id value) (cer_request_id value))
  end.

Definition to_journal_command (request : EngineRequest) : JournalCommand :=
  match request with
  | SubmitRequest value => SubmitLimitOrderCommand (ser_order value)
  | CancelRequest value => CancelOrderCommand (cer_order_id value)
  end.

(** [None]: the alternatives do not match and the process terminates. *)
Definition summarize (request : EngineRequest) (result : BatchCommandResult) : option EngineResponse :=
  match result, request with
  | BatchSubmit value, SubmitRequest r =>
      Some (SubmitResponse (summarize_submit_result (ser_connection_id r) (ser_request_id r) value))
  | BatchCancel value, CancelRequest r =>
      Some (CancelResponse (summarize_cancel_result (cer_connection_id r) (cer_request_id r) value))
  | _, _ => None
  end.

(** The first three statements of [execute_and_publish_batch]; writing past
    the end of the histogram is undefined. *)
Definition record_batch (batch_size : nat) (s : BatchStats) : outcome BatchStats unit :=
  match batch_size_histogram s !! batch_size with
  | None => Crashed UndefinedBehaviour
  | Some n =>
      Returned (mkBatchStats (add64 (commands_processed s) (Z.of_nat batch_size))
                  (add64 (batches_processed s) 1)
                  (<[batch_size := add64 n 1]> (batch_size_histogram s))) tt
  end.

(** ** The worker thread *)

Definition publish (completion : EngineCompletion) : prog WorkerE unit :=
  let* pushed := share (ResponseTryPush completion) in
  if negb pushed then abort Terminate else Gateway.notify.

(** Publish one response with the reservation of its request, which the move
    leaves null. *)
Definition publish_for (admitted : AdmittedEngineRequest) (response : EngineResponse)
  : prog WorkerE AdmittedEngineRequest :=
  let '(completion, moved_from) := move_construct (aer_completion admitted) in
  publish (mkEngineCompletion response completion) ;;
  Ret (mkAdmittedEngineRequest (aer_request admitted) moved_from).

Fixpoint publish_unavailable (batch : list AdmittedEngineRequest)
  : prog WorkerE (list AdmittedEngineRequest) :=
  match batch with
  | [] => Ret []
  | admitted :: rest =>
      let* admitted := publish_for admitted (unavailable_response (aer_request admitted)) in
      let* rest := publish_unavailable rest in
      Ret (admitted :: rest)
  end.

(** The two sequences have the same length. *)
Fixpoint publish_results (batch : list AdmittedEngineRequest) (results : list BatchCommandResult)
  : prog WorkerE (list AdmittedEngineRequest) :=
  match batch, results with
  | admitted :: rest, result :: results =>
      match summarize (aer_request admitted) result with
      | None => abort Terminate
      | Some response =>
          let* admitted := publish_for admitted response in
          let* rest := publish_results rest results in
          Ret (admitted :: rest)
      end
  | _, _ => Ret batch
  end.

(** The end of a batch's lifetime: what still has a reservation releases it. *)
Definition destroy_batch (batch : list AdmittedEngineRequest) : prog WorkerE unit :=
  for_each batch (fun _ admitted => Gateway.release (aer_completion admitted) ;; Ret tt) tt.

(** The body of the [try] up to the first [publish]: the answer of the engine,
    or [None] after an exception. *)
Definition try_execute (batch : list AdmittedEngineRequest) : prog WorkerE (option BatchResult) :=
  let* threw := call (Throws CommandsReserve) in
  if threw : bool then Ret None else
  let commands := (fun admitted => to_journal_command (aer_request admitted)) <$> batch in
  let* threw := call (Throws BeforeExecuteHook) in
  if threw : bool then Ret None else call (ExecuteBatch commands).

Definition execute_and_publish_batch (batch : list AdmittedEngineRequest) (failed : bool)
  : prog WorkerE bool :=
  call (RecordBatch (length batch)) ;;
  let* ' (batch, failed) :=
    (if failed then let* batch := publish_unavailable batch in Ret (batch, failed) else
     let* result := try_execute batch in
     match result with
     | Some (inl results) =>
         if negb (bool_decide (length results = length batch)) then abort Terminate else
         let* batch := publish_results batch results in Ret (batch, failed)
     | Some (inr _) | None =>
         Gateway.enter_fail_stop ;;
         let* batch := publish_unavailable batch in Ret (batch, true)
     end) in
  destroy_batch batch ;; Ret failed.

(** [while (batch.size() < max) { ... }]. *)
Definition drain_batch (max : nat) (batch : list AdmittedEngineRequest)
  : prog WorkerE (list AdmittedEngineRequest) :=
  iter (fun batch =>
    if negb (bool_decide (length batch < max)%nat) then Ret (inr batch) else
    let* next := share RequestTryPop in
    match next with
    | None => Ret (inr batch)
    | Some next => Ret (inl (batch ++ [next]))
    end) batch.

(** One turn of the main loop: the new [failed], or how the loop ended (has it
    thrown?). *)
Definition worker_body (max : nat) (failed : bool) : prog WorkerE (bool + bool) :=
  let* admitted := share RequestWaitPop in
  match admitted with
  | None => Ret (inr false)
  | Some admitted =>
      let* threw := call (Throws BatchReserve) in
      if threw : bool then destroy_batch [admitted] ;; Ret (inr true) else
      let* threw := call (Throws BatchDrainHook) in
      if threw : bool then destroy_batch [admitted] ;; Ret (inr true) else
      let* batch := drain_batch max [admitted] in
      let* failed := execute_and_publish_batch batch failed in
      Ret (inl failed)
  end.

(** The loop of the handler. *)
Definition fail_remaining : prog WorkerE unit :=
  iter (fun _ : unit =>
    let* admitted := share RequestWaitPop in
    match admitted with
    | None => Ret (inr tt)
    | Some admitted =>
        let* admitted := publish_for admitted (unavailable_response (aer_request admitted)) in
        destroy_batch [admitted] ;; Ret (inl tt)
    end) tt.

Definition worker_loop (max : nat) : prog WorkerE unit :=
  let* threw := iter (worker_body max) false in
  (if threw : bool then Gateway.enter_fail_stop ;; fail_remaining else Ret tt) ;;
  share ResponseClose ;;
  Gateway.notify.

(** ** The server *)

Record Impl := mkImpl {
  config : ExchangeServerConfig;
  in_flight_limiter : InFlightLimiter;
  request_queue : BQ.BoundedQueue AdmittedEngineRequest;
  response_queue : BQ.BoundedQueue EngineCompletion;
  engine : DurableEngine;
  gateway : option Gateway.Impl;
  worker_started : bool;
  batch_stats : BatchStats;
}.

(** [request_queue_capacity + 1U] is computed in [size_t]. *)
Definition histogram_size (config : ExchangeServerConfig) : nat :=
  Z.to_nat (add64 (Z.of_nat (request_queue_capacity config)) 1).

Definition new_impl (config : ExchangeServerConfig) (engine : DurableEngine) : Impl :=
  mkImpl config (new_limiter (maximum_in_flight config))
    (BQ.new_queue (request_queue_capacity config))
    (BQ.new_queue (response_queue_capacity_for (maximum_in_flight config)))
    engine None false
    (mkBatchStats 0 0 (replicate (histogram_size config) 0)).

Definition set_gateway (g : Gateway.Impl) (i : Impl) : Impl :=
  mkImpl (config i) (in_flight_limiter i) (request_queue i) (response_queue i) (engine i) (Some g)
    (worker_started i) (batch_stats i).

Definition set_worker_started (i : Impl) : Impl :=
  mkImpl (config i) (in_flight_limiter i) (request_queue i) (response_queue i) (engine i) (gateway i)
    true (batch_stats i).

Definition invalid_configuration (config : ExchangeServerConfig) : bool :=
  bool_decide (maximum_in_flight config = 0%nat) ||
  bool_decide (request_queue_capacity config = 0%nat) ||
  bool_decide (max_durable_batch_size config = 0%nat).

Section create.
  Context {W : Type} `{!Posix W}.

Definition start_engine (faults : EngineFaults) (journal_path : path) (mode : ExchangeStartupMode)
    (s : Proc W) : outcome (Proc W) CreateResult :=
  match mode with
  | CreateNew => Durable.create faults journal_path s
  | Recover => Durable.recover faults journal_path s
  end.

(** [ExchangeServer::create]: the process is that of the journal.  When the
    gateway cannot be created, [impl] is destroyed and the journal closed. *)
Definition create (faults : EngineFaults) (config : ExchangeServerConfig) (journal_path : path)
    (mode : ExchangeStartupMode) (s : Proc W)
  : prog Gateway.GatewayE (outcome (Proc W) (Impl + ExchangeServerError)) :=
  if invalid_configuration config
  then Ret (Returned s (inr (mkExchangeServerError ExchangeInvalidConfiguration None None))) else
  match start_engine faults journal_path mode s with
  | Crashed c => Ret (Crashed c)
  | Threw s => Ret (Threw s)
  | Returned s (inr error) =>
      Ret (Returned s (inr (mkExchangeServerError DurableEngineStartupFailed (Some error) None)))
  | Returned s (inl engine) =>
      let impl := new_impl config engine in
      let* gateway_result := Gateway.create (esc_gateway config) true false in
      match gateway_result with
      | inr error =>
          Ret (Returned (JournalStorage.destroy_writer (de_writer engine) s)
                 (inr (mkExchangeServerError GatewayStartupFailed None (Some error))))
      | inl g => Ret (Returned s (inl (set_gateway g impl)))
      end
  end.

End create.

(** [request_stop], from any thread. *)
Definition request_stop (i : Impl) : prog SharedE unit :=
  match gateway i with Some _ => Gateway.request_stop | None => Ret tt end.

(** [~Impl] up to the [join]. *)
Definition destroy (i : Impl) : prog SharedE unit :=
  share RequestClose ;; request_stop i.

(** [ExchangeServer::in_flight] and the like, also of a server that was moved
    from. *)
Definition in_flight (impl : option Impl) : nat :=
  match impl with None => 0 | Some i => Limiter.in_flight (in_flight_limiter i) end.
Definition maximum_observed_in_flight (impl : option Impl) : nat :=
  match impl with None => 0 | Some i => Limiter.maximum_observed (in_flight_limiter i) end.
Definition local_port (impl : option Impl) : Z :=
  match impl with None => 0 | Some i => Gateway.local_port (gateway i) end.

End Exchange.
