(* ===== verification/Pipeline.v ===== *)
(** * The threads of a running server (semantics)

    A running [ExchangeServer] has three threads: the caller of [run], which is
    the gateway, the engine worker, and whoever calls [request_stop].  They
    interleave: a step of the server is one event of one of them.  The mutexes
    make every operation on a queue or on the limiter one step, and the flags
    are atomic.

    The system calls are the kernel's; [gateway_step] says what their
    documentation promises: a new descriptor was not in use, [recv] delivers
    some of the bytes of a stream, [send] takes some, an eventfd is readable
    while its counter is not zero, [poll] returns when something is ready.  The
    kernel's view of the descriptors is part of the state of the thread that
    uses them.  A signal can interrupt finitely many calls ([signals]).

    Each thread's state also keeps an account of what it did: the
    requests it admitted and popped, the responses it published and drained, the
    reservations it holds, and what it has not looked at since it was last
    woken.  Nothing in the programs depends on the account. *)
From S2P Require Import Prelude Types Bytes OrderBook Journal Posix JournalStorage DurableEngine Wire WireCodec WireParser Threads.
From S2P Require Import BoundedQueue GatewayTypes Connection Gateway Exchange.
Import Limiter.

(** ** The shared objects *)

Record SharedState := mkSharedState {
  limiter : InFlightLimiter;
  requests : BQ.BoundedQueue AdmittedEngineRequest;
  responses : BQ.BoundedQueue EngineCompletion;
  stop_requested : bool;
  engine_failed : bool;
  (** the counter of the eventfd *)
  wakeups : Z;
}.

(** The greatest value the counter of an eventfd can have. *)
Definition EVENTFD_MAX : Z := U64_MAX - 1.

Definition set_limiter (l : InFlightLimiter) (s : SharedState) : SharedState :=
  mkSharedState l (requests s) (responses s) (stop_requested s) (engine_failed s) (wakeups s).
Definition set_requests (q : BQ.BoundedQueue AdmittedEngineRequest) (s : SharedState) : SharedState :=
  mkSharedState (limiter s) q (responses s) (stop_requested s) (engine_failed s) (wakeups s).
Definition set_responses (q : BQ.BoundedQueue EngineCompletion) (s : SharedState) : SharedState :=
  mkSharedState (limiter s) (requests s) q (stop_requested s) (engine_failed s) (wakeups s).
Definition set_stop (b : bool) (s : SharedState) : SharedState :=
  mkSharedState (limiter s) (requests s) (responses s) b (engine_failed s) (wakeups s).
Definition set_failed (b : bool) (s : SharedState) : SharedState :=
  mkSharedState (limiter s) (requests s) (responses s) (stop_requested s) b (wakeups s).
Definition set_wakeups (n : Z) (s : SharedState) : SharedState :=
  mkSharedState (limiter s) (requests s) (responses s) (stop_requested s) (engine_failed s) n.

(** An access that is not interrupted; [None] while it blocks. *)
Definition shared_run {X} (e : SharedE X) (s : SharedState) : option (X * SharedState) :=
  match e in SharedE X return option (X * SharedState) with
  | LoadStopRequested => Some (stop_requested s, s)
  | StoreStopRequested => Some (tt, set_stop true s)
  | LoadEngineFailed => Some (engine_failed s, s)
  | StoreEngineFailed => Some (tt, set_failed true s)
  | WriteWakeup =>
      if wakeups s <? EVENTFD_MAX then Some (inl 8, set_wakeups (wakeups s + 1) s)
      else Some (inr EAGAIN, s)
  | TryAcquire => let '(r, l) := try_acquire (limiter s) in Some (r, set_limiter l s)
  | ReleaseOne =>
      match release_one (limiter s) with
      | Returned l _ => Some (tt, set_limiter l s)
      | _ => None
      end
  | RequestTryPush v => let '(r, q) := BQ.try_push v (requests s) in Some (r, set_requests q s)
  | RequestTryPop => let '(r, q) := BQ.try_pop (requests s) in Some (r, set_requests q s)
  | RequestWaitPop =>
      match BQ.wait_pop (requests s) with
      | Some (r, q) => Some (r, set_requests q s)
      | None => None
      end
  | RequestClose => Some (tt, set_requests (BQ.close (requests s)) s)
  | ResponseTryPush v => let '(r, q) := BQ.try_push v (responses s) in Some (r, set_responses q s)
  | ResponseTryPop => let '(r, q) := BQ.try_pop (responses s) in Some (r, set_responses q s)
  | ResponseClose => Some (tt, set_responses (BQ.close (responses s)) s)
  | ResponseClosed => Some (BQ.closed (responses s), s)
  | ResponseSize => Some (BQ.size (responses s), s)
  | Abort _ => None
  end.

(** The answer of a call that a signal interrupted. *)
Definition interrupted {X} (e : SharedE X) : X -> Prop :=
  match e in SharedE X return X -> Prop with
  | WriteWakeup => fun x => x = inr EINTR
  | _ => fun _ => False
  end.

Definition shared_step {X} (e : SharedE X) (signals : nat) (s : SharedState)
    (x : X) (signals' : nat) (s' : SharedState) : Prop :=
  (shared_run e s = Some (x, s') /\ signals' = signals) \/
  (interrupted e x /\ signals = S signals' /\ s' = s).

(** The events that end the process: [std::terminate] in [release_one], and
    [Abort]. *)
Definition shared_ok {X} (e : SharedE X) (s : SharedState) : Prop :=
  match e with
  | ReleaseOne => in_flight_ (limiter s) <> 0%nat
  | Abort _ => False
  | _ => True
  end.

(** ** The gateway thread *)

(** What the kernel knows of a descriptor: of a connection, the bytes that
    [recv] has delivered and those that [send] has taken. *)
Inductive Descriptor :=
| ListenerFd
| EventFdFd
| ConnectionFd (received sent : list byte).

Record GatewayState := mkGatewayState {
  g_fds : gmap Z Descriptor;
  g_signals : nat;
  (** the ids of the connections, by descriptor *)
  g_ids : gmap Z ConnectionId;
  (** active reservations in its hands *)
  g_held : nat;
  g_admitted : list EngineRequest;
  g_drained : list EngineResponse;
  g_closed : bool;
  (** a wakeup was consumed and since then the thread has not: found the
      response queue empty; found it open; found that no stop is requested *)
  g_unseen_responses : bool;
  g_unseen_close : bool;
  g_unseen_stop : bool;
  (** it has found the response queue closed; then empty; it has found it not
      empty and not popped from it since *)
  g_saw_close : bool;
  g_saw_drained : bool;
  g_saw_items : bool;
  (** an admission was refused and no response was drained since then *)
  g_blocked : bool;
  g_snapshot : option Gateway.Impl;
}.

Definition set_fds (m : gmap Z Descriptor) (g : GatewayState) : GatewayState :=
  mkGatewayState m (g_signals g) (g_ids g) (g_held g) (g_admitted g) (g_drained g) (g_closed g)
    (g_unseen_responses g) (g_unseen_close g) (g_unseen_stop g) (g_saw_close g) (g_saw_drained g)
    (g_saw_items g) (g_blocked g) (g_snapshot g).
Definition set_signals (n : nat) (g : GatewayState) : GatewayState :=
  mkGatewayState (g_fds g) n (g_ids g) (g_held g) (g_admitted g) (g_drained g) (g_closed g)
    (g_unseen_responses g) (g_unseen_close g) (g_unseen_stop g) (g_saw_close g) (g_saw_drained g)
    (g_saw_items g) (g_blocked g) (g_snapshot g).
Definition set_ids (m : gmap Z ConnectionId) (g : GatewayState) : GatewayState :=
  mkGatewayState (g_fds g) (g_signals g) m (g_held g) (g_admitted g) (g_drained g) (g_closed g)
    (g_unseen_responses g) (g_unseen_close g) (g_unseen_stop g) (g_saw_close g) (g_saw_drained g)
    (g_saw_items g) (g_blocked g) (g_snapshot g).
Definition set_held (n : nat) (g : GatewayState) : GatewayState :=
  mkGatewayState (g_fds g) (g_signals g) (g_ids g) n (g_admitted g) (g_drained g) (g_closed g)
    (g_unseen_responses g) (g_unseen_close g) (g_unseen_stop g) (g_saw_close g) (g_saw_drained g)
    (g_saw_items g) (g_blocked g) (g_snapshot g).
Definition add_admitted (r : EngineRequest) (g : GatewayState) : GatewayState :=
  mkGatewayState (g_fds g) (g_signals g) (g_ids g) (g_held g) (g_admitted g ++ [r]) (g_drained g)
    (g_closed g) (g_unseen_responses g) (g_unseen_close g) (g_unseen_stop g) (g_saw_close g)
    (g_saw_drained g) (g_saw_items g) (g_blocked g) (g_snapshot g).
Definition add_drained (r : EngineResponse) (g : GatewayState) : GatewayState :=
  mkGatewayState (g_fds g) (g_signals g) (g_ids g) (g_held g) (g_admitted g) (g_drained g ++ [r])
    (g_closed g) (g_unseen_responses g) (g_unseen_close g) (g_unseen_stop g) (g_saw_close g)
    (g_saw_drained g) false false (g_snapshot g).
Definition set_closed (g : GatewayState) : GatewayState :=
  mkGatewayState (g_fds g) (g_signals g) (g_ids g) (g_held g) (g_admitted g) (g_drained g) true
    (g_unseen_responses g) (g_unseen_close g) (g_unseen_stop g) (g_saw_close g) (g_saw_drained g)
    (g_saw_items g) (g_blocked g) (g_snapshot g).
Definition set_unseen (responses close stop : bool) (g : GatewayState) : GatewayState :=
  mkGatewayState (g_fds g) (g_signals g) (g_ids g) (g_held g) (g_admitted g) (g_drained g)
    (g_closed g) responses close stop (g_saw_close g) (g_saw_drained g) (g_saw_items g)
    (g_blocked g) (g_snapshot g).
Definition set_saw (close drained items : bool) (g : GatewayState) : GatewayState :=
  mkGatewayState (g_fds g) (g_signals g) (g_ids g) (g_held g) (g_admitted g) (g_drained g)
    (g_closed g) (g_unseen_responses g) (g_unseen_close g) (g_unseen_stop g) close drained items
    (g_blocked g) (g_snapshot g).
Definition set_blocked (g : GatewayState) : GatewayState :=
  mkGatewayState (g_fds g) (g_signals g) (g_ids g) (g_held g) (g_admitted g) (g_drained g)
    (g_closed g) (g_unseen_responses g) (g_unseen_close g) (g_unseen_stop g) (g_saw_close g)
    (g_saw_drained g) (g_saw_items g) true (g_snapshot g).
Definition set_snapshot (i : Gateway.Impl) (g : GatewayState) : GatewayState :=
  mkGatewayState (g_fds g) (g_signals g) (g_ids g) (g_held g) (g_admitted g) (g_drained g)
    (g_closed g) (g_unseen_responses g) (g_unseen_close g) (g_unseen_stop g) (g_saw_close g)
    (g_saw_drained g) (g_saw_items g) (g_blocked g) (Some i).

(** The account of the gateway: what an access with this answer means. *)
Definition gateway_note {X} (e : SharedE X) (g : GatewayState) : X -> GatewayState :=
  match e in SharedE X return X -> GatewayState with
  | LoadStopRequested => fun stop =>
      if stop then g else set_unseen (g_unseen_responses g) (g_unseen_close g) false g
  | StoreStopRequested => fun _ => set_unseen (g_unseen_responses g) (g_unseen_close g) true g
  | TryAcquire => fun r =>
      match r with Some _ => set_held (S (g_held g)) g | None => set_blocked g end
  | ReleaseOne => fun _ => set_held (pred (g_held g)) g
  | RequestTryPush v => fun pushed =>
      if pushed : bool then add_admitted (aer_request v) (set_held (pred (g_held g)) g) else set_blocked g
  | RequestClose => fun _ => set_closed g
  | ResponseTryPop => fun r =>
      match r with
      | Some c => add_drained (ec_response c) (set_held (S (g_held g)) g)
      | None => set_unseen false (g_unseen_close g) (g_unseen_stop g) g
      end
  | ResponseClosed => fun closed =>
      if closed : bool then set_saw true (g_saw_drained g) (g_saw_items g) g
      else set_unseen (g_unseen_responses g) false (g_unseen_stop g) g
  | ResponseSize => fun n =>
      if bool_decide (n = 0%nat) then set_saw (g_saw_close g) (g_saw_close g) (g_saw_items g) g
      else set_saw (g_saw_close g) (g_saw_drained g) true g
  | LoadEngineFailed => fun failed => if failed : bool then set_blocked g else g
  | _ => fun _ => g
  end.

(** A call that fails: an interruption takes one of the signals. *)
Definition failed_call (error : errno) (g g' : GatewayState) : Prop :=
  if error =? EINTR then exists n, g_signals g = S n /\ g' = set_signals n g else g' = g.

(** A call that answers with a value or an error and changes nothing. *)
Definition plain_call {A} (x : A + errno) (g g' : GatewayState) : Prop :=
  match x with inl _ => g' = g | inr error => failed_call error g g' end.
Definition plain_check (x : option errno) (g g' : GatewayState) : Prop :=
  match x with None => g' = g | Some error => failed_call error g g' end.

(** A call that opens a descriptor. *)
Definition opening_call (d : Descriptor) (x : Fd + errno) (g g' : GatewayState) : Prop :=
  match x with
  | inl fd => 0 <= fd /\ g_fds g !! fd = None /\ g' = set_fds (<[fd := d]> (g_fds g)) g
  | inr error => failed_call error g g'
  end.

Definition gateway_step X (e : Gateway.GatewayE X) (g : GatewayState) (s : SharedState)
  : X -> GatewayState -> SharedState -> Prop :=
  match e in Gateway.GatewayE X return X -> GatewayState -> SharedState -> Prop with
  | Gateway.Shared e => fun x g' s' =>
      exists n, shared_step e (g_signals g) s x n s' /\ g' = gateway_note e (set_signals n g) x
  | Gateway.ReadWakeup => fun x g' s' =>
      match x with
      | inl n => n = 8 /\ 0 < wakeups s /\ s' = set_wakeups 0 s /\ g' = set_unseen true true true g
      | inr error =>
          s' = s /\ failed_call error g g' /\ (error = EAGAIN \/ error = EINTR) /\
          (error = EAGAIN -> wakeups s = 0)
      end
  | Gateway.Poll descriptors => fun x g' s' =>
      s' = s /\
      match x with
      | inl revents =>
          g' = g /\ length revents = length descriptors /\ Exists (fun r => r <> 0) revents /\
          forall n d r, descriptors !! n = Some d -> revents !! n = Some r ->
            g_fds g !! pfd_fd d = Some EventFdFd -> (has_event r POLLIN = true <-> 0 < wakeups s)
      | inr error => failed_call error g g'
      end
  | Gateway.Accept _ => fun x g' s' => s' = s /\ opening_call (ConnectionFd [] []) x g g'
  | Gateway.FcntlGet _ _ => fun x g' s' => s' = s /\ plain_call x g g'
  | Gateway.FcntlSet _ _ _ => fun x g' s' => s' = s /\ plain_check x g g'
  | Gateway.Recv fd n => fun x g' s' =>
      s' = s /\
      match x with
      | inl bytes =>
          wf_bytes bytes /\ (length bytes <= n)%nat /\
          exists received sent, g_fds g !! fd = Some (ConnectionFd received sent) /\
            g' = set_fds (<[fd := ConnectionFd (received ++ bytes) sent]> (g_fds g)) g
      | inr error => failed_call error g g'
      end
  | Gateway.Send fd bytes => fun x g' s' =>
      s' = s /\
      match x with
      | inl n =>
          0 <= n <= Z.of_nat (length bytes) /\
          exists received sent, g_fds g !! fd = Some (ConnectionFd received sent) /\
            g' = set_fds (<[fd := ConnectionFd received (sent ++ take (Z.to_nat n) bytes)]> (g_fds g)) g
      | inr error => failed_call error g g'
      end
  | Gateway.Close fd => fun _ g' s' =>
      s' = s /\ g' = set_ids (delete fd (g_ids g)) (set_fds (delete fd (g_fds g)) g)
  | Gateway.InetPton _ => fun _ g' s' => s' = s /\ g' = g
  | Gateway.Socket => fun x g' s' => s' = s /\ opening_call ListenerFd x g g'
  | Gateway.SetReuseAddress _ => fun x g' s' => s' = s /\ plain_check x g g'
  | Gateway.Bind _ _ _ => fun x g' s' => s' = s /\ plain_check x g g'
  | Gateway.Listen _ _ => fun x g' s' => s' = s /\ plain_check x g g'
  | Gateway.GetSocketPort _ => fun x g' s' => s' = s /\ plain_call x g g'
  | Gateway.EventFd => fun x g' s' => s' = s /\ opening_call EventFdFd x g g'
  | Gateway.IterationOrder keys => fun x g' s' => x ≡ₚ keys /\ s' = s /\ g' = g
  | Gateway.ResponseHook _ => fun _ g' s' => s' = s /\ g' = g
  | Gateway.Registered fd c => fun _ g' s' => s' = s /\ g' = set_ids (<[fd := c]> (g_ids g)) g
  | Gateway.Snapshot i => fun _ g' s' => s' = s /\ g' = set_snapshot i g
  end.

(** The thread may go to sleep when it holds nothing, has looked at everything
    since it was last woken, and when the requests it keeps back wait for others. *)
Definition may_sleep (g : GatewayState) : Prop :=
  g_held g = 0%nat /\ g_unseen_responses g = false /\
  (g_closed g = true -> g_unseen_close g = false \/ g_saw_items g = true) /\
  (g_unseen_stop g = false \/ g_closed g = true) /\
  (forall i, g_snapshot g = Some i -> Gateway.pending_requests i <> [] -> g_blocked g = true).

(** What the members use is bounded by the configuration. *)
Definition resources_bounded (i : Gateway.Impl) : Prop :=
  (size (Gateway.connections i) <= maximum_connections (Gateway.config i))%nat /\
  (length (Gateway.pending_requests i) <= kMaximumPendingRequests)%nat /\
  map_Forall (fun _ c =>
    (length (unread (Gateway.parser c)) <= maximum_input_buffer_bytes (Gateway.config i))%nat /\
    (length (Wire.buffer_ (Gateway.parser c)) <= 2 * maximum_input_buffer_bytes (Gateway.config i))%nat /\
    (Output.pending_size (Gateway.output c) <= maximum_output_buffer_bytes (Gateway.config i))%nat)
    (Gateway.connections i).

(** Every parser can be fed. *)
Definition parsers_ready (i : Gateway.Impl) : Prop :=
  map_Forall (fun _ c => parser_ready (maximum_input_buffer_bytes (Gateway.config i)) (Gateway.parser c))
    (Gateway.connections i).

(** Descriptors are used only while they are open, for what they are; the thread
    sleeps only where a wakeup wakes it. *)
Definition gateway_ok X (e : Gateway.GatewayE X) (g : GatewayState) (s : SharedState) : Prop :=
  match e with
  | Gateway.Shared e => shared_ok e s
  | Gateway.Poll descriptors =>
      Forall (fun d => is_Some (g_fds g !! pfd_fd d)) descriptors /\
      Exists (fun d => g_fds g !! pfd_fd d = Some EventFdFd /\ has_event (pfd_events d) POLLIN = true) descriptors /\
      may_sleep g
  | Gateway.Accept fd => g_fds g !! fd = Some ListenerFd
  | Gateway.FcntlGet fd _ | Gateway.FcntlSet fd _ _ | Gateway.Close fd => is_Some (g_fds g !! fd)
  | Gateway.Recv fd _ | Gateway.Send fd _ =>
      exists received sent, g_fds g !! fd = Some (ConnectionFd received sent)
  | Gateway.SetReuseAddress fd | Gateway.Bind fd _ _ | Gateway.Listen fd _ | Gateway.GetSocketPort fd =>
      g_fds g !! fd = Some ListenerFd
  | Gateway.Snapshot i => resources_bounded i /\ parsers_ready i
  | _ => True
  end.

(** ** The worker thread *)

Section worker.
  Context {W : Type} `{!Posix W}.

Record WorkerState := mkWorkerState {
  w_engine : DurableEngine;
  w_proc : Proc W;
  w_stats : BatchStats;
  w_signals : nat;
  (** where exceptions can happen in this run *)
  w_throws : ThrowSite -> bool;
  w_held : nat;
  w_popped : list EngineRequest;
  w_answered : list EngineResponse;
  w_done : bool;
  (** it has to wake the gateway; it has to request a stop; it has done so *)
  w_owes_wake : bool;
  w_must_stop : bool;
  w_stopped : bool;
  (** it has found the request queue closed and empty *)
  w_saw_end : bool;
}.

Definition w_set_engine (e : DurableEngine) (p : Proc W) (w : WorkerState) : WorkerState :=
  mkWorkerState e p (w_stats w) (w_signals w) (w_throws w) (w_held w) (w_popped w) (w_answered w)
    (w_done w) (w_owes_wake w) (w_must_stop w) (w_stopped w) (w_saw_end w).
Definition w_set_stats (st : BatchStats) (w : WorkerState) : WorkerState :=
  mkWorkerState (w_engine w) (w_proc w) st (w_signals w) (w_throws w) (w_held w) (w_popped w)
    (w_answered w) (w_done w) (w_owes_wake w) (w_must_stop w) (w_stopped w) (w_saw_end w).
Definition w_set_signals (n : nat) (w : WorkerState) : WorkerState :=
  mkWorkerState (w_engine w) (w_proc w) (w_stats w) n (w_throws w) (w_held w) (w_popped w)
    (w_answered w) (w_done w) (w_owes_wake w) (w_must_stop w) (w_stopped w) (w_saw_end w).
Definition w_pop (r : EngineRequest) (w : WorkerState) : WorkerState :=
  mkWorkerState (w_engine w) (w_proc w) (w_stats w) (w_signals w) (w_throws w) (S (w_held w))
    (w_popped w ++ [r]) (w_answered w) (w_done w) (w_owes_wake w) (w_must_stop w) (w_stopped w)
    (w_saw_end w).
Definition w_end (w : WorkerState) : WorkerState :=
  mkWorkerState (w_engine w) (w_proc w) (w_stats w) (w_signals w) (w_throws w) (w_held w)
    (w_popped w) (w_answered w) (w_done w) (w_owes_wake w) (w_must_stop w) (w_stopped w) true.
Definition w_answer (r : EngineResponse) (w : WorkerState) : WorkerState :=
  mkWorkerState (w_engine w) (w_proc w) (w_stats w) (w_signals w) (w_throws w) (pred (w_held w))
    (w_popped w) (w_answered w ++ [r]) (w_done w) true (w_must_stop w) (w_stopped w) (w_saw_end w).
Definition w_release (w : WorkerState) : WorkerState :=
  mkWorkerState (w_engine w) (w_proc w) (w_stats w) (w_signals w) (w_throws w) (pred (w_held w))
    (w_popped w) (w_answered w) (w_done w) (w_owes_wake w) true (w_stopped w) (w_saw_end w).
Definition w_set_done (w : WorkerState) : WorkerState :=
  mkWorkerState (w_engine w) (w_proc w) (w_stats w) (w_signals w) (w_throws w) (w_held w)
    (w_popped w) (w_answered w) true true (w_must_stop w) (w_stopped w) (w_saw_end w).
Definition w_set_wake (owes : bool) (w : WorkerState) : WorkerState :=
  mkWorkerState (w_engine w) (w_proc w) (w_stats w) (w_signals w) (w_throws w) (w_held w)
    (w_popped w) (w_answered w) (w_done w) owes (w_must_stop w) (w_stopped w) (w_saw_end w).
Definition w_set_must_stop (w : WorkerState) : WorkerState :=
  mkWorkerState (w_engine w) (w_proc w) (w_stats w) (w_signals w) (w_throws w) (w_held w)
    (w_popped w) (w_answered w) (w_done w) (w_owes_wake w) true (w_stopped w) (w_saw_end w).
Definition w_set_stopped (w : WorkerState) : WorkerState :=
  mkWorkerState (w_engine w) (w_proc w) (w_stats w) (w_signals w) (w_throws w) (w_held w)
    (w_popped w) (w_answered w) (w_done w) true (w_must_stop w) true (w_saw_end w).

(** The account of the worker. *)
Definition worker_note {X} (e : SharedE X) (w : WorkerState) : X -> WorkerState :=
  match e in SharedE X return X -> WorkerState with
  | StoreStopRequested => fun _ => w_set_stopped w
  | StoreEngineFailed => fun _ => w_set_must_stop w
  | WriteWakeup => fun r =>
      match r with
      | inl _ => w_set_wake false w
      | inr error => if error =? EINTR then w else w_set_wake false w
      end
  | ReleaseOne => fun _ => w_release w
  | RequestTryPop => fun r =>
      match r with Some a => w_pop (aer_request a) w | None => w end
  | RequestWaitPop => fun r =>
      match r with Some a => w_pop (aer_request a) w | None => w_end w end
  | ResponseTryPush v => fun pushed => if pushed : bool then w_answer (ec_response v) w else w
  | ResponseClose => fun _ => w_set_done w
  | _ => fun _ => w
  end.

Definition worker_step X (e : Exchange.WorkerE X) (w : WorkerState) (s : SharedState)
  : X -> WorkerState -> SharedState -> Prop :=
  match e in Exchange.WorkerE X return X -> WorkerState -> SharedState -> Prop with
  | Exchange.Shared e => fun x w' s' =>
      exists n, shared_step e (w_signals w) s x n s' /\ w' = worker_note e (w_set_signals n w) x
  | Exchange.Throws site => fun x w' s' =>
      s' = s /\ w' = w /\ (x = true -> w_throws w site = true)
  | Exchange.RecordBatch n => fun _ w' s' =>
      s' = s /\ exists st, Exchange.record_batch n (w_stats w) = Returned st tt /\ w' = w_set_stats st w
  | Exchange.ExecuteBatch commands => fun x w' s' =>
      s' = s /\ exists faults,
      match Durable.execute_batch faults commands (w_engine w) (w_proc w) with
      | Returned p (e, r) => x = Some r /\ w' = w_set_engine e p w
      | Threw p => x = None /\ w' = w_set_engine (w_engine w) p w
      | Crashed _ => False
      end
  end.

(** The batch is counted inside the histogram, its fields are in range, the
    engine neither crashes nor throws, the thread blocks on the request queue only
    when it owes nothing, and it releases a reservation only where an exception
    can have dropped its request. *)
Definition worker_ok X (e : Exchange.WorkerE X) (w : WorkerState) (s : SharedState) : Prop :=
  match e with
  | Exchange.Shared e =>
      shared_ok e s /\
      match e with
      | RequestWaitPop =>
          w_owes_wake w = false /\ w_held w = 0%nat /\ (w_must_stop w = true -> w_stopped w = true)
      | ReleaseOne => w_throws w BatchReserve = true \/ w_throws w BatchDrainHook = true
      | _ => True
      end
  | Exchange.Throws _ => True
  | Exchange.RecordBatch n => is_Some (batch_size_histogram (w_stats w) !! n)
  | Exchange.ExecuteBatch commands =>
      Forall wf_journal_command commands /\
      forall faults,
      match Durable.execute_batch faults commands (w_engine w) (w_proc w) with
      | Returned _ _ => True
      | _ => False
      end
  end.

(** ** A thread that requests a stop *)

Record ControlState := mkControlState { c_signals : nat; c_owes_wake : bool }.

Definition control_note {X} (e : SharedE X) (c : ControlState) : X -> ControlState :=
  match e in SharedE X return X -> ControlState with
  | StoreStopRequested => fun _ => mkControlState (c_signals c) true
  | WriteWakeup => fun r =>
      match r with
      | inl _ => mkControlState (c_signals c) false
      | inr error => if error =? EINTR then c else mkControlState (c_signals c) false
      end
  | _ => fun _ => c
  end.

Definition control_step X (e : SharedE X) (c : ControlState) (s : SharedState)
    (x : X) (c' : ControlState) (s' : SharedState) : Prop :=
  exists n, shared_step e (c_signals c) s x n s' /\ c' = control_note e (mkControlState n (c_owes_wake c)) x.

(** ** The server *)

Record Server := mkServer {
  gateway_thread : prog Gateway.GatewayE Gateway.Impl;
  worker_thread : prog Exchange.WorkerE unit;
  control_thread : prog SharedE unit;
  gs : GatewayState;
  ws : WorkerState;
  cs : ControlState;
  sh : SharedState;
}.

(** One step of one thread, in which it goes from [p] and its own state [o] to
    [p'] and [o']. *)
Inductive thread_step {E O A} (step : forall X, E X -> O -> SharedState -> X -> O -> SharedState -> Prop)
  : prog E A -> O -> SharedState -> prog E A -> O -> SharedState -> Prop :=
| thread_event X (e : E X) k o s x o' s' :
    step X e o s x o' s' -> thread_step step (Op e k) o s (k x) o' s'
| thread_unfold L B (body : L -> prog E (L + B)) l k o s :
    thread_step step (Iter body l k) o s (unfold_iter body l k) o s.

Inductive server_step : Server -> Server -> Prop :=
| gateway_moves p p' wp cp g g' w c s s' :
    thread_step gateway_step p g s p' g' s' ->
    server_step (mkServer p wp cp g w c s) (mkServer p' wp cp g' w c s')
| worker_moves gp p p' cp g w w' c s s' :
    thread_step worker_step p w s p' w' s' ->
    server_step (mkServer gp p cp g w c s) (mkServer gp p' cp g w' c s')
| control_moves gp wp p p' g w c c' s s' :
    thread_step control_step p c s p' c' s' ->
    server_step (mkServer gp wp p g w c s) (mkServer gp wp p' g w c' s').

(** The event a thread is about to perform must be allowed. *)
Definition next_ok {E O A} (ok : forall X, E X -> O -> SharedState -> Prop) (p : prog E A) (o : O)
    (s : SharedState) : Prop :=
  match p with Op e _ => ok _ e o s | _ => True end.

Definition server_ok (v : Server) : Prop :=
  next_ok gateway_ok (gateway_thread v) (gs v) (sh v) /\
  next_ok worker_ok (worker_thread v) (ws v) (sh v) /\
  next_ok (fun X e (c : ControlState) s => shared_ok e s) (control_thread v) (cs v) (sh v).

(** ** [ExchangeServer::Impl::run] *)

Definition new_gateway_state (fds : gmap Z Descriptor) (signals : nat) : GatewayState :=
  mkGatewayState fds signals empty 0 [] [] false true true true false false false false None.

Definition new_worker_state (engine : DurableEngine) (proc : Proc W) (stats : BatchStats) (signals : nat)
    (throws : ThrowSite -> bool) : WorkerState :=
  mkWorkerState engine proc stats signals throws 0 [] [] false false false false false.

(** The moment at which both threads of a new server start; the control thread
    is about to request a stop, if it is ever scheduled. *)
Definition start (impl : Exchange.Impl) (gateway : Gateway.Impl) (fds : gmap Z Descriptor) (proc : Proc W)
    (throws : ThrowSite -> bool) (signals : nat) : Server :=
  mkServer (Gateway.run gateway)
    (Exchange.worker_loop (max_durable_batch_size (Exchange.config impl)))
    (Exchange.request_stop impl)
    (new_gateway_state fds signals)
    (new_worker_state (Exchange.engine impl) proc (Exchange.batch_stats impl) signals throws)
    (mkControlState signals false)
    (mkSharedState (Exchange.in_flight_limiter impl) (Exchange.request_queue impl)
       (Exchange.response_queue impl) false false 0).

(** A second [run] returns at once. *)
Definition run (impl : Exchange.Impl) (fds : gmap Z Descriptor) (proc : Proc W) (throws : ThrowSite -> bool)
    (signals : nat) : Exchange.Impl * option Server :=
  match Exchange.worker_started impl, Exchange.gateway impl with
  | false, Some gateway =>
      (Exchange.set_worker_started impl, Some (start impl gateway fds proc throws signals))
  | _, _ => (impl, None)
  end.

(** [run] returns when the gateway has returned and the worker is joined. *)
Definition run_returned (v : Server) : Prop :=
  (exists i, gateway_thread v = Ret i) /\ worker_thread v = Ret tt.

End worker.
