(* ===== verification/PipelineInv.v ===== *)
(** * The invariant that links the threads

    What the threads know of each other while they run: the reservations add
    up, the queues carry what one thread has put in and the other has not taken
    out, and nobody sleeps on something that nobody will wake it for.  Each
    thread's accesses keep it, under the condition that the thread has to
    establish ([gateway_may], [worker_may]). *)
From S2P Require Import Prelude Types Bytes OrderBook Journal Posix JournalStorage DurableEngine Wire Threads.
From S2P Require Import BoundedQueue GatewayTypes Connection Gateway Exchange Pipeline.
Import Limiter.

(** The fields of a request are in the ranges of their types. *)
Definition wf_request (r : EngineRequest) : Prop :=
  wf_journal_command (Exchange.to_journal_command r) /\ is_u64 (request_key r).2.

Section linked.
  Context {W : Type} `{!Posix W}.
  (** the capacities of the limiter and of the request queue *)
  Context (N M : nat) (HN : (0 < N)%nat) (HM : (0 < M)%nat).
  Implicit Types (g : GatewayState) (w : @WorkerState W) (c : ControlState) (s : SharedState).

Abbreviation req s := (BQ.items_ (requests s)).
Abbreviation resp s := (BQ.items_ (responses s)).

(** The work that is not in the hands of the gateway. *)
Definition elsewhere w s : nat := (w_held w + length (req s) + length (resp s))%nat.

Record linked g w c s : Prop := {
  l_flight : in_flight_ (limiter s) = (g_held g + elsewhere w s)%nat;
  l_limit : (in_flight_ (limiter s) <= N)%nat;
  l_limiter : Limiter.capacity_ (limiter s) = N;
  l_observed : limiter_ok (limiter s);
  l_requests : BQ.capacity_ (requests s) = M;
  l_responses : BQ.capacity_ (responses s) = N;
  l_request_size : (length (req s) <= M)%nat;
  l_request_active : Forall (fun a => owner_ (aer_completion a) = true) (req s);
  l_response_active : Forall (fun a => owner_ (ec_completion a) = true) (resp s);
  l_wf : Forall (fun a => wf_request (aer_request a)) (req s);
  l_wf_admitted : Forall wf_request (g_admitted g);
  l_admitted : g_admitted g = w_popped w ++ (aer_request <$> req s);
  (** a response is for a connection whose request was admitted *)
  l_known : Forall (fun a => Gateway.response_connection_id (ec_response a)
                             ∈ request_connection <$> g_admitted g) (resp s);
  l_answered : w_answered w = g_drained g ++ (ec_response <$> resp s);
  l_closed : BQ.closed_ (requests s) = g_closed g;
  l_done : BQ.closed_ (responses s) = w_done w;
  l_end : w_saw_end w = true -> g_closed g = true /\ req s = [];
  l_finished : w_done w = true -> w_saw_end w = true /\ w_held w = 0%nat;
  l_saw_close : g_saw_close g = true -> w_done w = true;
  l_saw_drained : g_saw_drained g = true -> w_done w = true /\ resp s = [];
  l_saw_items : g_saw_items g = true -> resp s <> [];
  l_wake_responses : resp s <> [] ->
    w_owes_wake w = true \/ 0 < wakeups s \/ g_unseen_responses g = true;
  l_wake_close : w_done w = true ->
    w_owes_wake w = true \/ 0 < wakeups s \/ g_unseen_close g = true;
  l_wake_stop : stop_requested s = true ->
    c_owes_wake c = true \/ w_owes_wake w = true \/ 0 < wakeups s \/
    g_unseen_stop g = true \/ g_closed g = true;
  l_wakeups : 0 <= wakeups s;
  l_blocked : g_blocked g = true -> (1 <= elsewhere w s)%nat \/ w_must_stop w = true;
  l_failed : engine_failed s = true -> w_must_stop w = true;
  l_stopped : w_stopped w = true -> stop_requested s = true;
}.

(** What the gateway has to know for an access, and what it learns. *)
Definition gateway_may {X} (e : SharedE X) g : Prop :=
  match e with
  | LoadStopRequested | StoreStopRequested | LoadEngineFailed | WriteWakeup | RequestClose
  | ResponseTryPop | ResponseClosed | ResponseSize => True
  | TryAcquire => g_held g = 0%nat
  | ReleaseOne => (1 <= g_held g)%nat
  | RequestTryPush v =>
      owner_ (aer_completion v) = true /\ wf_request (aer_request v) /\ (1 <= g_held g)%nat /\
      g_closed g = false
  | _ => False
  end.

Definition gateway_learns {X} (e : SharedE X) g : X -> Prop :=
  match e in SharedE X return X -> Prop with
  | TryAcquire => fun r => match r with Some r => owner_ r = true | None => True end
  | ResponseTryPop => fun r =>
      match r with
      | Some c => owner_ (ec_completion c) = true /\
          Gateway.response_connection_id (ec_response c) ∈ request_connection <$> g_admitted g
      | None => True
      end
  | _ => fun _ => True
  end.

Definition worker_may {X} (e : SharedE X) w : Prop :=
  match e with
  | StoreStopRequested | StoreEngineFailed | WriteWakeup => True
  | RequestTryPop | RequestWaitPop => w_done w = false
  | ReleaseOne => (1 <= w_held w)%nat
  | ResponseTryPush v =>
      owner_ (ec_completion v) = true /\ (1 <= w_held w)%nat /\
      Gateway.response_connection_id (ec_response v) ∈ request_connection <$> w_popped w
  | ResponseClose => w_saw_end w = true /\ w_held w = 0%nat
  | _ => False
  end.

Definition worker_learns {X} (e : SharedE X) w : X -> Prop :=
  match e in SharedE X return X -> Prop with
  | RequestTryPop | RequestWaitPop => fun r =>
      match r with
      | Some a => owner_ (aer_completion a) = true /\ wf_request (aer_request a)
      | None => True
      end
  | ResponseTryPush v => fun pushed => pushed = true
  | _ => fun _ => True
  end.

(** Case analysis on one access: the result of each operation by its cases. *)
Ltac access_cases :=
  repeat match goal with
  | H : shared_step _ _ _ _ _ _ |- _ => destruct H as [[H ?]|(H & ? & ?)]; simpl in H; try done; subst
  | H : context [try_acquire ?l] |- _ =>
      let Hc := fresh "Hc" in pose proof (try_acquire_cases l) as Hc; destruct (try_acquire l) as [[?|] ?]
  | H : context [release_one ?l] |- _ =>
      let Hc := fresh "Hc" in pose proof (release_one_cases l) as Hc; destruct (release_one l); try done
  | H : context [BQ.try_push ?v ?q] |- _ =>
      let Hc := fresh "Hc" in pose proof (BQ.try_push_cases v q) as Hc; destruct (BQ.try_push v q) as [[] ?]
  | H : context [BQ.try_pop ?q] |- _ =>
      let Hc := fresh "Hc" in pose proof (BQ.try_pop_cases q) as Hc; destruct (BQ.try_pop q) as [[?|] ?]
  | H : context [BQ.wait_pop ?q] |- _ =>
      let Hc := fresh "Hc" in
      destruct (BQ.wait_pop q) as [[[?|] ?]|] eqn:Hc; [apply BQ.wait_pop_cases in Hc..|]; try done
  | H : context [if wakeups ?s <? EVENTFD_MAX then _ else _] |- _ =>
      destruct (Z.ltb_spec (wakeups s) EVENTFD_MAX)
  | H : Some _ = Some _ |- _ => injection H as <- <-
  end.

(** The fields of [linked] after an access: most are as before. *)
Ltac link :=
  repeat match goal with |- context [if ?b then _ else _] => destruct b eqn:? end; reflect;
  repeat match goal with H : _ /\ _ |- _ => destruct H end; subst;
  split; simpl in *; unfold elsewhere, BQ.closed, BQ.size in *; simpl in *; autorewrite with queue;
  try assumption; try congruence; try lia; try (intros; intuition (congruence || lia)).

(** What is left is about the items of a queue that was pushed to or popped
    from. *)
Ltac items :=
  repeat match goal with
  | H : Forall _ (_ :: _) |- _ => apply Forall_cons in H as [? ?]
  end;
  rewrite ?length_app, ?fmap_app, ?Forall_app, ?Forall_singleton, <- ?app_assoc in *; simpl in *;
  try done; try lia; try (intros; intuition (congruence || lia)).

Lemma gateway_access X (e : SharedE X) g w c s x n s' :
  linked g w c s -> gateway_may e g -> shared_step e (g_signals g) s x n s' ->
  gateway_learns e g x /\ linked (gateway_note e (set_signals n g) x) w c s'.
Proof using HM HN.
  intros L Hmay Hstep. destruct L. destruct e; simpl in Hmay; try done; access_cases; simpl in *.
  all: split; [try done|link].
  all: try match goal with H : BQ.items_ _ = _ |- _ => rewrite H in * end.
  all: items; try (destruct Hc as (? & ? & ?); done || lia).
  - by rewrite l_admitted0, <- app_assoc.
  - eapply Forall_impl; [exact l_known0|]. intros a ?. apply elem_of_app. by left.
  - destruct Hc as (_ & _ & Hi). rewrite Hi in *. items.
  - split; [auto|]. by apply nil_length_inv.
  - intros _ Hr. by rewrite Hr in *.
Qed.

(** An access of the gateway does not end the process. *)
Lemma gateway_access_ok X (e : SharedE X) g w c s : linked g w c s -> gateway_may e g -> shared_ok e s.
Proof using Type.
  clear HN HM. intros L Hmay. destruct e; simpl in *; try done. rewrite (l_flight _ _ _ _ L). lia.
Qed.

Lemma worker_access X (e : SharedE X) g w c s x n s' :
  linked g w c s -> worker_may e w -> shared_step e (w_signals w) s x n s' ->
  worker_learns e w x /\ linked g (worker_note e (w_set_signals n w) x) c s'.
Proof using HN HM.
  intros L Hmay Hstep. destruct L. destruct e; simpl in Hmay; try done; access_cases; simpl in *.
  all: split; [try done|link].
  all: try match goal with H : BQ.items_ _ = _ |- _ => rewrite H in * end.
  all: items; try (destruct Hc as (? & ? & ?); done || lia).
  all: try (intros _; right; left; unfold EVENTFD_MAX in *; lia).
  - intros _. do 2 right. left. unfold EVENTFD_MAX in *. lia.
  - destruct Hc as (_ & _ & Hi). rewrite Hi in *. items.
  - destruct Hc as (_ & _ & Hi). rewrite Hi in *. items.
  - split; [done|]. rewrite l_admitted0, fmap_app. apply elem_of_app. by left.
  - by rewrite l_answered0, <- app_assoc.
  - intros _ Hr. by destruct (resp s).
  - destruct Hc as (_ & _ & _ & Hc). unfold elsewhere in *. destruct Hc; [|lia].
    destruct l_finished0; [congruence|lia].
Qed.

Lemma worker_access_ok X (e : SharedE X) g w c s : linked g w c s -> worker_may e w -> shared_ok e s.
Proof using Type.
  clear HN HM. intros L Hmay. destruct e; simpl in *; try done. rewrite (l_flight _ _ _ _ L).
  unfold elsewhere. lia.
Qed.

(** The accesses of a thread that requests a stop. *)
Definition control_may {X} (e : SharedE X) : Prop :=
  match e with StoreStopRequested | WriteWakeup => True | _ => False end.

Lemma control_access X (e : SharedE X) g w c s x n s' :
  linked g w c s -> control_may e -> shared_step e (c_signals c) s x n s' ->
  linked g w (control_note e (mkControlState n (c_owes_wake c)) x) s'.
Proof using Type.
  clear HN HM. intros L Hmay Hstep. destruct L. destruct e; simpl in Hmay; try done; access_cases; simpl in *; link.
  all: intros _; do 2 right; left; unfold EVENTFD_MAX in *; lia.
Qed.

End linked.
