(* ===== verification/WorkerLoop.v ===== *)
(** * The worker thread

    The worker answers the requests it pops, in the order in which it popped
    them: with the results of running their commands on the book, as long as the
    engine is healthy, and then with [EngineUnavailable].  [worker_data] says
    so at every moment; [hold] is what the code knows between two events. *)
From S2P Require Import Prelude Types Bytes OrderBook OrderBookInv Journal Posix JournalStorage JournalFile.
From S2P Require Import JournalStorageProps DurableEngine DurableEngineProps Wire Threads BoundedQueue GatewayTypes.
From S2P Require Import Connection Gateway Exchange Pipeline PipelineInv.
Import Limiter.

Abbreviation commands_of rs := (Exchange.to_journal_command <$> rs).

(** The results of running the commands of requests are summarised without a
    mismatch of alternatives. *)
Lemma runs_summarize b reqs b' results :
  runs b (commands_of reqs) b' results ->
  exists rs, zip_with Exchange.summarize reqs results = Some <$> rs /\ length results = length reqs.
Proof.
  revert b results. induction reqs as [|q reqs IH]; intros b results H.
  - inversion H; subst. by exists [].
  - destruct q as [q|q]; inversion H as [|? ? b1 r ? ? rs E Hr|? ? b1 r ? ? rs E Hr]; subst;
      destruct (IH _ _ Hr) as (ts & Ht & Hl); eexists (_ :: ts); simpl; rewrite Ht, Hl; done.
Qed.

Lemma response_connection_key r : Gateway.response_connection_id r = (response_key r).1.
Proof. by destruct r. Qed.

Lemma unavailable_key q : response_key (Exchange.unavailable_response q) = request_key q.
Proof. by destruct q. Qed.

Lemma summarize_key q res r : Exchange.summarize q res = Some r -> response_key r = request_key q.
Proof. by destruct q, res; intros [= <-]. Qed.

Section worker.
  Context {W : Type} `{!Posix W, !PosixView W, !PosixLaws W}.
  (** the capacities, the size of batches, the journal, the commands that are
      in it at the start, those of them that are known to be durable, and the
      book they make *)
  Context (N M : nat) (HN : (0 < N)%nat) (HM : (0 < M)%nat) (max : nat).
  Context (p : path) (lo0 cs0 : list JournalCommand) (b0 : OrderBook.Impl).
  (** what the other threads keep *)
  Context (ginv : GatewayState -> Prop).
  Implicit Types (w : @WorkerState W) (s : SharedState) (batch : list AdmittedEngineRequest).

Abbreviation requests_of batch := (aer_request <$> batch).

(** The engine has executed [cmds] in addition to [cs0], and they are durable;
    or it has failed after that. *)
Definition engine_state (cmds : list JournalCommand) b w : Prop :=
  exists lo, lo0 `prefix_of` lo /\ (cmds <> [] -> lo = cs0 ++ cmds) /\
  ((engine_on p lo (cs0 ++ cmds) (w_engine w) (w_proc w) /\ de_order_book (w_engine w) = b) \/
   (de_state (w_engine w) = Failed /\ exists cs', at_rest p lo cs' (os (w_proc w)))).

(** [acked] were executed and answered with their results, [un] were answered
    with [EngineUnavailable], [unacked] are executed with [results2] and not yet
    answered. *)
Definition worker_data w (acked un unacked : list EngineRequest) (results2 : list BatchCommandResult) : Prop :=
  exists results1 answers b1 b2,
    runs b0 (commands_of acked) b1 results1 /\ runs b1 (commands_of unacked) b2 results2 /\
    zip_with Exchange.summarize acked results1 = Some <$> answers /\
    w_answered w = answers ++ (Exchange.unavailable_response <$> un) /\
    engine_state (commands_of (acked ++ unacked)) b2 w /\
    (un = [] \/ unacked = []).

(** No exception drops requests. *)
Definition no_drop w : Prop := w_throws w BatchReserve = false /\ w_throws w BatchDrainHook = false.

Definition winv w : Prop :=
  exists acked un unacked results2,
    worker_data w acked un unacked results2 /\
    sublist (acked ++ un) (w_popped w) /\
    (no_drop w -> exists rest, w_popped w = acked ++ un ++ rest).

(** Between two events: [batch] is in the hands of the worker. *)
Record hold w batch acked un unacked results2 : Prop := {
  h_held : w_held w = length batch;
  h_done : w_done w = false;
  h_active : Forall (fun a => owner_ (aer_completion a) = true) batch;
  h_wf : Forall (fun a => wf_request (aer_request a)) batch;
  h_owes : w_owes_wake w = false;
  h_stop : w_must_stop w = true -> w_stopped w = true;
  h_stats : length (batch_size_histogram (w_stats w)) = (M + 1)%nat;
  h_data : worker_data w acked un unacked results2;
  h_sublist : sublist (acked ++ un ++ requests_of batch) (w_popped w);
  h_exact : no_drop w -> w_popped w = acked ++ un ++ requests_of batch;
}.

Definition inv w (r : GatewayState * ControlState) s : Prop :=
  linked N M r.1 w r.2 s /\ ginv r.1 /\ winv w.

Abbreviation WPw := (WP worker_step worker_ok inv).

(** ** Rules *)

Lemma WPw_shared {X A} (e : SharedE X) (k : X -> prog Exchange.WorkerE A) w Q :
  worker_may e w ->
  (match e with
   | RequestWaitPop => w_owes_wake w = false /\ w_held w = 0%nat /\ (w_must_stop w = true -> w_stopped w = true)
   | ReleaseOne => w_throws w BatchReserve = true \/ w_throws w BatchDrainHook = true
   | _ => True
   end) ->
  (forall x n, worker_learns e w x ->
     let w' := worker_note e (w_set_signals n w) x in winv w' /\ WPw (k x) w' Q) ->
  WPw (Op (Exchange.Shared e) k) w Q.
Proof.
  intros Hmay Hwait Hk. apply WP_op. intros [g c] s (L & Hg & Hw). split.
  - split; [by eapply worker_access_ok; [exact L|]|]. by destruct e.
  - intros x w' s' (n & Hst & ->). simpl in *.
    destruct (worker_access N M HN HM X e g w c s x n s' L Hmay Hst) as [Hl L'].
    destruct (Hk x n Hl) as [Hw' HW]. by split.
Qed.

(** The data depends only on a few fields. *)
Lemma worker_data_frame w w' acked un unacked results2 :
  w_engine w' = w_engine w -> w_proc w' = w_proc w -> w_answered w' = w_answered w ->
  worker_data w acked un unacked results2 -> worker_data w' acked un unacked results2.
Proof.
  intros He Hp Ha (rs & ans & b1 & b2 & H1 & H2 & H3 & H4 & H5 & H6). exists rs, ans, b1, b2.
  unfold engine_state in *. rewrite He, Hp, Ha. done.
Qed.

Lemma winv_frame w w' :
  w_engine w' = w_engine w -> w_proc w' = w_proc w -> w_answered w' = w_answered w ->
  w_throws w' = w_throws w -> w_popped w' = w_popped w -> winv w -> winv w'.
Proof.
  intros He Hp Ha Ht Hq (acked & un & unacked & rs & Hd & Hs & Hx). exists acked, un, unacked, rs.
  unfold no_drop. rewrite Ht, Hq. split_and!; try done. by eapply worker_data_frame.
Qed.

Lemma winv_pop r w : winv w -> winv (w_pop r w).
Proof.
  intros (acked & un & unacked & rs & Hd & Hs & Hx). exists acked, un, unacked, rs. split_and!.
  - by eapply worker_data_frame.
  - simpl. by apply sublist_inserts_r.
  - intros Hn. destruct (Hx Hn) as [rest Hr]. exists (rest ++ [r]). simpl. by rewrite Hr, <- !app_assoc.
Qed.

Lemma hold_winv w batch acked un unacked results2 : hold w batch acked un unacked results2 -> winv w.
Proof.
  intros []. exists acked, un, unacked, results2. split_and!; [done| |eauto].
  etrans; [|done]. rewrite (app_assoc acked). by apply sublist_inserts_r.
Qed.

(** Bring the first event of a program to its head. *)
Ltac open_event := unfold share, call; cbn [bind].

(** [wake]: afterwards nothing is owed. *)
Lemma WPw_wake w Q :
  winv w -> (forall n, Q tt (w_set_wake false (w_set_signals n w))) -> WPw Gateway.wake w Q.
Proof.
  intros Hw HQ. apply (WP_iter _ _ _ (fun _ w' => exists n, w' = w_set_signals n w)).
  - exists (w_signals w). by destruct w.
  - intros _ w' [n ->]. apply WPw_shared; [done..|]. intros x m _ w'.
    subst w'. destruct x as [k|err]; simpl; [|destruct (err =? EINTR)];
      (split; [by apply (winv_frame w)|apply WP_ret]); [by apply HQ|by exists m|by apply HQ].
Qed.

Lemma WPw_notify w Q :
  winv w -> (forall n, Q tt (w_set_wake false (w_set_signals n w))) -> WPw Gateway.notify w Q.
Proof. apply WPw_wake. Qed.

(** [enter_fail_stop]: the flags are set, then nothing is owed. *)
Lemma WPw_enter_fail_stop w Q :
  winv w ->
  (forall n, Q tt (w_set_wake false (w_set_signals n (w_set_stopped (w_set_must_stop w))))) ->
  WPw Gateway.enter_fail_stop w Q.
Proof.
  intros Hw HQ. unfold Gateway.enter_fail_stop, Gateway.request_stop. open_event.
  apply WPw_shared; [done..|]. intros [] n1 _ w1. split; [by apply (winv_frame w)|].
  apply WPw_shared; [done..|]. intros [] n2 _ w2. split; [by apply (winv_frame w)|].
  apply WPw_wake; [by apply (winv_frame w)|]. intros n. apply HQ.
Qed.

(** Publishing one response. *)
Lemma WPw_publish_for a r w Q :
  owner_ (aer_completion a) = true -> (1 <= w_held w)%nat -> aer_request a ∈ w_popped w ->
  response_key r = request_key (aer_request a) -> winv (w_answer r w) ->
  (forall n, Q (mkAdmittedEngineRequest (aer_request a) null_reservation)
               (w_set_wake false (w_set_signals n (w_answer r w)))) ->
  WPw (Exchange.publish_for a r) w Q.
Proof.
  intros Ha Hh Hin Hkey Hw HQ. unfold Exchange.publish_for, Exchange.publish. simpl move_construct.
  cbn iota beta. open_event. apply WPw_shared; [|done|].
  { split_and!; [done..|]. simpl. rewrite response_connection_key, Hkey. by apply (list_elem_of_fmap_2 request_connection). }
  intros x n Hx w1. simpl in Hx. subst x w1.
  split; [by apply (winv_frame (w_answer r w))|].
  cbn [negb]. apply WP_bind, WPw_notify; [by apply (winv_frame (w_answer r w))|].
  intros m. apply WP_ret, (HQ m).
Qed.

(** ** Publishing a batch *)

(** The state after one more answer. *)
Abbreviation answered n r w := (w_set_wake false (w_set_signals n (w_answer r w))).

Lemma hold_unavailable w a batch acked un n :
  hold w (a :: batch) acked un [] [] ->
  hold (answered n (Exchange.unavailable_response (aer_request a)) w) batch acked (un ++ [aer_request a]) [] [].
Proof.
  intros [H1 H2 H3 H4 H5 H6 H7 (rs & ans & b1 & b2 & D1 & D2 & D3 & D4 & D5 & D6) H9 H10].
  apply Forall_cons in H3 as [_ H3]. apply Forall_cons in H4 as [_ H4].
  split; try done; simpl in *.
  - by rewrite H1.
  - exists rs, ans, b1, b2. split_and!; try done; [|by right]. simpl.
    by rewrite D4, fmap_app, <- app_assoc.
  - by rewrite <- app_assoc.
  - intros Hn. by rewrite <- app_assoc, H10.
Qed.

Lemma hold_result w a batch acked unacked res results r n :
  hold w (a :: batch) acked [] (aer_request a :: unacked) (res :: results) ->
  Exchange.summarize (aer_request a) res = Some r ->
  hold (answered n r w) batch (acked ++ [aer_request a]) [] unacked results.
Proof.
  intros [H1 H2 H3 H4 H5 H6 H7 (rs & ans & b1 & b2 & D1 & D2 & D3 & D4 & D5 & D6) H9 H10] Hr.
  apply Forall_cons in H3 as [_ H3]. apply Forall_cons in H4 as [_ H4].
  assert (exists b', runs b1 [Exchange.to_journal_command (aer_request a)] b' [res] /\
            runs b' (commands_of unacked) b2 results) as (b' & R1 & R2).
  { inversion D2; subst; eexists; (split; [|done]); econstructor; (done || constructor). }
  split; try done; simpl in *.
  - by rewrite H1.
  - destruct (runs_summarize _ _ _ _ D1) as (_ & _ & Hlen).
    exists (rs ++ [res]), (ans ++ [r]), b', b2. split_and!; try done.
    + rewrite fmap_app. by eapply runs_app.
    + rewrite zip_with_app, D3, fmap_app by done. simpl. by rewrite Hr.
    + simpl. by rewrite D4, !app_nil_r.
    + by rewrite <- app_assoc.
    + by left.
  - by rewrite <- app_assoc.
  - intros Hn. by rewrite <- app_assoc, H10.
Qed.

Lemma hold_popped w a batch acked un unacked results :
  hold w (a :: batch) acked un unacked results -> aer_request a ∈ w_popped w.
Proof.
  intros H. eapply elem_of_sublist; [|exact (h_sublist _ _ _ _ _ _ H)]. set_solver.
Qed.

(** Reservations that were moved from. *)
Abbreviation all_null batch := (Forall (fun a => owner_ (aer_completion a) = false) batch).

Lemma WPw_publish_unavailable batch w acked un :
  hold w batch acked un [] [] ->
  WPw (Exchange.publish_unavailable batch) w
    (fun batch' w' => all_null batch' /\ hold w' [] acked (un ++ requests_of batch) [] [] /\
       w_engine w' = w_engine w).
Proof.
  revert w un. induction batch as [|a batch IH]; intros w un H.
  - simpl. apply WP_ret. by rewrite app_nil_r.
  - cbn [Exchange.publish_unavailable]. apply WP_bind.
    pose proof (fun n => hold_unavailable _ _ _ _ _ n H) as H'.
    apply WPw_publish_for.
    + by apply (Forall_cons_1 _ _ _ (h_active _ _ _ _ _ _ H)).
    + rewrite (h_held _ _ _ _ _ _ H). simpl. lia.
    + by apply (hold_popped _ _ _ _ _ _ _ H).
    + apply unavailable_key.
    + by eapply (winv_frame (answered 0 _ w)), hold_winv.
    + intros n. apply WP_bind. eapply WP_mono; [by apply IH|].
      intros batch' w' (Hn & Hh & Hm). apply WP_ret. rewrite <- app_assoc in Hh.
      split_and!; [by constructor|done|done].
Qed.

Lemma WPw_publish_results batch results w acked :
  hold w batch acked [] (requests_of batch) results ->
  WPw (Exchange.publish_results batch results) w
    (fun batch' w' => all_null batch' /\ hold w' [] (acked ++ requests_of batch) [] [] [] /\
       w_engine w' = w_engine w).
Proof.
  revert w acked results. induction batch as [|a batch IH]; intros w acked results H.
  - pose proof (h_data _ _ _ _ _ _ H) as (rs & ans & b1 & b2 & _ & D2 & _). inversion D2; subst.
    simpl. apply WP_ret. by rewrite app_nil_r.
  - pose proof (h_data _ _ _ _ _ _ H) as (rs & ans & b1 & b2 & _ & D2 & _).
    destruct (runs_summarize _ (requests_of (a :: batch)) _ _ D2) as (ts & Ht & Hl).
    destruct results as [|res results]; [done|]. cbn [Exchange.publish_results].
    destruct ts as [|r ts]; [done|]. simpl in Ht. injection Ht as Hr Ht. rewrite Hr.
    pose proof (fun n => hold_result _ _ _ _ _ _ _ _ n H Hr) as H'.
    apply WP_bind, WPw_publish_for.
    + by apply (Forall_cons_1 _ _ _ (h_active _ _ _ _ _ _ H)).
    + rewrite (h_held _ _ _ _ _ _ H). simpl. lia.
    + by apply (hold_popped _ _ _ _ _ _ _ H).
    + by eapply summarize_key.
    + by eapply (winv_frame (answered 0 _ w)), hold_winv.
    + intros n. apply WP_bind. eapply WP_mono; [by apply IH|].
      intros batch' w' (Hn & Hh & Hm). apply WP_ret. rewrite <- app_assoc in Hh.
      split_and!; [by constructor|done|done].
Qed.

(** Destroying what was moved from does nothing. *)
Lemma WPw_destroy_null batch w Q :
  all_null batch -> Q tt w -> WPw (Exchange.destroy_batch batch) w Q.
Proof.
  intros Hn HQ. unfold Exchange.destroy_batch.
  apply (WP_for_each _ _ _ (fun batch _ w' => all_null batch /\ w' = w)); [done| |by intros [] w' [_ ->]].
  intros a l [] w' [[Ha Hl]%Forall_cons ->]. unfold Gateway.release. rewrite Ha. by apply WP_ret.
Qed.

(** ** Executing a batch *)

Abbreviation fail_stopped n w :=
  (w_set_wake false (w_set_signals n (w_set_stopped (w_set_must_stop w)))).

Lemma hold_fail_stopped w batch acked un unacked results n :
  hold w batch acked un unacked results -> hold (fail_stopped n w) batch acked un unacked results.
Proof. intros []. split; try done. Qed.

(** While the worker has not failed, its engine is healthy and nothing was
    answered with [EngineUnavailable]. *)
Definition healthy w (un : list EngineRequest) (failed : bool) : Prop :=
  failed = false -> un = [] /\ de_state (w_engine w) = Healthy.

Lemma hold_engine w batch acked un :
  hold w batch acked un [] [] -> de_state (w_engine w) = Healthy ->
  exists lo, lo0 `prefix_of` lo /\ (commands_of acked <> [] -> lo = cs0 ++ commands_of acked) /\
    engine_on p lo (cs0 ++ commands_of acked) (w_engine w) (w_proc w).
Proof.
  intros [_ _ _ _ _ _ _ (rs & ans & b1 & b2 & _ & _ & _ & _ & (lo & Hlo & Hx & [[He _]|[Hf _]]) & _) _ _] Hs;
    [|congruence].
  rewrite app_nil_r in *. by exists lo.
Qed.

(** The engine has executed the batch. *)
Lemma hold_executed w batch acked results e' proc' :
  hold w batch acked [] [] [] -> de_state (w_engine w) = Healthy ->
  runs (de_order_book (w_engine w)) (commands_of (requests_of batch)) (de_order_book e') results ->
  engine_on p (cs0 ++ commands_of acked ++ commands_of (requests_of batch))
    (cs0 ++ commands_of acked ++ commands_of (requests_of batch)) e' proc' ->
  hold (w_set_engine e' proc' w) batch acked [] (requests_of batch) results.
Proof.
  intros [H1 H2 H3 H4 H5 H6 H7 (rs & ans & b1 & b2 & D1 & D2 & D3 & D4 & D5 & _) H9 H10] Hs Hr He.
  destruct D5 as (lo & Hlo & _ & [[Hon Hb]|[Hf _]]); [|congruence]. inversion D2; subst.
  split; try done. exists rs, ans, (de_order_book (w_engine w)), (de_order_book e').
  split_and!; try done; [|by left]. eexists. rewrite fmap_app. split_and!; [|done|by left].
  etrans; [exact Hlo|]. pose proof (eo_lo _ _ _ _ _ Hon) as Hp. etrans; [exact Hp|].
  rewrite app_nil_r, app_assoc. by apply prefix_app_r.
Qed.

(** The engine has failed: the journal keeps what was executed before. *)
Lemma hold_failed w batch acked e' proc' lo cs' :
  hold w batch acked [] [] [] -> de_state e' = Failed ->
  lo0 `prefix_of` lo -> (commands_of acked <> [] -> lo = cs0 ++ commands_of acked) ->
  at_rest p lo cs' (os proc') ->
  hold (w_set_engine e' proc' w) batch acked [] [] [].
Proof.
  intros [H1 H2 H3 H4 H5 H6 H7 (rs & ans & b1 & b2 & D1 & D2 & D3 & D4 & _ & _) H9 H10] Hf Hlo Hx Hr.
  split; try done. exists rs, ans, b1, b2. split_and!; try done; [|by left].
  exists lo. rewrite app_nil_r. split_and!; [done..|]. right. eauto.
Qed.

Lemma WPw_throws {A} site (k : bool -> prog Exchange.WorkerE A) w Q :
  (w_throws w site = true -> WPw (k true) w Q) -> WPw (k false) w Q ->
  WPw (Op (Exchange.Throws site) k) w Q.
Proof.
  intros Ht Hf. apply WP_op. intros r s Hi. split; [done|]. intros x w' s' (-> & -> & Hx).
  split; [done|]. destruct x; auto.
Qed.

(** What the [try] leaves behind: the results and an engine that has executed
    the batch, or nothing executed for sure. *)
Lemma WPw_try_execute batch w acked :
  hold w batch acked [] [] [] -> de_state (w_engine w) = Healthy ->
  WPw (Exchange.try_execute batch) w
    (fun r w' => match r with
     | Some (inl results) =>
         hold w' batch acked [] (requests_of batch) results /\ de_state (w_engine w') = Healthy /\
         length results = length batch
     | _ => hold w' batch acked [] [] []
     end).
Proof.
  intros H Hs. unfold Exchange.try_execute. open_event.
  apply WPw_throws; [intros _; by apply WP_ret|]. apply WPw_throws; [intros _; by apply WP_ret|].
  rewrite (list_fmap_compose aer_request Exchange.to_journal_command).
  assert (Forall wf_journal_command (commands_of (requests_of batch))) as Hwf.
  { rewrite !Forall_fmap. eapply Forall_impl; [exact (h_wf _ _ _ _ _ _ H)|]. by intros a [? _]. }
  pose proof (hold_engine _ _ _ _ H Hs) as (lo & Hlo & Hx0 & He).
  apply WP_op. intros r s (L & Hg & Hw). split.
  - split; [done|]. intros faults. destruct (execute_batch_spec faults _ _ _ _ _ _ He Hwf) as (p' & e' & r' & -> & _). done.
  - intros x w' s' [-> [faults Hx]].
    destruct (execute_batch_spec faults _ _ _ _ _ _ He Hwf) as (p' & e' & r' & E & Hr).
    rewrite E in Hx. destruct Hx as [-> ->].
    assert (match r' with
      | inl results => hold (w_set_engine e' p' w) batch acked [] (requests_of batch) results /\
          de_state e' = Healthy /\ length results = length batch
      | inr _ => hold (w_set_engine e' p' w) batch acked [] [] [] end) as Hpost.
    { destruct r' as [results|err].
      - destruct Hr as [Hr He']. rewrite <- app_assoc in He'. split_and!; [by apply hold_executed|apply He'|].
        destruct (runs_summarize _ _ _ _ Hr) as (_ & _ & ->). apply length_fmap.
      - destruct Hr as (Hf & new & _ & Hrest & _). by apply (hold_failed _ _ _ _ _ _ _ H Hf Hlo Hx0 Hrest). }
    split.
    + split; [|split; [done|]].
      * destruct L. by split.
      * destruct r'; [destruct Hpost as [Hpost _]|]; by eapply hold_winv.
    + apply WP_ret. destruct r'; done.
Qed.

(** The statistics: a batch is no larger than what is in flight and than the
    largest batch, so it is counted inside the histogram. *)
Context (Hhist : (Nat.min max N <= M)%nat).

Lemma WPw_record_batch {A} (k : unit -> prog Exchange.WorkerE A) batch w acked un Q :
  hold w batch acked un [] [] -> (length batch <= max)%nat ->
  (forall st, length (batch_size_histogram st) = (M + 1)%nat -> WPw (k tt) (w_set_stats st w) Q) ->
  WPw (Op (Exchange.RecordBatch (length batch)) k) w Q.
Proof.
  intros H Hmax Hk. pose proof (h_stats _ _ _ _ _ _ H) as Hst.
  apply WP_op. intros [g c] s (L & Hg & Hw). split.
  - apply lookup_lt_is_Some. rewrite Hst.
    pose proof (l_flight _ _ _ _ _ _ L) as Hf. pose proof (l_limit _ _ _ _ _ _ L).
    pose proof (h_held _ _ _ _ _ _ H). unfold elsewhere in Hf. lia.
  - intros [] w' s' (-> & st & Hr & ->). unfold Exchange.record_batch in Hr.
    destruct (_ !! length batch) as [n|]; [|done]. injection Hr as <-. split.
    + split; [destruct L; by split|]. split; [done|]. by apply (winv_frame w).
    + apply Hk. simpl. by rewrite length_insert.
Qed.

Lemma hold_stats w batch acked un unacked results st :
  hold w batch acked un unacked results -> length (batch_size_histogram st) = (M + 1)%nat ->
  hold (w_set_stats st w) batch acked un unacked results.
Proof. intros []. by split. Qed.

(** A batch is answered completely. *)
Definition batch_done (failed : bool) w : Prop :=
  exists acked un, hold w [] acked un [] [] /\ healthy w un failed.

Lemma WPw_execute_and_publish batch failed w acked un :
  hold w batch acked un [] [] -> (length batch <= max)%nat -> healthy w un failed ->
  WPw (Exchange.execute_and_publish_batch batch failed) w batch_done.
Proof.
  intros H Hmax Hh. unfold Exchange.execute_and_publish_batch. open_event.
  eapply WPw_record_batch; [done..|]. intros st Hst. pose proof (hold_stats _ _ _ _ _ _ _ H Hst) as H1.
  clear H. assert (healthy (w_set_stats st w) un failed) as Hh1 by done. clear Hh.
  revert H1 Hh1. generalize (w_set_stats st w). clear w Hst. intros w H Hh.
  assert (forall batch' w' acked' un' f, all_null batch' -> hold w' [] acked' un' [] [] -> healthy w' un' f ->
    WPw (let* _ := Exchange.destroy_batch batch' in Ret f) w' batch_done) as Hend.
  { intros batch' w' acked' un' f Hn H' Hh'. apply WP_bind, WPw_destroy_null; [done|].
    apply WP_ret. by exists acked', un'. }
  apply WP_bind. destruct failed.
  - apply WP_bind. eapply WP_mono; [by apply WPw_publish_unavailable|].
    intros batch' w' (Hn & H' & _). apply WP_ret. by eapply Hend.
  - destruct (Hh eq_refl) as [-> Hs]. apply WP_bind. eapply WP_mono; [by apply WPw_try_execute|].
    assert (forall w', hold w' batch acked [] [] [] ->
      WPw (let* _ := Gateway.enter_fail_stop in
           let* batch := Exchange.publish_unavailable batch in Ret (batch, true)) w'
        (fun a w'' => WPw (let '(batch', f) := a in let* _ := Exchange.destroy_batch batch' in Ret f) w'' batch_done))
      as Hfail.
    { intros w' H'. apply WP_bind, WPw_enter_fail_stop; [by eapply hold_winv|]. intros n.
      apply WP_bind. eapply WP_mono; [by apply WPw_publish_unavailable, hold_fail_stopped|].
      intros batch' w'' (Hn & H'' & _). apply WP_ret. by eapply Hend. }
    intros [[results|err]|] w'; [|apply Hfail..]. intros (H' & Hs' & Hl).
    rewrite bool_decide_true by done. cbn [negb]. apply WP_bind.
    eapply WP_mono; [by apply WPw_publish_results|]. intros batch' w'' (Hn & H'' & He).
    apply WP_ret. eapply Hend; [done..|]. intros _. by rewrite He.
Qed.

(** ** The loops *)

Context (Hmax : (1 <= max)%nat).

(** One more request is in the hands of the worker. *)
Lemma hold_pop w batch acked un a n :
  hold w batch acked un [] [] -> owner_ (aer_completion a) = true -> wf_request (aer_request a) ->
  hold (w_pop (aer_request a) (w_set_signals n w)) (batch ++ [a]) acked un [] [].
Proof.
  intros [H1 H2 H3 H4 H5 H6 H7 H8 H9 H10] Ha Hwf. split; try done; simpl.
  - rewrite length_app, H1. simpl. lia.
  - rewrite Forall_app. by split; [|apply Forall_singleton].
  - rewrite Forall_app. by split; [|apply Forall_singleton].
  - rewrite fmap_app, !app_assoc. apply sublist_app; [|done]. by rewrite <- app_assoc.
  - intros Hn. rewrite H10 by done. by rewrite fmap_app, !app_assoc.
Qed.

Lemma hold_signals w batch acked un n :
  hold w batch acked un [] [] -> hold (w_set_signals n w) batch acked un [] [].
Proof. by intros []. Qed.

Lemma WPw_drain_batch w batch acked un Q :
  hold w batch acked un [] [] -> (length batch <= max)%nat ->
  (forall w' batch', hold w' batch' acked un [] [] -> (length batch' <= max)%nat ->
     w_engine w' = w_engine w -> Q batch' w') ->
  WPw (Exchange.drain_batch max batch) w Q.
Proof.
  intros H Hl HQ.
  apply (WP_iter _ _ _ (fun batch w' => hold w' batch acked un [] [] /\ (length batch <= max)%nat /\
    w_engine w' = w_engine w)); [done|].
  clear H Hl. intros batch' w' (H & Hl & He). case_bool_decide as Hlt; cbn [negb]; [|apply WP_ret; by apply HQ].
  open_event. apply WPw_shared; [apply H|done|]. intros [a|] n Hx w1; simpl in Hx; subst w1; cbn [worker_note].
  - destruct Hx as [Ha Hwf]. pose proof (hold_pop _ _ _ _ a n H Ha Hwf) as H1.
    split; [by eapply hold_winv|]. apply WP_ret. split_and!; [done| |done]. rewrite length_app. simpl. lia.
  - pose proof (hold_signals _ _ _ _ n H) as H1. split; [by eapply hold_winv|]. apply WP_ret. by apply HQ.
Qed.

(** A request was dropped by an exception; what follows is the stop. *)
Definition thrown w : Prop :=
  winv w /\ exists acked un, forall n, hold (fail_stopped n w) [] acked un [] [].

Lemma WPw_drop a w acked un site Q :
  hold w [a] acked un [] [] -> w_throws w site = true -> site = BatchReserve \/ site = BatchDrainHook ->
  (forall w', thrown w' -> Q tt w') -> WPw (Exchange.destroy_batch [a]) w Q.
Proof.
  intros H Ht Hsite HQ. pose proof (h_active _ _ _ _ _ _ H) as [Ha _]%Forall_cons_1.
  unfold Exchange.destroy_batch. cbn [for_each]. unfold Gateway.release. rewrite Ha. open_event.
  assert (forall n, winv (w_release (w_set_signals n w)) /\
    hold (fail_stopped n (w_release (w_set_signals n w))) [] acked un [] []) as Hd.
  { intros n. destruct H as [H1 H2 H3 H4 H5 H6 H7 H8 H9 H10].
    assert (no_drop w -> False) as Hnd by (intros [? ?]; destruct Hsite; congruence).
    assert (hold (fail_stopped n (w_release (w_set_signals n w))) [] acked un [] []) as H.
    { split; simpl; try done.
      - by rewrite H1.
      - rewrite app_nil_r. etrans; [|exact H9]. rewrite (app_assoc acked). by apply sublist_inserts_r. }
    split; [|done]. apply hold_winv in H. by revert H; apply winv_frame. }
  apply WPw_shared; [simpl; by rewrite (h_held _ _ _ _ _ _ H)|destruct Hsite; subst; auto|]. intros [] n _ w1.
  split; [apply (Hd n)|]. apply WP_ret, HQ. split; [apply (Hd n)|]. exists acked, un. intros m.
  destruct (Hd m) as [_ []]. by split.
Qed.

Lemma WPw_worker_body failed w :
  batch_done failed w ->
  WPw (Exchange.worker_body max failed) w
    (fun t w' => match t with
     | inl f => batch_done f w'
     | inr false => w_saw_end w' = true /\ batch_done failed w'
     | inr true => thrown w'
     end).
Proof.
  intros (acked & un & H & Hh). unfold Exchange.worker_body. open_event.
  apply WPw_shared; [apply H|by destruct H|]. intros [a|] n Hx w1; simpl in Hx; subst w1; cbn [worker_note].
  2:{ pose proof (hold_signals _ _ _ _ n H) as H1.
      assert (hold (w_end (w_set_signals n w)) [] acked un [] []) as H2 by (by destruct H1; split).
      split; [by eapply hold_winv|]. apply WP_ret. split; [done|]. by exists acked, un. }
  destruct Hx as [Ha Hwf]. pose proof (hold_pop _ _ _ _ a n H Ha Hwf) as H1.
  split; [by eapply hold_winv|]. set (w1 := w_pop _ _) in *.
  assert (healthy w1 un failed) as Hh1 by done. clearbody w1. simpl in H1.
  apply WPw_throws; [intros Ht; apply WP_bind; eapply WPw_drop; eauto; intros; by apply WP_ret|].
  apply WPw_throws; [intros Ht; apply WP_bind; eapply WPw_drop; eauto; intros; by apply WP_ret|].
  apply WP_bind. eapply WPw_drain_batch; [done|simpl; lia|]. intros w' batch' H2 Hl He.
  apply WP_bind. eapply WP_mono; [eapply WPw_execute_and_publish; [done..|]|].
  - intros Hf. rewrite He. by apply Hh1.
  - intros f w'' Hd. by apply WP_ret.
Qed.

Lemma WPw_fail_remaining w acked un :
  hold w [] acked un [] [] ->
  WPw Exchange.fail_remaining w (fun _ w' => w_saw_end w' = true /\ exists un', hold w' [] acked un' [] []).
Proof.
  intros H. apply (WP_iter _ _ _ (fun _ w' => exists un', hold w' [] acked un' [] [])); [by exists un|].
  clear H. intros [] w' [un' H]. open_event.
  apply WPw_shared; [apply H|by destruct H|]. intros [a|] n Hx w1; simpl in Hx; subst w1; cbn [worker_note].
  - destruct Hx as [Ha Hwf]. pose proof (hold_pop _ _ _ _ a n H Ha Hwf) as H1.
    split; [by eapply hold_winv|]. pose proof (fun m => hold_unavailable _ _ _ _ _ m H1) as H2.
    apply WP_bind, WPw_publish_for; [done|simpl; lia|by apply (hold_popped _ _ _ _ _ _ _ H1)|apply unavailable_key|by eapply winv_frame; [..|eapply hold_winv, (H2 0%nat)]|].
    intros m. apply WP_bind, WPw_destroy_null; [by constructor|]. apply WP_ret. by exists (un' ++ [aer_request a]).
  - assert (hold (w_end (w_set_signals n w')) [] acked un' [] []) as H2
      by (destruct (hold_signals _ _ _ _ n H); by split).
    split; [by eapply hold_winv|]. apply WP_ret. split; [done|]. by exists un'.
Qed.

(** The whole thread: when it returns, both queues are closed for it, it owes
    nothing, and it has answered all that it did not drop. *)
Definition worker_finished w : Prop :=
  w_done w = true /\ w_held w = 0%nat /\ w_owes_wake w = false /\ (w_must_stop w = true -> w_stopped w = true) /\
  (no_drop w -> length (w_answered w) = length (w_popped w)).

Lemma hold_all_answered w acked un :
  hold w [] acked un [] [] -> no_drop w -> length (w_answered w) = length (w_popped w).
Proof.
  intros [_ _ _ _ _ _ _ (rs & ans & b1 & b2 & D1 & _ & D3 & D4 & _) _ H10] Hn.
  destruct (runs_summarize _ _ _ _ D1) as (_ & _ & Hl). apply (f_equal length) in D3.
  rewrite length_zip_with, length_fmap, Hl, Nat.min_id in D3.
  rewrite D4, H10 by done. rewrite !length_app, length_fmap. simpl. lia.
Qed.

Lemma WPw_worker_loop w :
  batch_done false w -> WPw (Exchange.worker_loop max) w (fun _ => worker_finished).
Proof.
  intros H. unfold Exchange.worker_loop. apply WP_bind.
  assert (forall w acked un, w_saw_end w = true -> hold w [] acked un [] [] ->
    WPw (share ResponseClose ;; Gateway.notify) w (fun _ => worker_finished)) as Hclose.
  { clear w H. intros w acked un He H. open_event.
    apply WPw_shared; [split; [done|apply H]|done|]. intros [] n _ w1. subst w1.
    assert (winv w) as Hw by (by eapply hold_winv).
    split; [by revert Hw; apply winv_frame|]. apply WPw_notify; [by revert Hw; apply winv_frame|].
    intros m. pose proof (hold_all_answered _ _ _ H). destruct H. by split_and!. }
  eapply WP_mono; [apply (WP_iter _ _ _ batch_done _ _ _
    (fun (threw : bool) w' => if threw then thrown w' else w_saw_end w' = true /\ exists f, batch_done f w')) | ].
  - done.
  - intros failed w' Hd. eapply WP_mono; [by apply WPw_worker_body|].
    intros [f|[]] w'' Hd'; [done..|]. destruct Hd'. eauto.
  - intros [] w' Hd.
    + destruct Hd as (Hw & acked & un & Hd). do 2 apply WP_bind. apply WPw_enter_fail_stop; [done|].
      intros n. eapply WP_mono; [exact (WPw_fail_remaining _ _ _ (Hd n))|]. intros [] w'' (He & un' & H'). eauto.
    + destruct Hd as (He & f & acked & un & H' & _). cbn [bind]. eauto.
Qed.

End worker.
