(* ===== verification/GatewayInv.v ===== *)
(** * What the gateway thread maintains

    For every connection: its parser has read exactly the bytes that were
    received, the requests in them were admitted, wait in [pending_requests], or
    are being handled, in their order; and what was sent plus what is buffered
    are the responses that were drained for it, in their order.  A connection
    that is closing gets no further than a prefix. *)
From S2P Require Import Prelude Types Bytes OrderBook Journal Posix JournalStorage DurableEngine Wire WireCodec WireParser.
From S2P Require Import Threads BoundedQueue GatewayTypes Connection Gateway Exchange Pipeline PipelineInv.
Import Limiter.

(** ** Streams of a connection *)

(** The requests that a stream of bytes contains. *)
Definition requests_in (limit : nat) (bytes : list byte) : list (Wire.WireEnvelope Wire.ClientMessage) :=
  match Wire.feed (Wire.new_parser limit) bytes with
  | Returned _ r => Wire.messages r
  | _ => []
  end.

Lemma requests_in_parses limit bytes :
  wf_bytes bytes -> exists r, parses limit bytes (requests_in limit bytes) r.
Proof.
  intros Hw. destruct (new_parser_ok limit) as (Hok & Hwait & Hu).
  destruct (feed_spec (Wire.new_parser limit) bytes Hok eq_refl Hwait Hw)
    as (ms & r & p' & res & Hp & E & _ & Hms & _).
  exists r. unfold requests_in. rewrite E, Hms. by rewrite Hu in Hp.
Qed.

Lemma parses_requests_in limit bytes ms r :
  wf_bytes bytes -> parses limit bytes ms r -> requests_in limit bytes = ms.
Proof.
  intros Hw Hp. destruct (requests_in_parses limit bytes Hw) as [r' Hp'].
  by destruct (parses_deterministic _ _ _ _ _ _ Hp' Hp).
Qed.

(** More bytes, more requests. *)
Lemma requests_in_mono limit p s :
  wf_bytes p -> wf_bytes s -> requests_in limit p `prefix_of` requests_in limit (p ++ s).
Proof.
  intros Hp Hs. destruct (requests_in_parses limit p Hp) as [[rest|e] H].
  - destruct (parses_rest _ _ _ _ Hp H) as (_ & Hr & _).
    assert (wf_bytes (rest ++ s)) as Hw by (by apply wf_bytes_app).
    destruct (requests_in_parses limit _ Hw) as [r' H'].
    rewrite (parses_requests_in limit (p ++ s) (requests_in limit p ++ requests_in limit (rest ++ s)) r'); [|by apply wf_bytes_app|by eapply parses_app].
    by apply prefix_app_r.
  - rewrite (parses_requests_in limit (p ++ s) (requests_in limit p) (inr e)); [done|by apply wf_bytes_app|].
    by apply parses_app_error.
Qed.

(** Decoded requests are well formed. *)
Definition wf_envelope (e : Wire.WireEnvelope Wire.ClientMessage) : Prop :=
  wf_client_message (Wire.message e) /\ is_u64 (Wire.request_id e).

Lemma parses_wf limit bytes ms r :
  wf_bytes bytes -> parses limit bytes ms r ->
  Forall (fun e => wf_envelope e) ms.
Proof.
  intros Hw H. revert Hw. induction H as [| | |bytes d ms r Hd _ IH]; intros Hw; [by constructor..|].
  constructor; [|apply IH; by apply wf_drop].
  rewrite decode_client_slices in Hd by (by apply wf_take). injection Hd as Hd. destruct d as [e n].
  by apply frame_slices_inl in Hd as (Hm & Hid & _); [|by apply wf_take].
Qed.

Lemma wf_engine_request c e : wf_envelope e -> wf_request (to_engine_request c e).
Proof.
  unfold wf_envelope, wf_request, to_engine_request. intros [Hm Hid]. split; [|by destruct (Wire.message e)].
  revert Hm. destruct (Wire.message e) as [m|o]; simpl; [|done].
  unfold to_domain_order, side_from_wire_raw, wf_order. simpl. intros (? & ? & ? & ?). split_and!; try done.
  unfold is_u8 in *. rewrite Z.mod_small by lia. lia.
Qed.

Lemma to_engine_request_connection c e : request_connection (to_engine_request c e) = c.
Proof. unfold to_engine_request. by destruct (Wire.message e). Qed.

(** The bytes a response is sent as. *)
Definition response_bytes (r : EngineResponse) : list byte :=
  match Gateway.to_wire_response r with
  | Some e => match Wire.encode_server_frame e with inl bytes => bytes | inr _ => [] end
  | None => []
  end.

Definition requests_for (c : ConnectionId) (l : list EngineRequest) : list EngineRequest :=
  filter (fun r => request_connection r = c) l.
Definition responses_for (c : ConnectionId) (l : list EngineResponse) : list EngineResponse :=
  filter (fun r => Gateway.response_connection_id r = c) l.
Definition pending_for (c : ConnectionId) (l : list Gateway.PendingRequest) : list Gateway.PendingRequest :=
  filter (fun r => Gateway.pr_connection_id r = c) l.

(** The stream of responses to a connection. *)
Definition response_stream (c : ConnectionId) (l : list EngineResponse) : list byte :=
  concat (response_bytes <$> responses_for c l).

Lemma response_stream_app c l r :
  response_stream c (l ++ [r]) =
    response_stream c l ++ if bool_decide (Gateway.response_connection_id r = c) then response_bytes r else [].
Proof.
  unfold response_stream, responses_for. rewrite filter_app, fmap_app, concat_app. f_equal.
  case_bool_decide; [rewrite filter_cons_True|rewrite filter_cons_False]; simpl; try done. by rewrite app_nil_r.
Qed.

Lemma requests_for_app c l r :
  requests_for c (l ++ [r]) =
    requests_for c l ++ if bool_decide (request_connection r = c) then [r] else [].
Proof.
  unfold requests_for. rewrite filter_app. f_equal.
  case_bool_decide; [rewrite filter_cons_True|rewrite filter_cons_False]; done.
Qed.

Section gateway.
  (** the limits on the input and the output of a connection *)
  Context (limit outmax : nat).
  Implicit Types (g : GatewayState) (i : Gateway.Impl) (c : Gateway.Connection).

(** What holds at every moment of every open connection. *)
Definition ginv g : Prop :=
  forall fd x, g_ids g !! fd = Some x ->
  exists received sent, g_fds g !! fd = Some (ConnectionFd received sent) /\ wf_bytes received /\
    requests_for x (g_admitted g) `prefix_of` (to_engine_request x <$> requests_in limit received) /\
    sent `prefix_of` response_stream x (g_drained g).

(** The messages of a chunk that are still to be handled, and for whom. *)
Abbreviation current := (option (Z * list (Wire.WireEnvelope Wire.ClientMessage))).
Definition todo_for (cur : current) (fd : Z) : list (Wire.WireEnvelope Wire.ClientMessage) :=
  match cur with Some (fd', ms) => if bool_decide (fd' = fd) then ms else [] | None => [] end.
Definition busy (cur : current) (fd : Z) : Prop :=
  match cur with Some (fd', _) => fd' = fd | None => False end.

Definition parser_at (p : Wire.ClientStreamParser) (r : list byte + Wire.WireCodecError) : Prop :=
  parser_ok p /\ Wire.maximum_buffered_bytes_ p = limit /\
  match r with
  | inl rest => Wire.failure_ p = None /\ unread p = rest
  | inr e => Wire.failure_ p = Some e
  end.

Record conn_ok (cur : current) (pend : list Gateway.PendingRequest) g fd c : Prop := {
  co_fd : Gateway.descriptor c = fd;
  co_open : 0 <= fd;
  co_id : g_ids g !! fd = Some (Gateway.id c);
  co_streams : exists received sent ms r,
    g_fds g !! fd = Some (ConnectionFd received sent) /\ wf_bytes received /\
    parses limit received ms r /\ parser_at (Gateway.parser c) r /\
    (let admitted := requests_for (Gateway.id c) (g_admitted g) in
     let parsed := to_engine_request (Gateway.id c) <$> ms in
     if Gateway.closing c || g_closed g then admitted `prefix_of` parsed
     else admitted ++ (to_engine_request (Gateway.id c) <$>
            ((Gateway.pr_request <$> pending_for (Gateway.id c) pend) ++ todo_for cur fd)) = parsed) /\
    (let queued := sent ++ Output.pending (Gateway.output c) in
     let stream := response_stream (Gateway.id c) (g_drained g) in
     if Gateway.closing c then queued `prefix_of` stream else queued = stream);
  co_failed : Wire.failure_ (Gateway.parser c) <> None -> Gateway.closing c = true \/ busy cur fd;
  co_buffer : Output.buffer_ok (Gateway.output c);
  co_size : (Output.pending_size (Gateway.output c) <= outmax)%nat;
}.

(** An id that was given out before. *)
Definition used (next x : Z) : Prop := next = 0 \/ x < next.

Record gw_ok (cur : current) i g : Prop := {
  gk_queue : Gateway.has_response_queue i = true;
  gk_hook : Gateway.has_response_hook i = false;
  gk_input : maximum_input_buffer_bytes (Gateway.config i) = limit;
  gk_output : maximum_output_buffer_bytes (Gateway.config i) = outmax;
  gk_listener : 0 <= Gateway.listener_descriptor i -> g_fds g !! Gateway.listener_descriptor i = Some ListenerFd;
  gk_wakeup : g_fds g !! Gateway.wakeup_descriptor i = Some EventFdFd;
  gk_shutdown : Gateway.shutdown_started i = g_closed g;
  gk_stopped : Gateway.shutdown_started i = true -> Gateway.pending_requests i = [];
  gk_held : g_held g = 0%nat;
  gk_conns fd c : Gateway.connections i !! fd = Some c -> conn_ok cur (Gateway.pending_requests i) g fd c;
  gk_ids fd x : g_ids g !! fd = Some x -> exists c, Gateway.connections i !! fd = Some c /\ Gateway.id c = x;
  gk_unique fd fd' c c' :
    Gateway.connections i !! fd = Some c -> Gateway.connections i !! fd' = Some c' ->
    Gateway.id c = Gateway.id c' -> fd = fd';
  gk_next : 0 <= Gateway.next_connection_id i < U64_MOD;
  gk_used_conns fd c : Gateway.connections i !! fd = Some c -> used (Gateway.next_connection_id i) (Gateway.id c);
  gk_used_admitted : Forall (fun r => used (Gateway.next_connection_id i) (request_connection r)) (g_admitted g);
  gk_used_drained :
    Forall (fun r => used (Gateway.next_connection_id i) (Gateway.response_connection_id r)) (g_drained g);
  gk_used_pending :
    Forall (fun r => used (Gateway.next_connection_id i) (Gateway.pr_connection_id r)) (Gateway.pending_requests i);
  gk_paused : Gateway.pending_requests i <> [] -> Gateway.reads_paused i = true \/ is_Some cur;
  gk_count : (size (Gateway.connections i) <= maximum_connections (Gateway.config i))%nat;
  gk_pending : (length (Gateway.pending_requests i) <= kMaximumPendingRequests)%nat;
  gk_current : match cur with
               | Some (fd, ms) => is_Some (Gateway.connections i !! fd) /\
                   Forall (fun e => wf_envelope e) ms
               | None => True
               end;
  gk_wf : Forall (fun r => wf_envelope (Gateway.pr_request r)) (Gateway.pending_requests i);
}.

(** ** The invariant follows from what the code knows *)

Lemma conn_ok_ginv cur pend g fd c :
  conn_ok cur pend g fd c ->
  exists received sent, g_fds g !! fd = Some (ConnectionFd received sent) /\ wf_bytes received /\
    requests_for (Gateway.id c) (g_admitted g)
      `prefix_of` (to_engine_request (Gateway.id c) <$> requests_in limit received) /\
    sent `prefix_of` response_stream (Gateway.id c) (g_drained g).
Proof.
  intros [_ _ _ (rcv & snt & ms & r & Hfd & Hw & Hp & _ & Ha & Ho) _ _ _]. exists rcv, snt.
  rewrite (parses_requests_in _ _ _ _ Hw Hp). split_and!; [done..| |].
  - destruct (_ || _); [done|]. rewrite <- Ha. by apply prefix_app_r.
  - destruct (Gateway.closing c); [|rewrite <- Ho; by apply prefix_app_r].
    etrans; [|exact Ho]. by apply prefix_app_r.
Qed.

Lemma gw_ok_ginv cur i g : gw_ok cur i g -> ginv g.
Proof.
  intros H fd x Hx. destruct (gk_ids _ _ _ H fd x Hx) as (c & Hc & <-).
  eapply conn_ok_ginv, (gk_conns _ _ _ H), Hc.
Qed.

(** Only these parts of the state matter. *)
Definition view g := (g_fds g, g_ids g, g_held g, g_admitted g, g_drained g, g_closed g).

Lemma conn_ok_view cur pend g g' fd c : view g' = view g -> conn_ok cur pend g fd c -> conn_ok cur pend g' fd c.
Proof. unfold view. intros [= E1 E2 E3 E4 E5 E6] []. split; try done; by rewrite ?E1, ?E2, ?E4, ?E5, ?E6. Qed.

Lemma gw_ok_view cur i g g' : view g' = view g -> gw_ok cur i g -> gw_ok cur i g'.
Proof.
  intros E H. pose proof E as [= E1 E2 E3 E4 E5 E6].
  destruct H. split; try done; try (by rewrite ?E1, ?E2, ?E3, ?E4, ?E5, ?E6); eauto using conn_ok_view.
Qed.

Lemma ginv_view g g' : view g' = view g -> ginv g -> ginv g'.
Proof. unfold view, ginv. by intros [= -> -> _ -> -> _]. Qed.

(** ** Changes that leave a connection alone *)

Lemma conn_ok_same cur cur' pend pend' g g' fd c :
  conn_ok cur pend g fd c ->
  g_ids g' !! fd = g_ids g !! fd -> g_fds g' !! fd = g_fds g !! fd ->
  requests_for (Gateway.id c) (g_admitted g') = requests_for (Gateway.id c) (g_admitted g) ->
  response_stream (Gateway.id c) (g_drained g') = response_stream (Gateway.id c) (g_drained g) ->
  pending_for (Gateway.id c) pend' = pending_for (Gateway.id c) pend ->
  g_closed g' = g_closed g -> todo_for cur' fd = todo_for cur fd -> (busy cur fd -> Gateway.closing c = true \/ busy cur' fd) ->
  conn_ok cur' pend' g' fd c.
Proof.
  intros [] E1 E2 E3 E4 E5 E0 E6 E7. split; try done.
  - by rewrite E1.
  - by rewrite E2, E3, E4, E5, E0, E6.
  - intros Hf. destruct (co_failed0 Hf) as [?|?]; auto.
Qed.

(** A connection that starts closing keeps its prefixes; it may lose its
    output. *)
Lemma conn_ok_closing cur cur' pend pend' g fd c b :
  conn_ok cur pend g fd c ->
  b = Gateway.output c \/ b = Output.new_buffer ->
  conn_ok cur' pend' g fd (Gateway.set_closing (Gateway.set_output b c)).
Proof.
  intros [H1 H2 H3 (rcv & snt & ms & r & Hfd & Hw & Hp & Hpa & Ha & Ho) H5 H6 H7] Hb. split; simpl; try done.
  - exists rcv, snt, ms, r. split_and!; try done.
    + destruct (_ || _); [done|]. rewrite <- Ha. by apply prefix_app_r.
    + assert (snt ++ Output.pending b `prefix_of` snt ++ Output.pending (Gateway.output c)) as Hpre.
      { destruct Hb as [->| ->]; [done|]. rewrite app_nil_r. by apply prefix_app_r. }
      etrans; [exact Hpre|]. destruct (Gateway.closing c); [done|]. by rewrite Ho.
  - by left.
  - by destruct Hb as [->| ->]; [|apply Output.new_buffer_ok].
  - destruct Hb as [->| ->]; [done|]. unfold Output.pending_size. simpl. lia.
Qed.

Lemma set_output_same c : Gateway.set_output (Gateway.output c) c = c.
Proof. by destruct c. Qed.

Lemma size_alter {A} (f : A -> A) (m : gmap Z A) fd : size (alter f fd m) = size m.
Proof. by rewrite <- !(size_dom (D := gset Z)), dom_alter_L. Qed.

(** Changing one connection, everything else being the same. *)
Lemma gw_ok_alter cur i g f fd :
  gw_ok cur i g ->
  (forall c, Gateway.connections i !! fd = Some c -> conn_ok cur (Gateway.pending_requests i) g fd c ->
     conn_ok cur (Gateway.pending_requests i) g fd (f c) /\ Gateway.id (f c) = Gateway.id c) ->
  gw_ok cur (Gateway.alter_connection f fd i) g.
Proof.
  intros H Hf. assert (forall fd' c', alter f fd (Gateway.connections i) !! fd' = Some c' ->
    exists c, Gateway.connections i !! fd' = Some c /\ Gateway.id c' = Gateway.id c /\
      conn_ok cur (Gateway.pending_requests i) g fd' c') as Hl.
  { intros fd' c' Hc'. destruct (decide (fd = fd')) as [->|Hne].
    - rewrite lookup_alter_eq in Hc'. destruct (Gateway.connections i !! fd') as [c|] eqn:Hc; [|done].
      simpl in Hc'. injection Hc' as <-. pose proof (gk_conns _ _ _ H _ _ Hc) as Hok.
      destruct (Hf c eq_refl Hok). eauto.
    - rewrite lookup_alter_ne in Hc' by done. exists c'. split_and!; [done..|]. by apply (gk_conns _ _ _ H). }
  destruct H. split; simpl in *; try done.
  - intros fd' c' Hc'. by destruct (Hl _ _ Hc') as (c & ? & ? & ?).
  - intros fd' x Hx. destruct (gk_ids0 _ _ Hx) as (c & Hc & <-).
    destruct (decide (fd = fd')) as [->|Hne].
    + exists (f c). rewrite lookup_alter_eq, Hc. split; [done|]. by apply Hf; [|apply gk_conns0].
    + exists c. by rewrite lookup_alter_ne.
  - intros fd1 fd2 c1 c2 H1 H2. destruct (Hl _ _ H1) as (c & ? & -> & _), (Hl _ _ H2) as (c' & ? & -> & _).
    by eapply gk_unique0.
  - intros fd' c' Hc'. destruct (Hl _ _ Hc') as (c & ? & -> & _). by eapply gk_used_conns0.
  - by rewrite size_alter.
  - destruct cur as [[fd' ms]|]; [|done]. destruct gk_current0 as (Hs & ?). split; [|done].
    destruct (decide (fd = fd')) as [->|Hne]; [rewrite lookup_alter_eq|by rewrite lookup_alter_ne].
    by apply fmap_is_Some.
Qed.

Lemma gw_ok_close cur i g fd : gw_ok cur i g -> gw_ok cur (Gateway.alter_connection Gateway.set_closing fd i) g.
Proof.
  intros H. apply gw_ok_alter; [done|]. intros c _ Hc. split; [|done].
  rewrite <- (set_output_same c) at 1. eapply conn_ok_closing; [done|by left].
Qed.

Lemma gw_ok_clear_and_close cur i g fd :
  gw_ok cur i g -> gw_ok cur (Gateway.alter_connection Gateway.clear_and_close fd i) g.
Proof.
  intros H. apply gw_ok_alter; [done|]. intros c _ Hc. split; [|done]. eapply conn_ok_closing; [done|by right].
Qed.

(** [find_connection] finds the one with the id. *)
Lemma find_connection_Some cur i g x fd :
  gw_ok cur i g -> Gateway.find_connection x i = Some fd ->
  exists c, Gateway.connections i !! fd = Some c /\ Gateway.id c = x.
Proof.
  intros H. unfold Gateway.find_connection. destruct (List.find _ _) as [[fd' c]|] eqn:E; [|done].
  intros [= <-]. apply List.find_some in E as [Hin Hid]. exists c. split; [|by apply Z.eqb_eq].
  by apply elem_of_map_to_list, list_elem_of_In.
Qed.

Lemma find_connection_None i x fd c :
  Gateway.find_connection x i = None -> Gateway.connections i !! fd = Some c -> Gateway.id c <> x.
Proof.
  unfold Gateway.find_connection. destruct (List.find _ _) as [[fd' c']|] eqn:E; [done|]. intros _ Hc Hx.
  pose proof (List.find_none _ _ E (fd, c)) as Hn. simpl in Hn. rewrite Hx, Z.eqb_refl in Hn.
  apply elem_of_map_to_list, list_elem_of_In in Hc. by specialize (Hn Hc).
Qed.

End gateway.
