(* ===== verification/GatewayMoves.v ===== *)
(** * The moves of the gateway thread

    What each change of the members, of the streams and of the account does to
    [gw_ok]: receiving, admitting, keeping back, delivering, sending, accepting,
    closing. *)
From S2P Require Import Prelude Types Bytes OrderBook Journal Posix JournalStorage DurableEngine Wire WireCodec WireParser.
From S2P Require Import Threads BoundedQueue GatewayTypes Connection Gateway Exchange Pipeline PipelineInv GatewayInv.
Import Limiter.

Section moves.
  Context (limit outmax : nat).
  Implicit Types (g : GatewayState) (i : Gateway.Impl) (c : Gateway.Connection).

Abbreviation gw_ok := (gw_ok limit outmax).
Abbreviation conn_ok := (conn_ok limit outmax).

(** A connection is told from the listener and the eventfd. *)
Lemma conn_fd_ne cur i g fd c :
  gw_ok cur i g -> Gateway.connections i !! fd = Some c ->
  fd <> Gateway.wakeup_descriptor i /\
  (0 <= Gateway.listener_descriptor i -> fd <> Gateway.listener_descriptor i).
Proof.
  intros H Hc. destruct (gk_conns _ _ _ _ _ H _ _ Hc) as [_ _ _ (rcv & snt & ms & r & Hfd & _) _ _ _].
  split; [intros ->; by rewrite (gk_wakeup _ _ _ _ _ H) in Hfd|].
  intros Hl ->. by rewrite (gk_listener _ _ _ _ _ H Hl) in Hfd.
Qed.

(** ** Admitting *)

Lemma used_later x n : used n x -> 0 < n < U64_MOD -> used (add64 n 1) x.
Proof.
  unfold used. intros [?|?] Hn; [lia|]. rewrite add64_succ by (u64). destruct (n =? U64_MAX) eqn:E; reflect; lia.
Qed.

Lemma requests_for_other x y l r :
  request_connection r = y -> x <> y -> requests_for x (l ++ [r]) = requests_for x l.
Proof. intros Hr Hne. rewrite requests_for_app, bool_decide_false by congruence. apply app_nil_r. Qed.

(** The next message of the chunk was admitted. *)
Lemma gw_ok_admit_current i g fd c m ms :
  gw_ok (Some (fd, m :: ms)) i g -> Gateway.connections i !! fd = Some c -> Gateway.closing c = false ->
  Gateway.pending_requests i = [] -> g_closed g = false ->
  gw_ok (Some (fd, ms)) i (add_admitted (to_engine_request (Gateway.id c) m) g).
Proof.
  intros H Hc Hcl Hp Hg. pose proof (gk_conns _ _ _ _ _ H) as Hconns.
  pose proof (gk_used_conns _ _ _ _ _ H _ _ Hc) as Hu. pose proof (gk_unique _ _ _ _ _ H) as Huniq.
  destruct H. split; try done.
  - intros fd' c' Hc'. destruct (decide (fd' = fd)) as [->|Hne].
    + assert (c' = c) as -> by congruence. destruct (Hconns _ _ Hc) as [H1 H2 H3 (rcv & snt & mss & r & Hfd & Hw & Hpr & Hpa & Ha & Ho) H5 H6 H7].
      rewrite Hp in *. split; try done. exists rcv, snt, mss, r. split_and!; try done. simpl in *.
      rewrite Hcl, Hg in *. simpl in *. rewrite bool_decide_true in * by done. simpl in Ha.
      rewrite requests_for_app, bool_decide_true by apply to_engine_request_connection.
      by rewrite <- app_assoc.
    + eapply conn_ok_same; [by apply Hconns|done..| | | | | |]; try done; simpl.
      * eapply requests_for_other; [apply to_engine_request_connection|]. intros Hid. apply Hne.
        by eapply Huniq.
      * by rewrite !bool_decide_false by congruence.
  - simpl. apply Forall_app. split; [done|]. constructor; [|done]. by rewrite to_engine_request_connection.
  - destruct gk_current as [? ?%Forall_cons]. split; [done|tauto].
Qed.

(** The first of the pending requests was admitted. *)
Lemma gw_ok_admit_pending i g fd c pr rest :
  gw_ok None i g -> Gateway.pending_requests i = pr :: rest ->
  Gateway.connections i !! fd = Some c -> Gateway.id c = Gateway.pr_connection_id pr ->
  Gateway.closing c = false -> g_closed g = false ->
  gw_ok None (Gateway.pop_pending i) (add_admitted (to_engine_request (Gateway.id c) (Gateway.pr_request pr)) g).
Proof.
  intros H Hp Hc Hid Hcl Hg. pose proof (gk_conns _ _ _ _ _ H) as Hconns.
  pose proof (gk_used_conns _ _ _ _ _ H _ _ Hc) as Hu. pose proof (gk_unique _ _ _ _ _ H) as Huniq.
  destruct H. rewrite Hp in *. split; simpl; rewrite ?Hp; simpl; try done.
  - intros Hst. by specialize (gk_stopped Hst).
  - intros fd' c' Hc'. destruct (decide (fd' = fd)) as [->|Hne].
    + assert (c' = c) as -> by congruence. destruct (Hconns _ _ Hc) as [H1 H2 H3 (rcv & snt & mss & r & Hfd & Hw & Hpr & Hpa & Ha & Ho) H5 H6 H7].
      split; try done. exists rcv, snt, mss, r. split_and!; try done. simpl in *.
      rewrite Hcl, Hg in *. simpl in *. unfold pending_for in Ha. rewrite filter_cons_True in Ha by done.
      rewrite requests_for_app, bool_decide_true by apply to_engine_request_connection.
      simpl in Ha. by rewrite <- app_assoc.
    + assert (Gateway.id c' <> Gateway.id c) as Hid' by (intros ?; apply Hne; by eapply Huniq).
      eapply conn_ok_same; [by apply Hconns|done..| | | | | |]; try done; simpl.
      * by eapply requests_for_other; [apply to_engine_request_connection|].
      * unfold pending_for. by rewrite (filter_cons_False _ pr) by congruence.
  - apply Forall_app. split; [done|]. constructor; [|done]. by rewrite to_engine_request_connection.
  - by apply Forall_cons in gk_used_pending as [_ ?].
  - intros _. by apply gk_paused.
  - cbn [length] in gk_pending. lia.
  - by apply Forall_cons in gk_wf as [_ ?].
Qed.

(** The first of the pending requests was dropped: its connection is gone or
    closing. *)
Lemma gw_ok_drop_pending i g pr rest :
  gw_ok None i g -> Gateway.pending_requests i = pr :: rest ->
  (forall fd c, Gateway.connections i !! fd = Some c -> Gateway.id c = Gateway.pr_connection_id pr ->
     Gateway.closing c = true) ->
  gw_ok None (Gateway.pop_pending i) g.
Proof.
  intros H Hp Hcl. pose proof (gk_conns _ _ _ _ _ H) as Hconns.
  destruct H. rewrite Hp in *. split; simpl; rewrite ?Hp; simpl; try done.
  - intros Hst. by specialize (gk_stopped Hst).
  - intros fd c Hc. specialize (Hconns _ _ Hc). destruct (decide (Gateway.id c = Gateway.pr_connection_id pr)) as [Hid|Hne].
    + rewrite <- (set_output_same c).
      assert (c = Gateway.set_closing c) as Hs by (pose proof (Hcl _ _ Hc Hid); destruct c; by simplify_eq/=).
      rewrite (set_output_same c), Hs, <- (set_output_same c). eapply conn_ok_closing; [done|by left].
    + eapply conn_ok_same; [done..| | | | |]; try done. unfold pending_for.
      by rewrite (filter_cons_False _ pr) by congruence.
  - by apply Forall_cons in gk_used_pending as [_ ?].
  - intros _. by apply gk_paused.
  - cbn [length] in gk_pending. lia.
  - by apply Forall_cons in gk_wf as [_ ?].
Qed.

(** ** Keeping requests back *)

Lemma find_connection_own cur i g fd c :
  gw_ok cur i g -> Gateway.connections i !! fd = Some c ->
  Gateway.find_connection (Gateway.id c) i = Some fd.
Proof.
  intros H Hc. destruct (Gateway.find_connection (Gateway.id c) i) as [fd'|] eqn:E.
  - destruct (find_connection_Some _ _ _ _ _ _ _ H E) as (c' & Hc' & Hid). f_equal.
    exact (gk_unique _ _ _ _ _ H _ _ _ _ Hc' Hc Hid).
  - by destruct (find_connection_None _ _ _ _ E Hc eq_refl).
Qed.

Lemma gw_ok_retain i g fd c m ms :
  gw_ok (Some (fd, m :: ms)) i g -> Gateway.connections i !! fd = Some c ->
  Gateway.shutdown_started i = false ->
  gw_ok (Some (fd, ms)) (Gateway.retain_pending (Gateway.id c) i m) g /\
  exists c', Gateway.connections (Gateway.retain_pending (Gateway.id c) i m) !! fd = Some c' /\
    Gateway.id c' = Gateway.id c /\ Gateway.parser c' = Gateway.parser c.
Proof.
  intros H Hc Hsh. unfold Gateway.retain_pending. pose proof (gk_used_conns _ _ _ _ _ H _ _ Hc) as Hu.
  pose proof (gk_unique _ _ _ _ _ H) as Huniq.
  assert (forall fd', fd' <> fd -> todo_for (Some (fd, ms)) fd' = todo_for (Some (fd, m :: ms)) fd') as Htodo
    by (intros; simpl; by rewrite !bool_decide_false by congruence).
  assert (Forall (fun e => wf_envelope e) ms /\ wf_envelope m) as [Hms Hm].
  { pose proof (gk_current _ _ _ _ _ H) as [_ [? ?]%Forall_cons]. done. }
  case_bool_decide as Hfull.
  - rewrite (find_connection_own _ _ _ _ _ H Hc). apply (gw_ok_close _ _ _ _ _ fd) in H.
    simpl. rewrite lookup_alter_eq, Hc. split; [|by eexists]. destruct H. split; try done.
    + intros fd' c' Hc'. destruct (decide (fd' = fd)) as [->|Hne].
      * specialize (gk_conns _ _ Hc'). simpl in Hc'. rewrite lookup_alter_eq, Hc in Hc'. injection Hc' as <-.
        rewrite <- (set_output_same c). by eapply (conn_ok_closing _ _ _ _ _ _ _ _ (Gateway.set_closing c)); [done|left].
      * eapply conn_ok_same; [by apply gk_conns|done..| |]; [by apply Htodo|]. simpl. auto.
    + intros _. right. by eexists.
    + split; [apply gk_current|exact Hms].
  - split; [|by eexists]. pose proof (gk_conns _ _ _ _ _ H) as Hconns. destruct H. split; try done; simpl.
    + congruence.
    + intros fd' c' Hc'. destruct (decide (fd' = fd)) as [->|Hne].
      * assert (c' = c) as -> by congruence.
        destruct (Hconns _ _ Hc) as [H1 H2 H3 (rcv & snt & mss & r & Hfd & Hw & Hpr & Hpa & Ha & Ho) H5 H6 H7].
        split; try done. exists rcv, snt, mss, r. split_and!; try done. simpl in *.
        rewrite bool_decide_true in * by done. destruct (_ || _); [done|]. rewrite <- Ha. do 2 f_equal.
        unfold pending_for. rewrite filter_app, filter_cons_True, fmap_app, <- app_assoc by done. done.
      * assert (Gateway.id c' <> Gateway.id c) as Hid by (intros ?; apply Hne; by eapply Huniq).
        eapply conn_ok_same; [by apply Hconns|done..| | | |]; try done; [|by apply Htodo].
        unfold pending_for. rewrite filter_app, filter_cons_False, filter_nil by (simpl; congruence).
        by rewrite app_nil_r.
    + apply Forall_app. split; [done|]. by constructor.
    + intros _. right. by eexists.
    + rewrite length_app. simpl. lia.
    + apply Forall_app. split; [done|]. by constructor.
Qed.

Lemma gw_ok_retain_all i g fd x ms p :
  gw_ok (Some (fd, ms)) i g -> Gateway.shutdown_started i = false ->
  (exists c, Gateway.connections i !! fd = Some c /\ Gateway.id c = x /\ Gateway.parser c = p) ->
  gw_ok (Some (fd, [])) (foldl (Gateway.retain_pending x) i ms) g /\
  exists c, Gateway.connections (foldl (Gateway.retain_pending x) i ms) !! fd = Some c /\ Gateway.parser c = p.
Proof.
  revert i. induction ms as [|m ms IH]; intros i H Hsh (c & Hc & <- & <-); simpl; [eauto|].
  destruct (gw_ok_retain _ _ _ _ _ _ H Hc Hsh) as [H' Hc']. apply IH; [done| |naive_solver].
  unfold Gateway.retain_pending. case_bool_decide; [|done]. by destruct (Gateway.find_connection _ _).
Qed.

Lemma gw_ok_paused i g cur b :
  gw_ok cur i g -> (b = false -> Gateway.pending_requests i = [] \/ is_Some cur) ->
  gw_ok cur (Gateway.set_reads_paused b i) g.
Proof.
  intros [] Hb. split; try done. simpl. intros Hp. destruct b; [by left|].
  destruct (Hb eq_refl) as [?|?]; [done|by right].
Qed.

(** A chunk has been handled. *)
Lemma gw_ok_finish i g fd c :
  gw_ok (Some (fd, [])) i g -> Gateway.connections i !! fd = Some c ->
  (Wire.failure_ (Gateway.parser c) <> None -> Gateway.closing c = true) ->
  (Gateway.pending_requests i <> [] -> Gateway.reads_paused i = true) ->
  gw_ok None i g.
Proof.
  intros H Hc Hf Hp. destruct H. split; try done; [|intros; left; auto].
  intros fd' c' Hc'. destruct (decide (fd' = fd)) as [->|Hne].
  - assert (c' = c) as -> by congruence.
    destruct (gk_conns _ _ Hc) as [H1 H2 H3 H4 H5 H6 H7]. split; try done; [|intros; left; auto].
    simpl in H4. by rewrite bool_decide_true in H4 by done.
  - eapply conn_ok_same; [by apply gk_conns|done..| |]; simpl; [by rewrite bool_decide_false by congruence|auto].
Qed.

(** ** Receiving and sending *)

(** The streams of one connection change, and the connection with them. *)
Lemma gw_ok_stream cur cur' i g fd c c' received sent received' sent' :
  gw_ok cur i g -> Gateway.connections i !! fd = Some c ->
  g_fds g !! fd = Some (ConnectionFd received sent) -> Gateway.id c' = Gateway.id c ->
  conn_ok cur' (Gateway.pending_requests i) (set_fds (<[fd := ConnectionFd received' sent']> (g_fds g)) g) fd c' ->
  (forall fd', fd' <> fd -> todo_for cur' fd' = todo_for cur fd' /\ ~ busy cur fd') ->
  (is_Some cur -> is_Some cur') ->
  (match cur' with
   | Some (fd', ms) => fd' = fd /\ Forall (fun e => wf_envelope e) ms
   | None => True
   end) ->
  gw_ok cur' (Gateway.set_connections (<[fd := c']> (Gateway.connections i)) i)
    (set_fds (<[fd := ConnectionFd received' sent']> (g_fds g)) g).
Proof.
  intros H Hc Hfd Hid Hok Hcur Hsome Hcur'. destruct (conn_fd_ne _ _ _ _ _ H Hc) as [Hw Hl]. destruct H.
  assert (forall fd1 c1, <[fd := c']> (Gateway.connections i) !! fd1 = Some c1 ->
    exists c0, Gateway.connections i !! fd1 = Some c0 /\ Gateway.id c1 = Gateway.id c0) as Hids.
  { intros fd1 c1. destruct (decide (fd = fd1)) as [->|Hne].
    - rewrite lookup_insert_eq. intros [= <-]. eauto.
    - rewrite lookup_insert_ne by done. eauto. }
  split; simpl; try done.
  - intros Hlis. rewrite lookup_insert_ne by (by apply Hl). auto.
  - by rewrite lookup_insert_ne by done.
  - intros fd1 c1 Hc1. destruct (decide (fd = fd1)) as [->|Hne].
    + rewrite lookup_insert_eq in Hc1. by injection Hc1 as <-.
    + rewrite lookup_insert_ne in Hc1 by done. destruct (Hcur fd1) as [Ht Hb]; [congruence|].
      eapply conn_ok_same; [by apply gk_conns|..]; try done; simpl.
      by rewrite lookup_insert_ne.
  - intros fd1 x Hx. destruct (gk_ids _ _ Hx) as (c0 & Hc0 & <-). destruct (decide (fd = fd1)) as [->|Hne].
    + exists c'. rewrite lookup_insert_eq. split; [done|]. congruence.
    + exists c0. by rewrite lookup_insert_ne.
  - intros fd1 fd2 c1 c2 H1 H2 E. destruct (Hids _ _ H1) as (? & ? & E1), (Hids _ _ H2) as (? & ? & E2).
    eapply gk_unique; [done..|congruence].
  - intros fd1 c1 H1. destruct (Hids _ _ H1) as (? & ? & ->). eauto.
  - intros Hp. destruct (gk_paused Hp); auto.
  - by rewrite map_size_insert_Some by eauto.
  - destruct cur' as [[fd' ms]|]; [|done]. destruct Hcur' as [-> ?]. split; [|done].
    by rewrite lookup_insert_eq.
Qed.

Lemma alter_is_insert f i fd c :
  Gateway.connections i !! fd = Some c ->
  Gateway.alter_connection f fd i = Gateway.set_connections (<[fd := f c]> (Gateway.connections i)) i.
Proof.
  intros Hc. unfold Gateway.alter_connection. f_equal. apply map_eq. intros fd'.
  destruct (decide (fd = fd')) as [->|Hne].
  - by rewrite lookup_alter_eq, lookup_insert_eq, Hc.
  - by rewrite lookup_alter_ne, lookup_insert_ne.
Qed.

(** A chunk was received: the parser makes requests of it, which are still to
    be handled. *)
Lemma gw_ok_received i g fd c received sent bytes :
  gw_ok None i g -> Gateway.connections i !! fd = Some c -> Gateway.closing c = false ->
  g_fds g !! fd = Some (ConnectionFd received sent) -> wf_bytes bytes -> g_closed g = false ->
  exists p parsed, Wire.feed (Gateway.parser c) bytes = Returned p parsed /\
    Wire.error parsed = Wire.failure_ p /\
    gw_ok (Some (fd, Wire.messages parsed)) (Gateway.alter_connection (Gateway.set_parser p) fd i)
      (set_fds (<[fd := ConnectionFd (received ++ bytes) sent]> (g_fds g)) g).
Proof.
  intros H Hc Hcl Hfd Hwb Hg.
  destruct (gk_conns _ _ _ _ _ H _ _ Hc) as [H1 H2 H3 (rcv & snt & ms & r & Hfd' & Hw & Hp & (Hok & Hlim & Hr) & Ha & Ho) H5 H6 H7].
  rewrite Hfd in Hfd'. injection Hfd' as <- <-.
  destruct r as [rest|e]; [|destruct H5; [congruence|congruence|done]].
  destruct Hr as [Hf Hu]. destruct (parses_rest _ _ _ _ Hw Hp) as (_ & Hwr & Hd).
  destruct (feed_spec (Gateway.parser c) bytes Hok Hf) as (ms' & r' & p' & res & Hp' & E & (Hok' & Hm' & Hr') & Hms & He);
    [unfold waiting; by rewrite Hu|done|].
  rewrite Hlim, Hu in Hp'. exists p', res. split_and!; [done..|].
  rewrite (alter_is_insert _ _ _ _ Hc).
  assert (parses limit (received ++ bytes) (ms ++ ms') r') as Hpp by (by eapply parses_app).
  assert (wf_bytes (received ++ bytes)) as Hww by (by apply wf_bytes_app).
  eapply gw_ok_stream; try done.
  - split; simpl; try done; [|by right].
    exists (received ++ bytes), sent, (ms ++ ms'), r'. rewrite lookup_insert_eq. split_and!; try done.
    + split_and!; [done|congruence|done].
    + rewrite Hcl, Hg in *. simpl in *. rewrite bool_decide_true by done.
      rewrite app_nil_r in Ha. rewrite !fmap_app, app_assoc, Hms. by rewrite Ha.
  - intros fd' Hne. simpl. rewrite bool_decide_false by congruence. tauto.
  - split; [done|]. rewrite Hms.
    pose proof (parses_wf _ _ _ _ Hww Hpp) as [_ ?]%Forall_app. done.
Qed.

(** Some of the output was sent. *)
Lemma gw_ok_sent i g fd c received sent n b :
  gw_ok None i g -> Gateway.connections i !! fd = Some c ->
  g_fds g !! fd = Some (ConnectionFd received sent) ->
  Output.buffer_ok b -> Output.pending b = drop n (Output.pending (Gateway.output c)) ->
  gw_ok None (Gateway.alter_connection (Gateway.set_output b) fd i)
    (set_fds (<[fd := ConnectionFd received (sent ++ take n (Output.pending (Gateway.output c)))]> (g_fds g)) g).
Proof.
  intros H Hc Hfd Hb Hpb. rewrite (alter_is_insert _ _ _ _ Hc).
  eapply gw_ok_stream; try done; [|simpl; tauto].
  destruct (gk_conns _ _ _ _ _ H _ _ Hc) as [H1 H2 H3 (rcv & snt & ms & r & Hfd' & Hw & Hp & Hpa & Ha & Ho) H5 H6 H7].
  rewrite Hfd in Hfd'. injection Hfd' as <- <-. split; simpl; try done.
  - eexists _, _, ms, r. rewrite lookup_insert_eq. split_and!; try done.
    by rewrite Hpb, <- app_assoc, take_drop.
  - rewrite <- Output.length_pending, Hpb, length_drop, Output.length_pending. lia.
Qed.

(** ** Delivering responses *)

Lemma response_stream_other x l r :
  Gateway.response_connection_id r <> x -> response_stream x (l ++ [r]) = response_stream x l.
Proof. intros Hne. rewrite response_stream_app, bool_decide_false by done. apply app_nil_r. Qed.

Lemma response_stream_own x l r :
  Gateway.response_connection_id r = x -> response_stream x (l ++ [r]) = response_stream x l ++ response_bytes r.
Proof. intros Hx. by rewrite response_stream_app, bool_decide_true by done. Qed.

Lemma response_stream_mono x l r : response_stream x l `prefix_of` response_stream x (l ++ [r]).
Proof. rewrite response_stream_app. by apply prefix_app_r. Qed.

(** A connection that is closing is not sent the response. *)
Lemma conn_ok_drained_closing pend g fd c r :
  conn_ok None pend g fd c -> Gateway.closing c = true -> conn_ok None pend (add_drained r g) fd c.
Proof.
  intros [H1 H2 H3 (rcv & snt & ms & q & Hfd & Hw & Hp & Hpa & Ha & Ho) H5 H6 H7] Hcl. split; try done.
  exists rcv, snt, ms, q. split_and!; try done. simpl in *. rewrite Hcl in *.
  etrans; [exact Ho|]. apply response_stream_mono.
Qed.

(** A response was drained: the connections it is not for are as before, and
    its own is given [f]. *)
Lemma gw_ok_drained i g r f :
  gw_ok None i g -> used (Gateway.next_connection_id i) (Gateway.response_connection_id r) ->
  (forall fd c, Gateway.connections i !! fd = Some c -> Gateway.id c = Gateway.response_connection_id r ->
     conn_ok None (Gateway.pending_requests i) (add_drained r g) fd (f c) /\ Gateway.id (f c) = Gateway.id c) ->
  match Gateway.find_connection (Gateway.response_connection_id r) i with
  | Some fd => gw_ok None (Gateway.alter_connection f fd i) (add_drained r g)
  | None => gw_ok None i (add_drained r g)
  end.
Proof.
  intros H Hu Hf.
  assert (forall fd c, Gateway.connections i !! fd = Some c -> Gateway.id c <> Gateway.response_connection_id r ->
    conn_ok None (Gateway.pending_requests i) (add_drained r g) fd c) as Hother.
  { intros fd c Hc Hne. eapply conn_ok_same; [by apply (gk_conns _ _ _ _ _ H)|..]; try done; simpl.
    by apply response_stream_other. }
  pose proof (gk_used_drained _ _ _ _ _ H) as Hud.
  destruct (Gateway.find_connection _ i) as [fd|] eqn:E.
  - destruct (find_connection_Some _ _ _ _ _ _ _ H E) as (c & Hc & Hid).
    destruct (Hf _ _ Hc Hid) as [Hok Hidf]. rewrite (alter_is_insert _ _ _ _ Hc).
    pose proof (gk_unique _ _ _ _ _ H) as Huniq. destruct H. split; simpl; try done.
    + intros fd' c'. destruct (decide (fd = fd')) as [->|Hne].
      * rewrite lookup_insert_eq. by intros [= <-].
      * rewrite lookup_insert_ne by done. intros Hc'. apply Hother; [done|]. intros ?. apply Hne.
        eapply Huniq; [done..|congruence].
    + intros fd' x Hx. destruct (gk_ids _ _ Hx) as (c' & Hc' & <-). destruct (decide (fd = fd')) as [->|Hne].
      * exists (f c). rewrite lookup_insert_eq. split; [done|]. congruence.
      * exists c'. by rewrite lookup_insert_ne.
    + intros fd1 fd2 c1 c2 H1 H2 E12. apply lookup_insert_Some in H1 as [[<- <-]|[? H1]], H2 as [[<- <-]|[? H2]];
        [done|..]; eapply Huniq; eauto; congruence.
    + intros fd1 c1 [[<- <-]|[? H1]]%lookup_insert_Some; [rewrite Hidf|]; eauto.
    + apply Forall_app. split; [done|]. by constructor.
    + by rewrite map_size_insert_Some by eauto.
  - destruct H. split; simpl; try done.
    + intros fd c Hc. apply Hother; [done|]. by eapply find_connection_None.
    + apply Forall_app. split; [done|]. by constructor.
Qed.

Lemma gw_ok_deliver i g r :
  gw_ok None i g -> used (Gateway.next_connection_id i) (Gateway.response_connection_id r) ->
  gw_ok None (Gateway.deliver r i) (add_drained r g).
Proof.
  intros H Hu. unfold Gateway.deliver.
  destruct (Gateway.find_connection (Gateway.response_connection_id r) i) as [fd|] eqn:E.
  2:{ pose proof (gw_ok_drained i g r (fun c => c) H Hu) as Hd. rewrite E in Hd. apply Hd.
      intros fd c Hc Hid. by destruct (find_connection_None _ _ _ _ E Hc Hid). }
  destruct (find_connection_Some _ _ _ _ _ _ _ H E) as (c & Hc & Hid). rewrite Hc.
  assert (forall f, (conn_ok None (Gateway.pending_requests i) (add_drained r g) fd (f c) /\
      Gateway.id (f c) = Gateway.id c) ->
    gw_ok None (Gateway.alter_connection f fd i) (add_drained r g)) as Hf.
  { intros f Hfc. pose proof (gw_ok_drained i g r f H Hu) as Hd. rewrite E in Hd. apply Hd.
    intros fd' c' Hc' Hid'. assert (fd' = fd) as -> by (eapply (gk_unique _ _ _ _ _ H); [done..|congruence]).
    by assert (c' = c) as -> by congruence. }
  pose proof (gk_conns _ _ _ _ _ H _ _ Hc) as Hok.
  assert (gw_ok None (Gateway.alter_connection Gateway.clear_and_close fd i) (add_drained r g)) as Hclear.
  { apply Hf. split; [|done]. apply conn_ok_drained_closing; [|done]. eapply conn_ok_closing; [done|by right]. }
  destruct (Gateway.closing c) eqn:Hcl.
  { replace i with (Gateway.alter_connection (fun c => c) fd i) at 1; [apply Hf; split; [|done]|].
    - by apply conn_ok_drained_closing.
    - unfold Gateway.alter_connection. rewrite alter_id by done. by destruct i. }
  destruct (Gateway.to_wire_response r) as [wire|] eqn:Ew; [|done].
  unfold Gateway.queue_response. rewrite (gk_output _ _ _ _ _ H).
  unfold Gateway.queue_response_on.
  destruct (Wire.encode_server_frame wire) as [bytes|] eqn:Ee; [|done].
  destruct Hok as [H1 H2 H3 (rcv & snt & ms & q & Hfd & Hw & Hp & Hpa & Ha & Ho) H5 H6 H7].
  pose proof (Output.append_spec bytes outmax (Gateway.output c) H6) as Happ.
  destruct (Output.append bytes outmax (Gateway.output c)) as [[] b] eqn:Eb; destruct Happ as [Hb Happ].
  - rewrite (alter_is_insert _ _ _ _ Hc), Eb, <- (alter_is_insert (Gateway.set_output b) _ _ _ Hc).
    apply Hf. split; [|done]. destruct Happ as [Hpend Hsize]. split; simpl; try done.
    exists rcv, snt, ms, q. rewrite Hcl in *. split_and!; try done. simpl in *.
    rewrite response_stream_own by done. unfold response_bytes. by rewrite Ew, Ee, Hpend, app_assoc, Ho.
  - by rewrite (alter_is_insert _ _ _ _ Hc), Eb, <- (alter_is_insert Gateway.clear_and_close _ _ _ Hc).
Qed.

(** ** Opening and closing descriptors *)

Abbreviation closed_fd fd g := (set_ids (delete fd (g_ids g)) (set_fds (delete fd (g_fds g)) g)).

(** A descriptor that belongs to nobody. *)
Lemma gw_ok_open i g fd d :
  gw_ok None i g -> g_fds g !! fd = None -> gw_ok None i (set_fds (<[fd := d]> (g_fds g)) g).
Proof.
  intros H Hn. pose proof (gk_conns _ _ _ _ _ H) as Hconns. destruct H. split; simpl; try done.
  - intros Hl. rewrite lookup_insert_ne; [auto|]. intros ->. by rewrite gk_listener in Hn.
  - rewrite lookup_insert_ne; [done|]. intros ->. by rewrite gk_wakeup in Hn.
  - intros fd' c Hc. pose proof (Hconns _ _ Hc) as Hok.
    eapply conn_ok_same; [exact Hok|..]; try done; simpl. rewrite lookup_insert_ne; [done|]. intros ->.
    destruct Hok as [_ _ _ (? & ? & ? & ? & E & _) _ _ _]. congruence.
Qed.

Lemma connections_ids cur i g fd : gw_ok cur i g -> Gateway.connections i !! fd = None -> g_ids g !! fd = None.
Proof.
  intros H Hc. destruct (g_ids g !! fd) eqn:E; [|done].
  destruct (gk_ids _ _ _ _ _ H _ _ E) as (c & Hc' & _). congruence.
Qed.

(** Closing a descriptor that is not a connection. *)
Lemma gw_ok_close_fd i g fd :
  gw_ok None i g -> Gateway.connections i !! fd = None ->
  fd <> Gateway.wakeup_descriptor i ->
  (0 <= Gateway.listener_descriptor i -> fd <> Gateway.listener_descriptor i) ->
  gw_ok None i (closed_fd fd g).
Proof.
  intros H Hc Hw Hl. pose proof (connections_ids _ _ _ _ H Hc) as Hid.
  pose proof (gk_conns _ _ _ _ _ H) as Hconns. destruct H. split; simpl; try done.
  - intros Hlis. rewrite lookup_delete_ne by auto. auto.
  - by rewrite lookup_delete_ne.
  - intros fd' c Hc'. assert (fd <> fd') by congruence.
    eapply conn_ok_same; [by apply Hconns|..]; try done; simpl; by rewrite lookup_delete_ne.
  - intros fd' x. rewrite delete_id by done. apply gk_ids.
Qed.

(** Closing the listener. *)
Lemma gw_ok_close_listener i g :
  gw_ok None i g -> 0 <= Gateway.listener_descriptor i ->
  gw_ok None (Gateway.set_listener (-1) i) (closed_fd (Gateway.listener_descriptor i) g).
Proof.
  intros H Hl. pose proof (gk_listener _ _ _ _ _ H Hl) as Hlis.
  assert (gw_ok None (Gateway.set_listener (-1) i) g) as H' by (destruct H; split; simpl; try done; lia).
  apply gw_ok_close_fd; [done|..|simpl; lia].
  - simpl. destruct (Gateway.connections i !! Gateway.listener_descriptor i) as [c|] eqn:Hc; [|done].
    by destruct (conn_fd_ne _ _ _ _ _ H Hc) as [_ Hne], (Hne Hl).
  - simpl. intros E. pose proof (gk_wakeup _ _ _ _ _ H) as Hw. rewrite <- E in Hw. congruence.
Qed.

(** A connection was erased, which closes its descriptor. *)
Lemma gw_ok_erase i g fd c :
  gw_ok None i g -> Gateway.connections i !! fd = Some c ->
  gw_ok None (Gateway.set_connections (delete fd (Gateway.connections i)) i) (closed_fd fd g).
Proof.
  intros H Hc. destruct (conn_fd_ne _ _ _ _ _ H Hc) as [Hw Hl].
  pose proof (gk_conns _ _ _ _ _ H) as Hconns. destruct H. split; simpl; try done.
  - intros Hlis. rewrite lookup_delete_ne by auto. auto.
  - by rewrite lookup_delete_ne.
  - intros fd' c' [Hne Hc']%lookup_delete_Some.
    eapply conn_ok_same; [by apply Hconns|..]; try done; simpl; by rewrite lookup_delete_ne.
  - intros fd' x [Hne Hx]%lookup_delete_Some. destruct (gk_ids _ _ Hx) as (c' & ? & ?). exists c'.
    by rewrite lookup_delete_ne.
  - intros fd1 fd2 c1 c2 [_ H1]%lookup_delete_Some [_ H2]%lookup_delete_Some. by eapply gk_unique.
  - intros fd1 c1 [_ H1]%lookup_delete_Some. eauto.
  - rewrite map_size_delete_Some by eauto. lia.
Qed.

(** A new connection. *)
Lemma gw_ok_emplace i g fd :
  gw_ok None i g -> Gateway.connections i !! fd = None -> 0 <= fd ->
  g_fds g !! fd = Some (ConnectionFd [] []) -> Gateway.next_connection_id i <> 0 ->
  (size (Gateway.connections i) < maximum_connections (Gateway.config i))%nat ->
  let x := Gateway.next_connection_id i in
  let i' := Gateway.set_next_connection_id (add64 x 1) i in
  gw_ok None
    (Gateway.set_connections
       (<[fd := Gateway.mkConnection x fd (Wire.new_parser (maximum_input_buffer_bytes (Gateway.config i')))
                  Output.new_buffer false]> (Gateway.connections i')) i')
    (set_ids (<[fd := x]> (g_ids g)) g).
Proof.
  intros H Hc Hfd0 Hfd Hn Hsize x i'. pose proof (gk_conns _ _ _ _ _ H) as Hconns.
  assert (forall y, used x y -> used (add64 x 1) y) as Hlater
    by (intros y Hy; apply used_later; [done|]; pose proof (gk_next _ _ _ _ _ H); lia).
  assert (used (add64 x 1) x) as Hux.
  { pose proof (gk_next _ _ _ _ _ H). unfold used. rewrite add64_succ by u64.
    destruct (x =? U64_MAX); [by left|right; lia]. }
  assert (forall y, used x y -> y <> x) as Hne by (intros y [?|?]; [done|lia]).
  assert (requests_for x (g_admitted g) = []) as Hr
    by (apply filter_none; eapply Forall_impl; [apply (gk_used_admitted _ _ _ _ _ H)|]; intros; by apply Hne).
  assert (response_stream x (g_drained g) = []) as Hs.
  { unfold response_stream, responses_for. rewrite filter_none; [done|].
    eapply Forall_impl; [apply (gk_used_drained _ _ _ _ _ H)|]. intros. by apply Hne. }
  assert (pending_for x (Gateway.pending_requests i) = []) as Hp
    by (apply filter_none; eapply Forall_impl; [apply (gk_used_pending _ _ _ _ _ H)|]; intros; by apply Hne).
  destruct H. split; simpl; try done.
  - intros fd' c'. destruct (decide (fd = fd')) as [<-|Hd].
    + rewrite lookup_insert_eq. intros [= <-]. rewrite gk_input.
      destruct (new_parser_ok limit) as (Hok & Hwait & Hu).
      split; simpl; try done; [by rewrite lookup_insert_eq| |apply Output.new_buffer_ok|unfold Output.pending_size; simpl; lia].
      exists [], [], [], (inl []). split_and!; try done.
      * by constructor.
      * apply parses_wait; [simpl; lia|done].
      * fold x. rewrite Hr, Hp. by destruct (g_closed g).
    + rewrite lookup_insert_ne by done. intros Hc'.
      eapply conn_ok_same; [by apply Hconns|..]; try done; simpl. by rewrite lookup_insert_ne.
  - intros fd' y. destruct (decide (fd = fd')) as [<-|Hd].
    + rewrite !lookup_insert_eq. intros [= <-]. by eexists.
    + rewrite !lookup_insert_ne by done. apply gk_ids.
  - intros fd1 fd2 c1 c2 [[<- <-]|[? H1]]%lookup_insert_Some [[<- <-]|[? H2]]%lookup_insert_Some; [done|..]; simpl.
    + intros E. by destruct (Hne (Gateway.id c2)); [by eapply gk_used_conns|].
    + intros E. by destruct (Hne (Gateway.id c1)); [by eapply gk_used_conns|].
    + by eapply gk_unique.
  - apply add64_range.
  - intros fd1 c1 [[<- <-]|[? H1]]%lookup_insert_Some; [done|]. apply Hlater. by eapply gk_used_conns.
  - eapply Forall_impl; [exact gk_used_admitted|]. intros r ?. by apply Hlater.
  - eapply Forall_impl; [exact gk_used_drained|]. intros r ?. by apply Hlater.
  - eapply Forall_impl; [exact gk_used_pending|]. intros r ?. by apply Hlater.
  - rewrite map_size_insert_None by done. lia.
Qed.

(** Shutdown begins: the pending requests are dropped and nothing more is
    admitted. *)
Lemma gw_ok_shutdown i g :
  gw_ok None i g -> gw_ok None (Gateway.set_pending_requests [] (Gateway.set_shutdown_started i)) (set_closed g).
Proof.
  intros H. pose proof (gk_conns _ _ _ _ _ H) as Hconns. destruct H. split; simpl; try done; [|lia].
  intros fd c Hc. destruct (Hconns _ _ Hc) as [H1 H2 H3 (rcv & snt & ms & q & Hfd & Hw & Hp & Hpa & Ha & Ho) H5 H6 H7].
  split; try done. exists rcv, snt, ms, q. split_and!; try done. simpl in *. rewrite orb_true_r.
  destruct (_ || _); [done|]. rewrite <- Ha. by apply prefix_app_r.
Qed.

End moves.
