(* ===== verification/GatewayLoop.v ===== *)
(** * The gateway thread

    The loop of [run] keeps [gw_ok], uses descriptors only while they are open,
    never ends the process, and goes to sleep only when nothing waits for it that
    would not wake it. *)
From S2P Require Import Prelude Types Bytes OrderBook Journal Posix JournalStorage DurableEngine Wire WireCodec WireParser.
From S2P Require Import Threads BoundedQueue GatewayTypes Connection Gateway Exchange Pipeline PipelineInv.
From S2P Require Import GatewayInv GatewayMoves.
Import Limiter.

Section loop.
  Context {W : Type} `{!Posix W}.
  Context (N M : nat) (HN : (0 < N)%nat) (HM : (0 < M)%nat) (limit outmax : nat).
  (** what the worker keeps *)
  Context (winv : @WorkerState W -> Prop).
  Implicit Types (g : GatewayState) (i : Gateway.Impl) (s : SharedState) (w : @WorkerState W).

Abbreviation gw_ok := (gw_ok limit outmax).
Abbreviation ginv := (ginv limit).

Definition inv g (r : @WorkerState W * ControlState) s : Prop :=
  linked N M g r.1 r.2 s /\ ginv g /\ winv r.1.

Abbreviation WPg := (WP gateway_step gateway_ok inv).

(** What the thread has noticed. *)
Definition flags g :=
  (g_unseen_responses g, g_unseen_close g, g_unseen_stop g, g_saw_close g, g_saw_drained g,
   g_saw_items g, g_blocked g).

Lemma linked_account g g' w c s :
  view g' = view g -> flags g' = flags g -> linked N M g w c s -> linked N M g' w c s.
Proof.
  unfold view, flags. intros [= _ _ E1 E2 E3 E4] [= F1 F2 F3 F4 F5 F6 F7] [].
  split; rewrite ?E1, ?E2, ?E3, ?E4, ?F1, ?F2, ?F3, ?F4, ?F5, ?F6, ?F7; done.
Qed.

Lemma failed_call_quiet e g g' : failed_call e g g' -> view g' = view g /\ flags g' = flags g.
Proof. unfold failed_call. destruct (e =? EINTR); [by intros (n & _ & ->)|by intros ->]. Qed.

Lemma ginv_same g g' :
  g_fds g' = g_fds g -> g_ids g' = g_ids g -> g_admitted g' = g_admitted g -> g_drained g' = g_drained g ->
  ginv g -> ginv g'.
Proof. unfold GatewayInv.ginv. by intros -> -> -> ->. Qed.

(** ** Rules *)

Lemma WPg_shared {X A} (e : SharedE X) (k : X -> prog Gateway.GatewayE A) g Q :
  gateway_may e g ->
  (forall x n, gateway_learns e g x ->
     let g' := gateway_note e (set_signals n g) x in ginv g' /\ WPg (k x) g' Q) ->
  WPg (Op (Gateway.Shared e) k) g Q.
Proof.
  intros Hmay Hk. apply WP_op. intros [w c] s (L & Hg & Hw). split.
  - simpl. by eapply gateway_access_ok; [exact L|].
  - intros x g' s' (n & Hst & ->). simpl in *.
    destruct (gateway_access N M HN HM X e g w c s x n s' L Hmay Hst) as [Hl L'].
    destruct (Hk x n Hl) as [Hg' HW]. by split.
Qed.

(** The other events change neither the shared objects nor the account. *)
Lemma WPg_local {X A} (e : Gateway.GatewayE X) (k : X -> prog Gateway.GatewayE A) g Q :
  (forall s, gateway_ok X e g s) ->
  (forall s x g' s', gateway_step X e g s x g' s' ->
     s' = s /\ (g_held g', g_admitted g', g_drained g', g_closed g')
               = (g_held g, g_admitted g, g_drained g, g_closed g) /\
     flags g' = flags g /\ ginv g' /\ WPg (k x) g' Q) ->
  WPg (Op e k) g Q.
Proof.
  intros Hok Hk. apply WP_op. intros [w c] s (L & Hg & Hw). split; [apply Hok|].
  intros x g' s' Hst. destruct (Hk s x g' s' Hst) as (-> & [= E1 E2 E3 E4] & Hf & Hg' & HW).
  split; [|done]. split; [|done]. unfold flags in Hf. injection Hf as F1 F2 F3 F4 F5 F6 F7.
  destruct L. by split; rewrite ?E1, ?E2, ?E3, ?E4, ?F1, ?F2, ?F3, ?F4, ?F5, ?F6, ?F7.
Qed.

(** The state has changed in nothing that [gw_ok] depends on. *)
Ltac same_view H := eapply gw_ok_view; [|exact H]; done.

Ltac open_event := unfold share, call; cbn [bind].

(** The flags that matter before the thread goes to sleep. *)
Definition keep g g' : Prop :=
  g_unseen_responses g' = g_unseen_responses g /\ g_unseen_stop g' = g_unseen_stop g /\
  g_closed g' = g_closed g.

Lemma keep_refl g : keep g g.
Proof. done. Qed.
Lemma keep_trans g1 g2 g3 : keep g1 g2 -> keep g2 g3 -> keep g1 g3.
Proof. unfold keep. intuition congruence. Qed.

(** ** Admitting *)

Lemma WPg_admit fd x m i g cur cur' i1 Q :
  gw_ok cur i g -> Gateway.shutdown_started i = false -> wf_envelope m ->
  gw_ok cur' i1 (add_admitted (to_engine_request x m) g) ->
  (forall g', view g' = view (add_admitted (to_engine_request x m) g) -> keep g g' -> Q (true, i) g') ->
  (forall g', view g' = view g -> keep g g' -> g_blocked g' = true -> Q (false, i) g') ->
  WPg (Gateway.admit_request fd x m i) g Q.
Proof.
  intros H Hsh Hwf H1 Htrue Hfalse. pose proof (gw_ok_ginv _ _ _ _ _ H) as Hg.
  pose proof (gk_held _ _ _ _ _ H) as Hheld.
  unfold Gateway.admit_request. rewrite Hsh. open_event.
  apply WPg_shared; [done|]. intros [] n1 _ g1; cbn in g1; subst g1.
  { split; [by eapply ginv_same|]. apply WP_ret. by apply Hfalse. }
  split; [by eapply ginv_same|]. apply WPg_shared; [done|].
  intros [r|] n2 Hr g2; cbn in g2; subst g2.
  2:{ split; [by eapply ginv_same|]. apply WP_ret. by apply Hfalse. }
  split; [by eapply ginv_same|]. cbv zeta. open_event. apply WPg_shared.
  { split_and!; [done|by apply wf_engine_request|simpl; lia|]. simpl.
    by rewrite <- (gk_shutdown _ _ _ _ _ H). }
  intros [] n3 _ g3; cbn in g3; subst g3.
  - split; [eapply ginv_same; [..|by eapply gw_ok_ginv, H1]; done|].
    cbn [negb]. rewrite (gk_hook _ _ _ _ _ H). apply WP_ret. apply Htrue; [|done].
    unfold view. simpl. by rewrite Hheld.
  - split; [by eapply ginv_same|]. unfold Gateway.release. cbn [aer_completion negb].
    simpl in Hr. rewrite Hr. open_event. apply WPg_shared; [simpl; lia|]. intros [] n4 _ g4; cbn in g4; subst g4.
    split; [by eapply ginv_same|]. apply WP_ret. apply Hfalse; try done.
Qed.

(** The messages of a chunk: all admitted, or the rest kept back. *)
Lemma WPg_admit_messages fd ms i g c :
  gw_ok (Some (fd, ms)) i g -> Gateway.connections i !! fd = Some c -> Gateway.closing c = false ->
  Gateway.pending_requests i = [] -> Gateway.shutdown_started i = false ->
  WPg (Gateway.admit_messages fd (Gateway.id c) ms i) g
    (fun i' g' => gw_ok (Some (fd, [])) i' g' /\
       (Gateway.pending_requests i' <> [] -> Gateway.reads_paused i' = true) /\
       exists c', Gateway.connections i' !! fd = Some c' /\ Gateway.parser c' = Gateway.parser c).
Proof.
  revert g. induction ms as [|m ms IH]; intros g H Hc Hcl Hp Hsh; cbn [Gateway.admit_messages].
  - apply WP_ret. split_and!; [done|congruence|eauto].
  - pose proof (gk_current _ _ _ _ _ H) as [_ [Hm _]%Forall_cons].
    assert (g_closed g = false) as Hg by (by rewrite <- (gk_shutdown _ _ _ _ _ H)).
    pose proof (gw_ok_admit_current _ _ _ _ _ _ _ _ H Hc Hcl Hp Hg) as H1.
    apply WP_bind. eapply WPg_admit; [done..| |].
    + intros g' Hv _. apply IH; try done. by eapply gw_ok_view.
    + intros g' Hv _ _. apply WP_ret. apply (gw_ok_view _ _ _ _ _ _ Hv) in H.
      destruct (gw_ok_retain_all _ _ _ _ _ (Gateway.id c) _ (Gateway.parser c) H Hsh) as [H' Hc']; [eauto|].
      split_and!; [|done|done]. apply gw_ok_paused; [done|]. done.
Qed.

(** ** Receiving *)

Lemma alter_is_Some f fd fd' i :
  is_Some (Gateway.connections i !! fd') -> is_Some (Gateway.connections (Gateway.alter_connection f fd i) !! fd').
Proof.
  intros Hs. simpl. destruct (decide (fd = fd')) as [->|Hne];
    [rewrite lookup_alter_eq; by apply fmap_is_Some|by rewrite lookup_alter_ne].
Qed.

Lemma WPg_receive_body fd i g :
  gw_ok None i g -> is_Some (Gateway.connections i !! fd) ->
  WPg (Gateway.receive_body fd i) g
    (fun t g' => match t with
     | inl i' | inr i' => gw_ok None i' g' /\ is_Some (Gateway.connections i' !! fd)
     end).
Proof.
  intros H [c Hc]. unfold Gateway.receive_body. rewrite Hc.
  destruct (Gateway.closing c) eqn:Hcl; [apply WP_ret; eauto|].
  destruct (Gateway.reads_paused i) eqn:Hpa; [apply WP_ret; eauto|].
  destruct (Gateway.shutdown_started i) eqn:Hsh; [apply WP_ret; eauto|]. cbn [orb].
  assert (Gateway.pending_requests i = []) as Hp.
  { destruct (Gateway.pending_requests i) eqn:E; [done|].
    destruct (gk_paused _ _ _ _ _ H) as [?|[? ?]]; [by rewrite E|congruence|done]. }
  pose proof (gk_conns _ _ _ _ _ H _ _ Hc) as [Hfd _ _ (rcv & snt & _ & _ & Hfds & _) _ _ _].
  rewrite Hfd. open_event. apply WPg_local; [intros; by exists rcv, snt|].
  intros s x g' s' [-> Hx]. split; [done|].
  destruct x as [bytes|err].
  - destruct Hx as (Hwb & _ & rcv' & snt' & E & ->). rewrite Hfds in E. injection E as <- <-.
    assert (g_closed g = false) as Hg by (by rewrite <- (gk_shutdown _ _ _ _ _ H)).
    split; [done|]. split; [done|]. destruct bytes as [|b bytes].
    + rewrite app_nil_r. assert (view (set_fds (<[fd:=ConnectionFd rcv snt]> (g_fds g)) g) = view g) as Hv
        by (unfold view; simpl; by rewrite insert_id).
      split; [eapply ginv_view; [exact Hv|]; by eapply gw_ok_ginv|]. apply WP_ret. split.
      * eapply gw_ok_view; [exact Hv|]. by apply gw_ok_close.
      * apply alter_is_Some. eauto.
    + destruct (gw_ok_received _ _ _ _ _ _ _ _ (b :: bytes) H Hc Hcl Hfds Hwb Hg) as (p & parsed & E & He & H').
      split; [by eapply gw_ok_ginv|]. rewrite E. apply WP_bind.
      set (i' := Gateway.alter_connection _ _ _) in *.
      assert (Gateway.connections i' !! fd = Some (Gateway.set_parser p c)) as Hc'
        by (unfold i'; simpl; by rewrite lookup_alter_eq, Hc).
      eapply WP_mono; [by apply (WPg_admit_messages fd _ i' _ (Gateway.set_parser p c))|].
      intros i2 g2 (H2 & Hp2 & c2 & Hc2 & Hpc2). simpl in Hpc2. apply WP_ret. rewrite He.
      destruct (Wire.failure_ p) as [err|] eqn:Ef.
      * split; [|apply alter_is_Some; eauto]. eapply gw_ok_finish; [by apply gw_ok_close| | |done].
        -- simpl. by rewrite lookup_alter_eq, Hc2.
        -- done.
      * split; [|eauto]. eapply gw_ok_finish; [done..|rewrite Hpc2; congruence|done].
  - destruct (failed_call_quiet _ _ _ Hx) as [Hv Hf]. unfold view in Hv. pose proof Hv as [= _ _ -> -> -> ->].
    split_and!; [done..| |].
    + eapply ginv_view; [exact Hv|]. by eapply gw_ok_ginv.
    + assert (gw_ok None i g') as H' by (by eapply gw_ok_view).
      destruct (err =? EINTR); [apply WP_ret; eauto|].
      destruct (_ || _); apply WP_ret; (split; [|by eauto using alter_is_Some]); [done|by apply gw_ok_close].
Qed.

Lemma WPg_receive_from fd i g :
  gw_ok None i g -> is_Some (Gateway.connections i !! fd) ->
  WPg (Gateway.receive_from fd i) g (fun i' g' => gw_ok None i' g').
Proof.
  intros H Hc. apply (WP_iter _ _ _ (fun i g => gw_ok None i g /\ is_Some (Gateway.connections i !! fd))); [done|].
  clear i g H Hc. intros i g [H Hc]. eapply WP_mono; [by apply WPg_receive_body|]. by intros [i'|i'] g' [? ?].
Qed.

(** ** Draining *)

Lemma WPg_drain_pending_body i g :
  gw_ok None i g -> Gateway.shutdown_started i = false ->
  WPg (Gateway.drain_pending_body i) g
    (fun t g' => keep g g' /\ match t with
     | inl i' => gw_ok None i' g' /\ Gateway.shutdown_started i' = false
     | inr i' => gw_ok None i' g' /\ (Gateway.pending_requests i' <> [] -> g_blocked g' = true)
     end).
Proof.
  intros H Hsh. unfold Gateway.drain_pending_body. destruct (Gateway.pending_requests i) as [|pr rest] eqn:Hp.
  { apply WP_ret. split; [done|]. split; [|by rewrite <- Hp]. apply gw_ok_paused; [done|]. by left. }
  pose proof (gk_wf _ _ _ _ _ H) as Hwf. rewrite Hp in Hwf. apply Forall_cons in Hwf as [Hm _].
  assert (g_closed g = false) as Hg by (by rewrite <- (gk_shutdown _ _ _ _ _ H)).
  destruct (Gateway.find_connection (Gateway.pr_connection_id pr) i) as [fd|] eqn:E.
  2:{ apply WP_ret. split_and!; [done| |done]. eapply gw_ok_drop_pending; [done..|].
      intros fd c Hc Hid. by destruct (find_connection_None _ _ _ _ E Hc). }
  destruct (find_connection_Some _ _ _ _ _ _ _ H E) as (c & Hc & Hid). rewrite Hc.
  destruct (Gateway.closing c) eqn:Hcl.
  { apply WP_ret. split_and!; [done| |done]. eapply gw_ok_drop_pending; [done..|].
    intros fd' c' Hc' Hid'. assert (fd' = fd) as -> by (eapply (gk_unique _ _ _ _ _ H); [done..|congruence]).
    congruence. }
  pose proof (gw_ok_admit_pending _ _ _ _ _ _ _ _ H Hp Hc Hid Hcl Hg) as H1.
  apply WP_bind. eapply WPg_admit; [done..| |].
  - intros g' Hv Hk. cbn [negb]. apply WP_ret. split_and!; [done| |done]. by eapply gw_ok_view.
  - intros g' Hv Hk Hb. cbn [negb]. apply WP_ret. split_and!; [done| |done].
    apply gw_ok_paused; [by eapply gw_ok_view|done].
Qed.

Lemma WPg_drain_pending i g :
  gw_ok None i g ->
  WPg (Gateway.drain_pending_requests i) g
    (fun i' g' => gw_ok None i' g' /\ keep g g' /\
       (Gateway.pending_requests i' <> [] -> g_blocked g' = true)).
Proof.
  intros H. unfold Gateway.drain_pending_requests. destruct (Gateway.shutdown_started i) eqn:Hsh.
  { apply WP_ret. split_and!; [done..|]. by rewrite (gk_stopped _ _ _ _ _ H Hsh). }
  open_event. apply WPg_shared; [done|]. intros [] n _ g1; cbn in g1; subst g1.
  { split; [eapply ginv_same; [..|by eapply gw_ok_ginv]; done|]. apply WP_ret.
    split_and!; [same_view H|done|done]. }
  split; [eapply ginv_same; [..|by eapply gw_ok_ginv]; done|].
  apply (WP_iter _ _ _ (fun i' g' => gw_ok None i' g' /\ Gateway.shutdown_started i' = false /\ keep g g')).
  - split_and!; [same_view H|done|done].
  - intros i' g' (H' & Hsh' & Hk). eapply WP_mono; [by apply WPg_drain_pending_body|].
    intros [i2|i2] g2 (Hk2 & H2 & ?); split_and!; eauto using keep_trans.
Qed.

Lemma WPg_drain_completions i g :
  gw_ok None i g ->
  WPg (Gateway.drain_engine_completions i) g
    (fun i' g' => gw_ok None i' g' /\ g_unseen_responses g' = false /\
       g_unseen_stop g' = g_unseen_stop g /\ g_closed g' = g_closed g).
Proof.
  intros H. unfold Gateway.drain_engine_completions. rewrite (gk_queue _ _ _ _ _ H). cbn [negb].
  open_event. apply WPg_shared; [done|]. intros sz n _ g0.
  assert (view g0 = view g /\ g_unseen_stop g0 = g_unseen_stop g) as [Hv Hs]
    by (subst g0; simpl; by case_bool_decide).
  assert (gw_ok None i g0) as H0 by (by eapply gw_ok_view). split; [by eapply gw_ok_ginv|].
  assert (g_closed g0 = g_closed g) as Hcl by (by injection Hv).
  rewrite <- Hs, <- Hcl. clearbody g0. clear g H Hv Hs Hcl n sz.
  apply (WP_iter _ _ _ (fun i' g' => gw_ok None i' g' /\ g_unseen_stop g' = g_unseen_stop g0 /\ g_closed g' = g_closed g0)).
  { done. }
  intros i' g' (H & Hs & Hcl). open_event. apply WPg_shared; [done|].
  intros [r|] n Hx g1; cbn in g1; subst g1.
  - destruct Hx as [Ha Hin]. apply list_elem_of_fmap in Hin as (q & Hq & Hin).
    assert (used (Gateway.next_connection_id i') (Gateway.response_connection_id (ec_response r))) as Hu.
    { rewrite Hq. pose proof (gk_used_admitted _ _ _ _ _ H) as Hall. by eapply Forall_forall in Hall. }
    pose proof (gw_ok_deliver _ _ _ _ _ H Hu) as H1.
    split; [eapply ginv_same; [..|by eapply gw_ok_ginv, H1]; done|].
    unfold Gateway.release. rewrite Ha. open_event. apply WPg_shared; [simpl; lia|].
    intros [] n2 _ g2; cbn in g2; subst g2.
    split; [eapply ginv_same; [..|by eapply gw_ok_ginv, H1]; done|]. apply WP_ret.
    split_and!; [same_view H1|done|done].
  - split; [eapply ginv_same; [..|by eapply gw_ok_ginv]; done|]. apply WP_ret.
    split_and!; [same_view H|done..].
Qed.

(** ** Waking and stopping *)

Lemma WPg_wake i g cur Q :
  gw_ok cur i g -> (forall g', view g' = view g -> Q tt g') -> WPg Gateway.wake g Q.
Proof.
  intros H HQ. apply (WP_iter _ _ _ (fun _ g' => view g' = view g)); [done|].
  intros _ g' Hv. open_event. apply WPg_shared; [done|]. intros x n _ g1.
  split; [eapply ginv_view; [|by eapply gw_ok_ginv]; done|].
  destruct x as [?|e]; [apply WP_ret; by apply HQ|]. destruct (e =? EINTR); apply WP_ret; [done|by apply HQ].
Qed.

Lemma WPg_request_stop i g cur Q :
  gw_ok cur i g -> (forall g', view g' = view g -> Q tt g') -> WPg Gateway.request_stop g Q.
Proof.
  intros H HQ. unfold Gateway.request_stop. open_event. apply WPg_shared; [done|]. intros [] n _ g1.
  split; [eapply ginv_view; [|by eapply gw_ok_ginv]; done|].
  apply (WPg_wake i _ cur); [same_view H|]. intros g' Hv. by apply HQ.
Qed.

Lemma WPg_drain_wakeup i g Q :
  gw_ok None i g -> (forall g', view g' = view g -> Q tt g') -> WPg Gateway.drain_wakeup g Q.
Proof.
  intros H HQ. apply (WP_iter _ _ _ (fun _ g' => view g' = view g)); [done|].
  intros _ g' Hv. open_event. apply WP_op. intros [w c] s (L & Hg & Hw). split; [done|].
  intros x g1 s1 Hx. destruct x as [n|e].
  - destruct Hx as (-> & Hpos & -> & ->). split.
    + split; [|split; [by eapply ginv_view; [|exact Hg]|done]]. destruct L. split; simpl in *; auto; lia.
    + simpl. by apply WP_ret.
  - destruct Hx as (-> & Hf & _). destruct (failed_call_quiet _ _ _ Hf) as [Hv1 Hf1].
    split.
    + split; [|split; [by eapply ginv_view; [|exact Hg]|done]].
      by eapply linked_account; [..|exact L].
    + destruct (e =? EINTR); apply WP_ret; [congruence|]. apply HQ. congruence.
Qed.

(** ** Closing descriptors *)

Abbreviation closed_fd fd g := (set_ids (delete fd (g_ids g)) (set_fds (delete fd (g_fds g)) g)).

Lemma WPg_close fd g A (k : unit -> prog Gateway.GatewayE A) Q :
  is_Some (g_fds g !! fd) -> ginv (closed_fd fd g) -> WPg (k tt) (closed_fd fd g) Q ->
  WPg (Op (Gateway.Close fd) k) g Q.
Proof.
  intros Hfd Hg Hk. apply WPg_local; [done|]. intros s [] g' s' [-> ->]. by split_and!.
Qed.

Lemma WPg_begin_shutdown i g :
  gw_ok None i g ->
  WPg (Gateway.begin_shutdown_if_requested i) g
    (fun i' g' => gw_ok None i' g' /\ (g_unseen_stop g' = false \/ g_closed g' = true)).
Proof.
  intros H. unfold Gateway.begin_shutdown_if_requested. open_event.
  apply WPg_shared; [done|]. intros stop n _ g1.
  assert (gw_ok None i g1) as H1 by (subst g1; destruct stop; same_view H).
  split; [by eapply gw_ok_ginv|]. destruct stop; cbn [negb orb].
  2:{ apply WP_ret. split; [done|]. by left. }
  destruct (Gateway.shutdown_started i) eqn:Hsh.
  { apply WP_ret. split; [done|]. right. by rewrite <- (gk_shutdown _ _ _ _ _ H1). }
  clearbody g1. clear H n g. rename g1 into g, H1 into H.
  assert (forall l g', gw_ok None (Gateway.set_listener l i) g' ->
    WPg (share RequestClose ;;
         Ret (Gateway.set_pending_requests [] (Gateway.set_listener l (Gateway.set_shutdown_started i)))) g'
      (fun i' g' => gw_ok None i' g' /\ (g_unseen_stop g' = false \/ g_closed g' = true))) as Hend.
  { intros l g' H'. open_event. apply WPg_shared; [done|]. intros [] n _ g1. cbn in g1. subst g1.
    pose proof (gw_ok_shutdown _ _ _ _ H') as H2.
    split; [eapply ginv_same; [..|by eapply gw_ok_ginv]; done|]. apply WP_ret. split; [|by right].
    change (Gateway.set_pending_requests [] (Gateway.set_listener l (Gateway.set_shutdown_started i)))
      with (Gateway.set_pending_requests [] (Gateway.set_shutdown_started (Gateway.set_listener l i))).
    same_view H2. }
  cbv zeta. unfold Gateway.close_descriptor. cbn [Gateway.listener_descriptor Gateway.set_shutdown_started].
  destruct (Z.leb_spec 0 (Gateway.listener_descriptor i)) as [Hl|Hl].
  - pose proof (gw_ok_close_listener _ _ _ _ H Hl) as H1. open_event. apply WPg_close.
    + by rewrite (gk_listener _ _ _ _ _ H Hl).
    + by eapply gw_ok_ginv.
    + by apply (Hend (-1)).
  - cbn [bind]. apply (Hend (Gateway.listener_descriptor i)). by destruct i.
Qed.

Lemma WPg_shutdown_complete i g :
  gw_ok None i g ->
  WPg (Gateway.shutdown_complete i) g
    (fun b g' => gw_ok None i g' /\ g_closed g' = g_closed g /\ g_unseen_responses g' = g_unseen_responses g /\
       g_unseen_stop g' = g_unseen_stop g /\ g_blocked g' = g_blocked g /\
       if b : bool then g_saw_drained g' = true
       else g_closed g' = true -> g_unseen_close g' = false \/ g_saw_items g' = true).
Proof.
  intros H. unfold Gateway.shutdown_complete. rewrite (gk_queue _ _ _ _ _ H).
  destruct (Gateway.shutdown_started i) eqn:Hsh; cbn [negb].
  2:{ apply WP_ret. rewrite <- (gk_shutdown _ _ _ _ _ H), Hsh. split_and!; congruence || done. }
  open_event. apply WPg_shared; [done|]. intros closed n _ g1.
  destruct closed; cbn [negb]; cbn in g1; subst g1.
  2:{ split; [eapply ginv_same; [..|by eapply gw_ok_ginv]; done|]. apply WP_ret.
      split_and!; [same_view H|done..|]. intros _. by left. }
  split; [eapply ginv_same; [..|by eapply gw_ok_ginv]; done|]. apply WPg_shared; [done|].
  intros sz m _ g2. cbn in g2. subst g2. case_bool_decide as Hz; (split;
    [eapply ginv_same; [..|by eapply gw_ok_ginv]; done|]); apply WP_ret.
  - split_and!; [same_view H|done..].
  - split_and!; [same_view H|done..|]. intros _. by right.
Qed.

(** ** Sending *)

Abbreviation with_output b fd i := (Gateway.alter_connection (Gateway.set_output b) fd i).

Lemma with_output_twice b b' fd i : with_output b' fd (with_output b fd i) = with_output b' fd i.
Proof.
  unfold Gateway.alter_connection. simpl. rewrite alter_alter_eq. by destruct i.
Qed.

Lemma with_output_same fd c i :
  Gateway.connections i !! fd = Some c -> with_output (Gateway.output c) fd i = i.
Proof.
  intros Hc. rewrite (alter_is_insert _ _ _ _ Hc), set_output_same, insert_id by done. by destruct i.
Qed.

Lemma WPg_flush fd i g c :
  gw_ok None i g -> Gateway.connections i !! fd = Some c ->
  WPg (Output.flush (fun bytes => call (Gateway.Send (Gateway.descriptor c) bytes)) (Gateway.output c)) g
    (fun r g' => gw_ok None (with_output r.2 fd i) g' /\ flags g' = flags g).
Proof.
  intros H Hc. pose proof (co_fd _ _ _ _ _ _ _ (gk_conns _ _ _ _ _ H _ _ Hc)) as Hd. rewrite Hd.
  remember (flags g) as F eqn:HF. symmetry in HF.
  apply (WP_iter _ _ _ (fun b g' => gw_ok None (with_output b fd i) g' /\ flags g' = F)); [by rewrite with_output_same|].
  clear g H HF. intros b g [H HF].
  assert (Gateway.connections (with_output b fd i) !! fd = Some (Gateway.set_output b c)) as Hcb
    by (simpl; by rewrite lookup_alter_eq, Hc).
  pose proof (gk_conns _ _ _ _ _ H _ _ Hcb) as [_ _ _ (rcv & snt & _ & _ & Hfds & _) _ Hb _]. simpl in Hb.
  unfold Output.flush_body. destruct (Output.empty b); [by apply WP_ret|].
  fold (Output.pending b). open_event. apply WPg_local; [intros s; by exists rcv, snt|].
  intros s x g' s' [-> Hx]. split; [done|]. destruct x as [n|e].
  - destruct Hx as (Hn & rcv' & snt' & E & ->). rewrite Hfds in E. injection E as <- <-.
    assert (forall b', Output.buffer_ok b' -> Output.pending b' = drop (Z.to_nat n) (Output.pending b) ->
      gw_ok None (with_output b' fd i)
        (set_fds (<[fd:=ConnectionFd rcv (snt ++ take (Z.to_nat n) (Output.pending b))]> (g_fds g)) g)) as Hsent.
    { intros b' Hb' Hp'. rewrite <- (with_output_twice b).
      exact (gw_ok_sent _ _ _ _ _ _ _ _ (Z.to_nat n) b' H Hcb Hfds Hb' Hp'). }
    rewrite Output.length_pending in Hn. destruct (Output.sent_spec b (Z.to_nat n) Hb) as [Hok Hp]; [lia|].
    pose proof (Hsent _ Hok Hp) as H1. split_and!; [done..|by eapply gw_ok_ginv|].
    destruct (Z.ltb_spec 0 n) as [Hpos|Hz].
    + rewrite bool_decide_false by lia. cbv zeta.
      destruct (Output.empty _) eqn:Ee; [|by apply WP_ret].
      apply WP_ret. split; [|done]. apply Hsent; [apply Output.new_buffer_ok|].
      rewrite <- Hp. by apply Output.empty_spec in Ee as ->.
    + apply WP_ret. assert (n = 0) as -> by lia. split; [by apply Hsent|done].
  - destruct (failed_call_quiet _ _ _ Hx) as [Hv Hf]. pose proof Hv as [= _ _ -> -> -> ->].
    split_and!; [done..|eapply ginv_view; [exact Hv|]; by eapply gw_ok_ginv|].
    assert (gw_ok None (with_output b fd i) g') as H' by (by eapply gw_ok_view). rewrite HF in Hf.
    destruct (e =? EINTR); [by apply WP_ret|]. destruct (_ || _); by apply WP_ret.
Qed.

Lemma WPg_flush_output fd i g :
  gw_ok None i g -> is_Some (Gateway.connections i !! fd) ->
  WPg (Gateway.flush_output fd i) g
    (fun i' g' => gw_ok None i' g' /\ dom (Gateway.connections i') = dom (Gateway.connections i) /\
       flags g' = flags g).
Proof.
  intros H [c Hc]. unfold Gateway.flush_output. rewrite Hc. apply WP_bind.
  eapply WP_mono; [by eapply WPg_flush|]. intros [r b] g' [H' HF]. simpl in H'. apply WP_ret.
  case_bool_decide; (split_and!; [|simpl; by rewrite !dom_alter_L|done]); [|done]. by apply gw_ok_clear_and_close.
Qed.

(** ** Traversals *)

Lemma WPg_iteration_order i g Q :
  gw_ok None i g ->
  (forall order, (forall fd, fd ∈ order <-> is_Some (Gateway.connections i !! fd)) -> NoDup order -> Q order g) ->
  WPg (Gateway.iteration_order i) g Q.
Proof.
  intros H HQ. unfold Gateway.iteration_order. apply WPg_local; [done|].
  intros s order g' s' (Hperm & -> & ->). split_and!; [done..|by eapply gw_ok_ginv|]. apply WP_ret, HQ.
  - intros fd. rewrite Hperm, list_elem_of_fmap. split.
    + intros ([fd' c] & -> & Hin). apply elem_of_map_to_list in Hin. by exists c.
    + intros [c Hc]. exists (fd, c). by rewrite elem_of_map_to_list.
  - rewrite Hperm. apply NoDup_fst_map_to_list.
Qed.

Lemma WPg_flush_outputs_once i g :
  gw_ok None i g -> WPg (Gateway.flush_outputs_once i) g (fun i' g' => gw_ok None i' g' /\ flags g' = flags g).
Proof.
  intros H. unfold Gateway.flush_outputs_once. apply WP_bind, WPg_iteration_order; [done|].
  intros order Hin _. remember (flags g) as F eqn:HF. symmetry in HF.
  apply (WP_for_each _ _ _ (fun l i' g' => gw_ok None i' g' /\ flags g' = F /\
    dom (Gateway.connections i') = dom (Gateway.connections i) /\ (forall fd, fd ∈ l -> fd ∈ order)));
    [done| |by intros ? ? (? & ? & _)].
  clear g H HF. intros fd l i' g (H & HF & Hdom & Hl).
  assert (is_Some (Gateway.connections i' !! fd)) as [c Hc].
  { apply elem_of_dom. rewrite Hdom. apply elem_of_dom, Hin, Hl. set_solver. }
  assert (forall fd, fd ∈ l -> fd ∈ order) as Hl' by set_solver. rewrite Hc.
  destruct (Output.empty _); [by apply WP_ret|].
  eapply WP_mono; [apply WPg_flush_output; eauto|]. intros i2 g2 (H2 & Hd2 & HF2).
  split_and!; [done|congruence..|done].
Qed.

(** Erasing a connection. *)
Lemma WPg_erase fd i g :
  gw_ok None i g -> is_Some (Gateway.connections i !! fd) ->
  WPg (Gateway.erase_connection fd i) g
    (fun i' g' => gw_ok None i' g' /\ i' = Gateway.set_connections (delete fd (Gateway.connections i)) i /\
       flags g' = flags g).
Proof.
  intros H [c Hc]. unfold Gateway.erase_connection, Gateway.close_descriptor. rewrite Hc.
  pose proof (gk_conns _ _ _ _ _ H _ _ Hc) as [-> H0 _ (rcv & snt & _ & _ & Hfds & _) _ _ _].
  rewrite (proj2 (Z.leb_le 0 fd)) by done. pose proof (gw_ok_erase _ _ _ _ _ _ H Hc) as H1.
  open_event. apply WPg_close; [by rewrite Hfds|by eapply gw_ok_ginv|]. by apply WP_ret.
Qed.

Lemma WPg_close_if_finished fd i g :
  gw_ok None i g -> WPg (Gateway.close_if_finished fd i) g (fun i' g' => gw_ok None i' g').
Proof.
  intros H. unfold Gateway.close_if_finished. destruct (Gateway.connections i !! fd) as [c|] eqn:Hc; [|by apply WP_ret].
  destruct (_ && _); [|by apply WP_ret]. eapply WP_mono; [apply WPg_erase; eauto|]. by intros ? ? [? _].
Qed.

Lemma WPg_close_all i g :
  gw_ok None i g ->
  WPg (Gateway.close_all_connections i) g
    (fun i' g' => gw_ok None i' g' /\ Gateway.connections i' = empty /\
       Gateway.listener_descriptor i' = Gateway.listener_descriptor i /\ flags g' = flags g).
Proof.
  intros H. unfold Gateway.close_all_connections. apply WP_bind, WPg_iteration_order; [done|].
  intros order Hin Hnd. remember (flags g) as F eqn:HF. symmetry in HF.
  apply (WP_for_each _ _ _ (fun l i' g' => gw_ok None i' g' /\ flags g' = F /\ NoDup l /\
    (forall fd, fd ∈ l <-> is_Some (Gateway.connections i' !! fd)) /\
    Gateway.listener_descriptor i' = Gateway.listener_descriptor i)); [done| |].
  - clear g H HF. intros fd l i' g (H & HF & [Hfd Hl]%NoDup_cons & Hdom & Hlis).
    eapply WP_mono; [apply WPg_erase; [done|apply Hdom; set_solver]|]. intros i2 g2 (H2 & -> & HF2).
    split_and!; [done|congruence|done| |done]. intros fd'. simpl. destruct (decide (fd = fd')) as [->|Hne].
    + rewrite lookup_delete_eq. split; [done|by intros [? ?]].
    + rewrite lookup_delete_ne by done. rewrite <- Hdom. set_solver.
  - intros i' g' (H' & HF' & _ & Hdom & Hlis). split_and!; [done| |done..]. apply map_empty. intros fd.
    destruct (Gateway.connections i' !! fd) eqn:E; [|done].
    assert (fd ∈ []) as Hx by (apply Hdom; by rewrite E). by apply not_elem_of_nil in Hx.
Qed.

(** ** Accepting *)

(** A descriptor that was just accepted: nobody's yet. *)
Definition fresh_fd fd i g : Prop :=
  0 <= fd /\ g_fds g !! fd = Some (ConnectionFd [] []) /\ Gateway.connections i !! fd = None.

Lemma fresh_fd_ne fd i g :
  gw_ok None i g -> fresh_fd fd i g ->
  fd <> Gateway.wakeup_descriptor i /\ (0 <= Gateway.listener_descriptor i -> fd <> Gateway.listener_descriptor i).
Proof.
  intros H (_ & Hfd & _). split; [intros ->; by rewrite (gk_wakeup _ _ _ _ _ H) in Hfd|].
  intros Hl ->. by rewrite (gk_listener _ _ _ _ _ H Hl) in Hfd.
Qed.

(** A call that answers with a value or an error and changes nothing. *)
Lemma WPg_plain {X A} (e : Gateway.GatewayE X) (k : X -> prog Gateway.GatewayE A) i g Q :
  gw_ok None i g -> (forall s, gateway_ok X e g s) ->
  (forall s x g' s', gateway_step X e g s x g' s' -> s' = s /\ view g' = view g /\ flags g' = flags g) ->
  (forall x g', view g' = view g -> WPg (k x) g' Q) -> WPg (Op e k) g Q.
Proof.
  intros H Hok Hst Hk. apply WPg_local; [done|]. intros s x g' s' Hs. destruct (Hst _ _ _ _ Hs) as (-> & Hv & Hf).
  pose proof Hv as [= _ _ -> -> -> ->]. split_and!; [done..| |by apply Hk].
  eapply ginv_view; [exact Hv|]. by eapply gw_ok_ginv.
Qed.

Lemma plain_call_quiet {A} (x : A + errno) g g' : plain_call x g g' -> view g' = view g /\ flags g' = flags g.
Proof. destruct x; [by intros ->|apply failed_call_quiet]. Qed.
Lemma plain_check_quiet x g g' : plain_check x g g' -> view g' = view g /\ flags g' = flags g.
Proof. destruct x; [apply failed_call_quiet|by intros ->]. Qed.

Lemma WPg_set_flag fd which flag i g Q :
  gw_ok None i g -> is_Some (g_fds g !! fd) ->
  (forall r g', view g' = view g -> Q r g') -> WPg (Gateway.set_flag fd which flag) g Q.
Proof.
  intros H Hfd HQ. unfold Gateway.set_flag. open_event. apply (WPg_plain _ _ i); [done..| |].
  { intros s x g' s' [-> Hx]. by apply plain_call_quiet in Hx. }
  intros [flags|e] g' Hv; [|apply WP_ret; by apply HQ]. assert (gw_ok None i g') as H' by (by eapply gw_ok_view).
  open_event. apply (WPg_plain _ _ i); [done|..].
  - intros s. simpl. injection Hv as -> _ _ _ _ _. done.
  - intros s x g2 s' [-> Hx]. by apply plain_check_quiet in Hx.
  - intros x g2 Hv2. apply WP_ret. apply HQ. congruence.
Qed.

Lemma WPg_must_reject fd i g :
  gw_ok None i g -> fresh_fd fd i g ->
  WPg (Gateway.must_reject fd i) g
    (fun b g' => view g' = view g /\ (b = false -> Gateway.next_connection_id i <> 0 /\
       (size (Gateway.connections i) < maximum_connections (Gateway.config i))%nat)).
Proof.
  intros H (_ & Hfd & _). unfold Gateway.must_reject. destruct (_ || _) eqn:E; [by apply WP_ret|].
  assert (Gateway.next_connection_id i <> 0 /\
    (size (Gateway.connections i) < maximum_connections (Gateway.config i))%nat) as Hn by (reflect; lia).
  apply WP_bind. eapply WPg_set_flag; [done|by rewrite Hfd|]. intros [e|] g' Hv; [by apply WP_ret|].
  apply WP_bind. eapply (WPg_set_flag _ _ _ i); [by eapply gw_ok_view| |].
  - injection Hv as -> _ _ _ _ _. by rewrite Hfd.
  - intros r g2 Hv2. apply WP_ret. split; [congruence|done].
Qed.

Lemma fresh_fd_view fd i g g' : view g' = view g -> fresh_fd fd i g -> fresh_fd fd i g'.
Proof. unfold fresh_fd. by intros [= -> _ _ _ _ _]. Qed.

Lemma WPg_accept i g :
  gw_ok None i g -> 0 <= Gateway.listener_descriptor i ->
  WPg (Gateway.accept_connections i) g (fun i' g' => gw_ok None i' g').
Proof.
  intros H Hl.
  apply (WP_iter _ _ _ (fun i g => gw_ok None i g /\ 0 <= Gateway.listener_descriptor i)); [done|].
  clear i g H Hl. intros i g [H Hl]. open_event. apply WPg_local; [intros s; by apply (gk_listener _ _ _ _ _ H)|].
  intros s x g' s' [-> Hx]. split; [done|]. destruct x as [fd|e].
  - destruct Hx as (H0 & Hn & ->). pose proof (gw_ok_open _ _ _ _ _ (ConnectionFd [] []) H Hn) as H1.
    split_and!; [done..|by eapply gw_ok_ginv|].
    set (g1 := set_fds _ g) in *.
    assert (fresh_fd fd i g1) as Hf.
    { split_and!; [done|simpl; by rewrite lookup_insert_eq|].
      destruct (Gateway.connections i !! fd) as [c|] eqn:Hc; [|done].
      pose proof (gk_conns _ _ _ _ _ H _ _ Hc) as [_ _ _ (? & ? & ? & ? & E & _) _ _ _]. congruence. }
    clearbody g1. clear g H Hn. apply WP_bind. eapply WP_mono; [by apply WPg_must_reject|].
    intros b g2 [Hv Hb]. assert (gw_ok None i g2) as H2 by (by eapply gw_ok_view).
    pose proof (fresh_fd_view _ _ _ _ Hv Hf) as Hf2. destruct Hf2 as (_ & Hfd & Hc).
    destruct (fresh_fd_ne fd i g2 H2 ltac:(done)) as [Hw Hl2]. destruct b.
    + unfold Gateway.close_descriptor. rewrite (proj2 (Z.leb_le 0 fd)) by done. open_event.
      pose proof (gw_ok_close_fd _ _ _ _ _ H2 Hc Hw Hl2) as H3.
      apply WPg_close; [by rewrite Hfd|by eapply gw_ok_ginv|]. by apply WP_ret.
    + unfold Gateway.emplace_connection. cbn [Gateway.connections Gateway.set_next_connection_id]. rewrite Hc.
      pose proof (gw_ok_emplace _ _ _ _ fd H2 Hc H0 Hfd (proj1 (Hb eq_refl)) (proj2 (Hb eq_refl))) as H3. cbv zeta in H3.
      open_event. apply WPg_local; [done|]. intros s2 [] g' s' [-> ->].
      split_and!; [done..|by eapply gw_ok_ginv|]. apply WP_ret. by split.
  - destruct (failed_call_quiet _ _ _ Hx) as [Hv Hf]. pose proof Hv as [= _ _ -> -> -> ->].
    assert (gw_ok None i g') as H' by (by eapply gw_ok_view).
    split_and!; [done..|by eapply gw_ok_ginv|].
    destruct (e =? EINTR); [by apply WP_ret|]. destruct (_ || _); by apply WP_ret.
Qed.

(** ** The loop of [run] *)

Lemma WPg_serve_client i g client :
  gw_ok None i g -> WPg (Gateway.serve_client i client) g (fun i' g' => gw_ok None i' g').
Proof.
  intros H. destruct client as [fd events]. unfold Gateway.serve_client.
  destruct (Gateway.connections i !! fd) as [c|] eqn:Hc; [|by apply WP_ret].
  apply WP_bind. eapply (WP_mono _ _ _ _ _ (fun i' g' => gw_ok None i' g')).
  { destruct (Gateway.has_event _ _); [apply WPg_receive_from; eauto|by apply WP_ret]. }
  clear i g H c Hc. intros i g H. apply WP_bind. eapply (WP_mono _ _ _ _ _ (fun i' g' => gw_ok None i' g')).
  { destruct (Gateway.connections i !! fd) as [c|] eqn:Hc; [|by apply WP_ret].
    destruct (Gateway.has_event _ _); [|by apply WP_ret].
    eapply WP_mono; [apply WPg_flush_output; eauto|]. by intros ? ? [? _]. }
  clear i g H. intros i g H. apply WPg_close_if_finished.
  destruct (Gateway.connections i !! fd); [|done]. destruct (Gateway.has_event _ _); [by apply gw_ok_close|done].
Qed.

Lemma WPg_handle_events clients revents i g :
  gw_ok None i g -> ((if (0 <=? Gateway.listener_descriptor i)%Z then 1 else 0) < length revents)%nat ->
  WPg (Gateway.handle_events clients revents i) g (fun i' g' => gw_ok None i' g').
Proof.
  intros H Hlen. unfold Gateway.handle_events.
  destruct (lookup_lt_is_Some_2 _ _ Hlen) as [ew ->].
  destruct (lookup_lt_is_Some_2 revents 0) as [el ->]; [lia|].
  apply WP_bind. eapply (WP_mono _ _ _ _ _ (fun i' g' => gw_ok None i' g')).
  { destruct (has_event ew POLLIN); [|by apply WP_ret]. apply WP_bind. eapply WPg_drain_wakeup; [done|].
    intros g1 Hv. assert (gw_ok None i g1) as H1 by (by eapply gw_ok_view).
    apply WP_bind. eapply WP_mono; [by apply WPg_begin_shutdown|]. intros i2 g2 [H2 _].
    apply WP_bind. eapply WP_mono; [by apply WPg_drain_completions|]. intros i3 g3 [H3 _].
    eapply WP_mono; [by apply WPg_drain_pending|]. by intros ? ? [? _]. }
  set (rest := drop _ _). clearbody rest. clear i g H Hlen. intros i g H. apply WP_bind.
  eapply (WP_mono _ _ _ _ _ (fun i' g' => gw_ok None i' g')).
  { destruct (Z.leb_spec 0 (Gateway.listener_descriptor i)) as [Hl|]; [|by apply WP_ret].
    apply WP_bind. eapply (WP_mono _ _ _ _ _ (fun i' g' => gw_ok None i' g')).
    - destruct (_ && _); [by apply WPg_accept|by apply WP_ret].
    - intros i2 g2 H2. destruct (has_event el _); [|by apply WP_ret].
      apply WP_bind. eapply WPg_request_stop; [done|]. intros g3 Hv. apply WP_ret. by eapply gw_ok_view. }
  clear i g H. intros i g H.
  apply (WP_for_each _ _ _ (fun _ i' g' => gw_ok None i' g')); [done| |done].
  intros client l i' g' H'. by apply WPg_serve_client.
Qed.

Lemma gw_ok_bounded i g : gw_ok None i g -> resources_bounded i.
Proof.
  intros H. split_and!; [apply H..|]. intros fd c Hc.
  destruct (gk_conns _ _ _ _ _ H _ _ Hc) as [_ _ _ (? & ? & ? & ? & _ & _ & _ & (Hp & Hl & _) & _) _ _ Hs].
  rewrite (gk_input _ _ _ _ _ H), (gk_output _ _ _ _ _ H).
  destruct Hp. by rewrite <- Hl.
Qed.

Lemma gw_ok_ready i g : gw_ok None i g -> parsers_ready i.
Proof.
  intros H fd c Hc.
  destruct (gk_conns _ _ _ _ _ H _ _ Hc) as [_ _ _ (rcv & ? & ms & r & _ & Hwf & Hp & (Hok & Hl & Hr) & _) _ _ _].
  rewrite (gk_input _ _ _ _ _ H). split_and!; [done..|]. intros Hf. destruct r as [rest|e]; [|congruence].
  destruct Hr as [_ Hu]. unfold waiting. rewrite Hu. by apply (parses_rest _ _ _ _ Hwf Hp).
Qed.

Lemma WPg_run_body i g :
  gw_ok None i g ->
  WPg (Gateway.run_body i) g
    (fun t g' => match t with inl i' => gw_ok None i' g' | inr i' => gw_ok None i' g' /\ g_saw_drained g' = true end).
Proof.
  intros H. unfold Gateway.run_body.
  apply WP_bind. eapply WP_mono; [by apply WPg_begin_shutdown|]. clear i g H. intros i1 g1 [H1 S1].
  apply WP_bind. eapply WP_mono; [by apply WPg_drain_completions|]. intros i2 g2 (H2 & R2 & S2 & C2).
  apply WP_bind. eapply WP_mono; [by apply WPg_drain_pending|]. intros i3 g3 (H3 & (R3 & S3 & C3) & B3).
  apply WP_bind. eapply WP_mono; [by apply WPg_shutdown_complete|].
  intros complete g4 (H4 & C4 & R4 & S4 & B4 & Hc). destruct complete.
  { apply WP_bind. eapply WP_mono; [by apply WPg_flush_outputs_once|]. intros i5 g5 [H5 F5]. apply WP_ret.
    split; [done|]. by injection F5 as _ _ _ _ -> _ _. }
  apply WP_bind, WPg_iteration_order; [done|]. intros order Hin Hnd.
  open_event. apply WPg_local; [intros; split; [by eapply gw_ok_bounded|by eapply gw_ok_ready]|]. intros s [] g5 s5 [-> ->].
  assert (gw_ok None i3 (set_snapshot i3 g4)) as H5 by (same_view H4).
  split_and!; [done..|by eapply gw_ok_ginv|]. apply WPg_local.
  - intros s'. split.
    + rewrite !Forall_app. split_and!.
      * destruct (Z.leb_spec 0 (Gateway.listener_descriptor i3)) as [Hl|]; [|done]. constructor; [|done].
        simpl. by rewrite (gk_listener _ _ _ _ _ H4 Hl).
      * constructor; [|done]. simpl. by rewrite (gk_wakeup _ _ _ _ _ H4).
      * apply Forall_fmap, Forall_forall. intros fd Hfd. apply Hin in Hfd as [c Hc'].
        simpl. unfold Gateway.client_pollfd. rewrite Hc'. simpl.
        pose proof (gk_conns _ _ _ _ _ H4 _ _ Hc') as [_ _ _ (? & ? & ? & ? & E & _) _ _ _]. by rewrite E.
    + split; [apply Exists_app; right; apply Exists_cons_hd; split; [apply (gk_wakeup _ _ _ _ _ H4)|done]|].
      split_and!; simpl.
      * apply H4.
      * congruence.
      * done.
      * rewrite S4, S3, S2, C4, C3, C2. done.
      * intros i' [= <-] Hp. rewrite B4. auto.
  - intros s' x g6 s6 [-> Hx]. split; [done|]. destruct x as [revents|e].
    + destruct Hx as (-> & Hlen & _). split_and!; [done..|by eapply gw_ok_ginv|].
      apply WP_bind. eapply WP_mono; [apply WPg_handle_events; [done|]|].
      * rewrite Hlen, !length_app. destruct (0 <=? _); simpl; lia.
      * intros i7 g7 H7. by apply WP_ret.
    + destruct (failed_call_quiet _ _ _ Hx) as [Hv Hf]. pose proof Hv as [= _ _ E1 E2 E3 E4].
      assert (gw_ok None i3 g6) as H6 by (by eapply gw_ok_view). rewrite E1, E2, E3, E4.
      split_and!; [done..|by eapply gw_ok_ginv|].
      destruct (e =? EINTR); [by apply WP_ret|]. apply WP_bind. eapply WPg_request_stop; [done|].
      intros g7 Hv7. apply WP_ret. by eapply gw_ok_view.
Qed.

(** When [run] returns, it has seen the closed response queue empty, and all
    that is left open is the eventfd. *)
Definition gateway_finished g : Prop :=
  g_saw_drained g = true /\ g_held g = 0%nat /\ g_ids g = empty.

Lemma WPg_run i g :
  gw_ok None i g -> WPg (Gateway.run i) g (fun i' g' => gateway_finished g' /\ Gateway.connections i' = empty).
Proof.
  intros H. unfold Gateway.run. apply WP_bind.
  apply (WP_iter _ _ _ (fun i' g' => gw_ok None i' g')); [done|]. { clear i g H. intros i g H.
  eapply WP_mono; [by apply WPg_run_body|]. intros [i'|i'] g'; [done|]. clear i g H. intros [H Hd].
  assert (forall l g2, gw_ok None (Gateway.set_listener l i') g2 -> g_saw_drained g2 = true ->
    WPg (Gateway.close_all_connections (Gateway.set_listener l i')) g2
      (fun i2 g2 => gateway_finished g2 /\ Gateway.connections i2 = empty)) as Hend.
  { intros l g2 H2 Hd2. eapply WP_mono; [by apply WPg_close_all|]. intros i3 g3 (H3 & Hc & _ & HF).
    split; [|done]. split_and!; [by injection HF as _ _ _ _ -> _ _|apply H3|].
    apply map_empty. intros fd. destruct (g_ids g3 !! fd) eqn:E; [|done].
    destruct (gk_ids _ _ _ _ _ H3 _ _ E) as (c & Hc' & _). by rewrite Hc in Hc'. }
  unfold Gateway.close_descriptor. destruct (Z.leb_spec 0 (Gateway.listener_descriptor i')) as [Hl|Hl].
  - pose proof (gw_ok_close_listener _ _ _ _ H Hl) as H1. open_event. apply WPg_close.
    + by rewrite (gk_listener _ _ _ _ _ H Hl).
    + by eapply gw_ok_ginv.
    + by apply (Hend (-1)).
  - cbn [bind]. apply Hend; [|done]. by destruct i'. }
Qed.

End loop.
