(* ===== verification/ExchangeInv.v ===== *)
(** * The threads together

    The invariant of a running server: the link between the threads, what each
    thread maintains, and that the rest of each thread's program keeps to the
    rules.  Every step of every thread preserves it. *)
From S2P Require Import Prelude Types Bytes OrderBook OrderBookInv Journal Posix JournalStorage JournalFile.
From S2P Require Import JournalStorageProps DurableEngine DurableEngineProps Wire WireCodec WireParser Threads.
From S2P Require Import BoundedQueue GatewayTypes Connection Gateway Exchange Pipeline PipelineInv WorkerLoop.
From S2P Require Import GatewayInv GatewayMoves GatewayLoop.
Import Limiter.

(** ** One thread *)

Section thread.
  Context {E : Type -> Type} {O R A : Type}.
  Context (step : forall X, E X -> O -> SharedState -> X -> O -> SharedState -> Prop).
  Context (ok : forall X, E X -> O -> SharedState -> Prop) (inv : O -> R -> SharedState -> Prop).

Lemma thread_step_inv (p p' : prog E A) o o' s s' :
  thread_step step p o s p' o' s' ->
  match p with
  | Ret _ => False
  | Op e k => exists x, step _ e o s x o' s' /\ p' = k x
  | Iter body l k => p' = unfold_iter body l k /\ o' = o /\ s' = s
  end.
Proof. intros []; eauto. Qed.

Lemma WP_next (p : prog E A) o r s Q : WP step ok inv p o Q -> inv o r s -> next_ok ok p o s.
Proof. intros HW Hi. destruct p; try done. by destruct (HW 1%nat r s Hi). Qed.

Lemma WP_thread_step (p p' : prog E A) o o' r s s' Q :
  WP step ok inv p o Q -> inv o r s -> thread_step step p o s p' o' s' ->
  inv o' r s' /\ WP step ok inv p' o' Q.
Proof.
  intros HW Hi Hst. destruct Hst as [X e k o s x o' s' Hst|L B body l k o s].
  - split.
    + destruct (HW 1%nat r s Hi) as [_ Hk]. by destruct (Hk x o' s' Hst).
    + intros n. destruct (HW (S n) r s Hi) as [_ Hk]. by destruct (Hk x o' s' Hst).
  - split; [done|]. intros n. apply wp_unfold, HW.
Qed.

End thread.

(** ** The server *)

Section server.
  Context {W : Type} `{!Posix W, !PosixView W, !PosixLaws W}.
  Context (config : ExchangeServerConfig) (p : path) (lo0 cs0 : list JournalCommand) (b0 : OrderBook.Impl).

Abbreviation N := (maximum_in_flight config).
Abbreviation M := (request_queue_capacity config).
Abbreviation max := (max_durable_batch_size config).
Abbreviation limit := (maximum_input_buffer_bytes (esc_gateway config)).
Abbreviation outmax := (maximum_output_buffer_bytes (esc_gateway config)).

(** No batch is larger than the histogram, which has one entry more than the
    request queue, unless the [size_t] wraps around; [create] does not check it. *)
Definition histogram_fits : Prop := (Nat.min max N <= M)%nat /\ Z.of_nat M < U64_MAX.

Lemma histogram_fits_size : histogram_fits -> Exchange.histogram_size config = (M + 1)%nat.
Proof. intros [_ H]. unfold Exchange.histogram_size. rewrite add64_small by lia. lia. Qed.

(** With the limits that the constructor checks. *)
Definition fits : Prop := Exchange.invalid_configuration config = false /\ histogram_fits.

(** What a successful [create] leaves: a new gateway over an open listener and an
    eventfd, and an engine whose journal holds [cs0], of which [lo0] is known to be durable. *)
Record ready (impl : Exchange.Impl) (gateway : Gateway.Impl) (fds : gmap Z Descriptor) (proc : Proc W) : Prop := {
  rd_impl : impl = Exchange.set_gateway gateway (Exchange.new_impl config (Exchange.engine impl));
  rd_gateway : exists listener wakeup port, gateway = Gateway.new_impl (esc_gateway config) listener wakeup port true false /\
    fds !! listener = Some ListenerFd /\ fds !! wakeup = Some EventFdFd;
  rd_engine : engine_on p lo0 cs0 (Exchange.engine impl) proc;
  rd_book : de_order_book (Exchange.engine impl) = b0;
}.

Abbreviation ginv := (ginv limit).
Abbreviation winv := (winv p lo0 cs0 b0).

Definition control_inv (c : ControlState) (r : GatewayState * @WorkerState W) (s : SharedState) : Prop :=
  linked N M r.1 r.2 c s /\ ginv r.1 /\ winv r.2.

Abbreviation gateway_wp := (WP gateway_step gateway_ok (GatewayLoop.inv N M limit winv)).
Abbreviation worker_wp := (WP worker_step worker_ok (WorkerLoop.inv N M p lo0 cs0 b0 ginv)).
Abbreviation control_wp := (WP control_step (fun X e (c : ControlState) s => shared_ok e s) control_inv).

Record server_inv (v : @Server W) : Prop := {
  si_linked : linked N M (gs v) (ws v) (cs v) (sh v);
  si_gateway_inv : ginv (gs v);
  si_worker_inv : winv (ws v);
  si_gateway : gateway_wp (gateway_thread v) (gs v)
    (fun i g => gateway_finished g /\ Gateway.connections i = empty);
  si_worker : worker_wp (worker_thread v) (ws v) (fun _ => worker_finished);
  si_control : control_wp (control_thread v) (cs v) (fun _ c => c_owes_wake c = false);
}.

Lemma server_inv_step v v' : server_step v v' -> server_inv v -> server_inv v'.
Proof.
  intros Hst [L Hg Hw Gp Wp Cp]. destruct Hst as [q q' wp cp g g' w c s s' Hst|gp q q' cp g w w' c s s' Hst|gp wp q q' g w c c' s s' Hst];
    simpl in *.
  - destruct (WP_thread_step _ _ _ q q' g g' (w, c) s s' _ Gp ltac:(done) Hst) as [(L' & Hg' & _) Gp']. by split.
  - destruct (WP_thread_step _ _ _ q q' w w' (g, c) s s' _ Wp ltac:(done) Hst) as [(L' & _ & Hw') Wp']. by split.
  - destruct (WP_thread_step _ _ _ q q' c c' (g, w) s s' _ Cp ltac:(done) Hst) as [(L' & _ & _) Cp']. by split.
Qed.

Lemma server_inv_ok v : server_inv v -> server_ok v.
Proof.
  intros [L Hg Hw Gp Wp Cp]. split_and!.
  - eapply (WP_next _ _ _ _ _ (ws v, cs v)); [exact Gp|done].
  - eapply (WP_next _ _ _ _ _ (gs v, cs v)); [exact Wp|done].
  - eapply (WP_next _ _ _ _ _ (gs v, ws v)); [exact Cp|done].
Qed.

Lemma server_inv_steps v v' : rtc server_step v v' -> server_inv v -> server_inv v'.
Proof. induction 1; eauto using server_inv_step. Qed.

(** ** The thread that requests a stop *)

Lemma control_shared {X A} (e : SharedE X) (k : X -> prog SharedE A) c Q :
  control_may e ->
  (forall x n, control_wp (k x) (control_note e (mkControlState n (c_owes_wake c)) x) Q) ->
  control_wp (Op e k) c Q.
Proof.
  intros Hmay Hk. apply WP_op. intros [g w] s (L & Hg & Hw). split; [by destruct e|].
  intros x c' s' (n & Hst & ->). split; [|apply Hk]. split; [by eapply control_access|done].
Qed.

Lemma control_request_stop c : control_wp Gateway.request_stop c (fun _ c => c_owes_wake c = false).
Proof.
  unfold Gateway.request_stop, share, call. cbn [bind]. apply control_shared; [done|]. intros [] n.
  apply (WP_iter _ _ _ (fun _ _ => True)); [done|]. intros _ c' _. unfold share, call. cbn [bind].
  apply control_shared; [done|]. intros [k|e] m; [by apply WP_ret|].
  destruct (e =? EINTR) eqn:Ee; apply WP_ret; [done|]. simpl. by rewrite Ee.
Qed.

(** ** The start *)

Lemma start_worker impl gateway fds proc throws signals :
  histogram_fits -> ready impl gateway fds proc ->
  batch_done M p lo0 cs0 b0 false (ws (start impl gateway fds proc throws signals)).
Proof.
  intros Hh [Himpl _ He Hb]. exists [], []. split; [|intros _; split; [done|apply He]].
  split; try done; simpl.
  - rewrite Himpl. simpl. by rewrite length_replicate, histogram_fits_size.
  - exists [], [], b0, b0. split_and!; try done; [constructor..| |by left].
    exists lo0. simpl. rewrite app_nil_r. split_and!; [done..|]. by left.
Qed.

Lemma start_gateway impl gateway fds proc throws signals :
  ready impl gateway fds proc ->
  gw_ok limit outmax None gateway (gs (start impl gateway fds proc throws signals)).
Proof.
  intros [_ (listener & wakeup & port & -> & Hl & Hw) _ _]. split; simpl; try done; rewrite ?map_size_empty; lia.
Qed.

Lemma start_linked impl gateway fds proc throws signals :
  ready impl gateway fds proc ->
  let v := start impl gateway fds proc throws signals in linked N M (gs v) (ws v) (cs v) (sh v).
Proof.
  intros [Himpl _ _ _]. rewrite Himpl. split; simpl; unfold limiter_ok; simpl; try done; try lia.
Qed.

Lemma start_inv impl gateway fds proc throws signals :
  fits -> ready impl gateway fds proc -> server_inv (start impl gateway fds proc throws signals).
Proof.
  intros [Hv Hhist] Hr.
  unfold Exchange.invalid_configuration in Hv. apply orb_false_iff in Hv as [[HN HM]%orb_false_iff Hmax].
  apply bool_decide_eq_false in HN, HM, Hmax.
  pose proof (start_worker _ _ _ _ throws signals Hhist Hr) as Hw.
  pose proof (start_gateway _ _ _ _ throws signals Hr) as Hg. destruct Hhist as [Hhist _]. split.
  - by apply start_linked.
  - by eapply gw_ok_ginv.
  - destruct Hw as (acked & un & Hh & _). by eapply hold_winv.
  - eapply WPg_run; [lia|lia|exact Hg].
  - replace (worker_thread _) with (Exchange.worker_loop max) by (simpl; by rewrite (rd_impl _ _ _ _ Hr)).
    apply WPw_worker_loop; [lia..|exact Hw].
  - replace (control_thread _) with (Gateway.request_stop (E := SharedE))
      by (simpl; by rewrite (rd_impl _ _ _ _ Hr)).
    apply control_request_stop.
Qed.

End server.
