(* ===== verification/ExchangeStart.v ===== *)
(** * Starting a server

    [GatewayServer::create] and [ExchangeServer::create]: on every branch the
    descriptors that were opened are kept or closed, and a server that is
    returned is [ready] to run.  Nothing is shared yet, so the system calls are
    the only events. *)
From S2P Require Import Prelude Types Bytes OrderBook OrderBookInv Journal Posix JournalStorage JournalFile.
From S2P Require Import JournalStorageProps DurableEngine DurableEngineProps Wire WireCodec WireParser Threads.
From S2P Require Import BoundedQueue GatewayTypes Connection Gateway Exchange Pipeline ExchangeInv JournalDescriptors.

(** There is no other thread to agree with. *)
Abbreviation WPc := (WP gateway_step gateway_ok (fun (_ : GatewayState) (_ : unit) (_ : SharedState) => True)).

Lemma WPc_event {X A} (e : Gateway.GatewayE X) (k : X -> prog Gateway.GatewayE A) g Q :
  (forall s, gateway_ok X e g s) ->
  (forall s x g' s', gateway_step X e g s x g' s' -> WPc (k x) g' Q) ->
  WPc (Op e k) g Q.
Proof. intros Hok Hk. apply WP_op. intros [] s _. split; [apply Hok|]. eauto. Qed.

(** The program returns after some of its steps. *)
Inductive runs_to {A} : prog Gateway.GatewayE A -> GatewayState -> SharedState -> A -> GatewayState -> Prop :=
| runs_to_ret a g s : runs_to (Ret a) g s a g
| runs_to_step p g s p' g' s' a g'' :
    thread_step gateway_step p g s p' g' s' -> runs_to p' g' s' a g'' -> runs_to p g s a g''.

Lemma runs_to_WP {A} (p : prog Gateway.GatewayE A) g s a g' Q : runs_to p g s a g' -> WPc p g Q -> Q a g'.
Proof.
  induction 1 as [a g s|p g s p' g' s' a g'' Hst _ IH]; intros HW; [exact (HW 1%nat)|].
  apply IH. by destruct (WP_thread_step _ _ _ _ _ _ _ tt _ _ _ HW I Hst).
Qed.

Lemma failed_call_fds e g g' : failed_call e g g' -> g_fds g' = g_fds g.
Proof. unfold failed_call. destruct (e =? EINTR); [by intros (n & _ & ->)|by intros ->]. Qed.

Lemma plain_call_fds {A} (x : A + errno) g g' : plain_call x g g' -> g_fds g' = g_fds g.
Proof. destruct x; simpl; [by intros ->|apply failed_call_fds]. Qed.

Lemma plain_check_fds x g g' : plain_check x g g' -> g_fds g' = g_fds g.
Proof. destruct x; simpl; [apply failed_call_fds|by intros ->]. Qed.

Section gateway.
  (** the descriptors before the call, and the new listener *)
  Context (fds : gmap Z Descriptor) (listener : Z) (Hfresh : fds !! listener = None) (Hpos : 0 <= listener).

Abbreviation opened := (<[listener := ListenerFd]> fds).

Lemma WPc_set_flag which flag g :
  g_fds g = opened -> WPc (Gateway.set_flag listener which flag) g (fun _ g' => g_fds g' = opened).
Proof.
  intros Hg. assert (is_Some (g_fds g !! listener)) as Hs by (rewrite Hg, lookup_insert_eq; eauto).
  unfold Gateway.set_flag, call. cbn [bind]. apply WPc_event; [done|].
  intros s x g' s' [_ H%plain_call_fds]. destruct x; [|apply WP_ret; congruence].
  apply WPc_event; [intros; simpl; by rewrite H|]. intros s1 x g'' s1' [_ H'%plain_check_fds]. apply WP_ret. congruence.
Qed.

(** What [create] promises. *)
Definition created config (r : Gateway.Impl + GatewayServerError) (g' : GatewayState) : Prop :=
  match r with
  | inl i => exists wakeup port, i = Gateway.new_impl config listener wakeup port true false /\
      opened !! wakeup = None /\ 0 <= wakeup /\ g_fds g' = <[wakeup := EventFdFd]> opened
  | inr e => g_fds g' = fds /\ gse_code e <> InvalidConfiguration /\ gse_code e <> InvalidBindAddress
  end.

Lemma WPc_close_and_fail code error g config :
  g_fds g = opened -> code <> InvalidConfiguration -> code <> InvalidBindAddress ->
  WPc (Gateway.close_and_fail listener code error) g (created config).
Proof.
  intros Hg H1 H2. unfold Gateway.close_and_fail, Gateway.close_descriptor, call.
  rewrite (proj2 (Z.leb_le 0 listener) Hpos). cbn [bind]. apply WPc_event.
  - intros s. simpl. rewrite Hg, lookup_insert_eq. eauto.
  - intros s x g' s' [_ ->]. apply WP_ret. split_and!; [|done..]. simpl.
    by rewrite Hg, delete_insert_id.
Qed.

Lemma WPc_or_fail code step k g config :
  code <> InvalidConfiguration -> code <> InvalidBindAddress ->
  WPc step g (fun _ g' => g_fds g' = opened) ->
  (forall g', g_fds g' = opened -> WPc k g' (created config)) ->
  WPc (Gateway.or_fail listener code step k) g (created config).
Proof.
  intros H1 H2 Hs Hk. apply WP_bind. eapply WP_mono; [exact Hs|].
  intros [error|] g' Hg'; [by apply WPc_close_and_fail|by apply Hk].
Qed.

(** A check on the listener. *)
Lemma WPc_check (e : Gateway.GatewayE (option errno)) g :
  g_fds g = opened ->
  (forall s, g_fds g !! listener = Some ListenerFd -> gateway_ok _ e g s) ->
  (forall s x g' s', gateway_step _ e g s x g' s' -> plain_check x g g') ->
  WPc (call e) g (fun _ g' => g_fds g' = opened).
Proof.
  intros Hg Hok Hst. apply WPc_event.
  - intros s. apply Hok. by rewrite Hg, lookup_insert_eq.
  - intros s x g' s' H%Hst%plain_check_fds. apply WP_ret. congruence.
Qed.

End gateway.

(** [GatewayServer::create], as the exchange server calls it. *)
Lemma WPc_gateway_create config g :
  WPc (Gateway.create config true false) g (fun r g' =>
    match r with
    | inl i => Gateway.invalid_configuration config = false /\
        exists listener wakeup port, i = Gateway.new_impl config listener wakeup port true false /\
          g_fds g !! listener = None /\ g_fds g !! wakeup = None /\ listener <> wakeup /\ 0 <= listener /\ 0 <= wakeup /\
          g_fds g' = <[wakeup := EventFdFd]> (<[listener := ListenerFd]> (g_fds g))
    | inr e => g_fds g' = g_fds g /\
        (gse_code e = InvalidConfiguration <-> Gateway.invalid_configuration config = true)
    end).
Proof.
  unfold Gateway.create. destruct (Gateway.invalid_configuration config) eqn:Hv; [by apply WP_ret|].
  unfold call at 1. cbn [bind]. apply WPc_event; [done|]. intros s [address|] g1 s1 [_ ->]; [|by apply WP_ret].
  unfold call at 1. cbn [bind]. apply WPc_event; [done|]. intros s2 [listener|error] g2 s2' [_ Hx].
  2:{ apply WP_ret. split; [by eapply failed_call_fds|done]. }
  destruct Hx as (Hpos & Hfresh & ->).
  apply (WP_mono _ _ _ _ _ (created (g_fds g) listener config)).
  2:{ intros [i|e] g'; simpl.
      - intros (wakeup & port & -> & Hw & ? & Hg). apply lookup_insert_None in Hw as [Hw Hne]. split; [done|].
        by exists listener, wakeup, port.
      - intros (Hg & He & _). split; [done|]. split; [done|congruence]. }
  repeat (apply WPc_or_fail; [done..| |let g := fresh "g" in let H := fresh "Ho" in intros g H]).
  all: try (by apply WPc_set_flag).
  all: try (apply WPc_check; [done|by intros; simpl|]; simpl; by intros ? ? ? ? [_ ?]).
  match goal with H : g_fds ?g = _ |- WP _ _ _ _ ?g _ => rename g into gl, H into Hgl end.
  unfold call. cbn [bind]. apply WPc_event; [intros; simpl; by rewrite Hgl, lookup_insert_eq|].
  intros s3 [port|error] gp s3' [_ H3%plain_call_fds]; [|apply WPc_close_and_fail; congruence || done].
  apply WPc_event; [done|]. intros s4 [wakeup|error] gw s4' [_ H4].
  - destruct H4 as (Hw & Hn & ->). apply WP_ret. exists wakeup, port. simpl. rewrite H3, Hgl in *. done.
  - apply failed_call_fds in H4. apply WPc_close_and_fail; congruence || done.
Qed.

Section server.
  Context {W : Type} `{!Posix W, !PosixView W, !PosixLaws W}.
  Implicit Types (proc : Proc W).

(** The journal before the start: there is none, or it holds [cs]. *)
Definition startable mode p lo cs proc : Prop :=
  match mode with
  | CreateNew => lo = [] /\ cs = []
  | Recover => at_rest p lo cs (os proc)
  end.

Lemma start_engine_spec faults p mode lo cs proc :
  startable mode p lo cs proc ->
  exists proc' r, Exchange.start_engine faults p mode proc = Returned proc' r /\
    opens_engine r (os proc) (os proc') /\
    match r with
    | inl e => engine_on p lo cs e proc'
    | inr _ => mode = Recover -> at_rest p lo cs (os proc')
    end.
Proof.
  intros Hs. destruct mode; simpl in *.
  - destruct Hs as [-> ->]. destruct (create_engine_spec faults p proc) as (s & r & E & Hr).
    destruct (create_engine_opens faults p proc) as (s2 & r2 & E2 & Ho). rewrite E in E2. injection E2 as <- <-.
    exists s, r. split_and!; [done..|]. by destruct r; [apply Hr|].
  - destruct (recover_spec faults p lo cs proc Hs) as (s & r & E & Hr).
    destruct (recover_engine_opens faults p proc) as (s2 & r2 & E2 & Ho). rewrite E in E2. injection E2 as <- <-.
    exists s, r. split_and!; [done..|]. destruct r; [done|]. intros _. apply Hr.
Qed.

(** The error that [ExchangeServer::create] reports, and what it leaves of the
    journal: no descriptor more is open than before. *)
Definition startup_error config mode p lo cs (e : ExchangeServerError) proc proc' : Prop :=
  same_opened (os proc) (os proc') /\
  match ese_code e with
  | ExchangeInvalidConfiguration => Exchange.invalid_configuration config = true /\ proc' = proc
  | DurableEngineStartupFailed =>
      Exchange.invalid_configuration config = false /\ is_Some (ese_durable_engine_error e) /\
      (mode = Recover -> at_rest p lo cs (os proc'))
  | GatewayStartupFailed =>
      Exchange.invalid_configuration config = false /\ is_Some (ese_gateway_error e) /\
      at_rest p lo cs (os proc')
  end.

Lemma WPc_create faults config p mode lo cs proc g :
  startable mode p lo cs proc ->
  WPc (Exchange.create faults config p mode proc) g (fun r g' =>
    match r with
    | Returned proc' (inl impl) => Exchange.invalid_configuration config = false /\
        opens (jw_file_descriptor (de_writer (Exchange.engine impl))) (os proc) (os proc') /\
        exists gateway b, ready config p lo cs b impl gateway (g_fds g') proc'
    | Returned proc' (inr e) => g_fds g' = g_fds g /\ startup_error config mode p lo cs e proc proc'
    | _ => False
    end).
Proof.
  intros Hs. unfold Exchange.create.
  destruct (Exchange.invalid_configuration config) eqn:Hv; [by apply WP_ret|].
  destruct (start_engine_spec faults p mode lo cs proc Hs) as (proc' & [e|err] & -> & Ho & He).
  2:{ apply WP_ret. split; [done|]. split; [exact Ho|]. split_and!; [done|by eexists|done]. }
  apply WP_bind. eapply WP_mono; [apply WPc_gateway_create|]. intros [i|error] g' Hr.
  - destruct Hr as (_ & listener & wakeup & port & -> & Hl & Hw & Hne & _ & _ & Hg). apply WP_ret. split; [done|]. split; [exact Ho|].
    eexists _, _. split; [done| |done|done]. exists listener, wakeup, port. rewrite Hg. split_and!; [done| |].
    + by rewrite lookup_insert_ne, lookup_insert_eq.
    + by rewrite lookup_insert_eq.
  - apply WP_ret. split; [apply Hr|]. split; [by apply opens_close|]. split_and!; [done|by eexists|].
    eapply at_rest_same; [apply destroy_writer_same|by eapply engine_at_rest].
Qed.

(** A running server: one that [create] has returned, and that was started. *)
Definition launched config p lo cs (v : Server) : Prop :=
  exists faults mode proc fds signals s impl proc' g' throws signals',
    startable mode p lo cs proc /\
    runs_to (Exchange.create faults config p mode proc) (new_gateway_state fds signals) s
      (Returned proc' (inl impl)) g' /\
    snd (run impl (g_fds g') proc' throws signals') = Some v.

Lemma launched_ready config p lo cs v :
  launched config p lo cs v ->
  exists b rs impl gateway fds proc throws signals,
    Exchange.invalid_configuration config = false /\ runs new_book cs b rs /\
    ready config p lo cs b impl gateway fds proc /\ v = start impl gateway fds proc throws signals.
Proof.
  intros (faults & mode & proc & fds & signals & s & impl & proc' & g' & throws & signals' & Hs & Hr & Hrun).
  destruct (runs_to_WP _ _ _ _ _ _ Hr (WPc_create faults config p mode lo cs proc _ Hs)) as (Hv & _ & gw & b & Hready).
  destruct (eo_book _ _ _ _ _ (rd_engine _ _ _ _ _ _ _ _ _ Hready)) as [rs Hrs].
  rewrite (rd_book _ _ _ _ _ _ _ _ _ Hready) in Hrs. unfold run in Hrun.
  rewrite (rd_impl _ _ _ _ _ _ _ _ _ Hready) in Hrun. simpl in Hrun. injection Hrun as <-.
  rewrite <- (rd_impl _ _ _ _ _ _ _ _ _ Hready).
  exists b, rs, impl, gw, (g_fds g'), proc', throws, signals'. done.
Qed.

Lemma launched_inv config p lo cs v0 v :
  launched config p lo cs v0 -> histogram_fits config -> rtc server_step v0 v ->
  exists b rs, runs new_book cs b rs /\ server_inv config p lo cs b v.
Proof.
  intros (b & rs & impl & gw & fds & proc & throws & signals & Hv & Hrs & Hready & ->)%launched_ready Hh Hst.
  exists b, rs. split; [done|]. eapply server_inv_steps; [exact Hst|]. by apply start_inv; [split|].
Qed.

End server.
