(* ===== verification/WorkerTermination.v ===== *)
(** * The worker returns

    The worker makes finitely many steps for every request it pops, so that it
    returns once the request queue is closed: then no more requests come, and
    [wait_pop] does not block. *)
From S2P Require Import Prelude Types Bytes OrderBook Journal Posix JournalStorage JournalFile JournalStorageProps.
From S2P Require Import DurableEngine DurableEngineProps Wire Threads BoundedQueue GatewayTypes Connection Gateway.
From S2P Require Import Exchange Pipeline PipelineInv WorkerLoop ExchangeInv ExchangeStart.
Import Limiter.

Section termination.
  Context {W : Type} `{!Posix W}.
  (** no more requests than these are ever popped *)
  Context (bound : nat).
  Implicit Types (w : @WorkerState W) (batch : list AdmittedEngineRequest).

Abbreviation popped w := (length (w_popped w)).
Abbreviation within w := (popped w <= bound)%nat.
Abbreviation halt := (halts worker_step (fun w => within w)).
Abbreviation any := (fun _ _ => True).

Definition pops_more w w' : Prop := (popped w <= popped w')%nat.

#[local] Instance pops_more_preorder : PreOrder pops_more.
Proof. split; unfold pops_more; [intros w|intros w1 w2 w3]; lia. Qed.

Lemma worker_note_pops {X} (e : SharedE X) w x : pops_more w (worker_note e w x).
Proof.
  unfold pops_more. destruct e; simpl; repeat case_match; simpl; rewrite ?length_app; simpl; lia.
Qed.

Lemma worker_step_pops X (e : Exchange.WorkerE X) w s x w' s' : worker_step X e w s x w' s' -> pops_more w w'.
Proof.
  destruct e; simpl.
  - intros (n & _ & ->). by apply (worker_note_pops e (w_set_signals n w)).
  - intros (_ & -> & _). reflexivity.
  - intros (_ & st & _ & ->). unfold pops_more. simpl. lia.
  - intros (_ & faults & H). destruct (Durable.execute_batch _ _ _ _) as [? [? ?]|?|?]; [..|done];
      destruct H as [_ ->]; unfold pops_more; simpl; lia.
Qed.

(** Everything that halts has popped no less. *)
Lemma halt_pops {A} (p : prog Exchange.WorkerE A) w :
  halt any p w -> halt (fun _ w' => pops_more w w') p w.
Proof.
  intros H. eapply halts_mono; [apply (halts_relates _ _ _ _ _ pops_more worker_step_pops H)|]. by intros a w' [_ ?].
Qed.

(** An event after which everything halts. *)
Lemma halt_event {X A} (e : Exchange.WorkerE X) (k : X -> prog Exchange.WorkerE A) w Q :
  (forall x w', halt Q (k x) w') -> halt Q (Op e k) w.
Proof. intros H. apply halts_op. auto. Qed.

Lemma halt_seq {A B} (p : prog Exchange.WorkerE A) (f : A -> prog Exchange.WorkerE B) w Q :
  halt any p w -> (forall a w', halt Q (f a) w') -> halt Q (bind p f) w.
Proof. intros Hp Hf. apply halts_bind. eapply halts_mono; [exact Hp|]. auto. Qed.

Lemma halt_ret {A} (a : A) w : halt any (Ret a) w.
Proof. by apply halts_ret. Qed.

Ltac open_event := unfold share, call; cbn [bind].

(** [wake] is repeated for as many signals as there are. *)
Lemma halt_wake w : halt any Gateway.wake w.
Proof.
  apply (halts_loop _ _ (fun _ w => w_signals w)). intros _ w'. open_event. apply halts_op.
  intros s x w1 s' (n & Hst & ->) _. destruct x as [k|err]; [by apply halts_ret|].
  destruct (err =? EINTR) eqn:Ee; apply halts_ret; [|done].
  destruct Hst as [[Hrun ->]|(_ & Hn & _)]; simpl in *; rewrite Ee; simpl; [|lia].
  destruct (wakeups s <? EVENTFD_MAX); [done|]. injection Hrun as <- _. done.
Qed.

Lemma halt_enter_fail_stop w : halt any Gateway.enter_fail_stop w.
Proof.
  unfold Gateway.enter_fail_stop, Gateway.request_stop. open_event.
  apply halt_event. intros _ w1. apply halt_event. intros _ w2. apply halt_wake.
Qed.

Lemma halt_publish_for a r w : halt any (Exchange.publish_for a r) w.
Proof.
  unfold Exchange.publish_for, Exchange.publish. destruct (move_construct _). open_event.
  apply halt_event. intros [] w1; cbn [negb].
  - apply halt_seq; [apply halt_wake|]. intros _ w2. apply halt_ret.
  - unfold abort. cbn [bind]. apply halt_event. intros [].
Qed.

Lemma halt_publish_unavailable batch w : halt any (Exchange.publish_unavailable batch) w.
Proof.
  revert w. induction batch as [|a batch IH]; intros w; cbn [Exchange.publish_unavailable]; [apply halt_ret|].
  apply halt_seq; [apply halt_publish_for|]. intros a' w1. apply halt_seq; [apply IH|]. intros b w2. apply halt_ret.
Qed.

Lemma halt_publish_results batch results w : halt any (Exchange.publish_results batch results) w.
Proof.
  revert results w. induction batch as [|a batch IH]; intros [|r results] w; cbn [Exchange.publish_results];
    try apply halt_ret.
  destruct (Exchange.summarize _ _); [|apply halt_event; intros []].
  apply halt_seq; [apply halt_publish_for|]. intros a' w1. apply halt_seq; [apply IH|]. intros b w2. apply halt_ret.
Qed.

Lemma halt_destroy_batch batch w : halt any (Exchange.destroy_batch batch) w.
Proof.
  unfold Exchange.destroy_batch. revert w. induction batch as [|a batch IH]; intros w; cbn [for_each]; [apply halt_ret|].
  apply halt_seq; [|intros [] w1; apply IH]. unfold Gateway.release.
  destruct (owner_ _); [|apply halt_ret]. open_event. apply halt_event. intros _ w1. apply halt_ret.
Qed.

Lemma halt_try_execute batch w : halt any (Exchange.try_execute batch) w.
Proof.
  unfold Exchange.try_execute. open_event. apply halt_event. intros [] w1; [apply halt_ret|].
  apply halt_event. intros [] w2; [apply halt_ret|]. apply halt_event. intros r w3. apply halt_ret.
Qed.

Lemma halt_execute_and_publish batch failed w : halt any (Exchange.execute_and_publish_batch batch failed) w.
Proof.
  unfold Exchange.execute_and_publish_batch. open_event. apply halt_event. intros [] w1.
  assert (forall w', halt any (let* _ := Gateway.enter_fail_stop in
    let* batch := Exchange.publish_unavailable batch in Ret (batch, true)) w') as Hfail.
  { intros w'. apply halt_seq; [apply halt_enter_fail_stop|]. intros _ w2.
    apply halt_seq; [apply halt_publish_unavailable|]. intros b w3. apply halt_ret. }
  apply halt_seq.
  - destruct failed.
    + apply halt_seq; [apply halt_publish_unavailable|]. intros b w2. apply halt_ret.
    + apply halt_seq; [apply halt_try_execute|]. intros [[results|err]|] w2; [|apply Hfail..].
      destruct (negb _); [apply halt_event; intros []|].
      apply halt_seq; [apply halt_publish_results|]. intros b w3. apply halt_ret.
  - intros [b f] w2. apply halt_seq; [apply halt_destroy_batch|]. intros _ w3. apply halt_ret.
Qed.

(** The batch grows up to its maximum. *)
Lemma halt_drain_batch max batch w : halt any (Exchange.drain_batch max batch) w.
Proof.
  apply (halts_loop _ _ (fun batch _ => max - length batch)%nat). intros batch' w1.
  case_bool_decide as Hlt; cbn [negb]; [|by apply halts_ret]. open_event. apply halt_event.
  intros [a|] w2; apply halts_ret; [|done]. rewrite length_app. simpl. lia.
Qed.

(** A turn of a loop that starts with [wait_pop] and goes on has popped one
    more. *)
Lemma halt_wait_pop {A} (k : option AdmittedEngineRequest -> prog Exchange.WorkerE A) w (Q : A -> WorkerState -> Prop) :
  (forall w', halt Q (k None) w') ->
  (forall a w', (popped w < popped w')%nat -> (popped w < bound)%nat ->
     halt (fun x w2 => pops_more w' w2 -> Q x w2) (k (Some a)) w') ->
  halt Q (Op (Exchange.Shared RequestWaitPop) k) w.
Proof.
  intros Hn Hs. apply halts_op. intros s [a|] w' s' (n & _ & ->) Hk; [|apply Hn]. cbn [worker_note] in *.
  assert (popped (w_pop (aer_request a) (w_set_signals n w)) = S (popped w)) as Hp
    by (simpl; rewrite length_app; simpl; lia).
  rewrite Hp in Hk. eapply halts_mono.
  - eapply (halts_relates _ _ _ _ _ pops_more); [exact worker_step_pops|]. apply (Hs a); lia.
  - intros x w2 [H1 H2]. auto.
Qed.

Abbreviation left_to_pop := (fun _ w => bound - popped w)%nat.

Lemma halt_worker_body max failed w :
  halt (fun t w' => match t with inl _ => (left_to_pop tt w' < left_to_pop tt w)%nat | inr _ => True end)
    (Exchange.worker_body max failed) w.
Proof.
  unfold Exchange.worker_body. open_event. apply halt_wait_pop; [intros w'; by apply halts_ret|].
  intros a w1 Hlt Hb. unfold pops_more.
  assert (forall w2, halt (fun (t : bool + bool) w' => (popped w1 <= popped w')%nat ->
    match t with inl _ => (bound - popped w' < bound - popped w)%nat | inr _ => True end)
    (let* _ := Exchange.destroy_batch [a] in Ret (inr true)) w2) as Hd.
  { intros w2. apply halt_seq; [apply halt_destroy_batch|]. intros _ w3. by apply halts_ret. }
  apply halt_event. intros [] w2; [apply Hd|]. apply halt_event. intros [] w3; [apply Hd|].
  apply halt_seq; [apply halt_drain_batch|]. intros batch w4.
  apply halt_seq; [apply halt_execute_and_publish|]. intros f w5. apply halts_ret. lia.
Qed.

Lemma halt_fail_remaining w : halt any Exchange.fail_remaining w.
Proof.
  apply (halts_loop _ _ left_to_pop). intros _ w1. open_event. apply halt_wait_pop; [intros w'; by apply halts_ret|].
  intros a w2 Hlt Hb. unfold pops_more. apply halt_seq; [apply halt_publish_for|]. intros a' w3.
  apply halt_seq; [apply halt_destroy_batch|]. intros _ w4. apply halts_ret. lia.
Qed.

Lemma halt_worker_loop max w : halt any (Exchange.worker_loop max) w.
Proof.
  unfold Exchange.worker_loop. apply halt_seq.
  - apply (halts_loop _ _ left_to_pop). intros failed w1. eapply halts_mono; [apply halt_worker_body|].
    by intros [f|b] w2.
  - intros threw w1. apply halt_seq.
    + destruct threw; [|apply halt_ret]. apply halt_seq; [apply halt_enter_fail_stop|]. intros _ w2. apply halt_fail_remaining.
    + intros _ w2. open_event. apply halt_event. intros _ w3. apply halt_wake.
Qed.

End termination.

(** ** The worker of a server *)

Section server.
  Context {W : Type} `{!Posix W}.
  Implicit Types (v u : @Server W).

(** A step of the worker, and a step of another thread. *)
Inductive worker_moves_to : Server -> Server -> Prop :=
| worker_moves_to_intro gp p p' cp g w w' c s s' :
    thread_step worker_step p w s p' w' s' ->
    worker_moves_to (mkServer gp p cp g w c s) (mkServer gp p' cp g w' c s').

Definition others_move v v' : Prop :=
  server_step v v' /\ worker_thread v' = worker_thread v /\ ws v' = ws v.

Lemma worker_moves_server v v' : worker_moves_to v v' -> server_step v v'.
Proof. intros []. by constructor. Qed.

(** Whatever the number of requests, the rest of the worker's program halts. *)
Definition worker_halts v : Prop :=
  forall bound, (length (w_popped (ws v)) <= bound)%nat ->
  halts worker_step (fun w => (length (w_popped w) <= bound)%nat) (fun _ _ => True) (worker_thread v) (ws v).

Lemma worker_halts_step v v' : server_step v v' -> worker_halts v -> worker_halts v'.
Proof.
  intros Hst H bound Hb. destruct Hst as [| gp q q' cp g w w' c s s' Hst|]; simpl in *; try (by apply H).
  destruct Hst as [X e k w s x w' s' Hst|L B body l k w s].
  - pose proof (worker_step_pops _ _ _ _ _ _ _ Hst) as Hp. unfold pops_more in Hp.
    apply (halts_inv _ _ _ _ _ (H bound ltac:(simpl; lia)) _ _ _ _ Hst Hb).
  - apply (halts_inv _ _ _ _ _ (H bound Hb)).
Qed.

Lemma launched_halts `{!PosixView W, !PosixLaws W} config p lo cs v0 v :
  launched config p lo cs v0 -> rtc server_step v0 v -> worker_halts v.
Proof.
  intros (faults & mode & proc & fds & signals & s & impl & proc' & g' & throws & signals' & _ & _ & Hrun) Hst.
  assert (worker_halts v0) as H0.
  { unfold run in Hrun. destruct (Exchange.worker_started impl); [done|].
    destruct (Exchange.gateway impl); [|done]. simpl in Hrun. injection Hrun as <-.
    intros bound _. apply halt_worker_loop. }
  clear Hrun. induction Hst; eauto using worker_halts_step.
Qed.

(** ** After the request queue was closed *)

Abbreviation shut v := (BQ.closed_ (requests (sh v)) = true).

(** No access opens the queue again, and nothing is pushed. *)
Lemma shut_access {X} (e : SharedE X) n s x n' s' :
  shared_step e n s x n' s' -> BQ.closed_ (requests s) = true ->
  BQ.closed_ (requests s') = true /\ forall g, g_admitted (gateway_note e (set_signals n' g) x) = g_admitted g.
Proof.
  intros [[Hr ->]|(Hi & -> & ->)] Hc; [|by destruct e].
  destruct e; simpl in *;
    repeat match goal with
    | H : context [BQ.try_push ?a ?q] |- _ =>
        let Hq := fresh in pose proof (BQ.try_push_cases a q) as Hq; destruct (BQ.try_push a q) as [[] ?]
    | H : context [BQ.try_pop ?q] |- _ =>
        let Hq := fresh in pose proof (BQ.try_pop_cases q) as Hq; destruct (BQ.try_pop q)
    | H : context [BQ.wait_pop ?q] |- _ =>
        let Hq := fresh in destruct (BQ.wait_pop q) as [[? ?]|] eqn:Hq; [apply BQ.wait_pop_cases in Hq|done]
    | H : context [try_acquire ?l] |- _ => destruct (try_acquire l)
    | H : context [release_one ?l] |- _ => destruct (release_one l)
    | H : context [if ?b then _ else _] |- _ => destruct b
    end; simplify_eq; simpl; autorewrite with queue; split; try done;
    try (intros g; repeat case_match; done).
  all: naive_solver congruence.
Qed.

Lemma gateway_shut X (e : Gateway.GatewayE X) g s x g' s' :
  gateway_step X e g s x g' s' -> BQ.closed_ (requests s) = true ->
  BQ.closed_ (requests s') = true /\ g_admitted g' = g_admitted g.
Proof.
  assert (forall err g1 g2, failed_call err g1 g2 -> g_admitted g2 = g_admitted g1) as Hf.
  { intros err g1 g2. unfold failed_call. destruct (err =? EINTR); [by intros (n & _ & ->)|by intros ->]. }
  destruct e; simpl; intros Hst Hs.
  { destruct Hst as (n & Hst & ->). destruct (shut_access _ _ _ _ _ _ Hst Hs). eauto. }
  all: unfold opening_call, plain_call, plain_check in Hst; repeat case_match; destruct_and?; subst; simpl; eauto.
  all: destruct_and?; naive_solver.
Qed.

Lemma worker_shut X (e : Exchange.WorkerE X) (w : @WorkerState W) s x w' s' :
  worker_step X e w s x w' s' -> BQ.closed_ (requests s) = true -> BQ.closed_ (requests s') = true.
Proof.
  destruct e; simpl; intros Hst Hs; [|by destruct Hst as [-> _]..].
  destruct Hst as (n & Hst & _). by destruct (shut_access _ _ _ _ _ _ Hst Hs).
Qed.

Lemma shut_step v v' :
  server_step v v' -> shut v -> shut v' /\ g_admitted (gs v') = g_admitted (gs v).
Proof.
  intros Hst Hs. destruct Hst as [p p' wp cp g g' w c s s' Hst|gp p p' cp g w w' c s s' Hst|gp wp p p' g w c c' s s' Hst];
    simpl in *; destruct Hst as [X e k o s x o' s' Hst|]; try done.
  - by eapply gateway_shut.
  - split; [by eapply worker_shut|done].
  - destruct Hst as (n & Hst & _). by destruct (shut_access _ _ _ _ _ _ Hst Hs).
Qed.

Lemma others_shut v u :
  rtc others_move v u -> shut v ->
  shut u /\ g_admitted (gs u) = g_admitted (gs v) /\ worker_thread u = worker_thread v /\ ws u = ws v.
Proof.
  induction 1 as [|v u1 u (Hst & E1 & E2) _ IH]; intros Hs; [done|].
  destruct (shut_step _ _ Hst Hs) as [Hs' Ea]. destruct (IH Hs') as (? & -> & -> & ->). done.
Qed.

Lemma others_steps v u : rtc others_move v u -> rtc server_step v u.
Proof. induction 1 as [|v u1 u (Hst & _) _ IH]; [done|by eapply rtc_l]. Qed.

(** The worker's next step, after any number of steps of the others. *)
Definition worker_advances v v' : Prop := exists u, rtc others_move v u /\ worker_moves_to u v'.

Lemma worker_moves_inv v v' :
  worker_moves_to v v' -> server_step v v' /\
  match worker_thread v with
  | Ret _ => False
  | Op e k => exists x, worker_step _ e (ws v) (sh v) x (ws v') (sh v') /\ worker_thread v' = k x
  | Iter body l k => worker_thread v' = unfold_iter body l k /\ ws v' = ws v
  end.
Proof. intros H. split; [by apply worker_moves_server|]. destruct H as [? ? ? ? ? ? ? ? ? ? []]; simpl; eauto. Qed.

(** There is no infinite sequence of such steps, as long as what was popped was
    admitted. *)
Lemma worker_acc (I : @Server W -> Prop) v :
  (forall v v', server_step v v' -> I v -> I v') ->
  (forall v, I v -> (length (w_popped (ws v)) <= length (g_admitted (gs v)))%nat) ->
  I v -> shut v -> worker_halts v -> Acc (flip worker_advances) v.
Proof.
  intros HI Hle Hv Hs Hh. pose proof (Hh _ (Hle v Hv)) as H.
  assert (forall v u, rtc server_step v u -> I v -> I u) as HIs by (induction 1; eauto).
  remember (worker_thread v) as q eqn:Eq. remember (ws v) as w eqn:Ew. clear Hh.
  remember (length (g_admitted (gs v))) as bound eqn:Eb.
  revert v Hv Hs Eq Ew Eb. induction H as [a o _|X e k o _ IH|L B body l k o _ IH]; intros v Hv Hs Eq Ew Eb.
  all: constructor; intros v' (u & Hu & [Hst Hm]%worker_moves_inv).
  all: destruct (others_shut _ _ Hu Hs) as (Hs' & Ea & E1 & E2); rewrite E1, <- Eq in Hm.
  { destruct Hm. }
  all: destruct (shut_step _ _ Hst Hs') as [Hs2 Ea2].
  all: pose proof (HI _ _ Hst (HIs _ _ (others_steps _ _ Hu) Hv)) as Hv'.
  - destruct Hm as (x & Hm & Ek). rewrite E2, <- Ew in Hm. apply (IH _ _ _ _ Hm); [|exact Hv'|exact Hs2|congruence..].
    rewrite Eb, <- Ea, <- Ea2. by apply Hle.
  - destruct Hm as [Ek Ew']. apply IH; [exact Hv'|exact Hs2|congruence..].
Qed.

(** No access blocks. *)
Lemma shared_answers {X} (e : SharedE X) s :
  shared_ok e s -> BQ.closed_ (requests s) = true -> is_Some (shared_run e s).
Proof.
  intros Hok Hs. destruct e; simpl in *; try done.
  all: repeat match goal with |- context [let '(_, _) := ?x in _] => destruct x end; try done.
  - by destruct (_ <? _).
  - unfold release_one. by destruct (in_flight_ (limiter s)).
  - unfold BQ.wait_pop, BQ.ready. rewrite Hs. simpl. by destruct (BQ.try_pop _).
Qed.

(** The worker is not blocked: its next step can be made now. *)
Lemma worker_can_move v :
  server_ok v -> shut v -> worker_thread v <> Ret tt -> exists v', worker_moves_to v v'.
Proof.
  destruct v as [gp p cp g w c s]. intros (_ & Hok & _) Hs Hp. simpl in *.
  assert (exists p' w' s', thread_step worker_step p w s p' w' s') as (p' & w' & s' & Hst);
    [|by eexists; constructor].
  destruct p as [[]|X e k|L B body l k]; [done| |by eexists _, _, _; constructor].
  assert (exists x w' s', worker_step X e w s x w' s') as (x & w' & s' & Hst);
    [|by eexists _, _, _; constructor].
  destruct e as [X e|site|n|commands].
  - destruct (shared_answers e s (proj1 Hok) Hs) as [[x s'] E].
    eexists _, _, _; exists (w_signals w); split; [by left|done].
  - by exists false, w, s.
  - simpl in *. destruct Hok as [m Hm]. unfold Exchange.record_batch. rewrite Hm. eexists tt, _, s. eauto.
  - simpl in *. destruct Hok as [_ Hok]. specialize (Hok no_faults).
    destruct (Durable.execute_batch no_faults commands (w_engine w) (w_proc w)) as [q [e r]|q|] eqn:E; [|done..].
    eexists _, _, s. split; [done|]. exists no_faults. by rewrite E.
Qed.

End server.
