(* ===== verification/GatewayTermination.v ===== *)
(** * The gateway returns

    Once the gateway has begun to shut down, the response queue is closed and
    nobody else runs any more, the gateway returns after finitely many events:
    wherever it is in its loop, it finishes the turn, and the next turn finds
    the response queue closed and empties it.  Before the shutdown begins the
    loop may run for ever, so what is carried along is [ST]: each point of the
    program from which the thread returns, if the conditions hold there. *)
From S2P Require Import Prelude Types Bytes OrderBook Journal Posix JournalStorage DurableEngine Wire WireCodec WireParser.
From S2P Require Import Threads BoundedQueue GatewayTypes Connection Gateway Exchange Pipeline PipelineInv.
From S2P Require Import GatewayInv GatewayMoves GatewayLoop JournalStorageProps DurableEngineProps WorkerLoop ExchangeInv.
From S2P Require Import ExchangeStart WorkerTermination.
Import Limiter.

(** ** The condition, and what does not establish it *)

Definition has_begun (g : GatewayState) : Prop := g_closed g = true.
Definition worker_is_done (s : SharedState) : Prop := BQ.closed_ (responses s) = true.

Definition closes {X} (e : Gateway.GatewayE X) : bool :=
  match e with Gateway.Shared RequestClose => true | _ => false end.

Lemma failed_call_closed err g g' : failed_call err g g' -> g_closed g' = g_closed g.
Proof. unfold failed_call. destruct (err =? EINTR); [by intros (n & _ & ->)|by intros ->]. Qed.

(** Only closing the request queue begins the shutdown. *)
Lemma step_keeps_closed X (e : Gateway.GatewayE X) g s x g' s' :
  closes e = false -> gateway_step X e g s x g' s' -> g_closed g' = g_closed g.
Proof.
  intros He Hst. destruct e; simpl in *.
  { destruct Hst as (n & _ & ->). destruct e; simpl; try done; repeat case_match; done. }
  all: unfold opening_call, plain_call, plain_check in Hst; repeat case_match; destruct_and?; subst; simpl;
    eauto using failed_call_closed.
  all: naive_solver.
Qed.

Abbreviation steadyg := (steady gateway_step has_begun).

Lemma steady_event {X A} (e : Gateway.GatewayE X) (k : X -> prog Gateway.GatewayE A) :
  closes e = false -> (forall x, steadyg (k x)) -> steadyg (Op e k).
Proof.
  intros He Hk. split; [|done]. intros g s x g' s' Hst. unfold has_begun.
  by rewrite (step_keeps_closed _ _ _ _ _ _ _ He Hst).
Qed.

Create HintDb steady.

(** Unfolds one construct of a program. *)
Ltac steady_step :=
  match goal with
  | |- steadyg (Ret _) => exact I
  | |- steadyg (Op _ _) => apply steady_event; [reflexivity|intros ?]
  | |- steadyg (abort _) => apply steady_event; [reflexivity|intros []]
  | |- steadyg (share _) => apply steady_event; [reflexivity|intros ?]
  | |- steadyg (call _) => apply steady_event; [reflexivity|intros ?]
  | |- steadyg (iter _ _) => split; [intros ?|intros ?; exact I]
  | |- steadyg (Iter _ _ _) => split; [intros ?|intros ?]
  | |- steadyg (for_each _ _ _) => apply steady_for_each; intros ? ?
  | |- steadyg _ => solve [auto with steady nocore]
  | |- steadyg (bind _ _) => apply steady_bind; [|intros ?]
  | |- steadyg (if ?b then _ else _) => destruct b
  | |- steadyg (match ?x with _ => _ end) => destruct x
  | |- steadyg (let _ := _ in _) => cbv zeta
  | _ => progress cbv beta
  end.
Ltac steady_by f := unfold f; repeat steady_step.

Lemma steady_close fd : steadyg (Gateway.close_descriptor fd).
Proof. steady_by Gateway.close_descriptor. Qed.
#[export] Hint Resolve steady_close : steady.

Lemma steady_wake : steadyg Gateway.wake.
Proof. steady_by @Gateway.wake. Qed.
#[export] Hint Resolve steady_wake : steady.

Lemma steady_request_stop : steadyg Gateway.request_stop.
Proof. steady_by @Gateway.request_stop. Qed.
#[export] Hint Resolve steady_request_stop : steady.

Lemma steady_release r : steadyg (Gateway.release r).
Proof. steady_by @Gateway.release. Qed.
#[export] Hint Resolve steady_release : steady.

Lemma steady_set_flag fd which flag : steadyg (Gateway.set_flag fd which flag).
Proof. steady_by Gateway.set_flag. Qed.
#[export] Hint Resolve steady_set_flag : steady.

Lemma steady_accept i : steadyg (Gateway.accept_connections i).
Proof.
  unfold Gateway.accept_connections, Gateway.must_reject, Gateway.emplace_connection,
    Gateway.set_nonblocking, Gateway.set_close_on_exec. repeat steady_step.
Qed.

Lemma steady_admit fd c m i : steadyg (Gateway.admit_request fd c m i).
Proof. steady_by Gateway.admit_request. Qed.
#[export] Hint Resolve steady_accept steady_admit : steady.

Lemma steady_admit_messages fd c ms i : steadyg (Gateway.admit_messages fd c ms i).
Proof. revert i. induction ms as [|m ms IH]; intros i; cbn [Gateway.admit_messages]; repeat steady_step. Qed.
#[export] Hint Resolve steady_admit_messages : steady.

Lemma steady_receive fd i : steadyg (Gateway.receive_from fd i).
Proof. unfold Gateway.receive_from, Gateway.receive_body. repeat steady_step. Qed.

Lemma steady_drain_pending i : steadyg (Gateway.drain_pending_requests i).
Proof. unfold Gateway.drain_pending_requests, Gateway.drain_pending_body. repeat steady_step. Qed.

Lemma steady_drain_completions i : steadyg (Gateway.drain_engine_completions i).
Proof. steady_by Gateway.drain_engine_completions. Qed.

Lemma steady_drain_wakeup : steadyg Gateway.drain_wakeup.
Proof. steady_by Gateway.drain_wakeup. Qed.

Lemma steady_shutdown_complete i : steadyg (Gateway.shutdown_complete i).
Proof. steady_by Gateway.shutdown_complete. Qed.
#[export] Hint Resolve steady_receive steady_drain_pending steady_drain_completions steady_drain_wakeup
  steady_shutdown_complete : steady.

Lemma steady_flush_output fd i : steadyg (Gateway.flush_output fd i).
Proof. unfold Gateway.flush_output, Output.flush, Output.flush_body. repeat steady_step. Qed.
#[export] Hint Resolve steady_flush_output : steady.

Lemma steady_flush_outputs i : steadyg (Gateway.flush_outputs_once i).
Proof. unfold Gateway.flush_outputs_once, Gateway.iteration_order. repeat steady_step. Qed.

Lemma steady_close_if_finished fd i : steadyg (Gateway.close_if_finished fd i).
Proof. unfold Gateway.close_if_finished, Gateway.erase_connection. repeat steady_step. Qed.
#[export] Hint Resolve steady_flush_outputs steady_close_if_finished : steady.

Lemma steady_serve_client i client : steadyg (Gateway.serve_client i client).
Proof. steady_by Gateway.serve_client. Qed.

(** ** After the shutdown has begun *)

Section returns.
  Context {W : Type} `{!Posix W}.
  Context (N M : nat) (HN : (0 < N)%nat) (HM : (0 < M)%nat) (limit outmax : nat).
  Context (winv : @WorkerState W -> Prop).
  Implicit Types (g : GatewayState) (i : Gateway.Impl) (s : SharedState).

Abbreviation gw_ok := (gw_ok limit outmax).
Abbreviation WPg := (WP gateway_step gateway_ok (GatewayLoop.inv N M limit winv)).
Abbreviation STg := (ST gateway_step (GatewayLoop.inv N M limit winv) has_begun worker_is_done).
Abbreviation alone := (alone_halts gateway_step has_begun worker_is_done).
Abbreviation begun i := (Gateway.shutdown_started i = true).

Ltac open_event := unfold share, call; cbn [bind].

(** An event that takes the thread to a program that always stops. *)
Lemma STg_event {X A} (e : Gateway.GatewayE X) (k : X -> prog Gateway.GatewayE A) g Q :
  (forall x g', STg (k x) g' Q) -> STg (Op e k) g Q.
Proof. intros H. apply ST_op. auto. Qed.

Lemma STg_seq {A B} (p : prog Gateway.GatewayE A) (f : A -> prog Gateway.GatewayE B) g (Q : A -> Prop) Q' :
  STg p g (fun a _ => Q a) -> (forall a g', Q a -> STg (f a) g' Q') -> STg (bind p f) g Q'.
Proof. intros Hp Hf. apply ST_bind. eapply ST_mono; [exact Hp|]. eauto. Qed.

Lemma STg_if {A} (b : bool) (p q : prog Gateway.GatewayE A) g Q :
  STg p g Q -> STg q g Q -> STg (if b then p else q) g Q.
Proof. by destruct b. Qed.

Lemma STg_abort {A} c g (Q : A -> GatewayState -> Prop) : STg (abort c) g Q.
Proof. apply STg_event. intros []. Qed.

(** An interrupted call has taken a signal. *)
Lemma failed_call_signals e g g' : failed_call e g g' -> (e =? EINTR) = true -> (g_signals g' < g_signals g)%nat.
Proof. unfold failed_call. intros H E. rewrite E in H. destruct H as (n & -> & ->). simpl. lia. Qed.

Lemma STg_wake g : STg Gateway.wake g (fun _ _ => True).
Proof.
  apply (ST_loop _ _ _ _ (fun _ _ => True) (fun _ os => g_signals os.1)); [done|..]; intros _.
  - intros g' _. open_event. apply STg_event. intros [n|e] g1; [by apply ST_ret|]. apply STg_if; by apply ST_ret.
  - intros [g' s] _ _. open_event. apply halts_op. intros [] x [g1 s'] [] (n & Hst & E) _. simpl in E, Hst. subst g1.
    destruct x as [k|e]; [by apply halts_ret|]. destruct (e =? EINTR) eqn:Ee; apply halts_ret; [|done].
    destruct Hst as [[Hrun ->]|(_ & Hn & _)]; simpl in *; [|lia].
    destruct (wakeups s <? EVENTFD_MAX); [done|]. injection Hrun as <- _. done.
Qed.

Lemma STg_request_stop g : STg Gateway.request_stop g (fun _ _ => True).
Proof. unfold Gateway.request_stop. open_event. apply STg_event. intros _ g'. apply STg_wake. Qed.

Lemma STg_drain_wakeup g : STg Gateway.drain_wakeup g (fun _ _ => True).
Proof.
  apply (ST_loop _ _ _ _ (fun _ _ => True)
    (fun _ os => (if (0 <? wakeups os.2)%Z then 1 else 0) + g_signals os.1)%nat); [done|..]; intros _.
  - intros g' _. open_event. apply STg_event. intros [n|e] g1; apply STg_if; by apply ST_ret.
  - intros [g' s] _ _. open_event. apply halts_op. intros [] x [g1 s'] [] Hst _. destruct x as [n|e]; cbn in Hst |- *.
    + destruct Hst as (-> & Hpos & -> & ->). apply halts_ret. simpl. rewrite (proj2 (Z.ltb_lt _ _) Hpos). lia.
    + destruct Hst as (-> & Hf & _). destruct (e =? EINTR) eqn:Ee; apply halts_ret; [|done].
      pose proof (failed_call_signals _ _ _ Hf Ee). simpl. lia.
Qed.

(** A turn of [flush] sends something, or takes a signal, or is the last one. *)
Lemma STg_flush fd b g : STg (Output.flush (fun bytes => call (Gateway.Send fd bytes)) b) g (fun _ _ => True).
Proof.
  apply (ST_loop _ _ _ _ (fun _ _ => True) (fun b os => Output.pending_size b + g_signals os.1)%nat); [done|..]; clear b g.
  - intros b g _. unfold Output.flush_body. apply STg_if; [by apply ST_ret|]. open_event. apply STg_event.
    intros [n|e] g1; repeat apply STg_if; by apply ST_ret.
  - intros b [g s] _ _. unfold Output.flush_body. destruct (Output.empty b); [by apply halts_ret|].
    open_event. apply halts_op. intros [] x [g1 s'] [] [E Hst] _. simpl in E, Hst. subst s'.
    destruct x as [n|e].
    + destruct Hst as (_ & rcv & snt & _ & ->). destruct (Z.ltb_spec 0 n) as [Hn|]; [|by apply halts_ret].
      case_bool_decide as Hp; [by apply halts_ret|]. cbv zeta. destruct (Output.empty _) eqn:Ee; [by apply halts_ret|].
      apply halts_ret. unfold Output.empty in Ee. apply bool_decide_eq_false in Ee.
      unfold Output.pending_size in *. simpl in *. lia.
    + destruct (e =? EINTR) eqn:Ee; [|destruct (_ || _); by apply halts_ret]. apply halts_ret.
      pose proof (failed_call_signals _ _ _ Hst Ee). simpl. lia.
Qed.

(** Delivering changes connections only. *)
Lemma deliver_members r i :
  Gateway.shutdown_started (Gateway.deliver r i) = Gateway.shutdown_started i /\
  Gateway.has_response_queue (Gateway.deliver r i) = Gateway.has_response_queue i.
Proof. unfold Gateway.deliver, Gateway.queue_response, Gateway.alter_connection. repeat case_match; done. Qed.

Lemma STg_release r g : STg (Gateway.release r) g (fun _ _ => True).
Proof.
  unfold Gateway.release. apply STg_if; [|by apply ST_ret]. open_event. apply STg_event. intros _ g'. by apply ST_ret.
Qed.

(** Releasing a reservation does not touch the queue. *)
Lemma alone_release r (os : GatewayState * SharedState) :
  stopping has_begun worker_is_done os ->
  alone (fun _ os' => responses os'.2 = responses os.2) (Gateway.release r) os.
Proof.
  intros Hs. unfold Gateway.release. destruct (owner_ r); [|by apply halts_ret]. open_event.
  apply halts_op. intros [] [] [g1 s1] [] (n & Hst & _) _. simpl in Hst. apply halts_ret. simpl.
  destruct Hst as [[Hr _]|[[] _]]. simpl in Hr. destruct (release_one (limiter os.2)); [|done..]. by injection Hr as <-.
Qed.

(** One turn of the loop of [drain_engine_completions]. *)
Abbreviation pop_turn := (fun i =>
  let* completion := share ResponseTryPop in
  match completion with
  | None => Ret (inr i)
  | Some completion =>
      let i := Gateway.deliver (ec_response completion) i in
      let* _r := Gateway.release (ec_completion completion) in Ret (inl i)
  end).

(** It pops, or finds the queue empty. *)
Lemma alone_pop_turn i g s :
  begun i ->
  alone (fun t os' => match t with
    | inl i' => begun i' /\ (length (BQ.items_ (responses os'.2)) < length (BQ.items_ (responses s)))%nat
    | inr i' => begun i' /\ BQ.items_ (responses os'.2) = []
    end) (pop_turn i) (g, s).
Proof.
  intros Hi. open_event. apply halts_op. intros [] x [g1 s1] [] (n & Hst & _) Hs1. simpl in Hst.
  destruct Hst as [[Hr _]|[Hf _]]; [|by destruct x]. simpl in Hr.
  pose proof (BQ.try_pop_cases (responses s)) as Hc. destruct (BQ.try_pop (responses s)) as [y q].
  injection Hr as -> <-. destruct Hc as (_ & _ & Hc). destruct x as [c|]; [|by apply halts_ret; destruct Hc].
  eapply alone_bind; [by apply alone_release|done|]. intros _ [g2 s2] E _. simpl in E. apply halts_ret.
  split; [by rewrite (proj1 (deliver_members _ _))|]. simpl. rewrite E, Hc. simpl. lia.
Qed.

(** [drain_engine_completions] pops until the queue is empty. *)
Lemma alone_drain_completions i os :
  begun i -> stopping has_begun worker_is_done os ->
  alone (fun i' os' => begun i' /\ (Gateway.has_response_queue i' = true -> BQ.items_ (responses os'.2) = []))
    (Gateway.drain_engine_completions i) os.
Proof.
  intros Hi Hs. unfold Gateway.drain_engine_completions.
  destruct (Gateway.has_response_queue i) eqn:Hq; cbn [negb]; [|apply halts_ret; by rewrite Hq].
  open_event. apply halts_op. intros [] sz os1 [] _ Hs1.
  apply (alone_loop _ _ _ (fun i _ => begun i) (fun _ os => length (BQ.items_ (responses os.2)))); [done..|].
  intros i' [g s] Hi' _. eapply halts_mono; [by apply alone_pop_turn|]. by intros [i2|i2] os' [? ?].
Qed.

Abbreviation still := (fun i' (_ : GatewayState) => begun i').

Lemma STg_drain_completions i g : begun i -> STg (Gateway.drain_engine_completions i) g still.
Proof.
  intros Hi. unfold Gateway.drain_engine_completions. apply STg_if; [by apply ST_ret|]. open_event. apply STg_event.
  intros _ g0. clear g. apply (ST_loop _ _ _ _ still (fun _ os => length (BQ.items_ (responses os.2)))); [done|..]; clear i Hi g0.
  - intros i g Hi. open_event. apply STg_event. intros [c|] g1; [|by apply ST_ret].
    eapply STg_seq; [apply (STg_release _ g1)|]. intros _ g2 _. apply ST_ret. by rewrite (proj1 (deliver_members _ _)).
  - intros i [g s] Hi _. eapply halts_mono; [by apply alone_pop_turn|]. by intros [i2|i2] os' [? ?].
Qed.

Lemma STg_begin_shutdown i g : begun i -> STg (Gateway.begin_shutdown_if_requested i) g still.
Proof.
  intros Hi. unfold Gateway.begin_shutdown_if_requested. open_event. apply STg_event. intros stop g1.
  rewrite Hi, orb_true_r. by apply ST_ret.
Qed.

Lemma STg_drain_pending i g : begun i -> STg (Gateway.drain_pending_requests i) g still.
Proof. intros Hi. unfold Gateway.drain_pending_requests. rewrite Hi. by apply ST_ret. Qed.

Lemma STg_shutdown_complete i g : STg (Gateway.shutdown_complete i) g (fun _ _ => True).
Proof.
  unfold Gateway.shutdown_complete. apply STg_if; [by apply ST_ret|]. apply STg_if; [by apply ST_ret|].
  open_event. apply STg_event. intros closed g1. apply STg_if; [by apply ST_ret|].
  apply STg_event. intros sz g2. by apply ST_ret.
Qed.

(** ** Connections *)

Lemma STg_flush_output fd i g b :
  Gateway.shutdown_started i = b -> STg (Gateway.flush_output fd i) g (fun i' _ => Gateway.shutdown_started i' = b).
Proof.
  intros Hi. unfold Gateway.flush_output. destruct (Gateway.connections i !! fd); [|apply STg_abort].
  eapply STg_seq; [apply STg_flush|]. intros [r out] g1 _. apply ST_ret. by case_bool_decide.
Qed.

Lemma STg_iteration_order i g : STg (Gateway.iteration_order i) g (fun _ _ => True).
Proof. apply STg_event. intros l g'. by apply ST_ret. Qed.

Lemma STg_flush_outputs i g : STg (Gateway.flush_outputs_once i) g (fun _ _ => True).
Proof.
  unfold Gateway.flush_outputs_once. eapply STg_seq; [apply STg_iteration_order|]. intros order g1 _.
  apply ST_for_each; [done|]. intros fd i' g2 _. destruct (Gateway.connections i' !! fd); [|apply STg_abort].
  apply STg_if; [by apply ST_ret|]. eapply ST_mono; [by apply STg_flush_output|done].
Qed.

Lemma STg_close_descriptor fd g : STg (Gateway.close_descriptor fd) g (fun _ _ => True).
Proof.
  unfold Gateway.close_descriptor. apply STg_if; [|by apply ST_ret]. open_event. apply STg_event. intros _ g'. by apply ST_ret.
Qed.

Lemma STg_erase fd i g b :
  Gateway.shutdown_started i = b -> STg (Gateway.erase_connection fd i) g (fun i' _ => Gateway.shutdown_started i' = b).
Proof.
  intros Hi. unfold Gateway.erase_connection. destruct (Gateway.connections i !! fd); [|apply STg_abort].
  eapply STg_seq; [apply STg_close_descriptor|]. intros _ g1 _. by apply ST_ret.
Qed.

Lemma STg_close_all i g : STg (Gateway.close_all_connections i) g (fun _ _ => True).
Proof.
  unfold Gateway.close_all_connections. eapply STg_seq; [apply STg_iteration_order|]. intros order g1 _.
  apply ST_for_each; [done|]. intros fd i' g2 _. eapply ST_mono; [by apply STg_erase|done].
Qed.

Lemma STg_receive fd i g : begun i -> STg (Gateway.receive_from fd i) g still.
Proof.
  intros Hi. apply (ST_loop _ _ _ _ still (fun _ _ => 0%nat)); [done|..]; clear i g Hi.
  - intros i g Hi. unfold Gateway.receive_body. destruct (Gateway.connections i !! fd); [|apply STg_abort].
    rewrite Hi, orb_true_r. by apply ST_ret.
  - intros i [g s] Hi _. simpl in Hi. unfold Gateway.receive_body. destruct (Gateway.connections i !! fd).
    + rewrite Hi, orb_true_r. by apply halts_ret.
    + apply halts_op. intros ? [].
Qed.

Lemma STg_serve_client i g client : begun i -> STg (Gateway.serve_client i client) g still.
Proof.
  intros Hi. destruct client as [fd events]. unfold Gateway.serve_client.
  destruct (Gateway.connections i !! fd); [|by apply ST_ret].
  eapply (STg_seq _ _ _ (fun i => begun i)); [apply STg_if; [by apply STg_receive|by apply ST_ret]|].
  clear i g Hi. intros i g Hi. eapply (STg_seq _ _ _ (fun i => begun i)).
  { destruct (Gateway.connections i !! fd); [|by apply ST_ret]. apply STg_if; [by apply STg_flush_output|by apply ST_ret]. }
  clear i g Hi. intros i g Hi. unfold Gateway.close_if_finished.
  assert (begun (match Gateway.connections i !! fd with
    | Some _ => if has_event events (Z.lor POLLERR (Z.lor POLLHUP POLLNVAL))
                then Gateway.alter_connection Gateway.set_closing fd i else i
    | None => i end)) as Hi' by (repeat case_match; done).
  set (i' := match _ with Some _ => _ | None => i end) in *. clearbody i'.
  destruct (Gateway.connections i' !! fd); [|by apply ST_ret]. apply STg_if; [by apply STg_erase|by apply ST_ret].
Qed.

(** ** The loop *)

(** The shutdown has not begun, and the members are well-formed; or it has. *)
Definition phase i g : Prop := (gw_ok None i g /\ ~ has_begun g) \/ begun i.

Lemma phase_view i g g' : view g' = view g -> phase i g -> phase i g'.
Proof.
  intros Hv [[H Hn]|Hb]; [left|by right]. split; [by eapply gw_ok_view|]. unfold has_begun.
  injection Hv as _ _ _ _ _ ->. done.
Qed.

(** A part of the loop that does not begin the shutdown. *)
Lemma STg_phase {A} (h : A -> Gateway.Impl) (p : prog Gateway.GatewayE A) i g :
  phase i g -> steadyg p ->
  (gw_ok None i g -> WPg p g (fun a g' => gw_ok None (h a) g')) ->
  (begun i -> STg p g (fun a _ => begun (h a))) ->
  STg p g (fun a g' => phase (h a) g').
Proof.
  intros [[H Hn]|Hb] Hs HW HS.
  - eapply ST_mono; [eapply ST_steady; [by apply HW|done..]|]. intros a g' ?. by left.
  - eapply ST_mono; [by apply HS|]. intros a g' ?. by right.
Qed.

Lemma phase_begin_shutdown i g : phase i g -> STg (Gateway.begin_shutdown_if_requested i) g phase.
Proof.
  intros Hp. unfold Gateway.begin_shutdown_if_requested. open_event. apply ST_op.
  intros s stop g1 s1 (n & _ & ->). simpl. set (g1 := if stop then _ else _).
  assert (phase i g1) as Hp1 by (eapply phase_view; [|exact Hp]; unfold g1; by destruct stop).
  clearbody g1. destruct (negb stop || _); [by apply ST_ret|]. cbv zeta.
  eapply STg_seq; [apply STg_close_descriptor|]. intros l g2 _. open_event. apply STg_event.
  intros _ g3. apply ST_ret. by right.
Qed.

Lemma phase_drain_completions i g : phase i g -> STg (Gateway.drain_engine_completions i) g phase.
Proof using HN HM.
  intros Hp. apply (STg_phase (fun i => i) _ i); [done|apply steady_drain_completions|..].
  - intros H. eapply WP_mono; [by apply WPg_drain_completions|]. by intros ? ? [? _].
  - intros Hb. by apply STg_drain_completions.
Qed.

Lemma phase_drain_pending i g : phase i g -> STg (Gateway.drain_pending_requests i) g phase.
Proof using HN HM.
  intros Hp. apply (STg_phase (fun i => i) _ i); [done|apply steady_drain_pending|..].
  - intros H. eapply WP_mono; [by apply WPg_drain_pending|]. by intros ? ? [? _].
  - intros Hb. by apply STg_drain_pending.
Qed.

Lemma phase_request_stop i g : phase i g -> STg Gateway.request_stop g (fun _ g' => phase i g').
Proof using HN HM.
  intros Hp. apply (STg_phase (fun _ => i) _ i); [done|apply steady_request_stop|..].
  - intros H. eapply WPg_request_stop; [done..|]. intros g' Hv. by eapply gw_ok_view.
  - intros Hb. eapply ST_mono; [apply STg_request_stop|done].
Qed.

Lemma phase_handle_events clients revents i g : phase i g -> STg (Gateway.handle_events clients revents i) g phase.
Proof using HN HM.
  intros Hp. unfold Gateway.handle_events. set (rest := drop _ _). clearbody rest.
  destruct (revents !! _) as [ew|]; [|apply STg_abort]. destruct (revents !! 0%nat) as [el|]; [|apply STg_abort].
  apply ST_bind. eapply (ST_mono _ _ _ _ _ _ phase).
  { apply STg_if; [|by apply ST_ret]. apply ST_bind. eapply ST_mono.
    - apply (STg_phase (fun _ => i) _ i); [done|apply steady_drain_wakeup|..].
      + intros H. eapply WPg_drain_wakeup; [done..|]. intros g' Hv. by eapply gw_ok_view.
      + intros Hb. eapply ST_mono; [apply STg_drain_wakeup|done].
    - clear g Hp. intros [] g Hp. cbv beta in Hp. apply ST_bind. eapply ST_mono; [by apply phase_begin_shutdown|].
      intros i1 g1 H1. apply ST_bind. eapply ST_mono; [by apply phase_drain_completions|].
      intros i2 g2 H2. by apply phase_drain_pending. }
  clear i g Hp. intros i g Hp. apply ST_bind. eapply (ST_mono _ _ _ _ _ _ phase).
  { destruct (Z.leb_spec 0 (Gateway.listener_descriptor i)) as [Hl|]; [|by apply ST_ret].
    apply ST_bind. eapply (ST_mono _ _ _ _ _ _ phase).
    - destruct (has_event el POLLIN && _) eqn:E; [|by apply ST_ret].
      apply (STg_phase (fun i => i) _ i); [done|apply steady_accept|intros H; by apply WPg_accept|].
      intros Hb. rewrite Hb, andb_false_r in E. done.
    - intros i1 g1 H1. apply STg_if; [|by apply ST_ret].
      apply ST_bind. eapply ST_mono; [by apply phase_request_stop|]. intros [] g2 H2. by apply ST_ret. }
  clear i g Hp. intros i g Hp. apply ST_for_each; [done|]. clear i g Hp. intros client i g Hp.
  apply (STg_phase (fun i => i) _ i); [done|apply steady_serve_client|intros H; by apply WPg_serve_client|].
  intros Hb. by apply STg_serve_client.
Qed.

Lemma phase_run_body i g :
  phase i g -> STg (Gateway.run_body i) g (fun t g' => match t with inl i' => phase i' g' | inr _ => True end).
Proof using HN HM.
  intros Hp. unfold Gateway.run_body.
  apply ST_bind. eapply ST_mono; [by apply phase_begin_shutdown|]. clear i g Hp. intros i g Hp.
  apply ST_bind. eapply ST_mono; [by apply phase_drain_completions|]. clear i g Hp. intros i g Hp.
  apply ST_bind. eapply ST_mono; [by apply phase_drain_pending|]. clear i g Hp. intros i g Hp.
  apply ST_bind. eapply ST_mono.
  { apply (STg_phase (fun _ => i) _ i); [done|apply steady_shutdown_complete|..].
    - intros H. eapply WP_mono; [by apply WPg_shutdown_complete|]. by intros ? ? [? _].
    - intros Hb. eapply ST_mono; [apply STg_shutdown_complete|done]. }
  clear g Hp. intros complete g Hp. cbv beta in Hp. apply STg_if.
  { eapply STg_seq; [apply STg_flush_outputs|]. intros i' g' _. by apply ST_ret. }
  unfold Gateway.iteration_order. open_event. apply ST_op. intros s order g1 s1 (_ & _ & ->).
  apply ST_op. intros s2 [] g2 s3 [_ ->]. apply ST_op. intros s4 x g3 s5 [_ Hx].
  assert (phase i (set_snapshot i g)) as Hp2 by (by eapply phase_view; [|exact Hp]).
  destruct x as [revents|e].
  - destruct Hx as (-> & _). apply ST_bind. eapply ST_mono; [by apply phase_handle_events|]. intros i' g' H'. by apply ST_ret.
  - destruct (failed_call_quiet _ _ _ Hx) as [Hv _]. assert (phase i g3) as Hp3 by (by eapply phase_view).
    apply STg_if; [by apply ST_ret|].
    apply ST_bind. eapply ST_mono; [by apply phase_request_stop|]. intros [] g4 H4. by apply ST_ret.
Qed.

(** The last turn: the response queue is closed and gets empty. *)
Lemma alone_run_body i os :
  begun i -> stopping has_begun worker_is_done os ->
  alone (fun t _ => match t with inl _ => False | inr _ => True end) (Gateway.run_body i) os.
Proof.
  intros Hi Hs. unfold Gateway.run_body. destruct os as [g s].
  eapply alone_bind; [apply (ST_halts _ _ _ _ _ _ _ _ (STg_begin_shutdown i g Hi) Hs)|done|].
  clear i g s Hi Hs. intros i os Hi Hs. eapply alone_bind; [by apply alone_drain_completions|done|].
  clear i os Hi Hs. intros i [g s] [Hi He] Hs. unfold Gateway.drain_pending_requests. rewrite Hi. cbn [bind].
  eapply (alone_bind _ _ _ _ _ _ (fun b _ => b = true)); [|done|].
  - unfold Gateway.shutdown_complete. rewrite Hi. cbn [negb].
    destruct (Gateway.has_response_queue i); cbn [negb]; [|by apply halts_ret].
    open_event. apply halts_op. intros [] closed [g1 s1] [] (n & Hst & _) _. simpl in Hst.
    destruct Hst as [[[= <- <-] _]|[[] _]]. destruct Hs as [_ Hk]. unfold worker_is_done in Hk. simpl in Hk.
    unfold BQ.closed. rewrite Hk. cbn [negb]. apply halts_op. intros [] sz [g2 s2] [] (m & Hst & _) _. simpl in Hst.
    destruct Hst as [[[= <- <-] _]|[[] _]]. apply halts_ret. unfold BQ.size. simpl in He. by rewrite He.
  - intros _ [g1 s1] -> Hs1. eapply alone_bind; [apply (ST_halts _ _ _ _ _ _ _ _ (STg_flush_outputs i g1) Hs1)|done|].
    intros i' os' _ _. by apply halts_ret.
Qed.

Lemma STg_run i g : phase i g -> STg (Gateway.run i) g (fun _ _ => True).
Proof using HN HM.
  intros Hp. unfold Gateway.run. apply ST_bind. apply (ST_iter _ _ _ _ phase); [done| |].
  - clear i g Hp. intros i g s Hp Hs. assert (begun i) as Hi by (destruct Hp as [[_ Hn]|?]; [by destruct Hs|done]).
    apply halts_iter. eapply alone_bind; [by apply alone_run_body|done|].
    intros [i'|i'] [g' s'] Ht Hs'; [done|]. apply halts_ret. simpl.
    eapply STg_seq; [apply STg_close_descriptor|]. intros l g2 _. apply STg_close_all.
  - clear i g Hp. intros i g Hp. eapply ST_mono; [by apply phase_run_body|]. intros [i'|i'] g' H'; [done|].
    eapply STg_seq; [apply STg_close_descriptor|]. intros l g2 _. apply STg_close_all.
Qed.

End returns.

(** ** The gateway of a server *)

Section server.
  Context {W : Type} `{!Posix W, !PosixView W, !PosixLaws W}.
  Context (config : ExchangeServerConfig) (p : path) (lo cs : list JournalCommand) (b : OrderBook.Impl).
  Implicit Types (v : @Server W).

Abbreviation N := (maximum_in_flight config).
Abbreviation M := (request_queue_capacity config).
Abbreviation limit := (maximum_input_buffer_bytes (esc_gateway config)).
Abbreviation inv := (GatewayLoop.inv N M limit (winv p lo cs b)).
Abbreviation stopped v := (stopping has_begun worker_is_done (gs v, sh v)).

Definition gateway_stops v : Prop :=
  ST gateway_step inv has_begun worker_is_done (gateway_thread v) (gs v) (fun _ _ => True).

Lemma ST_thread_step {A} (q q' : prog Gateway.GatewayE A) g g' r s s' Q :
  ST gateway_step inv has_begun worker_is_done q g Q -> inv g r s -> thread_step gateway_step q g s q' g' s' ->
  ST gateway_step inv has_begun worker_is_done q' g' Q.
Proof.
  intros H Hi Hst n. destruct Hst as [X e k g s x g' s' Hst|L B body l k g s].
  - destruct (H (S n)) as [_ Hk]. by eapply Hk.
  - apply st_unfold, H.
Qed.

Lemma gateway_stops_step v v' :
  server_step v v' -> server_inv config p lo cs b v -> gateway_stops v -> gateway_stops v'.
Proof.
  intros Hst [L Hg Hw _ _ _] H. destruct Hst as [q q' wp cp g g' w c s s' Hst| |]; [|done..].
  by eapply (ST_thread_step _ _ _ _ (w, c)).
Qed.

Lemma gateway_stops_steps v v' :
  rtc server_step v v' -> server_inv config p lo cs b v -> gateway_stops v ->
  server_inv config p lo cs b v' /\ gateway_stops v'.
Proof. induction 1; eauto using server_inv_step, gateway_stops_step. Qed.

(** When the worker has returned, the shutdown has begun. *)
Lemma worker_returned_stopped v :
  server_inv config p lo cs b v -> worker_thread v = Ret tt -> stopped v.
Proof.
  intros Hi Ew. pose proof (si_linked _ _ _ _ _ _ Hi) as L.
  pose proof (si_worker _ _ _ _ _ _ Hi 1%nat) as HW. rewrite Ew in HW. destruct HW as (Hdone & _).
  destruct (l_finished _ _ _ _ _ _ L Hdone) as [Hend _]. destruct (l_end _ _ _ _ _ _ L Hend) as [Hgc _].
  split; [done|]. unfold worker_is_done. simpl. by rewrite (l_done _ _ _ _ _ _ L).
Qed.

(** A server of which only the gateway is left makes finitely many steps. *)
Lemma gateway_acc v :
  server_inv config p lo cs b v -> gateway_stops v -> worker_thread v = Ret tt -> control_thread v = Ret tt ->
  Acc (flip server_step) v.
Proof.
  intros Hi Hs Ew Ec. pose proof (ST_halts _ _ _ _ _ _ _ _ Hs (worker_returned_stopped v Hi Ew)) as H. clear Hs.
  remember (gateway_thread v) as q eqn:Eq. remember (gs v, sh v) as os eqn:Eos. unfold alone_halts in H.
  revert v Hi Ew Ec Eq Eos. induction H as [i os _|X e k os _ IH|L B body l k os _ IH]; intros v Hi Ew Ec Eq Eos;
    constructor; intros v' Hst; pose proof (server_inv_step _ _ _ _ _ _ _ Hst Hi) as Hi';
    destruct Hst as [q q' wp cp g g' w c s s' Hm|gp q q' cp g w w' c s s' Hm|gp wp q q' g w c c' s s' Hm];
    simpl in *; subst; apply thread_step_inv in Hm; try (exfalso; exact Hm).
  - destruct Hm as (x & Hm & ->).
    pose proof (worker_returned_stopped _ Hi' eq_refl) as Hs'. exact (IH tt x (g', s') tt Hm Hs' _ Hi' eq_refl eq_refl eq_refl eq_refl).
  - destruct Hm as (-> & -> & ->). exact (IH _ Hi' eq_refl eq_refl eq_refl eq_refl).
Qed.

(** ** Progress *)

(** [poll] blocks while no wakeup is pending, if nothing else is ready. *)
Definition may_block {X} (e : Gateway.GatewayE X) s : Prop :=
  match e with Gateway.Poll _ => wakeups s = 0 | _ => False end.

(** A readable eventfd, and nothing else. *)
Definition only_wakeup g (d : pollfd) : Z :=
  match g_fds g !! pfd_fd d with Some EventFdFd => POLLIN | _ => 0 end.

Lemma poll_answers ds g s :
  Exists (fun d => g_fds g !! pfd_fd d = Some EventFdFd /\ has_event (pfd_events d) POLLIN = true) ds ->
  0 < wakeups s -> gateway_step _ (Gateway.Poll ds) g s (inl (only_wakeup g <$> ds)) g s.
Proof.
  intros Hex Hw. split; [done|]. split; [done|]. split; [by rewrite length_fmap|]. split.
  - apply Exists_fmap. eapply Exists_impl; [exact Hex|]. intros d [Hd _]. simpl. unfold only_wakeup. by rewrite Hd.
  - intros n d r Hn Hr Hd. rewrite list_lookup_fmap, Hn in Hr. injection Hr as <-. unfold only_wakeup. by rewrite Hd.
Qed.

(** Every other call has an answer at any time. *)
Lemma gateway_answers X (e : Gateway.GatewayE X) g s :
  gateway_ok X e g s -> BQ.closed_ (requests s) = true -> 0 <= wakeups s -> ~ may_block e s ->
  exists x g' s', gateway_step X e g s x g' s'.
Proof.
  intros Hok Hs Hw Hb. destruct e; simpl in *.
  { destruct (shared_answers e s Hok Hs) as [[x s'] E]. exists x. eexists _, s'. exists (g_signals g).
    split; [by left|done]. }
  { destruct (Z.eq_dec (wakeups s) 0) as [E|E].
    - exists (inr EAGAIN), g, s. split_and!; [done|done|by left|done].
    - exists (inl 8). eexists _, _. split_and!; [done|lia|done|done]. }
  { destruct Hok as (_ & Hex & _). eexists _, _, _. apply poll_answers; [exact Hex|lia]. }
  all: try (by exists (inr EAGAIN), g, s).
  all: try (by exists None, g, s).
  all: try (by eexists tt, _, s).
  by exists keys, g, s.
Qed.

(** The gateway waits in [poll], and there is no wakeup for it. *)
Definition gateway_blocked v : Prop :=
  match gateway_thread v with Op e _ => may_block e (sh v) | _ => False end.

(** When the worker has returned and no stop is half-requested, a wakeup waits
    for the gateway if it is about to sleep. *)
Lemma gateway_not_blocked v :
  server_inv config p lo cs b v -> worker_thread v = Ret tt -> ~ gateway_blocked v.
Proof.
  intros Hi Ew Hb. pose proof (si_linked _ _ _ _ _ _ Hi) as L.
  destruct (server_inv_ok _ _ _ _ _ _ Hi) as (Hgok & _). unfold gateway_blocked in Hb.
  destruct (gateway_thread v) as [|X e k|]; [done| |done]. destruct e; simpl in Hb; try done.
  destruct Hgok as (_ & _ & _ & Hur & Hcl & _).
  pose proof (si_worker _ _ _ _ _ _ Hi 1%nat) as HW. rewrite Ew in HW. destruct HW as (Hdone & _ & Howes & _).
  destruct (worker_returned_stopped v Hi Ew) as [Hgc _]. unfold has_begun in Hgc. simpl in Hgc.
  destruct (Hcl Hgc) as [Huc|Hsi].
  - destruct (l_wake_close _ _ _ _ _ _ L Hdone) as [?|[?|?]]; [congruence|lia|congruence].
  - destruct (l_wake_responses _ _ _ _ _ _ L (l_saw_items _ _ _ _ _ _ L Hsi)) as [?|[?|?]]; [congruence|lia|congruence].
Qed.

(** A thread that has returned does not move. *)
Lemma returned_stays v v' :
  rtc server_step v v' -> worker_thread v = Ret tt -> control_thread v = Ret tt ->
  worker_thread v' = Ret tt /\ control_thread v' = Ret tt.
Proof.
  induction 1 as [v|v1 v2 v3 Hst _ IH]; intros Ew Ec; [done|].
  destruct Hst as [| gp q q' cp g w w' c s s' Hm|gp wp q q' g w c c' s s' Hm]; simpl in *; subst; [by apply IH|..];
    apply thread_step_inv in Hm; destruct Hm.
Qed.

Lemma gateway_can_move v :
  server_inv config p lo cs b v -> worker_thread v = Ret tt -> (forall i, gateway_thread v <> Ret i) ->
  exists v', server_step v v'.
Proof.
  intros Hi Ew Hg. pose proof (gateway_not_blocked v Hi Ew) as Hb. unfold gateway_blocked in Hb.
  pose proof (si_linked _ _ _ _ _ _ Hi) as L. destruct (worker_returned_stopped v Hi Ew) as [Hgc _].
  destruct (server_inv_ok _ _ _ _ _ _ Hi) as (Hok & _). destruct v as [gp wp cp g w c s]. simpl in *.
  destruct gp as [i|X e k|L' B body l k]; [by destruct (Hg i)| |by eexists; constructor; constructor].
  destruct (gateway_answers X e g s) as (x & g' & s' & Hst); [done|by rewrite (l_closed _ _ _ _ _ _ L)|apply L|done|].
  eexists. constructor. by constructor.
Qed.

End server.

(** Every server that was launched is in such a state. *)
Lemma launched_stops {W} `{!Posix W, !PosixView W, !PosixLaws W} config p lo cs (v0 v : @Server W) :
  launched config p lo cs v0 -> histogram_fits config -> rtc server_step v0 v ->
  exists b, server_inv config p lo cs b v /\ gateway_stops config p lo cs b v.
Proof.
  intros (b & rs & impl & gw & fds & proc & throws & signals & Hv & Hrs & Hready & ->)%launched_ready Hh Hst.
  exists b. eapply gateway_stops_steps; [exact Hst|by apply start_inv|].
  unfold Exchange.invalid_configuration in Hv. apply orb_false_iff in Hv as [[HN HM]%orb_false_iff _].
  apply bool_decide_eq_false in HN, HM.
  eapply STg_run; [lia|lia|]. left. split; [by eapply start_gateway|done].
Qed.
