(* ===== verification/Scenario.v ===== *)
(** * Running a server

    A deterministic environment for the threads: clients that connect and send
    chunks of bytes, system calls that succeed, and a schedule.  What it computes
    is an execution of the server ([play_steps]), so that concrete runs can be
    evaluated. *)
From S2P Require Import Prelude Types Bytes OrderBook Journal Posix JournalStorage DurableEngine Wire Threads.
From S2P Require Import BoundedQueue GatewayTypes Connection Gateway Exchange Pipeline ExchangeStart.

(** ** The kernel *)

(** Clients that wait to be accepted, each with the chunks it sends (an empty
    chunk is the end of its stream); the chunks of the accepted ones; the next
    descriptor. *)
Record Kernel := mkKernel {
  k_clients : list (list (list byte));
  k_chunks : gmap Z (list (list byte));
  k_next : Z;
}.

(** What [poll] reports of a descriptor. *)
Definition poll_one (g : GatewayState) (s : SharedState) (k : Kernel) (d : pollfd) : Z :=
  match g_fds g !! pfd_fd d with
  | Some ListenerFd => if bool_decide (k_clients k = []) then 0 else POLLIN
  | Some EventFdFd => if 0 <? wakeups s then POLLIN else 0
  | Some (ConnectionFd _ _) =>
      Z.lor (if has_event (pfd_events d) POLLIN && negb (bool_decide (default [] (k_chunks k !! pfd_fd d) = []))
             then POLLIN else 0)
            (if has_event (pfd_events d) POLLOUT then POLLOUT else 0)
  | None => POLLNVAL
  end.

(** A new descriptor. *)
Definition open_fd (d : Descriptor) (g : GatewayState) (k : Kernel) : option (Fd * GatewayState) :=
  let fd := k_next k in
  if (0 <=? fd) && bool_decide (g_fds g !! fd = None)
  then Some (fd, set_fds (<[fd := d]> (g_fds g)) g) else None.

Abbreviation next_fd k := (mkKernel (k_clients k) (k_chunks k) (k_next k + 1)).

(** The answer to an event of the gateway; [None] while it blocks. *)
Definition gateway_answer {X} (e : Gateway.GatewayE X) (g : GatewayState) (s : SharedState) (k : Kernel)
  : option (X * GatewayState * SharedState * Kernel) :=
  match e in Gateway.GatewayE X return option (X * GatewayState * SharedState * Kernel) with
  | Gateway.Shared e =>
      match shared_run e s with
      | Some (x, s') => Some (x, gateway_note e (set_signals (g_signals g) g) x, s', k)
      | None => None
      end
  | Gateway.ReadWakeup =>
      if 0 <? wakeups s then Some (inl 8, set_unseen true true true g, set_wakeups 0 s, k)
      else if wakeups s =? 0 then Some (inr EAGAIN, g, s, k) else None
  | Gateway.Poll descriptors =>
      let revents := poll_one g s k <$> descriptors in
      if bool_decide (Exists (fun r => r <> 0) revents) then Some (inl revents, g, s, k) else None
  | Gateway.Accept _ =>
      match k_clients k with
      | [] => Some (inr EAGAIN, g, s, k)
      | chunks :: rest =>
          match open_fd (ConnectionFd [] []) g k with
          | Some (fd, g') => Some (inl fd, g', s, mkKernel rest (<[fd := chunks]> (k_chunks k)) (fd + 1))
          | None => None
          end
      end
  | Gateway.FcntlGet _ _ => Some (inl 0, g, s, k)
  | Gateway.FcntlSet _ _ _ => Some (None, g, s, k)
  | Gateway.Recv fd n =>
      match k_chunks k !! fd, g_fds g !! fd with
      | Some (chunk :: rest), Some (ConnectionFd received sent) =>
          if bool_decide (wf_bytes chunk /\ (length chunk <= n)%nat)
          then Some (inl chunk, set_fds (<[fd := ConnectionFd (received ++ chunk) sent]> (g_fds g)) g, s,
                     mkKernel (k_clients k) (<[fd := rest]> (k_chunks k)) (k_next k))
          else None
      | _, _ => Some (inr EAGAIN, g, s, k)
      end
  | Gateway.Send fd bytes =>
      match g_fds g !! fd with
      | Some (ConnectionFd received sent) =>
          Some (inl (Z.of_nat (length bytes)),
                set_fds (<[fd := ConnectionFd received (sent ++ bytes)]> (g_fds g)) g, s, k)
      | _ => None
      end
  | Gateway.Close fd => Some (tt, set_ids (delete fd (g_ids g)) (set_fds (delete fd (g_fds g)) g), s, k)
  | Gateway.InetPton _ => Some (Some 0, g, s, k)
  | Gateway.Socket =>
      match open_fd ListenerFd g k with Some (fd, g') => Some (inl fd, g', s, next_fd k) | None => None end
  | Gateway.SetReuseAddress _ => Some (None, g, s, k)
  | Gateway.Bind _ _ _ => Some (None, g, s, k)
  | Gateway.Listen _ _ => Some (None, g, s, k)
  | Gateway.GetSocketPort _ => Some (inl 9000, g, s, k)
  | Gateway.EventFd =>
      match open_fd EventFdFd g k with Some (fd, g') => Some (inl fd, g', s, next_fd k) | None => None end
  | Gateway.IterationOrder keys => Some (keys, g, s, k)
  | Gateway.ResponseHook _ => Some (None, g, s, k)
  | Gateway.Registered fd c => Some (tt, set_ids (<[fd := c]> (g_ids g)) g, s, k)
  | Gateway.Snapshot i => Some (tt, set_snapshot i g, s, k)
  end.

Lemma shared_run_step {X} (e : SharedE X) n s x s' :
  shared_run e s = Some (x, s') -> shared_step e n s x n s'.
Proof. by left. Qed.

Lemma open_fd_spec d g k fd g' :
  open_fd d g k = Some (fd, g') -> opening_call d (inl fd) g g'.
Proof.
  unfold open_fd. destruct (Z.leb_spec 0 (k_next k)); [|done]. case_bool_decide; [|done].
  by intros [= <- <-].
Qed.

(** The eventfd is reported as readable exactly when it is. *)
Lemma poll_one_wakeup g s k d :
  g_fds g !! pfd_fd d = Some EventFdFd -> has_event (poll_one g s k d) POLLIN = true <-> 0 < wakeups s.
Proof.
  intros Hd. unfold poll_one. rewrite Hd. destruct (Z.ltb_spec 0 (wakeups s)); [done|].
  unfold has_event. simpl. split; [done|lia].
Qed.

Lemma gateway_answer_step {X} (e : Gateway.GatewayE X) g s k x g' s' k' :
  gateway_answer e g s k = Some (x, g', s', k') -> gateway_step X e g s x g' s'.
Proof.
  destruct e; simpl; intros H; repeat case_match; simplify_eq; simpl; try done.
  all: try match goal with H : open_fd _ _ _ = Some _ |- _ => by split; [done|apply open_fd_spec in H] end.
  - eexists. split; [by apply shared_run_step|done].
  - split_and!; try done. by apply Z.ltb_lt.
  - split_and!; try done; [by left|]. intros _. by apply Z.eqb_eq.
  - split; [done|]. split_and!; [done|apply length_fmap|by eapply bool_decide_eq_true|].
    intros n d r Hd Hr. rewrite list_lookup_fmap, Hd in Hr. injection Hr as <-. apply poll_one_wakeup.
  - split; [done|]. match goal with H : bool_decide _ = true |- _ => apply bool_decide_eq_true in H as [? ?] end.
    split_and!; eauto.
  - split; [done|]. split; [lia|]. rewrite Nat2Z.id, firstn_all. eauto.
Qed.

(** ** The worker *)

Section worker.
  Context {W : Type} `{!Posix W}.

(** Exceptions happen wherever they can. *)
Definition worker_answer {X} (e : Exchange.WorkerE X) (w : @WorkerState W) (s : SharedState)
  : option (X * WorkerState * SharedState) :=
  match e in Exchange.WorkerE X return option (X * WorkerState * SharedState) with
  | Exchange.Shared e =>
      match shared_run e s with
      | Some (x, s') => Some (x, worker_note e (w_set_signals (w_signals w) w) x, s')
      | None => None
      end
  | Exchange.Throws site => Some (w_throws w site, w, s)
  | Exchange.RecordBatch n =>
      match Exchange.record_batch n (w_stats w) with
      | Returned st _ => Some (tt, w_set_stats st w, s)
      | _ => None
      end
  | Exchange.ExecuteBatch commands =>
      match Durable.execute_batch no_faults commands (w_engine w) (w_proc w) with
      | Returned p (e, r) => Some (Some r, w_set_engine e p w, s)
      | Threw p => Some (None, w_set_engine (w_engine w) p w, s)
      | Crashed _ => None
      end
  end.

Lemma worker_answer_step {X} (e : Exchange.WorkerE X) w s x w' s' :
  worker_answer e w s = Some (x, w', s') -> worker_step X e w s x w' s'.
Proof.
  destruct e; simpl; intros H.
  - destruct (shared_run e s) as [[y t]|] eqn:E; [|done]. simplify_eq. eexists. split; [by apply shared_run_step|done].
  - by simplify_eq.
  - destruct (Exchange.record_batch _ _) as [st []|?|?] eqn:E; simplify_eq. eauto.
  - destruct (Durable.execute_batch _ _ _ _) as [p [d r]|p|?] eqn:E; simplify_eq; (split; [done|]);
      exists no_faults; by rewrite E.
Qed.

Definition control_answer {X} (e : SharedE X) (c : ControlState) (s : SharedState)
  : option (X * ControlState * SharedState) :=
  match shared_run e s with
  | Some (x, s') => Some (x, control_note e (mkControlState (c_signals c) (c_owes_wake c)) x, s')
  | None => None
  end.

Lemma control_answer_step {X} (e : SharedE X) c s x c' s' :
  control_answer e c s = Some (x, c', s') -> control_step X e c s x c' s'.
Proof.
  unfold control_answer. destruct (shared_run e s) as [[y t]|] eqn:E; [|done]. intros [= <- <- <-].
  eexists. split; [by apply shared_run_step|done].
Qed.

(** ** Schedules *)

Inductive Turn := GatewayTurn | WorkerTurn | ControlTurn.

(** One step of a thread, if it can make one. *)
Definition turn (t : Turn) (vk : @Server W * Kernel) : option (Server * Kernel) :=
  let '(v, k) := vk in
  match t with
  | GatewayTurn =>
      match gateway_thread v with
      | Ret _ => None
      | Op e f =>
          match gateway_answer e (gs v) (sh v) k with
          | Some (x, g, s, k) =>
              Some (mkServer (f x) (worker_thread v) (control_thread v) g (ws v) (cs v) s, k)
          | None => None
          end
      | Iter body l f =>
          Some (mkServer (unfold_iter body l f) (worker_thread v) (control_thread v) (gs v) (ws v) (cs v) (sh v), k)
      end
  | WorkerTurn =>
      match worker_thread v with
      | Ret _ => None
      | Op e f =>
          match worker_answer e (ws v) (sh v) with
          | Some (x, w, s) => Some (mkServer (gateway_thread v) (f x) (control_thread v) (gs v) w (cs v) s, k)
          | None => None
          end
      | Iter body l f =>
          Some (mkServer (gateway_thread v) (unfold_iter body l f) (control_thread v) (gs v) (ws v) (cs v) (sh v), k)
      end
  | ControlTurn =>
      match control_thread v with
      | Ret _ => None
      | Op e f =>
          match control_answer e (cs v) (sh v) with
          | Some (x, c, s) => Some (mkServer (gateway_thread v) (worker_thread v) (f x) (gs v) (ws v) c s, k)
          | None => None
          end
      | Iter body l f =>
          Some (mkServer (gateway_thread v) (worker_thread v) (unfold_iter body l f) (gs v) (ws v) (cs v) (sh v), k)
      end
  end.

Lemma turn_step t v k v' k' : turn t (v, k) = Some (v', k') -> server_step v v'.
Proof.
  destruct v as [gp wp cp g w c s]. destruct t; simpl.
  - destruct gp as [a|X e f|L B body l f]; [done| |intros [= <- <-]; constructor; constructor].
    destruct (gateway_answer e g s k) as [[[[x g'] s'] k1]|] eqn:E; [|done]. intros [= <- <-].
    constructor. constructor. by apply gateway_answer_step in E.
  - destruct wp as [a|X e f|L B body l f]; [done| |intros [= <- <-]; constructor; constructor].
    destruct (worker_answer e w s) as [[[x w'] s']|] eqn:E; [|done]. intros [= <- <-].
    constructor. constructor. by apply worker_answer_step in E.
  - destruct cp as [a|X e f|L B body l f]; [done| |intros [= <- <-]; constructor; constructor].
    destruct (control_answer e c s) as [[[x c'] s']|] eqn:E; [|done]. intros [= <- <-].
    constructor. constructor. by apply control_answer_step in E.
Qed.

(** At most [n] steps of a thread, until it blocks. *)
Fixpoint turns (n : nat) (t : Turn) (vk : @Server W * Kernel) : Server * Kernel :=
  match n with
  | 0%nat => vk
  | S n => match turn t vk with Some vk => turns n t vk | None => vk end
  end.

Fixpoint play (schedule : list (Turn * nat)) (vk : @Server W * Kernel) : Server * Kernel :=
  match schedule with
  | [] => vk
  | (t, n) :: rest => play rest (turns n t vk)
  end.

Lemma turns_steps n t vk : rtc server_step vk.1 (turns n t vk).1.
Proof.
  revert vk. induction n as [|n IH]; intros [v k]; cbn [turns]; [done|].
  destruct (turn t (v, k)) as [[v' k']|] eqn:E; [|done].
  eapply rtc_l; [by eapply turn_step|]. apply (IH (v', k')).
Qed.

Lemma play_steps schedule vk : rtc server_step vk.1 (play schedule vk).1.
Proof.
  revert vk. induction schedule as [|[t n] rest IH]; intros vk; cbn [play]; [done|].
  etrans; [apply turns_steps|apply IH].
Qed.

End worker.

(** ** A program by itself, with no other thread *)

Fixpoint run_alone {A} (n : nat) (p : prog Gateway.GatewayE A) (g : GatewayState) (s : SharedState) (k : Kernel)
  : option (A * GatewayState * Kernel) :=
  match n with
  | 0%nat => None
  | S n =>
      match p with
      | Ret a => Some (a, g, k)
      | Op e f =>
          match gateway_answer e g s k with
          | Some (x, g, s, k) => run_alone n (f x) g s k
          | None => None
          end
      | Iter body l f => run_alone n (unfold_iter body l f) g s k
      end
  end.

(** It is an execution of the program. *)
Lemma run_alone_runs_to {A} n (p : prog Gateway.GatewayE A) g s k a g' k' :
  run_alone n p g s k = Some (a, g', k') -> runs_to p g s a g'.
Proof.
  revert p g s k. induction n as [|n IH]; intros p g s k; cbn [run_alone]; [done|].
  destruct p as [b|X e f|L B body l f].
  - intros [= <- <- <-]. constructor.
  - destruct (gateway_answer e g s k) as [[[[x g1] s1] k1]|] eqn:E; [|done]. intros Hr.
    econstructor; [|by eapply IH]. constructor. by eapply gateway_answer_step.
  - intros Hr. econstructor; [|by eapply IH]. constructor.
Qed.
