(* ===== verification/ExchangeProps.v ===== *)
(** * The exchange server: properties

    What holds of every server that [create] has returned and [run] has started,
    at every moment of every interleaving of its threads. *)
From S2P Require Import Prelude Types Bytes OrderBook OrderBookInv Journal Posix MemoryFs JournalStorage JournalFile.
From S2P Require Import JournalStorageProps DurableEngine DurableEngineProps Wire WireCodec WireParser Threads.
From S2P Require Import BoundedQueue GatewayTypes Connection Gateway Exchange Pipeline PipelineInv WorkerLoop.
From S2P Require Import GatewayInv GatewayLoop ExchangeInv ExchangeStart WorkerTermination GatewayTermination Scenario JournalDescriptors.
Import Limiter.

(** ** Requests and their responses *)

(** The summaries of results carry the keys of their requests. *)
Lemma summarize_keys reqs results answers :
  zip_with Exchange.summarize reqs results = Some <$> answers -> length results = length reqs ->
  response_key <$> answers = request_key <$> reqs.
Proof.
  revert results answers. induction reqs as [|q reqs IH]; intros [|res results] [|a answers]; try done.
  simpl. intros [= Ha Hz] [= Hl]. f_equal; [by eapply summarize_key|exact (IH _ _ Hz Hl)].
Qed.

Lemma requests_for_keys x l :
  request_key <$> requests_for x l = filter (fun k => k.1 = x) (request_key <$> l).
Proof.
  unfold requests_for. induction l as [|r l IH]; [done|]. rewrite fmap_cons, !filter_cons. unfold request_connection at 1.
  destruct (decide _); [by rewrite fmap_cons, IH|done].
Qed.

Lemma responses_for_keys x l :
  response_key <$> responses_for x l = filter (fun k => k.1 = x) (response_key <$> l).
Proof.
  unfold responses_for. induction l as [|r l IH]; [done|].
  rewrite fmap_cons, !filter_cons, response_connection_key.
  destruct (decide _); [by rewrite fmap_cons, IH|done].
Qed.

Section props.
  Context {W : Type} `{!Posix W, !PosixView W, !PosixLaws W}.
  Context (config : ExchangeServerConfig) (p : path) (lo cs : list JournalCommand) (v0 v : @Server W).

Abbreviation limit := (maximum_input_buffer_bytes (esc_gateway config)).

(** What the worker has done, in terms of the keys. *)
Lemma winv_keys b w :
  winv p lo cs b w ->
  exists done, response_key <$> w_answered w = request_key <$> done /\ sublist done (w_popped w) /\
    (no_drop w -> done `prefix_of` w_popped w).
Proof.
  intros (acked & un & unacked & results2 & (results1 & answers & b1 & b2 & H1 & _ & H3 & H4 & _) & Hs & Hx).
  exists (acked ++ un). split_and!; [|done|].
  - destruct (runs_summarize _ _ _ _ H1) as (_ & _ & Hl).
    rewrite H4, !fmap_app, (summarize_keys _ _ _ H3 Hl). f_equal.
    rewrite <- list_fmap_compose. apply list_fmap_ext. intros i q _. apply unavailable_key.
  - intros Hn. destruct (Hx Hn) as [rest ->]. rewrite app_assoc. by apply prefix_app_r.
Qed.

(** C4: the pipeline is safe.  In a server whose batches fit the histogram
    ([histogram_fits]; C39 shows that this is needed), however the threads interleave, whatever the
    clients send, the system calls answer and the storage does, no thread is ever
    about to end the process ([std::terminate] on a full response queue, on a
    mismatched result or on a release without a reservation), to touch memory
    outside a container, or to use a descriptor that is not open; the
    reservations are exactly the requests that are in some thread's hands or in a
    queue; and the limits on them are kept, as is the maximum that was observed. *)
Theorem pipeline_safe :
  launched config p lo cs v0 -> histogram_fits config -> rtc server_step v0 v ->
  server_ok v /\
  (in_flight_ (limiter (sh v)) = g_held (gs v) + w_held (ws v) + BQ.size (requests (sh v)) + BQ.size (responses (sh v)) /\
   in_flight_ (limiter (sh v)) <= maximum_observed_ (limiter (sh v)) <= maximum_in_flight config /\
   BQ.size (requests (sh v)) <= request_queue_capacity config /\
   BQ.size (responses (sh v)) <= maximum_in_flight config)%nat.
Proof.
  intros Hl Hh Hst. destruct (launched_inv _ _ _ _ _ _ Hl Hh Hst) as (b & rs & _ & Hi).
  split; [by eapply server_inv_ok|]. pose proof (si_linked _ _ _ _ _ _ Hi) as L.
  pose proof (l_flight _ _ _ _ _ _ L) as Hf. pose proof (l_limit _ _ _ _ _ _ L).
  pose proof (l_observed _ _ _ _ _ _ L) as Ho. unfold limiter_ok in Ho. rewrite (l_limiter _ _ _ _ _ _ L) in Ho.
  pose proof (l_request_size _ _ _ _ _ _ L). unfold elsewhere, BQ.size in *. lia.
Qed.

(** C3: the responses are those of a sequential exchange.  At every moment the
    worker has answered, in their order, some of the admitted requests: [acked]
    with the summaries of the results of running their commands one after the
    other on the book that the journal had at the start, and after them [un] with
    [EngineUnavailable].  What was answered with a result is durable: the journal
    holds it and no crash loses it.  What the gateway has taken from the queue is a prefix
    of that.  Unless an exception hits while a batch is collected, the answered
    requests are the first admitted ones, without a gap. *)
Theorem responses_sequential :
  launched config p lo cs v0 -> histogram_fits config -> rtc server_step v0 v ->
  exists b rs0 acked un b1 results answers lo' cs',
    runs new_book cs b rs0 /\
    runs b (commands_of acked) b1 results /\
    zip_with Exchange.summarize acked results = Some <$> answers /\
    w_answered (ws v) = answers ++ (Exchange.unavailable_response <$> un) /\
    g_drained (gs v) `prefix_of` w_answered (ws v) /\
    sublist (acked ++ un) (g_admitted (gs v)) /\
    (no_drop (ws v) -> (acked ++ un) `prefix_of` g_admitted (gs v)) /\
    at_rest p lo' cs' (os (w_proc (ws v))) /\ lo `prefix_of` lo' /\
    (acked <> [] -> (cs ++ commands_of acked) `prefix_of` lo').
Proof.
  intros Hl Hh Hst. destruct (launched_inv _ _ _ _ _ _ Hl Hh Hst) as (b & rs & Hrs & Hi).
  pose proof (si_linked _ _ _ _ _ _ Hi) as L.
  destruct (si_worker_inv _ _ _ _ _ _ Hi) as (acked & un & unacked & results2 & Hd & Hs & Hx).
  destruct Hd as (results1 & answers & b1 & b2 & H1 & _ & H3 & H4 & (lo' & Hlo & Hlo' & He) & _).
  assert (exists cs', at_rest p lo' cs' (os (w_proc (ws v)))) as [cs' Hr].
  { destruct He as [[He _]|[_ He]]; [|done]. eexists. by eapply engine_at_rest. }
  exists b, rs, acked, un, b1, results1, answers, lo', cs'.
  rewrite (l_admitted _ _ _ _ _ _ L), (l_answered _ _ _ _ _ _ L) in *. split_and!; try done.
  - by apply prefix_app_r.
  - by apply sublist_inserts_r.
  - intros Hn. destruct (Hx Hn) as [rest ->]. rewrite <- !app_assoc, (app_assoc acked). by apply prefix_app_r.
  - intros Ha. rewrite Hlo', fmap_app by (by destruct acked). rewrite app_assoc. by apply prefix_app_r.
Qed.

(** C8: one connection sees a FIFO server.  What was sent to the client so far
    is a prefix of the encoded responses that were drained for it, and these
    responses carry, in order, the ids of requests in the bytes that were received
    from it; unless an exception hits while a batch is collected they carry the
    ids of the first requests, without a gap. *)
Theorem connection_fifo fd x :
  launched config p lo cs v0 -> histogram_fits config -> rtc server_step v0 v ->
  g_ids (gs v) !! fd = Some x ->
  exists received sent, g_fds (gs v) !! fd = Some (ConnectionFd received sent) /\
    let replies := responses_for x (g_drained (gs v)) in
    let asked := to_engine_request x <$> requests_in limit received in
    sent `prefix_of` concat (response_bytes <$> replies) /\
    sublist (response_key <$> replies) (request_key <$> asked) /\
    (no_drop (ws v) -> (response_key <$> replies) `prefix_of` (request_key <$> asked)).
Proof.
  intros Hl Hh Hst Hx. destruct (launched_inv _ _ _ _ _ _ Hl Hh Hst) as (b & rs & Hrs & Hi).
  pose proof (si_linked _ _ _ _ _ _ Hi) as L.
  destruct (si_gateway_inv _ _ _ _ _ _ Hi fd x Hx) as (received & sent & Hfd & _ & Ha & Hsent).
  destruct (winv_keys _ _ (si_worker_inv _ _ _ _ _ _ Hi)) as (answered & Hk & Hsub & Hpre).
  exists received, sent. split; [done|]. cbv zeta. split; [exact Hsent|].
  assert (filter (fun k => k.1 = x) (request_key <$> g_admitted (gs v)) `prefix_of`
    (request_key <$> (to_engine_request x <$> requests_in limit received))) as Hadm.
  { rewrite <- requests_for_keys. destruct Ha as [k ->]. rewrite fmap_app. by apply prefix_app_r. }
  assert ((response_key <$> g_drained (gs v)) `prefix_of` (request_key <$> answered)) as Hdr.
  { rewrite <- Hk, (l_answered _ _ _ _ _ _ L), fmap_app. by apply prefix_app_r. }
  assert (w_popped (ws v) `prefix_of` g_admitted (gs v)) as Hpop
    by (rewrite (l_admitted _ _ _ _ _ _ L); by apply prefix_app_r).
  rewrite responses_for_keys. split.
  - etrans; [apply filter_sublist, prefix_sublist, Hdr|]. etrans; [|by apply prefix_sublist, Hadm].
    apply filter_sublist, fmap_sublist. etrans; [exact Hsub|]. by apply prefix_sublist.
  - intros Hn. etrans; [apply filter_prefix, Hdr|]. etrans; [|exact Hadm]. apply filter_prefix.
    assert (answered `prefix_of` g_admitted (gs v)) as [k ->] by (etrans; [by apply Hpre|done]).
    rewrite fmap_app. by apply prefix_app_r.
Qed.

(** C28: the memory of the gateway is bounded by its configuration.  Whenever
    the gateway is about to wait in [poll], it has no more than the configured
    number of connections, at most 4096 requests kept back, and for each
    connection at most the input limit of unread bytes, at most twice that in the
    parser's buffer, which also holds what was read and not yet compacted, and at
    most the output limit of unsent bytes. *)
Theorem gateway_resources_bounded i k :
  launched config p lo cs v0 -> histogram_fits config -> rtc server_step v0 v ->
  gateway_thread v = Op (Gateway.Snapshot i) k -> resources_bounded i.
Proof.
  intros Hl Hh Hst E. destruct (launched_inv _ _ _ _ _ _ Hl Hh Hst) as (b & rs & _ & Hi).
  destruct (server_inv_ok _ _ _ _ _ _ Hi) as (Hok & _). rewrite E in Hok. apply Hok.
Qed.

(** ** Sleeping and stopping *)

(** The gateway is about to [poll] and no wakeup is waiting for it. *)
Definition gateway_asleep (v : @Server W) : Prop :=
  (exists descriptors k, gateway_thread v = Op (Gateway.Poll descriptors) k) /\ wakeups (sh v) = 0.

(** The worker is blocked on the request queue, or gone. *)
Definition worker_idle (v : @Server W) : Prop :=
  (exists k, worker_thread v = Op (Exchange.Shared RequestWaitPop) k /\ BQ.wait_pop (requests (sh v)) = None) \/
  worker_thread v = Ret tt.

Lemma wait_pop_blocks {A} (q : BQ.BoundedQueue A) :
  BQ.wait_pop q = None -> BQ.items_ q = [] /\ BQ.closed_ q = false.
Proof.
  unfold BQ.wait_pop, BQ.ready. destruct (BQ.closed_ q) eqn:Hc, (BQ.items_ q) eqn:Hi; simpl; try done.
  all: unfold BQ.try_pop; by rewrite ?Hi.
Qed.

(** C12: no wakeup is lost.  When the gateway sleeps with nothing to wake it, the
    worker is blocked or gone, and no stop is half-requested, then there is
    nothing left to do: no request is in flight, both queues are empty, every
    response was taken, no request is kept back, no stop was requested, and the
    worker is still there to serve the next request. *)
Theorem no_lost_wakeup :
  launched config p lo cs v0 -> histogram_fits config -> rtc server_step v0 v ->
  gateway_asleep v -> worker_idle v -> c_owes_wake (Pipeline.cs v) = false ->
  in_flight_ (limiter (sh v)) = 0%nat /\
  BQ.items_ (requests (sh v)) = [] /\ BQ.items_ (responses (sh v)) = [] /\
  g_drained (gs v) = w_answered (ws v) /\
  (forall i, g_snapshot (gs v) = Some i -> Gateway.pending_requests i = []) /\
  stop_requested (sh v) = false /\ worker_thread v <> Ret tt.
Proof.
  intros Hl Hh Hst [(ds & kg & Hg) Hwake] Hw Hc.
  destruct (launched_inv _ _ _ _ _ _ Hl Hh Hst) as (b & rs & _ & Hi).
  pose proof (si_linked _ _ _ _ _ _ Hi) as L.
  destruct (server_inv_ok _ _ _ _ _ _ Hi) as (Hgok & Hwok & _). rewrite Hg in Hgok.
  destruct Hgok as (_ & _ & Hheld & Hur & Hcl & Hus & Hpend).
  assert (w_owes_wake (ws v) = false /\ w_held (ws v) = 0%nat /\
    (w_must_stop (ws v) = true -> w_stopped (ws v) = true)) as (Howes & Hwheld & Hmust).
  { destruct Hw as [(kw & Ew & _)|Ew].
    - rewrite Ew in Hwok. apply Hwok.
    - pose proof (si_worker _ _ _ _ _ _ Hi 1%nat) as HW. rewrite Ew in HW.
      destruct HW as (_ & ? & ? & ? & _). done. }
  assert (BQ.items_ (responses (sh v)) = []) as Hresp.
  { destruct (BQ.items_ (responses (sh v))) eqn:E; [done|].
    destruct (l_wake_responses _ _ _ _ _ _ L) as [?|[?|?]]; [by rewrite E|congruence|lia|congruence]. }
  assert (exists kw, worker_thread v = Op (Exchange.Shared RequestWaitPop) kw /\
    BQ.wait_pop (requests (sh v)) = None) as (kw & Ew & Hblock).
  { destruct Hw as [?|Ew]; [done|exfalso].
    pose proof (si_worker _ _ _ _ _ _ Hi 1%nat) as HW. rewrite Ew in HW. destruct HW as (Hdone & _).
    destruct (l_finished _ _ _ _ _ _ L Hdone) as [Hend _]. destruct (l_end _ _ _ _ _ _ L Hend) as [Hgc _].
    destruct (Hcl Hgc) as [Huc|Hsi].
    - destruct (l_wake_close _ _ _ _ _ _ L Hdone) as [?|[?|?]]; [congruence|lia|congruence].
    - by destruct (l_saw_items _ _ _ _ _ _ L Hsi). }
  apply wait_pop_blocks in Hblock as [Hreq Hopen].
  pose proof (l_closed _ _ _ _ _ _ L) as Hgc. rewrite Hopen in Hgc.
  assert (stop_requested (sh v) = false) as Hstop.
  { destruct (stop_requested (sh v)) eqn:E; [exfalso|done].
    destruct (l_wake_stop _ _ _ _ _ _ L E) as [?|[?|[?|[?|?]]]]; [congruence..|lia| |congruence].
    destruct Hus; congruence. }
  split_and!; try done.
  - rewrite (l_flight _ _ _ _ _ _ L). unfold elsewhere. rewrite Hreq, Hresp. simpl. lia.
  - pose proof (l_answered _ _ _ _ _ _ L) as Ha. rewrite Hresp in Ha. simpl in Ha. by rewrite app_nil_r in Ha.
  - intros i Hsn. destruct (Gateway.pending_requests i) eqn:E; [done|exfalso].
    destruct (l_blocked _ _ _ _ _ _ L) as [He|Hm].
    + apply (Hpend i Hsn). by rewrite E.
    + unfold elsewhere in He. rewrite Hreq, Hresp in He. simpl in He. lia.
    + pose proof (l_stopped _ _ _ _ _ _ L (Hmust Hm)). congruence.
  - by rewrite Ew.
Qed.

(** C15: shutdown is graceful.  When [run] has returned, nothing is in flight, both
    queues are closed and empty, all connections are closed, and everything the
    worker answered was taken by the gateway.  Unless an exception hit while a
    batch was collected, every admitted request has got its one response. *)
Theorem graceful_shutdown :
  launched config p lo cs v0 -> histogram_fits config -> rtc server_step v0 v -> run_returned v ->
  in_flight_ (limiter (sh v)) = 0%nat /\
  BQ.items_ (requests (sh v)) = [] /\ BQ.closed_ (requests (sh v)) = true /\
  BQ.items_ (responses (sh v)) = [] /\ BQ.closed_ (responses (sh v)) = true /\
  g_ids (gs v) = empty /\ g_drained (gs v) = w_answered (ws v) /\
  (no_drop (ws v) -> response_key <$> g_drained (gs v) = request_key <$> g_admitted (gs v)).
Proof.
  intros Hl Hh Hst [[i Ei] Ew].
  destruct (launched_inv _ _ _ _ _ _ Hl Hh Hst) as (b & rs & _ & Hi).
  pose proof (si_linked _ _ _ _ _ _ Hi) as L.
  pose proof (si_gateway _ _ _ _ _ _ Hi 1%nat) as HG. rewrite Ei in HG. destruct HG as [(Hd & Hgh & Hids) _].
  pose proof (si_worker _ _ _ _ _ _ Hi 1%nat) as HW. rewrite Ew in HW. destruct HW as (Hdone & Hwh & _ & _ & Hall).
  destruct (l_finished _ _ _ _ _ _ L Hdone) as [Hend _]. destruct (l_end _ _ _ _ _ _ L Hend) as [Hgc Hreq].
  destruct (l_saw_drained _ _ _ _ _ _ L Hd) as [_ Hresp].
  pose proof (l_answered _ _ _ _ _ _ L) as Ha. rewrite Hresp in Ha. simpl in Ha. rewrite app_nil_r in Ha.
  split_and!; try done.
  - rewrite (l_flight _ _ _ _ _ _ L). unfold elsewhere. rewrite Hreq, Hresp. simpl. lia.
  - by rewrite (l_closed _ _ _ _ _ _ L).
  - by rewrite (l_done _ _ _ _ _ _ L).
  - intros Hn. destruct (winv_keys _ _ (si_worker_inv _ _ _ _ _ _ Hi)) as (answered & Hk & _ & Hpre).
    pose proof (l_admitted _ _ _ _ _ _ L) as Hadm. rewrite Hreq in Hadm. simpl in Hadm. rewrite app_nil_r in Hadm.
    rewrite <- Ha, Hk, Hadm. f_equal. destruct (Hpre Hn) as [rest Hrest].
    apply (f_equal length) in Hk. rewrite !length_fmap, Hall, Hrest, length_app in Hk by done.
    rewrite Hrest. destruct rest; [by rewrite app_nil_r|simpl in Hk; lia].
Qed.

(** C16: the worker returns.  Once the request queue is closed, the worker makes
    only finitely many steps, however the other threads run in between, and it is
    never blocked until it has returned; so it returns as soon as it is
    scheduled often enough, also if every batch fails. *)
Theorem worker_terminates :
  launched config p lo cs v0 -> histogram_fits config -> rtc server_step v0 v ->
  BQ.closed_ (requests (sh v)) = true ->
  Acc (flip worker_advances) v /\ (worker_thread v <> Ret tt -> exists v', worker_moves_to v v').
Proof.
  intros Hl Hh Hst Hs. destruct (launched_inv _ _ _ _ _ _ Hl Hh Hst) as (b & rs & _ & Hi). split.
  - apply (worker_acc (server_inv config p lo cs b)); [|..|by eapply launched_halts]; try done.
    + intros u u'. apply server_inv_step.
    + intros u Hu. rewrite (l_admitted _ _ _ _ _ _ (si_linked _ _ _ _ _ _ Hu)), length_app. lia.
  - apply worker_can_move; [by eapply server_inv_ok|done].
Qed.

(** C14: the server returns.  Once the worker has returned and the call of
    [request_stop] is over, the rest of the run is finite, whatever the clients do
    and the system calls answer; and as long as [run] has not returned, the gateway
    is not asleep and can go on.  So every such run ends with [run_returned]. *)
Theorem shutdown_terminates :
  launched config p lo cs v0 -> histogram_fits config -> rtc server_step v0 v ->
  worker_thread v = Ret tt -> control_thread v = Ret tt ->
  Acc (flip server_step) v /\
  forall v', rtc server_step v v' ->
    ~ gateway_asleep v' /\ (~ run_returned v' -> exists v'', server_step v' v'').
Proof.
  intros Hl Hh Hst Ew Ec. destruct (launched_stops _ _ _ _ _ _ Hl Hh Hst) as (b & Hi & Hs).
  split; [by eapply gateway_acc|]. intros v' Hst'. destruct (gateway_stops_steps _ _ _ _ _ _ _ Hst' Hi Hs) as [Hi' _].
  destruct (returned_stays _ _ Hst' Ew Ec) as [Ew' _]. split.
  - intros [(ds & k & E) Hw]. apply (gateway_not_blocked _ _ _ _ _ _ Hi' Ew'). unfold gateway_blocked. by rewrite E.
  - intros Hr. eapply gateway_can_move; [done..|]. intros i E. apply Hr. split; eauto.
Qed.

(** ** Starting *)


End props.

(** ** A concrete server

    Two requests may be in flight and a batch has at most two.  One client sends
    three requests in one chunk: a buy order, a sell order that crosses it, and a
    cancellation, which has to wait for the first two. *)

Definition demo_config : ExchangeServerConfig :=
  mkExchangeServerConfig (mkServerConfig [49] 0 4 64 256) 2 2 2.

Definition demo_frame (id : Z) (m : Wire.ClientMessage) : list byte :=
  match Wire.encode_client_frame (Wire.mkWireEnvelope id m) with inl bytes => bytes | inr _ => [] end.

Definition demo_requests : list byte :=
  demo_frame 7 (Wire.SubmitLimitOrderMessage (Wire.mkSubmitLimitOrderRequest 1 Buy 100 5)) ++
  demo_frame 8 (Wire.SubmitLimitOrderMessage (Wire.mkSubmitLimitOrderRequest 2 Sell 100 3)) ++
  demo_frame 9 (Wire.CancelOrderMessage 1).

Definition demo_kernel : Kernel := mkKernel [[demo_requests]] empty 10.

Definition unshared : SharedState :=
  mkSharedState (new_limiter 0) (BQ.new_queue 0) (BQ.new_queue 0) false false 0.

Definition demo_gateway (config : ExchangeServerConfig) : Gateway.Impl :=
  Gateway.new_impl (esc_gateway config) 10 11 9000 true false.

Definition demo_impl (config : ExchangeServerConfig) : Exchange.Impl :=
  Exchange.set_gateway (demo_gateway config) (Exchange.new_impl config first_engine).

Definition demo_fds : gmap Z Descriptor := <[11 := EventFdFd]> (<[10 := ListenerFd]> empty).

Definition no_throws (site : ThrowSite) : bool := false.

Definition demo_start (config : ExchangeServerConfig) (throws : ThrowSite -> bool) : @Server MemWorld :=
  start (demo_impl config) (demo_gateway config) demo_fds first_proc throws 0.

(** Every such server is what [create] returns. *)
Lemma run_alone_launched {W} `{!Posix W, !PosixView W, !PosixLaws W} n faults config p proc g s k impl gw proc' g' k' throws
    (v : @Server W) :
  run_alone n (Exchange.create faults config p CreateNew proc) (new_gateway_state g 0) s k
    = Some (Returned proc' (inl impl), g', k') ->
  Exchange.worker_started impl = false -> Exchange.gateway impl = Some gw ->
  v = start impl gw (g_fds g') proc' throws 0 ->
  launched config p [] [] v.
Proof.
  intros E Hs Hg ->. exists faults, CreateNew, proc, g, 0%nat, s, impl, proc', g', throws, 0%nat.
  split; [done|]. split; [by eapply run_alone_runs_to|]. unfold run. by rewrite Hs, Hg.
Qed.

(** A schedule: the gateway accepts, reads and admits; the worker executes the
    first batch; the gateway answers and admits the third request; the worker
    executes it; the gateway answers; a stop; the gateway begins to shut down;
    the worker returns; the gateway returns. *)
Definition demo_schedule : list (Turn * nat) :=
  [(GatewayTurn, 1000); (WorkerTurn, 1000); (GatewayTurn, 1000); (WorkerTurn, 1000); (GatewayTurn, 1000);
   (ControlTurn, 20); (GatewayTurn, 1000); (WorkerTurn, 1000); (GatewayTurn, 1000)]%nat.

Definition demo_at (n : nat) : @Server MemWorld :=
  (play (take n demo_schedule) (demo_start demo_config no_throws, mkKernel [[demo_requests]] empty 12)).1.

Lemma demo_steps n : rtc server_step (demo_start demo_config no_throws) (demo_at n).
Proof. apply (play_steps _ (demo_start demo_config no_throws, _)). Qed.

Lemma demo_is_launched : launched demo_config sample_path [] [] (demo_start demo_config no_throws).
Proof.
  apply (run_alone_launched 100 no_faults _ _ first_world empty unshared demo_kernel (demo_impl demo_config)
    (demo_gateway demo_config) first_proc (new_gateway_state demo_fds 0) (mkKernel [[demo_requests]] empty 12) no_throws).
  - vm_compute. reflexivity.
  - reflexivity.
  - reflexivity.
  - reflexivity.
Qed.

Lemma demo_fits : histogram_fits demo_config.
Proof. split; simpl; lia. Qed.

Lemma pipeline_safe_witness :
  server_ok (demo_at 1) /\ in_flight_ (limiter (sh (demo_at 1))) = 2%nat.
Proof.
  destruct (pipeline_safe demo_config sample_path [] [] (demo_start demo_config no_throws) (demo_at 1)
    demo_is_launched demo_fits (demo_steps 1)) as [H _].
  split; [exact H|vm_compute; reflexivity].
Defined.

(** The three answers of the run: the buy order rests, the sell order is
    executed in full, and the cancellation removes the rest of the buy order. *)
Definition demo_answers : list EngineResponse :=
  [SubmitResponse (mkSubmitEngineResponse 1 7 Accepted None 0 5);
   SubmitResponse (mkSubmitEngineResponse 1 8 Accepted None 3 0);
   CancelResponse (mkCancelEngineResponse 1 9 Cancelled 2)].

Lemma responses_sequential_witness :
  w_answered (ws (demo_at 5)) = demo_answers /\
  exists b acked un b1 results answers,
    runs b (commands_of acked) b1 results /\
    zip_with Exchange.summarize acked results = Some <$> answers /\
    demo_answers = answers ++ (Exchange.unavailable_response <$> un).
Proof.
  destruct (responses_sequential demo_config sample_path [] [] (demo_start demo_config no_throws) (demo_at 5)
    demo_is_launched demo_fits (demo_steps 5))
    as (b & rs0 & acked & un & b1 & results & answers & lo' & cs' & _ & H1 & H2 & H3 & _).
  assert (w_answered (ws (demo_at 5)) = demo_answers) as E by (vm_compute; reflexivity).
  rewrite E in H3. split; [exact E|]. exists b, acked, un, b1, results, answers. exact (conj H1 (conj H2 H3)).
Defined.

Lemma connection_fifo_witness :
  exists received sent, g_fds (gs (demo_at 5)) !! 12 = Some (ConnectionFd received sent) /\
    received = demo_requests /\ sent = concat (response_bytes <$> demo_answers).
Proof.
  destruct (connection_fifo demo_config sample_path [] [] (demo_start demo_config no_throws) (demo_at 5) 12 1
    demo_is_launched demo_fits (demo_steps 5)) as (received & sent & H & _).
  - vm_compute. reflexivity.
  - exists received, sent. split; [exact H|]. vm_compute in H. injection H as <- <-.
    split; vm_compute; reflexivity.
Defined.

(** Where a thread is. *)
Definition polls {A} (q : prog Gateway.GatewayE A) : bool :=
  match q with Op (Gateway.Poll _) _ => true | _ => false end.
Definition waits {A} (q : prog Exchange.WorkerE A) : bool :=
  match q with Op (Exchange.Shared RequestWaitPop) _ => true | _ => false end.
Definition returned {E A} (q : prog E A) : bool := match q with Ret _ => true | _ => false end.

Lemma polls_spec {A} (q : prog Gateway.GatewayE A) : polls q = true -> exists ds k, q = Op (Gateway.Poll ds) k.
Proof. destruct q as [|X e k|]; try done. destruct e; try done. eauto. Qed.
Lemma waits_spec {A} (q : prog Exchange.WorkerE A) : waits q = true -> exists k, q = Op (Exchange.Shared RequestWaitPop) k.
Proof. destruct q as [|X e k|]; try done. destruct e as [X e| | |]; try done. destruct e; try done. eauto. Qed.
Lemma returned_spec {E A} (q : prog E A) : returned q = true -> exists a, q = Ret a.
Proof. destruct q; try done. eauto. Qed.

(** The gateway before it waits for the first time with requests kept back. *)
Definition demo_full : @Server MemWorld :=
  (play [(GatewayTurn, 50)]%nat (demo_start demo_config no_throws, mkKernel [[demo_requests]] empty 12)).1.

Definition snapshot_of {A} (q : prog Gateway.GatewayE A) : option Gateway.Impl :=
  match q with Op (Gateway.Snapshot i) _ => Some i | _ => None end.

Lemma snapshot_of_spec {A} (q : prog Gateway.GatewayE A) i :
  snapshot_of q = Some i -> exists k, q = Op (Gateway.Snapshot i) k.
Proof. destruct q as [|X e k|]; try done. destruct e; try done. intros [= ->]. eauto. Qed.

Lemma gateway_resources_bounded_witness :
  exists i k, gateway_thread demo_full = Op (Gateway.Snapshot i) k /\
    length (Gateway.pending_requests i) = 1%nat /\ resources_bounded i.
Proof.
  assert (option_map (fun i => length (Gateway.pending_requests i)) (snapshot_of (gateway_thread demo_full))
    = Some 1%nat) as Hs by (vm_compute; reflexivity).
  destruct (snapshot_of (gateway_thread demo_full)) as [i|] eqn:E; [|discriminate Hs].
  destruct (snapshot_of_spec _ _ E) as [k Ek]. exists i, k. split; [exact Ek|].
  split; [by injection Hs|].
  apply (gateway_resources_bounded demo_config sample_path [] [] (demo_start demo_config no_throws) demo_full i k
    demo_is_launched demo_fits); [|exact Ek].
  apply (play_steps _ (demo_start demo_config no_throws, _)).
Defined.

Lemma no_lost_wakeup_witness :
  in_flight_ (limiter (sh (demo_at 5))) = 0%nat /\ worker_thread (demo_at 5) <> Ret tt.
Proof.
  destruct (no_lost_wakeup demo_config sample_path [] [] (demo_start demo_config no_throws) (demo_at 5)
    demo_is_launched demo_fits (demo_steps 5)) as (H1 & _ & _ & _ & _ & _ & H2).
  - split; [apply polls_spec|]; vm_compute; reflexivity.
  - left. destruct (waits_spec (worker_thread (demo_at 5))) as [k E]; [vm_compute; reflexivity|].
    exists k. split; [exact E|]. vm_compute. reflexivity.
  - vm_compute. reflexivity.
  - exact (conj H1 H2).
Defined.

Lemma worker_terminates_witness :
  BQ.closed_ (requests (sh (demo_at 7))) = true /\
  Acc (flip worker_advances) (demo_at 7) /\ exists v', worker_moves_to (demo_at 7) v'.
Proof.
  assert (BQ.closed_ (requests (sh (demo_at 7))) = true) as Hc by (vm_compute; reflexivity).
  destruct (worker_terminates demo_config sample_path [] [] (demo_start demo_config no_throws) (demo_at 7)
    demo_is_launched demo_fits (demo_steps 7) Hc) as [H1 H2].
  split; [exact Hc|]. split; [exact H1|]. apply H2.
  destruct (waits_spec (worker_thread (demo_at 7))) as [k E]; [vm_compute; reflexivity|]. rewrite E. discriminate.
Defined.

Lemma shutdown_terminates_witness :
  Acc (flip server_step) (demo_at 8) /\ ~ gateway_asleep (demo_at 8) /\ exists v', server_step (demo_at 8) v'.
Proof.
  destruct (shutdown_terminates demo_config sample_path [] [] (demo_start demo_config no_throws) (demo_at 8)
    demo_is_launched demo_fits (demo_steps 8)) as [H1 H2].
  - destruct (returned_spec (worker_thread (demo_at 8))) as [[] E]; [vm_compute; reflexivity|exact E].
  - destruct (returned_spec (control_thread (demo_at 8))) as [[] E]; [vm_compute; reflexivity|exact E].
  - split; [exact H1|]. destruct (H2 (demo_at 8) (rtc_refl _ _)) as [H3 H4]. split; [exact H3|]. apply H4.
    intros [[i E] _]. destruct (polls_spec (gateway_thread (demo_at 8))) as (ds & k & E'); [vm_compute; reflexivity|].
    rewrite E in E'. discriminate E'.
Defined.

Lemma graceful_shutdown_witness :
  in_flight_ (limiter (sh (demo_at 9))) = 0%nat /\ g_drained (gs (demo_at 9)) = demo_answers /\
  response_key <$> g_drained (gs (demo_at 9)) = request_key <$> g_admitted (gs (demo_at 9)).
Proof.
  destruct (graceful_shutdown demo_config sample_path [] [] (demo_start demo_config no_throws) (demo_at 9)
    demo_is_launched demo_fits (demo_steps 9)) as (H1 & _ & _ & _ & _ & _ & _ & H2).
  - split; [apply returned_spec; vm_compute; reflexivity|].
    destruct (returned_spec (worker_thread (demo_at 9))) as [[] E]; [vm_compute; reflexivity|exact E].
  - split; [exact H1|]. split; [vm_compute; reflexivity|]. apply H2. split; vm_compute; reflexivity.
Defined.


(** ** What the checks of [create] leave open *)

(** A request queue for one and batches of up to eight requests, which [create]
    accepts: the gateway pushes a second request after the worker has popped the
    first one and before it collects the rest, and the worker is about to count a
    batch of two in a histogram that ends at one. *)
Definition narrow_config : ExchangeServerConfig :=
  mkExchangeServerConfig (mkServerConfig [49] 0 4 64 256) 8 1 8.

Definition narrow_run : @Server MemWorld :=
  (play [(GatewayTurn, 34); (WorkerTurn, 3); (GatewayTurn, 1000); (WorkerTurn, 1000)]%nat
     (demo_start narrow_config no_throws, mkKernel [[demo_requests]] empty 12)).1.

(** The size of the batch that the worker is about to count. *)
Definition counting (v : @Server MemWorld) : option nat :=
  match worker_thread v with Op (Exchange.RecordBatch n) _ => Some n | _ => None end.

Lemma counting_spec v n :
  counting v = Some n -> exists k, worker_thread v = Op (Exchange.RecordBatch n) k.
Proof.
  unfold counting. destruct (worker_thread v) as [|X e k|]; try done. destruct e; try done. intros [= ->]. eauto.
Qed.

(** C39: the check that [histogram_fits] stands for is missing from [create]: a
    server that [create] has returned reaches a state in which the worker is
    about to count a batch of two in a histogram with the entries 0 and 1, which
    is undefined behaviour; and with the largest capacity of the request queue the
    size of the histogram wraps around to zero, so that no batch has an entry. *)
Theorem histogram_overflow :
  launched narrow_config sample_path [] [] (demo_start narrow_config no_throws) /\
  rtc server_step (demo_start narrow_config no_throws) narrow_run /\
  (exists k, worker_thread narrow_run = Op (Exchange.RecordBatch 2) k) /\
  batch_size_histogram (w_stats (ws narrow_run)) = [0; 0] /\
  Exchange.record_batch 2 (w_stats (ws narrow_run)) = Crashed UndefinedBehaviour /\
  ~ server_ok narrow_run /\
  forall gateway in_flight batch engine, batch_size_histogram (Exchange.batch_stats
    (Exchange.new_impl (mkExchangeServerConfig gateway in_flight (Z.to_nat U64_MAX) batch) engine)) = [].
Proof.
  assert (exists k, worker_thread narrow_run = Op (Exchange.RecordBatch 2) k) as [k Ek]
    by (apply counting_spec; vm_compute; reflexivity).
  assert (batch_size_histogram (w_stats (ws narrow_run)) = [0; 0]) as Eh by (vm_compute; reflexivity).
  split_and!.
  - apply (run_alone_launched 100 no_faults _ _ first_world empty unshared demo_kernel (demo_impl narrow_config)
      (demo_gateway narrow_config) first_proc (new_gateway_state demo_fds 0) (mkKernel [[demo_requests]] empty 12)
      no_throws); [vm_compute|..]; reflexivity.
  - apply (play_steps _ (demo_start narrow_config no_throws, _)).
  - by exists k.
  - exact Eh.
  - unfold Exchange.record_batch. by rewrite Eh.
  - intros (_ & Hok & _). rewrite Ek in Hok. destruct Hok as [x Hx]. by rewrite Eh in Hx.
  - intros gateway in_flight batch engine. cbn [Exchange.new_impl Exchange.batch_stats batch_size_histogram].
    unfold Exchange.histogram_size. cbn [request_queue_capacity]. by rewrite Z2Nat.id.
Qed.

(** [batch.reserve] throws: the first request was popped and gets no response,
    the second one is answered with [EngineUnavailable]. *)
Definition reserve_throws (site : ThrowSite) : bool := bool_decide (site = BatchReserve).

Definition dropping_run : @Server MemWorld :=
  (play [(GatewayTurn, 1000); (WorkerTurn, 1000); (GatewayTurn, 1000); (WorkerTurn, 1000); (GatewayTurn, 1000)]%nat
     (demo_start demo_config reserve_throws, mkKernel [[demo_requests]] empty 12)).1.

(** C40: an exception while a batch is collected leaves an admitted request
    without a response: the server shuts down, the first of two admitted requests
    was not answered. *)
Theorem request_dropped :
  launched demo_config sample_path [] [] (demo_start demo_config reserve_throws) /\
  rtc server_step (demo_start demo_config reserve_throws) dropping_run /\ run_returned dropping_run /\
  request_key <$> g_admitted (gs dropping_run) = [(1, 7); (1, 8)] /\
  response_key <$> g_drained (gs dropping_run) = [(1, 8)].
Proof.
  split_and!.
  - apply (run_alone_launched 100 no_faults _ _ first_world empty unshared demo_kernel (demo_impl demo_config)
      (demo_gateway demo_config) first_proc (new_gateway_state demo_fds 0) (mkKernel [[demo_requests]] empty 12)
      reserve_throws); [vm_compute|..]; reflexivity.
  - apply (play_steps _ (demo_start demo_config reserve_throws, _)).
  - split; [apply returned_spec; vm_compute; reflexivity|].
    destruct (returned_spec (worker_thread dropping_run)) as [[] E]; [vm_compute; reflexivity|exact E].
  - vm_compute. reflexivity.
  - vm_compute. reflexivity.
Qed.
