(* ===== verification/GatewayProgress.v ===== *)
(** * No client holds up the gateway

    The gateway serves all connections on one thread, so a function that did not
    return would starve everybody.  Whatever the other threads do and the clients
    send, [drain_engine_completions], [drain_pending_requests] and the service of
    the clients of one turn, with [receive_from] and [flush_output], return.  What
    bounds them is an account: every admitted request that is not yet answered
    holds a reservation, so that the gateway can admit only finitely many requests
    before it drains responses again ([balanced]); and a parser without a complete
    request keeps at most its limit of bytes. *)
From S2P Require Import Prelude Types Bytes OrderBook OrderBookInv Journal Posix JournalStorage JournalFile.
From S2P Require Import JournalStorageProps DurableEngine DurableEngineProps Wire WireCodec WireParser Threads.
From S2P Require Import BoundedQueue GatewayTypes Connection Gateway Exchange Pipeline PipelineInv WorkerLoop.
From S2P Require Import GatewayInv GatewayMoves GatewayLoop ExchangeInv ExchangeStart MemoryFs Scenario ExchangeProps.
Import Limiter.

(** ** The account *)

(** What was admitted and not drained is at most [N] requests. *)
Definition balanced (N : nat) (g : GatewayState) : Prop :=
  (length (g_drained g) <= length (g_admitted g) <= length (g_drained g) + N)%nat.

Section account.
  Context {W : Type} `{!Posix W, !PosixView W, !PosixLaws W}.
  Context (config : ExchangeServerConfig) (p : path) (lo cs0 : list JournalCommand).
  Implicit Types (v : @Server W) (w : @WorkerState W).

(** Without an exception that drops one, a request that was popped is in the
    hands of the worker or answered. *)
Definition counted w : Prop := length (w_popped w) = (length (w_answered w) + w_held w)%nat.

Lemma server_step_throws v v' : server_step v v' -> w_throws (ws v') = w_throws (ws v).
Proof.
  intros [| gp q q' cp g w w' c s s' Hst|]; [done| |done]. simpl. destruct Hst as [X e k w s x w' s' Hst|]; [|done].
  destruct e as [X e|site|n|commands]; simpl in Hst.
  - destruct Hst as (n & _ & ->). destruct e; simpl; repeat case_match; done.
  - by destruct Hst as (_ & -> & _).
  - by destruct Hst as (_ & st & _ & ->).
  - destruct Hst as (_ & faults & Hst). repeat case_match; by destruct_and?; subst.
Qed.

Lemma server_step_counted b v v' :
  server_inv config p lo cs0 b v -> server_step v v' -> no_drop (ws v) -> counted (ws v) -> counted (ws v').
Proof.
  intros Hi Hst [Hn1 Hn2] Hc. pose proof (server_inv_step _ _ _ _ _ _ _ Hst Hi) as Hi'.
  pose proof (l_flight _ _ _ _ _ _ (si_linked _ _ _ _ _ _ Hi)) as Hf.
  pose proof (l_flight _ _ _ _ _ _ (si_linked _ _ _ _ _ _ Hi')) as Hf'.
  destruct (server_inv_ok _ _ _ _ _ _ Hi) as (_ & Hok & _). clear Hi Hi'. unfold counted, elsewhere in *.
  destruct Hst as [| gp q q' cp g w w' c s s' Hst|]; [done| |done]. simpl in *.
  destruct Hst as [X e k w s x w' s' Hst|]; [|done]. simpl in Hok. destruct e as [X e|site|n|commands]; simpl in Hst.
  - destruct Hst as (n & Hst & ->). destruct e; simpl in *; try done; try (by repeat case_match).
    + destruct Hok as [_ [?|?]]; congruence.
    + destruct x; simpl; rewrite ?length_app; simpl; lia.
    + destruct x; simpl; rewrite ?length_app; simpl; lia.
    + destruct x; simpl in *; [|done]. destruct Hst as [[Hst _]|[[] _]]. simpl in Hst.
      unfold BQ.try_push in Hst. destruct (_ || _); [done|]. injection Hst as <-. simpl in *.
      rewrite length_app in *. simpl in *. lia.
  - by destruct Hst as (_ & -> & _).
  - by destruct Hst as (_ & st & _ & ->).
  - destruct Hst as (_ & faults & Hst). repeat case_match; by destruct_and?; subst.
Qed.

Lemma launched_counted v0 v :
  launched config p lo cs0 v0 -> histogram_fits config -> rtc server_step v0 v -> no_drop (ws v) -> counted (ws v).
Proof.
  intros Hl Hh Hst. revert v Hst. apply (rtc_ind_r (fun v => no_drop (ws v) -> counted (ws v))).
  - intros _. by destruct (launched_ready _ _ _ _ _ Hl) as (b & rs & impl & gw & fds & proc & throws & signals & _ & _ & _ & ->).
  - intros v1 v2 Hst1 Hst2 IH Hn. destruct (launched_inv _ _ _ _ _ _ Hl Hh Hst1) as (b & rs & _ & Hi).
    assert (no_drop (ws v1)) as Hn1 by (unfold no_drop in *; by rewrite <- (server_step_throws _ _ Hst2)).
    eapply server_step_counted; [exact Hi|done..|auto].
Qed.

Lemma launched_balanced v0 v :
  launched config p lo cs0 v0 -> histogram_fits config -> rtc server_step v0 v -> no_drop (ws v) ->
  balanced (maximum_in_flight config) (gs v).
Proof.
  intros Hl Hh Hst Hn. pose proof (launched_counted _ _ Hl Hh Hst Hn) as Hc.
  destruct (launched_inv _ _ _ _ _ _ Hl Hh Hst) as (b & rs & _ & Hi). pose proof (si_linked _ _ _ _ _ _ Hi) as L.
  pose proof (l_flight _ _ _ _ _ _ L) as Hf. pose proof (l_limit _ _ _ _ _ _ L) as Hlim.
  pose proof (f_equal length (l_admitted _ _ _ _ _ _ L)) as Ha. pose proof (f_equal length (l_answered _ _ _ _ _ _ L)) as Hr.
  rewrite length_app, length_fmap in Ha. rewrite length_app, length_fmap in Hr. unfold balanced, counted, elsewhere in *. lia.
Qed.

End account.

(** ** What the functions of the gateway do to the account *)

Section progress.
  Context (N limit : nat).
  Implicit Types (g : GatewayState) (i : Gateway.Impl).

Abbreviation returns := (halts gateway_step (balanced N)).
Ltac open_event := unfold share, call; cbn [bind].

(** The configuration and the parsers are those of [i]. *)
Definition same_parsers i i' : Prop :=
  Gateway.config i' = Gateway.config i /\ Gateway.parser <$> Gateway.connections i' = Gateway.parser <$> Gateway.connections i.

#[local] Instance same_parsers_preorder : PreOrder same_parsers.
Proof. split; [done|]. intros i1 i2 i3 [E1 E2] [E3 E4]. split; congruence. Qed.

Lemma same_parsers_alter f fd i :
  (forall c, Gateway.parser (f c) = Gateway.parser c) -> same_parsers i (Gateway.alter_connection f fd i).
Proof.
  intros Hf. split; [done|]. unfold Gateway.alter_connection. simpl. apply map_eq. intros fd'. rewrite !lookup_fmap.
  destruct (decide (fd = fd')) as [<-|Hne]; [|by rewrite lookup_alter_ne].
  rewrite lookup_alter_eq. destruct (Gateway.connections i !! fd); simpl; [by rewrite Hf|done].
Qed.

Lemma same_parsers_queue fd r i : same_parsers i (Gateway.queue_response fd r i).
Proof. apply same_parsers_alter. intros c. unfold Gateway.queue_response_on. repeat case_match; done. Qed.

Lemma same_parsers_deliver r i : same_parsers i (Gateway.deliver r i).
Proof.
  unfold Gateway.deliver. repeat case_match; try done; [apply same_parsers_queue|by apply same_parsers_alter].
Qed.

Lemma same_parsers_retain c ms i : same_parsers i (foldl (Gateway.retain_pending c) i ms).
Proof.
  revert i. induction ms as [|m ms IH]; intros i; [done|]. simpl. etrans; [|apply IH].
  unfold Gateway.retain_pending. repeat case_match; try done. by apply same_parsers_alter.
Qed.

(** The gateway admitted [n] requests, drained nothing, and got no new signals. *)
Definition admits (n : nat) g g' : Prop :=
  length (g_admitted g') = (length (g_admitted g) + n)%nat /\ length (g_drained g') = length (g_drained g) /\
  (g_signals g' <= g_signals g)%nat.

Lemma admits_trans n m g1 g2 g3 : admits n g1 g2 -> admits m g2 g3 -> admits (n + m) g1 g3.
Proof. unfold admits. lia. Qed.

Lemma shared_signals {X} (e : SharedE X) n s x n' s' : shared_step e n s x n' s' -> (n' <= n)%nat.
Proof. intros [[_ ->]|(_ & -> & _)]; lia. Qed.

Lemma failed_call_admits err g g' : failed_call err g g' -> admits 0 g g' /\ ((err =? EINTR) = true -> (g_signals g' < g_signals g)%nat).
Proof.
  unfold failed_call, admits. destruct (err =? EINTR); [intros (n & E & ->)|intros ->]; simpl; lia.
Qed.

Lemma returns_release r g : returns (fun _ g' => admits 0 g g') (Gateway.release r) g.
Proof.
  unfold Gateway.release. destruct (owner_ r); [|apply halts_ret; unfold admits; lia]. open_event. apply halts_op.
  intros s [] g' s' (n & Hst & ->) _. apply halts_ret. apply shared_signals in Hst. unfold admits. simpl. lia.
Qed.

Lemma returns_admit fd c m i g :
  returns (fun r g' => (same_parsers i r.2 /\ Gateway.pending_requests r.2 = Gateway.pending_requests i) /\
    admits (if r.1 : bool then 1 else 0) g g') (Gateway.admit_request fd c m i) g.
Proof.
  unfold Gateway.admit_request. destruct (Gateway.shutdown_started i); [apply halts_ret; split; [done|unfold admits; simpl; lia]|].
  open_event. apply halts_op. intros s failed g1 s1 (n1 & H1%shared_signals & ->) _. simpl.
  destruct failed; [apply halts_ret; split; [done|unfold admits; simpl; lia]|].
  apply halts_op. intros s2 [reservation|] g2 s2' (n2 & H2%shared_signals & ->) _; simpl in *;
    [|apply halts_ret; split; [done|unfold admits; simpl; lia]].
  apply halts_op. intros s3 pushed g3 s3' (n3 & H3%shared_signals & ->) _. simpl in *. destruct pushed; simpl.
  - destruct (Gateway.has_response_hook i); simpl; [|apply halts_ret; split; [done|unfold admits; simpl; rewrite length_app; simpl; lia]].
    apply halts_op. intros s4 response g4 s4' [_ ->] _.
    destruct response; apply halts_ret; (split; [split; [apply same_parsers_queue || done|done]|unfold admits; simpl; rewrite length_app; simpl; lia]).
  - apply halts_bind. eapply halts_mono; [apply returns_release|]. intros r g4 H4. apply halts_ret. split; [done|].
    unfold admits in *. simpl in *. lia.
Qed.

(** Either all messages are admitted, or reading is paused. *)
Lemma returns_admit_messages fd c ms i g :
  returns (fun i' g' => same_parsers i i' /\ (exists n, admits n g g' /\ (Gateway.reads_paused i' = false -> n = length ms)))
    (Gateway.admit_messages fd c ms i) g.
Proof.
  revert i g. induction ms as [|m ms IH]; intros i g; cbn [Gateway.admit_messages].
  { apply halts_ret. split; [done|]. exists 0%nat. split; [unfold admits; lia|done]. }
  apply halts_bind. eapply halts_mono; [apply returns_admit|]. intros [[] i1] g1 [[Hs _] Ha]; simpl in *.
  - eapply halts_mono; [apply IH|]. intros i2 g2 (Hs2 & n & Ha2 & Hn). split; [by etrans|].
    exists (1 + n)%nat. split; [by eapply admits_trans|]. intros Hp. by rewrite Hn.
  - apply halts_ret. split; [|by exists 0%nat]. etrans; [exact Hs|]. apply (same_parsers_retain c (m :: ms)).
Qed.

(** ** Receiving *)

Definition fit i : Prop := maximum_input_buffer_bytes (Gateway.config i) = limit /\ parsers_ready i.

Lemma fit_same i i' : same_parsers i i' -> fit i -> fit i'.
Proof.
  intros [Ec Ep] [Hl Hr]. split; [congruence|]. intros fd c Hc. rewrite Ec.
  apply (f_equal (lookup fd)) in Ep. rewrite !lookup_fmap, Hc in Ep. symmetry in Ep.
  apply fmap_Some in Ep as (c' & Hc' & ->). exact (Hr _ _ Hc').
Qed.

Lemma same_parsers_lookup i i' fd c' :
  same_parsers i i' -> Gateway.connections i' !! fd = Some c' ->
  exists c, Gateway.connections i !! fd = Some c /\ Gateway.parser c' = Gateway.parser c.
Proof.
  intros [_ Ep] Hc. apply (f_equal (lookup fd)) in Ep. rewrite !lookup_fmap, Hc in Ep. symmetry in Ep.
  apply fmap_Some in Ep as (c & Hc2 & E). eauto.
Qed.

Lemma fit_feed fd q i : fit i -> parser_ready limit q -> fit (Gateway.alter_connection (Gateway.set_parser q) fd i).
Proof.
  intros [Hl Hr] Hq. split; [done|]. intros fd' c Hc. simpl in *. rewrite Hl.
  destruct (decide (fd = fd')) as [<-|Hne].
  - rewrite lookup_alter_eq in Hc. apply fmap_Some in Hc as (c' & _ & ->). done.
  - rewrite lookup_alter_ne in Hc by done. pose proof (Hr _ _ Hc) as H. simpl in H. by rewrite Hl in H.
Qed.

(** How much [receive_from] can still do. *)
Definition room fd i g : nat :=
  match Gateway.connections i !! fd with
  | Some c =>
      if Gateway.closing c || Gateway.reads_paused i || Gateway.shutdown_started i then 0
      else 1 + ((N + length (g_drained g) - length (g_admitted g)) * S limit +
                (limit - length (unread (Gateway.parser c))) + g_signals g)
  | None => 0
  end.

(** A message that was admitted makes up for what the parser can keep. *)
Lemma room_messages k n u u' :
  (n <> 0)%nat -> (n <= k)%nat -> (u' <= limit)%nat ->
  ((k - n) * S limit + (limit - u') < k * S limit + (limit - u))%nat.
Proof. intros. nia. Qed.

Lemma returns_receive_body fd i g :
  fit i -> balanced N g ->
  returns (fun t g' => match t with
                       | inl i' => (fit i' /\ balanced N g') /\ (room fd i' g' < room fd i g)%nat
                       | inr i' => fit i'
                       end) (Gateway.receive_body fd i) g.
Proof.
  intros Hfit Hb. unfold Gateway.receive_body, room at 2.
  destruct (Gateway.connections i !! fd) as [c|] eqn:Ec; [|apply halts_op; intros ? []].
  destruct (_ || _) eqn:Eg; [by apply halts_ret|].
  assert (fit (Gateway.alter_connection Gateway.set_closing fd i)) as Hclose
    by (eapply fit_same; [by apply same_parsers_alter|done]).
  open_event. apply halts_op. intros s [bytes|e] g1 s1 [_ Hx] Hk1; cycle 1.
  { destruct (failed_call_admits _ _ _ Hx) as [Ha Hsig]. destruct (e =? EINTR).
    - apply halts_ret. split; [done|]. unfold room. rewrite Ec, Eg. unfold admits in Ha. specialize (Hsig eq_refl).
      destruct Ha as (-> & -> & _). lia.
    - destruct ((e =? EAGAIN) || _); by apply halts_ret. }
  destruct Hx as (Hwf & _ & rcv & snt & _ & ->). set (g1 := set_fds _ g) in *.
  assert (g_admitted g1 = g_admitted g /\ g_drained g1 = g_drained g /\ g_signals g1 = g_signals g) as (Ea & Ed & Es) by done.
  clearbody g1. destruct bytes as [|x0 bytes]; [by apply halts_ret|].
  assert (parser_ready limit (Gateway.parser c)) as Hpr by (destruct Hfit as [<- Hr]; exact (Hr _ _ Ec)).
  destruct (feed_ready _ _ _ Hpr Hwf) as (q & result & -> & Hq & Hempty).
  apply halts_bind. eapply halts_mono.
  { eapply halts_keep; [apply returns_admit_messages|done]. }
  intros i2 g2 [(Hs & n & Ha & Hn) Hk2]. apply halts_ret.
  assert (fit i2) as Hfit2 by (eapply fit_same; [exact Hs|by apply fit_feed]).
  destruct (Wire.error result) as [err|].
  { split; [split; [|done]; eapply fit_same; [by apply same_parsers_alter|done]|]. unfold room, Gateway.alter_connection. simpl.
    rewrite lookup_alter_eq. destruct (Gateway.connections i2 !! fd); apply Nat.lt_0_succ. }
  split; [done|]. unfold room. destruct (Gateway.connections i2 !! fd) as [c2|] eqn:Ec2; [|apply Nat.lt_0_succ].
  destruct (Gateway.closing c2 || _ || _) eqn:Eg2; [apply Nat.lt_0_succ|]. apply orb_false_iff in Eg2 as [[_ Hp]%orb_false_iff _]. specialize (Hn Hp). subst n.
  destruct (same_parsers_lookup _ _ _ _ Hs Ec2) as (c1 & Ec1 & ->). unfold Gateway.alter_connection in Ec1. simpl in Ec1.
  rewrite lookup_alter_eq, Ec in Ec1. injection Ec1 as <-. cbn [Gateway.set_parser Gateway.parser].
  destruct Hpr as (Hok & Hmax & _). destruct Hq as (Hok' & Hmax' & _). pose proof (pok_unread _ Hok') as Hu'. rewrite Hmax' in Hu'.
  destruct Ha as (Ha1 & Ha2 & Ha3). rewrite Ha1, Ha2, Ea, Ed. rewrite Es in Ha3. unfold balanced in *.
  rewrite Ha1, Ha2, Ea, Ed in Hk2.
  destruct (Wire.messages result) as [|m ms] eqn:Em.
  - rewrite Hempty in * by done. rewrite length_app in *. simpl in *. lia.
  - pose proof (room_messages (N + length (g_drained g) - length (g_admitted g)) (length (m :: ms))
      (length (unread (Gateway.parser c))) (length (unread q)) ltac:(done) ltac:(lia) Hu') as Hroom.
    replace (N + length (g_drained g) - (length (g_admitted g) + length (m :: ms)))%nat
      with (N + length (g_drained g) - length (g_admitted g) - length (m :: ms))%nat by lia. lia.
Qed.

Lemma returns_receive fd i g : fit i -> balanced N g -> returns (fun i' _ => fit i') (Gateway.receive_from fd i) g.
Proof.
  intros Hf Hb. apply (halts_loop_inv _ _ (fun i g => fit i /\ balanced N g) (room fd)); [done|].
  intros i' g' [? ?]. by apply returns_receive_body.
Qed.

(** ** Draining *)

Lemma returns_completions i g : fit i -> balanced N g -> returns (fun i' _ => fit i') (Gateway.drain_engine_completions i) g.
Proof.
  intros Hf Hb. unfold Gateway.drain_engine_completions. destruct (negb _); [by apply halts_ret|].
  open_event. apply halts_op. intros s0 sz g0 s0' _ Hk0.
  apply (halts_loop_inv _ _ (fun i _ => fit i) (fun _ g => length (g_admitted g) - length (g_drained g))%nat); [done|].
  clear i g Hf Hb s0 sz g0 s0' Hk0. intros i g Hf. open_event. apply halts_op.
  intros s [completion|] g1 s1 (n & _ & ->) Hk1; [|by apply halts_ret]. cbn [bind]. apply halts_bind.
  eapply halts_mono; [apply returns_release|]. intros _ g2 (Ha & Hd & _). apply halts_ret.
  split; [eapply fit_same; [apply same_parsers_deliver|done]|].
  unfold balanced in Hk1. rewrite Ha, Hd. simpl in *. rewrite length_app in *. simpl in *. lia.
Qed.

Lemma returns_pending i g : fit i -> returns (fun i' _ => fit i') (Gateway.drain_pending_requests i) g.
Proof.
  intros Hf. unfold Gateway.drain_pending_requests. destruct (Gateway.shutdown_started i); [by apply halts_ret|].
  open_event. apply halts_op. intros s0 failed g0 s0' _ _. destruct failed; [by apply halts_ret|].
  apply (halts_loop_inv _ _ (fun i _ => fit i) (fun i _ => length (Gateway.pending_requests i))); [done|].
  clear i g Hf s0 g0 s0'. intros i g Hf. unfold Gateway.drain_pending_body.
  destruct (Gateway.pending_requests i) as [|m ms] eqn:Em; [by apply halts_ret|].
  assert (fit (Gateway.pop_pending i) /\ (length (Gateway.pending_requests (Gateway.pop_pending i)) < length (m :: ms))%nat) as Hpop.
  { split; [done|]. unfold Gateway.pop_pending. simpl. rewrite Em. simpl. lia. }
  destruct (Gateway.find_connection _ i) as [fd|]; [|by apply halts_ret].
  destruct (Gateway.connections i !! fd) as [c|]; [|apply halts_op; intros ? []].
  destruct (Gateway.closing c); [by apply halts_ret|]. apply halts_bind.
  eapply halts_mono; [apply returns_admit|].
  intros [[] i1] g1 [[Hs Hp] _]; simpl in *; apply halts_ret; [|by eapply fit_same].
  split; [by eapply fit_same|]. unfold Gateway.pop_pending. simpl. rewrite Hp, Em. simpl. lia.
Qed.

(** ** Flushing *)

Lemma returns_flush fd b g :
  returns (fun _ _ => True) (Output.flush (fun bytes => call (Gateway.Send fd bytes)) b) g.
Proof.
  apply (halts_loop _ _ (fun b g => Output.pending_size b + g_signals g)%nat). clear b g. intros b g.
  unfold Output.flush_body. destruct (Output.empty b); [by apply halts_ret|]. open_event. apply halts_op.
  intros s [n|e] g1 s1 [_ Hst] _.
  - destruct Hst as (_ & rcv & snt & _ & ->). destruct (Z.ltb_spec 0 n) as [Hn|]; [|by apply halts_ret].
    case_bool_decide as Hp; [by apply halts_ret|]. cbv zeta. destruct (Output.empty _) eqn:Ee; [by apply halts_ret|].
    apply halts_ret. unfold Output.empty in Ee. apply bool_decide_eq_false in Ee. unfold Output.pending_size in *. simpl in *. lia.
  - apply failed_call_admits in Hst as [_ Hsig]. destruct (e =? EINTR); [|destruct (_ || _); by apply halts_ret].
    apply halts_ret. specialize (Hsig eq_refl). lia.
Qed.

Lemma returns_flush_output fd i g : fit i -> returns (fun i' _ => fit i') (Gateway.flush_output fd i) g.
Proof.
  intros Hf. unfold Gateway.flush_output. destruct (Gateway.connections i !! fd) as [c|]; [|apply halts_op; intros ? []].
  apply halts_bind. eapply halts_mono; [apply returns_flush|]. intros [r b] g1 _. apply halts_ret.
  assert (fit (Gateway.alter_connection (Gateway.set_output b) fd i)) by (eapply fit_same; [by apply same_parsers_alter|done]).
  case_bool_decide; [|done]. eapply fit_same; [by apply same_parsers_alter|done].
Qed.

(** ** A client *)

Lemma fit_delete fd i : fit i -> fit (Gateway.set_connections (delete fd (Gateway.connections i)) i).
Proof. intros [Hl Hr]. split; [done|]. by apply map_Forall_delete. Qed.

Lemma returns_close_if_finished fd i g : fit i -> returns (fun i' _ => fit i') (Gateway.close_if_finished fd i) g.
Proof.
  intros Hf. unfold Gateway.close_if_finished, Gateway.erase_connection. destruct (Gateway.connections i !! fd) as [c|]; [|by apply halts_ret].
  destruct (_ && _); [|by apply halts_ret]. apply halts_bind. unfold Gateway.close_descriptor.
  destruct (0 <=? _); [|apply halts_ret, halts_ret; by apply fit_delete].
  open_event. apply halts_op. intros s x g1 s1 _ _. apply halts_ret, halts_ret. by apply fit_delete.
Qed.

Lemma returns_serve_client client i g :
  fit i -> balanced N g -> returns (fun i' _ => fit i') (Gateway.serve_client i client) g.
Proof.
  intros Hf Hb. destruct client as [fd events]. unfold Gateway.serve_client.
  destruct (Gateway.connections i !! fd); [|by apply halts_ret]. apply halts_bind.
  eapply (halts_mono _ _ _ _ (fun i' _ => fit i')); [destruct (has_event events POLLIN); [by apply returns_receive|by apply halts_ret]|].
  clear i g Hf Hb. intros i g Hf. apply halts_bind. eapply (halts_mono _ _ _ _ (fun i' _ => fit i')).
  { destruct (Gateway.connections i !! fd); [|by apply halts_ret].
    destruct (has_event events POLLOUT); [by apply returns_flush_output|by apply halts_ret]. }
  clear i g Hf. intros i g Hf. apply returns_close_if_finished. repeat case_match; try done.
  eapply fit_same; [by apply same_parsers_alter|done].
Qed.

Lemma returns_clients clients i g :
  fit i -> balanced N g -> returns (fun i' _ => fit i') (for_each clients Gateway.serve_client i) g.
Proof.
  revert i g. induction clients as [|client clients IH]; intros i g Hf Hb; simpl; [by apply halts_ret|].
  apply halts_bind. eapply halts_mono; [eapply halts_keep; [by apply returns_serve_client|done]|]. intros i' g' [? ?]. by apply IH.
Qed.

End progress.


(** ** The running server *)

Section running.
  Context {W : Type} `{!Posix W, !PosixView W, !PosixLaws W}.
  Context (config : ExchangeServerConfig) (p : path) (lo cs : list JournalCommand) (v0 v : @Server W).

Lemma steps_throws v1 v2 : rtc (@server_step W _) v1 v2 -> w_throws (ws v2) = w_throws (ws v1).
Proof. induction 1 as [|v1 v2 v3 Hst _ IH]; [done|]. by rewrite IH, (server_step_throws _ _ Hst). Qed.

(** C17: no client holds up the others.  In a server in which no exception drops
    requests while a batch is collected ([no_drop]: neither [batch.reserve] nor the
    drain hook throws) and whose batches fit the histogram, the requests that are admitted and not yet drained never exceed the limit of
    requests in flight; and as long as that holds, with the members the gateway
    has when it goes to [poll], draining the responses, draining the requests
    kept back, and serving any sequence of ready clients, with receiving until
    the socket is empty and sending until it is full, all return after finitely
    many events: whatever bytes the clients send, whatever the sockets answer,
    and whatever the engine worker does in the meantime. *)
Theorem clients_cannot_starve i k :
  launched config p lo cs v0 -> histogram_fits config -> rtc server_step v0 v -> no_drop (ws v) ->
  gateway_thread v = Op (Gateway.Snapshot i) k ->
  (forall v', rtc server_step v v' -> balanced (maximum_in_flight config) (gs v')) /\
  forall g clients, balanced (maximum_in_flight config) g ->
    halts gateway_step (balanced (maximum_in_flight config)) (fun _ _ => True) (Gateway.drain_engine_completions i) g /\
    halts gateway_step (balanced (maximum_in_flight config)) (fun _ _ => True) (Gateway.drain_pending_requests i) g /\
    halts gateway_step (balanced (maximum_in_flight config)) (fun _ _ => True) (for_each clients Gateway.serve_client i) g.
Proof.
  intros Hl Hh Hst Hn E. split.
  - intros v' Hst'. eapply launched_balanced; [done..|by etrans|]. unfold no_drop in *. by rewrite (steps_throws _ _ Hst').
  - destruct (launched_inv _ _ _ _ _ _ Hl Hh Hst) as (b & rs & _ & Hi).
    destruct (server_inv_ok _ _ _ _ _ _ Hi) as (Hok & _). rewrite E in Hok. destruct Hok as [_ Hr].
    assert (fit (maximum_input_buffer_bytes (Gateway.config i)) i) as Hf by done.
    intros g clients Hb. repeat split; (eapply halts_mono; [|by intros]).
    + by eapply returns_completions.
    + by eapply returns_pending.
    + by eapply returns_clients.
Qed.

End running.

(** The server of the scenario, with its request queue full: the three return
    at the point where the gateway goes to sleep. *)
Lemma clients_cannot_starve_witness :
  exists i k, gateway_thread demo_full = Op (Gateway.Snapshot i) k /\
    length (Gateway.pending_requests i) = 1%nat /\
    halts gateway_step (balanced (maximum_in_flight demo_config)) (fun _ _ => True)
      (for_each ((fun fd => (fd, POLLIN)) <$> (map_to_list (Gateway.connections i)).*1) Gateway.serve_client i) (gs demo_full).
Proof.
  assert (option_map (fun i => length (Gateway.pending_requests i)) (snapshot_of (gateway_thread demo_full))
    = Some 1%nat) as Hs by (vm_compute; reflexivity).
  destruct (snapshot_of (gateway_thread demo_full)) as [i|] eqn:E; [|discriminate Hs].
  destruct (snapshot_of_spec _ _ E) as [k Ek]. exists i, k. split; [exact Ek|].
  split; [by injection Hs|].
  assert (rtc server_step (demo_start demo_config no_throws) demo_full) as Hsteps 
    by apply (play_steps _ (demo_start demo_config no_throws, _)).
  destruct (clients_cannot_starve demo_config sample_path [] [] (demo_start demo_config no_throws) demo_full i k
    demo_is_launched demo_fits Hsteps (conj eq_refl eq_refl) Ek) as [H1 H2].
  apply (H2 (gs demo_full)). apply H1. reflexivity.
Defined.
