(* ===== verification/ResponseTyping.v ===== *)
(** * The types of requests and responses

    What travels through a running server is well typed: the fields of every
    admitted request are in the ranges of their types, the results of the book
    are consistent, and every response that the worker publishes has an encoding
    from which the client's decoder gets back exactly that response. *)
From S2P Require Import Prelude Types Bytes OrderBook OrderBookInv Matching OrderBookOps OrderBookProps Journal Posix.
From S2P Require Import MemoryFs JournalStorage JournalFile.
From S2P Require Import JournalStorageProps DurableEngine DurableEngineProps Wire WireCodec WireParser Threads.
From S2P Require Import BoundedQueue GatewayTypes Connection Gateway Exchange Pipeline PipelineInv WorkerLoop.
From S2P Require Import GatewayInv GatewayLoop ExchangeInv ExchangeStart Scenario ExchangeProps.

(** ** Results *)

(** A result of the book: a rejection has a reason and no quantities, an
    acceptance has none; quantities are of their type. *)
Definition typed_result (r : BatchCommandResult) : Prop :=
  match r with
  | BatchSubmit r =>
      match sr_rejection_reason r with
      | None => sr_status r = Accepted
      | Some _ => sr_status r = Rejected /\ sr_executed_quantity r = 0 /\ sr_resting_quantity r = 0
      end /\ is_u64 (sr_executed_quantity r) /\ is_u64 (sr_resting_quantity r)
  | BatchCancel r => is_u64 (cr_cancelled_quantity r)
  end.

Lemma submit_typed b o b' r :
  Inv b -> wf_order o -> OrderBook.submit None b o = Returned b' r -> typed_result (BatchSubmit r) /\ Inv b'.
Proof.
  intros HI Hwf E. destruct (submit_returned_cases _ _ _ _ HI Hwf E) as [(reason & _ & -> & ->)|(_ & -> & HI' & _)].
  - split; [|done]. by split_and!.
  - split; [|done]. pose proof (submit_residual_range b o HI Hwf). destruct Hwf as (_ & _ & _ & Hq).
    split; [done|]. unfold accepted_result. cbn [sr_executed_quantity sr_resting_quantity].
    unfold submit_residual in *. unfold is_u64 in *. lia.
Qed.

Lemma cancel_typed b id b' r :
  Inv b -> OrderBook.cancel b id = Returned b' r -> typed_result (BatchCancel r) /\ Inv b'.
Proof.
  intros HI E. destruct (cancel_spec b id HI) as [[_ E']|(n & b1 & Hn & _ & E' & HI' & _)]; rewrite E' in E;
    injection E as <- <-; [done|]. split; [|done]. simpl.
  destruct (Inv_node_place b n HI Hn) as (ref & lv1 & l & lv2 & l1 & l2 & _ & _ & _ & Ho & _ & Hl).
  pose proof (lvl_orders _ _ Hl) as Hall. simpl in Hall. rewrite Ho in Hall.
  apply Forall_app in Hall as [_ [Hok _]%Forall_cons]. destruct Hok. unfold node_rem, is_u64. lia.
Qed.

Lemma runs_typed b cs b' rs :
  Inv b -> Forall wf_journal_command cs -> runs b cs b' rs -> Forall typed_result rs.
Proof.
  intros HI Hwf H. revert HI Hwf. induction H as [|b o b1 r cs b2 rs E _ IH|b id b1 r cs b2 rs E _ IH];
    intros HI Hwf; [done|..]; apply Forall_cons in Hwf as [Hc Hwf].
  - destruct (submit_typed _ _ _ _ HI Hc E). constructor; auto.
  - destruct (cancel_typed _ _ _ _ HI E). constructor; auto.
Qed.

(** ** Responses *)

(** A response has a frame, and the decoder gets the response back from it. *)
Definition typed_response (r : EngineResponse) : Prop :=
  exists e frame, Gateway.to_wire_response r = Some e /\ Wire.encode_server_frame e = inl frame /\
    Wire.decode_server_frame frame = Some (inl (Wire.mkDecodedFrame e (length frame))).

Lemma valid_envelope_decodes e :
  valid_server_message (Wire.message e) = true -> wf_server_message (Wire.message e) -> is_u64 (Wire.request_id e) ->
  exists frame, Wire.encode_server_frame e = inl frame /\
    Wire.decode_server_frame frame = Some (inl (Wire.mkDecodedFrame e (length frame))).
Proof.
  intros Hv Hm Hid. exists (frame_bytes e). rewrite encode_server_bytes, Hv. split; [done|].
  unfold Wire.decode_server_frame. rewrite decode_server_slices by apply wf_frame_bytes.
  assert (frame_slices (frame_bytes e) = inl (Wire.mkDecodedFrame e (length (frame_bytes e)))) as ->.
  { apply frame_slices_inl; [apply wf_frame_bytes|]. by split_and!. }
  simpl. unfold Wire.require_exact_frame. simpl. by rewrite bool_decide_true.
Qed.

Lemma summarize_typed q res r :
  wf_request q -> typed_result res -> Exchange.summarize q res = Some r -> typed_response r.
Proof.
  intros [_ Hid] Hres E. unfold Exchange.summarize in E.
  destruct res as [res|res], q as [q|q]; try done; injection E as <-; simpl in Hid.
  - destruct Hres as (Hreason & He & Hr).
    destruct (sr_rejection_reason res) as [reason|] eqn:Ereason.
    + assert (exists code, Wire.to_wire_rejection_code reason = Some code /\
        valid_server_message (Wire.SubmitResultMessage (Wire.mkSubmitResultResponse Wire.SubmitRejected code
          (sr_executed_quantity res) (sr_resting_quantity res))) = true) as (code & Ecode & Hv) by (destruct reason; by eexists).
      destruct (valid_envelope_decodes (Wire.mkWireEnvelope (ser_request_id q)
        (Wire.SubmitResultMessage (Wire.mkSubmitResultResponse Wire.SubmitRejected code
          (sr_executed_quantity res) (sr_resting_quantity res))))) as (frame & E1 & E2); [done..|].
      eexists _, frame. split; [|by split]. simpl. rewrite Ereason, Ecode.
      destruct Hreason as [-> _]. done.
    + destruct (valid_envelope_decodes (Wire.mkWireEnvelope (ser_request_id q)
        (Wire.SubmitResultMessage (Wire.mkSubmitResultResponse Wire.SubmitAccepted Wire.RejectionNone
          (sr_executed_quantity res) (sr_resting_quantity res))))) as (frame & E1 & E2); [done..|].
      eexists _, frame. split; [|by split]. simpl. by rewrite Ereason, Hreason.
  - assert (exists code, Wire.to_wire_cancel_status (cr_status res) = Some code /\
      valid_server_message (Wire.CancelResultMessage (Wire.mkCancelResultResponse code (cr_cancelled_quantity res))) = true)
      as (code & Ecode & Hv) by (destruct (cr_status res); by eexists).
    destruct (valid_envelope_decodes (Wire.mkWireEnvelope (cer_request_id q)
      (Wire.CancelResultMessage (Wire.mkCancelResultResponse code (cr_cancelled_quantity res))))) as (frame & E1 & E2); [done..|].
    eexists _, frame. split; [|by split]. simpl. by rewrite Ecode.
Qed.

Lemma unavailable_typed q : wf_request q -> typed_response (Exchange.unavailable_response q).
Proof.
  intros [_ Hid]. destruct (valid_envelope_decodes (Wire.mkWireEnvelope (request_key q).2
    (Wire.EngineUnavailableMessage Wire.Unavailable))) as (frame & E1 & E2); [done..|].
  eexists _, frame. split; [|by split]. by destruct q.
Qed.

Lemma answers_typed reqs results answers :
  Forall wf_request reqs -> Forall typed_result results ->
  zip_with Exchange.summarize reqs results = Some <$> answers -> Forall typed_response answers.
Proof.
  intros Hq Hr E. apply Forall_forall. intros r Hin.
  assert (Some r ∈ zip_with Exchange.summarize reqs results) as Hz by (rewrite E; by apply list_elem_of_fmap_2).
  apply elem_of_lookup_zip_with in Hz as (n & q & res & Hs & Hqn & Hrn).
  rewrite Forall_forall in Hq. rewrite Forall_forall in Hr. eapply summarize_typed; [apply Hq|apply Hr|done]; by eapply list_elem_of_lookup_2.
Qed.

Section props.
  Context {W : Type} `{!Posix W, !PosixView W, !PosixLaws W}.
  Context (config : ExchangeServerConfig) (p : path) (lo cs : list JournalCommand) (v0 v : @Server W).

(** C18: the server is well typed.  The fields of every admitted request are in
    the ranges of their types, and every response that was published has an
    encoding, from which the decoder of the client gets back exactly the
    response: no response is ever lost because it cannot be encoded. *)
Theorem responses_well_typed :
  launched config p lo cs v0 -> histogram_fits config -> rtc server_step v0 v ->
  Forall wf_request (g_admitted (gs v)) /\ Forall typed_response (w_answered (ws v)).
Proof.
  intros Hl Hh Hst.
  destruct (launched_ready _ _ _ _ _ Hl) as (b & rs & impl & gw & fds & proc & throws & signals & Hv & Hrs & Hready & E0).
  assert (server_inv config p lo cs b v) as Hi.
  { eapply server_inv_steps; [exact Hst|]. rewrite E0. by apply start_inv. }
  assert (Inv b) as HI.
  { rewrite <- (rd_book _ _ _ _ _ _ _ _ _ Hready). apply (eo_inv _ _ _ _ _ (rd_engine _ _ _ _ _ _ _ _ _ Hready)). }
  pose proof (si_linked _ _ _ _ _ _ Hi) as L. pose proof (l_wf_admitted _ _ _ _ _ _ L) as Hwf. split; [done|].
  destruct (si_worker_inv _ _ _ _ _ _ Hi) as (acked & un & unacked & results2 & Hd & Hs & _).
  destruct Hd as (results1 & answers & b1 & b2 & H1 & _ & H3 & H4 & _).
  assert (Forall wf_request (acked ++ un)) as [Ha Hu]%Forall_app.
  { rewrite (l_admitted _ _ _ _ _ _ L) in Hwf. apply Forall_app in Hwf as [Hwf _].
    apply Forall_forall. intros q Hq. rewrite Forall_forall in Hwf. by eapply Hwf, elem_of_sublist. }
  rewrite H4. apply Forall_app. split.
  - eapply answers_typed; [exact Ha| |exact H3]. eapply runs_typed; [exact HI| |exact H1].
    apply Forall_fmap. eapply Forall_impl; [exact Ha|]. by intros q [? _].
  - apply Forall_fmap. eapply Forall_impl; [exact Hu|]. apply unavailable_typed.
Qed.

End props.

Lemma responses_well_typed_witness :
  Forall wf_request (g_admitted (gs (demo_at 5))) /\ Forall typed_response demo_answers.
Proof.
  assert (w_answered (ws (demo_at 5)) = demo_answers) as E by (vm_compute; reflexivity).
  destruct (responses_well_typed demo_config sample_path [] [] (demo_start demo_config no_throws) (demo_at 5)
    demo_is_launched demo_fits (demo_steps 5)) as [H1 H2].
  rewrite E in H2. exact (conj H1 H2).
Defined.
