(* ===== verification/GatewayDescriptors.v ===== *)
(** * The descriptors of the gateway

    Which descriptors the gateway thread has open: besides those that were open
    before the server was created, [F], they are the listener, the eventfd and one
    per connection, at every [poll]; when [run] has returned only the eventfd is
    left, and destroying the gateway closes it.  Most functions neither open nor
    close anything and leave the handles in the members alone: they are [quiet]. *)
From S2P Require Import Prelude Types Bytes OrderBook Journal Posix JournalStorage DurableEngine Wire WireCodec WireParser.
From S2P Require Import Threads BoundedQueue GatewayTypes Connection Gateway Exchange Pipeline PipelineInv.
From S2P Require Import JournalStorageProps DurableEngineProps GatewayInv GatewayMoves GatewayLoop WorkerLoop ExchangeInv ExchangeStart.
From S2P Require Import MemoryFs Scenario ExchangeProps.
Import Limiter.

(** ** What the members own *)

Abbreviation D g := (dom (g_fds g) : gset Z).

Definition listening (i : Gateway.Impl) : gset Z :=
  if 0 <=? Gateway.listener_descriptor i then {[Gateway.listener_descriptor i]} else empty.

(** The set [d] of open descriptors has four parts: what is foreign, the listener,
    the eventfd and the connections. *)
Definition parts (d F L : gset Z) (w : Z) (C : gset Z) : Prop :=
  d = F ∪ (L ∪ {[w]} ∪ C) /\ F ## L ∪ {[w]} ∪ C /\ w ∉ L /\ L ∪ {[w]} ## C.

Section parts.
  Implicit Types (d F L C : gset Z).

Lemma parts_close_listener d F l w C : parts d F {[l]} w C -> parts (d ∖ {[l]}) F empty w C.
Proof. intros (-> & H1 & H2 & H3). split_and!; set_solver. Qed.

Lemma parts_open d F L w C x : parts d F L w C -> x ∉ d -> x ∉ F /\ parts ({[x]} ∪ d) (F ∪ {[x]}) L w C.
Proof. intros (-> & H1 & H2 & H3) Hx. split; [set_solver|]. split_and!; set_solver. Qed.

Lemma parts_adopt d F L w C x : parts d (F ∪ {[x]}) L w C -> x ∉ F -> parts d F L w ({[x]} ∪ C).
Proof. intros (-> & H1 & H2 & H3) Hx. split_and!; set_solver. Qed.

Lemma parts_forget d F L w C x : parts d (F ∪ {[x]}) L w C -> x ∉ F -> parts (d ∖ {[x]}) F L w C.
Proof. intros (-> & H1 & H2 & H3) Hx. split_and!; set_solver. Qed.

Lemma parts_erase d F L w C x : parts d F L w C -> x ∈ C -> parts (d ∖ {[x]}) F L w (C ∖ {[x]}).
Proof.
  intros (-> & H1 & H2 & H3) Hx. split_and!; [|set_solver..].
  apply set_eq. intros y. destruct (decide (y = x)); set_solver.
Qed.

End parts.

(** The gateway with the members [i] owns what is open, but for [F]. *)
Record owns (F : gset Z) (i : Gateway.Impl) (g : GatewayState) : Prop := {
  ow_parts : parts (D g) F (listening i) (Gateway.wakeup_descriptor i) (dom (Gateway.connections i));
  ow_wakeup : 0 <= Gateway.wakeup_descriptor i;
  ow_keys : map_Forall (fun fd c => Gateway.descriptor c = fd /\ 0 <= fd) (Gateway.connections i);
}.

(** The handles among the members. *)
Definition handles (i : Gateway.Impl) : Z * Z * gmap Z Z :=
  (Gateway.listener_descriptor i, Gateway.wakeup_descriptor i, Gateway.descriptor <$> Gateway.connections i).

Lemma owns_same F i i' g g' : owns F i g -> handles i' = handles i -> D g' = D g -> owns F i' g'.
Proof.
  intros [H1 H5 H6] [= El Ew Ec] Ed.
  assert (dom (Gateway.connections i') = dom (Gateway.connections i)) as Edom
    by (by rewrite <- (dom_fmap_L Gateway.descriptor), Ec, dom_fmap_L).
  assert (listening i' = listening i) as Eli by (unfold listening; by rewrite El).
  split; rewrite ?Eli, ?Ew, ?Edom, ?Ed; try done.
  intros fd c Hc. apply (f_equal (lookup fd)) in Ec. rewrite !lookup_fmap, Hc in Ec. symmetry in Ec. simpl in Ec.
  apply fmap_Some in Ec as (c' & Hc' & ->). destruct (H6 _ _ Hc'). done.
Qed.

(** Assignments that keep the handles. *)
Lemma handles_alter f fd i :
  (forall c, Gateway.descriptor (f c) = Gateway.descriptor c) -> handles (Gateway.alter_connection f fd i) = handles i.
Proof.
  intros Hf. unfold handles, Gateway.alter_connection. simpl. f_equal. apply map_eq. intros fd'.
  rewrite !lookup_fmap. destruct (decide (fd = fd')) as [<-|Hne].
  - rewrite lookup_alter_eq. destruct (Gateway.connections i !! fd); simpl; [by rewrite Hf|done].
  - by rewrite lookup_alter_ne.
Qed.

Lemma handles_set_pending l i : handles (Gateway.set_pending_requests l i) = handles i.
Proof. done. Qed.
Lemma handles_set_paused b i : handles (Gateway.set_reads_paused b i) = handles i.
Proof. done. Qed.

Lemma handles_queue_response fd r i : handles (Gateway.queue_response fd r i) = handles i.
Proof.
  apply handles_alter. intros c. unfold Gateway.queue_response_on. repeat case_match; done.
Qed.

Lemma handles_deliver r i : handles (Gateway.deliver r i) = handles i.
Proof.
  unfold Gateway.deliver. repeat case_match; try done; [apply handles_queue_response|by apply handles_alter].
Qed.

Lemma handles_retain c ms i : handles (foldl (Gateway.retain_pending c) i ms) = handles i.
Proof.
  revert i. induction ms as [|m ms IH]; intros i; [done|]. simpl. rewrite IH. unfold Gateway.retain_pending.
  repeat case_match; try done. by apply handles_alter.
Qed.

Create Rewrite HintDb handles.
#[export] Hint Rewrite handles_set_pending handles_set_paused handles_queue_response handles_deliver
  handles_retain : handles.

Lemma handles_pop_pending i : handles (Gateway.pop_pending i) = handles i.
Proof. done. Qed.
#[export] Hint Rewrite handles_pop_pending : handles.

(** ** Quiet code *)

(** Events that neither open nor close; [poll] is treated separately. *)
Definition calm {X} (e : Gateway.GatewayE X) : bool :=
  match e with
  | Gateway.Close _ | Gateway.Accept _ | Gateway.Socket | Gateway.EventFd | Gateway.Poll _ => false
  | _ => true
  end.

Lemma failed_call_dom err g g' : failed_call err g g' -> D g' = D g.
Proof. intros H. by rewrite (failed_call_fds _ _ _ H). Qed.

Lemma dom_update fd (d d' : Descriptor) (m : gmap Z Descriptor) :
  m !! fd = Some d -> dom (<[fd := d']> m) = (dom m : gset Z).
Proof. intros H. rewrite dom_insert_L. apply elem_of_dom_2 in H. set_solver. Qed.

Lemma calm_dom X (e : Gateway.GatewayE X) g s x g' s' :
  calm e = true -> gateway_step X e g s x g' s' -> D g' = D g.
Proof.
  intros He Hst. destruct e; try done; simpl in Hst.
  { destruct Hst as (n & _ & ->). destruct e; simpl; try done; repeat case_match; done. }
  all: unfold plain_call, plain_check in Hst; repeat case_match; destruct_and?; subst; simpl;
    eauto using failed_call_dom.
  all: naive_solver eauto using failed_call_dom, dom_update.
Qed.

Section gateway.
  Variable F : gset Z.
  Implicit Types (g : GatewayState) (i : Gateway.Impl) (s : SharedState).

(** At [poll] the descriptors are exactly those of the members, of which a
    snapshot was taken. *)
Definition descriptors_ok X (e : Gateway.GatewayE X) g (_ : SharedState) : Prop :=
  match e with
  | Gateway.Poll _ => exists i, g_snapshot g = Some i /\ owns F i g
  | _ => True
  end.

Abbreviation WPd := (WP gateway_step descriptors_ok (fun (_ : GatewayState) (_ : unit) (_ : SharedState) => True)).

Lemma WPd_event {X A} (e : Gateway.GatewayE X) (k : X -> prog Gateway.GatewayE A) g Q :
  calm e = true -> (forall x g', D g' = D g -> WPd (k x) g' Q) -> WPd (Op e k) g Q.
Proof.
  intros He Hk. apply WP_op. intros r s _. split; [by destruct e|]. intros x g' s' Hst. split; [done|].
  apply Hk. by eapply calm_dom.
Qed.

Definition quiet {A} (V : A -> Prop) (p : prog Gateway.GatewayE A) : Prop :=
  forall g, WPd p g (fun a g' => V a /\ D g' = D g).

Lemma quiet_ret {A} (V : A -> Prop) a : V a -> quiet V (Ret a).
Proof. intros H g. by apply WP_ret. Qed.

Lemma quiet_op {X A} (V : A -> Prop) (e : Gateway.GatewayE X) k :
  calm e = true -> (forall x, quiet V (k x)) -> quiet V (Op e k).
Proof.
  intros He Hk g. apply WPd_event; [done|]. intros x g' Hg. eapply WP_mono; [apply Hk|].
  intros a g2 [? ->]. done.
Qed.

Lemma quiet_bind {A B} (U : A -> Prop) (V : B -> Prop) p (f : A -> prog Gateway.GatewayE B) :
  quiet U p -> (forall a, U a -> quiet V (f a)) -> quiet V (bind p f).
Proof.
  intros Hp Hf g. apply WP_bind. eapply WP_mono; [apply Hp|]. intros a g' [Ha Hg].
  eapply WP_mono; [by apply Hf|]. intros b g2 [? ->]. done.
Qed.

Lemma quiet_iter {L B} (I : L -> Prop) (V : B -> Prop) (body : L -> prog Gateway.GatewayE (L + B)) l :
  I l -> (forall l, I l -> quiet (fun t => match t with inl l' => I l' | inr b => V b end) (body l)) ->
  quiet V (iter body l).
Proof.
  intros Hl Hb g. apply (WP_iter _ _ _ (fun l g' => I l /\ D g' = D g)); [done|].
  intros l' g' [Hl' Hg]. eapply WP_mono; [by apply Hb|]. intros [l2|b] g2 [? E]; by rewrite E.
Qed.

Lemma quiet_for_each {L X} (I : L -> Prop) xs (body : L -> X -> prog Gateway.GatewayE L) l :
  I l -> (forall x l, I l -> quiet I (body l x)) -> quiet I (for_each xs body l).
Proof.
  intros Hl Hb g. apply (WP_for_each _ _ _ (fun _ l g' => I l /\ D g' = D g)); [done| |done].
  intros x xs' l' g' [Hl' Hg]. eapply WP_mono; [by apply Hb|]. intros l2 g2 [? E]. by rewrite E.
Qed.

Lemma quiet_abort {A} (V : A -> Prop) c : quiet V (abort c).
Proof. apply quiet_op; [done|]. intros []. Qed.

Lemma quiet_mono {A} (U V : A -> Prop) p : quiet U p -> (forall a, U a -> V a) -> quiet V p.
Proof. intros Hp HV g. eapply WP_mono; [apply Hp|]. intros a g' [? ?]. auto. Qed.

(** ** The functions that are quiet *)

Abbreviation keeps h := (quiet (fun i => handles i = h)).

Ltac open_event := unfold share, call; cbn [bind].
Ltac same_handles := cbn [fst snd]; subst; autorewrite with handles; rewrite ?handles_alter by done; congruence || done.

(** Takes one construct of a program. *)
Ltac quiet_step :=
  match goal with
  | |- quiet _ (Ret _) => apply quiet_ret
  | |- quiet _ (abort _) => apply quiet_abort
  | |- quiet _ (Op _ _) => apply quiet_op; [reflexivity|intros ?]
  | |- quiet _ (bind (share _) _) => open_event
  | |- quiet _ (bind (call _) _) => open_event
  | |- quiet _ (bind (Op _ _) _) => cbn [bind]
  | |- quiet _ (if ?b then _ else _) => destruct b
  | |- quiet _ (match ?x with _ => _ end) => destruct x
  | |- quiet _ (let _ := _ in _) => cbv zeta
  | |- quiet _ (bind _ _) => eapply quiet_bind; [solve [eauto with quiet nocore]|intros ? ?]
  | |- quiet _ _ => progress cbv beta
  end.
Create HintDb quiet.

Lemma quiet_wake : quiet (fun _ => True) Gateway.wake.
Proof. apply (quiet_iter (fun _ => True)); [done|]. intros _ _. by repeat quiet_step. Qed.

Lemma quiet_request_stop : quiet (fun _ => True) Gateway.request_stop.
Proof. unfold Gateway.request_stop. repeat quiet_step. apply quiet_wake. Qed.

Lemma quiet_release r : quiet (fun _ => True) (Gateway.release r).
Proof. unfold Gateway.release. by repeat quiet_step. Qed.

Lemma quiet_set_flag fd which flag : quiet (fun _ => True) (Gateway.set_flag fd which flag).
Proof. unfold Gateway.set_flag. by repeat quiet_step. Qed.

Lemma quiet_must_reject fd i : quiet (fun _ => True) (Gateway.must_reject fd i).
Proof.
  unfold Gateway.must_reject. destruct (_ || _); [by apply quiet_ret|].
  eapply quiet_bind; [apply quiet_set_flag|]. intros [e|] _; [by apply quiet_ret|].
  eapply quiet_bind; [apply quiet_set_flag|]. intros e _. by apply quiet_ret.
Qed.

Lemma quiet_drain_wakeup : quiet (fun _ => True) Gateway.drain_wakeup.
Proof. apply (quiet_iter (fun _ => True)); [done|]. intros _ _. by repeat quiet_step. Qed.

Lemma quiet_shutdown_complete i : quiet (fun _ => True) (Gateway.shutdown_complete i).
Proof. unfold Gateway.shutdown_complete. by repeat quiet_step. Qed.

Lemma quiet_iteration_order i : quiet (fun _ => True) (Gateway.iteration_order i).
Proof. apply quiet_op; [done|]. intros x. by apply quiet_ret. Qed.

#[local] Hint Resolve quiet_wake quiet_request_stop quiet_release quiet_set_flag quiet_drain_wakeup
  quiet_shutdown_complete quiet_iteration_order : quiet.

Lemma quiet_admit fd c m i : quiet (fun r => handles r.2 = handles i) (Gateway.admit_request fd c m i).
Proof. unfold Gateway.admit_request. repeat quiet_step; same_handles. Qed.
#[local] Hint Resolve quiet_admit : quiet.

Lemma quiet_admit_messages fd c ms i : keeps (handles i) (Gateway.admit_messages fd c ms i).
Proof.
  revert i. induction ms as [|m ms IH]; intros i; cbn [Gateway.admit_messages]; [by apply quiet_ret|].
  eapply quiet_bind; [apply quiet_admit|]. intros [[] i'] Hi; simpl in Hi; [rewrite <- Hi; apply IH|].
  apply quiet_ret. rewrite <- Hi. same_handles.
Qed.
#[local] Hint Resolve quiet_admit_messages : quiet.

Lemma quiet_receive fd i : keeps (handles i) (Gateway.receive_from fd i).
Proof.
  apply (quiet_iter (fun j => handles j = handles i)); [done|]. intros j <-.
  unfold Gateway.receive_body. repeat quiet_step; try same_handles.
  cbv beta in *. rewrite handles_alter in * by done. destruct (Wire.error _); same_handles.
Qed.

Lemma quiet_drain_pending i : keeps (handles i) (Gateway.drain_pending_requests i).
Proof.
  unfold Gateway.drain_pending_requests. repeat quiet_step; [done..|].
  apply (quiet_iter (fun j => handles j = handles i)); [done|]. intros j <-.
  unfold Gateway.drain_pending_body. repeat quiet_step; simpl in *; same_handles.
Qed.

Lemma quiet_drain_completions i : keeps (handles i) (Gateway.drain_engine_completions i).
Proof.
  unfold Gateway.drain_engine_completions. repeat quiet_step; [done|].
  apply (quiet_iter (fun j => handles j = handles i)); [done|]. intros j <-.
  repeat quiet_step; same_handles.
Qed.

Lemma quiet_flush_output fd i : keeps (handles i) (Gateway.flush_output fd i).
Proof.
  unfold Gateway.flush_output. destruct (Gateway.connections i !! fd) as [c|]; [|apply quiet_abort].
  eapply (quiet_bind (fun _ => True)).
  - apply (quiet_iter (fun _ => True)); [done|]. intros b _. unfold Output.flush_body. by repeat quiet_step.
  - intros [r b] _. apply quiet_ret. destruct (bool_decide _); by rewrite !handles_alter.
Qed.

Lemma quiet_flush_outputs i : keeps (handles i) (Gateway.flush_outputs_once i).
Proof.
  unfold Gateway.flush_outputs_once. repeat quiet_step.
  apply (quiet_for_each (fun j => handles j = handles i)); [done|]. intros fd j <-.
  destruct (Gateway.connections j !! fd); [|apply quiet_abort]. destruct (Output.empty _); [by apply quiet_ret|].
  apply quiet_flush_output.
Qed.

(** ** The functions that open and close *)

(** A quiet function in a state in which the handles are exact. *)
Lemma WPd_keeps p i g : keeps (handles i) p -> owns F i g -> WPd p g (owns F).
Proof. intros Hp Ho. eapply WP_mono; [apply Hp|]. intros i' g' [? ?]. by eapply owns_same. Qed.

Lemma WPd_close fd g :
  0 <= fd -> WPd (Gateway.close_descriptor fd) g (fun fd' g' => fd' = -1 /\ D g' = D g ∖ {[fd]}).
Proof.
  intros H0. unfold Gateway.close_descriptor. rewrite (proj2 (Z.leb_le _ _) H0). open_event. apply WP_op.
  intros r s _. split; [done|]. intros [] g' s' [_ ->]. split; [done|]. apply WP_ret. split; [done|].
  simpl. by rewrite dom_delete_L.
Qed.

(** The listener is closed, if it is open. *)
Lemma WPd_close_listener i g :
  owns F i g ->
  WPd (Gateway.close_descriptor (Gateway.listener_descriptor i)) g (fun fd g' =>
    fd < 0 /\ owns F (Gateway.set_listener fd i) g').
Proof.
  intros Ho. destruct (Z.leb_spec 0 (Gateway.listener_descriptor i)) as [Hl|Hl].
  - destruct Ho as [H1 H5 H6]. unfold listening in H1. rewrite (proj2 (Z.leb_le _ _) Hl) in H1.
    eapply WP_mono; [by apply WPd_close|]. intros fd g' [-> Hg]. split; [lia|].
    split; [|done..]. rewrite Hg. by apply parts_close_listener.
  - unfold Gateway.close_descriptor. rewrite (proj2 (Z.leb_gt _ _) Hl). apply WP_ret. split; [done|].
    by apply (owns_same _ i _ g).
Qed.

Lemma WPd_begin_shutdown i g : owns F i g -> WPd (Gateway.begin_shutdown_if_requested i) g (owns F).
Proof.
  intros Ho. unfold Gateway.begin_shutdown_if_requested. open_event. apply WPd_event; [done|].
  intros stop g1 E1. apply (owns_same _ _ i _ g1) in Ho; [|done..]. destruct (_ || _); [by apply WP_ret|]. cbv zeta.
  apply WP_bind. eapply WP_mono; [apply (WPd_close_listener (Gateway.set_shutdown_started i)); by eapply owns_same|].
  intros fd g2 [_ H2]. apply WPd_event; [done|]. intros _ g3 E3. apply WP_ret. by eapply owns_same.
Qed.

(** A descriptor that belongs to no member yet is one more foreign one. *)
Lemma owns_adopt fd c i g :
  owns (F ∪ {[fd]}) i g -> 0 <= fd -> Gateway.descriptor c = fd -> fd ∉ F ->
  owns F (Gateway.set_connections (<[fd := c]> (Gateway.connections i)) i) g.
Proof.
  intros [H1 H5 H6] H0 Hc HF. split; simpl; [|done|by apply map_Forall_insert_2].
  rewrite dom_insert_L. by apply parts_adopt.
Qed.

Lemma owns_forget fd i g g' :
  owns (F ∪ {[fd]}) i g -> fd ∉ F -> D g' = D g ∖ {[fd]} -> owns F i g'.
Proof. intros [H1 H5 H6] HF Hg. split; [|done..]. rewrite Hg. by apply parts_forget. Qed.

End gateway.

Section loop.
  Variable F : gset Z.
  Implicit Types (g : GatewayState) (i : Gateway.Impl) (s : SharedState).

Abbreviation WPd := (WP gateway_step (descriptors_ok F) (fun (_ : GatewayState) (_ : unit) (_ : SharedState) => True)).
Abbreviation owns := (owns F).
Ltac open_event := unfold share, call; cbn [bind].

(** [quiet] does not depend on what is foreign. *)
Lemma WPd_quiet {A} (V : A -> Prop) p g F' i :
  quiet F V p -> GatewayDescriptors.owns F' i g ->
  WPd p g (fun a g' => V a /\ GatewayDescriptors.owns F' i g' /\ D g' = D g).
Proof. intros Hp Ho. eapply WP_mono; [apply Hp|]. intros a g' [? ?]. split_and!; [done|by eapply owns_same|done]. Qed.

Lemma WPd_accept i g : owns i g -> WPd (Gateway.accept_connections i) g owns.
Proof.
  intros Ho. apply (WP_iter _ _ _ owns); [done|]. clear i g Ho. intros i g Ho. open_event. apply WP_op.
  intros r s _. split; [done|]. intros x g' s' [_ Hx]. split; [done|]. destruct x as [fd|e]; simpl in Hx.
  2:{ apply failed_call_dom in Hx. repeat case_match; apply WP_ret; by eapply owns_same. }
  destruct Hx as (H0 & Hn & ->).
  assert (fd ∉ F /\ GatewayDescriptors.owns (F ∪ {[fd]}) i (set_fds (<[fd:=ConnectionFd [] []]> (g_fds g)) g)) as [HF Ho'].
  { apply not_elem_of_dom in Hn. destruct Ho as [H1 H5 H6]. destruct (parts_open _ _ _ _ _ _ H1 Hn) as [HF H1'].
    split; [done|]. split; [|done..]. simpl. by rewrite dom_insert_L. }
  apply WP_bind. eapply WP_mono; [eapply WPd_quiet; [apply quiet_must_reject|exact Ho']|].
  intros reject g1 (_ & H1 & _). destruct reject.
  { apply WP_bind. eapply WP_mono; [by apply WPd_close|]. intros _ g2 [_ E2]. apply WP_ret. by eapply owns_forget. }
  cbv zeta. unfold Gateway.emplace_connection. cbn [Gateway.set_next_connection_id Gateway.connections].
  destruct (Gateway.connections i !! fd) as [c|] eqn:Ec.
  { apply elem_of_dom_2 in Ec. destruct H1 as [(_ & H2 & _) _ _]. set_solver. }
  open_event. apply WPd_event; [done|]. intros _ g2 E2. apply WP_ret.
  apply (owns_adopt F fd _ (Gateway.set_next_connection_id _ i)); try done. by eapply owns_same.
Qed.

Lemma WPd_erase fd i g :
  owns i g -> WPd (Gateway.erase_connection fd i) g (fun i' g' =>
    owns i' g' /\ i' = Gateway.set_connections (delete fd (Gateway.connections i)) i).
Proof.
  intros [H1 H5 H6]. unfold Gateway.erase_connection.
  destruct (Gateway.connections i !! fd) as [c|] eqn:Ec; [|apply WPd_event; [done|intros []]].
  destruct (H6 _ _ Ec) as [-> H0]. apply WP_bind. eapply WP_mono; [by apply WPd_close|].
  intros _ g' [_ Hg]. apply WP_ret. split; [|done]. apply elem_of_dom_2 in Ec.
  split; simpl; [|done|].
  - rewrite Hg, dom_delete_L. by apply parts_erase.
  - intros fd' c' [_ Hc']%lookup_delete_Some. by apply H6.
Qed.

Lemma WPd_close_if_finished fd i g : owns i g -> WPd (Gateway.close_if_finished fd i) g owns.
Proof.
  intros Ho. unfold Gateway.close_if_finished. destruct (Gateway.connections i !! fd); [|by apply WP_ret].
  destruct (_ && _); [|by apply WP_ret]. eapply WP_mono; [by apply WPd_erase|]. by intros i' g' [? _].
Qed.

(** A part of a function that keeps the handles exact, and then the rest. *)
Lemma WPd_next {A} p (k : Gateway.Impl -> prog Gateway.GatewayE A) g Q :
  WPd p g owns -> (forall i g', owns i g' -> WPd (k i) g' Q) -> WPd (bind p k) g Q.
Proof. intros Hp Hk. apply WP_bind. eapply WP_mono; [exact Hp|]. auto. Qed.

Lemma WPd_then {A B} p (k : A -> prog Gateway.GatewayE B) i g Q :
  quiet F (fun _ => True) p -> owns i g -> (forall a g', owns i g' -> WPd (k a) g' Q) -> WPd (bind p k) g Q.
Proof.
  intros Hp Ho Hk. apply WP_bind. eapply WP_mono; [by eapply WPd_quiet|]. intros a g' (_ & ? & _). auto.
Qed.

Lemma WPd_when (b : bool) p i g : owns i g -> WPd p g owns -> WPd (if b then p else Ret i) g owns.
Proof. intros Ho Hp. destruct b; [done|by apply WP_ret]. Qed.

Lemma WPd_serve_client i client g : owns i g -> WPd (Gateway.serve_client i client) g owns.
Proof.
  intros Ho. destruct client as [fd events]. unfold Gateway.serve_client.
  destruct (Gateway.connections i !! fd); [|by apply WP_ret]. apply WPd_next.
  { apply WPd_when; [done|]. eapply WPd_keeps; [apply quiet_receive|done]. }
  intros i1 g1 Ho1. apply WPd_next.
  { destruct (Gateway.connections i1 !! fd); [|by apply WP_ret]. apply WPd_when; [done|].
    eapply WPd_keeps; [apply quiet_flush_output|done]. }
  intros i2 g2 Ho2. cbv zeta. apply WPd_close_if_finished.
  destruct (Gateway.connections i2 !! fd); [|done]. destruct (has_event _ _); [|done].
  eapply owns_same; [exact Ho2|by apply handles_alter|done].
Qed.

Lemma WPd_handle_events fds revents i g : owns i g -> WPd (Gateway.handle_events fds revents i) g owns.
Proof.
  intros Ho. unfold Gateway.handle_events. cbv zeta.
  destruct (revents !! _) as [we|]; [|apply WPd_event; [done|intros []]].
  destruct (revents !! 0%nat) as [le|]; [|apply WPd_event; [done|intros []]].
  apply WPd_next.
  { apply WPd_when; [done|]. eapply WPd_then; [apply quiet_drain_wakeup|exact Ho|]. intros _ g1 Ho1.
    apply WPd_next; [by apply WPd_begin_shutdown|]. intros i2 g2 Ho2.
    apply WPd_next; [eapply WPd_keeps; [apply quiet_drain_completions|done]|]. intros i3 g3 Ho3.
    eapply WPd_keeps; [apply quiet_drain_pending|done]. }
  intros i1 g1 Ho1. apply WPd_next.
  { apply WPd_when; [done|]. apply WPd_next; [by apply WPd_when, WPd_accept|]. intros i2 g2 Ho2.
    apply WPd_when; [done|]. eapply WPd_then; [apply quiet_request_stop|exact Ho2|]. intros. by apply WP_ret. }
  intros i2 g2 Ho2. apply (WP_for_each _ _ _ (fun _ => owns)); [done| |done].
  intros x xs j g' Hj. by apply WPd_serve_client.
Qed.

Lemma WPd_run_body i g :
  owns i g -> WPd (Gateway.run_body i) g (fun t g' => match t with inl i' => owns i' g' | inr i' => owns i' g' end).
Proof.
  intros Ho. apply WPd_next; [by apply WPd_begin_shutdown|]. clear i g Ho. intros i g Ho.
  apply WPd_next; [eapply WPd_keeps; [apply quiet_drain_completions|done]|]. clear i g Ho. intros i g Ho.
  apply WPd_next; [eapply WPd_keeps; [apply quiet_drain_pending|done]|]. clear i g Ho. intros i g Ho.
  eapply WPd_then; [apply quiet_shutdown_complete|exact Ho|]. clear g Ho. intros complete g Ho. destruct complete.
  { apply WPd_next; [eapply WPd_keeps; [apply quiet_flush_outputs|done]|]. intros. by apply WP_ret. }
  eapply WPd_then; [apply quiet_iteration_order|exact Ho|]. clear g Ho. intros fds g Ho.
  cbv zeta. open_event. apply WP_op. intros r s _. split; [done|].
  intros [] g1 s1 [_ ->]. split; [done|]. assert (owns i (set_snapshot i g)) as Ho1 by (by eapply owns_same).
  apply WP_op. intros r2 s2 _. split; [by exists i|]. intros x g2 s3 [_ Hx]. split; [done|].
  destruct x as [revents|e].
  - destruct Hx as [-> _]. apply WPd_next; [by apply WPd_handle_events|]. intros. by apply WP_ret.
  - apply failed_call_dom in Hx. assert (owns i g2) as Ho2 by (by eapply owns_same).
    destruct (e =? EINTR); [by apply WP_ret|].
    eapply WPd_then; [apply quiet_request_stop|exact Ho2|]. intros. by apply WP_ret.
Qed.

Lemma WPd_close_all i g :
  owns i g -> WPd (Gateway.close_all_connections i) g (fun i' g' =>
    owns i' g' /\ Gateway.connections i' = empty /\ Gateway.listener_descriptor i' = Gateway.listener_descriptor i).
Proof.
  intros Ho. unfold Gateway.close_all_connections, Gateway.iteration_order. open_event. apply WP_op.
  intros r s _. split; [done|]. intros order g' s' (Hp & _ & ->). split; [done|].
  apply (WP_for_each _ _ _ (fun rest j g' => owns j g' /\ (forall fd c, Gateway.connections j !! fd = Some c -> fd ∈ rest) /\
    Gateway.listener_descriptor j = Gateway.listener_descriptor i)).
  - split_and!; [done| |done]. intros fd c Hc. rewrite Hp. apply list_elem_of_fmap. exists (fd, c).
    split; [done|]. by apply elem_of_map_to_list.
  - intros fd rest j g1 (Hj & Hin & El). eapply WP_mono; [by apply WPd_erase|]. intros j' g2 [Hj' ->].
    split_and!; [done| |done]. simpl. intros fd' c [Hne Hc]%lookup_delete_Some.
    apply Hin, elem_of_cons in Hc as [->|?]; done.
  - intros j g1 (Hj & Hin & El). split_and!; [done| |done]. apply map_empty. intros fd.
    destruct (Gateway.connections j !! fd) eqn:E; [|done]. by apply Hin, not_elem_of_nil in E.
Qed.

(** [run]: in the end only the eventfd is left. *)
Lemma WPd_run i g :
  owns i g -> WPd (Gateway.run i) g (fun i' g' =>
    owns i' g' /\ Gateway.connections i' = empty /\ Gateway.listener_descriptor i' < 0).
Proof.
  intros Ho. unfold Gateway.run. apply WP_bind. eapply WP_mono.
  { apply (WP_iter _ _ _ owns _ _ _ owns); [done|]. intros j g' Hj. by apply WPd_run_body. }
  clear i g Ho. intros i g Ho. apply WP_bind. eapply WP_mono; [by apply WPd_close_listener|].
  intros fd g' [Hfd Ho']. eapply WP_mono; [by apply WPd_close_all|]. intros j g2 (? & ? & ->). done.
Qed.

(** [~Impl] closes all that is left. *)
Lemma WPd_destroy i g : owns i g -> WPd (Gateway.destroy i) g (fun _ g' => D g' = F).
Proof.
  intros Ho. unfold Gateway.destroy. apply WP_bind. eapply WP_mono; [by apply WPd_close_all|].
  intros j gj (Hj & Ec & _). apply WP_bind. eapply WP_mono; [by apply WPd_close_listener|].
  intros fd g' [Hfd [(Hd & Hf & _) Hw _]]. apply WP_bind. eapply WP_mono; [by apply WPd_close|].
  intros _ g2 [_ Hg]. apply WP_ret. rewrite Hg, Hd. unfold listening in *. simpl in *.
  rewrite (proj2 (Z.leb_gt _ _) Hfd), Ec, dom_empty_L in *. clear -Hf. set_solver.
Qed.

End loop.

(** ** Destroying the gateway ends *)

Abbreviation returns := (halts gateway_step (fun _ => True)).

Lemma halts_close fd g : returns (fun _ _ => True) (Gateway.close_descriptor fd) g.
Proof.
  unfold Gateway.close_descriptor, call. destruct (0 <=? fd); [|by apply halts_ret].
  cbn [bind]. apply halts_op. intros. by apply halts_ret.
Qed.

Lemma halts_close_then {A} fd (k : Fd -> prog Gateway.GatewayE A) g :
  (forall fd g, returns (fun _ _ => True) (k fd) g) ->
  returns (fun _ _ => True) (bind (Gateway.close_descriptor fd) k) g.
Proof. intros Hk. apply halts_bind. eapply halts_mono; [apply halts_close|]. auto. Qed.

Lemma halts_destroy i g : returns (fun _ _ => True) (Gateway.destroy i) g.
Proof.
  unfold Gateway.destroy, Gateway.close_all_connections, Gateway.iteration_order, call. cbn [bind].
  apply halts_op. intros s order g' s' _ _. apply halts_bind. eapply halts_mono.
  { apply halts_for_each. intros fd j g1. unfold Gateway.erase_connection.
    destruct (Gateway.connections j !! fd); [|apply halts_op; intros ? []].
    apply halts_close_then. intros. by apply halts_ret. }
  intros j g1 _. do 2 (apply halts_close_then; intros). by apply halts_ret.
Qed.

(** ** A server from its creation to its end *)

Section server.
  Context {W : Type} `{!Posix W}.

Lemma create_owns faults config p mode (proc : Proc W) g :
  WPc (Exchange.create faults config p mode proc) g (fun r g' =>
    match r with
    | Returned _ (inl impl) => exists gateway,
        Exchange.gateway impl = Some gateway /\ Exchange.worker_started impl = false /\ owns (D g) gateway g'
    | _ => True
    end).
Proof.
  unfold Exchange.create. destruct (Exchange.invalid_configuration config); [by apply WP_ret|].
  destruct (Exchange.start_engine _ _ _ _) as [proc' [e|]| |]; try by apply WP_ret. cbv zeta.
  apply WP_bind. eapply WP_mono; [apply WPc_gateway_create|]. intros [i|error] g' Hr; [|by apply WP_ret].
  destruct Hr as (_ & l & w & port & -> & Hl & Hw & Hne & Hl0 & Hw0 & Hg). apply WP_ret. eexists. split_and!; [done..|].
  apply not_elem_of_dom in Hl, Hw. split; [|done|by apply map_Forall_empty].
  unfold listening. simpl. rewrite (proj2 (Z.leb_le _ _) Hl0), Hg, !dom_insert_L, dom_empty_L.
  split_and!; set_solver.
Qed.

Lemma server_steps_descriptors F (v v' : @Server W) :
  rtc server_step v v' ->
  let Q i g := owns F i g /\ Gateway.connections i = empty /\ Gateway.listener_descriptor i < 0 in
  WP gateway_step (descriptors_ok F) (fun _ (_ : unit) _ => True) (gateway_thread v) (gs v) Q ->
  WP gateway_step (descriptors_ok F) (fun _ (_ : unit) _ => True) (gateway_thread v') (gs v') Q.
Proof.
  intros H Q. induction H as [v|v1 v2 v3 Hst _ IH]; [done|]. intros HW. apply IH.
  destruct Hst as [q q' wp cp g g' w c s s' Hst| |]; [|done..]. simpl in *.
  by destruct (WP_thread_step _ _ _ _ _ _ _ tt _ _ _ HW I Hst).
Qed.

(** C29: the gateway leaks no descriptor.  Of a server that [create] has returned
    and that runs, whatever the clients do and the system calls answer: whenever the
    gateway waits in [poll], the open descriptors are those that were open before
    the server was created, the listener unless the shutdown has begun, the eventfd
    and exactly one per connection, without overlap.  When [run] has returned, only
    the eventfd is left, and destroying the gateway ends with exactly those open
    that were open before [create]. *)
Theorem sockets_never_leak faults config p mode (proc proc' : Proc W) fds signals s impl g' throws signals' v0 v :
  runs_to (Exchange.create faults config p mode proc) (new_gateway_state fds signals) s (Returned proc' (inl impl)) g' ->
  snd (Pipeline.run impl (g_fds g') proc' throws signals') = Some v0 ->
  rtc server_step v0 v ->
  (forall ds k, gateway_thread v = Op (Gateway.Poll ds) k ->
     exists i, g_snapshot (gs v) = Some i /\ owns (dom fds) i (gs v)) /\
  (forall i, gateway_thread v = Ret i ->
     D (gs v) = dom fds ∪ {[Gateway.wakeup_descriptor i]} /\
     returns (fun _ g => D g = dom fds) (Gateway.destroy i) (gs v)).
Proof.
  intros Hc Hrun Hst. destruct (runs_to_WP _ _ _ _ _ _ Hc (create_owns _ _ _ _ _ _)) as (gw & Eg & Es & Ho).
  unfold run in Hrun. rewrite Eg, Es in Hrun. injection Hrun as <-. simpl in Ho.
  pose proof (server_steps_descriptors (dom fds) _ _ Hst) as HW. cbv zeta in HW. specialize (HW ltac:(by apply WPd_run; eapply owns_same)).
  split.
  - intros ds k E. rewrite E in HW. by destruct (HW 1%nat tt (sh v) I).
  - intros i E. rewrite E in HW. destruct (HW 1%nat) as (Ho' & Ec & El). split.
    + destruct Ho' as [(Hd & _) _ _]. rewrite Hd. unfold listening. rewrite (proj2 (Z.leb_gt _ _) El), Ec, dom_empty_L. set_solver.
    + eapply WP_halts; [apply halts_destroy|]. by apply WPd_destroy.
Qed.

End server.

(** The demonstration server: with a client it has descriptors 10, 11 and 12, and
    at the end what was open before, nothing. *)
Lemma demo_created :
  runs_to (Exchange.create no_faults demo_config sample_path CreateNew first_world) (new_gateway_state empty 0) unshared
    (Returned first_proc (inl (demo_impl demo_config))) (new_gateway_state demo_fds 0).
Proof.
  apply (run_alone_runs_to 100 _ _ _ demo_kernel _ _ (mkKernel [[demo_requests]] empty 12)). vm_compute. reflexivity.
Qed.

Lemma sockets_never_leak_witness :
  (exists i, g_snapshot (gs (demo_at 5)) = Some i /\ owns empty i (gs (demo_at 5))) /\
  (exists i, gateway_thread (demo_at 9) = Ret i /\ returns (fun _ g => D g = empty) (Gateway.destroy i) (gs (demo_at 9))).
Proof.
  split.
  - destruct (sockets_never_leak _ _ _ _ _ _ _ _ _ _ _ no_throws 0 (demo_start demo_config no_throws) (demo_at 5)
      demo_created eq_refl (demo_steps 5)) as [H _].
    destruct (polls_spec (gateway_thread (demo_at 5))) as (ds & k & E); [vm_compute; reflexivity|].
    exact (H ds k E).
  - destruct (sockets_never_leak _ _ _ _ _ _ _ _ _ _ _ no_throws 0 (demo_start demo_config no_throws) (demo_at 9)
      demo_created eq_refl (demo_steps 9)) as [_ H].
    destruct (returned_spec (gateway_thread (demo_at 9))) as [i E]; [vm_compute; reflexivity|].
    exists i. split; [exact E|]. exact (proj2 (H i E)).
Defined.
