(* ===== verification/TestAccess.v ===== *)
(** * Hooks and observers of the tests

    The four [*_test_access.hpp] headers of src/ and their definitions at the
    end of the components: hooks that run at fixed points of the worker, the
    gateway and the engine, and observers of the statistics.  They are compiled
    into the library.  A hook is what a test supplies; all that the library
    sees of it is whether it throws, so a hook is that.  Every setter holds a
    mutex from its first to its last access, so it is one step.

    The components see the hooks as parameters: [before_batch_apply_hook] of the
    engine's faults and the answers to [Exchange.Throws].  Here the two meet: the
    flags that let the worker skip the mutex are exact. *)
From S2P Require Import Prelude Types Bytes OrderBook OrderBookInv Journal Posix JournalStorage JournalFile MemoryFs.
From S2P Require Import JournalStorageProps DurableEngine DurableEngineProps Wire WireCodec WireParser Threads.
From S2P Require Import BoundedQueue GatewayTypes Connection Gateway Exchange Pipeline PipelineInv WorkerLoop.
From S2P Require Import GatewayInv GatewayLoop ExchangeInv ExchangeStart Scenario ExchangeProps.
Import Limiter.

Module TestAccess.

(** ** Hooks *)

(** A [std::function<void()>], empty or not: does a call of it throw?  And one
    that is called with an index. *)
Abbreviation Hook := (option bool).
Abbreviation IndexedHook := (option (nat -> bool)).

(** The variables at namespace scope, but the mutexes. *)
Record HookState := mkHookState {
  before_execute_hook : Hook;
  before_batch_drain_hook : Hook;
  batch_drain_hook_active : bool;
  before_batch_apply_hook : IndexedHook;
  batch_apply_hook_active : bool;
  before_response_drain_hook : Hook;
}.

Definition initial_hooks : HookState := mkHookState None None false None false None.

(** [static_cast<bool>(hook)]. *)
Definition is_set {A} (hook : option A) : bool := match hook with Some _ => true | None => false end.

Definition set_before_execute_hook (hook : Hook) (h : HookState) : HookState :=
  mkHookState hook (before_batch_drain_hook h) (batch_drain_hook_active h) (before_batch_apply_hook h)
    (batch_apply_hook_active h) (before_response_drain_hook h).

Definition clear_before_execute_hook (h : HookState) : HookState :=
  mkHookState None (before_batch_drain_hook h) (batch_drain_hook_active h) (before_batch_apply_hook h)
    (batch_apply_hook_active h) (before_response_drain_hook h).

Definition set_before_batch_drain_hook (hook : Hook) (h : HookState) : HookState :=
  mkHookState (before_execute_hook h) hook (is_set hook) (before_batch_apply_hook h)
    (batch_apply_hook_active h) (before_response_drain_hook h).

Definition clear_before_batch_drain_hook (h : HookState) : HookState :=
  mkHookState (before_execute_hook h) None false (before_batch_apply_hook h)
    (batch_apply_hook_active h) (before_response_drain_hook h).

Definition set_before_batch_apply_hook (hook : IndexedHook) (h : HookState) : HookState :=
  mkHookState (before_execute_hook h) (before_batch_drain_hook h) (batch_drain_hook_active h) hook
    (is_set hook) (before_response_drain_hook h).

Definition clear_before_batch_apply_hook (h : HookState) : HookState :=
  mkHookState (before_execute_hook h) (before_batch_drain_hook h) (batch_drain_hook_active h) None
    false (before_response_drain_hook h).

Definition set_before_response_drain_hook (hook : Hook) (h : HookState) : HookState :=
  mkHookState (before_execute_hook h) (before_batch_drain_hook h) (batch_drain_hook_active h)
    (before_batch_apply_hook h) (batch_apply_hook_active h) hook.

Definition clear_before_response_drain_hook (h : HookState) : HookState :=
  mkHookState (before_execute_hook h) (before_batch_drain_hook h) (batch_drain_hook_active h)
    (before_batch_apply_hook h) (batch_apply_hook_active h) None.

(** Running a hook: does it throw? *)
Definition run_before_execute_hook (h : HookState) : bool :=
  match before_execute_hook h with None => false | Some hook => hook end.

Definition run_before_batch_drain_hook (h : HookState) : bool :=
  if negb (batch_drain_hook_active h) then false else
  match before_batch_drain_hook h with None => false | Some hook => hook end.

Definition run_before_batch_apply_hook (h : HookState) (index : nat) : bool :=
  if negb (batch_apply_hook_active h) then false else
  match before_batch_apply_hook h with None => false | Some hook => hook index end.

Definition run_before_response_drain_hook (h : HookState) : bool :=
  match before_response_drain_hook h with None => false | Some hook => hook end.

(** The calls of a test. *)
Inductive hook_step : HookState -> HookState -> Prop :=
| step_set_execute hook h : hook_step h (set_before_execute_hook hook h)
| step_clear_execute h : hook_step h (clear_before_execute_hook h)
| step_set_drain hook h : hook_step h (set_before_batch_drain_hook hook h)
| step_clear_drain h : hook_step h (clear_before_batch_drain_hook h)
| step_set_apply hook h : hook_step h (set_before_batch_apply_hook hook h)
| step_clear_apply h : hook_step h (clear_before_batch_apply_hook h)
| step_set_response hook h : hook_step h (set_before_response_drain_hook hook h)
| step_clear_response h : hook_step h (clear_before_response_drain_hook h).

(** A flag is set exactly when its hook is. *)
Definition flags_exact (h : HookState) : Prop :=
  batch_drain_hook_active h = is_set (before_batch_drain_hook h) /\
  batch_apply_hook_active h = is_set (before_batch_apply_hook h).

Lemma hook_step_exact h h' : hook_step h h' -> flags_exact h -> flags_exact h'.
Proof. intros [] [? ?]; by split. Qed.

Lemma hook_steps_exact h : rtc hook_step initial_hooks h -> flags_exact h.
Proof.
  intros H. assert (flags_exact initial_hooks) as H0 by done. revert H0.
  induction H; eauto using hook_step_exact.
Qed.

(** The faults of the engine under the hooks of the moment. *)
Definition with_hooks (h : HookState) (faults : EngineFaults) : EngineFaults :=
  mkEngineFaults (prepare_fault faults) (engine_alloc_fault faults) (before_batch_apply_hook h) (book_fault faults).

(** What the worker sees of the hooks. *)
Definition hook_throws (h : HookState) (site : ThrowSite) : bool :=
  match site with
  | BatchDrainHook => run_before_batch_drain_hook h
  | BeforeExecuteHook => run_before_execute_hook h
  | BatchReserve | CommandsReserve => false
  end.

(** The same without the flags. *)
Definition hook_throws_locked (h : HookState) (site : ThrowSite) : bool :=
  match site with
  | BatchDrainHook => default false (before_batch_drain_hook h)
  | BeforeExecuteHook => default false (before_execute_hook h)
  | BatchReserve | CommandsReserve => false
  end.

(** The flags are only an optimisation.  After any sequence of
    calls of the setters, running a hook behind its flag does the same as taking
    the mutex and running the hook that is set; so the engine and the worker behave
    as with the hook as a parameter. *)
Theorem hook_flags_exact h :
  rtc hook_step initial_hooks h ->
  (forall site, hook_throws h site = hook_throws_locked h site) /\
  (forall faults index,
     run_before_batch_apply_hook h index = Durable.run_before_batch_apply_hook (with_hooks h faults) index).
Proof.
  intros [H1 H2]%hook_steps_exact. split.
  - intros []; simpl; try done.
    unfold run_before_batch_drain_hook. rewrite H1. by destruct (before_batch_drain_hook h).
  - intros faults index. unfold run_before_batch_apply_hook, Durable.run_before_batch_apply_hook. rewrite H2. simpl.
    by destruct (before_batch_apply_hook h).
Qed.

Lemma hook_flags_exact_witness :
  run_before_batch_apply_hook
    (set_before_batch_apply_hook (Some (fun n => bool_decide (n = 1%nat))) initial_hooks) 1 = true.
Proof.
  rewrite (proj2 (hook_flags_exact _ (rtc_once _ _ (step_set_apply (Some (fun n => bool_decide (n = 1%nat))) _)))
    no_faults 1%nat). reflexivity.
Defined.

(** ** The durability barrier *)

Section sync_count.
  Context {W : Type} `{!Posix W}.
  Implicit Types (s : Proc W).

(** [JournalStorageTestAccess::successful_append_sync_count]. *)
Definition sync_count (s : Proc W) : Z := successful_append_sync_count (append_io_test_state s).

(** What the counter and its switch are. *)
Definition counter s : Z * bool := (sync_count s, append_io_test_active s).

Lemma write_loop_counter fuel fd bytes append_path written s s' r :
  JournalStorage.write_loop fuel fd bytes append_path written s = Returned s' r -> counter s' = counter s.
Proof.
  revert written s. induction fuel as [|fuel IH]; intros written s; cbn [JournalStorage.write_loop].
  all: destruct (negb (bool_decide _)); [by intros [= <- _]|].
  { done. }
  set (active := append_path && _). destruct (if active then _ else _) as [n|]; [|by intros [= <- _]].
  unfold JournalStorage.call. destruct (sys_write _ _ _) as [w [k|e]].
  - destruct (bool_decide _); [by intros [= <- _]|]. intros H. apply IH in H. rewrite H. by destruct active.
  - destruct (e =? EINTR); [|by intros [= <- _]]. intros H. apply IH in H. by rewrite H.
Qed.

Lemma write_frames_counter fd frames s s' r :
  JournalStorage.write_frames fd frames s = Returned s' r -> counter s' = counter s.
Proof.
  revert s. induction frames as [|f fs IH]; intros s; cbn [JournalStorage.write_frames]; [by intros [= <- _]|].
  unfold JournalStorage.write_all. destruct (JournalStorage.write_loop _ _ _ _ _ s) as [s1 [e|]| |] eqn:E; simpl; try done.
  - intros [= <- _]. by eapply write_loop_counter.
  - intros H. apply IH in H. rewrite H. by eapply write_loop_counter.
Qed.

(** One barrier per batch.  A batch that is reported as written has been
    synced by exactly one fsync, however many records it has, and none was counted
    for a batch that failed. *)
Theorem one_sync_per_batch bad commands wr s s' wr' r :
  JournalStorage.append_batch_and_sync bad commands wr s = Returned s' (wr', r) ->
  append_io_test_active s = true ->
  sync_count s' = match r with inl _ => add64 (sync_count s) 1 | inr _ => sync_count s end.
Proof.
  intros H Ha. unfold JournalStorage.append_batch_and_sync in H.
  destruct (jw_failed wr); [by injection H as <- _ <-|].
  destruct (bool_decide (commands = [])); [by injection H as <- _ <-|].
  destruct (jw_next_sequence wr) as [first|]; [|by injection H as <- _ <-]. cbv zeta in H.
  destruct (_ <? _); [by injection H as <- _ <-|].
  destruct (JournalStorage.prepare_frames bad first 0 0 commands) as [u [[frames seqs]|e]|u|]; try done;
    try (by injection H as <- _ <-).
  destruct (JournalStorage.write_frames _ frames s) as [s1 [e|]| |] eqn:E; simpl in H; try done;
    apply write_frames_counter in E; injection E as E1 E2.
  { injection H as <- _ <-. done. }
  unfold JournalStorage.append_sync in H. rewrite E2, Ha in H. unfold JournalStorage.append_path_sync, JournalStorage.call in H.
  destruct (fail_next_sync (append_io_test_state s1)); [by injection H as <- _ <-|].
  destruct (sys_fsync _ _) as [w [e|]]; injection H as <- _ <-; [done|].
  unfold sync_count. simpl. f_equal. done.
Qed.

End sync_count.

(** ** Observers *)

Record ExchangeServerRuntimeStats := mkRuntimeStats {
  rs_in_flight : nat;
  rs_maximum_observed_in_flight : nat;
  rs_request_queue_size : nat;
  rs_request_queue_capacity : nat;
  rs_response_queue_size : nat;
  rs_response_queue_capacity : nat;
}.

(** Of a server that was moved from, everything is zero. *)
Definition stats (server : option SharedState) : ExchangeServerRuntimeStats :=
  match server with
  | None => mkRuntimeStats 0 0 0 0 0 0
  | Some s =>
      mkRuntimeStats (in_flight (limiter s)) (maximum_observed (limiter s)) (BQ.size (requests s))
        (BQ.capacity (requests s)) (BQ.size (responses s)) (BQ.capacity (responses s))
  end.

Definition batch_stats {W} (server : option (@WorkerState W)) : BatchStats :=
  match server with
  | None => mkBatchStats 0 0 []
  | Some w => w_stats w
  end.

(** The number of batches in a histogram, and the number of commands in them. *)
Definition total (histogram : list Z) : Z := foldr Z.add 0 histogram.
Fixpoint weighted (size : Z) (histogram : list Z) : Z :=
  match histogram with
  | [] => 0
  | n :: rest => size * n + weighted (size + 1) rest
  end.

Definition stats_exact (st : BatchStats) : Prop :=
  batches_processed st = total (batch_size_histogram st) mod U64_MOD /\
  commands_processed st = weighted 0 (batch_size_histogram st) mod U64_MOD.

Lemma total_insert l n x y : l !! n = Some x -> total (<[n := y]> l) = total l + (y - x).
Proof.
  revert n. induction l as [|z l IH]; intros [|n] H; simplify_eq/=; [lia|].
  unfold total in *. rewrite (IH n) by done. lia.
Qed.

Lemma weighted_insert k l n x y :
  l !! n = Some x -> weighted k (<[n := y]> l) = weighted k l + (k + Z.of_nat n) * (y - x).
Proof.
  revert k n. induction l as [|z l IH]; intros k [|n] H; simplify_eq/=; [lia|].
  rewrite (IH (k + 1) n) by done. lia.
Qed.

(** Counting a batch keeps the statistics exact. *)
Lemma record_batch_exact n st st' :
  Exchange.record_batch n st = Returned st' tt -> stats_exact st ->
  stats_exact st' /\ length (batch_size_histogram st') = length (batch_size_histogram st).
Proof.
  unfold Exchange.record_batch. destruct (batch_size_histogram st !! n) as [x|] eqn:Ex; [|done].
  intros [= <-] [Hb Hc]. unfold stats_exact. simpl. rewrite length_insert. split; [|done].
  rewrite (total_insert _ _ x), (weighted_insert _ _ _ x), Hb, Hc by done. unfold add64.
  assert (exists q, (x + 1) mod U64_MOD = x + 1 - U64_MOD * q) as [q ->].
  { exists ((x + 1) / U64_MOD). rewrite Z.mod_eq by done. done. }
  rewrite Z.add_mod_idemp_l, Z.add_mod_idemp_l by done.
  split; [rewrite <- (Z.mod_add _ (-q)) by done|rewrite <- (Z.mod_add _ (- (Z.of_nat n * q))) by done]; f_equal; lia.
Qed.

Section stats.
  Context {W : Type} `{!Posix W}.
  Implicit Types (v : @Server W).

(** Only the worker counts, and only whole batches. *)
Lemma server_step_stats v v' :
  server_step v v' ->
  w_stats (ws v') = w_stats (ws v) \/ exists n, Exchange.record_batch n (w_stats (ws v)) = Returned (w_stats (ws v')) tt.
Proof.
  intros [| gp q q' cp g w w' c s s' Hst|]; [by left| |by left]. simpl.
  destruct Hst as [X e k w s x w' s' Hst|]; [|by left]. destruct e as [X e|site|n|commands]; simpl in Hst.
  - left. destruct Hst as (n & _ & ->). destruct e; simpl; repeat case_match; done.
  - destruct Hst as (_ & -> & _). by left.
  - destruct Hst as (_ & st & E & ->). right. by exists n.
  - left. destruct Hst as (_ & faults & Hst). repeat case_match; try done; by destruct Hst as [_ ->].
Qed.

Lemma server_steps_stats v v' :
  rtc server_step v v' -> stats_exact (w_stats (ws v)) ->
  stats_exact (w_stats (ws v')) /\
  length (batch_size_histogram (w_stats (ws v'))) = length (batch_size_histogram (w_stats (ws v))).
Proof.
  induction 1 as [v|v1 v2 v3 Hst _ IH]; intros H; [done|].
  destruct (server_step_stats _ _ Hst) as [E|[n E]]; [rewrite E in IH; by apply IH|].
  destruct (record_batch_exact _ _ _ E H) as [H2 El]. destruct (IH H2) as [? ->]. done.
Qed.

End stats.

Lemma total_zeros n : total (replicate n 0) = 0.
Proof. induction n as [|n IH]; [done|]. simpl. by rewrite IH. Qed.

Lemma weighted_zeros k n : weighted k (replicate n 0) = 0.
Proof. revert k. induction n as [|n IH]; intros k; [done|]. simpl. rewrite IH. lia. Qed.

(** C30: the statistics are exact.  Whatever a server whose batches fit the
    histogram ([histogram_fits]) has done, the histogram has one entry for each batch size up to the capacity of the request queue, the
    number of batches is the sum of its entries and the number of commands is the
    sum of the batch sizes, up to the wrap-around of the counters; and what the
    observers show of the queues and of the limiter keeps to the configuration. *)
Theorem statistics_exact {W} `{!Posix W, !PosixView W, !PosixLaws W} config p lo cs (v0 v : @Server W) :
  launched config p lo cs v0 -> histogram_fits config -> rtc server_step v0 v ->
  stats_exact (batch_stats (Some (ws v))) /\
  length (batch_size_histogram (batch_stats (Some (ws v)))) = (request_queue_capacity config + 1)%nat /\
  let shown := stats (Some (sh v)) in
  rs_request_queue_capacity shown = request_queue_capacity config /\
  rs_response_queue_capacity shown = maximum_in_flight config /\
  (rs_request_queue_size shown <= rs_request_queue_capacity shown /\
   rs_response_queue_size shown <= rs_response_queue_capacity shown /\
   rs_request_queue_size shown + rs_response_queue_size shown <= rs_in_flight shown /\
   rs_in_flight shown <= rs_maximum_observed_in_flight shown <= maximum_in_flight config)%nat.
Proof.
  intros Hl Hh Hst. destruct (launched_inv _ _ _ _ _ _ Hl Hh Hst) as (b & rs & _ & Hi).
  destruct (launched_ready _ _ _ _ _ Hl) as (b' & rs' & impl & gw & fds & proc & throws & signals & _ & _ & Hready & ->).
  assert (w_stats (ws (start impl gw fds proc throws signals))
    = mkBatchStats 0 0 (replicate (request_queue_capacity config + 1) 0)) as E
    by (simpl; rewrite (rd_impl _ _ _ _ _ _ _ _ _ Hready); simpl; by rewrite histogram_fits_size).
  assert (stats_exact (w_stats (ws (start impl gw fds proc throws signals)))) as H0.
  { rewrite E. unfold stats_exact. cbn [batch_size_histogram batches_processed commands_processed].
    by rewrite total_zeros, weighted_zeros. }
  destruct (server_steps_stats _ _ Hst H0) as [H1 H2]. rewrite E in H2. cbn [batch_size_histogram] in H2.
  rewrite length_replicate in H2. split; [done|]. split; [done|]. cbv zeta.
  pose proof (si_linked _ _ _ _ _ _ Hi) as L. pose proof (l_flight _ _ _ _ _ _ L) as Hf. unfold elsewhere in Hf.
  pose proof (l_limit _ _ _ _ _ _ L). pose proof (l_request_size _ _ _ _ _ _ L).
  pose proof (l_observed _ _ _ _ _ _ L) as Ho. unfold limiter_ok in Ho. rewrite (l_limiter _ _ _ _ _ _ L) in Ho.
  cbn. unfold BQ.capacity, BQ.size, in_flight, maximum_observed.
  rewrite (l_requests _ _ _ _ _ _ L), (l_responses _ _ _ _ _ _ L). split_and!; lia || done.
Qed.

Lemma statistics_exact_witness :
  batch_stats (Some (ws (demo_at 5))) = mkBatchStats 3 2 [0; 1; 1] /\ stats_exact (mkBatchStats 3 2 [0; 1; 1]).
Proof.
  assert (batch_stats (Some (ws (demo_at 5))) = mkBatchStats 3 2 [0; 1; 1]) as E by (vm_compute; reflexivity).
  destruct (statistics_exact demo_config sample_path [] [] (demo_start demo_config no_throws) (demo_at 5)
    demo_is_launched demo_fits (demo_steps 5)) as [H _].
  rewrite E in H. exact (conj E H).
Defined.

End TestAccess.
