(* ===== verification/Handles.v ===== *)
(** * Owning handles

    The classes that own something and can be moved: [FileDescriptor] of
    src/journal_storage.cpp, and the handles [GatewayServer] and
    [ExchangeServer], each a [unique_ptr] to its [Impl].  Moving takes from one
    object what the other then owns; [FileDescriptor] closes what it owns when it
    is destroyed or assigned to.  However such objects are created, moved,
    assigned, released and destroyed, no descriptor is closed twice, none is
    closed that somebody else owns, and none is forgotten. *)
From S2P Require Import Prelude Types Bytes OrderBook Journal Posix MemoryFs JournalStorage JournalFile JournalStorageProps.
From S2P Require Import DurableEngine DurableEngineProps JournalDescriptors Threads BoundedQueue GatewayTypes Connection.
From S2P Require Import Gateway Exchange Pipeline.

(** ** [FileDescriptor] *)

Record FileDescriptor := mkFileDescriptor { file_descriptor_ : Fd }.

Module Descriptor.

Section descriptor.
  Context {W : Type} `{!Posix W}.
  Implicit Types (this other : FileDescriptor) (s : Proc W).

Definition new (file_descriptor : Fd) : FileDescriptor := mkFileDescriptor file_descriptor.

(** The move constructor: the new object and what is left of the old one. *)
Definition move_construct other : FileDescriptor * FileDescriptor :=
  (mkFileDescriptor (file_descriptor_ other), mkFileDescriptor (-1)).

Definition close this s : FileDescriptor * Proc W :=
  if 0 <=? file_descriptor_ this
  then (mkFileDescriptor (-1), JournalStorage.set_os (sys_close (file_descriptor_ this) (os s)) s)
  else (this, s).

(** [this = std::move(other)]; [same] when they are one object. *)
Definition move_assign (same : bool) this other s : (FileDescriptor * FileDescriptor) * Proc W :=
  if same then ((this, other), s) else
  let '(_, s) := close this s in
  ((mkFileDescriptor (file_descriptor_ other), mkFileDescriptor (-1)), s).

Definition destroy this s : Proc W := (close this s).2.

Definition get this : Fd := file_descriptor_ this.

(** The descriptor, for another owner, and what is left. *)
Definition release this : Fd * FileDescriptor := (file_descriptor_ this, mkFileDescriptor (-1)).

End descriptor.
End Descriptor.

(** ** Objects that share a process *)

Section objects.
  Context {W : Type} `{!Posix W, !PosixView W, !PosixLaws W}.
  Implicit Types (s : Proc W) (w : W).

(** The objects by their names, and the descriptors that were released to other
    owners. *)
Record Objects := mkObjects {
  objects : gmap nat FileDescriptor;
  released : list Fd;
  proc : Proc W;
}.

Inductive object_step : Objects -> Objects -> Prop :=
| step_open x mode p fd w m l s :
    m !! x = None -> sys_open mode p (os s) = (w, inl fd) ->
    object_step (mkObjects m l s) (mkObjects (<[x := Descriptor.new fd]> m) l (JournalStorage.set_os w s))
| step_move x y f m l s :
    m !! x = Some f -> m !! y = None ->
    object_step (mkObjects m l s)
      (mkObjects (<[y := (Descriptor.move_construct f).1]> (<[x := (Descriptor.move_construct f).2]> m)) l s)
| step_assign x y f f' r m l s :
    m !! x = Some f -> m !! y = Some f' -> Descriptor.move_assign (bool_decide (x = y)) f f' s = r ->
    object_step (mkObjects m l s) (mkObjects (<[y := r.1.2]> (<[x := r.1.1]> m)) l r.2)
| step_release x f m l s :
    m !! x = Some f ->
    object_step (mkObjects m l s)
      (mkObjects (<[x := (Descriptor.release f).2]> m) ((Descriptor.release f).1 :: l) s)
| step_destroy x f m l s :
    m !! x = Some f ->
    object_step (mkObjects m l s) (mkObjects (delete x m) l (Descriptor.destroy f s))
(** reading, writing, syncing *)
| step_use m l s s' : same_opened (os s) (os s') -> object_step (mkObjects m l s) (mkObjects m l s').

(** What an object owns. *)
Definition owns (f : FileDescriptor) : list Fd := if 0 <=? file_descriptor_ f then [file_descriptor_ f] else [].

Definition owned_by (m : gmap nat FileDescriptor) : list Fd := mjoin (owns <$> (map_to_list m).*2).

(** All that is owned; a negative number is no descriptor. *)
Definition owned (o : Objects) : list Fd := owned_by (objects o) ++ filter (fun fd => 0 <= fd) (released o).

(** Every descriptor has one owner, and what is open is what was open at first
    and what is owned. *)
Record exact (w0 w : W) (owned : list Fd) : Prop := {
  ex_once : NoDup owned;
  ex_open fd : 0 <= fd -> opened w fd <> None <-> opened w0 fd <> None \/ fd ∈ owned;
  ex_new fd : fd ∈ owned -> 0 <= fd /\ opened w0 fd = None;
}.

Lemma exact_perm w0 w l l' : l ≡ₚ l' -> exact w0 w l -> exact w0 w l'.
Proof.
  intros Hp [H1 H2 H3]. split; [by rewrite <- Hp| |].
  - intros fd H0. rewrite <- Hp. auto.
  - intros fd. rewrite <- Hp. auto.
Qed.

Lemma exact_open w0 w w' l fd : exact w0 w l -> opens fd w w' -> exact w0 w' (fd :: l).
Proof.
  intros [H1 H2 H3] (H0 & Hn & Ho & Hx).
  assert (opened w0 fd = None /\ fd ∉ l) as [Hw Hl].
  { assert (~ (opened w0 fd <> None \/ fd ∈ l)) as Hno by (rewrite <- H2 by done; intros Hc; by apply Hc).
    split; [|by auto]. destruct (opened w0 fd) eqn:E; [|done]. exfalso. apply Hno. by left. }
  split; [by constructor| |].
  - intros fd' H0'. destruct (decide (fd' = fd)) as [->|Hne]; [set_solver|]. rewrite Hx, H2 by done. set_solver.
  - intros fd' [->|Hin]%elem_of_cons; auto.
Qed.

(** Closing what [f] owns. *)
Lemma exact_close w0 s l f :
  exact w0 (os s) (owns f ++ l) -> exact w0 (os (Descriptor.destroy f s)) l.
Proof.
  unfold Descriptor.destroy, Descriptor.close, owns. destruct (Z.leb_spec 0 (file_descriptor_ f)) as [Hf|Hf]; [|done].
  simpl. set (fd := file_descriptor_ f) in *. intros [[Hl H1]%NoDup_cons H2 H3].
  destruct (close_closes fd (os s)) as (_ & Hc & Hx). split; [done| |].
  - intros fd' H0. destruct (decide (fd' = fd)) as [->|Hne].
    + rewrite Hc. split; [done|]. intros [Hw|?]; [|done]. destruct (H3 fd ltac:(set_solver)). done.
    + rewrite Hx, H2 by done. set_solver.
  - intros fd' Hin. apply H3. set_solver.
Qed.

Lemma owned_by_insert x f m : m !! x = None -> owned_by (<[x := f]> m) ≡ₚ owns f ++ owned_by m.
Proof. intros Hx. unfold owned_by. by rewrite map_to_list_insert. Qed.

Lemma owned_by_delete x f m : m !! x = Some f -> owned_by m ≡ₚ owns f ++ owned_by (delete x m).
Proof. intros Hx. rewrite <- owned_by_insert by apply lookup_delete_eq. by rewrite insert_delete_id. Qed.

Lemma owned_by_update x f f' m :
  m !! x = Some f' -> owned_by (<[x := f]> m) ≡ₚ owns f ++ owned_by (delete x m).
Proof.
  intros Hx. rewrite (owned_by_delete x f) by apply lookup_insert_eq. by rewrite delete_insert_eq.
Qed.

Lemma object_step_exact w0 o o' :
  object_step o o' -> exact w0 (os (proc o)) (owned o) -> exact w0 (os (proc o')) (owned o').
Proof.
  intros Hst H. destruct Hst as [x mode p fd w m l s Hx E|x y f m l s Hx Hy|x y f f' r m l s Hx Hy <-|x f m l s Hx|x f m l s Hx|m l s s' Hs];
    unfold owned in *; cbn [objects released proc] in *.
  - pose proof (open_opens _ _ _ _ _ E) as Ho. pose proof (exact_open _ _ _ _ _ H Ho) as H'.
    eapply exact_perm; [|exact H']. rewrite owned_by_insert by done. unfold owns. simpl.
    rewrite (proj2 (Z.leb_le 0 fd)) by apply Ho. done.
  - eapply exact_perm; [|exact H]. assert (x <> y) by congruence.
    rewrite owned_by_insert by (by rewrite lookup_insert_ne). rewrite (owned_by_update x _ f) by done.
    rewrite (owned_by_delete x f) by done. done.
  - case_bool_decide as Exy; unfold Descriptor.move_assign.
    + subst y. simpl. assert (f' = f) as -> by congruence. by rewrite insert_insert_eq, insert_id.
    + rewrite (surjective_pairing (Descriptor.close f s)). cbn [fst snd].
      apply (exact_close w0 s _ f). eapply exact_perm; [|exact H].
      assert (delete x m !! y = Some f') as Hy' by (by rewrite lookup_delete_ne).
      rewrite (owned_by_delete x f m), (owned_by_delete y f' (delete x m)) by done.
      rewrite (owned_by_update y _ f') by (by rewrite lookup_insert_ne).
      rewrite delete_insert_ne, (owned_by_update x _ f) by (done || by rewrite lookup_delete_ne).
      rewrite (delete_delete m x y). unfold owns. simpl. by rewrite <- !app_assoc.
  - eapply exact_perm; [|exact H]. rewrite (owned_by_delete x f m), (owned_by_update x _ f) by done.
    unfold Descriptor.release, owns. simpl. rewrite filter_cons.
    destruct (Z.leb_spec 0 (file_descriptor_ f)); [rewrite decide_True by done|rewrite decide_False by lia; done].
    simpl. by rewrite Permutation_middle.
  - apply (exact_close w0 s _ f). eapply exact_perm; [|exact H]. by rewrite (owned_by_delete x f m), <- app_assoc.
  - destruct H as [H1 H2 H3]. split; [done| |done]. intros fd H0. rewrite (Hs fd). auto.
Qed.

(** Descriptors are owned exactly.  However objects are constructed, moved,
    assigned (also to themselves), released and destroyed: every open descriptor
    was open before or has exactly one owner, and every owner's descriptor is open:
    nothing is closed twice, nothing is forgotten.  In particular, when all objects
    are gone and nothing was released, what is open is what was open before. *)
Theorem descriptor_ownership s0 o :
  rtc object_step (mkObjects empty [] s0) o ->
  exact (os s0) (os (proc o)) (owned o) /\
  (objects o = empty -> released o = [] -> forall fd, 0 <= fd ->
     opened (os (proc o)) fd <> None <-> opened (os s0) fd <> None).
Proof.
  intros Hst. assert (exact (os s0) (os (proc o)) (owned o)) as H.
  { assert (exact (os s0) (os s0) (owned (mkObjects empty [] s0))) as H0.
    { split; [by apply NoDup_nil| |]; intros fd; set_solver. }
    change (os s0) with (os (proc (mkObjects empty [] s0))) in H0 at 2. revert H0.
    induction Hst; eauto using object_step_exact. }
  split; [done|]. intros Eo El fd H0. rewrite (ex_open _ _ _ H fd H0). unfold owned. rewrite Eo, El.
  split; [|by left]. intros [?|Hin]; [done|]. by apply not_elem_of_nil in Hin.
Qed.

End objects.

(** ** [GatewayServer] and [ExchangeServer]

    A handle is its [impl_], null when it was moved from.  The member functions do
    nothing on a null handle. *)

Module GatewayHandle.

Abbreviation Handle := (option Gateway.Impl).

Definition move_construct (other : Handle) : Handle * Handle := (other, None).

(** [unique_ptr]'s destructor. *)
Definition destroy (this : Handle) : prog Gateway.GatewayE unit :=
  match this with None => Ret tt | Some impl => Gateway.destroy impl end.

(** The defaulted move assignment: [unique_ptr] takes over before it destroys what
    it had. *)
Definition move_assign (this other : Handle) : prog Gateway.GatewayE (Handle * Handle) :=
  destroy this ;; Ret (move_construct other).

Definition run (this : Handle) : prog Gateway.GatewayE Handle :=
  match this with
  | None => Ret None
  | Some impl => let* impl := Gateway.run impl in Ret (Some impl)
  end.

Section any_thread.
  Context {E : Type -> Type} `{!Shares E}.

Definition request_stop (this : Handle) : prog E unit :=
  match this with None => Ret tt | Some _ => Gateway.request_stop end.
Definition notify (this : Handle) : prog E unit :=
  match this with None => Ret tt | Some _ => Gateway.wake end.
Definition enter_fail_stop (this : Handle) : prog E unit :=
  match this with None => Ret tt | Some _ => Gateway.enter_fail_stop end.

End any_thread.
End GatewayHandle.

Module ExchangeHandle.

Abbreviation Handle := (option Exchange.Impl).

Definition move_construct (other : Handle) : Handle * Handle := (other, None).

Section exchange.
  Context {W : Type} `{!Posix W}.

(** [run] on the threads of the server, if it starts them. *)
Definition run (this : Handle) (fds : gmap Z Descriptor) (proc : Proc W) (throws : ThrowSite -> bool)
    (signals : nat) : Handle * option (@Server W) :=
  match this with
  | None => (None, None)
  | Some impl => let '(impl, server) := Pipeline.run impl fds proc throws signals in (Some impl, server)
  end.

End exchange.

Definition request_stop (this : Handle) : prog SharedE unit :=
  match this with None => Ret tt | Some impl => Exchange.request_stop impl end.

End ExchangeHandle.
