(* ===== verification/Restart.v ===== *)
(** * The exchange across restarts

    A server runs, is killed or stopped or loses power, and is started again on
    the journal that is left, with the same configuration or another one.  What
    a server has answered with a result is part of the history of every server
    that comes later. *)
From S2P Require Import Prelude Types Bytes OrderBook OrderBookInv Journal Posix MemoryFs JournalStorage JournalFile.
From S2P Require Import JournalStorageProps DurableEngine DurableEngineProps Wire WireCodec WireParser Threads.
From S2P Require Import BoundedQueue GatewayTypes Connection Gateway Exchange Pipeline PipelineInv WorkerLoop.
From S2P Require Import GatewayInv GatewayLoop ExchangeInv ExchangeStart Scenario ExchangeProps.
Import Limiter.

Section restart.
  Context {W : Type} `{!Posix W, !PosixView W, !PosixLaws W}.
  Implicit Types (v : @Server W) (s : Proc W).

(** A machine runs a server, or none. *)
Inductive Machine := Up (config : ExchangeServerConfig) (v : @Server W) | Off (s : Proc W).

Definition files_of (m : Machine) : W :=
  match m with Up _ v => os (w_proc (ws v)) | Off s => os s end.

Inductive life (p : path) : Machine -> Machine -> Prop :=
| life_runs config v v' : server_step v v' -> life p (Up config v) (Up config v')
(** [run] has returned and the server is destroyed, or the process is killed:
    the files stay as they are *)
| life_ends config v s : same_files (os (w_proc (ws v))) (os s) -> life p (Up config v) (Off s)
| life_power_loss m s :
    after_crash (files_of m) p (contents (os s) p) ->
    (forall x, after_crash (os s) p x -> x = contents (os s) p) -> life p m (Off s)
| life_restarts config faults s fds signals shared impl s' g throws signals' v :
    histogram_fits config ->
    runs_to (Exchange.create faults config p Recover s) (new_gateway_state fds signals) shared
      (Returned s' (inl impl)) g ->
    snd (run impl (g_fds g) s' throws signals') = Some v -> life p (Off s) (Up config v)
| life_restart_fails config faults s fds signals shared error s' g :
    runs_to (Exchange.create faults config p Recover s) (new_gateway_state fds signals) shared
      (Returned s' (inr error)) g -> life p (Off s) (Off s').

Abbreviation engine_of v := (Running (w_proc (ws v)) (w_engine (ws v))).

(** Nothing of [lo] is lost. *)
Definition keeps (p : path) (lo : list JournalCommand) (m : Machine) : Prop :=
  match m with
  | Up config v => sys_inv p lo (engine_of v) /\ exists lo1 cs1 b, server_inv config p lo1 cs1 b v
  | Off s => sys_inv p lo (Down s)
  end.

Lemma at_rest_weaken p lo lo' cs (w : W) : lo' `prefix_of` lo -> at_rest p lo cs w -> at_rest p lo' cs w.
Proof.
  intros Hp [Hf Hlo Hs]. split; [done|by etrans|]. eapply survives_weaken; [exact Hp|reflexivity|done].
Qed.

Lemma sys_inv_weaken p lo lo' c : lo' `prefix_of` lo -> sys_inv p lo c -> sys_inv p lo' c.
Proof.
  intros Hp. destruct c as [s e|s]; [intros [[cs He]|[Hf [cs Hr]]]|intros [cs Hr]].
  - left. exists cs. destruct He as [H1 H2 H3 H4 H5 H6]. split; try done; [by etrans|].
    eapply survives_weaken; [exact Hp|reflexivity|done].
  - right. split; [done|]. exists cs. by eapply at_rest_weaken.
  - exists cs. by eapply at_rest_weaken.
Qed.

Lemma keeps_at_rest p lo m : keeps p lo m -> exists cs, at_rest p lo cs (files_of m).
Proof. destruct m as [config v|s]; [intros [H _]|intros H]; apply (sys_inv_at_rest _ _ _ H). Qed.

(** A step of a server is none of its engine, or a batch. *)
Lemma server_step_engine config p lo1 cs1 b v v' :
  server_inv config p lo1 cs1 b v -> server_step v v' ->
  engine_of v' = engine_of v \/ sys_step p (engine_of v) (engine_of v').
Proof.
  intros Hi Hst. destruct (server_inv_ok _ _ _ _ _ _ Hi) as (_ & Hok & _).
  destruct Hst as [| gp q q' cp g w w' c s s' Hst|]; [by left| |by left]. simpl in *.
  destruct Hst as [X e k w s x w' s' Hst|]; [|by left]. simpl in Hok. destruct e as [X e|site|n|commands]; simpl in Hst.
  - left. destruct Hst as (n & _ & ->). destruct e; simpl; repeat case_match; done.
  - destruct Hst as (_ & -> & _). by left.
  - destruct Hst as (_ & st & _ & ->). by left.
  - right. destruct Hst as (_ & faults & Hst). destruct Hok as [Hwf Hok]. specialize (Hok faults).
    destruct (Durable.execute_batch faults commands (w_engine w) (w_proc w)) as [s1 [e r]|s1|] eqn:E; [|done..].
    destruct Hst as [_ ->]. by eapply step_batch.
Qed.

Lemma keeps_life p lo m m' : life p m m' -> keeps p lo m -> keeps p lo m'.
Proof.
  intros Hst Hk. pose proof (keeps_at_rest _ _ _ Hk) as (cs & Hr).
  destruct Hst as [config v v' Hst|config v s Hs|m s Hc Hx|config faults s fds signals shared impl s' g throws signals' v Hh Hto Hrun
    |config faults s fds signals shared error s' g Hto].
  - destruct Hk as (Hsys & lo1 & cs1 & b & Hi). split; [|exists lo1, cs1, b; by eapply server_inv_step].
    destruct (server_step_engine _ _ _ _ _ _ _ Hi Hst) as [->|Hs]; [done|]. by eapply sys_step_inv.
  - exists cs. by eapply at_rest_same.
  - by eapply power_loss_at_rest.
  - assert (launched config p lo cs v) as Hl
      by (by exists faults, Recover, s, fds, signals, shared, impl, s', g, throws, signals').
    destruct (launched_ready _ _ _ _ _ Hl) as (b & rs & impl1 & gw & fds1 & proc & throws1 & signals1 & _ & _ & Hready & ->).
    split; [left; exists cs; apply Hready|].
    destruct (launched_inv _ _ _ _ _ _ Hl Hh (rtc_refl _ _)) as (b' & _ & _ & Hi). by exists lo, cs, b'.
  - destruct (runs_to_WP _ _ _ _ _ _ Hto (WPc_create faults config p Recover lo cs s _ Hr)) as [_ He].
    exists cs. destruct He as [_ He]. destruct (ese_code error).
    + by destruct He as [_ ->].
    + destruct He as (_ & _ & He). by apply He.
    + apply He.
Qed.

Lemma keeps_lives p lo m m' : rtc (life p) m m' -> keeps p lo m -> keeps p lo m'.
Proof. induction 1; eauto using keeps_life. Qed.

(** C13: what the clients were told stays true.  At every moment of a server the
    requests that it has answered with a result, [acked], were executed one after
    the other on the book it had started with, and the answers are the summaries of
    the results.  Whatever comes then (further requests, a kill, a loss of power,
    any number of restarts, also failing ones, with any configurations for which
    [histogram_fits]), every
    healthy engine that runs later has in its book the result of a history that
    begins with the history at the start and all of [acked]. *)
Theorem answers_survive_restarts config p lo cs v0 v :
  launched config p lo cs v0 -> histogram_fits config -> rtc server_step v0 v ->
  exists b rs acked un b1 results answers,
    runs new_book cs b rs /\ runs b (commands_of acked) b1 results /\
    zip_with Exchange.summarize acked results = Some <$> answers /\
    w_answered (ws v) = answers ++ (Exchange.unavailable_response <$> un) /\
    forall config' v', rtc (life p) (Up config v) (Up config' v') ->
      de_state (w_engine (ws v')) = Healthy -> acked <> [] ->
      exists new rs', runs new_book ((cs ++ commands_of acked) ++ new) (de_order_book (w_engine (ws v'))) rs'.
Proof.
  intros Hl Hh Hst. destruct (launched_inv _ _ _ _ _ _ Hl Hh Hst) as (b & rs & Hrs & Hi).
  destruct (si_worker_inv _ _ _ _ _ _ Hi) as (acked & un & unacked & results2 & Hd & _).
  destruct Hd as (results1 & answers & b1 & b2 & H1 & _ & H3 & H4 & (lo' & Hlo & Hlo' & He) & _).
  exists b, rs, acked, un, b1, results1, answers. split_and!; [done..|].
  intros config' v' Hlife Hhealthy Ha.
  assert (keeps p (cs ++ commands_of acked) (Up config v)) as Hk.
  { split; [|by exists lo, cs, b]. rewrite fmap_app, app_assoc in Hlo', He.
    assert (lo' = (cs ++ commands_of acked) ++ commands_of unacked) as -> by (apply Hlo'; by destruct acked).
    apply (sys_inv_weaken _ ((cs ++ commands_of acked) ++ commands_of unacked)); [by apply prefix_app_r|].
    destruct He as [[He _]|He]; [left; by eexists|by right]. }
  destruct (keeps_lives _ _ _ _ Hlife Hk) as [[[cs' He']|[Hf _]] _]; [|congruence].
  destruct (eo_lo _ _ _ _ _ He') as [new ->]. destruct (eo_book _ _ _ _ _ He') as [rs' Hrs']. by exists new, rs'.
Qed.

End restart.

(** ** A concrete restart

    The server of the demonstration has answered its three requests; the machine
    loses power, and the server is started again on the journal. *)

Definition demo_commands : list JournalCommand :=
  [SubmitLimitOrderCommand (mkNewLimitOrder 1 Buy 100 5); SubmitLimitOrderCommand (mkNewLimitOrder 2 Sell 100 3);
   CancelOrderCommand 1].

Definition demo_rebooted : Proc MemWorld := sample_proc (Some (journal_bytes demo_commands)) [].

Abbreviation Started := (option (outcome (Proc MemWorld) (Exchange.Impl + ExchangeServerError) * GatewayState * Kernel)).

(** The server that runs after a [create]. *)
Definition server_of (created : Started) : option (@Server MemWorld) :=
  match created with
  | Some (Returned s (inl impl), g, _) => snd (run impl (g_fds g) s no_throws 0)
  | _ => None
  end.

Definition healthy (v : option (@Server MemWorld)) : bool :=
  match v with Some v => bool_decide (de_state (w_engine (ws v)) = Healthy) | None => false end.

Lemma server_of_life n config s (created : Started) v :
  histogram_fits config ->
  run_alone n (Exchange.create no_faults config sample_path Recover s) (new_gateway_state empty 0) unshared demo_kernel
    = created ->
  server_of created = Some v -> life sample_path (Off s) (Up config v).
Proof.
  intros Hh E Hv. destruct created as [[[[s' [impl|?]|?|?] g] k]|]; try discriminate Hv.
  eapply life_restarts; [exact Hh|by eapply run_alone_runs_to|exact Hv].
Qed.

Lemma answers_survive_restarts_witness :
  exists v acked new rs, rtc (life sample_path) (Up demo_config (demo_at 5)) (Up demo_config v) /\
    acked <> [] /\ runs new_book (commands_of acked ++ new) (de_order_book (w_engine (ws v))) rs.
Proof.
  assert (exists created,
    run_alone 100 (Exchange.create no_faults demo_config sample_path Recover demo_rebooted)
      (new_gateway_state empty 0) unshared demo_kernel = created /\ healthy (server_of created) = true)
    as (created & Ec & Hh) by (eexists; split; [reflexivity|vm_compute; reflexivity]).
  destruct (server_of created) as [v|] eqn:Ev; [|discriminate Hh]. apply bool_decide_eq_true in Hh.
  pose proof (server_of_life 100 demo_config demo_rebooted created v demo_fits Ec Ev) as Hrestart. clear created Ec Ev.
  assert (rtc (life sample_path) (Up demo_config (demo_at 5)) (Up demo_config v)) as Hlife.
  { eapply rtc_l; [apply (life_power_loss sample_path _ demo_rebooted)|exact (rtc_once _ _ Hrestart)].
    - change (contents (os demo_rebooted) sample_path ∈ mem_crash (os (w_proc (ws (demo_at 5)))) sample_path). decide_now.
    - intros x Hx. change (x ∈ [Some (journal_bytes demo_commands)]) in Hx.
      apply list_elem_of_singleton in Hx as ->. vm_compute. reflexivity. }
  destruct (answers_survive_restarts demo_config sample_path [] [] (demo_start demo_config no_throws) (demo_at 5)
    demo_is_launched demo_fits (demo_steps 5)) as (b & rs & acked & un & b1 & results & answers & _ & _ & Hz & Ha & H).
  assert (w_answered (ws (demo_at 5)) = demo_answers) as E by (vm_compute; reflexivity).
  assert (acked <> []) as Hne.
  { intros ->. destruct answers; [|discriminate Hz]. rewrite E in Ha. destruct un as [|[]]; discriminate Ha. }
  destruct (H demo_config v Hlife Hh Hne) as (new & rs' & Hr). exists v, acked, new, rs'. exact (conj Hlife (conj Hne Hr)).
Defined.
